(* ===== verification/_CoqProject ===== *)
-Q . S2P
Prelude.v
Bytes.v
GoIO.v
Wal.v
Memtable.v
SSTable.v
Engine.v
Layers.v
EngineCorrect.v
EngineRecovery.v
Messages.v
ConfState.v
DiskStorage.v
StorageCorrect.v
StorageMem.v
LogFacts.v
DurableLog.v
Node.v
NodeWf.v
NodeSteps.v
NodeVotes.v
NodeRoles.v
NodeLog.v
NodeHazards.v
Cluster.v
RaftSpec.v
NodeEffects.v
NodeDurable.v
LogView.v
Replication.v
ReplicationSafety.v
Network.v
Harness.v
StateMachine.v
EngineInstance.v
Transport.v
Server.v
ServerCorrect.v
ServerEngine.v
Metrics.v
Client.v
Linearizability.v
GoText.v
Commands.v
WebApi.v
Bench.v
