(* ===== verification/Prelude.v ===== *)
(** DistKV in Rocq: a model of the replicated key-value store and the theorems that
    make it correct. This file is also the prelude of the development: byte
    strings, machine integers, shared list lemmas and automation.

    * The program and the files that model it

    A DistKV node stores its data in an LSM engine (storage/), agrees with the
    other nodes on a log of commands (raft/), applies the committed commands to
    the engine and serves clients (server/). Clients retry over all nodes
    (client/); the tests run nodes on a simulated network and check histories of
    clients against a sequential model (harness/, linearizability/).

    - Bytes: encoding/binary's little-endian integers and hash/crc32.
    - GoIO: os.File and bufio.Writer. A file has the bytes that were fsynced, the
      bytes that were only written, and a script with the outcome of every coming
      system call: [Done] or [FailAfter n]. [crash f n] keeps the fsynced bytes and
      the first [n] of the others.
    - Wal: storage/wal.go (OpenWAL, Append, Sync, Close, ReplayWAL).
    - Memtable: storage/memtable.go, the skiplist, with nodes in a store that point
      to each other by index as the Go nodes do by pointer.
    - SSTable: storage/sstable.go (writeSSTable, openSSTable, scanBlock, get, all)
      on the bytes of the file.
    - Engine: storage/engine.go (OpenEngine, Put, Delete, Get, Flush, compaction,
      SnapshotEntries, Reset). Layers has the abstract view of a stack of sorted
      layers as one map; EngineCorrect and EngineRecovery hold the theorems.
    - Messages: the fields of proto/raftpb that the program uses.
    - ConfState: raft/confstate.go, membership and quorums.
    - DiskStorage: raft/storage.go, term, vote, log, snapshot and membership over
      the write-ahead log. StorageMem says what each call does in memory,
      StorageCorrect what is on disk, LogFacts how the log grows and shrinks,
      DurableLog what a crash may lose on a device that does not fail.
    - Node: raft/node.go. A critical section (what runs under n.mu) is one
      function; a goroutine that waits for an RPC's answer continues in a function
      of its own (onVoteResponse, onAppendResponse, onSnapshotResponse,
      onReadResponse). Time and random numbers are the argument [clock].
      NodeWf has the invariant, NodeSteps the node as a transition system,
      NodeVotes terms and votes, NodeRoles what changes the role, NodeLog
      replication, commit, applying and snapshots, NodeHazards where it goes
      wrong.
    - Cluster: the elections of several nodes, with lost and delayed votes, stops,
      restarts and crashes, as a step relation.
    - RaftSpec: the abstract Raft protocol, whole logs without handlers, storage or
      compaction, with its invariant. NodeEffects says what each handler does to a
      node's log in those terms, NodeDurable which entries await their fsync after
      it and what a restart finds. LogView relates the log a node shows to the
      protocol's: a snapshot from another node keeps the entries behind it, also
      where the log disagrees with the snapshot. Replication composes the nodes with
      the requests and answers in flight (AppendEntries and InstallSnapshot) and
      with restarts and crashes, and shows that their runs are runs of RaftSpec;
      ReplicationSafety draws the safety theorems from it.
    - Network: harness/network.go, the simulated network. Harness:
      harness/cluster.go, the test cluster on it, and its runs ([harness_run]):
      NewCluster, the nodes' steps, the goroutines that record what they apply,
      StopNode and RestartNode.
    - StateMachine: server/statemachine.go, written against the class KVEngine of
      the engine's operations; the class KVSpec states their laws, and Gob those of
      encoding/gob. EngineInstance shows that Engine satisfies KVSpec.
    - Transport: server/transport.go, the cached connections.
    - Server: server/server.go and server/membership.go; an RPC that waits is split
      where it waits. ServerCorrect has the theorems, ServerEngine the server on
      the program's own engine.
    - Metrics: server/metrics.go, and the handlers of Put, Delete and Get as the
      stages between which they wait, with the metrics each stage updates.
    - Client: client/client.go, the retry loop and every operation, both over RPCs
      with fixed answers and over RPCs that change the cluster.
    - Linearizability: linearizability/model.go.
    - GoText: what the commands use of strings, strconv, sort and net. Commands:
      cmd/distkv/main.go and cmd/distkv-cli/main.go. WebApi:
      cmd/distkv-webapi/main.go. Bench: cmd/bench/main.go, the load generator.

    In every file [None] as the result of an operation is a run-time panic, an
    error is a value ([Err], [inl] or [Some er]), a uint64 is an [N] whose
    arithmetic wraps, and random choices and the outcomes of system calls are
    arguments, so that a theorem covers all of them.

    * What the theorems show

    - Storage: the log recovers every synced record after a crash (Wal); the
      skiplist is a sorted map (Memtable); a table returns what was written to it
      (SSTable); the engine is a key-value map whatever calls fail, and after
      a kill between two calls recovers a prefix of its writes (EngineCorrect,
      EngineRecovery).
    - Raft: what the storage reported as done survives a crash (StorageCorrect);
      a node keeps its invariant and does not panic (NodeSteps); it votes once per
      term, also across a crash (NodeVotes); AppendEntries, the commit rule, the
      applier and InstallSnapshot do what Raft asks of them (NodeLog); quorums of
      neighbouring memberships intersect and the commit index is the greatest one a
      quorum allows (ConfState); two nodes never lead in the same term (Cluster).
    - Replication: the nodes refine Raft (Replication); no two nodes apply different
      commands at an index, a leader has every committed entry, logs match, a snapshot
      stands for committed entries, and a request that was sent is one its receiver
      takes (ReplicationSafety).
    - Service: the state machine refines its specification over any engine with
      the interface's laws, requests take effect at most once and those in
      their client's order do, a snapshot carries the state (StateMachine); a server's state is the fold of the committed log
      and a write is acknowledged only once applied (ServerCorrect); the writes of a
      client that calls one operation after the other, each retried until it returns
      nil, take effect once and in order, and its retry loop ends (Client); an RPC goes to its peer's current address (Transport).
    - Tests: checking each key of a history on its own is sound and complete
      (Linearizability); a partition isolates its groups and nothing else (Network);
      the consistency check of the test cluster is exact, and passes in every run of
      a cluster with a fixed membership on disks that work (Harness).
    - Commands: the counters count the RPCs answered, on every path of their handlers
      (Metrics); the server command reads back
      the peers that were written, and the command-line client panics on two command
      lines only (Commands); the HTTP API answers 200 only for acknowledged writes
      and lists every node once (WebApi); the load generator's percentiles are what
      they say, and its report does not depend on the order of its workers (Bench).
    - Where the code falls short of its documentation: Wal (records behind a torn
      tail are lost), EngineRecovery (a torn table blocks the directory, a failed
      removal brings a deleted key back), NodeHazards, StateMachine, ServerCorrect,
      ServerEngine, Metrics, Commands, WebApi and Bench. They bound the theorems
      above: a vote survives one crash of a node started on an empty directory, but
      after a torn record a second crash can lose it, so Cluster and Replication let
      each node stop and restart any number of times but crash once; a follower
      whose fsync failed acknowledges the entries on the retry, so Replication lets
      the nodes restart and crash whose device does not fail (its parameter
      [reliable]), and the others have failures but no restart.

    * Hypotheses, bounds and fuel

    - Sizes: entries fit the 4-byte length fields of the formats and a run's
      entries stay below 256 GiB ([budget]); indices and terms stay below 2^64
      ([room], [ev_fits]). Past that the encodings of the source truncate.
    - [append_ok] and [snap_ok] state what a leader sends: contiguous entries
      that do not contradict what is committed; sent_requests_handled shows that
      the AppendEntries requests of a run of the cluster are such.
    - [timer_ok]: ElectionTimeoutMin is at most ElectionTimeoutMax, as in the
      defaults; otherwise rand.Int63n panics, in the model as in the source.
    - [honest], for a client's session: the log only grows, by requests that were
      sent or are another client's, and a write answered with nil is in it.
    - Unmarshal inverts Marshal (protobuf) and Decode inverts Encode (gob); both are
      instantiated by concrete functions in the witnesses.
    - Node runs store their snapshots without an error; every other call on the
      device may fail. A crash falls between two critical sections.
    - Fuel: the loops of Memtable take the number of nodes, the parsing loops the
      number of bytes left, conflict_next and conflict_start the length of the log
      and apply_loop the distance to the commit index; each turn uses one up, and
      the theorems that mention these loops show that they end before it does. The
      client's loop has the number of rounds as fuel, and try_terminates says how
      many are enough.

    * Not modelled

    - Serialization by protobuf, gob and JSON, gRPC, Prometheus, net/http and the
      listeners (Serve, Stop, and main of the HTTP API): libraries and input/output
      around the modelled parts.
    - Goroutine scheduling inside a critical section: each holds its mutex
      throughout, so their order is all that is left, and it is arbitrary.
    - Real time: deadlines and timers are observations that may answer anything.
    - A crash in the middle of saveSnapshot, of a flush or of a compaction; a crash
      falls between two calls. Failures of os.Open, Stat and ReadAt on a table, of
      MkdirAll and Glob, and of the removal of raft.wal.tmp: these calls succeed.
    - In a cluster: a change of the membership. ConfState and Node have it for one
      node.
    - Texts for people: DescribeOperation of the linearizability model, and the rate
      in the load generator's report. *)

From stdpp Require Export base tactics numbers list sorting option gmap.
From Stdlib Require Export Strings.Byte.
From Stdlib Require Strings.String.
Export String.StringSyntax.

(** ** Notations and base types *)

Declare Scope go_scope.
Delimit Scope go_scope with go.
Delimit Scope string_scope with string.

(** Go's []byte and string: both are byte sequences; a Go string is compared
    and hashed by its bytes. *)
Abbreviation bytes := (list byte).

(** A Go string literal. *)
Definition str (s : String.string) : bytes := String.list_byte_of_string s.
Arguments str s%_string.

#[global] Instance byte_eq_dec : EqDecision byte := Byte.byte_eq_dec.

Lemma byte_of_to_N (b : byte) : Byte.of_N (Byte.to_N b) = Some b.
Proof. apply Byte.of_to_N. Qed.

#[global] Instance byte_countable : Countable byte :=
  inj_countable Byte.to_N Byte.of_N byte_of_to_N.

(** ** Machine integers

    A uint64 is an [N] below [two64]; every arithmetic operation of the
    source on uint64 goes through [add64]/[sub64], which wrap around. *)

Definition two64 : N := 18446744073709551616.
Definition two32 : N := 4294967296.

Definition add64 (a b : N) : N := ((a + b) mod two64)%N.
Definition sub64 (a b : N) : N := ((a + two64 - b) mod two64)%N.

Notation "a +64 b" := (add64 a b) (at level 50, left associativity) : go_scope.
Notation "a -64 b" := (sub64 a b) (at level 50, left associativity) : go_scope.
Open Scope go_scope.

(** Length of a Go slice or string, as an integer. *)
Definition len {A} (l : list A) : N := N.of_nat (length l).

Lemma add64_small a b : (a + b < two64)%N -> a +64 b = (a + b)%N.
Proof. intros H. unfold add64. by apply N.mod_small. Qed.

Lemma sub64_small a b : (b <= a < two64)%N -> a -64 b = (a - b)%N.
Proof.
  intros [H1 H2]. unfold sub64.
  replace (a + two64 - b)%N with ((a - b) + 1 * two64)%N by lia.
  rewrite N.Div0.mod_add. apply N.mod_small. lia.
Qed.

Lemma add64_lt a b : (a +64 b < two64)%N.
Proof. unfold add64. apply N.mod_upper_bound. done. Qed.

Lemma len_app {A} (l k : list A) : len (l ++ k) = (len l + len k)%N.
Proof. unfold len. rewrite length_app. lia. Qed.

Lemma len_nil {A} : len (@nil A) = 0%N.
Proof. done. Qed.

Lemma len_cons {A} (x : A) l : len (x :: l) = (1 + len l)%N.
Proof. unfold len. simpl. lia. Qed.

(** ** Automation *)

Create HintDb distkv.
Create Rewrite HintDb distkv.
#[export] Hint Rewrite @len_app @len_nil @len_cons @length_app @length_take @length_drop : distkv.
#[export] Hint Resolve add64_lt : distkv.

(** Splits conjunctions and existentials in the hypotheses. *)
Ltac deex :=
  repeat match goal with
  | H : ex _ |- _ => let x := fresh "x" in destruct H as [x H]
  | H : _ /\ _ |- _ => destruct H
  end.

(** Case analysis on every boolean comparison in the goal or a hypothesis. *)
Ltac bcase :=
  repeat match goal with
  | |- context [ N.ltb ?a ?b ] => destruct (N.ltb_spec a b)
  | |- context [ N.leb ?a ?b ] => destruct (N.leb_spec a b)
  | |- context [ N.eqb ?a ?b ] => destruct (N.eqb_spec a b)
  | H : context [ N.ltb ?a ?b ] |- _ => destruct (N.ltb_spec a b)
  | H : context [ N.leb ?a ?b ] |- _ => destruct (N.leb_spec a b)
  | H : context [ N.eqb ?a ?b ] |- _ => destruct (N.eqb_spec a b)
  end.

(** ** Lists *)

Section lists.
Context {A : Type}.
Implicit Types l k : list A.

Lemma take_len_app l k : take (N.to_nat (len l)) (l ++ k) = l.
Proof. unfold len. rewrite Nat2N.id. apply take_app_length. Qed.

Lemma drop_len_app l k : drop (N.to_nat (len l)) (l ++ k) = k.
Proof. unfold len. rewrite Nat2N.id. apply drop_app_length. Qed.

Lemma filter_all (P : A -> Prop) `{!forall x, Decision (P x)} l : Forall P l -> filter P l = l.
Proof. induction 1 as [|x l Hx Hl IH]; [done|]. by rewrite filter_cons_True, IH. Qed.

Lemma filter_none (P : A -> Prop) `{!forall x, Decision (P x)} l : Forall (fun x => ~ P x) l -> filter P l = [].
Proof. induction 1 as [|x l Hx Hl IH]; [done|]. by rewrite filter_cons_False, IH. Qed.

End lists.

(** ** Order on Go strings: bytewise lexicographic *)

Fixpoint bytes_compare (a b : bytes) : comparison :=
  match a, b with
  | [], [] => Eq
  | [], _ :: _ => Lt
  | _ :: _, [] => Gt
  | x :: a', y :: b' =>
      match N.compare (Byte.to_N x) (Byte.to_N y) with
      | Eq => bytes_compare a' b'
      | c => c
      end
  end.

Definition bytes_ltb (a b : bytes) : bool :=
  match bytes_compare a b with Lt => true | _ => false end.

Definition bytes_lt (a b : bytes) : Prop := bytes_compare a b = Lt.

#[global] Instance bytes_lt_dec : RelDecision bytes_lt.
Proof. intros a b. unfold bytes_lt. solve_decision. Defined.

Lemma bytes_ltb_lt a b : bytes_ltb a b = true <-> bytes_lt a b.
Proof. unfold bytes_ltb, bytes_lt. by destruct bytes_compare. Qed.

Lemma to_N_inj x y : Byte.to_N x = Byte.to_N y -> x = y.
Proof.
  intros H. apply (f_equal Byte.of_N) in H.
  rewrite !Byte.of_to_N in H. by inversion H.
Qed.

Lemma bytes_compare_eq a b : bytes_compare a b = Eq <-> a = b.
Proof.
  revert b. induction a as [|x a IH]; intros [|y b]; simpl; try done.
  destruct (N.compare_spec (Byte.to_N x) (Byte.to_N y)) as [E|L|G].
  - apply to_N_inj in E as ->. rewrite IH. split; [by intros ->|by intros [= ->]].
  - split; [done|]. intros [= -> ->]. lia.
  - split; [done|]. intros [= -> ->]. lia.
Qed.

Lemma bytes_compare_antisym a b : bytes_compare b a = CompOpp (bytes_compare a b).
Proof.
  revert b. induction a as [|x a IH]; intros [|y b]; simpl; try done.
  rewrite (N.compare_antisym (Byte.to_N x) (Byte.to_N y)).
  destruct (N.compare (Byte.to_N x) (Byte.to_N y)); simpl; [apply IH|done..].
Qed.

Lemma bytes_lt_trans a b c : bytes_lt a b -> bytes_lt b c -> bytes_lt a c.
Proof.
  unfold bytes_lt. revert b c. induction a as [|x a IH]; intros [|y b] [|z c]; simpl; try done.
  destruct (N.compare_spec (Byte.to_N x) (Byte.to_N y)) as [E|L|G]; try done;
  destruct (N.compare_spec (Byte.to_N y) (Byte.to_N z)) as [E'|L'|G']; try done; intros H1 H2.
  - rewrite E, E', N.compare_refl. by eapply IH.
  - rewrite E. by apply N.compare_lt_iff in L' as ->.
  - rewrite <-E'. by apply N.compare_lt_iff in L as ->.
  - assert (Byte.to_N x < Byte.to_N z)%N as ->%N.compare_lt_iff by lia. done.
Qed.

#[global] Instance bytes_lt_strict : StrictOrder bytes_lt.
Proof.
  split.
  - intros a H. unfold bytes_lt in H.
    assert (bytes_compare a a = Eq) as E by by apply bytes_compare_eq. congruence.
  - intros a b c. apply bytes_lt_trans.
Qed.

#[global] Instance bytes_lt_tricho : Trichotomy bytes_lt.
Proof.
  intros a b. unfold bytes_lt. rewrite (bytes_compare_antisym a b).
  destruct (bytes_compare a b) eqn:E; simpl; auto.
  right; left. by apply bytes_compare_eq.
Qed.

Lemma bytes_lt_irrefl a : ~ bytes_lt a a.
Proof. apply (irreflexivity bytes_lt). Qed.

Lemma bytes_ltb_irrefl a : bytes_ltb a a = false.
Proof. apply not_true_iff_false. rewrite bytes_ltb_lt. apply bytes_lt_irrefl. Qed.

Lemma bytes_lt_asym a b : bytes_lt a b -> ~ bytes_lt b a.
Proof. intros H1 H2. by apply (bytes_lt_irrefl a), (bytes_lt_trans _ b). Qed.

Lemma bytes_ltb_spec a b : reflect (bytes_lt a b) (bytes_ltb a b).
Proof. apply iff_reflect. symmetry. apply bytes_ltb_lt. Qed.

Definition bytes_eqb (a b : bytes) : bool := bool_decide (a = b).

Lemma bytes_eqb_spec a b : reflect (a = b) (bytes_eqb a b).
Proof. unfold bytes_eqb. apply bool_decide_reflect. Qed.

#[export] Hint Resolve bytes_lt_irrefl bytes_lt_trans bytes_lt_asym : distkv.
