(* ===== verification/Bytes.v ===== *)
(** Byte-level encodings the source takes from Go's standard library:
    encoding/binary's little-endian integers (used by storage/wal.go,
    storage/sstable.go, storage/engine.go, raft/storage.go and
    raft/confstate.go) and hash/crc32's IEEE checksum (storage/wal.go,
    storage/sstable.go), with the round trips the file formats rest on. *)

From S2P Require Import Prelude.

(** ** Little-endian integers *)

Module LittleEndian.

Definition byte_of (n : N) : byte := default x00 (Byte.of_N (n mod 256)).

(** [put n v]: the [n] low bytes of [v], least significant first. *)
Fixpoint put (n : nat) (v : N) : bytes :=
  match n with
  | O => []
  | S n => byte_of v :: put n (v / 256)%N
  end.

(** The integer whose little-endian bytes are [b]. *)
Fixpoint get (b : bytes) : N :=
  match b with
  | [] => 0
  | x :: b => (Byte.to_N x + 256 * get b)%N
  end.

(** binary.LittleEndian.PutUint32 and Uint32 (of the first four bytes). *)
Definition PutUint32 (v : N) : bytes := put 4 v.
Definition Uint32 (b : bytes) : N := get (take 4 b).

(** binary.LittleEndian.PutUint64 and Uint64 (of the first eight bytes). *)
Definition PutUint64 (v : N) : bytes := put 8 v.
Definition Uint64 (b : bytes) : N := get (take 8 b).

Lemma to_N_byte_of n : Byte.to_N (byte_of n) = (n mod 256)%N.
Proof.
  unfold byte_of. destruct (Byte.of_N (n mod 256)) as [b|] eqn:E; simpl.
  - by apply Byte.to_of_N_iff.
  - apply Byte.of_N_None_iff in E.
    pose proof (N.mod_upper_bound n 256 ltac:(done)). lia.
Qed.

Lemma length_put n v : length (put n v) = n.
Proof. revert v. induction n; intros; simpl; auto. Qed.

Lemma get_put n v : get (put n v) = (v mod 256 ^ N.of_nat n)%N.
Proof.
  revert v. induction n as [|n IH]; intros v; simpl get.
  - by rewrite N.mod_1_r.
  - rewrite to_N_byte_of, IH, Nat2N.inj_succ, N.pow_succ_r'.
    rewrite N.Div0.mod_mul_r. lia.
Qed.

Lemma get_lt b : (get b < 256 ^ N.of_nat (length b))%N.
Proof.
  induction b as [|x b IH]; [done|]. simpl length. simpl get.
  rewrite Nat2N.inj_succ, N.pow_succ_r'.
  pose proof (Byte.to_N_bounded x). lia.
Qed.

Lemma length_PutUint32 v : length (PutUint32 v) = 4.
Proof. apply length_put. Qed.

Lemma length_PutUint64 v : length (PutUint64 v) = 8.
Proof. apply length_put. Qed.

Lemma Uint32_Put v rest : (v < two32)%N -> Uint32 (PutUint32 v ++ rest) = v.
Proof.
  intros H. unfold Uint32. rewrite take_app_le by by rewrite length_PutUint32.
  rewrite take_ge by by rewrite length_PutUint32.
  unfold PutUint32. rewrite get_put. by apply N.mod_small.
Qed.

Lemma Uint64_Put v rest : (v < two64)%N -> Uint64 (PutUint64 v ++ rest) = v.
Proof.
  intros H. unfold Uint64. rewrite take_app_le by by rewrite length_PutUint64.
  rewrite take_ge by by rewrite length_PutUint64.
  unfold PutUint64. rewrite get_put. by apply N.mod_small.
Qed.

Lemma Uint32_lt b : (Uint32 b < two32)%N.
Proof.
  unfold Uint32. eapply N.lt_le_trans; [apply get_lt|].
  change two32 with (256 ^ 4)%N. apply N.pow_le_mono_r; [done|].
  rewrite length_take. lia.
Qed.

Lemma Uint64_lt b : (Uint64 b < two64)%N.
Proof.
  unfold Uint64. eapply N.lt_le_trans; [apply get_lt|].
  change two64 with (256 ^ 8)%N. apply N.pow_le_mono_r; [done|].
  rewrite length_take. lia.
Qed.

End LittleEndian.

#[global] Arguments LittleEndian.put : simpl never.
#[global] Arguments LittleEndian.get : simpl never.
#[global] Arguments LittleEndian.PutUint32 : simpl never.
#[global] Arguments LittleEndian.PutUint64 : simpl never.
#[global] Arguments LittleEndian.Uint32 : simpl never.
#[global] Arguments LittleEndian.Uint64 : simpl never.

Export LittleEndian (PutUint32, Uint32, PutUint64, Uint64).
#[export] Hint Rewrite LittleEndian.length_PutUint32 LittleEndian.length_PutUint64 : distkv.

(** ** CRC-32 (IEEE) *)

Module Crc32.

(** One shift of the reflected IEEE polynomial. *)
Definition shift (c : N) : N :=
  if N.odd c then N.lxor (N.shiftr c 1) 0xEDB88320 else N.shiftr c 1.

Definition update_byte (c : N) (b : byte) : N :=
  Nat.iter 8 shift (N.lxor c (Byte.to_N b)).

(** crc32.ChecksumIEEE *)
Definition ChecksumIEEE (p : bytes) : N :=
  N.lxor (foldl update_byte 0xFFFFFFFF%N p) 0xFFFFFFFF.

Lemma lxor_lt32 a b : (a < two32)%N -> (b < two32)%N -> (N.lxor a b < two32)%N.
Proof.
  intros Ha Hb. change two32 with (2 ^ 32)%N in *.
  destruct (N.eq_dec (N.lxor a b) 0%N) as [->|Hne]; [done|].
  apply N.log2_lt_pow2; [lia|].
  eapply N.le_lt_trans; [apply N.log2_lxor|].
  apply N.max_lub_lt.
  - destruct (N.eq_dec a 0%N) as [->|]; [done|]. apply N.log2_lt_pow2; lia.
  - destruct (N.eq_dec b 0%N) as [->|]; [done|]. apply N.log2_lt_pow2; lia.
Qed.

Lemma shift_lt c : (c < two32)%N -> (shift c < two32)%N.
Proof.
  intros H. unfold shift.
  assert (N.shiftr c 1 < two32)%N.
  { rewrite N.shiftr_div_pow2. eapply N.le_lt_trans; [|exact H].
    apply N.Div0.div_le_upper_bound. change (2 ^ 1)%N with 2%N. lia. }
  destruct (N.odd c); [apply lxor_lt32|]; done.
Qed.

Lemma update_byte_lt c b : (c < two32)%N -> (update_byte c b < two32)%N.
Proof.
  intros H. unfold update_byte.
  assert (N.lxor c (Byte.to_N b) < two32)%N.
  { apply lxor_lt32; [done|]. pose proof (Byte.to_N_bounded b). unfold two32. lia. }
  simpl. by repeat apply shift_lt.
Qed.

(** The checksum is a uint32, so a four-byte field holds it. *)
Lemma ChecksumIEEE_lt p : (ChecksumIEEE p < two32)%N.
Proof.
  unfold ChecksumIEEE. apply lxor_lt32; [|done].
  assert (forall c, c < two32 -> foldl update_byte c p < two32)%N as H.
  { induction p as [|b p IH]; intros c Hc; simpl; [done|]. by apply IH, update_byte_lt. }
  by apply H.
Qed.

(** The check value of the published CRC-32/IEEE parameters. *)
Example ChecksumIEEE_check : ChecksumIEEE (str "123456789") = 0xCBF43926%N.
Proof. vm_compute. reflexivity. Qed.

End Crc32.

Export Crc32 (ChecksumIEEE).
