(* ===== verification/GoIO.v ===== *)
(** The parts of Go's os and bufio packages that the storage code calls: an
    append-only file with a volatile cache, system calls that can fail part
    way, and bufio.Writer with its sticky error and its 4096-byte buffer. *)

From S2P Require Import Prelude Bytes.

(** ** Errors *)

(** A Go error value: an operating-system error, or one made by errors.New or
    fmt.Errorf in the source (with its constant text). *)
Inductive error :=
  | EIO
  | Errorf (msg : bytes).

(** The text of an error. *)
Definition error_text (e : error) : bytes :=
  match e with EIO => str "input/output error" | Errorf m => m end.

#[global] Instance error_eq_dec : EqDecision error.
Proof. solve_decision. Defined.

(** How a Go call ends: with a value, with a non-nil error, or in a run-time
    panic (a slice bound or an index out of range). *)
Inductive result (A : Type) :=
  | Ok (a : A)
  | Err (e : error)
  | Panic.
Arguments Ok {A} a.
Arguments Err {A} e.
Arguments Panic {A}.

(** Sequencing: [if err != nil { return err }], and panics propagate. *)
Definition rbind {A B} (r : result A) (k : A -> result B) : result B :=
  match r with Ok a => k a | Err e => Err e | Panic => Panic end.

Notation "'let*' x ':=' r 'in' k" := (rbind r (fun x => k))
  (at level 10, x pattern, r at level 100, k at level 200) : go_scope.

(** ** Files *)

(** What the operating system answers to a system call: done, or failed after
    transferring [n] bytes (for the calls that transfer bytes). *)
Inductive outcome :=
  | Done
  | FailAfter (n : nat).

(** An append-only file and its handle: the bytes known to be on disk, the bytes
    written since the last fsync, the outcomes of the calls still to come (an
    exhausted script means the calls succeed), and whether the handle was
    closed (every call on it then fails). *)
Record file := mkFile {
  f_durable : bytes;
  f_cached : bytes;
  f_script : list outcome;
  f_closed : bool
}.

Definition empty_file : file := mkFile [] [] [] false.

Definition contents (f : file) : bytes := f_durable f ++ f_cached f.

(** The next outcome of the script, and the file without it. *)
Definition syscall (f : file) : outcome * file :=
  if f_closed f then (FailAfter 0, f)
  else match f_script f with
  | [] => (Done, f)
  | o :: s => (o, mkFile (f_durable f) (f_cached f) s (f_closed f))
  end.

(** os.File.Write in append mode: bytes transferred, error, file. *)
Definition file_Write (f : file) (p : bytes) : nat * option error * file :=
  match syscall f with
  | (Done, f) => (length p, None, mkFile (f_durable f) (f_cached f ++ p) (f_script f) (f_closed f))
  | (FailAfter n, f) =>
      let q := take n p in
      (length q, Some EIO, mkFile (f_durable f) (f_cached f ++ q) (f_script f) (f_closed f))
  end.

(** os.File.Sync *)
Definition file_Sync (f : file) : option error * file :=
  match syscall f with
  | (Done, f) => (None, mkFile (contents f) [] (f_script f) (f_closed f))
  | (FailAfter _, f) => (Some EIO, f)
  end.

(** os.OpenFile on an existing path, os.File.Stat, os.Rename: calls that succeed
    or fail without changing the bytes. *)
Definition file_call (f : file) : option error * file :=
  match syscall f with
  | (Done, f) => (None, f)
  | (FailAfter _, f) => (Some EIO, f)
  end.

(** os.File.Close: the handle is gone, whatever the answer. *)
Definition file_Close (f : file) : option error * file :=
  let '(e, f) := file_call f in (e, mkFile (f_durable f) (f_cached f) (f_script f) true).

(** The same bytes behind a new handle. *)
Definition reopen (f : file) : file := mkFile (f_durable f) (f_cached f) (f_script f) false.

(** What a crash can leave of a file: every byte that was fsynced, and some
    prefix of the bytes written after that. *)
Definition crash (f : file) (n : nat) : file :=
  mkFile (f_durable f ++ take n (f_cached f)) [] [] false.

(** ** bufio.Writer *)

Module Bufio.

Definition defaultBufSize : nat := 4096.

Record Writer := mkWriter {
  w_file : file;
  w_buf : bytes;
  w_err : option error
}.

Definition NewWriter (f : file) : Writer := mkWriter f [] None.

Definition Available (w : Writer) : nat := defaultBufSize - length (w_buf w).

Definition Flush (w : Writer) : option error * Writer :=
  match w_err w with
  | Some e => (Some e, w)
  | None =>
      match w_buf w with
      | [] => (None, w)
      | _ =>
          match file_Write (w_file w) (w_buf w) with
          | (n, Some e, f) => (Some e, mkWriter f (drop n (w_buf w)) (Some e))
          | (_, None, f) => (None, mkWriter f [] None)
          end
      end
  end.

(** A write that does not fit in the empty buffer goes straight to the file. *)
Definition write_direct (w : Writer) (p : bytes) : option error * Writer :=
  let '(_, e, f) := file_Write (w_file w) p in (e, mkWriter f (w_buf w) e).

(** What is left of a write once the buffer is empty. *)
Definition write_empty (w : Writer) (p : bytes) : option error * Writer :=
  if bool_decide (length p <= defaultBufSize)
  then (None, mkWriter (w_file w) p None)
  else write_direct w p.

(** bufio.Writer.Write. Its loop runs at most twice: a first round fills and
    flushes a non-empty buffer, a second one writes directly. *)
Definition Write (w : Writer) (p : bytes) : option error * Writer :=
  match w_err w with
  | Some e => (Some e, w)
  | None =>
      if bool_decide (length p <= Available w)
      then (None, mkWriter (w_file w) (w_buf w ++ p) None)
      else match w_buf w with
      | [] => write_direct w p
      | _ =>
          let n := Available w in
          match Flush (mkWriter (w_file w) (w_buf w ++ take n p) None) with
          | (Some e, w) => (Some e, w)
          | (None, w) => write_empty w (drop n p)
          end
      end
  end.

End Bufio.

(** ** Laws *)

(** The bytes handed to a writer so far: on file, or still buffered. *)
Definition stream (w : Bufio.Writer) : bytes :=
  contents (Bufio.w_file w) ++ Bufio.w_buf w.

Lemma syscall_contents f o f' :
  syscall f = (o, f') -> f_durable f' = f_durable f /\ f_cached f' = f_cached f.
Proof. unfold syscall. destruct (f_closed f), (f_script f); by intros [= <- <-]. Qed.

Lemma file_Write_ok f p n f' :
  file_Write f p = (n, None, f') ->
  n = length p /\ f_durable f' = f_durable f /\ f_cached f' = f_cached f ++ p.
Proof.
  unfold file_Write. destruct (syscall f) as [[|k] g] eqn:E; intros [= <- <-]; simpl.
  apply syscall_contents in E as [-> ->]. done.
Qed.

(** Whatever happens, a write only appends a prefix of its argument. *)
Lemma file_Write_prefix f p n e f' :
  file_Write f p = (n, e, f') ->
  f_durable f' = f_durable f /\ f_cached f' = f_cached f ++ take n p.
Proof.
  unfold file_Write. destruct (syscall f) as [[|k] g] eqn:E; intros [= <- <- <-]; simpl;
    apply syscall_contents in E as [-> ->].
  - by rewrite take_ge.
  - rewrite length_take. destruct (decide (k <= length p)) as [?|?].
    + by rewrite Nat.min_l.
    + rewrite Nat.min_r by lia. by rewrite !take_ge by lia.
Qed.

Lemma file_Sync_ok f f' :
  file_Sync f = (None, f') -> f_durable f' = contents f /\ f_cached f' = [].
Proof.
  unfold file_Sync. destruct (syscall f) as [[|k] g] eqn:E; [|done].
  intros [= <-]; simpl. unfold contents. apply syscall_contents in E as [-> ->]. done.
Qed.

Lemma file_call_contents f e f' :
  file_call f = (e, f') -> f_durable f' = f_durable f /\ f_cached f' = f_cached f.
Proof.
  unfold file_call. destruct (syscall f) as [[|k] g] eqn:E; intros [= <- <-];
    by apply syscall_contents in E.
Qed.

(** A writer step that hands [p] over: the fsynced bytes stay, and what reaches
    the file is more of the stream. *)
Record advances (w : Bufio.Writer) (p : bytes) (w' : Bufio.Writer) : Prop := {
  adv_durable : f_durable (Bufio.w_file w') = f_durable (Bufio.w_file w);
  adv_before : contents (Bufio.w_file w) `prefix_of` contents (Bufio.w_file w');
  adv_after : contents (Bufio.w_file w') `prefix_of` stream w ++ p
}.

Lemma write_advances w p q n e f :
  file_Write (Bufio.w_file w) q = (n, e, f) ->
  (exists q', Bufio.w_buf w ++ p = q ++ q') ->
  f_durable f = f_durable (Bufio.w_file w) /\
  contents (Bufio.w_file w) `prefix_of` contents f /\ contents f `prefix_of` stream w ++ p.
Proof.
  intros H [q' Hq]. apply file_Write_prefix in H as [Hd Hc].
  unfold contents, stream, contents. rewrite Hd, Hc, <-!(assoc_L (++)), Hq.
  split; [done|split].
  - exists (take n q). by rewrite (assoc_L (++)).
  - exists (drop n q ++ q'). rewrite <-!(assoc_L (++)).
    by rewrite (assoc_L (++) (take n q)), take_drop.
Qed.

Lemma Flush_advances w e w' : Bufio.Flush w = (e, w') -> advances w [] w'.
Proof.
  destruct w as [f b [er|]]; unfold Bufio.Flush; simpl.
  { intros [= <- <-]. split; simpl; [done..|]. unfold stream; simpl.
    exists (b ++ []). by rewrite (assoc_L (++)). }
  destruct b as [|x b].
  { intros [= <- <-]. split; simpl; [done..|]. unfold stream; simpl. by rewrite !app_nil_r. }
  destruct (file_Write f (x :: b)) as [[n er] g] eqn:E.
  edestruct (write_advances (Bufio.mkWriter f (x :: b) None) []) as (?&?&?);
    [exact E|by exists []|].
  destruct er; intros [= <- <-]; by split.
Qed.

Lemma Flush_ok w w' :
  Bufio.Flush w = (None, w') ->
  contents (Bufio.w_file w') = stream w /\ Bufio.w_buf w' = [] /\ Bufio.w_err w' = None.
Proof.
  destruct w as [f b [er|]]; unfold Bufio.Flush; simpl; [done|].
  destruct b as [|x b].
  { intros [= <-]. simpl. unfold stream; simpl. by rewrite app_nil_r. }
  destruct (file_Write f (x :: b)) as [[n [e|]] g] eqn:E; [done|].
  intros [= <-]; simpl. apply file_Write_ok in E as (_ & Hd & Hc).
  unfold stream, contents; simpl. rewrite Hd, Hc. by rewrite (assoc_L (++)).
Qed.

Lemma write_direct_advances w p e w' :
  Bufio.write_direct w p = (e, w') -> Bufio.w_buf w = [] -> advances w p w'.
Proof.
  unfold Bufio.write_direct. destruct (file_Write _ _) as [[n er] f] eqn:E.
  intros [= <- <-] Hb. edestruct (write_advances w p p) as (?&?&?); [exact E| |by split].
  exists []. by rewrite Hb, app_nil_r.
Qed.

Lemma write_direct_ok w p w' :
  Bufio.write_direct w p = (None, w') -> Bufio.w_buf w = [] ->
  stream w' = stream w ++ p /\ Bufio.w_err w' = None.
Proof.
  unfold Bufio.write_direct. destruct (file_Write _ _) as [[n er] f] eqn:E.
  intros [= -> <-] Hb. apply file_Write_ok in E as (_ & Hd & Hc).
  unfold stream, contents; simpl. rewrite Hd, Hc, Hb, !app_nil_r.
  by rewrite <-(assoc_L (++)).
Qed.

(** A successful Write hands over all of [p]. *)
Lemma Write_ok w p w' :
  Bufio.Write w p = (None, w') -> stream w' = stream w ++ p /\ Bufio.w_err w' = None.
Proof.
  unfold Bufio.Write. destruct (Bufio.w_err w); [done|].
  case_bool_decide as Hl.
  { intros [= <-]. unfold stream; simpl. by rewrite (assoc_L (++)). }
  destruct (Bufio.w_buf w) as [|x b] eqn:Eb.
  { intros H. eauto using write_direct_ok. }
  set (k := Bufio.Available w) in *.
  destruct (Bufio.Flush _) as [[e|] w1] eqn:E; [done|].
  apply Flush_ok in E as (Hs & Hb & He). unfold stream in Hs; simpl in Hs.
  unfold Bufio.write_empty. case_bool_decide.
  - intros [= <-]. unfold stream; simpl. rewrite Hs, Eb.
    rewrite <-!(assoc_L (++)); simpl. by rewrite <-(assoc_L (++)), take_drop.
  - intros H1. destruct (write_direct_ok _ _ _ H1 Hb) as [-> ->].
    unfold stream. rewrite Hs, Hb, app_nil_r, Eb.
    rewrite <-!(assoc_L (++)); simpl. by rewrite <-(assoc_L (++)), take_drop.
Qed.

(** Whether it succeeds or not, Write keeps what was fsynced and puts on the
    file a prefix of the stream. *)
Lemma Write_advances w p e w' : Bufio.Write w p = (e, w') -> advances w p w'.
Proof.
  unfold Bufio.Write. destruct (Bufio.w_err w).
  { intros [= <- <-]. split; [done..|]. unfold stream. rewrite <-(assoc_L (++)). by eexists. }
  case_bool_decide as Hl.
  { intros [= <- <-]. split; simpl; [done..|]. unfold stream. rewrite <-(assoc_L (++)). by eexists. }
  destruct (Bufio.w_buf w) as [|x b] eqn:Eb.
  { intros H. eauto using write_direct_advances. }
  set (k := Bufio.Available w) in *.
  assert (Hst : stream w ++ p = (contents (Bufio.w_file w) ++ (x :: b) ++ take k p) ++ drop k p).
  { unfold stream. rewrite Eb, <-!(assoc_L (++)). by rewrite take_drop. }
  destruct (Bufio.Flush _) as [[er|] w1] eqn:E.
  - intros [= <- <-]. apply Flush_advances in E as [Hd Hb Ha]. split; [done..|].
    rewrite Hst. apply prefix_app_r. by rewrite app_nil_r in Ha.
  - destruct (Flush_advances _ _ _ E) as [Hd Hb Ha].
    apply Flush_ok in E as (Hs & Hnil & He). unfold stream in Hs; simpl in Hs.
    unfold Bufio.write_empty. case_bool_decide.
    + intros [= <- <-]. split; simpl; [done..|]. rewrite Hst, Hs. by apply prefix_app_r.
    + intros H1. destruct (write_direct_advances _ _ _ _ H1 Hnil) as [Hd1 Hb1 Ha1].
      simpl in *. split; [congruence|by etrans|]. rewrite Hst.
      unfold stream in Ha1. by rewrite Hs, Hnil, app_nil_r in Ha1.
Qed.

(** An open handle with no failing call ahead. *)
Definition healthy (f : file) : Prop := f_script f = [] /\ f_closed f = false.

(** On a healthy file, a write succeeds. *)
Lemma Write_no_fault w p :
  Bufio.w_err w = None -> healthy (Bufio.w_file w) ->
  exists w', Bufio.Write w p = (None, w') /\ healthy (Bufio.w_file w').
Proof.
  destruct w as [[d c s cl] b er]; unfold healthy; simpl. intros -> [-> ->]. unfold Bufio.Write; simpl.
  case_bool_decide; [by eexists|]. destruct b as [|x b]; [by eexists|].
  unfold Bufio.write_empty; simpl. case_bool_decide; by eexists.
Qed.

Lemma file_Close_contents f e f' :
  file_Close f = (e, f') -> f_durable f' = f_durable f /\ f_cached f' = f_cached f.
Proof.
  unfold file_Close. destruct (file_call f) as [e1 g] eqn:E. intros [= <- <-]. simpl.
  by eapply file_call_contents.
Qed.
