(* ===== verification/Wal.v ===== *)
(** storage/wal.go: the checksummed write-ahead log shared by the storage
    engine and by Raft's persistent state. *)

From S2P Require Import Prelude Bytes GoIO.

(** ** The log *)

(** type WAL struct { f, buf, off } : the file is inside the buffered writer. *)
Record WAL := mkWAL {
  buf : Bufio.Writer;
  off : N
}.

Definition wal_file (w : WAL) : file := Bufio.w_file (buf w).

(** OpenWAL: an O_CREATE|O_APPEND open and a Stat; [f] is the file as found at
    the path (empty when the open creates it). *)
Definition OpenWAL (f : file) : result WAL * file :=
  match file_call f with
  | (Some e, f) => (Err e, f)
  | (None, f) =>
      match file_call f with
      | (Some e, f) => (Err e, snd (file_Close f))
      | (None, f) => (Ok (mkWAL (Bufio.NewWriter f) (len (contents f))), f)
      end
  end.

(** The bytes of one record: crc32(4) | len(4) | payload(len). *)
Definition header (payload : bytes) : bytes :=
  PutUint32 (ChecksumIEEE payload) ++ PutUint32 (len payload).

Definition encode_record (payload : bytes) : bytes := header payload ++ payload.

Definition Append (w : WAL) (payload : bytes) : option error * WAL :=
  match Bufio.Write (buf w) (header payload) with
  | (Some e, b) => (Some e, mkWAL b (off w))
  | (None, b) =>
      match Bufio.Write b payload with
      | (Some e, b) => (Some e, mkWAL b (off w))
      | (None, b) => (None, mkWAL b (off w + (8 + len payload))%N)
      end
  end.

Definition Sync (w : WAL) : option error * WAL :=
  match Bufio.Flush (buf w) with
  | (Some e, b) => (Some e, mkWAL b (off w))
  | (None, b) =>
      let '(e, f) := file_Sync (Bufio.w_file b) in
      (e, mkWAL (Bufio.mkWriter f (Bufio.w_buf b) (Bufio.w_err b)) (off w))
  end.

(** The writer over another state of its file. *)
Definition with_file (w : WAL) (f : file) : WAL :=
  mkWAL (Bufio.mkWriter f (Bufio.w_buf (buf w)) (Bufio.w_err (buf w))) (off w).

Definition Close (w : WAL) : option error * WAL :=
  match Sync w with
  | (Some e, w) => (Some e, with_file w (snd (file_Close (wal_file w))))
  | (None, w) => let '(e, f) := file_Close (wal_file w) in (e, with_file w f)
  end.

(** ** Replay *)

(** One turn of ReplayWAL's loop: the record at the head of the unread bytes and
    what follows it; [None] where the loop returns (end of file, torn header,
    torn payload, checksum mismatch). *)
Definition read_record (b : bytes) : option (bytes * bytes) :=
  if (len b <? 8)%N then None
  else
    let crc := Uint32 b in
    let n := Uint32 (drop 4 b) in
    let r := drop 8 b in
    if (len r <? n)%N then None
    else
      let payload := take (N.to_nat n) r in
      if (ChecksumIEEE payload =? crc)%N
      then Some (payload, drop (N.to_nat n) r)
      else None.

(** What os.Open finds at the path. *)
Inductive opened :=
  | NotExist
  | OpenError
  | Opened (b : bytes).

Section replay.
Context {S : Type} (fn : S -> bytes -> result S).

Fixpoint replay_loop (fuel : nat) (s : S) (b : bytes) : result S :=
  match fuel with
  | O => Ok s
  | Datatypes.S fuel =>
      match read_record b with
      | None => Ok s
      | Some (payload, rest) => let* s := fn s payload in replay_loop fuel s rest
      end
  end.

(** ReplayWAL: [fn] updates the state the caller's closure captures. Each turn
    consumes a header, so the length of the file bounds the turns. *)
Definition ReplayWAL (path : opened) (s : S) : result S :=
  match path with
  | NotExist => Ok s
  | OpenError => Err EIO
  | Opened b => replay_loop (Datatypes.S (length b)) s b
  end.

End replay.

(** ** Reference: the records a byte string holds *)

Fixpoint records_loop (fuel : nat) (b : bytes) : list bytes :=
  match fuel with
  | O => []
  | S fuel =>
      match read_record b with
      | None => []
      | Some (payload, rest) => payload :: records_loop fuel rest
      end
  end.

Definition records (b : bytes) : list bytes := records_loop (S (length b)) b.

(** The bytes of a log that holds the records [ps]. *)
Definition encode_log (ps : list bytes) : bytes := concat (encode_record <$> ps).

(** Running the closure over a list of payloads, stopping at its first error. *)
Fixpoint foldM {S : Type} (fn : S -> bytes -> result S) (s : S) (ps : list bytes) : result S :=
  match ps with
  | [] => Ok s
  | p :: ps => let* s := fn s p in foldM fn s ps
  end.

(** A payload whose length fits the header's uint32 field. *)
Definition fits (p : bytes) : Prop := (len p < two32)%N.

#[global] Instance fits_dec p : Decision (fits p).
Proof. unfold fits. apply _. Defined.

#[global] Arguments encode_record : simpl never.
#[global] Arguments header : simpl never.

(** ** Lemmas on records *)

Lemma length_header p : length (header p) = 8.
Proof. unfold header. by rewrite length_app, LittleEndian.length_PutUint32, LittleEndian.length_PutUint32. Qed.

Lemma length_encode_record p : length (encode_record p) = 8 + length p.
Proof. unfold encode_record. by rewrite length_app, length_header. Qed.

Lemma header_crc p rest : Uint32 (header p ++ rest) = ChecksumIEEE p.
Proof.
  unfold header. rewrite <-(assoc_L (++)).
  apply LittleEndian.Uint32_Put, Crc32.ChecksumIEEE_lt.
Qed.

Lemma header_len p rest : fits p -> Uint32 (drop 4 (header p ++ rest)) = len p.
Proof.
  intros H. unfold header. rewrite <-(assoc_L (++)), drop_app_length'.
  - by apply LittleEndian.Uint32_Put.
  - by rewrite LittleEndian.length_PutUint32.
Qed.

(** A header with [r] behind it: torn when the payload it announces is longer
    than [r], otherwise the checksum decides. *)
Lemma read_record_header p r :
  fits p ->
  read_record (header p ++ r) =
    (if (len r <? len p)%N then None
     else let q := take (length p) r in
       if (ChecksumIEEE q =? ChecksumIEEE p)%N then Some (q, drop (length p) r) else None).
Proof.
  intros H. unfold read_record.
  assert (N.to_nat (len p) = length p) as Hl by (unfold len; lia).
  rewrite header_crc, header_len, Hl by done.
  rewrite drop_app_length' by (symmetry; apply length_header).
  replace (len (header p ++ r) <? 8)%N with false.
  2:{ symmetry. apply N.ltb_ge. rewrite len_app. unfold len. rewrite length_header. lia. }
  done.
Qed.

Lemma read_record_encode p rest :
  fits p -> read_record (encode_record p ++ rest) = Some (p, rest).
Proof.
  intros H. unfold encode_record. rewrite <-(assoc_L (++)), read_record_header by done.
  replace (len (p ++ rest) <? len p)%N with false.
  2:{ symmetry. apply N.ltb_ge. rewrite len_app. lia. }
  simpl. by rewrite take_app_length, drop_app_length, N.eqb_refl.
Qed.

(** A record cut short anywhere is not read, whatever its checksum. *)
Lemma read_record_torn p n :
  fits p -> n < 8 + length p -> read_record (take n (encode_record p)) = None.
Proof.
  intros Hf Hn. destruct (decide (n < 8)) as [H8|H8].
  - unfold read_record. replace (len _ <? 8)%N with true; [done|].
    symmetry. apply N.ltb_lt. unfold len. rewrite length_take. lia.
  - unfold encode_record. rewrite take_app_ge by (rewrite length_header; lia).
    rewrite length_header, read_record_header by done.
    replace (len _ <? len p)%N with true; [done|].
    symmetry. apply N.ltb_lt. unfold len. rewrite length_take. lia.
Qed.

Lemma read_record_shrinks b p rest :
  read_record b = Some (p, rest) -> length rest < length b.
Proof.
  unfold read_record. destruct (N.ltb_spec (len b) 8); [done|].
  destruct (len _ <? _)%N; [done|]. destruct (_ =? _)%N; [|done].
  intros [= _ <-]. rewrite !length_drop. unfold len in *. lia.
Qed.

(** ** The loop is a fold over the records *)

Lemma records_loop_fuel n m b :
  length b < n -> length b < m -> records_loop n b = records_loop m b.
Proof.
  revert m b. induction n as [|n IH]; intros [|m] b Hn Hm; [lia..|]. simpl.
  destruct (read_record b) as [[p rest]|] eqn:E; [|done].
  apply read_record_shrinks in E. f_equal. apply IH; lia.
Qed.

Lemma replay_loop_foldM {S} (fn : S -> bytes -> result S) n s b :
  replay_loop fn n s b = foldM fn s (records_loop n b).
Proof.
  revert s b. induction n as [|n IH]; intros s b; [done|]. simpl.
  destruct (read_record b) as [[p rest]|]; [|done]. simpl.
  destruct (fn s p); [apply IH|done..].
Qed.

Lemma ReplayWAL_records {S} (fn : S -> bytes -> result S) s b :
  ReplayWAL fn (Opened b) s = foldM fn s (records b).
Proof. apply replay_loop_foldM. Qed.

Lemma records_cons b p rest :
  read_record b = Some (p, rest) -> records b = p :: records rest.
Proof.
  intros E. unfold records at 1. cbn [records_loop]. rewrite E. f_equal.
  apply read_record_shrinks in E. apply records_loop_fuel; lia.
Qed.

Lemma records_none b : read_record b = None -> records b = [].
Proof. intros E. unfold records. simpl. by rewrite E. Qed.

Lemma encode_log_app ps qs : encode_log (ps ++ qs) = encode_log ps ++ encode_log qs.
Proof. unfold encode_log. by rewrite fmap_app, concat_app. Qed.

Lemma encode_log_cons p ps : encode_log (p :: ps) = encode_record p ++ encode_log ps.
Proof. done. Qed.

Lemma encode_log_singleton p : encode_log [p] = encode_record p.
Proof. exact (app_nil_r (encode_record p)). Qed.

(** Complete records are read back, then whatever follows them. *)
Lemma records_encode_log ps rest :
  Forall fits ps -> records (encode_log ps ++ rest) = ps ++ records rest.
Proof.
  induction 1 as [|p ps Hp Hps IH]; [done|].
  rewrite encode_log_cons, <-(assoc_L (++)).
  rewrite (records_cons _ p (encode_log ps ++ rest)) by by apply read_record_encode.
  simpl. by rewrite IH.
Qed.

Lemma records_encode ps : Forall fits ps -> records (encode_log ps) = ps.
Proof.
  intros H. rewrite <-(app_nil_r (encode_log ps)), records_encode_log by done.
  rewrite (records_none []) by done. by rewrite app_nil_r.
Qed.

(** The number of records of [ps] that lie wholly in the first [n] bytes. *)
Fixpoint whole (ps : list bytes) (n : nat) : nat :=
  match ps with
  | [] => 0
  | p :: ps => if bool_decide (8 + length p <= n) then S (whole ps (n - (8 + length p))) else 0
  end.

(** A log cut at any byte yields exactly the records that are whole. *)
Lemma records_torn ps n :
  Forall fits ps -> records (take n (encode_log ps)) = take (whole ps n) ps.
Proof.
  intros H. revert n. induction H as [|p ps Hp Hps IH]; intros n.
  - simpl. unfold encode_log; simpl. rewrite take_nil. by rewrite records_none.
  - rewrite encode_log_cons. cbn [whole]. case_bool_decide as Hn.
    + rewrite take_app_ge by (rewrite length_encode_record; lia).
      rewrite length_encode_record.
      rewrite (records_cons _ p (take (n - (8 + length p)) (encode_log ps)))
        by by apply read_record_encode.
      simpl. by rewrite IH.
    + rewrite take_app_le by (rewrite length_encode_record; lia).
      apply records_none, read_record_torn; [done|lia].
Qed.

(** ** The log's invariant *)

(** [ps]: the records covered by the last successful Sync; [qs]: the records
    handed to Append since. *)
Record wal_inv (w : WAL) (ps qs : list bytes) : Prop := {
  wi_durable : f_durable (wal_file w) = encode_log ps;
  wi_contents : contents (wal_file w) `prefix_of` encode_log (ps ++ qs);
  wi_stream : Bufio.w_err (buf w) = None -> stream (buf w) = encode_log (ps ++ qs)
}.

Lemma OpenWAL_ok f w f' :
  OpenWAL f = (Ok w, f') ->
  f_durable (wal_file w) = f_durable f /\ f_cached (wal_file w) = f_cached f /\
  Bufio.w_buf (buf w) = [] /\ Bufio.w_err (buf w) = None.
Proof.
  unfold OpenWAL. destruct (file_call f) as [[e|] g] eqn:E; [done|].
  destruct (file_call g) as [[e|] g'] eqn:E'; [done|]. intros [= <- _]. simpl.
  apply file_call_contents in E as [Ha Hb]. apply file_call_contents in E' as [Hc Hd].
  unfold wal_file; simpl. split_and!; congruence.
Qed.

Lemma OpenWAL_no_panic f : (OpenWAL f).1 <> Panic.
Proof. unfold OpenWAL. destruct (file_call f) as [[] g]; [done|]. by destruct (file_call g) as [[] g']. Qed.

Lemma OpenWAL_inv f w f' ps :
  OpenWAL f = (Ok w, f') -> f_durable f = encode_log ps -> f_cached f = [] -> wal_inv w ps [].
Proof.
  intros (Hd & Hc & Hb & He)%OpenWAL_ok Hdur Hcache.
  split.
  - congruence.
  - unfold contents. by rewrite Hd, Hdur, Hc, Hcache, !app_nil_r.
  - intros _. unfold stream, contents. unfold wal_file in *.
    by rewrite Hb, Hd, Hdur, Hc, Hcache, !app_nil_r.
Qed.

Lemma Append_ok w p w' :
  Append w p = (None, w') ->
  stream (buf w') = stream (buf w) ++ encode_record p /\ Bufio.w_err (buf w') = None.
Proof.
  unfold Append. destruct (Bufio.Write _ _) as [[e|] b1] eqn:E1; [done|].
  destruct (Bufio.Write b1 p) as [[e|] b2] eqn:E2; [done|]. intros [= <-]; simpl.
  apply Write_ok in E1 as [H1 _]. apply Write_ok in E2 as [H2 He]. split; [|done].
  rewrite H2, H1. unfold encode_record. by rewrite (assoc_L (++)).
Qed.

(** Append never disturbs what was fsynced, and what it leaves on the file is a
    prefix of the stream and the record, also when it fails. *)
Lemma Append_advances w p e w' :
  Append w p = (e, w') -> advances (buf w) (encode_record p) (buf w').
Proof.
  unfold Append. destruct (Bufio.Write _ _) as [[e1|] b1] eqn:E1.
  { intros [= <- <-]; simpl. apply Write_advances in E1 as [Hd Hb Ha].
    split; [done..|]. unfold encode_record. rewrite (assoc_L (++)). by apply prefix_app_r. }
  destruct (Bufio.Write b1 p) as [[e2|] b2] eqn:E2; intros [= <- <-]; simpl;
    destruct (Write_advances _ _ _ _ E1) as [Hd Hb Ha];
    apply Write_ok in E1 as [H1 _]; apply Write_advances in E2 as [Hd2 Hb2 Ha2];
    (split; [congruence|by etrans|]); unfold encode_record; rewrite (assoc_L (++)), <-H1; done.
Qed.

Lemma Append_sticky w p e w' :
  Append w p = (e, w') -> Bufio.w_err (buf w) <> None -> buf w' = buf w.
Proof.
  unfold Append, Bufio.Write. destruct (Bufio.w_err (buf w)); [|done]. by intros [= _ <-].
Qed.

Lemma Append_err w p e w' :
  Append w p = (Some e, w') -> Bufio.w_err (buf w') <> None.
Proof.
  assert (Hw : forall b q b', Bufio.Write b q = (Some e, b') -> Bufio.w_err b' <> None).
  { intros b q b'. unfold Bufio.Write. destruct (Bufio.w_err b) eqn:Eb; [intros [= _ <-]; congruence|].
    case_bool_decide; [done|]. unfold Bufio.write_empty, Bufio.write_direct.
    destruct (Bufio.w_buf b).
    - destruct (file_Write _ _) as [[? er] ?]. intros [= -> <-]. done.
    - destruct (Bufio.Flush _) as [[er|] b1] eqn:EF.
      + intros [= -> <-]. revert EF. unfold Bufio.Flush; simpl.
        destruct (file_Write _ _) as [[? [|]] ?]; by intros [= -> <-].
      + case_bool_decide; [done|]. destruct (file_Write _ _) as [[? er] ?]. by intros [= -> <-]. }
  unfold Append. destruct (Bufio.Write _ _) as [[e1|] b1] eqn:E1.
  - intros [= -> <-]; simpl. eauto.
  - destruct (Bufio.Write b1 p) as [[e2|] b2] eqn:E2; [|done]. intros [= -> <-]; simpl. eauto.
Qed.

Lemma Append_inv w p e w' ps qs :
  Append w p = (e, w') -> wal_inv w ps qs -> wal_inv w' ps (qs ++ [p]).
Proof.
  intros H [Hd Hc Hs]. destruct (Append_advances _ _ _ _ H) as [Ad Ab Aa].
  assert (Hlog : encode_log (ps ++ qs ++ [p]) = encode_log (ps ++ qs) ++ encode_record p).
  { by rewrite (assoc_L (++)), encode_log_app, encode_log_singleton. }
  destruct (Bufio.w_err (buf w)) eqn:Eerr.
  - assert (buf w' = buf w) as Hb by (eapply Append_sticky; [exact H|congruence]).
    unfold wal_file in *. split; unfold wal_file; rewrite ?Hb.
    + done.
    + rewrite Hlog. by apply prefix_app_r.
    + congruence.
  - specialize (Hs eq_refl). rewrite Hs, <-Hlog in Aa.
    split; unfold wal_file in *; [congruence|done|].
    intros Hn. destruct e as [e|]; [by apply Append_err in H|].
    apply Append_ok in H as [-> _]. by rewrite Hs.
Qed.

Lemma Sync_ok_inv w w' ps qs :
  Sync w = (None, w') -> wal_inv w ps qs -> wal_inv w' (ps ++ qs) [].
Proof.
  unfold Sync. destruct (Bufio.Flush _) as [[e|] b] eqn:E; [done|].
  destruct (file_Sync _) as [[e|] f] eqn:Ef; [done|]. intros [= <-] [Hd Hc Hs].
  assert (Bufio.w_err (buf w) = None) as Hn.
  { unfold Bufio.Flush in E. by destruct (Bufio.w_err (buf w)). }
  specialize (Hs Hn). apply Flush_ok in E as (Hb & Hnil & _).
  apply file_Sync_ok in Ef as [Hdf Hcf].
  split; unfold wal_file, stream, contents; simpl; rewrite ?Hdf, ?Hcf, ?Hnil, ?Hb, ?Hs, ?app_nil_r; done.
Qed.

Lemma Sync_err_inv w e w' ps qs :
  Sync w = (Some e, w') -> wal_inv w ps qs -> wal_inv w' ps qs.
Proof.
  unfold Sync. destruct (Bufio.Flush _) as [[e1|] b] eqn:E.
  - intros [= -> <-] [Hd Hc Hs]. destruct (Flush_advances _ _ _ E) as [Ad Ab Aa].
    rewrite app_nil_r in Aa.
    destruct (Bufio.w_err (buf w)) eqn:Eerr.
    + unfold Bufio.Flush in E. rewrite Eerr in E. injection E as <- <-.
      split; simpl; [done..|]. intros H. congruence.
    + specialize (Hs eq_refl). split; unfold wal_file in *; simpl; [congruence|congruence|].
      intros Hn. exfalso. revert E. unfold Bufio.Flush. rewrite Eerr.
      destruct (Bufio.w_buf (buf w)); [done|].
      destruct (file_Write _ _) as [[? [|]] ?]; intros [= -> <-]; done.
  - destruct (file_Sync _) as [[e2|] f] eqn:Ef; [|done]. intros [= -> <-] [Hd Hc Hs].
    assert (Bufio.w_err (buf w) = None) as Hn.
    { unfold Bufio.Flush in E. by destruct (Bufio.w_err (buf w)). }
    specialize (Hs Hn). destruct (Flush_advances _ _ _ E) as [Ad Ab Aa].
    apply Flush_ok in E as (Hb & Hnil & _).
    assert (f_durable f = f_durable (Bufio.w_file b) /\ contents f = contents (Bufio.w_file b)) as [H1 H2].
    { unfold file_Sync, contents in *. destruct (syscall (Bufio.w_file b)) as [[|k] g] eqn:Eg; [done|].
      injection Ef as _ <-. apply syscall_contents in Eg as [-> ->]. done. }
    split; unfold wal_file, stream in *; simpl.
    + congruence.
    + rewrite H2, Hb, Hs. done.
    + intros _. by rewrite H2, Hb, Hnil, app_nil_r.
Qed.

(** ** Runs of a log *)

Inductive wal_call :=
  | CallAppend (p : bytes)
  | CallSync.

(** A run of calls, with the records covered by the last Sync that returned nil
    and the records handed to Append since. *)
Fixpoint wal_run (w : WAL) (ps qs : list bytes) (cs : list wal_call) : WAL * list bytes * list bytes :=
  match cs with
  | [] => (w, ps, qs)
  | CallAppend p :: cs => wal_run (snd (Append w p)) ps (qs ++ [p]) cs
  | CallSync :: cs =>
      match Sync w with
      | (None, w) => wal_run w (ps ++ qs) [] cs
      | (Some _, w) => wal_run w ps qs cs
      end
  end.

Definition call_payloads (cs : list wal_call) : list bytes :=
  omap (fun c => match c with CallAppend p => Some p | CallSync => None end) cs.

Lemma wal_run_inv cs w ps qs w' ps' qs' :
  wal_run w ps qs cs = (w', ps', qs') -> wal_inv w ps qs ->
  wal_inv w' ps' qs' /\ ps' ++ qs' = ps ++ qs ++ call_payloads cs /\ ps `prefix_of` ps'.
Proof.
  revert w ps qs. induction cs as [|[p|] cs IH]; intros w ps qs; simpl.
  - intros [= <- <- <-] H. by rewrite app_nil_r.
  - intros H Hi. destruct (Append w p) as [e w1] eqn:E.
    destruct (IH _ _ _ H) as (H1 & H2 & H3); [by eapply Append_inv|].
    split; [done|]. split; [|done]. rewrite H2, <-!(assoc_L (++)). done.
  - destruct (Sync w) as [[e|] w1] eqn:E; intros H Hi.
    + eapply IH; eauto using Sync_err_inv.
    + destruct (IH _ _ _ H) as (H1 & H2 & H3); [by eapply Sync_ok_inv|].
      split; [done|]. rewrite H2. simpl. rewrite <-(assoc_L (++)). split; [done|].
      etrans; [|done]. by eexists.
Qed.

Lemma whole_app ps qs n :
  length (encode_log ps) <= n ->
  whole (ps ++ qs) n = length ps + whole qs (n - length (encode_log ps)).
Proof.
  revert n. induction ps as [|p ps IH]; intros n Hn.
  - rewrite Nat.sub_0_r. done.
  - rewrite encode_log_cons, length_app, length_encode_record in Hn |- *.
    cbn [app whole length]. rewrite bool_decide_true by lia. rewrite IH by lia.
    cbn [Nat.add]. do 3 f_equal. lia.
Qed.

(** A file cut back to any prefix that still holds the synced records replays
    as those records and some of the later ones, in order. *)
Lemma records_prefix ps qs b :
  Forall fits (ps ++ qs) -> encode_log ps `prefix_of` b -> b `prefix_of` encode_log (ps ++ qs) ->
  exists k, records b = ps ++ take k qs.
Proof.
  intros Hf [t ->] Hpre.
  assert (exists n, length (encode_log ps) <= n /\ encode_log ps ++ t = take n (encode_log (ps ++ qs)))
    as (n & Hn & ->).
  { destruct Hpre as [u Hu]. exists (length (encode_log ps ++ t)). rewrite Hu. split.
    - rewrite length_app. lia.
    - by rewrite take_app_length. }
  rewrite records_torn, whole_app by done. exists (whole qs (n - length (encode_log ps))).
  by rewrite take_app_ge, Nat.add_comm, Nat.add_sub by lia.
Qed.

Lemma crash_records w ps qs n :
  wal_inv w ps qs -> Forall fits (ps ++ qs) ->
  exists k, records (contents (crash (wal_file w) n)) = ps ++ take k qs.
Proof.
  intros [Hd Hc _] Hf. apply records_prefix; [done|..]; unfold contents, crash; simpl; rewrite app_nil_r.
  - rewrite <-Hd. by eexists.
  - etrans; [|exact Hc]. unfold contents.
    exists (drop n (f_cached (wal_file w))). by rewrite <-(assoc_L (++)), take_drop.
Qed.

Lemma Append_no_fault w p :
  Bufio.w_err (buf w) = None -> healthy (wal_file w) ->
  exists w', Append w p = (None, w') /\ healthy (wal_file w') /\ Bufio.w_err (buf w') = None.
Proof.
  intros He Hs. unfold Append.
  destruct (Write_no_fault (buf w) (header p)) as (b1 & E1 & S1); [done..|]. rewrite E1.
  destruct (Write_ok _ _ _ E1) as [_ He1].
  destruct (Write_no_fault b1 p) as (b2 & E2 & S2); [done..|]. rewrite E2.
  destruct (Write_ok _ _ _ E2) as [_ He2]. by eexists.
Qed.

Lemma Sync_no_fault w :
  Bufio.w_err (buf w) = None -> healthy (wal_file w) ->
  exists w', Sync w = (None, w') /\ healthy (wal_file w') /\ Bufio.w_err (buf w') = None.
Proof.
  destruct w as [[[d c s cl] b er] o]; unfold wal_file, healthy; simpl. intros -> [-> ->].
  unfold Sync, Bufio.Flush; simpl. destruct b; by eexists.
Qed.

Lemma Close_no_fault w :
  Bufio.w_err (buf w) = None -> healthy (wal_file w) ->
  exists w', Close w = (None, w') /\ f_script (wal_file w') = [].
Proof.
  intros He Hh. unfold Close. destruct (Sync_no_fault w He Hh) as (w1 & -> & [Hs Hc] & _).
  unfold file_Close, file_call, syscall. rewrite Hc, Hs. simpl. eexists. split; [done|]. done.
Qed.

(** ** Properties *)

(** C20. Crash safety of the log: open a log that holds the records [ps0], make
    any sequence of Append and Sync calls, with any system call failing at any
    point, and crash leaving any prefix of the unsynced bytes. Replaying what
    is left runs the closure over every record that was covered by a Sync that
    returned nil (in order, none lost or altered), then over some of the
    records appended after it, and over nothing else. *)
Theorem wal_crash_recovery f w f' ps0 cs w' ps qs n {S} (fn : S -> bytes -> result S) (s : S) :
  f_durable f = encode_log ps0 -> f_cached f = [] ->
  OpenWAL f = (Ok w, f') ->
  Forall fits (ps0 ++ call_payloads cs) ->
  wal_run w ps0 [] cs = (w', ps, qs) ->
  exists k, ReplayWAL fn (Opened (contents (crash (wal_file w') n))) s
            = foldM fn s (ps ++ take k qs).
Proof.
  intros Hd Hc Ho Hf Hr.
  assert (wal_inv w ps0 []) as Hi by by eapply OpenWAL_inv.
  destruct (wal_run_inv _ _ _ _ _ _ _ Hr Hi) as (Hi' & Happ & _).
  destruct (crash_records w' ps qs n Hi') as [k Hk].
  { rewrite Happ. by simpl. }
  exists k. by rewrite ReplayWAL_records, Hk.
Qed.

(** Round trip: on a device that does not fail, appending records to an
    empty log and syncing succeeds, and the file on disk replays as exactly
    these records in order. *)
Theorem wal_roundtrip ps {S} (fn : S -> bytes -> result S) (s : S) :
  Forall fits ps ->
  exists w f' w',
    OpenWAL (empty_file) = (Ok w, f') /\
    wal_run w [] [] ((CallAppend <$> ps) ++ [CallSync]) = (w', ps, []) /\
    ReplayWAL fn (Opened (f_durable (wal_file w'))) s = foldM fn s ps.
Proof.
  intros Hf. set (w := mkWAL (Bufio.NewWriter (empty_file)) 0).
  assert (Hrun : forall qs0 w, wal_inv w [] qs0 -> Bufio.w_err (buf w) = None -> healthy (wal_file w) ->
    exists w', wal_run w [] qs0 ((CallAppend <$> ps) ++ [CallSync]) = (w', qs0 ++ ps, []) /\ wal_inv w' (qs0 ++ ps) []).
  { clear Hf. induction ps as [|p ps IH]; intros qs0 v Hi He Hs; rewrite ?fmap_cons; cbn [app fmap list_fmap wal_run].
    - destruct (Sync_no_fault v) as (v' & E & _); [done..|]. rewrite E, app_nil_r.
      exists v'. split; [done|]. by eapply (Sync_ok_inv _ _ []).
    - destruct (Append_no_fault v p) as (v1 & E & Hs1 & He1); [done..|]. rewrite E; cbn [snd].
      destruct (IH (qs0 ++ [p]) v1) as (v' & -> & Hi'); [by eapply Append_inv|done..|].
      exists v'. by rewrite <-(assoc_L (++)) in *. }
  destruct (Hrun [] w) as (w' & Hr & Hi'); [by split|done..|].
  exists w, (empty_file), w'. split_and!; [done|done|].
  rewrite ReplayWAL_records. destruct Hi' as [-> _ _]. by rewrite records_encode.
Qed.

(** C35. A torn tail is never cut off: OpenWAL appends after it. When a crash
    leaves a record's header with [t] bytes of a longer payload and a record
    [r] is then appended to the reopened log and synced without error, a replay
    of the fsynced file stops before [r] as long as the torn record's announced
    payload is not yet filled: a record acknowledged as durable is lost. *)
Theorem append_after_torn_tail_is_lost ps q t r w f' w1 w2 {S} (fn : S -> bytes -> result S) (s : S) :
  Forall fits (ps ++ [q]) ->
  t + length (encode_record r) < length q ->
  OpenWAL (mkFile (encode_log ps ++ header q ++ take t q) [] [] false) = (Ok w, f') ->
  Append w r = (None, w1) ->
  Sync w1 = (None, w2) ->
  ReplayWAL fn (Opened (f_durable (wal_file w2))) s = foldM fn s ps.
Proof.
  intros [Hps [Hq _]%Forall_cons]%Forall_app Ht Ho Ha Hs.
  apply OpenWAL_ok in Ho as (Hd & Hc & Hb & He). apply Append_ok in Ha as [Hst He1].
  assert (f_durable (wal_file w2) = encode_log ps ++ header q ++ (take t q ++ encode_record r)) as ->.
  { unfold Sync in Hs. destruct (Bufio.Flush _) as [[e|] b] eqn:E; [done|].
    destruct (file_Sync _) as [[e|] g] eqn:Eg; [done|]. injection Hs as <-. unfold wal_file in *; simpl.
    apply file_Sync_ok in Eg as [-> _]. apply Flush_ok in E as (-> & _).
    rewrite Hst. unfold stream, contents. rewrite Hd, Hc, Hb, !app_nil_r; simpl.
    by rewrite <-!(assoc_L (++)). }
  rewrite ReplayWAL_records, records_encode_log by done.
  rewrite records_none, app_nil_r; [done|]. rewrite read_record_header by done.
  replace (len _ <? len q)%N with true; [done|]. symmetry. apply N.ltb_lt.
  unfold len. rewrite length_app, length_take. lia.
Qed.

(** ** Witnesses *)

(** The closure that collects the payloads. *)
Definition collect (acc : list bytes) (p : bytes) : result (list bytes) := Ok (acc ++ [p]).

Definition sample_log : file := mkFile (encode_log [str "a"]) [] [] false.
Definition sample_wal : WAL := mkWAL (Bufio.NewWriter sample_log) 9.
Definition sample_calls : list wal_call := [CallAppend (str "b"); CallSync; CallAppend (str "cd")].

Lemma wal_crash_recovery_witness :
  let r := wal_run sample_wal [str "a"] [] sample_calls in
  r.1.2 = [str "a"; str "b"] /\
  exists k, ReplayWAL collect (Opened (contents (crash (wal_file r.1.1) 5))) []
            = foldM collect [] (r.1.2 ++ take k r.2).
Proof.
  intros r. split; [vm_compute; reflexivity|].
  apply (wal_crash_recovery sample_log sample_wal sample_log [str "a"] sample_calls r.1.1 r.1.2 r.2 5 collect []).
  - reflexivity.
  - reflexivity.
  - vm_compute; reflexivity.
  - repeat constructor.
  - vm_compute; reflexivity.
Defined.

Lemma wal_roundtrip_witness :
  exists w f' w',
    OpenWAL (empty_file) = (Ok w, f') /\
    wal_run w [] [] ((CallAppend <$> [str "x"; str "yz"]) ++ [CallSync]) = (w', [str "x"; str "yz"], []) /\
    ReplayWAL collect (Opened (f_durable (wal_file w'))) [] = Ok [str "x"; str "yz"].
Proof.
  apply (wal_roundtrip [str "x"; str "yz"] collect []).
  repeat constructor; vm_compute; reflexivity.
Defined.

(** A 40-byte record torn after its header and 3 bytes, then a one-byte record
    appended and synced: only the record before the tear is recovered. *)
Definition torn_log : file :=
  mkFile (encode_log [str "vote"] ++ header (replicate 40 x41) ++ take 3 (replicate 40 x41)) [] [] false.

Definition torn_wal : WAL := mkWAL (Bufio.NewWriter torn_log) 23.

Lemma append_after_torn_tail_is_lost_witness :
  let w1 := snd (Append torn_wal (str "z")) in
  let w2 := snd (Sync w1) in
  ReplayWAL collect (Opened (f_durable (wal_file w2))) [] = Ok [str "vote"].
Proof.
  intros w1 w2.
  apply (append_after_torn_tail_is_lost [str "vote"] (replicate 40 x41) 3 (str "z") torn_wal torn_log
           w1 w2 collect []).
  - repeat constructor.
  - vm_compute. lia.
  - vm_compute; reflexivity.
  - vm_compute; reflexivity.
  - vm_compute; reflexivity.
Defined.
