(* ===== verification/Memtable.v ===== *)
(** storage/memtable.go: the skiplist that holds the engine's recent writes.
    Nodes live in a store and point to each other by index, as the Go nodes do
    by pointer, so that [put] relinks the same nodes the source relinks. *)

From S2P Require Import Prelude Bytes.

(** type kvEntry struct *)
Record kvEntry := mkEntry {
  ke_key : bytes;
  ke_value : bytes;
  ke_tombstone : bool
}.

#[global] Instance kvEntry_eq_dec : EqDecision kvEntry.
Proof. solve_decision. Defined.

(** ** The skiplist *)

Module Memtable.

Definition maxHeight : nat := 12.

(** A pointer to a node: its place in the store. *)
Abbreviation ptr := nat (only parsing).

(** type skipNode struct: a nil link is [None]. *)
Record skipNode := mkNode {
  sn_key : bytes;
  sn_value : bytes;
  sn_tombstone : bool;
  sn_next : list (option ptr)
}.

(** type memtable struct; the head is the node at place 0. *)
Record memtable := mkMem {
  store : list skipNode;
  size : Z;
  count : Z
}.

Definition head : ptr := 0.

Definition newMemtable : memtable :=
  mkMem [mkNode [] [] false (replicate maxHeight None)] 0 0.

(** randomHeight: [rs] are the successive results of rand.Intn(4). *)
Fixpoint randomHeight_from (h : nat) (rs : list N) : nat :=
  match rs with
  | [] => h
  | r :: rs => if bool_decide (h < maxHeight) && (r =? 0)%N then randomHeight_from (S h) rs else h
  end.

Definition randomHeight (rs : list N) : nat := randomHeight_from 1 rs.

(** x.next[i]; [None] stands for the run-time panic (nil pointer, index out of
    range). *)
Definition next_of (st : list skipNode) (x : ptr) (i : nat) : option (option ptr) :=
  nd ← st !! x; sn_next nd !! i.

(** The inner loop: for x.next[i] != nil && x.next[i].key < key { x = x.next[i] }.
    [None]: a panic, or the fuel is spent. *)
Fixpoint advance (fuel : nat) (st : list skipNode) (i : nat) (key : bytes) (x : ptr) : option ptr :=
  match fuel with
  | O => None
  | S fuel =>
      n ← next_of st x i;
      match n with
      | None => Some x
      | Some y =>
          nd ← st !! y;
          if bytes_ltb (sn_key nd) key then advance fuel st i key y else Some x
      end
  end.

(** The outer loop from level [n - 1] down to 0: update[0..n-1], and the last x. *)
Fixpoint descend (st : list skipNode) (key : bytes) (n : nat) (x : ptr) : option (list ptr * ptr) :=
  match n with
  | O => Some ([], x)
  | S i =>
      x ← advance (S (length st)) st i key x;
      '(update, y) ← descend st key i x;
      Some (update ++ [x], y)
  end.

(** The node x.next[0] when it holds [key]. *)
Definition match_at (st : list skipNode) (x : ptr) (key : bytes) : option (option (ptr * skipNode)) :=
  n ← next_of st x 0;
  match n with
  | None => Some None
  | Some y => nd ← st !! y; Some (if bytes_eqb (sn_key nd) key then Some (y, nd) else None)
  end.

(** x.next[i] = n *)
Definition set_next (st : list skipNode) (x : ptr) (i : nat) (n : option ptr) : option (list skipNode) :=
  nd ← st !! x;
  _ ← sn_next nd !! i;
  Some (<[x := mkNode (sn_key nd) (sn_value nd) (sn_tombstone nd) (<[i := n]> (sn_next nd))]> st).

(** for i := i0; i < i0 + k; i++ { n.next[i] = update[i].next[i]; update[i].next[i] = n } *)
Fixpoint link (st : list skipNode) (update : list ptr) (n : ptr) (i k : nat) : option (list skipNode) :=
  match k with
  | O => Some st
  | S k =>
      u ← update !! i;
      y ← next_of st u i;
      st ← set_next st n i y;
      st ← set_next st u i (Some n);
      link st update n (S i) k
  end.

(** put; [rs] feeds rand.Intn(4). *)
Definition put (m : memtable) (key value : bytes) (tombstone : bool) (rs : list N) : option memtable :=
  '(update, x) ← descend (store m) key maxHeight head;
  found ← match_at (store m) x key;
  match found with
  | Some (n, nd) =>
      Some (mkMem (<[n := mkNode (sn_key nd) value tombstone (sn_next nd)]> (store m))
                  (size m + (Z.of_nat (length value) - Z.of_nat (length (sn_value nd))))
                  (count m))
  | None =>
      let h := randomHeight rs in
      let n := length (store m) in
      st ← link (store m ++ [mkNode key value tombstone (replicate h None)]) update n 0 h;
      Some (mkMem st (size m + Z.of_nat (length key + length value + 32)) (count m + 1))
  end.

(** get: (value, tombstone) when found. *)
Definition get (m : memtable) (key : bytes) : option (option (bytes * bool)) :=
  '(_, x) ← descend (store m) key maxHeight head;
  found ← match_at (store m) x key;
  match found with
  | Some (_, nd) => Some (Some (sn_value nd, sn_tombstone nd))
  | None => Some None
  end.

(** for n := m.head.next[0]; n != nil; n = n.next[0] *)
Fixpoint entries_from (fuel : nat) (st : list skipNode) (n : option ptr) : option (list kvEntry) :=
  match n, fuel with
  | None, _ => Some []
  | Some _, O => None
  | Some x, S fuel =>
      nd ← st !! x;
      n ← sn_next nd !! 0;
      out ← entries_from fuel st n;
      Some (mkEntry (sn_key nd) (sn_value nd) (sn_tombstone nd) :: out)
  end.

Definition entries (m : memtable) : option (list kvEntry) :=
  n ← next_of (store m) head 0;
  entries_from (length (store m)) (store m) n.

Definition approxSize (m : memtable) : Z := size m.

End Memtable.

(** ** Reference: a sorted association list *)

Definition keys (es : list kvEntry) : list bytes := ke_key <$> es.

(** Strictly increasing keys. *)
Definition sorted_entries (es : list kvEntry) : Prop := StronglySorted bytes_lt (keys es).

Fixpoint lookup_entry (k : bytes) (es : list kvEntry) : option kvEntry :=
  match es with
  | [] => None
  | e :: es => if bytes_eqb (ke_key e) k then Some e else lookup_entry k es
  end.

(** Insertion that replaces an entry with the same key. *)
Fixpoint insert_entry (e : kvEntry) (es : list kvEntry) : list kvEntry :=
  match es with
  | [] => [e]
  | e' :: es =>
      if bytes_ltb (ke_key e') (ke_key e) then e' :: insert_entry e es
      else if bytes_eqb (ke_key e') (ke_key e) then e :: es
      else e :: e' :: es
  end.

Definition entry_size (e : kvEntry) : Z := Z.of_nat (length (ke_key e) + length (ke_value e) + 32).
Definition entries_size (es : list kvEntry) : Z := foldr (fun e n => entry_size e + n)%Z 0%Z es.

(** ** Invariant of the skiplist

    One list [L] of pointers in key order describes the whole structure: the
    link of node [x] at level [i] goes to the first node after [x] that is
    taller than [i]. *)

Module SkipInv.
Import Memtable.

Definition height (st : list skipNode) (x : ptr) : nat :=
  match st !! x with Some nd => length (sn_next nd) | None => 0 end.

Definition nkey (st : list skipNode) (x : ptr) : bytes :=
  match st !! x with Some nd => sn_key nd | None => [] end.

Definition node_entry (st : list skipNode) (x : ptr) : kvEntry :=
  match st !! x with
  | Some nd => mkEntry (sn_key nd) (sn_value nd) (sn_tombstone nd)
  | None => mkEntry [] [] false
  end.

Fixpoint first_tall (st : list skipNode) (i : nat) (l : list ptr) : option ptr :=
  match l with
  | [] => None
  | y :: l => if bool_decide (i < height st y) then Some y else first_tall st i l
  end.

Record skip_inv (st : list skipNode) (L : list ptr) : Prop := {
  si_perm : L ≡ₚ seq 1 (length st - 1);
  si_pos : 0 < length st;
  si_head : height st head = maxHeight;
  si_height x : x ∈ L -> 1 <= height st x <= maxHeight;
  si_sorted : StronglySorted bytes_lt (nkey st <$> L);
  si_links pre x post i :
    head :: L = pre ++ x :: post -> i < height st x -> next_of st x i = Some (first_tall st i post)
}.

(** The memtable's invariant: the skiplist is well linked, holds the entries
    [es], and the counters agree with them. *)
Definition mem_inv (m : memtable) (es : list kvEntry) : Prop :=
  exists L, skip_inv (store m) L /\ es = node_entry (store m) <$> L /\
    size m = entries_size es /\ count m = Z.of_nat (length es).

Lemma first_tall_app st i l k :
  first_tall st i (l ++ k) = match first_tall st i l with Some y => Some y | None => first_tall st i k end.
Proof. induction l as [|x l IH]; simpl; [done|]. by case_bool_decide. Qed.

Lemma first_tall_Some st i l y :
  first_tall st i l = Some y ->
  exists l1 l2, l = l1 ++ y :: l2 /\ i < height st y /\ first_tall st i l1 = None.
Proof.
  induction l as [|x l IH]; simpl; [done|]. case_bool_decide as H.
  - intros [= ->]. by exists [], l.
  - intros (l1 & l2 & -> & Hy & Hn)%IH. exists (x :: l1), l2. simpl. by rewrite bool_decide_false.
Qed.

Lemma first_tall_None st i l x : first_tall st i l = None -> x ∈ l -> height st x <= i.
Proof.
  induction l as [|y l IH]; simpl; [set_solver|]. case_bool_decide; [done|].
  intros H1 [->|H2]%elem_of_cons; [lia|auto].
Qed.

Lemma first_tall_ext st st' i l :
  (forall x, x ∈ l -> height st' x = height st x) -> first_tall st' i l = first_tall st i l.
Proof.
  induction l as [|y l IH]; simpl; intros H; [done|].
  rewrite (H y) by set_solver. case_bool_decide; [done|]. apply IH. set_solver.
Qed.

Section inv.
Context (st : list skipNode) (L : list ptr) (HI : skip_inv st L).

Lemma si_NoDup : NoDup (head :: L).
Proof.
  constructor.
  - rewrite (si_perm _ _ HI), elem_of_seq. unfold head. lia.
  - rewrite (si_perm _ _ HI). apply NoDup_seq.
Qed.

Lemma si_length : length st = S (length L).
Proof. rewrite (si_perm _ _ HI), length_seq. pose proof (si_pos _ _ HI). lia. Qed.

Lemma si_lookup x : x ∈ head :: L -> is_Some (st !! x).
Proof.
  intros Hx. apply lookup_lt_is_Some. pose proof (si_pos _ _ HI).
  apply elem_of_cons in Hx as [->|Hx]; [done|].
  rewrite (si_perm _ _ HI), elem_of_seq in Hx. lia.
Qed.

Lemma si_new : length st ∉ head :: L.
Proof. intros Hx. apply si_lookup, lookup_lt_is_Some in Hx. lia. Qed.

Lemma si_height_pos x : x ∈ head :: L -> 1 <= height st x <= maxHeight.
Proof.
  intros [->|Hx]%elem_of_cons; [|by apply (si_height _ _ HI)].
  rewrite (si_head _ _ HI). unfold maxHeight. lia.
Qed.

Lemma first_tall_0 y post : incl (y :: post) L -> first_tall st 0 (y :: post) = Some y.
Proof.
  intros Hin. simpl. rewrite bool_decide_true; [done|].
  assert (y ∈ L) as Hy by (apply list_elem_of_In, Hin; by left).
  apply (si_height _ _ HI) in Hy. lia.
Qed.

End inv.

(** Splitting a sorted list at a key. *)
Lemma split_at_key {A} (f : A -> bytes) (l : list A) (k : bytes) :
  StronglySorted bytes_lt (f <$> l) ->
  exists lo hi, l = lo ++ hi /\ Forall (fun x => bytes_lt (f x) k) lo /\
    Forall (fun x => ~ bytes_lt (f x) k) hi.
Proof.
  induction l as [|x l IH]; intros Hs; [by exists [], []|].
  rewrite fmap_cons in Hs. apply StronglySorted_inv in Hs as [Hs Hx].
  destruct (decide (bytes_lt (f x) k)) as [Hlt|Hge].
  - destruct (IH Hs) as (lo & hi & -> & Hlo & Hhi). exists (x :: lo), hi. by repeat constructor.
  - exists [], (x :: l). split; [done|]. split; [done|]. constructor; [done|].
    rewrite Forall_fmap in Hx. eapply Forall_impl; [exact Hx|]. simpl. intros y Hy Hlt.
    by apply Hge, (bytes_lt_trans _ (f y)).
Qed.

Lemma mid_in_tail {A} (h : A) lo pre x mid z :
  h :: lo = pre ++ x :: mid -> z ∈ mid -> z ∈ lo.
Proof. destruct pre as [|w pre]; simpl; intros [= -> ->]; set_solver. Qed.

(** ** Search *)

Section search.
Context (st : list skipNode) (L lo hi : list ptr) (k : bytes).
Context (HI : skip_inv st L) (HL : L = lo ++ hi).
Context (Hlo : Forall (fun x => bytes_lt (nkey st x) k) lo).
Context (Hhi : Forall (fun x => ~ bytes_lt (nkey st x) k) hi).

(** [x] is where a search at level [i] stops: before it nodes below [k], after
    it no node of that level below [k]. *)
Definition stops (i : nat) (x : ptr) : Prop :=
  exists pre mid, head :: lo = pre ++ x :: mid /\ i < height st x /\ first_tall st i mid = None.

Lemma link_in_lo pre x mid i :
  head :: lo = pre ++ x :: mid -> i < height st x -> next_of st x i = Some (first_tall st i (mid ++ hi)).
Proof using HI HL.
  intros Hsp Hi. apply (si_links _ _ HI pre); [|done].
  rewrite HL, app_comm_cons, Hsp, <-(assoc_L (++)). done.
Qed.

Lemma advance_spec fuel i pre x mid :
  head :: lo = pre ++ x :: mid -> i < height st x -> length mid < fuel ->
  exists y, advance fuel st i k x = Some y /\ stops i y.
Proof.
  revert pre x mid. induction fuel as [|fuel IH]; intros pre x mid Hsp Hi Hf; [lia|]. simpl.
  rewrite (link_in_lo pre x mid) by done. simpl. rewrite first_tall_app.
  destruct (first_tall st i mid) as [y|] eqn:Ey.
  - apply first_tall_Some in Ey as (m1 & m2 & -> & Hy & _).
    assert (y ∈ lo) as Hin.
    { eapply mid_in_tail; [exact Hsp|set_solver]. }
    destruct (si_lookup st L HI y) as [nd Hnd]; [set_solver|]. rewrite Hnd. simpl.
    rewrite Forall_forall in Hlo. specialize (Hlo y Hin). unfold nkey in Hlo. rewrite Hnd in Hlo.
    apply bytes_ltb_lt in Hlo as ->.
    apply (IH (pre ++ x :: m1) y m2); [|done|].
    + by rewrite Hsp, <-(assoc_L (++)).
    + rewrite length_app in Hf. simpl in Hf. lia.
  - assert (stops i x) by (by exists pre, mid).
    destruct (first_tall st i hi) as [y|] eqn:Ey'; [|by eexists].
    apply first_tall_Some in Ey' as (m1 & m2 & -> & Hy & _).
    destruct (si_lookup st L HI y) as [nd Hnd]; [set_solver|]. rewrite Hnd. simpl.
    rewrite Forall_forall in Hhi. specialize (Hhi y ltac:(set_solver)). unfold nkey in Hhi. rewrite Hnd in Hhi.
    destruct (bytes_ltb_spec (sn_key nd) k); [done|]. by eexists.
Qed.

Lemma stops_advance i x : stops i x -> exists y, advance (S (length st)) st (pred i) k x = Some y /\ stops (pred i) y.
Proof.
  intros (pre & mid & Hsp & Hi & _). eapply advance_spec; [exact Hsp|lia|].
  rewrite (si_length st L HI), HL. apply (f_equal length) in Hsp.
  rewrite length_app in *. simpl in *. lia.
Qed.

Lemma descend_spec n x :
  (exists pre mid, head :: lo = pre ++ x :: mid) -> n <= height st x ->
  exists update y, descend st k n x = Some (update, y) /\ length update = n /\
    (forall i u, update !! i = Some u -> stops i u) /\ (0 < n -> stops 0 y).
Proof.
  revert x. induction n as [|n IH]; intros x (pre & mid & Hsp) Hn; cbn [descend].
  - exists [], x. repeat split; [|lia]. intros i u. by rewrite lookup_nil.
  - destruct (advance_spec (S (length st)) n pre x mid) as (x1 & E & Hst); [done|lia|..].
    { rewrite (si_length st L HI), HL. apply (f_equal length) in Hsp.
      rewrite length_app in *. simpl in *. lia. }
    rewrite E. simpl. destruct Hst as (pre1 & mid1 & Hsp1 & Hh1 & Hn1).
    destruct (IH x1) as (upd & y & Ed & Hl & Hu & Hy); [by exists pre1, mid1|lia|].
    rewrite Ed. simpl. exists (upd ++ [x1]), y. repeat split.
    + rewrite length_app. simpl. lia.
    + intros i u Hiu. apply lookup_app_Some in Hiu as [Hiu|[Hge Hiu]]; [by apply Hu|].
      apply list_lookup_singleton_Some in Hiu as [Hi0 <-].
      replace i with n by lia. by exists pre1, mid1.
    + intros _. destruct n as [|n]; [|apply Hy; lia]. simpl in Ed. simplify_eq. by exists pre1, mid1.
Qed.

(** At level 0 the search stops at the last node below [k]. *)
Lemma stops_0 y : stops 0 y -> exists pre, head :: lo = pre ++ [y].
Proof using HI HL.
  clear Hlo Hhi.
  intros (pre & [|z mid] & Hsp & _ & Hn); [by exists pre|]. exfalso.
  assert (z ∈ lo) by (eapply mid_in_tail; [exact Hsp|set_solver]).
  pose proof (si_height _ _ HI z) as Hz. pose proof (first_tall_None _ _ _ z Hn) as Hz'.
  specialize (Hz' ltac:(set_solver)). rewrite HL in Hz. specialize (Hz ltac:(set_solver)). lia.
Qed.

(** The last node of a level is unique. *)
Lemma stops_unique i x y : stops i x -> stops i y -> x = y.
Proof using Type.
  clear HI HL Hlo Hhi k L hi.
  intros (p1 & m1 & H1 & Hx & Hn1) (p2 & m2 & H2 & Hy & Hn2). rewrite H1 in H2.
  destruct (app_eq_inv _ _ _ _ H2) as [(w & -> & Hw)|(w & -> & Hw)].
  - destruct w as [|z w]; simpl in Hw; simplify_eq; [done|].
    rewrite first_tall_app in Hn2. destruct (first_tall st i w); [done|].
    simpl in Hn2. by rewrite bool_decide_true in Hn2.
  - destruct w as [|z w]; simpl in Hw; simplify_eq; [done|].
    rewrite first_tall_app in Hn1. destruct (first_tall st i w); [done|].
    simpl in Hn1. by rewrite bool_decide_true in Hn1.
Qed.

End search.

(** ** Relinking *)

(** Two stores that differ in their links only. *)
Definition same_data (st st' : list skipNode) : Prop :=
  length st' = length st /\
  forall x, node_entry st' x = node_entry st x /\ height st' x = height st x /\
    (is_Some (st !! x) -> is_Some (st' !! x)).

#[global] Instance same_data_preorder : PreOrder same_data.
Proof.
  split.
  - by intros st.
  - intros s1 s2 s3 [H1 H2] [H3 H4]. split; [congruence|]. intros x.
    specialize (H2 x) as (?&?&?). specialize (H4 x) as (?&?&?). split_and!; [congruence..|auto].
Qed.

Lemma set_next_spec st x i n :
  i < height st x ->
  exists st', set_next st x i n = Some st' /\ same_data st st' /\
    forall y j, next_of st' y j = if decide (y = x /\ j = i) then Some n else next_of st y j.
Proof.
  unfold height, set_next. destruct (st !! x) as [nd|] eqn:E; [|lia]. intros Hi. simpl.
  destruct (sn_next nd !! i) eqn:Ei; [|apply lookup_ge_None in Ei; lia]. simpl.
  pose proof (lookup_lt_Some _ _ _ E) as Hlt.
  eexists. split; [done|]. split.
  - split; [by rewrite length_insert|]. intros y. unfold node_entry, height.
    destruct (decide (y = x)) as [->|Hne].
    + rewrite list_lookup_insert_eq by done. rewrite E. simpl. rewrite length_insert. by eauto.
    + by rewrite list_lookup_insert_ne by congruence.
  - intros y j. unfold next_of. destruct (decide (y = x)) as [->|Hne].
    + rewrite list_lookup_insert_eq by done. rewrite E. simpl. case_decide as Hj.
      * destruct Hj as [_ ->]. rewrite list_lookup_insert_eq by done. done.
      * rewrite list_lookup_insert_ne; [done|]. naive_solver.
    + rewrite list_lookup_insert_ne by congruence. by rewrite decide_False by naive_solver.
Qed.

Lemma link_spec update n k i st :
  height st n = i + k -> i + k <= length update ->
  (forall j u, update !! j = Some u -> j < height st u /\ u <> n) ->
  exists st', link st update n i k = Some st' /\ same_data st st' /\
    forall x j, next_of st' x j =
      if decide (i <= j < i + k) then
        if decide (x = n) then (u ← update !! j; next_of st u j)
        else if decide (update !! j = Some x) then Some (Some n) else next_of st x j
      else next_of st x j.
Proof.
  revert i st. induction k as [|k IH]; intros i st Hh Hl Hu; cbn [link].
  { exists st. split; [done|]. split; [done|]. intros x j. by rewrite decide_False by lia. }
  destruct (lookup_lt_is_Some_2 update i) as [u Eu]; [lia|]. rewrite Eu. simpl.
  destruct (Hu i u Eu) as [Hiu Hun].
  assert (exists y, next_of st u i = Some y) as [y Ey].
  { unfold next_of, height in *. destruct (st !! u) as [nd|]; [|lia]. simpl.
    apply lookup_lt_is_Some_2. done. }
  rewrite Ey. simpl.
  destruct (set_next_spec st n i y) as (st1 & -> & Hs1 & Hn1); [lia|]. simpl.
  destruct (set_next_spec st1 u i (Some n)) as (st2 & -> & Hs2 & Hn2).
  { by rewrite (proj1 (proj2 (proj2 Hs1 u))). }
  simpl. assert (same_data st st2) as Hs12 by (by etrans).
  destruct (IH (S i) st2) as (st3 & E3 & Hs3 & Hn3).
  { rewrite (proj1 (proj2 (proj2 Hs12 n))). lia. }
  { lia. }
  { intros j v Hj. rewrite (proj1 (proj2 (proj2 Hs12 v))). by apply Hu. }
  exists st3. split; [done|]. split; [by etrans|]. intros x j. rewrite Hn3.
  destruct (decide (S i <= j < S i + k)) as [Hj|Hj].
  - rewrite (decide_True (P := i <= j < i + S k)) by lia.
    case_decide as Hx.
    + destruct (update !! j) as [v|] eqn:Ev; [|done]. simpl.
      rewrite Hn2, Hn1. rewrite !decide_False by lia. done.
    + case_decide; [done|]. rewrite Hn2, Hn1. by rewrite !decide_False by lia.
  - destruct (decide (j = i)) as [->|Hji].
    + rewrite (decide_True (P := i <= i < i + S k)) by lia. rewrite Eu, Hn2, Hn1. simpl. rewrite Ey.
      destruct (decide (x = n)) as [->|Hxn].
      * rewrite decide_False by naive_solver. by rewrite decide_True.
      * destruct (decide (x = u)) as [->|Hxu].
        { rewrite !decide_True by done. done. }
        { rewrite !decide_False by naive_solver. done. }
    + rewrite (decide_False (P := i <= j < i + S k)) by lia.
      rewrite Hn2, Hn1. by rewrite !decide_False by naive_solver.
Qed.

End SkipInv.

(** ** Lemmas on the reference list *)

Lemma lookup_entry_app k es fs :
  lookup_entry k (es ++ fs) = match lookup_entry k es with Some e => Some e | None => lookup_entry k fs end.
Proof. induction es as [|e es IH]; simpl; [done|]. by destruct (bytes_eqb_spec (ke_key e) k). Qed.

Lemma lookup_entry_None k es : Forall (fun e => ke_key e <> k) es -> lookup_entry k es = None.
Proof.
  induction 1 as [|e es He _ IH]; simpl; [done|]. by destruct (bytes_eqb_spec (ke_key e) k).
Qed.

Lemma lookup_entry_Some k es e : lookup_entry k es = Some e -> e ∈ es /\ ke_key e = k.
Proof.
  induction es as [|f es IH]; simpl; [done|].
  destruct (bytes_eqb_spec (ke_key f) k) as [E|E]; [intros [= ->]; set_solver|].
  intros [? ?]%IH. set_solver.
Qed.

Lemma insert_entry_app e es fs :
  Forall (fun f => bytes_lt (ke_key f) (ke_key e)) es ->
  insert_entry e (es ++ fs) = es ++ insert_entry e fs.
Proof.
  induction 1 as [|f es Hf _ IH]; simpl; [done|]. apply bytes_ltb_lt in Hf as ->. by rewrite IH.
Qed.

Lemma sorted_entries_app es fs :
  sorted_entries (es ++ fs) -> sorted_entries es /\ sorted_entries fs.
Proof.
  unfold sorted_entries, keys. rewrite fmap_app. intros H.
  split; [eapply StronglySorted_app_1_l|eapply StronglySorted_app_1_r]; done.
Qed.

Lemma entries_size_app es fs : entries_size (es ++ fs) = (entries_size es + entries_size fs)%Z.
Proof. unfold entries_size. induction es as [|e es IH]; simpl; lia. Qed.

(** In a sorted list, the entries from a key on start with that key or lack it. *)
Lemma lookup_entry_head k e es :
  sorted_entries (e :: es) -> ~ bytes_lt (ke_key e) k ->
  lookup_entry k (e :: es) = if bytes_eqb (ke_key e) k then Some e else None.
Proof.
  unfold sorted_entries, keys. rewrite fmap_cons.
  intros [_ Hall]%StronglySorted_inv Hge. simpl.
  destruct (bytes_eqb_spec (ke_key e) k) as [|Hne]; [done|].
  apply lookup_entry_None. rewrite Forall_fmap in Hall. eapply Forall_impl; [exact Hall|].
  simpl. intros f Hf <-. by apply Hge.
Qed.

(** ** Correctness of the operations *)

Module SkipCorrect.
Import Memtable SkipInv.

Lemma randomHeight_from_bounds h rs : h <= maxHeight -> h <= randomHeight_from h rs <= maxHeight.
Proof.
  revert h. induction rs as [|r rs IH]; intros h Hh; simpl; [lia|].
  case_bool_decide; simpl; [|lia]. destruct (r =? 0)%N; [|lia].
  specialize (IH (S h)). lia.
Qed.

Lemma randomHeight_bounds rs : 1 <= randomHeight rs <= maxHeight.
Proof. apply randomHeight_from_bounds. unfold maxHeight. lia. Qed.

Lemma nkey_entry st x : nkey st x = ke_key (node_entry st x).
Proof. unfold nkey, node_entry. by destruct (st !! x). Qed.

Lemma node_entry_lookup st x nd :
  st !! x = Some nd -> node_entry st x = mkEntry (sn_key nd) (sn_value nd) (sn_tombstone nd).
Proof. unfold node_entry. by intros ->. Qed.

Lemma nkeys_entries st L : nkey st <$> L = keys (node_entry st <$> L).
Proof. unfold keys. rewrite <-list_fmap_compose. apply list_fmap_ext. intros _ x _. apply nkey_entry. Qed.

Lemma skip_inv_sorted st L : skip_inv st L -> sorted_entries (node_entry st <$> L).
Proof. intros HI. unfold sorted_entries. rewrite <-nkeys_entries. apply (si_sorted _ _ HI). Qed.

(** Where the search for [k] ends, and what it finds there. *)
Lemma search_spec st L k :
  skip_inv st L ->
  exists lo hi update x, L = lo ++ hi /\
    Forall (fun x => bytes_lt (nkey st x) k) lo /\ Forall (fun x => ~ bytes_lt (nkey st x) k) hi /\
    descend st k maxHeight head = Some (update, x) /\ length update = maxHeight /\
    (forall i u, update !! i = Some u -> stops st lo i u) /\
    match_at st x k = Some
      (z ← list.head hi; nd ← st !! z; if bytes_eqb (sn_key nd) k then Some (z, nd) else None).
Proof.
  intros HI. destruct (split_at_key (nkey st) L k (si_sorted _ _ HI)) as (lo & hi & HL & Hlo & Hhi).
  destruct (descend_spec st L lo hi k HI HL Hlo Hhi maxHeight head) as (upd & x & Ed & Hl & Hu & H0).
  { by exists [], lo. }
  { by rewrite (si_head _ _ HI). }
  exists lo, hi, upd, x. split_and!; try done.
  assert (stops st lo 0 x) as Hx by (apply H0; unfold maxHeight; lia).
  destruct (stops_0 st L lo hi HI HL x Hx) as [pre Hpre].
  unfold match_at. rewrite (link_in_lo st L lo hi HI HL pre x []); [|done|].
  2:{ destruct Hx as (?&?&?&?&?). done. }
  simpl. destruct hi as [|z hi]; [done|].
  rewrite (first_tall_0 st L HI z hi).
  - simpl. destruct (si_lookup st L HI z) as [nd ->]; [set_solver|]. done.
  - rewrite HL. intros y Hy. apply in_app_iff. by right.
Qed.

Lemma lo_not_k st (lo : list nat) k :
  Forall (fun x => bytes_lt (nkey st x) k) lo -> lookup_entry k (node_entry st <$> lo) = None.
Proof.
  intros H. apply lookup_entry_None. rewrite Forall_fmap. eapply Forall_impl; [exact H|].
  simpl. intros x Hx Hk. rewrite nkey_entry, Hk in Hx. by apply (bytes_lt_irrefl k).
Qed.

(** get never panics and is the lookup in the entries. *)
Lemma get_lookup m es k :
  mem_inv m es ->
  get m k = Some ((fun e => (ke_value e, ke_tombstone e)) <$> lookup_entry k es).
Proof.
  intros (L & HI & -> & _). destruct (search_spec _ _ k HI)
    as (lo & hi & upd & x & -> & Hlo & Hhi & Ed & _ & _ & Em).
  unfold get. rewrite Ed; simpl. rewrite Em; simpl. clear Em Ed.
  rewrite fmap_app, lookup_entry_app, lo_not_k by done.
  destruct hi as [|z hi]; [done|]. simpl list.head.
  destruct (si_lookup _ _ HI z) as [nd Hnd]; [set_solver|].
  apply skip_inv_sorted in HI. rewrite fmap_app in HI.
  apply sorted_entries_app in HI as [_ Hs].
  apply Forall_cons in Hhi as [Hz _]. rewrite nkey_entry in Hz.
  rewrite fmap_cons in *. rewrite lookup_entry_head by done.
  simpl. rewrite Hnd. simpl. rewrite (node_entry_lookup _ _ _ Hnd). simpl.
  by destruct (bytes_eqb (sn_key nd) k).
Qed.

Lemma newMemtable_inv : mem_inv newMemtable [].
Proof.
  exists []. split_and!; try done. split; try done.
  - simpl. lia.
  - set_solver.
  - constructor.
  - intros pre x post i Hsp Hi. destruct pre as [|y pre]; [|by destruct pre].
    injection Hsp as <- <-. exact (lookup_replicate_2 maxHeight None i Hi).
Qed.

(** ** entries *)

Lemma entries_from_spec st L pre l fuel :
  skip_inv st L -> L = pre ++ l -> length l <= fuel ->
  entries_from fuel st (list.head l) = Some (node_entry st <$> l).
Proof.
  intros HI. revert pre l. induction fuel as [|fuel IH]; intros pre [|x l] HL Hf; simpl in *; try done; [lia|].
  destruct (si_lookup _ _ HI x) as [nd Hnd]; [set_solver|].
  pose proof (si_links _ _ HI (head :: pre) x l 0) as Hlink.
  rewrite HL in Hlink. specialize (Hlink eq_refl).
  pose proof (si_height _ _ HI x ltac:(set_solver)) as Hh. specialize (Hlink ltac:(lia)).
  unfold next_of in Hlink. rewrite Hnd in *. simpl in *. rewrite Hlink. simpl.
  assert (first_tall st 0 l = list.head l) as ->.
  { destruct l as [|y l]; [done|]. apply (first_tall_0 st L HI).
    intros z Hz. rewrite HL. apply in_app_iff. right. by right. }
  rewrite (IH (pre ++ [x]) l); [|by rewrite <-(assoc_L (++))|lia]. simpl.
  by rewrite (node_entry_lookup _ _ _ Hnd).
Qed.

Lemma entries_spec m es : mem_inv m es -> entries m = Some es.
Proof.
  intros (L & HI & -> & _). unfold entries.
  pose proof (si_links _ _ HI [] head L 0 eq_refl) as Hlink.
  rewrite (si_head _ _ HI) in Hlink. rewrite Hlink by (unfold maxHeight; lia). simpl.
  assert (first_tall (store m) 0 L = list.head L) as ->.
  { destruct L as [|y l]; [done|]. apply (first_tall_0 _ _ HI). by intros ? ?. }
  apply (entries_from_spec _ L []); [done..|]. rewrite (si_length _ _ HI). lia.
Qed.

(** ** put *)

(** Changing values and links that no level sees keeps the invariant. *)
Lemma skip_inv_ext st st' L :
  skip_inv st L -> length st' = length st ->
  (forall x, height st' x = height st x) -> (forall x, nkey st' x = nkey st x) ->
  (forall x i, next_of st' x i = next_of st x i) -> skip_inv st' L.
Proof.
  intros [H1 H2 H3 H4 H5 H6] Hl Hh Hk Hn. split; rewrite ?Hl, ?Hh; try done.
  - intros x. rewrite Hh. apply H4.
  - erewrite list_fmap_ext; [exact H5|]. intros _ x _. apply Hk.
  - intros pre x post i Hsp Hi. rewrite Hn, (H6 pre x post) by (rewrite <-?Hh; done).
    f_equal. symmetry. by apply first_tall_ext.
Qed.

Lemma update_node_inv st L z nd value tomb :
  skip_inv st L -> st !! z = Some nd ->
  skip_inv (<[z := mkNode (sn_key nd) value tomb (sn_next nd)]> st) L.
Proof.
  intros HI Hz. pose proof (lookup_lt_Some _ _ _ Hz) as Hlt.
  apply (skip_inv_ext st); [done|by rewrite length_insert|..].
  - intros x. unfold height. destruct (decide (x = z)) as [->|].
    + by rewrite list_lookup_insert_eq, Hz.
    + by rewrite list_lookup_insert_ne by congruence.
  - intros x. unfold nkey. destruct (decide (x = z)) as [->|].
    + by rewrite list_lookup_insert_eq, Hz.
    + by rewrite list_lookup_insert_ne by congruence.
  - intros x i. unfold next_of. destruct (decide (x = z)) as [->|].
    + by rewrite list_lookup_insert_eq, Hz.
    + by rewrite list_lookup_insert_ne by congruence.
Qed.

Lemma split_unique {A} (l p1 m1 p2 m2 : list A) x :
  NoDup l -> l = p1 ++ x :: m1 -> l = p2 ++ x :: m2 -> m1 = m2.
Proof.
  intros Hnd -> H2.
  destruct (app_eq_inv _ _ _ _ H2) as [(w & -> & Hw)|(w & -> & Hw)];
    (destruct w as [|y w]; [by injection Hw|]); injection Hw as Hx Hw;
    apply NoDup_app in Hnd as (_ & Hd & Hnd).
  - destruct (Hd x); set_solver.
  - apply NoDup_cons in Hnd as [Hni _]. destruct Hni. rewrite Hw. set_solver.
Qed.

Lemma insert_entry_head e f es :
  ~ bytes_lt (ke_key f) (ke_key e) ->
  insert_entry e (f :: es) = if bytes_eqb (ke_key f) (ke_key e) then e :: es else e :: f :: es.
Proof. intros H. simpl. by destruct (bytes_ltb_spec (ke_key f) (ke_key e)). Qed.

Section insert.
Context (st : list skipNode) (lo hi : list nat) (k v : bytes) (t : bool) (h : nat) (update : list nat) (st' : list skipNode).
Let L := lo ++ hi.
Let n := length st.
Let st0 := st ++ [mkNode k v t (replicate h None)].
Context (HI : skip_inv st L).
Context (Hlo : Forall (fun x => bytes_lt (nkey st x) k) lo).
Context (Hhi : Forall (fun x => bytes_lt k (nkey st x)) hi).
Context (Hupd : forall i u, update !! i = Some u -> stops st lo i u).
Context (Hlen : length update = maxHeight) (Hh : 1 <= h <= maxHeight).
Context (Hlink : link st0 update n 0 h = Some st').

Lemma old_lookup x : x ∈ head :: L -> st0 !! x = st !! x.
Proof.
  intros Hx. apply lookup_app_l. by apply lookup_lt_is_Some, (si_lookup st L HI).
Qed.

Lemma new_lookup : st0 !! n = Some (mkNode k v t (replicate h None)).
Proof. unfold st0, n. by rewrite lookup_app_r, Nat.sub_diag. Qed.

Lemma stops_in i u : stops st lo i u -> u ∈ head :: lo.
Proof using Type.
  clear HI Hlo Hhi Hupd Hlen Hh Hlink. intros (pre & mid & -> & _). set_solver.
Qed.

Lemma upd_ok j u : update !! j = Some u -> j < height st0 u /\ u <> n.
Proof using HI Hupd.
  clear Hlo Hhi Hlen Hh Hlink.
  intros Hu. pose proof (Hupd _ _ Hu) as Hst. pose proof (stops_in _ _ Hst) as Hin.
  assert (u ∈ head :: L) as HinL by (unfold L; set_solver).
  split.
  - destruct Hst as (_ & _ & _ & Hht & _). unfold height in *. by rewrite old_lookup.
  - intros ->. by apply (si_new st L HI).
Qed.

Lemma linked : same_data st0 st' /\
  forall x j, next_of st' x j =
    if decide (j < h) then
      if decide (x = n) then (u ← update !! j; next_of st0 u j)
      else if decide (update !! j = Some x) then Some (Some n) else next_of st0 x j
    else next_of st0 x j.
Proof.
  destruct (link_spec update n h 0 st0) as (st1 & E & Hs & Hn).
  - unfold height. rewrite new_lookup. simpl. by rewrite length_replicate.
  - lia.
  - apply upd_ok.
  - rewrite Hlink in E. injection E as <-. split; [done|]. intros x j. rewrite Hn.
    destruct (decide (j < h)); [rewrite decide_True by lia|rewrite decide_False by lia]; done.
Qed.

Lemma old_height x : x ∈ head :: L -> height st' x = height st x.
Proof.
  intros Hx. destruct linked as [[_ Hs] _]. rewrite (proj1 (proj2 (Hs x))).
  unfold height. by rewrite old_lookup.
Qed.

Lemma new_height : height st' n = h.
Proof.
  destruct linked as [[_ Hs] _]. rewrite (proj1 (proj2 (Hs n))).
  unfold height. rewrite new_lookup. simpl. apply length_replicate.
Qed.

Lemma old_entry x : x ∈ head :: L -> node_entry st' x = node_entry st x.
Proof.
  intros Hx. destruct linked as [[_ Hs] _]. rewrite (proj1 (Hs x)).
  unfold node_entry. by rewrite old_lookup.
Qed.

Lemma new_entry : node_entry st' n = mkEntry k v t.
Proof.
  destruct linked as [[_ Hs] _]. rewrite (proj1 (Hs n)). unfold node_entry. by rewrite new_lookup.
Qed.

Lemma old_next x j : x ∈ head :: L -> next_of st0 x j = next_of st x j.
Proof. intros Hx. unfold next_of. by rewrite old_lookup. Qed.

Lemma tall_old i l : incl l L -> first_tall st' i l = first_tall st i l.
Proof.
  intros Hl. apply first_tall_ext. intros x Hx. apply old_height.
  apply elem_of_cons. right. apply list_elem_of_In, Hl. by apply list_elem_of_In.
Qed.

Lemma incl_part (l a b : list nat) : L = a ++ l ++ b -> incl l L.
Proof. intros -> x Hx. rewrite !in_app_iff. auto. Qed.

(** The links of the new node, of a node before it, of a node after it. *)
Lemma links_new i : i < h -> next_of st' n i = Some (first_tall st' i hi).
Proof.
  intros Hi. destruct linked as [_ Hn]. rewrite Hn, !decide_True by done.
  destruct (lookup_lt_is_Some_2 update i) as [u Hu]; [lia|]. rewrite Hu. simpl.
  pose proof (Hupd _ _ Hu) as Hst. pose proof (stops_in _ _ Hst) as Hin.
  rewrite old_next by (unfold L; set_solver).
  destruct Hst as (pre & mid & Hsp & Hht & Hno).
  rewrite (link_in_lo st L lo hi HI eq_refl pre u mid) by done.
  rewrite first_tall_app, Hno. f_equal. symmetry. apply tall_old.
  apply (incl_part hi lo []). by rewrite app_nil_r.
Qed.

Lemma links_before pre x mid i :
  head :: lo = pre ++ x :: mid -> i < height st x ->
  next_of st' x i = Some (first_tall st' i (mid ++ n :: hi)).
Proof.
  intros Hsp Hi. destruct linked as [_ Hn].
  assert (x ∈ head :: L) as Hx by (unfold L; rewrite app_comm_cons, Hsp; set_solver).
  assert (x <> n) as Hxn by (intros ->; by apply (si_new st L HI)).
  assert (incl mid L) as Hmid.
  { intros y Hy. apply in_app_iff. left. apply list_elem_of_In. apply list_elem_of_In in Hy.
    by eapply mid_in_tail. }
  rewrite Hn, first_tall_app. simpl. rewrite new_height, tall_old by done.
  rewrite (tall_old i hi) by (apply (incl_part hi lo []); by rewrite app_nil_r).
  rewrite old_next by done. rewrite (link_in_lo st L lo hi HI eq_refl pre x mid) by done.
  rewrite first_tall_app, (decide_False (P := x = n)) by done.
  destruct (first_tall st i mid) as [y|] eqn:Ey.
  - destruct (decide (i < h)); [|done]. rewrite decide_False; [done|].
    intros (pre' & mid' & Hsp' & _ & Hno)%Hupd.
    assert (mid = mid') as <-; [|congruence].
    eapply (split_unique (head :: lo)); [|done..].
    pose proof (si_NoDup st L HI) as Hnd. unfold L in Hnd. rewrite app_comm_cons in Hnd.
    by apply NoDup_app in Hnd as [? _].
  - destruct (decide (i < h)) as [Hih|Hih]; [rewrite (bool_decide_true (i < h)) by done|by rewrite (bool_decide_false (i < h))].
    destruct (lookup_lt_is_Some_2 update i) as [u Hu]; [lia|].
    assert (stops st lo i x) as Hstx by (by exists pre, mid).
    by rewrite Hu, (stops_unique st lo i u x (Hupd _ _ Hu) Hstx), decide_True.
Qed.

Lemma links_after w x post i :
  hi = w ++ x :: post -> i < height st x -> next_of st' x i = Some (first_tall st' i post).
Proof.
  intros Hsp Hi. destruct linked as [_ Hn].
  assert (x ∈ hi) as Hxhi by set_solver.
  assert (x ∈ head :: L) as Hx by (unfold L; set_solver).
  assert (x <> n) as Hxn by (intros ->; by apply (si_new st L HI)).
  assert (x ∉ head :: lo) as Hnlo.
  { pose proof (si_NoDup st L HI) as Hnd. unfold L in Hnd. rewrite app_comm_cons in Hnd.
    apply NoDup_app in Hnd as (_ & Hd & _). intros Hin. by apply (Hd x). }
  assert (next_of st' x i = next_of st x i) as ->.
  { rewrite Hn, <-(old_next x i) by done. rewrite (decide_False (P := x = n)) by done.
    case_decide; [|done]. rewrite decide_False; [done|]. intros Hu. by apply Hnlo, (stops_in i), Hupd. }
  rewrite (si_links _ _ HI (head :: lo ++ w) x post i); [|by unfold L; rewrite Hsp; simplify_list_eq|done].
  f_equal. symmetry. apply tall_old. apply (incl_part post (lo ++ w ++ [x]) []).
  unfold L. rewrite Hsp. by simplify_list_eq.
Qed.

Lemma insert_inv : skip_inv st' (lo ++ n :: hi).
Proof.
  destruct linked as [[Hl _] _]. unfold st0 in Hl. rewrite length_app in Hl. simpl in Hl.
  pose proof (si_pos st L HI) as Hpos.
  split.
  - rewrite <-Permutation_middle, Hl. fold L. rewrite (si_perm st L HI).
    replace (length st + 1 - 1) with (S (length st - 1)) by lia. rewrite seq_S.
    replace (1 + (length st - 1)) with n by (unfold n; lia). apply Permutation_cons_append.
  - lia.
  - rewrite old_height by set_solver. apply (si_head st L HI).
  - intros x Hx. destruct (decide (x = n)) as [->|Hne]; [by rewrite new_height|].
    assert (x ∈ L) by (unfold L; set_solver).
    rewrite old_height by set_solver. by apply (si_height st L HI).
  - rewrite fmap_app, fmap_cons.
    assert (forall l, incl l L -> nkey st' <$> l = nkey st <$> l) as Hk.
    { intros l Hin. apply list_fmap_ext. intros i x Hx. rewrite !nkey_entry, old_entry; [done|].
      apply elem_of_cons. right. apply list_elem_of_In, Hin, list_elem_of_In.
      by eapply list_elem_of_lookup_2. }
    rewrite !Hk, nkey_entry, new_entry by (intros x Hx; apply in_app_iff; auto). simpl.
    pose proof (si_sorted st L HI) as Hs. unfold L in Hs. rewrite fmap_app in Hs.
    apply StronglySorted_app in Hs as (Hlh & Hsl & Hsh).
    rewrite <-Forall_fmap with (f := nkey st) (P := fun b => bytes_lt b k) in Hlo.
    rewrite <-Forall_fmap with (f := nkey st) (P := bytes_lt k) in Hhi.
    apply StronglySorted_app. rewrite Forall_forall in Hlo. split; [|split; [done|by constructor]].
    intros x1 x2 H1 [->|H2]%elem_of_cons; [by apply Hlo|by apply Hlh].
  - intros pre x post i Hsp Hi. rewrite app_comm_cons in Hsp.
    assert (x <> n -> x ∈ head :: L) as Hold.
    { intros Hne. assert (x ∈ (head :: lo) ++ n :: hi) as Hin by (rewrite Hsp; set_solver).
      unfold L. set_solver. }
    destruct (app_eq_inv _ _ _ _ Hsp) as [(w & Hpre & Hpost)|(w & Hpre & Hpost)].
    + destruct w as [|y w]; injection Hpost as -> ->.
      * rewrite new_height in Hi. by apply links_new.
      * apply (links_before pre); [done|]. rewrite old_height in Hi; [done|].
        apply Hold. intros ->. apply (si_new st L HI). unfold L. rewrite app_comm_cons, Hpre. set_solver.
    + destruct w as [|y w]; [injection Hpost as <- <-|injection Hpost as <- Hpost].
      * rewrite new_height in Hi. by apply links_new.
      * apply (links_after w); [done|]. rewrite old_height in Hi; [done|].
        apply Hold. intros ->. apply (si_new st _ HI). unfold L. set_solver.
Qed.

Lemma insert_entries :
  node_entry st' <$> lo ++ n :: hi = (node_entry st <$> lo) ++ mkEntry k v t :: (node_entry st <$> hi).
Proof.
  rewrite fmap_app, fmap_cons, new_entry.
  assert (forall l : list nat, incl l L -> node_entry st' <$> l = node_entry st <$> l) as Hold.
  { intros l Hin. apply list_fmap_ext. intros i y Hy. apply old_entry, elem_of_cons. right.
    apply list_elem_of_In, Hin, list_elem_of_In. by eapply list_elem_of_lookup_2. }
  by rewrite !Hold by (intros y Hy; apply in_app_iff; auto).
Qed.

Lemma insert_entry_between :
  insert_entry (mkEntry k v t) (node_entry st <$> L)
  = (node_entry st <$> lo) ++ mkEntry k v t :: (node_entry st <$> hi).
Proof using Hlo Hhi.
  clear HI Hlink Hupd. unfold L. rewrite fmap_app, insert_entry_app.
  - f_equal. destruct hi as [|z hi']; [done|]. rewrite fmap_cons.
    apply Forall_cons in Hhi as [Hz _]. rewrite nkey_entry in Hz.
    rewrite insert_entry_head by (simpl; by apply bytes_lt_asym). simpl.
    destruct (bytes_eqb_spec (ke_key (node_entry st z)) k) as [E'|]; [|done].
    rewrite E' in Hz. by apply bytes_lt_irrefl in Hz.
  - rewrite Forall_fmap. eapply Forall_impl; [exact Hlo|].
    simpl. intros y. by rewrite nkey_entry.
Qed.

End insert.

Lemma put_found m lo z hi nd k v t :
  mem_inv m (node_entry (store m) <$> lo ++ z :: hi) ->
  skip_inv (store m) (lo ++ z :: hi) -> store m !! z = Some nd -> sn_key nd = k ->
  Forall (fun x => bytes_lt (nkey (store m) x) k) lo ->
  mem_inv (mkMem (<[z := mkNode (sn_key nd) v t (sn_next nd)]> (store m))
             (size m + (Z.of_nat (length v) - Z.of_nat (length (sn_value nd)))) (count m))
          (insert_entry (mkEntry k v t) (node_entry (store m) <$> lo ++ z :: hi)).
Proof.
  intros (_ & _ & _ & Hsz & Hct) HI Hz Hk Hlo.
  pose proof (lookup_lt_Some _ _ _ Hz) as Hlt.
  set (st' := <[z := mkNode (sn_key nd) v t (sn_next nd)]> (store m)).
  assert (forall l : list nat, z ∉ l -> node_entry st' <$> l = node_entry (store m) <$> l) as Hother.
  { intros l Hl. apply list_fmap_ext. intros i x Hx. unfold node_entry, st'.
    rewrite list_lookup_insert_ne; [done|]. intros ->. by apply Hl, (list_elem_of_lookup_2 _ i). }
  pose proof (si_NoDup _ _ HI) as [_ Hnd]%NoDup_cons.
  apply NoDup_app in Hnd as (_ & Hd & [Hzhi _]%NoDup_cons).
  assert (node_entry st' z = mkEntry k v t) as Hez.
  { unfold node_entry, st'. rewrite list_lookup_insert_eq by done. by rewrite Hk. }
  assert (insert_entry (mkEntry k v t) (node_entry (store m) <$> lo ++ z :: hi)
          = node_entry st' <$> lo ++ z :: hi) as Heq.
  { rewrite !fmap_app, !fmap_cons, Hez, !Hother by set_solver. rewrite insert_entry_app.
    - rewrite insert_entry_head; rewrite (node_entry_lookup _ _ _ Hz); simpl; rewrite Hk.
      + by destruct (bytes_eqb_spec k k).
      + apply bytes_lt_irrefl.
    - rewrite Forall_fmap. eapply Forall_impl; [exact Hlo|].
      simpl. intros x. by rewrite nkey_entry. }
  exists (lo ++ z :: hi). split_and!.
  - by apply update_node_inv.
  - done.
  - rewrite Heq. cbn [size]. rewrite Hsz, !fmap_app, !fmap_cons, !Hother, Hez by set_solver.
    rewrite !entries_size_app. cbn [entries_size foldr]. fold (entries_size (node_entry (store m) <$> hi)).
    rewrite (node_entry_lookup _ _ _ Hz), Hk. unfold entry_size; simpl. lia.
  - rewrite Heq. cbn [count]. by rewrite Hct, !length_fmap.
Qed.

Lemma put_fresh m lo hi upd k v t rs :
  mem_inv m (node_entry (store m) <$> lo ++ hi) -> skip_inv (store m) (lo ++ hi) ->
  Forall (fun x => bytes_lt (nkey (store m) x) k) lo ->
  Forall (fun x => bytes_lt k (nkey (store m) x)) hi ->
  length upd = maxHeight -> (forall i u, upd !! i = Some u -> stops (store m) lo i u) ->
  exists st', link (store m ++ [mkNode k v t (replicate (randomHeight rs) None)]) upd
                   (length (store m)) 0 (randomHeight rs) = Some st' /\
    mem_inv (mkMem st' (size m + Z.of_nat (length k + length v + 32)) (count m + 1))
            (insert_entry (mkEntry k v t) (node_entry (store m) <$> lo ++ hi)).
Proof.
  intros (_ & _ & _ & Hsz & Hct) HI Hlo Hgt Hl Hu. pose proof (randomHeight_bounds rs) as Hh.
  destruct (link_spec upd (length (store m)) (randomHeight rs) 0
    (store m ++ [mkNode k v t (replicate (randomHeight rs) None)])) as (st' & E & _).
  { unfold height. rewrite new_lookup. simpl. apply length_replicate. }
  { lia. }
  { intros j u. by eapply upd_ok. }
  exists st'. split; [done|]. exists (lo ++ length (store m) :: hi).
  rewrite insert_entry_between by done. split_and!; cbn [store size count].
  - by eapply insert_inv.
  - symmetry. by eapply insert_entries.
  - rewrite Hsz, fmap_app, !entries_size_app. cbn [entries_size foldr].
    fold (entries_size (node_entry (store m) <$> hi)). unfold entry_size; simpl. lia.
  - rewrite Hct, length_fmap, !length_app. simpl. rewrite !length_fmap. lia.
Qed.

Lemma put_spec m es k v t rs :
  mem_inv m es -> exists m', put m k v t rs = Some m' /\ mem_inv m' (insert_entry (mkEntry k v t) es).
Proof.
  intros Hm. pose proof Hm as (L & HI & -> & Hsz & Hct).
  destruct (search_spec _ _ k HI) as (lo & hi & upd & x & -> & Hlo & Hhi & Ed & Hl & Hu & Em).
  unfold put. rewrite Ed; simpl. rewrite Em; simpl. clear Ed Em.
  pose proof (put_fresh m lo hi upd k v t rs Hm HI Hlo) as Hfresh.
  destruct hi as [|z hi]; simpl.
  { destruct Hfresh as (st' & -> & ?); [done..|]. by eexists. }
  destruct (si_lookup _ _ HI z) as [nd Hz]; [set_solver|]. rewrite Hz; simpl.
  destruct (bytes_eqb_spec (sn_key nd) k) as [Hk|Hk].
  - eexists. split; [done|]. by apply put_found.
  - destruct Hfresh as (st' & -> & ?); [|done..|by eexists].
    pose proof (si_sorted _ _ HI) as Hs. rewrite fmap_app, fmap_cons in Hs.
    apply StronglySorted_app in Hs as (_ & _ & [_ Hall]%StronglySorted_inv).
    assert (bytes_lt k (nkey (store m) z)) as Hkz.
    { apply Forall_cons in Hhi as [Hz' _]. unfold nkey in *. rewrite Hz in *.
      destruct (trichotomy bytes_lt k (sn_key nd)) as [?|[?|?]]; [done|congruence|done]. }
    constructor; [done|]. rewrite Forall_fmap in Hall. eapply Forall_impl; [exact Hall|].
    intros y. simpl. by apply bytes_lt_trans.
Qed.

End SkipCorrect.

(** ** Properties *)

(** One call of put: key, value, tombstone, and the results of rand.Intn(4). *)
Record mem_op := mkOp { op_key : bytes; op_value : bytes; op_tombstone : bool; op_rand : list N }.

Definition op_entry (o : mem_op) : kvEntry := mkEntry (op_key o) (op_value o) (op_tombstone o).

(** The memtable after a sequence of puts. *)
Definition mem_run (ops : list mem_op) : option Memtable.memtable :=
  foldl (fun m o => m ← m; Memtable.put m (op_key o) (op_value o) (op_tombstone o) (op_rand o))
    (Some Memtable.newMemtable) ops.

(** The reference: the same puts on the sorted list. *)
Definition ref_run (ops : list mem_op) : list kvEntry :=
  foldl (fun es o => insert_entry (op_entry o) es) [] ops.

Lemma mem_run_inv ops : exists m, mem_run ops = Some m /\ SkipInv.mem_inv m (ref_run ops).
Proof.
  unfold mem_run, ref_run. induction ops as [|o ops IH] using rev_ind.
  - eexists. split; [done|]. apply SkipCorrect.newMemtable_inv.
  - destruct IH as (m & E & Hm). rewrite !foldl_app. cbn [foldl]. rewrite E. simpl.
    by apply SkipCorrect.put_spec.
Qed.

Lemma mem_inv_sorted m es : SkipInv.mem_inv m es -> sorted_entries es.
Proof. intros (L & HI & -> & _). by apply SkipCorrect.skip_inv_sorted. Qed.

(** C21. The skiplist implements a sorted map: whatever sequence of puts is made
    on a new memtable and whatever heights the random generator gives, no put
    panics (no nil link followed, no link index out of range); the entries come
    out strictly sorted by key and are those of the reference insertion into a
    sorted list; get is lookup in them; and the size and count kept on the side
    are the sum of the entries' sizes and their number. *)
Theorem memtable_refines_sorted_map (ops : list mem_op) :
  exists m, mem_run ops = Some m /\
    Memtable.entries m = Some (ref_run ops) /\
    sorted_entries (ref_run ops) /\
    (forall k, Memtable.get m k =
       Some ((fun e => (ke_value e, ke_tombstone e)) <$> lookup_entry k (ref_run ops))) /\
    Memtable.approxSize m = entries_size (ref_run ops) /\
    Memtable.count m = Z.of_nat (length (ref_run ops)).
Proof.
  destruct (mem_run_inv ops) as (m & E & Hm). exists m. split_and!.
  - done.
  - by apply SkipCorrect.entries_spec.
  - by eapply mem_inv_sorted.
  - intros k. by apply SkipCorrect.get_lookup.
  - by destruct Hm as (? & ? & ? & ? & ?).
  - by destruct Hm as (? & ? & ? & ? & ?).
Qed.

