(* ===== verification/SSTable.v ===== *)
(** storage/sstable.go: the immutable sorted tables. The writer's bytes, the
    reader that opens them, the block scanner and the lookup through the sparse
    index are modelled over the file's bytes. *)

From S2P Require Import Prelude Bytes GoIO Memtable.

(** ** File format *)

Definition sstMagic : N := 0x5354414B564B5631.
Definition indexEvery : nat := 16.

(** type sstIndexEntry struct; an offset is an int64. *)
Record sstIndexEntry := mkIndex {
  ie_key : bytes;
  ie_offset : Z
}.

(** int64(x) of a uint64. *)
Definition int64 (n : N) : Z :=
  if (n <? 9223372036854775808)%N then Z.of_N n else (Z.of_N n - Z.of_N two64)%Z.

(** uint64(x) of an int64. *)
Definition uint64 (z : Z) : N := Z.to_N (z mod Z.of_N two64).

Definition flag_byte (tombstone : bool) : byte := if tombstone then x01 else x00.

(** One record of the data block: flags(1) | klen(4) | vlen(4) | key | value. *)
Definition encode_entry (e : kvEntry) : bytes :=
  flag_byte (ke_tombstone e) :: PutUint32 (len (ke_key e)) ++ PutUint32 (len (ke_value e)) ++
  ke_key e ++ ke_value e.

(** One record of the index block: klen(4) | key | offset(8). *)
Definition encode_index_entry (ie : sstIndexEntry) : bytes :=
  PutUint32 (len (ie_key ie)) ++ ie_key ie ++ PutUint64 (uint64 (ie_offset ie)).

(** writeSSTable's loop over the entries: the data bytes, the index, and the
    running offset [off]; [i] is the loop variable. *)
Fixpoint write_loop (i : nat) (off : Z) (entries : list kvEntry) : bytes * list sstIndexEntry * Z :=
  match entries with
  | [] => ([], [], off)
  | e :: es =>
      let here := if bool_decide (i mod indexEvery = 0) then [mkIndex (ke_key e) off] else [] in
      let '(data, index, fin) :=
        write_loop (S i) (off + Z.of_nat (9 + length (ke_key e) + length (ke_value e))) es in
      (encode_entry e ++ data, here ++ index, fin)
  end.

(** The bytes writeSSTable hands to the file. *)
Definition sst_bytes (entries : list kvEntry) : bytes :=
  let '(data, index, indexOff) := write_loop 0 0 entries in
  let index_block := concat (encode_index_entry <$> index) in
  let footer := PutUint64 (uint64 indexOff) ++ PutUint32 (len index) ++
                PutUint32 (ChecksumIEEE index_block) ++ PutUint64 sstMagic in
  data ++ index_block ++ footer.

(** writeSSTable on a device that answers [open] to os.OpenFile and [write] to
    the writes, Sync and Close: the error, and the file it leaves at the path
    ([None]: the path was not created). *)
Definition writeSSTable (open write : outcome) (entries : list kvEntry) : option error * option bytes :=
  match open, write with
  | FailAfter _, _ => (Some EIO, None)
  | Done, Done => (None, Some (sst_bytes entries))
  | Done, FailAfter n => (Some EIO, Some (take n (sst_bytes entries)))
  end.

(** ** Reading *)

(** type sstable struct: the open file is its bytes. *)
Record sstable := mkTable {
  t_path : bytes;
  t_file : bytes;
  t_index : list sstIndexEntry;
  t_minKey : bytes;
  t_maxKey : bytes
}.

(** io.NewSectionReader(f, off, limit-off): the bytes it delivers. *)
Definition section (f : bytes) (off limit : Z) : bytes :=
  if (off <? 0)%Z then []
  else if (Z.of_nat (length f) <=? off)%Z then []
  else take (Z.to_nat (limit - off) `min` length f) (drop (Z.to_nat off) f).

(** One turn of scanBlock's loop. *)
Inductive scanned :=
  | ScanEnd                                  (* the 9-byte header cannot be read *)
  | ScanError                                (* a short key or value *)
  | ScanEntry (e : kvEntry) (rest : bytes).

Definition read_entry (b : bytes) : scanned :=
  match b with
  | [] => ScanEnd
  | flags :: b1 =>
      if (len b <? 9)%N then ScanEnd
      else
        let klen := Uint32 b1 in
        let vlen := Uint32 (drop 4 b1) in
        let r := drop 8 b1 in
        if (len r <? klen)%N then ScanError
        else
          let kb := take (N.to_nat klen) r in
          let r := drop (N.to_nat klen) r in
          if (len r <? vlen)%N then ScanError
          else ScanEntry (mkEntry kb (take (N.to_nat vlen) r) (N.odd (Byte.to_N flags)))
                 (drop (N.to_nat vlen) r)
  end.

Section scan.
Context {S : Type} (fn : S -> kvEntry -> S * bool).

(** The loop of scanBlock over the section's bytes: the state the callback
    captured, the last key seen, and the error. Each turn consumes a header. *)
Fixpoint scan_loop (fuel : nat) (s : S) (lastKey b : bytes) : S * bytes * option error :=
  match fuel with
  | O => (s, lastKey, None)
  | Datatypes.S fuel =>
      match read_entry b with
      | ScanEnd => (s, lastKey, None)
      | ScanError => (s, lastKey, Some EIO)
      | ScanEntry e rest =>
          let '(s, stop) := fn s e in
          if stop then (s, ke_key e, None) else scan_loop fuel s (ke_key e) rest
      end
  end.

Definition scanBlock (f : bytes) (off limit : Z) (s : S) : S * bytes * option error :=
  let b := section f off limit in scan_loop (Datatypes.S (length b)) s [] b.

End scan.

(** The index loop of openSSTable: [count] entries from [b]; a slice out of
    range panics. Each entry takes at least 12 bytes, which bounds the turns. *)
Fixpoint decode_index (fuel : nat) (count : N) (b : bytes) : result (list sstIndexEntry) :=
  if (count =? 0)%N then Ok []
  else match fuel with
  | O => Panic
  | S fuel =>
      if (len b <? 4)%N then Panic
      else
        let klen := Uint32 b in
        let r := drop 4 b in
        if (len r <? klen)%N then Panic
        else
          let key := take (N.to_nat klen) r in
          let r := drop (N.to_nat klen) r in
          if (len r <? 8)%N then Panic
          else
            let* index := decode_index fuel (count - 1) (drop 8 r) in
            Ok (mkIndex key (int64 (Uint64 r)) :: index)
  end.

Definition maxAlloc : Z := 281474976710656. (* 1 << 48: make() panics beyond *)

(** The footer: the last 24 bytes of the file. *)
Definition footer_of (f : bytes) : bytes := drop (length f - 24) f.

(** indexLimit (the file is at least as long as when it was opened). *)
Definition indexLimit (t : sstable) : Z := int64 (Uint64 (footer_of (t_file t))).

Definition keep_scanning (u : unit) (_ : kvEntry) : unit * bool := (u, false).

(** openSSTable of the file [f] found at [path]. *)
Definition openSSTable (path : bytes) (f : bytes) : result sstable :=
  let size := Z.of_nat (length f) in
  if (size <? 24)%Z then Err (Errorf (str "sstable too small"))
  else
    let footer := footer_of f in
    if negb (Uint64 (drop 16 footer) =? sstMagic)%N then Err (Errorf (str "sstable: bad magic"))
    else
      let indexOff := int64 (Uint64 footer) in
      let count := Uint32 (drop 8 footer) in
      let wantCRC := Uint32 (drop 12 footer) in
      let n := (size - 24 - indexOff)%Z in
      if (n <? 0)%Z || (maxAlloc <=? n)%Z then Panic
      else if (indexOff <? 0)%Z then Err EIO
      else
        let indexBytes := take (Z.to_nat n) (drop (Z.to_nat indexOff) f) in
        if negb (ChecksumIEEE indexBytes =? wantCRC)%N
        then Err (Errorf (str "sstable: index checksum mismatch"))
        else
          let* index := decode_index (S (length indexBytes)) count indexBytes in
          match index with
          | [] => Ok (mkTable path f index [] [])
          | first :: _ =>
              let lastOff := ie_offset (List.last index first) in
              match scanBlock keep_scanning f lastOff indexOff tt with
              | (_, _, Some e) => Err e
              | (_, last, None) => Ok (mkTable path f index (ie_key first) last)
              end
          end.

(** sort.Search: the binary search loop on [i, j). *)
Fixpoint search_loop (fuel : nat) (f : nat -> bool) (i j : nat) : nat :=
  match fuel with
  | O => i
  | S fuel =>
      if bool_decide (i < j) then
        let h := (i + j) / 2 in
        if f h then search_loop fuel f i h else search_loop fuel f (S h) j
      else i
  end.

Definition Search (n : nat) (f : nat -> bool) : nat := search_loop (S n) f 0 n.

(** The callback of get: stop at the key or past it. *)
Definition find_key (key : bytes) (found : option kvEntry) (e : kvEntry) : option kvEntry * bool :=
  if bytes_eqb (ke_key e) key then (Some e, true) else (found, bytes_ltb key (ke_key e)).

(** get: (value, tombstone) when found. *)
Definition sst_get (t : sstable) (key : bytes) : result (option (bytes * bool)) :=
  match t_index t with
  | [] => Ok None
  | _ =>
      if bytes_ltb key (t_minKey t) || bytes_ltb (t_maxKey t) key then Ok None
      else
        let above i := match t_index t !! i with Some ie => bytes_ltb key (ie_key ie) | None => false end in
        match Search (length (t_index t)) above with
        | O => Ok None
        | S i =>
            match t_index t !! i with
            | None => Panic
            | Some ie =>
                match scanBlock (find_key key) (t_file t) (ie_offset ie) (indexLimit t) None with
                | (_, _, Some e) => Err e
                | (Some e, _, None) => Ok (Some (ke_value e, ke_tombstone e))
                | (None, _, None) => Ok None
                end
            end
        end
  end.

Definition collect_entry (out : list kvEntry) (e : kvEntry) : list kvEntry * bool := (out ++ [e], false).

(** all: every entry of the table. *)
Definition sst_all (t : sstable) : result (list kvEntry) :=
  match scanBlock collect_entry (t_file t) 0 (indexLimit t) [] with
  | (_, _, Some e) => Err e
  | (out, _, None) => Ok out
  end.

(** ** Lemmas on the encodings *)

(** Lengths that fit the format's fields. *)
Definition fits_entry (e : kvEntry) : Prop :=
  (len (ke_key e) < two32)%N /\ (len (ke_value e) < two32)%N.

Record sst_fits (es : list kvEntry) : Prop := {
  sf_entries : Forall fits_entry es;
  sf_count : (len es < two32)%N;
  sf_size : (Z.of_nat (length (sst_bytes es)) < maxAlloc)%Z
}.

Definition data (es : list kvEntry) : bytes := concat (encode_entry <$> es).

#[global] Arguments encode_entry : simpl never.
#[global] Arguments encode_index_entry : simpl never.

Lemma int64_small n : (n < 9223372036854775808)%N -> int64 n = Z.of_N n.
Proof. unfold int64. by intros ->%N.ltb_lt. Qed.

Lemma uint64_small z : (0 <= z < 9223372036854775808)%Z -> uint64 z = Z.to_N z.
Proof. intros H. unfold uint64, two64. rewrite Z.mod_small; lia. Qed.

Lemma int64_uint64 z : (0 <= z < 9223372036854775808)%Z -> int64 (uint64 z) = z.
Proof. intros H. rewrite uint64_small by done. rewrite int64_small; lia. Qed.

Lemma uint64_lt z : (uint64 z < two64)%N.
Proof. unfold uint64, two64. pose proof (Z.mod_pos_bound z (Z.of_N 18446744073709551616)). lia. Qed.

Lemma length_encode_entry e :
  length (encode_entry e) = 9 + length (ke_key e) + length (ke_value e).
Proof.
  unfold encode_entry. cbn [length]. rewrite !length_app, !LittleEndian.length_PutUint32. lia.
Qed.

Lemma take_N_app {A} (l k : list A) : take (N.to_nat (len l)) (l ++ k) = l.
Proof. apply take_len_app. Qed.

Lemma len_ltb_app {A} (l k : list A) : (len (l ++ k) <? len l)%N = false.
Proof. apply N.ltb_ge. rewrite len_app. lia. Qed.

Lemma read_entry_encode e rest :
  fits_entry e -> read_entry (encode_entry e ++ rest) = ScanEntry e rest.
Proof.
  intros [Hk Hv]. destruct e as [k v t]. unfold encode_entry, read_entry.
  cbn [ke_key ke_value ke_tombstone app] in *. rewrite <-!(assoc_L (++)).
  replace (len _ <? 9)%N with false.
  2:{ symmetry. apply N.ltb_ge. unfold len. cbn [length].
      rewrite !length_app, !LittleEndian.length_PutUint32. lia. }
  rewrite (LittleEndian.Uint32_Put (len k)) by done.
  rewrite (drop_app_length' (PutUint32 _) _ 4) by by rewrite LittleEndian.length_PutUint32.
  rewrite (LittleEndian.Uint32_Put (len v)) by done.
  replace (drop 8 _) with (k ++ v ++ rest).
  2:{ rewrite (assoc_L (++) (PutUint32 _)). symmetry. apply drop_app_length'.
      by rewrite length_app, !LittleEndian.length_PutUint32. }
  rewrite len_ltb_app, drop_len_app, take_len_app, len_ltb_app, drop_len_app, take_len_app.
  by destruct t.
Qed.

Lemma read_entry_nil : read_entry [] = ScanEnd.
Proof. done. Qed.

(** Scanning whole records is a left fold that can stop early. *)
Fixpoint scan_ref {S} (fn : S -> kvEntry -> S * bool) (s : S) (last : bytes) (es : list kvEntry) : S * bytes :=
  match es with
  | [] => (s, last)
  | e :: es => let '(s, stop) := fn s e in if stop then (s, ke_key e) else scan_ref fn s (ke_key e) es
  end.

Lemma data_cons e es : data (e :: es) = encode_entry e ++ data es.
Proof. done. Qed.

Lemma data_app es fs : data (es ++ fs) = data es ++ data fs.
Proof. unfold data. by rewrite fmap_app, concat_app. Qed.

Lemma scan_loop_data {S} (fn : S -> kvEntry -> S * bool) es fuel s last :
  Forall fits_entry es -> length (data es) < fuel ->
  scan_loop fn fuel s last (data es) = (scan_ref fn s last es, None).
Proof.
  intros Hf. revert fuel s last. induction Hf as [|e es He Hes IH]; intros fuel s last Hl;
    (destruct fuel as [|fuel]; [lia|]).
  - done.
  - cbn [scan_loop scan_ref]. rewrite data_cons, read_entry_encode by done.
    destruct (fn s e) as [s' stop]. destruct stop; [done|]. apply IH.
    rewrite data_cons, length_app, length_encode_entry in Hl. lia.
Qed.

Lemma section_data es1 es2 rest :
  section (data (es1 ++ es2) ++ rest) (Z.of_nat (length (data es1))) (Z.of_nat (length (data (es1 ++ es2))))
  = data es2.
Proof.
  unfold section. rewrite data_app, !length_app.
  rewrite (proj2 (Z.ltb_ge _ 0)) by lia.
  destruct (Z.leb_spec (Z.of_nat (length (data es1) + length (data es2) + length rest)) (Z.of_nat (length (data es1)))) as [Hle|Hlt].
  - symmetry. apply nil_length_inv. lia.
  - rewrite Nat2Z.id, <-(assoc_L (++)), drop_app_length.
    replace (Z.to_nat _) with (length (data es2)) by lia.
    rewrite Nat.min_l by lia. apply take_app_length.
Qed.

Lemma scanBlock_data {S} (fn : S -> kvEntry -> S * bool) es1 es2 rest s :
  Forall fits_entry es2 ->
  scanBlock fn (data (es1 ++ es2) ++ rest) (Z.of_nat (length (data es1)))
    (Z.of_nat (length (data (es1 ++ es2)))) s = (scan_ref fn s [] es2, None).
Proof. intros Hf. unfold scanBlock. rewrite section_data. apply scan_loop_data; [done|lia]. Qed.

(** ** The index *)

(** An index entry names the place of an entry in the data block. *)
Definition index_of (es : list kvEntry) (off : Z) (ie : sstIndexEntry) : Prop :=
  exists es1 e es2, es = es1 ++ e :: es2 /\ ie = mkIndex (ke_key e) (off + Z.of_nat (length (data es1))).

Lemma write_loop_spec es i off d index fin :
  write_loop i off es = (d, index, fin) ->
  d = data es /\ fin = (off + Z.of_nat (length (data es)))%Z /\ length index <= length es /\
  Forall (index_of es off) index.
Proof.
  revert i off d index fin. induction es as [|e es IH]; intros i off d index fin; cbn [write_loop].
  - intros [= <- <- <-]. split_and!; [done|unfold data; simpl; lia|done|done].
  - destruct (write_loop _ _ es) as [[d1 index1] fin1] eqn:E. intros [= <- <- <-].
    apply IH in E as (-> & -> & Hl & Hi).
    rewrite data_cons, length_app, length_encode_entry. split_and!; [done|lia|..].
    + rewrite length_app. simpl. case_bool_decide; simpl; lia.
    + apply Forall_app. split.
      * case_bool_decide; constructor; [|constructor]. exists [], e, es. split; [done|].
        f_equal. unfold data; simpl. lia.
      * eapply Forall_impl; [exact Hi|]. intros ie (es1 & e' & es2 & -> & ->).
        exists (e :: es1), e', es2. split; [done|]. f_equal.
        rewrite data_cons, length_app, length_encode_entry. lia.
Qed.

Lemma write_loop_first e es : exists index,
  snd (fst (write_loop 0 0 (e :: es))) = mkIndex (ke_key e) 0 :: index.
Proof.
  cbn [write_loop]. destruct (write_loop _ _ es) as [[d1 index1] fin1]. simpl. by eexists.
Qed.

Lemma decode_index_encode index fuel :
  Forall (fun ie => (len (ie_key ie) < two32)%N /\ (0 <= ie_offset ie < 9223372036854775808)%Z) index ->
  length (concat (encode_index_entry <$> index)) < fuel ->
  decode_index fuel (len index) (concat (encode_index_entry <$> index)) = Ok index.
Proof.
  intros Hf. revert fuel. induction Hf as [|ie index [Hk Ho] Hf IH]; intros fuel Hl; (destruct fuel as [|fuel]; [lia|]).
  - done.
  - rewrite fmap_cons in *. cbn [concat] in *. rewrite length_app in Hl. cbn [decode_index].
    rewrite len_cons. replace (1 + len index =? 0)%N with false by (symmetry; apply N.eqb_neq; lia).
    replace (1 + len index - 1)%N with (len index) by lia.
    unfold encode_index_entry in *. destruct ie as [k o]; cbn [ie_key ie_offset] in *.
    rewrite <-!(assoc_L (++)). rewrite !length_app, LittleEndian.length_PutUint32, LittleEndian.length_PutUint64 in Hl.
    replace (len _ <? 4)%N with false.
    2:{ symmetry. apply N.ltb_ge. rewrite len_app. unfold len at 1. rewrite LittleEndian.length_PutUint32. lia. }
    rewrite LittleEndian.Uint32_Put by done.
    rewrite (drop_app_length' (PutUint32 _) _ 4) by by rewrite LittleEndian.length_PutUint32.
    rewrite len_ltb_app, drop_len_app, take_len_app.
    replace (len _ <? 8)%N with false.
    2:{ symmetry. apply N.ltb_ge. rewrite len_app. unfold len at 1. rewrite LittleEndian.length_PutUint64. lia. }
    rewrite LittleEndian.Uint64_Put by apply uint64_lt.
    rewrite (drop_app_length' (PutUint64 _) _ 8) by by rewrite LittleEndian.length_PutUint64.
    rewrite IH by lia. simpl. by rewrite int64_uint64.
Qed.

(** ** Binary search *)

Lemma search_loop_spec f n fuel i j :
  i <= j <= n -> j - i < fuel ->
  (0 < i -> f (i - 1) = false) -> (j < n -> f j = true) ->
  let r := search_loop fuel f i j in
  r <= n /\ (0 < r -> f (r - 1) = false) /\ (r < n -> f r = true).
Proof.
  revert i j. induction fuel as [|fuel IH]; intros i j Hij Hf Hi Hj; [lia|]. cbn [search_loop].
  case_bool_decide as Hlt.
  - pose proof (Nat.div_mod_eq (i + j) 2). pose proof (Nat.mod_upper_bound (i + j) 2 ltac:(lia)).
    set (h := (i + j) / 2) in *.
    destruct (f h) eqn:Eh.
    + apply IH; [lia|lia|done|done].
    + apply IH; [lia|lia| |done]. intros _. replace (S h - 1) with h by lia. done.
  - simpl. replace j with i in * by lia. split_and!; [lia|done|done].
Qed.

(** sort.Search lands just after a false and on a true. *)
Lemma Search_spec n f :
  Search n f <= n /\ (0 < Search n f -> f (Search n f - 1) = false) /\ (Search n f < n -> f (Search n f) = true).
Proof. apply (search_loop_spec f n (S n) 0 n); intros; lia. Qed.

(** ** Correctness of the table *)

(** The file writeSSTable produces, split where the reader splits it. *)
Lemma sst_bytes_split es : exists index,
  Forall (index_of es 0) index /\ length index <= length es /\
  (forall e es', es = e :: es' -> exists rest, index = mkIndex (ke_key e) 0 :: rest) /\
  sst_bytes es = data es ++ concat (encode_index_entry <$> index) ++
    (PutUint64 (uint64 (Z.of_nat (length (data es)))) ++ PutUint32 (len index) ++
     PutUint32 (ChecksumIEEE (concat (encode_index_entry <$> index))) ++ PutUint64 sstMagic).
Proof.
  unfold sst_bytes. destruct (write_loop 0 0 es) as [[d index] fin] eqn:E.
  pose proof E as (-> & -> & Hl & Hi)%write_loop_spec. exists index. split_and!; [done..| |done].
  intros e es' ->. destruct (write_loop_first e es') as [rest Hr]. rewrite E in Hr. by exists rest.
Qed.

Lemma last_split {A} (x : A) l : exists l' y, x :: l = l' ++ [y] /\ List.last (x :: l) x = y.
Proof.
  destruct (exists_last (l := x :: l)) as (l' & y & E); [done|].
  exists l', y. split; [done|]. by rewrite E, List.last_last.
Qed.

(** The last key a scan to the end of the block sees. *)
Lemma scan_ref_last last es e :
  snd (scan_ref keep_scanning tt last (es ++ [e])) = ke_key e.
Proof. revert last. induction es as [|f es IH]; intros last; simpl; [done|]. apply IH. Qed.

(** ** The opened table *)

(** What openSSTable returns on the bytes of [es]. *)
Record table_of (t : sstable) (es : list kvEntry) : Prop := {
  to_file : exists rest, t_file t = data es ++ rest;
  to_limit : indexLimit t = Z.of_nat (length (data es));
  to_index : Forall (index_of es 0) (t_index t);
  to_first e es' : es = e :: es' -> exists rest, t_index t = mkIndex (ke_key e) 0 :: rest;
  to_nil : es = [] -> t_index t = [];
  to_min e es' : es = e :: es' -> t_minKey t = ke_key e;
  to_max es' e : es = es' ++ [e] -> t_maxKey t = ke_key e
}.

Lemma footer_of_app (b f : bytes) : length f = 24 -> footer_of (b ++ f) = f.
Proof. intros H. unfold footer_of. rewrite length_app, H, Nat.add_sub. apply drop_app_length. Qed.

Lemma footer_fields a c k m :
  (a < two64)%N -> (c < two32)%N -> (k < two32)%N -> (m < two64)%N ->
  let F := PutUint64 a ++ PutUint32 c ++ PutUint32 k ++ PutUint64 m in
  length F = 24 /\ Uint64 F = a /\ Uint32 (drop 8 F) = c /\ Uint32 (drop 12 F) = k /\ Uint64 (drop 16 F) = m.
Proof.
  intros Ha Hc Hk Hm F.
  assert (drop 8 F = PutUint32 c ++ PutUint32 k ++ PutUint64 m) as H8.
  { apply drop_app_length'. by rewrite LittleEndian.length_PutUint64. }
  assert (drop 12 F = PutUint32 k ++ PutUint64 m) as H12.
  { change 12 with (8 + 4). rewrite <-drop_drop, H8. apply drop_app_length'.
    by rewrite LittleEndian.length_PutUint32. }
  assert (drop 16 F = PutUint64 m ++ []) as H16.
  { change 16 with (12 + 4). rewrite <-drop_drop, H12, app_nil_r. apply drop_app_length'.
    by rewrite LittleEndian.length_PutUint32. }
  rewrite H8, H12, H16. split_and!.
  - unfold F. by rewrite !length_app, !LittleEndian.length_PutUint64, !LittleEndian.length_PutUint32.
  - by apply LittleEndian.Uint64_Put.
  - by apply LittleEndian.Uint32_Put.
  - by apply LittleEndian.Uint32_Put.
  - by apply LittleEndian.Uint64_Put.
Qed.

Lemma index_of_ok es ie :
  Forall fits_entry es -> (Z.of_nat (length (data es)) < maxAlloc)%Z -> index_of es 0 ie ->
  (len (ie_key ie) < two32)%N /\ (0 <= ie_offset ie < 9223372036854775808)%Z.
Proof.
  intros Hf Hs (es1 & e & es2 & -> & ->). simpl. apply Forall_app in Hf as [_ [[Hk _] _]%Forall_cons].
  split; [done|]. rewrite data_app, length_app in Hs. unfold maxAlloc in Hs. lia.
Qed.

(** The key a scan from the last index entry ends on. *)
Lemma scan_from_index es rest ie es' e :
  Forall fits_entry es -> index_of es 0 ie -> es = es' ++ [e] ->
  exists u, scanBlock keep_scanning (data es ++ rest) (ie_offset ie) (Z.of_nat (length (data es))) tt
            = (u, ke_key e, None).
Proof.
  intros Hf (es1 & e1 & es2 & Hsp & ->) Hlast. simpl.
  destruct (exists_last (l := e1 :: es2)) as (l & y & El); [done|].
  assert (y = e) as ->.
  { rewrite Hsp, El, (assoc_L (++)) in Hlast. by apply app_inj_tail in Hlast as [_ ->]. }
  rewrite Hsp in *. rewrite scanBlock_data by by apply Forall_app in Hf as [_ Hf].
  rewrite El. pose proof (scan_ref_last [] l e) as Hl.
  destruct (scan_ref _ _ _ _) as [u last]. simpl in Hl. subst last. by exists u.
Qed.

(** Up to the parsed index, opening succeeds on the bytes of any table. *)
Lemma openSSTable_index path es :
  sst_fits es -> exists index rest,
    Forall (index_of es 0) index /\ length index <= length es /\
    (forall e es', es = e :: es' -> exists rest, index = mkIndex (ke_key e) 0 :: rest) /\
    sst_bytes es = data es ++ rest /\
    int64 (Uint64 (footer_of (sst_bytes es))) = Z.of_nat (length (data es)) /\
    openSSTable path (sst_bytes es) =
      match index with
      | [] => Ok (mkTable path (sst_bytes es) index [] [])
      | first :: _ =>
          match scanBlock keep_scanning (sst_bytes es) (ie_offset (List.last index first))
                  (Z.of_nat (length (data es))) tt with
          | (_, _, Some e) => Err e
          | (_, last, None) => Ok (mkTable path (sst_bytes es) index (ie_key first) last)
          end
      end.
Proof.
  intros [Hf Hc Hs]. destruct (sst_bytes_split es) as (index & Hi & Hl & Hfirst & Hb).
  set (I := concat (encode_index_entry <$> index)) in *.
  destruct (footer_fields (uint64 (Z.of_nat (length (data es)))) (len index) (ChecksumIEEE I) sstMagic)
    as (HF & Foff & Fcnt & Fcrc & Fmag);
    [apply uint64_lt|unfold len in *; lia|apply Crc32.ChecksumIEEE_lt|done|].
  set (F := PutUint64 (uint64 (Z.of_nat (length (data es)))) ++ PutUint32 (len index) ++
            PutUint32 (ChecksumIEEE I) ++ PutUint64 sstMagic) in *.
  assert (Hlen : length (sst_bytes es) = length (data es) + length I + 24).
  { rewrite Hb, !length_app, HF. lia. }
  assert (Hfoot : footer_of (sst_bytes es) = F).
  { rewrite Hb, (assoc_L (++)). by apply footer_of_app. }
  assert (Hoff : int64 (Uint64 F) = Z.of_nat (length (data es))).
  { rewrite Foff. apply int64_uint64. unfold maxAlloc in Hs. lia. }
  exists index, (I ++ F). split_and!; [done..|by rewrite Hfoot|].
  unfold openSSTable. rewrite Hfoot, Fmag, Fcnt, Fcrc, Hoff, N.eqb_refl.
  replace (Z.of_nat (length (sst_bytes es)) - 24 - Z.of_nat (length (data es)))%Z
    with (Z.of_nat (length I)) by lia.
  rewrite (proj2 (Z.ltb_ge _ 24)), (proj2 (Z.ltb_ge (Z.of_nat (length I)) 0)),
    (proj2 (Z.leb_gt maxAlloc (Z.of_nat (length I)))),
    (proj2 (Z.ltb_ge (Z.of_nat (length (data es))) 0)) by lia.
  assert (HI : take (Z.to_nat (Z.of_nat (length I))) (drop (Z.to_nat (Z.of_nat (length (data es)))) (sst_bytes es)) = I).
  { rewrite Hb, !Nat2Z.id, drop_app_length. apply take_app_length. }
  rewrite HI, N.eqb_refl. cbn [negb orb]. rewrite decode_index_encode; [done|..].
  - eapply Forall_impl; [exact Hi|]. intros ie. apply index_of_ok; [done|lia].
  - fold I. lia.
Qed.

Lemma openSSTable_ok path es :
  sst_fits es -> exists t, openSSTable path (sst_bytes es) = Ok t /\ table_of t es /\ t_path t = path.
Proof.
  intros Hfit. destruct (openSSTable_index path es Hfit) as (index & rest & Hi & Hl & Hfirst & Hb & Hlim & ->).
  destruct index as [|first idx].
  - destruct es as [|e es]; [|by destruct (Hfirst e es eq_refl)].
    eexists. split; [done|]. split; [|done].
    split; cbn [t_file t_index t_minKey t_maxKey]; [by eexists|done..|].
    intros es' e He. by destruct es'.
  - destruct es as [|e0 es0]; [simpl in Hl; lia|].
    destruct (Hfirst e0 es0 eq_refl) as [idx' [= -> ->]].
    destruct (exists_last (l := e0 :: es0)) as (es' & e & Hes); [done|].
    destruct (last_split (mkIndex (ke_key e0) 0) idx') as (l' & y & Hy & ->).
    assert (index_of (e0 :: es0) 0 y) as Hiy.
    { rewrite Hy in Hi. by apply Forall_app in Hi as [_ [? _]%Forall_cons]. }
    destruct (scan_from_index (e0 :: es0) rest y es' e (sf_entries _ Hfit) Hiy Hes) as [u Hu].
    rewrite <-Hb in Hu. rewrite Hu. eexists. split; [done|]. split; [|done].
    split; cbn [t_file t_index t_minKey t_maxKey ie_key]; [by eexists|done..| |done| |].
    + intros e1 es1 [= <- <-]. by eexists.
    + by intros e1 es1 [= <- <-].
    + intros es1 e1 He1. rewrite Hes in He1. by apply app_inj_tail in He1 as [_ ->].
Qed.

(** ** Lookup and scan of an opened table *)

Lemma scan_collect es acc last : fst (scan_ref collect_entry acc last es) = acc ++ es.
Proof.
  revert acc last. induction es as [|e es IH]; intros acc last; simpl; [by rewrite app_nil_r|].
  by rewrite IH, <-(assoc_L (++)).
Qed.

Lemma sst_all_ok t es : Forall fits_entry es -> table_of t es -> sst_all t = Ok es.
Proof.
  intros Hf Ht. unfold sst_all. rewrite (to_limit _ _ Ht). destruct (to_file _ _ Ht) as [rest ->].
  pose proof (scanBlock_data collect_entry [] es rest [] Hf) as Hs. simpl app in Hs.
  change (Z.of_nat (length (data []))) with 0%Z in Hs. rewrite Hs.
  pose proof (scan_collect es [] []) as Hc. destruct (scan_ref _ _ _ _) as [out last]. simpl in Hc. by subst.
Qed.

(** The lookup callback finds the key, or stops behind its place. *)
Lemma scan_find k es last :
  sorted_entries es -> fst (scan_ref (find_key k) None last es) = lookup_entry k es.
Proof.
  revert last. induction es as [|e es IH]; intros last Hs; [done|]. cbn [scan_ref lookup_entry].
  unfold find_key at 1. destruct (bytes_eqb_spec (ke_key e) k) as [|Hne]; [done|].
  unfold sorted_entries, keys in Hs. rewrite fmap_cons in Hs.
  apply StronglySorted_inv in Hs as [Hs Hall].
  destruct (bytes_ltb_spec k (ke_key e)) as [Hlt|Hge]; [|by apply IH].
  simpl. symmetry. apply lookup_entry_None. rewrite Forall_fmap in Hall.
  eapply Forall_impl; [exact Hall|]. simpl. intros f Hf <-. by apply (bytes_lt_asym (ke_key e) (ke_key f)).
Qed.

Lemma sorted_before es1 e es2 f :
  sorted_entries (es1 ++ e :: es2) -> f ∈ es1 -> bytes_lt (ke_key f) (ke_key e).
Proof.
  unfold sorted_entries, keys. rewrite fmap_app, fmap_cons. intros Hs Hf.
  eapply StronglySorted_app_1_elem_of; [exact Hs|by apply list_elem_of_fmap_2|set_solver].
Qed.

(** A lookup that starts at an entry not above the key misses nothing. *)
Lemma lookup_entry_skip k es1 e es2 :
  sorted_entries (es1 ++ e :: es2) -> ~ bytes_lt k (ke_key e) ->
  lookup_entry k (es1 ++ e :: es2) = lookup_entry k (e :: es2).
Proof.
  intros Hs Hk. rewrite lookup_entry_app, lookup_entry_None; [done|].
  apply Forall_forall. intros f Hf <-. by apply Hk, (sorted_before es1 e es2).
Qed.

Lemma lookup_entry_above k es e :
  sorted_entries (es ++ [e]) -> bytes_lt (ke_key e) k -> lookup_entry k (es ++ [e]) = None.
Proof.
  intros Hs Hk. apply lookup_entry_None, Forall_app. split.
  - apply Forall_forall. intros f Hf <-. eapply bytes_lt_asym; [exact Hk|]. by apply (sorted_before es e []).
  - constructor; [|done]. intros <-. by apply (bytes_lt_irrefl (ke_key e)).
Qed.

Lemma sst_get_ok t es k :
  Forall fits_entry es -> sorted_entries es -> table_of t es ->
  sst_get t k = Ok ((fun e => (ke_value e, ke_tombstone e)) <$> lookup_entry k es).
Proof.
  intros Hf Hs Ht. unfold sst_get. destruct es as [|e0 es0].
  { by rewrite (to_nil _ _ Ht). }
  destruct (to_first _ _ Ht e0 es0 eq_refl) as [idx Hidx]. rewrite Hidx.
  rewrite (to_min _ _ Ht e0 es0 eq_refl).
  destruct (exists_last (l := e0 :: es0)) as (es' & e & Hes); [done|].
  rewrite (to_max _ _ Ht es' e Hes).
  destruct (bytes_ltb_spec k (ke_key e0)) as [Hlt|Hge]; simpl orb.
  { rewrite lookup_entry_head by (try done; by apply bytes_lt_asym).
    destruct (bytes_eqb_spec (ke_key e0) k) as [<-|]; [by apply bytes_lt_irrefl in Hlt|done]. }
  destruct (bytes_ltb_spec (ke_key e) k) as [Hgt|Hle].
  { rewrite Hes in *. by rewrite lookup_entry_above. }
  rewrite <-Hidx.
  set (above := fun i => match t_index t !! i with Some ie => bytes_ltb k (ie_key ie) | None => false end).
  destruct (Search_spec (length (t_index t)) above) as (Hn & Hbelow & Habove).
  destruct (Search (length (t_index t)) above) as [|i].
  { assert (above 0 = true) as H0 by (apply Habove; rewrite Hidx; simpl; lia).
    unfold above in H0. rewrite Hidx in H0. simpl in H0. by apply bytes_ltb_lt in H0. }
  destruct (lookup_lt_is_Some_2 (t_index t) i) as [ie Hie]; [lia|]. rewrite Hie.
  assert (~ bytes_lt k (ie_key ie)) as Hki.
  { specialize (Hbelow ltac:(lia)). unfold above in Hbelow. simpl in Hbelow.
    rewrite Nat.sub_0_r, Hie in Hbelow. intros H%bytes_ltb_lt. congruence. }
  pose proof (Forall_lookup_1 _ _ _ _ (to_index _ _ Ht) Hie) as (es1 & e1 & es2 & Hsp & ->). cbn [ie_key ie_offset] in *.
  rewrite (to_limit _ _ Ht). destruct (to_file _ _ Ht) as [rest ->]. rewrite Hsp in *. rewrite Z.add_0_l.
  rewrite scanBlock_data by by apply Forall_app in Hf as [_ Hf].
  rewrite lookup_entry_skip by done.
  assert (sorted_entries (e1 :: es2)) as Hs2 by by apply sorted_entries_app in Hs as [_ Hs].
  rewrite <-(scan_find k (e1 :: es2) [] Hs2).
  by destruct (scan_ref (find_key k) None [] (e1 :: es2)) as [[?|] ?].
Qed.

(** ** Properties *)

(** C22. A table written from sorted entries within the format's limits is read
    back: openSSTable accepts the file (magic, index checksum, last block), all
    returns the entries in order, and get, through the sparse index, the binary
    search and the early stop, finds exactly the entry of the key (with its
    tombstone flag) or nothing. *)
Theorem sstable_roundtrip path es :
  sst_fits es -> sorted_entries es ->
  exists f t, writeSSTable Done Done es = (None, Some f) /\ openSSTable path f = Ok t /\
    t_path t = path /\ sst_all t = Ok es /\
    (forall k, sst_get t k = Ok ((fun e => (ke_value e, ke_tombstone e)) <$> lookup_entry k es)).
Proof.
  intros Hf Hs. destruct (openSSTable_ok path es Hf) as (t & Ho & Ht & Hp).
  pose proof (sf_entries _ Hf) as He. exists (sst_bytes es), t. split_and!; [done..| |].
  - by apply sst_all_ok.
  - intros k. by apply sst_get_ok.
Qed.

(** Twenty entries: two index entries, one tombstone. *)
Definition sample_entries : list kvEntry :=
  (fun n => mkEntry [LittleEndian.byte_of (N.of_nat (n + 65))] (str "value") (bool_decide (n = 3))) <$> seq 0 20.

Lemma sstable_roundtrip_witness :
  exists f t, writeSSTable Done Done sample_entries = (None, Some f) /\ openSSTable (str "t.sst") f = Ok t /\
    t_path t = str "t.sst" /\ sst_all t = Ok sample_entries /\
    (forall k, sst_get t k = Ok ((fun e => (ke_value e, ke_tombstone e)) <$> lookup_entry k sample_entries)).
Proof.
  apply (sstable_roundtrip (str "t.sst") sample_entries).
  - split.
    + unfold sample_entries. repeat constructor; vm_compute; reflexivity.
    + vm_compute; reflexivity.
    + vm_compute; reflexivity.
  - unfold sorted_entries. repeat constructor; vm_compute; reflexivity.
Defined.
