(* ===== verification/Engine.v ===== *)
(** storage/engine.go: the LSM engine over the write-ahead log, the memtable and
    the sorted tables. Every call to the file system takes its outcome from a
    script, so the error paths of the source are paths of the model. *)

From S2P Require Import Prelude Bytes GoIO Wal Memtable SSTable.

(** ** File names *)

Definition digit (n : N) : byte := LittleEndian.byte_of (48 + n mod 10).

Fixpoint decimal_loop (fuel : nat) (n : N) (acc : bytes) : bytes :=
  match fuel with
  | O => acc
  | S fuel =>
      let acc := digit n :: acc in
      if (n <? 10)%N then acc else decimal_loop fuel (n / 10) acc
  end.

(** Decimal digits of a uint64 (at most 20 of them). *)
Definition decimal (n : N) : bytes := decimal_loop 20 n [].

(** fmt.Sprintf("%012d.sst", n) *)
Definition sst_name (n : N) : bytes :=
  let d := decimal n in replicate (12 - length d) x30 ++ d ++ str ".sst".

Definition has_suffix (suffix b : bytes) : bool :=
  bool_decide (length suffix <= length b) && bytes_eqb (drop (length b - length suffix) b) suffix.

(** strings.TrimSuffix *)
Definition TrimSuffix (b suffix : bytes) : bytes :=
  if has_suffix suffix b then take (length b - length suffix) b else b.

Definition digit_value (b : byte) : option N :=
  let n := Byte.to_N b in if (48 <=? n)%N && (n <=? 57)%N then Some (n - 48)%N else None.

Fixpoint digits_value (acc : N) (b : bytes) : option N :=
  match b with
  | [] => Some acc
  | c :: b => d ← digit_value c; digits_value (acc * 10 + d)%N b
  end.

(** strconv.ParseUint(s, 10, 64), its error dropped: 0 for bad syntax, the
    largest uint64 when out of range. *)
Definition ParseUint (b : bytes) : N :=
  match b with
  | [] => 0
  | _ => match digits_value 0 b with
         | None => 0
         | Some n => if (n <? two64)%N then n else (two64 - 1)%N
         end
  end.

(** sstSeq of a file name in the engine's directory. *)
Definition sstSeq (name : bytes) : N := ParseUint (TrimSuffix name (str ".sst")).

(** ** Log records *)

Definition encodeWALRecord (key val : bytes) (tomb : bool) : bytes :=
  flag_byte tomb :: PutUint32 (len key) ++ key ++ val.

Definition decodeWALRecord (p : bytes) : result (bytes * bytes * bool) :=
  match p with
  | flags :: r =>
      if (len p <? 5)%N then Err (Errorf (str "short wal record"))
      else
        let klen := Uint32 r in
        let r := drop 4 r in
        if (len r <? klen)%N then Err (Errorf (str "bad wal record"))
        else Ok (take (N.to_nat klen) r, drop (N.to_nat klen) r, N.odd (Byte.to_N flags))
  | [] => Err (Errorf (str "short wal record"))
  end.

(** ** The engine *)

Module Engine.
Import Memtable.

Record EngineOptions := mkOptions {
  FlushSize : Z;
  SyncWAL : bool
}.

Definition DefaultEngineOptions : EngineOptions := mkOptions (4 * 2 ^ 20) true.

Definition maxTablesBeforeCompact : nat := 6.

(** type Engine struct, with the directory it owns ([e_dir]: the files other
    than engine.wal, by name) and the outcomes of the coming calls on the
    directory. A nil e.wal is [None]. *)
Record Engine := mkEngine {
  e_dir : gmap bytes bytes;
  e_script : list outcome;
  e_wal : option WAL;
  e_mem : memtable;
  e_tables : list sstable;
  e_nextSST : N;
  e_flushSize : Z;
  e_syncWAL : bool
}.

(** The outcome of the next call on the directory. *)
Definition dir_call (e : Engine) : outcome * Engine :=
  match e_script e with
  | [] => (Done, e)
  | o :: s => (o, mkEngine (e_dir e) s (e_wal e) (e_mem e) (e_tables e) (e_nextSST e) (e_flushSize e) (e_syncWAL e))
  end.

Definition set_dir (e : Engine) (d : gmap bytes bytes) : Engine :=
  mkEngine d (e_script e) (e_wal e) (e_mem e) (e_tables e) (e_nextSST e) (e_flushSize e) (e_syncWAL e).
Definition set_wal (e : Engine) (w : option WAL) : Engine :=
  mkEngine (e_dir e) (e_script e) w (e_mem e) (e_tables e) (e_nextSST e) (e_flushSize e) (e_syncWAL e).
Definition set_mem (e : Engine) (m : memtable) : Engine :=
  mkEngine (e_dir e) (e_script e) (e_wal e) m (e_tables e) (e_nextSST e) (e_flushSize e) (e_syncWAL e).
Definition set_tables (e : Engine) (ts : list sstable) (next : N) : Engine :=
  mkEngine (e_dir e) (e_script e) (e_wal e) (e_mem e) ts next (e_flushSize e) (e_syncWAL e).

(** How an operation ends: an error value and the engine; [None] is a panic. *)
Abbreviation outcome_of A := (option (option error * A)).

(** os.Remove of a table's file, its error ignored. *)
Definition remove_table (e : Engine) (t : sstable) : Engine :=
  match dir_call e with
  | (Done, e) => set_dir e (delete (t_path t) (e_dir e))
  | (FailAfter _, e) => e
  end.

(** writeSSTable to the next table's path and openSSTable of it. *)
Definition write_and_open (e : Engine) (entries : list kvEntry) : option (sum error sstable * Engine) :=
  let path := sst_name (e_nextSST e) in
  let '(o1, e) := dir_call e in
  let '(o2, e) := dir_call e in
  let '(err, f) := writeSSTable o1 o2 entries in
  let e := match f with Some f => set_dir e (<[path := f]> (e_dir e)) | None => e end in
  match err, f with
  | Some er, _ => Some (inl er, e)
  | None, None => Some (inl EIO, e)
  | None, Some f =>
      match dir_call e with
      | (FailAfter _, e) => Some (inl EIO, e)
      | (Done, e) =>
          match openSSTable path f with
          | Panic => None
          | Err er => Some (inl er, e)
          | Ok t => Some (inr t, e)
          end
      end
  end.

(** merged[en.key] = en over the tables, oldest first. *)
Definition merge_entries (merged : gmap bytes kvEntry) (entries : list kvEntry) : gmap bytes kvEntry :=
  foldl (fun m en => <[ke_key en := en]> m) merged entries.

Fixpoint merge_tables (tables : list sstable) : result (gmap bytes kvEntry) :=
  match tables with
  | [] => Ok ∅
  | t :: older =>
      let* merged := merge_tables older in
      let* entries := sst_all t in
      Ok (merge_entries merged entries)
  end.

Definition bytes_le (a b : bytes) : Prop := ~ bytes_lt b a.

#[global] Instance bytes_le_dec : RelDecision bytes_le.
Proof. intros a b. unfold bytes_le. apply _. Defined.

(** The live entries of a map, sorted by key (sort.Strings). *)
Definition live_sorted (merged : gmap bytes kvEntry) : list kvEntry :=
  let live := filter (fun en => ke_tombstone en = false) (snd <$> map_to_list merged) in
  omap (fun k => merged !! k) (merge_sort bytes_le (ke_key <$> live)).

Definition compactLocked (e : Engine) : outcome_of Engine :=
  match merge_tables (e_tables e) with
  | Panic => None
  | Err er => Some (Some er, e)
  | Ok merged =>
      '(r, e) ← write_and_open e (live_sorted merged);
      match r with
      | inl er => Some (Some er, e)
      | inr t =>
          let old := e_tables e in
          let e := set_tables e [t] (e_nextSST e +64 1) in
          Some (None, foldl remove_table e old)
      end
  end.

Definition flushLocked (e : Engine) : outcome_of Engine :=
  entries ← Memtable.entries (e_mem e);
  match entries with
  | [] => Some (None, e)
  | _ =>
      '(r, e) ← write_and_open e entries;
      match r with
      | inl er => Some (Some er, e)
      | inr t =>
          let e := set_tables e (t :: e_tables e) (e_nextSST e +64 1) in
          w ← e_wal e;
          let '(err, w) := Close w in
          let e := set_wal e (Some w) in
          match err with
          | Some er => Some (Some er, e)
          | None =>
              match dir_call e with
              | (FailAfter _, e) => Some (Some EIO, e)
              | (Done, e) =>
                  match OpenWAL (mkFile [] [] (f_script (wal_file w)) false) with
                  | (Ok w, _) =>
                      let e := set_mem (set_wal e (Some w)) newMemtable in
                      if bool_decide (maxTablesBeforeCompact < length (e_tables e))
                      then compactLocked e else Some (None, e)
                  | (Err er, _) => Some (Some er, set_wal e None)
                  | (Panic, _) => None
                  end
              end
          end
      end
  end.

Definition Flush (e : Engine) : outcome_of Engine := flushLocked e.

(** write; [rs] feeds the memtable's random heights. *)
Definition write (e : Engine) (key value : bytes) (tomb : bool) (rs : list N) : outcome_of Engine :=
  w ← e_wal e;
  let '(err, w) := Append w (encodeWALRecord key value tomb) in
  let e := set_wal e (Some w) in
  match err with
  | Some er => Some (Some er, e)
  | None =>
      let '(err, w) := if e_syncWAL e then Sync w else (None, w) in
      let e := set_wal e (Some w) in
      match err with
      | Some er => Some (Some er, e)
      | None =>
          m ← Memtable.put (e_mem e) key value tomb rs;
          let e := set_mem e m in
          if (e_flushSize e <=? approxSize m)%Z then flushLocked e else Some (None, e)
      end
  end.

Definition Put (e : Engine) (key value : bytes) (rs : list N) : outcome_of Engine :=
  write e key value false rs.

Definition Delete (e : Engine) (key : bytes) (rs : list N) : outcome_of Engine :=
  write e key [] true rs.

(** The loop of Get over the tables, newest first. *)
Fixpoint get_tables (tables : list sstable) (key : bytes) : result (option bytes) :=
  match tables with
  | [] => Ok None
  | t :: ts =>
      let* r := sst_get t key in
      match r with
      | Some (v, tomb) => Ok (if tomb then None else Some v)
      | None => get_tables ts key
      end
  end.

(** Get: the value when found. *)
Definition Get (e : Engine) (key : bytes) : result (option bytes) :=
  match Memtable.get (e_mem e) key with
  | None => Panic
  | Some (Some (v, tomb)) => Ok (if tomb then None else Some v)
  | Some None => get_tables (e_tables e) key
  end.

(** out[k] = en.value for the live entries. *)
Definition live (m : gmap bytes kvEntry) : gmap bytes bytes :=
  omap (fun en => if ke_tombstone en then None else Some (ke_value en)) m.

Definition SnapshotEntries (e : Engine) : result (gmap bytes bytes) :=
  let* merged := merge_tables (e_tables e) in
  match Memtable.entries (e_mem e) with
  | None => Panic
  | Some es => Ok (live (merge_entries merged es))
  end.

(** The loop of Reset over the entries, in the order the range yields them; each
    comes with its random heights. *)
Fixpoint reset_loop (w : WAL) (m : memtable) (entries : list (bytes * bytes * list N)) : outcome_of (WAL * memtable) :=
  match entries with
  | [] => Some (None, (w, m))
  | (k, v, rs) :: es =>
      match Append w (encodeWALRecord k v false) with
      | (Some er, w) => Some (Some er, (w, m))
      | (None, w) => m ← Memtable.put m k v false rs; reset_loop w m es
      end
  end.

(** Reset; [absent]: whether a failing os.Remove of engine.wal is IsNotExist. *)
Definition Reset (e : Engine) (entries : list (bytes * bytes * list N)) (absent : bool) : outcome_of Engine :=
  let e := foldl remove_table e (e_tables e) in
  let e := set_mem (set_tables e [] (e_nextSST e)) newMemtable in
  w ← e_wal e;
  let '(err, w) := Close w in
  let e := set_wal e (Some w) in
  match err with
  | Some er => Some (Some er, e)
  | None =>
      let '(o, e) := dir_call e in
      if match o with Done => true | FailAfter _ => absent end then
        match OpenWAL (mkFile [] [] (f_script (wal_file w)) false) with
        | (Ok w, _) =>
            '(err, (w, m)) ← reset_loop w (e_mem e) entries;
            let e := set_mem (set_wal e (Some w)) m in
            match err with
            | Some er => Some (Some er, e)
            | None => let '(err, w) := Sync w in Some (err, set_wal e (Some w))
            end
        | (Err er, _) => Some (Some er, set_wal e None)
        | (Panic, _) => None
        end
      else Some (Some EIO, e)
  end.

(** Close: the log's error (the tables' Close errors are dropped). *)
Definition CloseEngine (e : Engine) : outcome_of Engine :=
  w ← e_wal e;
  let '(err, w) := Close w in
  Some (err, set_wal e (Some w)).

(** ** Opening *)

(** Names of the .sst files, highest sequence number first. *)
Definition seq_ge (a b : bytes) : Prop := (sstSeq b <= sstSeq a)%N.

#[global] Instance seq_ge_dec : RelDecision seq_ge.
Proof. intros a b. unfold seq_ge. apply _. Defined.

Definition sst_names (dir : gmap bytes bytes) : list bytes :=
  merge_sort seq_ge (filter (fun n => has_suffix (str ".sst") n = true) (fst <$> map_to_list dir)).

Fixpoint open_tables (dir : gmap bytes bytes) (names : list bytes) (next : N) : result (list sstable * N) :=
  match names with
  | [] => Ok ([], next)
  | n :: ns =>
      let* t := openSSTable n (default [] (dir !! n)) in
      let next := if (next <=? sstSeq n)%N then sstSeq n +64 1 else next in
      let* (ts, next) := open_tables dir ns next in
      Ok (t :: ts, next)
  end.

(** The replay closure: decode and put; [rnd] gives the heights. *)
Definition replay_put (rnd : bytes -> list N) (m : memtable) (p : bytes) : result memtable :=
  let* (key, val, tomb) := decodeWALRecord p in
  match Memtable.put m key val tomb (rnd p) with
  | None => Panic
  | Some m => Ok m
  end.

(** OpenEngine on a directory: its files, what os.Open finds at engine.wal, and
    the file the log is then opened on. *)
Definition OpenEngine (dir : gmap bytes bytes) (wal : option file) (opts : EngineOptions)
    (rnd : bytes -> list N) : result Engine :=
  let flushSize := if (FlushSize opts =? 0)%Z then (4 * 2 ^ 20)%Z else FlushSize opts in
  let* (tables, next) := open_tables dir (sst_names dir) 0 in
  let path := match wal with None => NotExist | Some f => Opened (contents f) end in
  let* mem := ReplayWAL (replay_put rnd) path newMemtable in
  match OpenWAL (default empty_file wal) with
  | (Ok w, _) => Ok (mkEngine dir [] (Some w) mem tables next flushSize (SyncWAL opts))
  | (Err er, _) => Err er
  | (Panic, _) => Panic
  end.

End Engine.
