(* ===== verification/Layers.v ===== *)
(** Layers of sorted entries and the map they denote: the abstract state of the
    storage engine, with the merging and compaction facts its proofs share. *)

From S2P Require Import Prelude Bytes GoIO Memtable SSTable Engine.

(** ** Denotation *)

(** The map of one layer: the first entry of a key counts. *)
Definition to_map (es : list kvEntry) : gmap bytes kvEntry :=
  list_to_map ((fun e => (ke_key e, e)) <$> es).

(** The map of a stack of layers, newest first. *)
Definition kvmap (ls : list (list kvEntry)) : gmap bytes kvEntry :=
  foldr (fun es m => to_map es ∪ m) ∅ ls.

(** The key-value map a stack of layers stands for. *)
Definition view (ls : list (list kvEntry)) : gmap bytes bytes := Engine.live (kvmap ls).

(** The value an entry gives to its key; a tombstone gives none. *)
Definition entry_value (e : kvEntry) : option bytes :=
  if ke_tombstone e then None else Some (ke_value e).

(** Effect of one write on the key-value map. *)
Definition apply_entry (e : kvEntry) (m : gmap bytes bytes) : gmap bytes bytes :=
  if ke_tombstone e then delete (ke_key e) m else <[ke_key e := ke_value e]> m.

Lemma to_map_lookup es k : to_map es !! k = lookup_entry k es.
Proof.
  unfold to_map. induction es as [|e es IH]; [done|].
  rewrite fmap_cons. cbn [list_to_map lookup_entry foldr uncurry].
  destruct (bytes_eqb_spec (ke_key e) k) as [->|Hne].
  - apply lookup_insert_eq.
  - by rewrite lookup_insert_ne, IH.
Qed.

Lemma kvmap_cons es ls k :
  kvmap (es :: ls) !! k = match lookup_entry k es with Some e => Some e | None => kvmap ls !! k end.
Proof.
  cbn [kvmap foldr]. rewrite <-to_map_lookup.
  destruct (to_map es !! k) eqn:E; [by erewrite lookup_union_Some_l|by rewrite lookup_union_r].
Qed.

Lemma live_lookup m k : Engine.live m !! k = m !! k ≫= entry_value.
Proof. unfold Engine.live. by rewrite lookup_omap. Qed.

Lemma view_cons es ls k :
  view (es :: ls) !! k = match lookup_entry k es with Some e => entry_value e | None => view ls !! k end.
Proof.
  unfold view. rewrite !live_lookup, kvmap_cons. by destruct (lookup_entry k es).
Qed.

Lemma view_nil : view [] = ∅.
Proof. apply map_eq. intros k. unfold view. by rewrite live_lookup. Qed.

Lemma view_empty_layer ls : view ([] :: ls) = view ls.
Proof. apply map_eq. intros k. by rewrite view_cons. Qed.

Lemma lookup_insert_entry e es k :
  lookup_entry k (insert_entry e es) = if bytes_eqb (ke_key e) k then Some e else lookup_entry k es.
Proof.
  induction es as [|f es IH]; simpl; [done|].
  destruct (bytes_ltb_spec (ke_key f) (ke_key e)) as [Hlt|Hge]; simpl.
  - destruct (bytes_eqb_spec (ke_key f) k) as [<-|Hne].
    + destruct (bytes_eqb_spec (ke_key e) (ke_key f)) as [Heq|]; [|done].
      rewrite Heq in Hlt. by apply bytes_lt_irrefl in Hlt.
    + apply IH.
  - destruct (bytes_eqb_spec (ke_key f) (ke_key e)) as [Heq|Hne]; simpl.
    + rewrite Heq. by destruct (bytes_eqb_spec (ke_key e) k).
    + by destruct (bytes_eqb_spec (ke_key e) k).
Qed.

(** A write to the newest layer is the write on the key-value map. *)
Lemma view_insert e es ls : view (insert_entry e es :: ls) = apply_entry e (view (es :: ls)).
Proof.
  apply map_eq. intros k. rewrite view_cons, lookup_insert_entry. unfold apply_entry, entry_value.
  destruct (bytes_eqb_spec (ke_key e) k) as [<-|Hne].
  - destruct (ke_tombstone e); [by rewrite lookup_delete_eq|by rewrite lookup_insert_eq].
  - destruct (ke_tombstone e); [rewrite lookup_delete_ne by done|rewrite lookup_insert_ne by done];
      by rewrite view_cons.
Qed.

(** A flush moves the newest layer under an empty one. *)
Lemma view_flush es ls : view ([] :: es :: ls) = view (es :: ls).
Proof. apply view_empty_layer. Qed.

Lemma lookup_entry_not_None k es e : e ∈ es -> ke_key e = k -> lookup_entry k es <> None.
Proof.
  intros Hin <- Hn. induction es as [|f es IH]; [by apply not_elem_of_nil in Hin|].
  simpl in Hn. destruct (bytes_eqb_spec (ke_key f) (ke_key e)); [done|].
  apply elem_of_cons in Hin as [->|Hin]; [done|]. by apply IH.
Qed.

(** ** Merging *)

Lemma merge_entries_lookup m es k :
  sorted_entries es ->
  Engine.merge_entries m es !! k = match lookup_entry k es with Some e => Some e | None => m !! k end.
Proof.
  unfold Engine.merge_entries. revert m. induction es as [|e es IH]; intros m Hs; [done|].
  unfold sorted_entries, keys in Hs. rewrite fmap_cons in Hs. apply StronglySorted_inv in Hs as [Hs Hall].
  cbn [foldl lookup_entry]. rewrite IH by done.
  destruct (bytes_eqb_spec (ke_key e) k) as [<-|Hne].
  - rewrite lookup_entry_None; [apply lookup_insert_eq|].
    rewrite Forall_fmap in Hall. eapply Forall_impl; [exact Hall|].
    simpl. intros f Hf Hk. rewrite Hk in Hf. by apply bytes_lt_irrefl in Hf.
  - by rewrite lookup_insert_ne.
Qed.

Lemma merge_entries_kvmap es ls :
  sorted_entries es -> Engine.merge_entries (kvmap ls) es = kvmap (es :: ls).
Proof. intros Hs. apply map_eq. intros k. by rewrite merge_entries_lookup, kvmap_cons. Qed.

(** ** The compacted layer *)

(** Every key of the map is the key of its entry. *)
Definition keyed (m : gmap bytes kvEntry) : Prop := forall k e, m !! k = Some e -> ke_key e = k.

Lemma kvmap_keyed ls : keyed (kvmap ls).
Proof.
  induction ls as [|es ls IH]; intros k e; [done|].
  rewrite kvmap_cons. destruct (lookup_entry k es) eqn:E; [|apply IH].
  intros [= <-]. by apply lookup_entry_Some in E as [_ ?].
Qed.

Lemma kvmap_in ls k e : kvmap ls !! k = Some e -> e ∈ concat ls.
Proof.
  induction ls as [|es ls IH]; [done|]. rewrite kvmap_cons. cbn [concat].
  rewrite elem_of_app. destruct (lookup_entry k es) eqn:E.
  - intros [= <-]. left. by apply lookup_entry_Some in E as [? _].
  - intros H. right. by apply IH.
Qed.

#[global] Instance bytes_le_total : Total Engine.bytes_le.
Proof.
  intros a b. unfold Engine.bytes_le. destruct (bytes_ltb_spec b a) as [H|H]; [|by left].
  right. by apply bytes_lt_asym.
Qed.

#[global] Instance bytes_le_trans : Transitive Engine.bytes_le.
Proof.
  intros a b c. unfold Engine.bytes_le. intros H1 H2 H3.
  destruct (trichotomy bytes_lt a b) as [H|[->|H]]; [|done|done].
  by apply H2, (bytes_lt_trans _ a).
Qed.

Section compact.
Context (m : gmap bytes kvEntry) (Hm : keyed m).

Let live_keys := ke_key <$> filter (fun en => ke_tombstone en = false) (snd <$> map_to_list m).

Lemma live_keys_NoDup : NoDup live_keys.
Proof using Hm.
  apply (sublist_NoDup _ (ke_key <$> (snd <$> map_to_list m))).
  - assert (ke_key <$> (snd <$> map_to_list m) = fst <$> map_to_list m) as ->; [|apply NoDup_fst_map_to_list].
    rewrite <-list_fmap_compose. apply list_fmap_ext. intros i [k e] Hi. simpl.
    apply Hm, elem_of_map_to_list. by eapply list_elem_of_lookup_2.
  - apply fmap_sublist, sublist_filter.
Qed.

Lemma elem_of_live_keys k :
  k ∈ live_keys <-> exists e, m !! k = Some e /\ ke_tombstone e = false.
Proof using Hm.
  unfold live_keys. rewrite list_elem_of_fmap. split.
  - intros (e & -> & [Ht ([k' e'] & -> & Hi)%list_elem_of_fmap]%list_elem_of_filter).
    simpl in *. apply elem_of_map_to_list in Hi.
    rewrite (Hm _ _ Hi). by exists e'.
  - intros (e & He & Ht). exists e. split; [by symmetry; apply Hm|].
    apply list_elem_of_filter. split; [done|]. apply list_elem_of_fmap. exists (k, e).
    split; [done|]. by apply elem_of_map_to_list.
Qed.

Lemma keys_live_sorted : keys (Engine.live_sorted m) = merge_sort Engine.bytes_le live_keys.
Proof using Hm.
  unfold Engine.live_sorted, keys.
  assert (Forall (fun k => exists e, m !! k = Some e) (merge_sort Engine.bytes_le live_keys)) as Hall.
  { apply Forall_forall. intros k. rewrite merge_sort_Permutation.
    intros (e & He & _)%elem_of_live_keys. eauto. }
  fold live_keys. induction Hall as [|k l [e He] Hall IH]; [done|].
  simpl. rewrite He; simpl. f_equal; [by apply Hm|apply IH].
Qed.

Lemma live_sorted_sorted : sorted_entries (Engine.live_sorted m).
Proof using Hm.
  unfold sorted_entries. rewrite keys_live_sorted.
  assert (NoDup (merge_sort Engine.bytes_le live_keys)) as Hnd.
  { rewrite merge_sort_Permutation. apply live_keys_NoDup. }
  pose proof (StronglySorted_merge_sort Engine.bytes_le live_keys) as Hs.
  induction Hs as [|k l Hs IH Hall]; constructor; apply NoDup_cons in Hnd as [Hni Hnd]; [by apply IH|].
  apply Forall_forall. intros k' Hk'. rewrite Forall_forall in Hall. specialize (Hall _ Hk').
  destruct (trichotomy bytes_lt k k') as [?|[->|?]]; [done..|]. by destruct Hall.
Qed.

Lemma live_sorted_elem e :
  e ∈ Engine.live_sorted m <-> m !! ke_key e = Some e /\ ke_tombstone e = false.
Proof using Hm.
  unfold Engine.live_sorted. rewrite list_elem_of_omap. fold live_keys. split.
  - intros (k & Hk & He). rewrite merge_sort_Permutation, elem_of_live_keys in Hk.
    destruct Hk as (e' & He' & Ht). rewrite He in He'. injection He' as <-.
    by rewrite (Hm _ _ He).
  - intros [He Ht]. exists (ke_key e). split; [|done].
    rewrite merge_sort_Permutation, elem_of_live_keys. eauto.
Qed.

Lemma live_sorted_lookup k :
  lookup_entry k (Engine.live_sorted m) = e ← m !! k; if ke_tombstone e then None else Some e.
Proof using Hm.
  destruct (lookup_entry k _) as [e|] eqn:E.
  - apply lookup_entry_Some in E as [[He Ht]%live_sorted_elem <-]. rewrite He; simpl. by rewrite Ht.
  - destruct (m !! k) as [e|] eqn:He; [|done]. simpl. destruct (ke_tombstone e) eqn:Ht; [done|].
    assert (e ∈ Engine.live_sorted m) as Hin.
    { apply live_sorted_elem. by rewrite (Hm _ _ He). }
    exfalso. eapply lookup_entry_not_None; [exact Hin| |exact E]. by apply Hm.
Qed.

End compact.

Lemma live_sorted_NoDup m : keyed m -> NoDup (Engine.live_sorted m).
Proof.
  intros Hm. apply (NoDup_fmap_1 ke_key). fold (keys (Engine.live_sorted m)).
  rewrite keys_live_sorted by done. rewrite merge_sort_Permutation. by apply live_keys_NoDup.
Qed.

(** Compaction keeps the key-value map. *)
Lemma view_compact es ls :
  view [es; Engine.live_sorted (kvmap ls)] = view (es :: ls).
Proof.
  apply map_eq. intros k. rewrite !view_cons. destruct (lookup_entry k es); [done|].
  rewrite live_sorted_lookup by apply kvmap_keyed.
  rewrite view_nil, lookup_empty. unfold view. rewrite live_lookup.
  unfold entry_value. destruct (kvmap ls !! k) as [e|]; simpl; [|done].
  destruct (ke_tombstone e) eqn:Ht; [done|]. by rewrite Ht.
Qed.

(** ** Sizes *)

(** An upper bound on the bytes an entry takes in a table, index included. *)
Definition cost (e : kvEntry) : Z := Z.of_nat (64 + 2 * length (ke_key e) + length (ke_value e)).
Definition costs (es : list kvEntry) : Z := foldr (fun e n => cost e + n)%Z 0%Z es.

Lemma costs_app es fs : costs (es ++ fs) = (costs es + costs fs)%Z.
Proof. induction es as [|e es IH]; [done|]. cbn [app costs foldr]. fold (costs es) (costs (es ++ fs)). lia. Qed.

Lemma costs_nonneg es : (0 <= costs es)%Z.
Proof. induction es as [|e es IH]; cbn [costs foldr]; [done|]. fold (costs es). unfold cost. lia. Qed.

Lemma costs_length es : (64 * Z.of_nat (length es) <= costs es)%Z.
Proof. induction es as [|e es IH]; cbn [costs foldr length]; [done|]. fold (costs es). unfold cost. lia. Qed.

#[global] Instance costs_perm : Proper (Permutation ==> eq) costs.
Proof. intros es fs. induction 1; cbn [costs foldr] in *; unfold costs in *; lia. Qed.

Lemma costs_submseteq es fs : es ⊆+ fs -> (costs es <= costs fs)%Z.
Proof.
  intros [gs ->]%submseteq_Permutation. rewrite costs_app. pose proof (costs_nonneg gs). lia.
Qed.

(** A layer without duplicates drawn from a history is within its cost. *)
Lemma costs_subset es hs : NoDup es -> (forall e, e ∈ es -> e ∈ hs) -> (costs es <= costs hs)%Z.
Proof. intros Hnd Hin. by apply costs_submseteq, NoDup_submseteq. Qed.

Lemma sorted_NoDup es : sorted_entries es -> NoDup es.
Proof.
  unfold sorted_entries, keys. induction es as [|e es IH]; intros Hs; [constructor|].
  rewrite fmap_cons in Hs. apply StronglySorted_inv in Hs as [Hs Hall].
  constructor; [|by apply IH]. intros Hin. rewrite Forall_fmap, Forall_forall in Hall.
  specialize (Hall e Hin). simpl in Hall. by apply bytes_lt_irrefl in Hall.
Qed.

Lemma length_index_block index :
  length (concat (encode_index_entry <$> index)) =
  foldr (fun ie n => 12 + length (ie_key ie) + n) 0 index.
Proof.
  induction index as [|ie index IH]; [done|]. rewrite fmap_cons. cbn [concat foldr].
  rewrite length_app, IH. unfold encode_index_entry.
  rewrite !length_app, LittleEndian.length_PutUint32, LittleEndian.length_PutUint64. lia.
Qed.

Lemma write_loop_cost es i off d index fin :
  write_loop i off es = (d, index, fin) ->
  (Z.of_nat (length d + length (concat (encode_index_entry <$> index))) <= costs es)%Z.
Proof.
  revert i off d index fin. induction es as [|e es IH]; intros i off d index fin; cbn [write_loop].
  - intros [= <- <- _]. done.
  - destruct (write_loop _ _ es) as [[d1 index1] fin1] eqn:E.
    intros [[<- <-]%pair_equal_spec _]%pair_equal_spec. apply IH in E. rewrite length_index_block in E |- *. rewrite length_app, length_encode_entry, foldr_app.
    cbn [costs foldr]. fold (costs es). unfold cost. case_bool_decide; cbn [foldr ie_key]; lia.
Qed.

Lemma length_sst_bytes es : (Z.of_nat (length (sst_bytes es)) <= costs es + 24)%Z.
Proof.
  unfold sst_bytes. destruct (write_loop 0 0 es) as [[d index] fin] eqn:E. apply write_loop_cost in E.
  rewrite !length_app, !LittleEndian.length_PutUint32, !LittleEndian.length_PutUint64. lia.
Qed.

(** Room for a table: 256 GiB of entries, each within the 4 GiB fields. *)
Definition budget : Z := 2 ^ 38.

Lemma sst_fits_cost es : Forall fits_entry es -> (costs es < budget)%Z -> sst_fits es.
Proof.
  intros Hf Hc. unfold budget in Hc. split; [done|..].
  - pose proof (costs_length es). unfold len, two32. lia.
  - pose proof (length_sst_bytes es). unfold maxAlloc. lia.
Qed.
