(* ===== verification/EngineCorrect.v ===== *)
(** storage/engine.go: the engine implements a key-value map, whatever system
    calls fail on the way, and recovers it after a crash. *)

From S2P Require Import Prelude Bytes GoIO Wal Memtable SSTable Engine Layers.
Import Engine.

(** ** The in-memory invariant *)

(** A table that holds the entries [es], and that its file opens as. *)
Record table_ok (t : sstable) (es : list kvEntry) : Prop := {
  tk_of : table_of t es;
  tk_sorted : sorted_entries es;
  tk_open : openSSTable (t_path t) (sst_bytes es) = Ok t
}.

Section history.

(** [hs]: every entry ever written to the engine; its size bounds the tables. *)
Context (hs : list kvEntry).
Context (Hfits : Forall fits_entry hs) (Hcost : (costs hs < budget)%Z).

Definition within (es : list kvEntry) : Prop := Forall (fun x => x ∈ hs) es.

(** [es]: the memtable's entries; [ess]: the tables' entries, newest first. *)
Record eng_inv (e : Engine) (es : list kvEntry) (ess : list (list kvEntry)) : Prop := {
  ei_mem : SkipInv.mem_inv (e_mem e) es;
  ei_tables : Forall2 table_ok (e_tables e) ess;
  ei_hist : within es;
  ei_hists : Forall within ess
}.

Lemma within_fits es : within es -> Forall fits_entry es.
Proof using Hfits.
  intros H. eapply Forall_impl; [exact H|]. intros x. rewrite Forall_forall in Hfits. apply Hfits.
Qed.

Lemma within_sst_fits es : within es -> sorted_entries es -> sst_fits es.
Proof using Hfits Hcost.
  intros H Hs. apply sst_fits_cost; [by apply within_fits|].
  unfold within in H. rewrite Forall_forall in H.
  pose proof (costs_subset es hs (sorted_NoDup _ Hs) H). lia.
Qed.

Lemma within_insert e es : e ∈ hs -> within es -> within (insert_entry e es).
Proof.
  intros He. induction 1 as [|f es Hf Hes IH]; simpl; [by repeat constructor|].
  destruct (bytes_ltb _ _); [by constructor|]. destruct (bytes_eqb _ _); repeat constructor; done.
Qed.

Lemma within_live ess : Forall within ess -> within (live_sorted (kvmap ess)).
Proof.
  intros H. apply Forall_forall. intros x. rewrite live_sorted_elem by apply kvmap_keyed.
  intros [Hx%kvmap_in _]. unfold within in H. rewrite <-Forall_concat, Forall_forall in H. by apply H.
Qed.

(** ** Reading *)

Lemma get_tables_view ts ess k :
  Forall2 table_ok ts ess -> Forall within ess -> get_tables ts k = Ok (view ess !! k).
Proof using Hfits.
  induction 1 as [|t es ts ess [Ht Hs _] Hts IH]; intros Hw; simpl; [by rewrite view_nil|].
  apply Forall_cons in Hw as [Hw Hws]. rewrite (sst_get_ok t es) by eauto using within_fits.
  rewrite view_cons, IH by done. unfold entry_value. by destruct (lookup_entry k es).
Qed.

Lemma Get_view e es ess k : eng_inv e es ess -> Get e k = Ok (view (es :: ess) !! k).
Proof using Hfits.
  intros [Hm Ht Hw Hws]. unfold Get. rewrite (SkipCorrect.get_lookup _ es) by done.
  rewrite view_cons, (get_tables_view _ ess) by done. unfold entry_value.
  by destruct (lookup_entry k es).
Qed.

Lemma merge_tables_kvmap ts ess :
  Forall2 table_ok ts ess -> Forall within ess -> merge_tables ts = Ok (kvmap ess).
Proof using Hfits.
  induction 1 as [|t es ts ess [Ht Hs _] Hts IH]; intros Hw; [done|]. cbn [merge_tables].
  apply Forall_cons in Hw as [Hw Hws]. rewrite IH by done. cbn [rbind].
  rewrite (sst_all_ok t es) by eauto using within_fits. cbn [rbind].
  by rewrite merge_entries_kvmap.
Qed.

Lemma SnapshotEntries_view e es ess : eng_inv e es ess -> SnapshotEntries e = Ok (view (es :: ess)).
Proof using Hfits.
  intros [Hm Ht Hw Hws]. unfold SnapshotEntries. rewrite (merge_tables_kvmap _ ess) by done.
  cbn [rbind]. rewrite (SkipCorrect.entries_spec _ es) by done.
  rewrite merge_entries_kvmap; [done|]. by eapply mem_inv_sorted.
Qed.

(** ** Calls on the directory *)

(** [e'] differs from [e] in the directory and its script at most. *)
Record same_state (e e' : Engine) : Prop := {
  ss_wal : e_wal e' = e_wal e;
  ss_mem : e_mem e' = e_mem e;
  ss_tables : e_tables e' = e_tables e;
  ss_next : e_nextSST e' = e_nextSST e;
  ss_flush : e_flushSize e' = e_flushSize e;
  ss_sync : e_syncWAL e' = e_syncWAL e
}.

#[local] Instance same_state_po : PreOrder same_state.
Proof.
  split; [by intros e; split|].
  intros e1 e2 e3 [] []. split; congruence.
Qed.

Lemma dir_call_same e o e' :
  dir_call e = (o, e') -> same_state e e' /\ e_dir e' = e_dir e.
Proof. unfold dir_call. destruct (e_script e); intros [= <- <-]; by split. Qed.

Lemma dir_call_healthy e : e_script e = [] -> dir_call e = (Done, e).
Proof. unfold dir_call. by intros ->. Qed.

Lemma set_dir_same e d : same_state e (set_dir e d).
Proof. by split. Qed.

Lemma remove_table_same e t : same_state e (remove_table e t).
Proof.
  unfold remove_table. destruct (dir_call e) as [[|n] e1] eqn:E; apply dir_call_same in E as [H _]; [|done].
  etrans; [exact H|apply set_dir_same].
Qed.

Lemma remove_tables_same ts e : same_state e (foldl remove_table e ts).
Proof.
  revert e. induction ts as [|t ts IH]; intros e; [done|]. simpl.
  etrans; [apply remove_table_same|apply IH].
Qed.

Lemma write_and_open_spec e es :
  within es -> sorted_entries es ->
  exists r e', write_and_open e es = Some (r, e') /\ same_state e e' /\
    match r with
    | inl _ => e_script e <> []
    | inr t => table_ok t es /\ t_path t = sst_name (e_nextSST e) /\
               e_dir e' = <[sst_name (e_nextSST e) := sst_bytes es]> (e_dir e) /\
               (e_script e = [] -> e_script e' = [])
    end.
Proof using Hfits Hcost.
  intros Hw Hs. unfold write_and_open.
  destruct (openSSTable_ok (sst_name (e_nextSST e)) es) as (t & Ho & Ht & Hp); [by apply within_sst_fits|].
  destruct (dir_call e) as [o1 e1] eqn:E1. destruct (dir_call_same _ _ _ E1) as [S1 D1].
  destruct (dir_call e1) as [o2 e2] eqn:E2. destruct (dir_call_same _ _ _ E2) as [S2 D2].
  assert (Hs2 : e_script e = [] -> o1 = Done /\ o2 = Done /\ e_script e2 = []).
  { intros H0. rewrite dir_call_healthy in E1 by done. injection E1 as <- <-.
    rewrite dir_call_healthy in E2 by done. by injection E2 as <- <-. }
  unfold writeSSTable. destruct o1 as [|n1].
  2:{ eexists _, e2. split; [done|]. split; [by etrans|]. intros H0. by apply Hs2 in H0 as [? _]. }
  destruct o2 as [|n2].
  2:{ eexists _, _. split; [done|]. split; [etrans; [by etrans|apply set_dir_same]|].
      intros H0. by apply Hs2 in H0 as (_ & ? & _). }
  destruct (dir_call (set_dir e2 _)) as [o3 e3] eqn:E3. destruct (dir_call_same _ _ _ E3) as [S3 D3].
  assert (same_state e e3) as S by (etrans; [by etrans|etrans; [apply set_dir_same|exact S3]]).
  assert (Hs3 : e_script e = [] -> o3 = Done /\ e_script e3 = []).
  { intros H0. apply Hs2 in H0 as (_ & _ & H0). rewrite dir_call_healthy in E3 by done. by injection E3 as <- <-. }
  destruct o3 as [|n3].
  2:{ eexists _, e3. split; [done|]. split; [done|]. intros H0. by apply Hs3 in H0 as [? _]. }
  rewrite Ho. eexists _, e3. split; [done|]. split; [done|].
  split; [split; congruence|]. split; [done|]. split; [|intros H0; by apply Hs3].
  rewrite D3. simpl. congruence.
Qed.

(** ** Writing, with any call failing *)

Lemma eng_inv_same e e' es ess : same_state e e' -> eng_inv e es ess -> eng_inv e' es ess.
Proof. intros [_ Hm Ht _ _ _] []. split; congruence. Qed.

(** The engine's configuration does not change. *)
Definition same_opts (e e' : Engine) : Prop :=
  e_flushSize e' = e_flushSize e /\ e_syncWAL e' = e_syncWAL e.

Lemma compactLocked_view e es ess :
  eng_inv e es ess ->
  exists err e' ess', compactLocked e = Some (err, e') /\
    eng_inv e' es ess' /\ view (es :: ess') = view (es :: ess).
Proof using Hfits Hcost.
  intros Hi. destruct Hi as [Hm Ht Hw Hws]. unfold compactLocked.
  rewrite (merge_tables_kvmap _ ess) by done.
  destruct (write_and_open_spec e (live_sorted (kvmap ess))) as (r & e1 & -> & S & Hr);
    [by apply within_live|apply live_sorted_sorted, kvmap_keyed|]. simpl.
  destruct r as [er|t].
  - exists (Some er), e1, ess. split; [done|]. split; [|done]. by eapply eng_inv_same.
  - destruct Hr as [Htk _]. eexists None, _, [_]. split; [done|]. split; [|apply view_compact].
    eapply eng_inv_same; [apply remove_tables_same|]. split; simpl; [|constructor; [done|constructor]|done|].
    + by rewrite (ss_mem _ _ S).
    + constructor; [by apply within_live|constructor].
Qed.

Lemma flushLocked_view e es ess :
  eng_inv e es ess -> e_wal e <> None ->
  exists err e' es' ess', flushLocked e = Some (err, e') /\
    eng_inv e' es' ess' /\ view (es' :: ess') = view (es :: ess).
Proof using Hfits Hcost.
  intros Hi Hwal. pose proof Hi as [Hm Ht Hw Hws]. unfold flushLocked.
  rewrite (SkipCorrect.entries_spec _ es) by done. simpl.
  destruct es as [|x es']; [by exists None, e, [], ess|]. remember (x :: es') as es eqn:Hes.
  destruct (write_and_open_spec e es) as (r & e1 & -> & S & Hr);
    [done|by eapply mem_inv_sorted|]. simpl.
  destruct r as [er|t].
  { exists (Some er), e1, es, ess. split; [done|]. split; [|done]. by eapply eng_inv_same. }
  destruct Hr as [Htk _]. rewrite (ss_wal _ _ S). destruct (e_wal e) as [w|]; [|done]. simpl.
  set (e2 := set_tables e1 (t :: e_tables e1) (e_nextSST e1 +64 1)).
  (* the engine between the new table and the new log: the entries are in both *)
  assert (Hboth : forall e3, e_mem e3 = e_mem e2 -> e_tables e3 = e_tables e2 ->
            eng_inv e3 es (es :: ess) /\ view (es :: es :: ess) = view (es :: ess)).
  { intros e3 E1 E2. split.
    - split; rewrite ?E1, ?E2; simpl; rewrite ?(ss_mem _ _ S), ?(ss_tables _ _ S); [done|by constructor|done|by constructor].
    - apply map_eq. intros k. rewrite !view_cons. by destruct (lookup_entry k es). }
  destruct (Close w) as [[er|] w1].
  { eexists _, _, es, (es :: ess). split; [done|]. by apply Hboth. }
  destruct (dir_call (set_wal e2 (Some w1))) as [o e3] eqn:E3. apply dir_call_same in E3 as [S3 _].
  assert (e_mem e3 = e_mem e2 /\ e_tables e3 = e_tables e2) as [M3 T3].
  { by rewrite (ss_mem _ _ S3), (ss_tables _ _ S3). }
  destruct o as [|n]; [|by eexists _, e3, es, (es :: ess); split; [done|apply Hboth]].
  pose proof (OpenWAL_no_panic (mkFile [] [] (f_script (wal_file w1)) false)) as HW.
  destruct (OpenWAL _) as [[w2|er|] f2]; [| |done].
  2:{ eexists _, _, es, (es :: ess). split; [done|]. by apply Hboth. }
  set (e4 := set_mem (set_wal e3 (Some w2)) Memtable.newMemtable).
  assert (eng_inv e4 [] (es :: ess)) as Hi4.
  { split; simpl; [apply SkipCorrect.newMemtable_inv| |constructor|by constructor].
    rewrite T3. simpl. rewrite (ss_tables _ _ S). by constructor. }
  case_bool_decide.
  - destruct (compactLocked_view e4 [] (es :: ess) Hi4) as (err & e5 & ess' & -> & Hi5 & Hv).
    eexists _, e5, [], ess'. split; [done|]. by rewrite Hv, view_flush.
  - eexists _, e4, [], (es :: ess). split; [done|]. by rewrite view_flush.
Qed.

Lemma write_view e es ess key value tomb rs :
  eng_inv e es ess -> e_wal e <> None -> mkEntry key value tomb ∈ hs ->
  exists err e' es' ess', write e key value tomb rs = Some (err, e') /\ eng_inv e' es' ess' /\
    (view (es' :: ess') = apply_entry (mkEntry key value tomb) (view (es :: ess)) \/
     err <> None /\ view (es' :: ess') = view (es :: ess)).
Proof using Hfits Hcost.
  intros Hi Hwal Hh. pose proof Hi as [Hm Ht Hw Hws]. unfold write.
  destruct (e_wal e) as [w|] eqn:Ew; [|done]. simpl.
  destruct (Append w _) as [[er|] w1].
  { eexists _, _, es, ess. split; [done|]. split; [by split|by right]. }
  destruct (if e_syncWAL e then Sync w1 else (None, w1)) as [[er|] w2].
  { eexists _, _, es, ess. split; [done|]. split; [by split|by right]. }
  simpl. destruct (SkipCorrect.put_spec (e_mem e) es key value tomb rs Hm) as (m & -> & Hm'). simpl.
  set (e1 := set_mem _ m). assert (eng_inv e1 (insert_entry (mkEntry key value tomb) es) ess) as Hi1.
  { split; [done..|by apply within_insert|done]. }
  rewrite <-view_insert. destruct (_ <=? _)%Z.
  - destruct (flushLocked_view e1 _ _ Hi1) as (err & e2 & es' & ess' & -> & Hi2 & Hv); [done|].
    eexists _, e2, es', ess'. split; [done|]. split; [done|by left].
  - eexists _, e1, _, ess. split; [done|]. split; [done|by left].
Qed.

Definition reset_entry (x : bytes * bytes * list N) : kvEntry := mkEntry x.1.1 x.1.2 false.

(** The loop puts a prefix of the entries, all of them when it ends well. *)
Lemma reset_loop_inv xs w m es :
  SkipInv.mem_inv m es -> within es -> within (reset_entry <$> xs) ->
  exists err w' m' es' j, reset_loop w m xs = Some (err, (w', m')) /\ SkipInv.mem_inv m' es' /\ within es' /\
    es' = foldl (fun es x => insert_entry x es) es (take j (reset_entry <$> xs)) /\
    (err = None -> length xs <= j).
Proof.
  revert w m es. induction xs as [|[[k v] rs] xs IH]; intros w m es Hm Hw Hx; cbn [reset_loop].
  { by eexists _, w, m, es, 0. }
  rewrite fmap_cons in Hx |- *. apply Forall_cons in Hx as [Hx Hxs].
  destruct (Append w _) as [[er|] w1]; [by eexists _, w1, m, es, 0|].
  destruct (SkipCorrect.put_spec m es k v false rs Hm) as (m1 & -> & Hm1). simpl.
  destruct (IH w1 m1 _ Hm1) as (err & w' & m' & es' & j & -> & ? & ? & ? & ?); [by apply within_insert|done|].
  eexists _, w', m', es', (S j). split_and!; [done..|]. intros He. apply le_n_S. by auto.
Qed.

Lemma view_inserts es0 xs ess :
  view (foldl (fun es x => insert_entry x es) es0 xs :: ess) = foldl (fun m x => apply_entry x m) (view (es0 :: ess)) xs.
Proof. revert es0. induction xs as [|x xs IH]; intros es0; simpl; [done|]. by rewrite IH, view_insert. Qed.

Lemma Reset_view e es ess xs absent :
  eng_inv e es ess -> e_wal e <> None -> within (reset_entry <$> xs) ->
  exists err e' es' ess', Reset e xs absent = Some (err, e') /\ eng_inv e' es' ess' /\
    exists j, view (es' :: ess') = foldl (fun m x => apply_entry x m) ∅ (take j (reset_entry <$> xs)) /\
      (err = None -> length xs <= j).
Proof using Hfits.
  intros [Hm Ht Hw Hws] Hwal Hx. unfold Reset.
  set (e0 := foldl remove_table e (e_tables e)). pose proof (remove_tables_same (e_tables e) e) as S.
  fold e0 in S. set (e1 := set_mem (set_tables e0 [] _) _).
  assert (e_wal e1 = e_wal e) as Hwal1 by apply (ss_wal _ _ S).
  rewrite Hwal1. destruct (e_wal e) as [w|]; [|done]. simpl.
  assert (Hempty : forall e2, e_mem e2 = Memtable.newMemtable -> e_tables e2 = [] -> eng_inv e2 [] []).
  { intros e2 E1 E2. split; rewrite ?E1, ?E2; [apply SkipCorrect.newMemtable_inv|constructor..]. }
  assert (Hzero : forall er : error, exists j, view [[]] = foldl (fun m x => apply_entry x m) ∅ (take j (reset_entry <$> xs)) /\
            (Some er = None -> length xs <= j)).
  { intros er. exists 0. by rewrite view_empty_layer, view_nil. }
  destruct (Close w) as [[er|] w1]; [by eexists _, _, [], []; split; [done|split; [by apply Hempty|apply Hzero]]|].
  destruct (dir_call _) as [o e2] eqn:E2. apply dir_call_same in E2 as [S2 _].
  assert (e_mem e2 = Memtable.newMemtable /\ e_tables e2 = []) as [M2 T2].
  { by rewrite (ss_mem _ _ S2), (ss_tables _ _ S2). }
  destruct (match o with Done => true | _ => absent end);
    [|by eexists _, e2, [], []; split; [done|split; [by apply Hempty|apply Hzero]]].
  pose proof (OpenWAL_no_panic (mkFile [] [] (f_script (wal_file w1)) false)) as HW.
  destruct (OpenWAL _) as [[w2|er|] f2]; [|by eexists _, _, [], []; split; [done|split; [by apply Hempty|apply Hzero]]|done].
  destruct (reset_loop_inv xs w2 (e_mem e2) []) as (err & w3 & m3 & es3 & j & -> & Hm3 & Hw3 & He3 & Hj);
    [rewrite M2; apply SkipCorrect.newMemtable_inv|constructor|done|]. simpl.
  assert (Hi3 : forall w, eng_inv (set_wal (set_mem (set_wal e2 (Some w3)) m3) w) es3 []).
  { intros w'. split; simpl; [done|by rewrite T2; constructor|done|constructor]. }
  assert (Hv : view [es3] = foldl (fun m x => apply_entry x m) ∅ (take j (reset_entry <$> xs))).
  { by rewrite He3, view_inserts, view_empty_layer, view_nil. }
  destruct err as [er|].
  { eexists _, _, es3, []. split; [done|]. split; [apply (Hi3 (Some w3))|]. by exists j. }
  destruct (Sync w3) as [err w4]. eexists _, _, es3, []. split; [done|]. split; [apply Hi3|].
  exists j. split; [done|]. intros _. by apply Hj.
Qed.

End history.

(** ** Runs *)

Inductive eng_op :=
  | DoPut (key value : bytes) (rs : list N)
  | DoDelete (key : bytes) (rs : list N)
  | DoFlush
  | DoReset (entries : list (bytes * bytes * list N)) (absent : bool).

Definition eng_step (e : Engine) (op : eng_op) : outcome_of Engine :=
  match op with
  | DoPut k v rs => Put e k v rs
  | DoDelete k rs => Delete e k rs
  | DoFlush => Flush e
  | DoReset xs absent => Reset e xs absent
  end.

(** The calls one after the other, with the error each returned; [None]: one of
    them panicked. *)
Fixpoint eng_run (e : Engine) (ops : list eng_op) : option (list (option error) * Engine) :=
  match ops with
  | [] => Some ([], e)
  | op :: ops =>
      '(err, e) ← eng_step e op;
      '(errs, e) ← eng_run e ops;
      Some (err :: errs, e)
  end.

(** The entries a call hands to the engine. *)
Definition op_entries (op : eng_op) : list kvEntry :=
  match op with
  | DoPut k v _ => [mkEntry k v false]
  | DoDelete k _ => [mkEntry k [] true]
  | DoFlush => []
  | DoReset xs _ => reset_entry <$> xs
  end.

Abbreviation applies := (foldl (fun m x => apply_entry x m)).

(** The specification of one call on the key-value map: a call that returns nil
    has its whole effect; a failed one has it or has none; a failed Reset leaves
    a part of the new contents. *)
Definition map_step (op : eng_op) (err : option error) (m m' : gmap bytes bytes) : Prop :=
  match op with
  | DoPut _ _ _ | DoDelete _ _ | DoFlush =>
      m' = applies m (op_entries op) \/ err <> None /\ m' = m
  | DoReset xs _ =>
      exists j, m' = applies ∅ (take j (op_entries op)) /\ (err = None -> length xs <= j)
  end.

Inductive map_run (m : gmap bytes bytes) : list eng_op -> list (option error) -> gmap bytes bytes -> Prop :=
  | map_run_nil : map_run m [] [] m
  | map_run_cons op ops err errs m1 m2 :
      map_step op err m m1 -> map_run m1 ops errs m2 -> map_run m (op :: ops) (err :: errs) m2.

(** An engine just opened on an empty directory, over a device that will answer
    [dscript] to the calls on the directory and [wscript] to those on the log. *)
Definition fresh (opts : EngineOptions) (dscript wscript : list outcome) : Engine :=
  mkEngine ∅ dscript (Some (mkWAL (Bufio.NewWriter (mkFile [] [] wscript false)) 0)) Memtable.newMemtable [] 0
    (if (FlushSize opts =? 0)%Z then (4 * 2 ^ 20)%Z else FlushSize opts) (SyncWAL opts).

Lemma fresh_inv hs opts ds ws : eng_inv hs (fresh opts ds ws) [] [].
Proof. split; simpl; [apply SkipCorrect.newMemtable_inv|constructor..]. Qed.

Lemma eng_step_view hs e es ess op :
  Forall fits_entry hs -> (costs hs < budget)%Z -> within hs (op_entries op) ->
  eng_inv hs e es ess ->
  eng_step e op = None \/
  exists err e' es' ess', eng_step e op = Some (err, e') /\ eng_inv hs e' es' ess' /\
    map_step op err (view (es :: ess)) (view (es' :: ess')).
Proof.
  intros Hf Hc Hop Hi. destruct (e_wal e) as [w|] eqn:Ew.
  - right. destruct op as [k v rs|k rs| |xs absent]; simpl in *.
    1-2: apply Forall_cons in Hop as [Hop _];
         edestruct (write_view hs Hf Hc e es ess) as (err & e' & es' & ess' & ? & ? & ?);
           [done|by rewrite Ew|exact Hop|]; by exists err, e', es', ess'.
    + destruct (flushLocked_view hs Hf Hc e es ess Hi) as (err & e' & es' & ess' & ? & ? & ?);
        [by rewrite Ew|]. exists err, e', es', ess'. split_and!; [done..|by left].
    + destruct (Reset_view hs Hf e es ess xs absent Hi) as (err & e' & es' & ess' & ? & ? & ?);
        [by rewrite Ew|done|]. by exists err, e', es', ess'.
  - destruct op as [k v rs|k rs| |xs absent]; simpl.
    1-2: left; unfold Put, Delete, write; by rewrite Ew.
    + pose proof Hi as [Hm _ _ _]. unfold Flush, flushLocked.
      rewrite (SkipCorrect.entries_spec _ _ Hm). simpl. destruct es as [|x es].
      { right. exists None, e, [], ess. split_and!; [done..|by left]. }
      destruct (write_and_open e (x :: es)) as [[r e1]|] eqn:E; [|by left]. simpl.
      destruct (write_and_open_spec hs Hf Hc e (x :: es)) as (r' & e1' & E' & S & _);
        [apply Hi|by eapply mem_inv_sorted|]. rewrite E in E'. injection E' as <- <-.
      destruct r as [er|t].
      * right. exists (Some er), e1, (x :: es), ess. split; [done|].
        split; [by eapply eng_inv_same|by left].
      * left. by rewrite (ss_wal _ _ S), Ew.
    + left. unfold Reset. pose proof (remove_tables_same (e_tables e) e) as S.
      simpl. by rewrite (ss_wal _ _ S), Ew.
Qed.

Lemma eng_run_view hs ops e es ess errs e' :
  Forall fits_entry hs -> (costs hs < budget)%Z -> Forall (fun op => within hs (op_entries op)) ops ->
  eng_inv hs e es ess -> eng_run e ops = Some (errs, e') ->
  exists es' ess', eng_inv hs e' es' ess' /\ map_run (view (es :: ess)) ops errs (view (es' :: ess')).
Proof.
  intros Hf Hc Hops. revert e es ess errs. induction Hops as [|op ops Hop Hops IH]; intros e es ess errs Hi; simpl.
  - intros [= <- <-]. exists es, ess. split; [done|constructor].
  - destruct (eng_step_view hs e es ess op Hf Hc Hop Hi) as [->|(err & e1 & es1 & ess1 & -> & Hi1 & Hs)]; [done|].
    simpl. destruct (eng_run e1 ops) as [[errs1 e2]|] eqn:E; [|done]. intros [= <- <-].
    destruct (IH e1 es1 ess1 errs1 Hi1 E) as (es' & ess' & Hi' & Hr).
    exists es', ess'. split; [done|]. by econstructor.
Qed.

Definition run_entries (ops : list eng_op) : list kvEntry := concat (op_entries <$> ops).

Lemma run_entries_within ops : Forall (fun op => within (run_entries ops) (op_entries op)) ops.
Proof.
  apply Forall_forall. intros op Hop. apply Forall_forall. intros x Hx.
  unfold run_entries. apply list_elem_of_In, in_concat. exists (op_entries op).
  rewrite <-!list_elem_of_In. split; [|done]. apply list_elem_of_fmap. by exists op.
Qed.

(** ** Properties *)

(** C4. The LSM engine implements a key-value map. Whatever Put, Delete, Flush and
    Reset calls are made on a fresh engine, whatever the flush size and skiplist
    heights, and whichever system calls fail (torn table writes, failed opens,
    removes, log appends or fsyncs), the value Get finds for every key and the
    dump of SnapshotEntries are those of one map obtained by running the calls
    on the specification: each call that returned nil has its whole effect
    (through flushes, shadowing and compaction), a failed write has it or has
    none. *)
Theorem engine_refines_map opts dscript wscript ops errs e :
  Forall fits_entry (run_entries ops) -> (costs (run_entries ops) < budget)%Z ->
  eng_run (fresh opts dscript wscript) ops = Some (errs, e) ->
  exists m, map_run ∅ ops errs m /\
    (forall k, Get e k = Ok (m !! k)) /\ SnapshotEntries e = Ok m.
Proof.
  intros Hf Hc Hr. destruct (eng_run_view _ ops (fresh opts dscript wscript) [] [] errs e Hf Hc (run_entries_within ops)) as (es & ess & Hi & Hm);
    [apply fresh_inv|done|].
  rewrite view_empty_layer, view_nil in Hm. exists (view (es :: ess)). split; [done|]. split.
  - intros k. by apply (Get_view (run_entries ops) Hf).
  - by apply (SnapshotEntries_view (run_entries ops) Hf).
Qed.

(** ** Witness: a run in which the second flush fails after a torn write *)

Definition faulty_ops : list eng_op :=
  [DoPut (str "a") (str "1") []; DoPut (str "b") (str "2") [0%N; 0%N]; DoFlush;
   DoDelete (str "a") []; DoFlush; DoPut (str "b") (str "3") []; DoFlush].

Definition faulty_engine : Engine :=
  fresh (mkOptions 0 true) [Done; Done; Done; Done; Done; FailAfter 7] [].

Lemma engine_refines_map_witness :
  let r := default ([], faulty_engine) (eng_run faulty_engine faulty_ops) in
  r.1 = [None; None; None; None; Some EIO; None; None] /\
  exists m, map_run ∅ faulty_ops r.1 m /\
    (forall k, Get r.2 k = Ok (m !! k)) /\ SnapshotEntries r.2 = Ok m.
Proof.
  intros r. split; [vm_compute; reflexivity|].
  apply (engine_refines_map (mkOptions 0 true) [Done; Done; Done; Done; Done; FailAfter 7] [] faulty_ops r.1 r.2).
  - repeat constructor; vm_compute; reflexivity.
  - vm_compute; reflexivity.
  - vm_compute; reflexivity.
Defined.
