(* ===== verification/EngineRecovery.v ===== *)
(** storage/engine.go: what OpenEngine finds after a crash. The names of the
    tables, the state of the directory and of the log between operations, and
    the replay that rebuilds the memtable. *)

From S2P Require Import Prelude Bytes GoIO Wal Memtable SSTable Engine Layers EngineCorrect.
Import Engine.

(** ** Table names *)

Lemma digit_value_digit n : digit_value (digit n) = Some (n mod 10)%N.
Proof.
  assert (n mod 10 < 10)%N as H by by apply N.mod_upper_bound.
  unfold digit_value, digit. revert H. generalize (n mod 10)%N. intros d H.
  rewrite LittleEndian.to_N_byte_of, N.mod_small by lia.
  rewrite (proj2 (N.leb_le 48 (48 + d))), (proj2 (N.leb_le (48 + d) 57)) by lia.
  simpl. f_equal. lia.
Qed.

Lemma digits_value_app a l1 l2 : digits_value a (l1 ++ l2) = v ← digits_value a l1; digits_value v l2.
Proof. revert a. induction l1 as [|c l1 IH]; intros a; [done|]. simpl. destruct (digit_value c); simpl; auto. Qed.

Lemma decimal_loop_value fuel n acc :
  (n < 10 ^ N.of_nat fuel)%N -> digits_value 0 (decimal_loop fuel n acc) = digits_value n acc.
Proof.
  revert n acc. induction fuel as [|fuel IH]; intros n acc Hn.
  - simpl in *. by assert (n = 0%N) as -> by lia.
  - cbn [decimal_loop]. destruct (N.ltb_spec n 10) as [H|H].
    + cbn [digits_value]. rewrite digit_value_digit. simpl. by rewrite N.mod_small by lia.
    + rewrite IH.
      * cbn [digits_value]. rewrite digit_value_digit. simpl. f_equal.
        rewrite (N.div_mod n 10) at 3 by done. lia.
      * apply N.Div0.div_lt_upper_bound. rewrite Nat2N.inj_succ, N.pow_succ_r in Hn by lia. lia.
Qed.

Lemma digits_value_zeros n l : digits_value 0 (replicate n x30 ++ l) = digits_value 0 l.
Proof. induction n as [|n IH]; [done|]. simpl. exact IH. Qed.

Lemma decimal_nonempty n : exists c l, decimal n = c :: l.
Proof.
  assert (forall fuel m acc, exists c l, decimal_loop (S fuel) m acc = c :: l) as H.
  { induction fuel as [|fuel IH]; intros m acc; cbn [decimal_loop]; destruct (m <? 10)%N; eauto. }
  apply H.
Qed.

Lemma TrimSuffix_app b s : TrimSuffix (b ++ s) s = b.
Proof.
  unfold TrimSuffix, has_suffix. rewrite length_app, Nat.add_sub, drop_app_length.
  rewrite bool_decide_true by lia. destruct (bytes_eqb_spec s s); [|done]. simpl. apply take_app_length.
Qed.

Lemma has_suffix_app b s : has_suffix s (b ++ s) = true.
Proof.
  unfold has_suffix. rewrite length_app, Nat.add_sub, drop_app_length.
  rewrite bool_decide_true by lia. by destruct (bytes_eqb_spec s s).
Qed.

Lemma sst_name_suffix n : has_suffix (str ".sst") (sst_name n) = true.
Proof. unfold sst_name. rewrite (assoc_L (++)). apply has_suffix_app. Qed.

(** The sequence number is read back from the name. *)
Lemma sstSeq_name n : (n < two64)%N -> sstSeq (sst_name n) = n.
Proof.
  intros Hn. unfold sstSeq, sst_name. rewrite (assoc_L (++)), TrimSuffix_app.
  assert (Hv : digits_value 0 (replicate (12 - length (decimal n)) x30 ++ decimal n) = Some n).
  { rewrite digits_value_zeros. unfold decimal. rewrite decimal_loop_value; [done|].
    unfold two64 in Hn. etrans; [exact Hn|]. by vm_compute. }
  destruct (decimal_nonempty n) as (c & l & Hd). unfold ParseUint.
  destruct (_ ++ decimal n) as [|c' l'] eqn:E.
  { apply app_eq_nil in E as [_ E]. by rewrite Hd in E. }
  rewrite Hv. by rewrite (proj2 (N.ltb_lt n two64)).
Qed.

Lemma sst_name_inj a b : (a < two64)%N -> (b < two64)%N -> sst_name a = sst_name b -> a = b.
Proof. intros Ha Hb H. rewrite <-(sstSeq_name a), <-(sstSeq_name b) by done. by rewrite H. Qed.

(** ** The directory between operations *)

Definition dir_of (ts : list sstable) (ess : list (list kvEntry)) : gmap bytes bytes :=
  list_to_map (zip (t_path <$> ts) (sst_bytes <$> ess)).

(** On a device that has not failed, the directory holds the tables' files and
    nothing else; newer tables have higher numbers. *)
Record disk_inv (e : Engine) (ess : list (list kvEntry)) (seqs : list N) : Prop := {
  di_script : e_script e = [];
  di_dir : e_dir e = dir_of (e_tables e) ess;
  di_paths : t_path <$> e_tables e = sst_name <$> seqs;
  di_seqs : StronglySorted (fun a b => b < a)%N seqs;
  di_next : Forall (fun s => s < e_nextSST e)%N seqs
}.

Lemma sst_names_NoDup seqs :
  StronglySorted (fun a b => b < a)%N seqs -> Forall (fun s => s < two64)%N seqs -> NoDup (sst_name <$> seqs).
Proof.
  induction 1 as [|s seqs Hs IH Hlt]; intros Hb; rewrite ?fmap_cons; [constructor|].
  apply Forall_cons in Hb as [Hb Hbs]. constructor; [|by apply IH].
  intros (s' & Heq & Hin)%list_elem_of_fmap. rewrite Forall_forall in Hlt, Hbs.
  apply sst_name_inj in Heq; [|done|by apply Hbs]. specialize (Hlt s' Hin). simpl in Hlt. lia.
Qed.

Lemma dir_of_names ts ess :
  Forall2 table_ok ts ess -> NoDup (t_path <$> ts) ->
  fst <$> map_to_list (dir_of ts ess) ≡ₚ t_path <$> ts.
Proof.
  intros Ht Hnd. unfold dir_of.
  assert (fst <$> zip (t_path <$> ts) (sst_bytes <$> ess) = t_path <$> ts) as Hz.
  { apply fst_zip. rewrite !length_fmap. apply Forall2_length in Ht. lia. }
  rewrite map_to_list_to_map; [by rewrite Hz|by rewrite Hz].
Qed.

Lemma dir_of_lookup ts ess :
  Forall2 table_ok ts ess -> NoDup (t_path <$> ts) ->
  Forall2 (fun t es => dir_of ts ess !! t_path t = Some (sst_bytes es)) ts ess.
Proof.
  intros Ht Hnd. apply Forall2_same_length_lookup_2; [by eapply Forall2_length|].
  intros i t es Hi He. unfold dir_of. apply elem_of_list_to_map_1.
  - rewrite fst_zip; [done|]. rewrite !length_fmap. apply Forall2_length in Ht. lia.
  - apply (list_elem_of_lookup_2 _ i). by rewrite lookup_zip_with, !list_lookup_fmap, Hi, He.
Qed.

Lemma open_tables_ok d ts ess next :
  Forall2 table_ok ts ess ->
  Forall2 (fun t es => d !! t_path t = Some (sst_bytes es)) ts ess ->
  exists next', open_tables d (t_path <$> ts) next = Ok (ts, next').
Proof.
  intros Ht Hd. revert next. induction Ht as [|t es ts ess Htk Hts IH]; intros next; [by eexists|].
  apply Forall2_cons in Hd as [Hd Hds]. rewrite fmap_cons. cbn [open_tables].
  rewrite Hd. cbn [from_option id]. rewrite (tk_open _ _ Htk). cbn [rbind].
  edestruct (IH Hds) as [next' ->]. by eexists.
Qed.

#[global] Instance seq_ge_total : Total seq_ge.
Proof. intros a b. unfold seq_ge. lia. Qed.

#[global] Instance seq_ge_trans : Transitive seq_ge.
Proof. intros a b c. unfold seq_ge. lia. Qed.

(** A bound on the table numbers that keeps them from wrapping around. *)
Definition next_ok (e : Engine) : Prop := (e_nextSST e < two64 - 1)%N.

Lemma disk_seqs_bound e ess seqs :
  disk_inv e ess seqs -> next_ok e -> Forall (fun s => s < two64)%N seqs.
Proof.
  intros Hd Hn. eapply Forall_impl; [exact (di_next _ _ _ Hd)|]. unfold next_ok in Hn. intros s. simpl. lia.
Qed.

Lemma disk_NoDup e ess seqs : disk_inv e ess seqs -> next_ok e -> NoDup (t_path <$> e_tables e).
Proof.
  intros Hd Hn. rewrite (di_paths _ _ _ Hd). apply sst_names_NoDup; [apply Hd|].
  by eapply disk_seqs_bound.
Qed.

Lemma sst_names_paths e ess seqs :
  disk_inv e ess seqs -> next_ok e -> Forall2 table_ok (e_tables e) ess ->
  sst_names (e_dir e) = t_path <$> e_tables e.
Proof.
  intros Hd Hn Ht. pose proof (disk_NoDup _ _ _ Hd Hn) as Hnd.
  pose proof (disk_seqs_bound _ _ _ Hd Hn) as Hb. unfold sst_names. rewrite (di_dir _ _ _ Hd).
  pose proof (dir_of_names _ _ Ht Hnd) as Hperm. rewrite (di_paths _ _ _ Hd) in *.
  assert (filter (fun n => has_suffix (str ".sst") n = true) (fst <$> map_to_list (dir_of (e_tables e) ess))
          ≡ₚ sst_name <$> seqs) as Hf.
  { rewrite Hperm. rewrite filter_all; [done|].
    apply Forall_fmap, Forall_true. intros s. apply sst_name_suffix. }
  apply (StronglySorted_unique_strong seq_ge).
  - intros x1 x2 H1 H2. rewrite merge_sort_Permutation, Hf in H1.
    apply list_elem_of_fmap in H1 as (s1 & -> & H1), H2 as (s2 & -> & H2).
    rewrite Forall_forall in Hb. unfold seq_ge. rewrite !sstSeq_name by by apply Hb.
    intros. f_equal. lia.
  - apply StronglySorted_merge_sort; apply _.
  - assert (StronglySorted (fun a b => b < a)%N seqs) as Hs by apply Hd. revert Hs Hb. clear.
    induction 1 as [|s seqs Hs IH Hlt]; intros Hb; rewrite ?fmap_cons; constructor;
      apply Forall_cons in Hb as [Hb Hbs]; [by apply IH|].
    apply Forall_fmap. rewrite Forall_forall in *. intros s' Hs'. unfold seq_ge; simpl.
    rewrite !sstSeq_name by auto. specialize (Hlt s' Hs'). simpl in Hlt. lia.
  - by rewrite merge_sort_Permutation.
Qed.

(** ** Replaying the log *)

(** The log record of an entry. *)
Definition wal_entry (e : kvEntry) : bytes := encodeWALRecord (ke_key e) (ke_value e) (ke_tombstone e).

(** An entry whose record fits the log's length field. *)
Definition wal_fits (e : kvEntry) : Prop := fits (wal_entry e).

Lemma length_wal_entry e : length (wal_entry e) = 5 + length (ke_key e) + length (ke_value e).
Proof.
  unfold wal_entry, encodeWALRecord. cbn [length].
  rewrite !length_app, LittleEndian.length_PutUint32. lia.
Qed.

Lemma wal_fits_entry e : wal_fits e -> fits_entry e.
Proof. unfold wal_fits, fits, fits_entry, len. rewrite length_wal_entry. lia. Qed.

Lemma decode_wal_entry e :
  wal_fits e -> decodeWALRecord (wal_entry e) = Ok (ke_key e, ke_value e, ke_tombstone e).
Proof.
  intros Hf. pose proof (wal_fits_entry e Hf) as [Hk _]. pose proof (length_wal_entry e) as Hl.
  destruct e as [k v t]. unfold wal_entry, encodeWALRecord in Hl |- *. unfold decodeWALRecord.
  cbn [ke_key ke_value ke_tombstone] in *. unfold len at 1. rewrite Hl.
  rewrite (proj2 (N.ltb_ge _ 5)) by lia.
  rewrite LittleEndian.Uint32_Put by done.
  rewrite drop_app_length' by by rewrite LittleEndian.length_PutUint32.
  rewrite len_ltb_app, take_len_app, drop_len_app. by destruct t.
Qed.

Lemma replay_entries rnd ws m es :
  Forall wal_fits ws -> SkipInv.mem_inv m es ->
  exists m', foldM (replay_put rnd) m (wal_entry <$> ws) = Ok m' /\
    SkipInv.mem_inv m' (foldl (fun es x => insert_entry x es) es ws).
Proof.
  intros Hf. revert m es. induction Hf as [|x ws Hx Hws IH]; intros m es Hm; [by eexists|].
  rewrite fmap_cons. cbn [foldM foldl]. unfold replay_put at 1. rewrite decode_wal_entry by done. cbn [rbind].
  destruct (SkipCorrect.put_spec m es (ke_key x) (ke_value x) (ke_tombstone x) (rnd (wal_entry x)) Hm)
    as (m1 & -> & Hm1). cbn [rbind]. destruct x. by apply IH.
Qed.

(** ** Runs without faults *)

Section history.
Context (hs : list kvEntry).
Context (Hwal : Forall wal_fits hs) (Hcost : (costs hs < budget)%Z).

Abbreviation inserts := (foldl (fun es x => insert_entry x es)).

Lemma hist_fits : Forall fits_entry hs.
Proof using Hwal. eapply Forall_impl; [exact Hwal|]. exact wal_fits_entry. Qed.

(** [hist]: the writes made so far, of which [ws] since the last flush; [ps] are
    the records fsynced to the log and [qs] the ones behind them. *)
Record run_inv (e : Engine) (hist : list kvEntry)
    (ess : list (list kvEntry)) (seqs : list N) (w : WAL) (ps qs : list bytes) (ws0 ws : list kvEntry) : Prop := {
  ri_eng : eng_inv hs e (inserts [] ws) ess;
  ri_disk : disk_inv e ess seqs;
  ri_wal : e_wal e = Some w;
  ri_log : wal_inv w ps qs;
  ri_err : Bufio.w_err (buf w) = None;
  ri_healthy : healthy (wal_file w);
  ri_records : ps ++ qs = wal_entry <$> ws;
  ri_hist : hist = ws0 ++ ws;
  ri_base : view ess = applies ∅ ws0;
  ri_sync : e_syncWAL e = true -> qs = [];
  ri_within : within hs ws
}.

(** At least the first [b] writes are in tables. *)
Definition run_ok (e : Engine) (hist : list kvEntry) (b : nat) : Prop :=
  exists ess seqs w ps qs ws0 ws, run_inv e hist ess seqs w ps qs ws0 ws /\ b <= length ws0.

Lemma run_ok_le e hist b b' : run_ok e hist b -> b' <= b -> run_ok e hist b'.
Proof. intros (ess & seqs & w & ps & qs & ws0 & ws & H & Hb) Hle. exists ess, seqs, w, ps, qs, ws0, ws. split; [done|lia]. Qed.

Lemma applies_app m xs ys : applies m (xs ++ ys) = applies (applies m xs) ys.
Proof. apply foldl_app. Qed.

Lemma run_view e hist ess seqs w ps qs ws0 ws :
  run_inv e hist ess seqs w ps qs ws0 ws -> view (inserts [] ws :: ess) = applies ∅ hist.
Proof.
  intros H. rewrite view_inserts, view_empty_layer, (ri_base _ _ _ _ _ _ _ _ _ H).
  by rewrite (ri_hist _ _ _ _ _ _ _ _ _ H), applies_app.
Qed.

(** Writing the next table keeps the numbers decreasing. *)
Lemma disk_push e ess seqs :
  disk_inv e ess seqs ->
  StronglySorted (fun a b => b < a)%N (e_nextSST e :: seqs) /\
  Forall (fun s => s < e_nextSST e + 1)%N (e_nextSST e :: seqs).
Proof.
  intros Hd. split.
  - constructor; apply Hd.
  - constructor; [lia|]. eapply Forall_impl; [exact (di_next _ _ _ Hd)|]. simpl. lia.
Qed.

Lemma remove_tables_dir ts e :
  e_script e = [] ->
  e_dir (foldl remove_table e ts) = foldl (fun d t => delete (t_path t) d) (e_dir e) ts /\
  e_script (foldl remove_table e ts) = [].
Proof.
  revert e. induction ts as [|t ts IH]; intros e Hs; [done|]. simpl.
  unfold remove_table at 2 4. rewrite dir_call_healthy by done. by apply IH.
Qed.

Lemma deletes_dir (ts : list sstable) ess p v :
  length ts = length ess -> p ∉ t_path <$> ts ->
  foldl (fun d t => delete (t_path t) d) (<[p := v]> (dir_of ts ess)) ts = {[p := v]}.
Proof.
  intros Hl Hp. apply map_eq. intros k.
  assert (Hlk : forall us (d : gmap bytes bytes),
    foldl (fun d t => delete (t_path t) d) d us !! k =
    if bool_decide (k ∈ t_path <$> us) then None else d !! k).
  { induction us as [|t us IH]; intros d; [done|].
    cbn [foldl]. rewrite IH, fmap_cons. destruct (decide (t_path t = k)) as [<-|Hne].
    - rewrite lookup_delete_eq, (bool_decide_true (_ ∈ _ :: _)) by set_solver. by case_bool_decide.
    - rewrite lookup_delete_ne by done.
      rewrite (bool_decide_ext (k ∈ t_path t :: _) (k ∈ t_path <$> us)); [done|set_solver]. }
  rewrite Hlk. clear Hlk. destruct (decide (p = k)) as [<-|Hne].
  - rewrite bool_decide_false by done. by rewrite lookup_insert_eq, lookup_singleton_eq.
  - rewrite lookup_singleton_ne by done. case_bool_decide as Hk; [done|].
    rewrite lookup_insert_ne by done. apply not_elem_of_list_to_map.
    by rewrite fst_zip by (rewrite !length_fmap; lia).
Qed.

Lemma compact_no_fault e es ess seqs :
  eng_inv hs e es ess -> disk_inv e ess seqs -> next_ok e ->
  exists e' seqs', compactLocked e = Some (None, e') /\ e_wal e' = e_wal e /\ e_syncWAL e' = e_syncWAL e /\
    eng_inv hs e' es [live_sorted (kvmap ess)] /\ disk_inv e' [live_sorted (kvmap ess)] seqs' /\
    e_nextSST e' = (e_nextSST e + 1)%N.
Proof using Hwal Hcost.
  intros [Hm Ht Hw Hws] Hd Hn. unfold compactLocked.
  rewrite (merge_tables_kvmap hs hist_fits _ ess) by done.
  destruct (write_and_open_spec hs hist_fits Hcost e (live_sorted (kvmap ess))) as (r & e1 & -> & S & Hr);
    [by apply within_live|apply live_sorted_sorted, kvmap_keyed|]. simpl.
  destruct r as [er|t]; [by destruct Hr; apply Hd|]. destruct Hr as (Htk & Hp & Hdir & Hs).
  assert (e_nextSST e +64 1 = e_nextSST e + 1)%N as Hadd.
  { unfold next_ok in Hn. apply add64_small. unfold two64 in *. lia. }
  set (e2 := set_tables e1 [t] _).
  destruct (remove_tables_dir (e_tables e1) e2) as [Hd2 Hs2]; [by apply Hs, Hd|].
  pose proof (remove_tables_same (e_tables e1) e2) as S2. simpl in Hd2.
  eexists _, [e_nextSST e]. split; [done|].
  split; [by rewrite (ss_wal _ _ S2); simpl; rewrite (ss_wal _ _ S)|].
  split; [by rewrite (ss_sync _ _ S2); simpl; rewrite (ss_sync _ _ S)|].
  assert (e_nextSST (foldl remove_table e2 (e_tables e1)) = (e_nextSST e + 1)%N) as Hnext.
  { rewrite (ss_next _ _ S2). simpl. by rewrite (ss_next _ _ S). }
  split_and!; [..|done].
  - eapply eng_inv_same; [exact S2|]. split; simpl; [by rewrite (ss_mem _ _ S)|constructor; [done|constructor]|done|].
    constructor; [by apply within_live|constructor].
  - split; [done|..|by repeat constructor|].
    + rewrite Hd2, (ss_tables _ _ S2), (ss_tables _ _ S), Hdir, (di_dir _ _ _ Hd). simpl.
      rewrite deletes_dir; [unfold dir_of; simpl; by rewrite Hp|by eapply Forall2_length|].
      rewrite (di_paths _ _ _ Hd). destruct (disk_push _ _ _ Hd) as [Hss _].
      apply (sst_names_NoDup (e_nextSST e :: seqs)) in Hss; [by apply NoDup_cons in Hss as [? _]|].
      constructor; [unfold next_ok in Hn; lia|by eapply disk_seqs_bound].
    + rewrite (ss_tables _ _ S2). simpl. by rewrite Hp.
    + rewrite Hnext. constructor; [lia|constructor].
Qed.

(** Room for two more tables. *)
Definition next_room (e : Engine) : Prop := (e_nextSST e + 2 < two64)%N.

Lemma insert_entry_nonempty x es : insert_entry x es <> [].
Proof. destruct es as [|f es]; simpl; [done|]. by repeat case_match. Qed.

Lemma inserts_snoc es xs x : inserts es (xs ++ [x]) = insert_entry x (inserts es xs).
Proof. by rewrite foldl_app. Qed.

Lemma inserts_nil ws : inserts [] ws = [] -> ws = [].
Proof.
  destruct ws as [|x ws _] using rev_ind; [done|]. rewrite inserts_snoc.
  by intros H%insert_entry_nonempty.
Qed.

Lemma flush_no_fault e hist b :
  run_ok e hist b -> next_room e ->
  exists e', flushLocked e = Some (None, e') /\ run_ok e' hist (length hist) /\
    (e_nextSST e' <= e_nextSST e + 2)%N /\ e_syncWAL e' = e_syncWAL e.
Proof using Hwal Hcost.
  intros (ess & seqs & w & ps & qs & ws0 & ws & Hr & Hb) Hn.
  pose proof (run_view _ _ _ _ _ _ _ _ _ Hr) as Hview.
  pose proof Hr as [He Hd Ew Hlog Herr Hh Hrec Hhist Hbase Hsync Hin_ws].
  pose proof He as [Hm Ht Hw Hws]. unfold flushLocked. rewrite (SkipCorrect.entries_spec _ _ Hm). simpl.
  destruct (inserts [] ws) as [|x es'] eqn:Hes.
  { exists e. split; [done|]. split; [|split; [lia|done]]. exists ess, seqs, w, ps, qs, ws0, ws.
    split; [done|]. apply inserts_nil in Hes as ->. by rewrite Hhist, app_nil_r. }
  rewrite <-Hes in *. clear x es' Hes. set (es := inserts [] ws) in *.
  destruct (write_and_open_spec hs hist_fits Hcost e es) as (r & e1 & -> & S & Hwo);
    [done|by eapply mem_inv_sorted|]. simpl.
  destruct r as [er|t]; [by destruct Hwo; apply Hd|]. destruct Hwo as (Htk & Hp & Hdir & Hs1).
  rewrite (ss_wal _ _ S), Ew. simpl. destruct (Close_no_fault w Herr Hh) as (w1 & -> & Hsc).
  set (e2 := set_wal (set_tables e1 (t :: e_tables e1) (e_nextSST e1 +64 1)) (Some w1)).
  assert (e_script e2 = []) as Hs2 by by apply Hs1, Hd. rewrite dir_call_healthy by done.
  rewrite Hsc. cbn [OpenWAL file_call syscall f_closed f_script].
  set (w2 := mkWAL (Bufio.NewWriter (mkFile [] [] [] false)) 0).
  change (mkWAL (Bufio.NewWriter _) _) with w2.
  set (e3 := set_mem (set_wal e2 (Some w2)) Memtable.newMemtable).
  assert (e_nextSST e3 = (e_nextSST e + 1)%N) as Hnext.
  { simpl. rewrite (ss_next _ _ S). apply add64_small. unfold next_room in Hn. lia. }
  assert (eng_inv hs e3 [] (es :: ess)) as Hi3.
  { split; simpl; [apply SkipCorrect.newMemtable_inv| |constructor|by constructor].
    rewrite (ss_tables _ _ S). by constructor. }
  assert (disk_inv e3 (es :: ess) (e_nextSST e :: seqs)) as Hd3.
  { destruct (disk_push _ _ _ Hd). split; [done|..|done|by rewrite Hnext].
    - simpl. rewrite Hdir, (ss_tables _ _ S), (di_dir _ _ _ Hd). unfold dir_of. simpl. by rewrite Hp.
    - simpl. rewrite (ss_tables _ _ S), Hp. f_equal. apply Hd. }
  assert (e_syncWAL e3 = e_syncWAL e) as Hsy by apply (ss_sync _ _ S).
  assert (Hrun : forall e4 ess' seqs', e_wal e4 = e_wal e3 -> e_syncWAL e4 = e_syncWAL e3 ->
            eng_inv hs e4 [] ess' -> disk_inv e4 ess' seqs' -> view ess' = view (es :: ess) -> run_ok e4 hist (length hist)).
  { intros e4 ess' seqs' W4 S4 Hi4 Hd4 Hv4. exists ess', seqs', w2, [], [], hist, [].
    split; [|done]. split; [done|done|by rewrite W4|by split|done|done|done|by rewrite app_nil_r|congruence|done|constructor]. }
  case_bool_decide.
  - destruct (compact_no_fault e3 _ _ _ Hi3 Hd3) as (e4 & seqs' & -> & W4 & S4 & Hi4 & Hd4 & N4).
    { unfold next_ok. rewrite Hnext. unfold next_room in Hn. lia. }
    exists e4. split; [done|]. split; [|split; [lia|congruence]].
    eapply Hrun; [done..|]. by rewrite <-(view_empty_layer [_]), view_compact, view_empty_layer.
  - exists e3. split; [done|]. split; [by eapply Hrun|]. split; [lia|done].
Qed.

Lemma write_no_fault e hist b key value tomb rs :
  run_ok e hist b -> next_room e -> mkEntry key value tomb ∈ hs ->
  exists e', write e key value tomb rs = Some (None, e') /\ run_ok e' (hist ++ [mkEntry key value tomb]) b /\
    (e_nextSST e' <= e_nextSST e + 2)%N /\ e_syncWAL e' = e_syncWAL e.
Proof using Hwal Hcost.
  intros (ess & seqs & w & ps & qs & ws0 & ws & Hr & Hb) Hn Hin. set (x := mkEntry key value tomb) in *.
  pose proof Hr as [He Hd Ew Hlog Herr Hh Hrec Hhist Hbase Hsync Hin_ws].
  pose proof He as [Hm Ht Hw Hws]. unfold write. rewrite Ew. simpl.
  change (encodeWALRecord key value tomb) with (wal_entry x).
  destruct (Append_no_fault w (wal_entry x) Herr Hh) as (w1 & E1 & Hh1 & Herr1). rewrite E1.
  pose proof (Append_inv _ _ _ _ _ _ E1 Hlog) as Hlog1. cbn [set_wal e_syncWAL].
  assert (exists w2 ps' qs', (if e_syncWAL e then Sync w1 else (None, w1)) = (None, w2) /\ wal_inv w2 ps' qs' /\
            Bufio.w_err (buf w2) = None /\ healthy (wal_file w2) /\ ps' ++ qs' = wal_entry <$> ws ++ [x] /\
            (e_syncWAL e = true -> qs' = [])) as (w2 & ps' & qs' & -> & Hlog2 & Herr2 & Hh2 & Hrec2 & Hsync2).
  { destruct (e_syncWAL e).
    - destruct (Sync_no_fault w1 Herr1 Hh1) as (w2 & E2 & Hh2 & Herr2).
      exists w2, (ps ++ qs ++ [wal_entry x]), []. split; [done|].
      split; [by eapply Sync_ok_inv|]. split_and!; [done..| |done].
      by rewrite app_nil_r, (assoc_L (++)), Hrec, fmap_app.
    - exists w1, ps, (qs ++ [wal_entry x]). split_and!; try done. by rewrite (assoc_L (++)), Hrec, fmap_app. }
  destruct (SkipCorrect.put_spec (e_mem e) _ key value tomb rs Hm) as (m & Ep & Hm').
  cbn [set_wal e_mem]. rewrite Ep. cbn [mbind option_bind].
  set (e1 := set_mem _ m). assert (run_ok e1 (hist ++ [x]) b) as Hr1.
  { exists ess, seqs, w2, ps', qs', ws0, (ws ++ [x]).
    split; [|done]. split; simpl; [|by destruct Hd; split|done|done|done|done|done|by rewrite Hhist, (assoc_L (++))|done|done|].
    - rewrite inserts_snoc. split; [done|done|by apply within_insert|done].
    - apply Forall_app. split; [done|]. constructor; [done|constructor]. }
  destruct (_ <=? _)%Z.
  - destruct (flush_no_fault e1 _ _ Hr1 Hn) as (e2 & ? & Hr2 & ? & ?). exists e2.
    split; [done|]. split; [|done]. eapply run_ok_le; [exact Hr2|].
    rewrite length_app, Hhist, length_app. lia.
  - exists e1. split; [done|]. split; [done|]. simpl. split; [lia|done].
Qed.

(** ** Recovery *)

Lemma take_app_both {A} (ps qs : list A) k : ps ++ take k qs = take (length ps + k) (ps ++ qs).
Proof. by rewrite take_app_add. Qed.

(** Opening the directory after a crash rebuilds the tables and the memtable of
    a prefix of the writes since the last flush. *)
Lemma open_after_crash e hist ess seqs w ps qs ws0 ws n opts rnd :
  run_inv e hist ess seqs w ps qs ws0 ws -> next_ok e ->
  exists e' j, OpenEngine (e_dir e) (Some (crash (wal_file w) n)) opts rnd = Ok e' /\
    length ps <= j /\ eng_inv hs e' (inserts [] (take j ws)) ess.
Proof using Hwal.
  intros Hr Hn. pose proof Hr as [He Hd Ew Hlog Herr Hh Hrec Hhist Hbase Hsync Hin_ws].
  pose proof He as [Hm Ht Hw Hws].
  assert (Forall wal_fits ws) as Hf.
  { eapply Forall_impl; [exact Hin_ws|]. intros x. rewrite Forall_forall in Hwal. apply Hwal. }
  unfold OpenEngine. rewrite (sst_names_paths _ _ _ Hd Hn Ht).
  pose proof (disk_NoDup _ _ _ Hd Hn) as Hnd.
  destruct (open_tables_ok (e_dir e) (e_tables e) ess 0 Ht) as [next ->].
  { rewrite (di_dir _ _ _ Hd). by apply dir_of_lookup. }
  cbn [rbind]. rewrite ReplayWAL_records.
  destruct (crash_records w ps qs n Hlog) as [k Hk].
  { rewrite Hrec, Forall_fmap. exact Hf. }
  rewrite Hk, take_app_both, Hrec, <-fmap_take.
  destruct (replay_entries rnd (take (length ps + k) ws) Memtable.newMemtable []) as (m & -> & Hm');
    [by apply Forall_take|apply SkipCorrect.newMemtable_inv|].
  cbn [rbind]. eexists _, (length ps + k). split; [done|]. split; [lia|].
  split; simpl; [done|done| |done].
  assert (forall es xs, within hs es -> within hs xs -> within hs (inserts es xs)) as Hins.
  { intros es xs. revert es. induction xs as [|x xs IH]; intros es H1 H2; [done|]. simpl.
    apply Forall_cons in H2 as [H2 H3]. apply IH; [by apply within_insert|done]. }
  apply Hins; [constructor|]. by apply Forall_take.
Qed.

End history.

(** ** Runs of writes and flushes *)

Definition is_reset (op : eng_op) : bool := match op with DoReset _ _ => true | _ => false end.

Lemma fresh_run_ok hs opts : run_ok hs (fresh opts [] []) [] 0.
Proof.
  exists [], [], (mkWAL (Bufio.NewWriter empty_file) 0), [], [], [], [].
  split; [|done]. split; [apply fresh_inv|by split; try constructor|done|by split|done..|by rewrite view_nil|done|constructor].
Qed.

(** The number of writes before the last Flush of a run. *)
Fixpoint flushed (n b : nat) (ops : list eng_op) : nat :=
  match ops with
  | [] => b
  | DoFlush :: ops => flushed n n ops
  | op :: ops => flushed (n + length (op_entries op)) b ops
  end.

Lemma step_no_fault hs e hist b op :
  Forall wal_fits hs -> (costs hs < budget)%Z -> within hs (op_entries op) -> is_reset op = false ->
  run_ok hs e hist b -> next_room e ->
  exists e', eng_step e op = Some (None, e') /\
    run_ok hs e' (hist ++ op_entries op) (match op with DoFlush => length hist | _ => b end) /\
    (e_nextSST e' <= e_nextSST e + 2)%N /\ e_syncWAL e' = e_syncWAL e.
Proof.
  intros Hf Hc Hop Hnr Hr Hn. destruct op as [k v rs|k rs| |xs absent]; [| | |done]; simpl in *.
  - apply Forall_cons in Hop as [Hop _]. by apply write_no_fault.
  - apply Forall_cons in Hop as [Hop _]. by apply write_no_fault.
  - rewrite app_nil_r. by eapply flush_no_fault.
Qed.

Lemma run_no_fault hs ops e hist b :
  Forall wal_fits hs -> (costs hs < budget)%Z -> Forall (fun op => within hs (op_entries op)) ops ->
  forallb (fun op => negb (is_reset op)) ops = true ->
  run_ok hs e hist b -> (e_nextSST e + 2 * N.of_nat (length ops) + 2 < two64)%N ->
  exists e', eng_run e ops = Some (replicate (length ops) None, e') /\
    run_ok hs e' (hist ++ run_entries ops) (flushed (length hist) b ops) /\ next_ok e' /\ e_syncWAL e' = e_syncWAL e.
Proof.
  intros Hf Hc Hops. revert e hist b. induction Hops as [|op ops Hop Hops IH]; intros e hist b Hnr Hr Hn.
  - exists e. unfold run_entries; simpl. rewrite app_nil_r. simpl in Hn.
    split_and!; [done..| |done]. unfold next_ok. lia.
  - cbn [forallb] in Hnr. apply andb_true_iff in Hnr as [Hnr%negb_true_iff Hnrs]. cbn [length] in Hn.
    destruct (step_no_fault hs e hist b op Hf Hc Hop Hnr Hr) as (e1 & E1 & Hr1 & Hn1 & Hs1); [unfold next_room; lia|].
    destruct (IH e1 _ _ Hnrs Hr1) as (e2 & E2 & Hr2 & Hn2 & Hs2); [lia|].
    exists e2. cbn [eng_run length replicate]. rewrite E1; simpl. rewrite E2; simpl. split; [done|].
    unfold run_entries in *. rewrite fmap_cons. cbn [concat]. rewrite (assoc_L (++)).
    split; [|split; [done|congruence]]. rewrite length_app in Hr2.
    destruct op; [exact Hr2..| |done]. simpl in *. by rewrite Nat.add_0_r in Hr2.
Qed.

(** ** Properties *)

(** C5. Recovery of the engine after a crash between two calls. A new engine, on a
    device that does not fail, runs a list of Puts, Deletes and Flushes (no
    Reset), all of which return nil; the process is killed when no call is
    running, leaving any prefix of the log bytes not yet fsynced. Then OpenEngine
    succeeds and holds exactly the map after some prefix of the writes: all of
    them when SyncWAL is set, and in any case all those made before the last
    Flush. A crash inside a flush or a compaction is outside this statement: see
    [torn_flush_blocks_reopen] and [compaction_resurrects_deleted_key]. *)
Theorem engine_crash_recovery opts ops n opts' rnd :
  Forall wal_fits (run_entries ops) -> (costs (run_entries ops) < budget)%Z ->
  (Z.of_nat (length ops) < budget)%Z -> forallb (fun op => negb (is_reset op)) ops = true ->
  exists e w e' j, eng_run (fresh opts [] []) ops = Some (replicate (length ops) None, e) /\
    e_wal e = Some w /\
    OpenEngine (e_dir e) (Some (crash (wal_file w) n)) opts' rnd = Ok e' /\
    flushed 0 0 ops <= j /\ (SyncWAL opts = true -> length (run_entries ops) <= j) /\
    (forall k, Get e' k = Ok (applies ∅ (take j (run_entries ops)) !! k)) /\
    SnapshotEntries e' = Ok (applies ∅ (take j (run_entries ops))).
Proof.
  intros Hf Hc Hlen Hnr. set (hs := run_entries ops) in *.
  destruct (run_no_fault hs ops (fresh opts [] []) [] 0 Hf Hc) as (e & E & Hr & Hn & Hs);
    [apply run_entries_within|done|apply fresh_run_ok|simpl; unfold budget, two64 in *; lia|].
  destruct Hr as (ess & seqs & w & ps & qs & ws0 & ws & Hr & Hb).
  destruct (open_after_crash hs Hf _ _ _ _ _ _ _ _ _ n opts' rnd Hr Hn) as (e' & j & Ho & Hj & Hi).
  pose proof Hr as [_ _ Ew _ _ _ Hrec Hhist Hbase Hsync _]. simpl in Hhist.
  assert (Hv : view (foldl (fun es x => insert_entry x es) [] (take j ws) :: ess) = applies ∅ (take (length ws0 + j) hs)).
  { rewrite view_inserts, view_empty_layer, Hbase. fold hs in Hhist. rewrite Hhist, take_app_add.
    by rewrite applies_app. }
  exists e, w, e', (length ws0 + j). split_and!; [done..|simpl in Hb; lia| | |].
  - intros Hsy. fold hs in Hhist. rewrite Hhist, length_app.
    rewrite Hsync in Hrec by by rewrite Hs. rewrite app_nil_r in Hrec. apply (f_equal length) in Hrec.
    rewrite length_fmap in Hrec. lia.
  - intros k. rewrite <-Hv. by apply (Get_view hs (hist_fits hs Hf)).
  - rewrite <-Hv. by apply (SnapshotEntries_view hs (hist_fits hs Hf)).
Qed.

(** C39. A torn table blocks the directory: when the write of a flushed table fails
    with fewer than 24 bytes of it on disk, Flush reports the error and keeps its
    log with all the data, but the file stays at its final name, and OpenEngine
    fails on that directory whatever log, options and random heights it is given.
    (A process that dies at that point leaves the same files.) *)
Theorem torn_flush_blocks_reopen e es n script opts wal rnd :
  SkipInv.mem_inv (e_mem e) es -> es <> [] -> n < 24 -> e_script e = Done :: FailAfter n :: script ->
  exists e', Flush e = Some (Some EIO, e') /\ e_wal e' = e_wal e /\
    forall e'', OpenEngine (e_dir e') wal opts rnd <> Ok e''.
Proof.
  intros Hm Hes Hn Hsc. unfold Flush, flushLocked. rewrite (SkipCorrect.entries_spec _ _ Hm). simpl.
  destruct es as [|x es]; [done|]. unfold write_and_open, dir_call. rewrite Hsc. simpl.
  eexists. split; [done|]. split; [done|]. simpl. intros e''. unfold OpenEngine.
  set (d := <[_ := _]> _). set (p := sst_name (e_nextSST e)) in *.
  assert (exists b, d !! p = Some b /\ length b < 24) as (b & Hb & Hlb).
  { eexists. split; [apply lookup_insert_eq|]. rewrite length_take. lia. }
  assert (p ∈ sst_names d) as Hin.
  { unfold sst_names. rewrite merge_sort_Permutation. apply list_elem_of_filter.
    split; [apply sst_name_suffix|]. apply list_elem_of_fmap. exists (p, b). split; [done|].
    by apply elem_of_map_to_list. }
  assert (Hno : forall names next r, p ∈ names -> open_tables d names next <> Ok r).
  { clear Hin. induction names as [|nm names IH]; intros next r Hin; [by apply not_elem_of_nil in Hin|].
    cbn [open_tables]. destruct (decide (nm = p)) as [->|Hne].
    - rewrite Hb. cbn [from_option id]. unfold openSSTable. by rewrite (proj2 (Z.ltb_lt _ 24)) by lia.
    - destruct (openSSTable nm _); [|done..]. cbn [rbind].
      apply elem_of_cons in Hin as [->|Hin]; [done|].
      destruct (open_tables d names _) eqn:E; [|done..]. by apply IH in E. }
  destruct (open_tables d _ 0) eqn:E; [|done..]. by apply Hno in E.
Qed.

(** The calls of [resurrection_ops]: a key is written and flushed, deleted and
    flushed, then five more flushes bring the seventh table and a compaction. *)
Definition resurrection_ops : list eng_op :=
  [DoPut (str "k") (str "v") []; DoFlush; DoDelete (str "k") []; DoFlush] ++
  concat ((fun x => [DoPut x (str "1") []; DoFlush]) <$> [str "a"; str "b"; str "c"; str "d"; str "e"]).

(** Every call on the directory succeeds but the last: the removal of the
    oldest of the compacted tables. *)
Definition resurrection_script : list outcome := replicate 37 Done ++ [FailAfter 0].

(** What a failing os.Remove does to a compaction, in a run. Compaction drops
    tombstones, removes the old tables newest first and ignores the result of
    os.Remove: every call returns nil and the deleted key is not found, but after
    a reopen the oldest table is read again and the deleted key is back. (A crash
    between the removals leaves the same files.) *)
Theorem compaction_resurrects_deleted_key :
  exists e e', eng_run (fresh (mkOptions 0 true) resurrection_script []) resurrection_ops
                 = Some (replicate 14 None, e) /\
    length (e_tables e) = 1 /\ Get e (str "k") = Ok None /\
    OpenEngine (e_dir e) (wal_file <$> e_wal e) (mkOptions 0 true) (fun _ => []) = Ok e' /\
    Get e' (str "k") = Ok (Some (str "v")).
Proof.
  set (e := snd (default ([], fresh (mkOptions 0 true) [] [])
                  (eng_run (fresh (mkOptions 0 true) resurrection_script []) resurrection_ops))).
  set (e' := match OpenEngine (e_dir e) (wal_file <$> e_wal e) (mkOptions 0 true) (fun _ => []) with
             | Ok e' => e' | _ => e end).
  exists e, e'. split_and!; vm_compute; reflexivity.
Qed.

(** ** Witnesses *)

Definition sample_ops : list eng_op :=
  [DoPut (str "a") (str "1") [0%N]; DoFlush; DoDelete (str "a") []; DoPut (str "b") (str "2") []].

Lemma engine_crash_recovery_witness :
  flushed 0 0 sample_ops = 1 /\
  exists e w e' j, eng_run (fresh (mkOptions 0 false) [] []) sample_ops = Some (replicate 4 None, e) /\
    e_wal e = Some w /\
    OpenEngine (e_dir e) (Some (crash (wal_file w) 3)) (mkOptions 0 true) (fun _ => []) = Ok e' /\
    flushed 0 0 sample_ops <= j /\ (SyncWAL (mkOptions 0 false) = true -> length (run_entries sample_ops) <= j) /\
    (forall k, Get e' k = Ok (applies ∅ (take j (run_entries sample_ops)) !! k)) /\
    SnapshotEntries e' = Ok (applies ∅ (take j (run_entries sample_ops))).
Proof.
  split; [reflexivity|].
  apply (engine_crash_recovery (mkOptions 0 false) sample_ops 3 (mkOptions 0 true) (fun _ => [])).
  - repeat constructor; vm_compute; reflexivity.
  - vm_compute; reflexivity.
  - vm_compute; reflexivity.
  - reflexivity.
Defined.

Definition torn_engine : Engine :=
  mkEngine ∅ [Done; FailAfter 5] None
    (default Memtable.newMemtable (mem_run [mkOp (str "a") (str "1") false []])) [] 0 0 true.

Lemma torn_flush_blocks_reopen_witness :
  exists e', Flush torn_engine = Some (Some EIO, e') /\ e_wal e' = e_wal torn_engine /\
    forall e'', OpenEngine (e_dir e') (Some empty_file) DefaultEngineOptions (fun _ => []) <> Ok e''.
Proof.
  destruct (mem_run_inv [mkOp (str "a") (str "1") false []]) as (m & Em & Hm).
  apply (torn_flush_blocks_reopen torn_engine [mkEntry (str "a") (str "1") false] 5 [] DefaultEngineOptions
           (Some empty_file) (fun _ => [])).
  - unfold torn_engine; cbn [e_mem]. rewrite Em. exact Hm.
  - discriminate.
  - lia.
  - reflexivity.
Defined.
