(* ===== verification/Messages.v ===== *)
(** proto/raftpb: the messages the nodes exchange and keep in their logs. An
    enum of proto3 is open, so its values are integers with named constants; a
    message field that may be nil is an option. *)

From S2P Require Import Prelude Bytes GoIO.

(** type EntryType int32 *)
Abbreviation EntryType := Z (only parsing).
Definition ENTRY_NORMAL : EntryType := 0.
Definition ENTRY_CONF_CHANGE : EntryType := 1.

(** type ConfChangeType int32 *)
Abbreviation ConfChangeType := Z (only parsing).
Definition CONF_CHANGE_ADD_NODE : ConfChangeType := 0.
Definition CONF_CHANGE_REMOVE_NODE : ConfChangeType := 1.
Definition CONF_CHANGE_LEAVE_JOINT : ConfChangeType := 2.

Record ConfChange := mkConfChange {
  cc_Type : ConfChangeType;
  cc_NodeId : N;
  cc_Context : bytes
}.

Record Entry := mkLogEntry {
  en_Term : N;
  en_Index : N;
  en_Data : bytes;
  en_Type : EntryType;
  en_ConfChange : option ConfChange
}.

Record RequestVoteRequest := mkVoteReq {
  rv_Term : N;
  rv_CandidateId : N;
  rv_LastLogIndex : N;
  rv_LastLogTerm : N
}.

Record RequestVoteResponse := mkVoteResp {
  rvr_Term : N;
  rvr_VoteGranted : bool
}.

Record AppendEntriesRequest := mkAppendReq {
  ae_Term : N;
  ae_LeaderId : N;
  ae_PrevLogIndex : N;
  ae_PrevLogTerm : N;
  ae_Entries : list Entry;
  ae_LeaderCommit : N
}.

Record AppendEntriesResponse := mkAppendResp {
  aer_Term : N;
  aer_Success : bool;
  aer_ConflictIndex : N;
  aer_ConflictTerm : N
}.

Record InstallSnapshotRequest := mkSnapReq {
  is_Term : N;
  is_LeaderId : N;
  is_LastIncludedIndex : N;
  is_LastIncludedTerm : N;
  is_Data : bytes;
  is_ConfState : bytes
}.

Record InstallSnapshotResponse := mkSnapResp {
  isr_Term : N
}.

Record ReadIndexRequest := mkReadReq {
  ri_Term : N;
  ri_LeaderId : N
}.

Record ReadIndexResponse := mkReadResp {
  rir_Term : N;
  rir_Ack : bool
}.

#[global] Instance ConfChange_eq_dec : EqDecision ConfChange.
Proof. solve_decision. Defined.

#[global] Instance Entry_eq_dec : EqDecision Entry.
Proof. solve_decision. Defined.
