(* ===== verification/ConfState.v ===== *)
(** raft/confstate.go: the membership of the cluster, joint consensus, the
    quorums it asks for, and its encoding. *)

From S2P Require Import Prelude Bytes GoIO Messages.

(** A map[uint64]struct{} used as a set; nil and the empty map are both empty. *)
Abbreviation idset := (gset N).

(** type ConfState struct *)
Record ConfState := mkConf {
  Voters : idset;
  Joint : idset
}.

#[global] Instance ConfState_eq_dec : EqDecision ConfState.
Proof. solve_decision. Defined.

(** raft/confstate_errors.go *)
Definition ErrConfChangeInProgress : error := Errorf (str "config change already in progress").
Definition ErrNotInJoint : error := Errorf (str "not in joint config").
Definition ErrUnknownMember : error := Errorf (str "unknown member").
Definition ErrQuorumLoss : error := Errorf (str "config change would break quorum").
Definition ErrInvalidConfChange : error := Errorf (str "invalid config change").
Definition ErrInvalidConfState : error := Errorf (str "invalid persisted config state").

Definition NewConfState (ids : list N) : ConfState := mkConf (list_to_set ids) ∅.

(** len(c.Joint) > 0 *)
Definition InJoint (c : ConfState) : bool := bool_decide (0 < size (Joint c)).

Definition sortedKeys (m : idset) : list N := merge_sort N.le (elements m).

Definition VoterIDs (c : ConfState) : list N := sortedKeys (Voters c).
Definition JointIDs (c : ConfState) : list N := sortedKeys (Joint c).

(** The servers that receive replication RPCs, as a set. *)
Definition AllPeers (c : ConfState) : idset :=
  if InJoint c then Voters c ∪ Joint c else Voters c.

Definition AllPeerIDs (c : ConfState) : list N :=
  if negb (InJoint c) then VoterIDs c else sortedKeys (AllPeers c).

Definition Contains (c : ConfState) (id : N) : bool := bool_decide (id ∈ Voters c).

Definition majority (n : nat) : nat := n / 2 + 1.

Definition HasVoteQuorum (c : ConfState) (voteCount : nat) : bool :=
  if negb (InJoint c) then bool_decide (majority (size (Voters c)) <= voteCount)
  else bool_decide (majority (size (Joint c)) <= voteCount) &&
       bool_decide (majority (size (Voters c)) <= voteCount).

(** m[id] of a map[uint64]uint64: 0 when absent. *)
Definition match_of (matchIndex : gmap N N) (id : N) : N := default 0%N (matchIndex !! id).

Definition countGE (ids : list N) (matchIndex : gmap N N) (idx : N) : nat :=
  length (filter (fun id => (idx <= match_of matchIndex id)%N) ids).

Definition canCommit (c : ConfState) (idx : N) (matchIndex : gmap N N) : bool :=
  if negb (InJoint c) then
    bool_decide (majority (size (Voters c)) <= countGE (VoterIDs c) matchIndex idx)
  else
    bool_decide (majority (size (Joint c)) <= countGE (JointIDs c) matchIndex idx) &&
    bool_decide (majority (size (Voters c)) <= countGE (VoterIDs c) matchIndex idx).

(** The loop of MaxCommitIndex over the values, highest first. *)
Fixpoint first_commit (c : ConfState) (matchIndex : gmap N N) (vals : list N) : N :=
  match vals with
  | [] => 0
  | idx :: vals =>
      if (idx =? 0)%N then first_commit c matchIndex vals
      else if canCommit c idx matchIndex then idx
      else first_commit c matchIndex vals
  end.

Definition N_ge (a b : N) : Prop := (b <= a)%N.

#[global] Instance N_ge_dec : RelDecision N_ge.
Proof. intros a b. unfold N_ge. apply _. Defined.

Definition MaxCommitIndex (c : ConfState) (matchIndex : gmap N N) : N :=
  match AllPeerIDs c with
  | [] => 0
  | ids => first_commit c matchIndex (merge_sort N_ge (match_of matchIndex <$> ids))
  end.

(** ApplyConfChange. A clone of an empty set is nil, and adding to it panics. *)
Definition ApplyConfChange (c : ConfState) (cc : ConfChange) : result ConfState :=
  if (cc_Type cc =? CONF_CHANGE_ADD_NODE)%Z then
    if InJoint c then Err ErrConfChangeInProgress
    else if bool_decide (size (Voters c) = 0) then Panic
    else Ok (mkConf ({[cc_NodeId cc]} ∪ Voters c) (Voters c))
  else if (cc_Type cc =? CONF_CHANGE_REMOVE_NODE)%Z then
    if InJoint c then Err ErrConfChangeInProgress
    else if negb (Contains c (cc_NodeId cc)) then Err ErrUnknownMember
    else if bool_decide (size (Voters c) <= 1) then Err ErrQuorumLoss
    else Ok (mkConf (Voters c ∖ {[cc_NodeId cc]}) (Voters c))
  else if (cc_Type cc =? CONF_CHANGE_LEAVE_JOINT)%Z then
    if negb (InJoint c) then Err ErrNotInJoint
    else Ok (mkConf (Voters c) ∅)
  else Err ErrInvalidConfChange.

(** ** Encoding *)

Definition encodeConfState (c : ConfState) : bytes :=
  let voters := VoterIDs c in
  let joint := JointIDs c in
  PutUint32 (len voters) ++ concat (PutUint64 <$> voters) ++
  PutUint32 (len joint) ++ concat (PutUint64 <$> joint).

(** The loops of decodeConfState: [n] ids from the head of [buf]. *)
Fixpoint read_ids (n : nat) (buf : bytes) : list N :=
  match n with
  | O => []
  | S n => Uint64 buf :: read_ids n (drop 8 buf)
  end.

Definition decodeConfState (buf : bytes) : result ConfState :=
  if (len buf <? 4)%N then Ok (mkConf ∅ ∅)
  else
    let nv := Uint32 buf in
    let r := drop 4 buf in
    if (len r <? nv * 8)%N then Err ErrInvalidConfState
    else
      let voters := list_to_set (read_ids (N.to_nat nv) r) in
      let r := drop (N.to_nat (nv * 8)) r in
      if (len r <? 4)%N then Ok (mkConf voters ∅)
      else
        let nj := Uint32 r in
        let r := drop 4 r in
        if (len r <? nj * 8)%N then Err ErrInvalidConfState
        else Ok (mkConf voters (list_to_set (read_ids (N.to_nat nj) r))).

(** ** The encoding is read back *)

Definition ids_fit (m : idset) : Prop := set_Forall (fun id => (id < two64)%N) m /\ (N.of_nat (size m) < two32)%N.

Lemma sortedKeys_perm m : sortedKeys m ≡ₚ elements m.
Proof. apply merge_sort_Permutation. Qed.

Lemma elem_of_sortedKeys m id : id ∈ sortedKeys m <-> id ∈ m.
Proof. by rewrite sortedKeys_perm, elem_of_elements. Qed.

Lemma length_sortedKeys m : length (sortedKeys m) = size m.
Proof. by rewrite sortedKeys_perm. Qed.

Lemma list_to_set_sortedKeys m : list_to_set (sortedKeys m) = m.
Proof. apply set_eq. intros x. by rewrite elem_of_list_to_set, elem_of_sortedKeys. Qed.

Lemma read_ids_encode ids rest :
  Forall (fun id => id < two64)%N ids -> read_ids (length ids) (concat (PutUint64 <$> ids) ++ rest) = ids.
Proof.
  induction 1 as [|id ids Hid Hids IH]; [done|]. rewrite fmap_cons. cbn [length read_ids concat].
  rewrite <-(assoc_L (++)), LittleEndian.Uint64_Put by done.
  rewrite drop_app_length' by by rewrite LittleEndian.length_PutUint64. by rewrite IH.
Qed.

Lemma length_ids ids : length (concat (PutUint64 <$> ids)) = length ids * 8.
Proof.
  induction ids as [|id ids IH]; [done|]. rewrite fmap_cons. cbn [concat length].
  rewrite length_app, IH, LittleEndian.length_PutUint64. lia.
Qed.

(** The ids of one set, with their count, behind which [rest] follows. *)
Lemma read_set m rest :
  ids_fit m ->
  Uint32 (PutUint32 (len (sortedKeys m)) ++ concat (PutUint64 <$> sortedKeys m) ++ rest) = len (sortedKeys m) /\
  read_ids (N.to_nat (len (sortedKeys m))) (concat (PutUint64 <$> sortedKeys m) ++ rest) = sortedKeys m /\
  drop (N.to_nat (len (sortedKeys m) * 8)) (concat (PutUint64 <$> sortedKeys m) ++ rest) = rest.
Proof.
  intros [Hall Hsz]. split_and!.
  - apply LittleEndian.Uint32_Put. unfold len. by rewrite length_sortedKeys.
  - unfold len. rewrite Nat2N.id. apply read_ids_encode. apply Forall_forall.
    intros x Hx. apply Hall. by apply elem_of_sortedKeys.
  - apply drop_app_length'. rewrite length_ids. unfold len. lia.
Qed.

Lemma decodeConfState_encode c : ids_fit (Voters c) -> ids_fit (Joint c) -> decodeConfState (encodeConfState c) = Ok c.
Proof.
  intros Hv Hj. destruct c as [v j]. unfold decodeConfState, encodeConfState, VoterIDs, JointIDs.
  cbn [Voters Joint] in *.
  destruct (read_set v (PutUint32 (len (sortedKeys j)) ++ concat (PutUint64 <$> sortedKeys j)) Hv) as (-> & Ev & Dv).
  destruct (read_set j [] Hj) as (Ej & Rj & _). rewrite !app_nil_r in Ej, Rj.
  assert (forall n b, (len (PutUint32 n ++ b) <? 4)%N = false) as H4.
  { intros n b. apply N.ltb_ge. rewrite len_app. unfold len at 1. rewrite LittleEndian.length_PutUint32. lia. }
  rewrite H4, drop_app_length' by by rewrite LittleEndian.length_PutUint32.
  rewrite Ev, Dv, H4, Ej, drop_app_length' by by rewrite LittleEndian.length_PutUint32.
  rewrite Rj, !list_to_set_sortedKeys.
  rewrite (proj2 (N.ltb_ge _ _)) by (rewrite len_app; unfold len; rewrite length_ids; lia).
  rewrite (proj2 (N.ltb_ge _ _)) by (unfold len; rewrite length_ids; lia). done.
Qed.

(** ** Counting *)

Lemma countGE_size (m : idset) matchIndex idx :
  countGE (sortedKeys m) matchIndex idx = size (filter (fun id => idx <= match_of matchIndex id)%N m).
Proof.
  unfold countGE. rewrite sortedKeys_perm. unfold size, set_size. simpl.
  apply Permutation_length. apply NoDup_Permutation.
  - apply NoDup_filter, NoDup_elements.
  - apply NoDup_elements.
  - intros x. rewrite list_elem_of_filter, !elem_of_elements, elem_of_filter. done.
Qed.

Lemma InJoint_true c : InJoint c = true <-> Joint c <> ∅.
Proof.
  unfold InJoint. rewrite bool_decide_eq_true. split.
  - intros H E. rewrite E, size_empty in H. lia.
  - intros H. apply Nat.neq_0_lt_0. intros E. apply H. by apply size_empty_inv, leibniz_equiv in E.
Qed.

Lemma InJoint_false c : InJoint c = false <-> Joint c = ∅.
Proof.
  destruct (InJoint c) eqn:E.
  - apply InJoint_true in E. done.
  - split; [|done]. intros _. destruct (decide (Joint c = ∅)) as [|Hne]; [done|].
    by apply InJoint_true in Hne; congruence.
Qed.

Lemma elem_of_AllPeerIDs c id : id ∈ AllPeerIDs c <-> id ∈ AllPeers c.
Proof.
  unfold AllPeerIDs, AllPeers, VoterIDs. destruct (InJoint c); simpl; by rewrite elem_of_sortedKeys.
Qed.

Lemma AllPeers_voters c : Voters c ⊆ AllPeers c.
Proof. unfold AllPeers. destruct (InJoint c); set_solver. Qed.

(** The servers known to have replicated index [idx]. *)
Definition replicated (c : ConfState) (matchIndex : gmap N N) (idx : N) : idset :=
  filter (fun id => idx <= match_of matchIndex id)%N (AllPeers c).

Lemma filter_inter (P : N -> Prop) `{!forall x, Decision (P x)} (A B : idset) :
  A ⊆ B -> filter P B ∩ A = filter P A.
Proof. set_solver. Qed.

Lemma canCommit_spec c idx matchIndex :
  canCommit c idx matchIndex = true <->
  majority (size (Voters c)) <= size (replicated c matchIndex idx ∩ Voters c) /\
  (Joint c <> ∅ -> majority (size (Joint c)) <= size (replicated c matchIndex idx ∩ Joint c)).
Proof.
  unfold canCommit, replicated, VoterIDs, JointIDs. rewrite !countGE_size.
  rewrite !filter_inter by apply AllPeers_voters.
  destruct (InJoint c) eqn:E; simpl.
  - assert (Joint c ⊆ AllPeers c) by (unfold AllPeers; rewrite E; set_solver).
    rewrite !filter_inter by done. apply InJoint_true in E.
    rewrite andb_true_iff, !bool_decide_eq_true. tauto.
  - apply InJoint_false in E. rewrite bool_decide_eq_true. tauto.
Qed.

Lemma replicated_mono c m i j : (i <= j)%N -> replicated c m j ⊆ replicated c m i.
Proof. intros H x. unfold replicated. rewrite !elem_of_filter. intros [? ?]. split; [lia|done]. Qed.

Lemma canCommit_mono c m i j : (i <= j)%N -> canCommit c j m = true -> canCommit c i m = true.
Proof.
  rewrite !canCommit_spec. intros H [H1 H2]. pose proof (replicated_mono c m _ _ H) as Hsub.
  split.
  - etrans; [exact H1|]. apply subseteq_size. set_solver.
  - intros Hj. etrans; [by apply H2|]. apply subseteq_size. set_solver.
Qed.

(** ** MaxCommitIndex is the highest index that can be committed *)

Lemma first_commit_spec c m vals :
  StronglySorted N_ge vals ->
  let r := first_commit c m vals in
  (r = 0%N \/ canCommit c r m = true) /\
  (forall v, v ∈ vals -> v <> 0%N -> canCommit c v m = true -> (v <= r)%N).
Proof.
  induction 1 as [|v vals Hs IH Hall]; simpl.
  - split; [by left|]. by intros v ?%not_elem_of_nil.
  - destruct IH as [IH1 IH2]. destruct (N.eqb_spec v 0) as [->|Hv].
    { split; [done|]. intros u [->|Hu]%elem_of_cons; [done|]. by apply IH2. }
    destruct (canCommit c v m) eqn:E.
    + split; [by right|]. intros u [->|Hu]%elem_of_cons; [lia|]. intros _ _.
      rewrite Forall_forall in Hall. by apply Hall.
    + split; [done|]. intros u [->|Hu]%elem_of_cons; [congruence|]. by apply IH2.
Qed.

#[global] Instance N_ge_total : Total N_ge.
Proof. intros a b. unfold N_ge. lia. Qed.
#[global] Instance N_ge_trans : Transitive N_ge.
Proof. intros a b c. unfold N_ge. lia. Qed.

Definition match_le (m : gmap N N) (a b : N) : Prop := (match_of m a <= match_of m b)%N.

#[global] Instance match_le_trans m : Transitive (match_le m).
Proof. intros a b c. unfold match_le. lia. Qed.
#[global] Instance match_le_dec m a b : Decision (match_le m a b).
Proof. unfold match_le. apply _. Defined.

(** Some server's match index lies at or above a committable index and is
    committable itself: the lowest of those at or above it. *)
Lemma canCommit_value c m i :
  canCommit c i m = true ->
  exists id, id ∈ AllPeers c /\ (i <= match_of m id)%N /\ canCommit c (match_of m id) m = true.
Proof.
  intros H. set (R := replicated c m i).
  assert (exists id, id ∈ R /\ forall id', id' ∈ R -> (match_of m id <= match_of m id')%N) as (id & Hin & Hmin).
  { assert (R <> ∅) as Hne.
    { intros E. pose proof H as [H1 _]%canCommit_spec. fold R in H1. rewrite E in H1.
      rewrite intersection_empty_l_L, size_empty in H1. unfold majority in H1. lia. }
    destruct (minimal_exists_elem_of_L (match_le m) R Hne) as (id & Hin & Hmin).
    exists id. split; [done|]. intros id' Hid'. specialize (Hmin id' Hid'). unfold match_le in Hmin. lia. }
  assert (Hi : (i <= match_of m id)%N /\ id ∈ AllPeers c).
  { by unfold R, replicated in Hin; rewrite elem_of_filter in Hin. }
  exists id. split; [apply Hi|]. split; [apply Hi|]. apply canCommit_spec.
  replace (replicated c m (match_of m id)) with R; [by apply canCommit_spec|].
  apply set_eq. intros x. split; [|apply replicated_mono, Hi].
  intros Hx. unfold replicated. apply elem_of_filter. split; [by apply Hmin|].
  unfold R, replicated in Hx. rewrite elem_of_filter in Hx. apply Hx.
Qed.

Lemma MaxCommitIndex_spec c m :
  (MaxCommitIndex c m = 0%N \/ canCommit c (MaxCommitIndex c m) m = true) /\
  (forall i, canCommit c i m = true -> (i <= MaxCommitIndex c m)%N).
Proof.
  unfold MaxCommitIndex. destruct (AllPeerIDs c) as [|id0 ids] eqn:E.
  - split; [by left|]. intros i (id & Hid & _)%canCommit_value.
    rewrite <-elem_of_AllPeerIDs, E in Hid. by apply not_elem_of_nil in Hid.
  - rewrite <-E. clear id0 ids E. set (vals := merge_sort N_ge _).
    destruct (first_commit_spec c m vals) as [H1 H2]; [apply StronglySorted_merge_sort; apply _|].
    split; [exact H1|]. intros i Hc. destruct (N.eq_dec i 0%N) as [->|Hi]; [lia|].
    destruct (canCommit_value c m i Hc) as (id & Hid & Hle & Hcan).
    etrans; [exact Hle|]. apply H2; [|lia|done]. unfold vals. rewrite merge_sort_Permutation.
    apply list_elem_of_fmap. exists id. split; [done|]. by apply elem_of_AllPeerIDs.
Qed.

(** ** Quorums of neighbouring memberships *)

(** [B] is [A], or [A] and one more server. *)
Definition grows (A B : idset) : Prop := A ⊆ B /\ size B <= S (size A).

(** What every membership the cluster goes through satisfies. *)
Definition conf_ok (c : ConfState) : Prop :=
  Voters c <> ∅ /\ (Joint c = ∅ \/ grows (Joint c) (Voters c) \/ grows (Voters c) (Joint c)).

Lemma size_insert_le (x : N) (A : idset) : size ({[x]} ∪ A) <= S (size A).
Proof.
  rewrite union_comm_L, size_union_alt.
  pose proof (subseteq_size ({[x]} ∖ A) {[x]} ltac:(set_solver)) as H. rewrite size_singleton in H. lia.
Qed.

Lemma grows_add x A : grows A ({[x]} ∪ A).
Proof. split; [set_solver|apply size_insert_le]. Qed.

Lemma grows_remove x A : grows (A ∖ {[x]}) A.
Proof.
  split; [set_solver|]. etrans; [|apply (size_insert_le x)]. apply subseteq_size.
  intros y Hy. destruct (decide (y = x)); set_solver.
Qed.

Lemma ApplyConfChange_ok c cc c' : ApplyConfChange c cc = Ok c' -> conf_ok c -> conf_ok c'.
Proof.
  unfold ApplyConfChange. intros H [Hne _].
  destruct (_ =? _)%Z.
  { destruct (InJoint c); [done|]. case_bool_decide; [done|]. injection H as <-. split; simpl; [set_solver|].
    right; left. apply grows_add. }
  destruct (_ =? _)%Z.
  { destruct (InJoint c); [done|]. destruct (negb _); [done|]. case_bool_decide as Hs; [done|].
    injection H as <-. split; simpl; [|right; right; apply grows_remove].
    intros E. apply Hs. transitivity (size (Voters c ∖ {[cc_NodeId cc]}) + 1).
    - pose proof (grows_remove (cc_NodeId cc) (Voters c)) as [_ ?]. lia.
    - by rewrite E, size_empty. }
  destruct (_ =? _)%Z; [|done]. destruct (negb _); [done|]. injection H as <-. split; [done|by left].
Qed.

(** The memberships the cluster reaches from its bootstrap configuration. *)
Inductive conf_reach (ids : list N) : ConfState -> Prop :=
  | reach_new : conf_reach ids (NewConfState ids)
  | reach_apply c cc c' : conf_reach ids c -> ApplyConfChange c cc = Ok c' -> conf_reach ids c'.

Lemma conf_reach_ok ids c : ids <> [] -> conf_reach ids c -> conf_ok c.
Proof.
  intros Hne. induction 1 as [|c cc c' Hc IH Ha].
  - split; simpl; [|by left]. destruct ids as [|x ids]; [done|]. simpl. set_solver.
  - by eapply ApplyConfChange_ok.
Qed.

(** [S]: the servers whose votes elect a leader, each counted once. *)
Definition elects (c : ConfState) (S : idset) : Prop := S ⊆ AllPeers c /\ HasVoteQuorum c (size S) = true.

(** [S]: the servers behind an index that may be committed. *)
Definition commits (c : ConfState) (S : idset) : Prop :=
  exists matchIndex idx, canCommit c idx matchIndex = true /\ S = replicated c matchIndex idx.

(** Both kinds hold a majority of all the peers. *)
Definition quorum (c : ConfState) (S : idset) : Prop :=
  S ⊆ AllPeers c /\ majority (size (AllPeers c)) <= size S.

Lemma AllPeers_grows c :
  conf_ok c -> AllPeers c = Voters c \/ Joint c <> ∅ /\ AllPeers c = Joint c.
Proof.
  intros [_ Hc]. unfold AllPeers. destruct (InJoint c) eqn:E; [|by left].
  apply InJoint_true in E. destruct Hc as [?|[[Hs _]|[Hs _]]]; [done|left; set_solver|right; set_solver].
Qed.

Lemma elects_quorum c S : conf_ok c -> elects c S -> quorum c S.
Proof.
  intros Hc [Hs Hq]. split; [done|]. unfold HasVoteQuorum in Hq.
  destruct (InJoint c) eqn:E; simpl in Hq.
  - apply andb_true_iff in Hq as [H1%bool_decide_eq_true H2%bool_decide_eq_true].
    destruct (AllPeers_grows c Hc) as [->|[_ ->]]; done.
  - apply bool_decide_eq_true in Hq. unfold AllPeers. by rewrite E.
Qed.

Lemma commits_quorum c S : conf_ok c -> commits c S -> quorum c S.
Proof.
  intros Hc (m & idx & [H1 H2]%canCommit_spec & ->).
  assert (replicated c m idx ⊆ AllPeers c) as Hs by (unfold replicated; set_solver).
  split; [done|]. destruct (AllPeers_grows c Hc) as [E|[Hj E]]; rewrite E.
  - etrans; [exact H1|]. apply subseteq_size. set_solver.
  - etrans; [by apply H2|]. apply subseteq_size. set_solver.
Qed.

Lemma majorities_intersect (U S1 S2 : idset) :
  S1 ⊆ U -> S2 ⊆ U -> size U < size S1 + size S2 -> exists x, x ∈ S1 /\ x ∈ S2.
Proof.
  intros H1 H2 Hlt. destruct (set_choose_or_empty (S1 ∩ S2)) as [[x Hx]|He]; [set_solver|].
  pose proof (size_union S1 S2 ltac:(set_solver)). pose proof (subseteq_size (S1 ∪ S2) U ltac:(set_solver)). lia.
Qed.

Lemma majority_sum n : n < 2 * majority n /\ S n < majority n + majority (S n).
Proof.
  unfold majority. pose proof (Nat.div_mod n 2 ltac:(lia)). pose proof (Nat.mod_upper_bound n 2 ltac:(lia)).
  pose proof (Nat.div_mod (S n) 2 ltac:(lia)). pose proof (Nat.mod_upper_bound (S n) 2 ltac:(lia)). lia.
Qed.

Lemma quorums_intersect c c' S S' :
  grows (AllPeers c) (AllPeers c') -> quorum c S -> quorum c' S' -> exists x, x ∈ S /\ x ∈ S'.
Proof.
  intros [Hsub Hsz] [H1 H2] [H3 H4]. pose proof (subseteq_size _ _ Hsub).
  apply (majorities_intersect (AllPeers c')); [set_solver|done|].
  assert (size (AllPeers c') = size (AllPeers c) \/ size (AllPeers c') = Datatypes.S (size (AllPeers c))) as [E|E] by lia;
    rewrite E in *; pose proof (majority_sum (size (AllPeers c))); lia.
Qed.

Lemma grows_refl A : grows A A.
Proof. split; [done|lia]. Qed.

Lemma apply_grows c cc c' :
  conf_ok c -> ApplyConfChange c cc = Ok c' ->
  grows (AllPeers c) (AllPeers c') \/ grows (AllPeers c') (AllPeers c).
Proof.
  intros Hok H. unfold ApplyConfChange in H.
  assert (Hnj : InJoint c = false -> AllPeers c = Voters c) by (unfold AllPeers; by intros ->).
  assert (Hj : forall V, AllPeers (mkConf V (Voters c)) = V ∪ Voters c).
  { intros V. unfold AllPeers. rewrite (proj2 (InJoint_true _)); [done|]. apply Hok. }
  destruct (_ =? _)%Z.
  { destruct (InJoint c) eqn:E; [done|]. case_bool_decide; [done|]. injection H as <-. left.
    rewrite Hnj, Hj by done.
    replace ({[cc_NodeId cc]} ∪ Voters c ∪ Voters c) with ({[cc_NodeId cc]} ∪ Voters c) by set_solver. apply grows_add. }
  destruct (_ =? _)%Z.
  { destruct (InJoint c) eqn:E; [done|]. destruct (negb _); [done|]. case_bool_decide; [done|].
    injection H as <-. left. rewrite Hnj, Hj by done.
    replace (Voters c ∖ _ ∪ Voters c) with (Voters c) by set_solver. apply grows_refl. }
  destruct (_ =? _)%Z; [|done]. destruct (negb _) eqn:E; [done|]. injection H as <-. right.
  assert (AllPeers (mkConf (Voters c) ∅) = Voters c) as -> by done.
  destruct (AllPeers_grows c Hok) as [->|[Hne EJ]]; [apply grows_refl|].
  pose proof (AllPeers_voters c) as Hv. rewrite EJ in *. split; [done|].
  destruct Hok as [_ [?|[[Hs _]|[_ Hz]]]]; [done| |done]. apply subseteq_size in Hs. lia.
Qed.

(** ** Properties *)

(** C15. Quorum intersection across membership changes: take a membership the
    cluster reaches from a non-empty bootstrap configuration and a neighbour
    of it (itself, or before or after one ApplyConfChange). Any set of servers
    behind an election or a commit in the one and any set that elects a leader
    in the other have a server in common, although HasVoteQuorum only compares
    a vote count with the two majorities of a joint membership. *)
Theorem neighbour_quorums_intersect ids c cc c' S S' :
  ids <> [] -> conf_reach ids c ->
  c' = c \/ ApplyConfChange c cc = Ok c' ->
  elects c S \/ commits c S -> elects c' S' \/ commits c' S' ->
  exists id, id ∈ S /\ id ∈ S'.
Proof.
  intros Hne Hr Hstep HS HS'. pose proof (conf_reach_ok ids c Hne Hr) as Hok.
  assert (conf_ok c') as Hok' by (destruct Hstep as [->|Ha]; [done|by eapply ApplyConfChange_ok]).
  assert (quorum c S) as HQ by (destruct HS; auto using elects_quorum, commits_quorum).
  assert (quorum c' S') as HQ' by (destruct HS'; auto using elects_quorum, commits_quorum).
  assert (grows (AllPeers c) (AllPeers c') \/ grows (AllPeers c') (AllPeers c)) as [Hg|Hg].
  { destruct Hstep as [->|Ha]; [left; apply grows_refl|by eapply apply_grows]. }
  - by eapply quorums_intersect.
  - destruct (quorums_intersect c' c S' S Hg HQ' HQ) as (id & ? & ?). by exists id.
Qed.

(** C29. MaxCommitIndex is the highest index that canCommit accepts (0 when none
    is accepted), although it only tries the match indexes themselves: the
    result is replicated on the majorities the membership asks for, and no
    higher index is. *)
Theorem max_commit_index_is_greatest c matchIndex :
  (MaxCommitIndex c matchIndex = 0%N \/ canCommit c (MaxCommitIndex c matchIndex) matchIndex = true) /\
  (forall i, canCommit c i matchIndex = true -> (i <= MaxCommitIndex c matchIndex)%N) /\
  (forall i, (0 < i <= MaxCommitIndex c matchIndex)%N -> canCommit c i matchIndex = true).
Proof.
  destruct (MaxCommitIndex_spec c matchIndex) as [H1 H2]. split_and!; [done..|].
  intros i Hi. destruct H1 as [H1|H1]; [lia|]. eapply canCommit_mono; [|exact H1]. lia.
Qed.

(** A membership whose ids are uint64 and whose sets fit the count fields is
    read back from its encoding, in and out of a joint transition. *)
Theorem conf_state_roundtrip c :
  ids_fit (Voters c) -> ids_fit (Joint c) -> decodeConfState (encodeConfState c) = Ok c.
Proof. apply decodeConfState_encode. Qed.

(** ** Witnesses *)

Definition two_voters : ConfState := NewConfState [1%N; 2%N].
Definition add_three : ConfChange := mkConfChange CONF_CHANGE_ADD_NODE 3 [].
Definition joint_three : ConfState := mkConf {[1%N; 2%N; 3%N]} {[1%N; 2%N]}.

(** Servers 1 and 3 elect in the joint membership without a majority of the old
    one; they still meet every quorum of the old one. *)
Lemma neighbour_quorums_intersect_witness :
  ApplyConfChange two_voters add_three = Ok joint_three /\
  exists id, id ∈ ({[1%N; 2%N]} : idset) /\ id ∈ ({[1%N; 3%N]} : idset).
Proof.
  split; [vm_compute; reflexivity|].
  apply (neighbour_quorums_intersect [1%N; 2%N] two_voters add_three joint_three).
  - discriminate.
  - constructor.
  - right. vm_compute; reflexivity.
  - left. split; [vm_compute; set_solver|vm_compute; reflexivity].
  - left. split; [|vm_compute; reflexivity]. unfold AllPeers. change (InJoint joint_three) with true. set_solver.
Defined.

Lemma conf_state_roundtrip_witness : decodeConfState (encodeConfState joint_three) = Ok joint_three.
Proof.
  apply (conf_state_roundtrip joint_three).
  - split; [|vm_compute; reflexivity]. intros x. cbn. rewrite !elem_of_union, !elem_of_singleton. unfold two64. lia.
  - split; [|vm_compute; reflexivity]. intros x. cbn. rewrite !elem_of_union, !elem_of_singleton. unfold two64. lia.
Defined.
