(* ===== verification/DiskStorage.v ===== *)
(** raft/storage.go: Raft's durable state (term and vote, membership, log and
    snapshot) over the write-ahead log and three snapshot files. *)

From S2P Require Import Prelude Bytes GoIO Wal Messages ConfState.

(** ** State *)

(** The files of the directory other than raft.wal. *)
Record snap_files := mkSnapFiles {
  sf_meta : option bytes;
  sf_bin : option bytes;
  sf_conf : option bytes
}.

(** type diskStorage struct; [ds_files] and [ds_script] stand for the rest of
    its directory and the outcomes of the coming calls on it. A nil s.wal is
    [None]. *)
Record diskStorage := mkStore {
  ds_files : snap_files;
  ds_script : list outcome;
  ds_wal : option WAL;
  ds_term : N;
  ds_votedFor : N;
  ds_dirty : bool;
  ds_conf : ConfState;
  ds_log : list Entry;
  ds_snapIndex : N;
  ds_snapTerm : N;
  ds_snapshot : bytes
}.

Definition set_files (s : diskStorage) (f : snap_files) (script : list outcome) : diskStorage :=
  mkStore f script (ds_wal s) (ds_term s) (ds_votedFor s) (ds_dirty s) (ds_conf s) (ds_log s)
    (ds_snapIndex s) (ds_snapTerm s) (ds_snapshot s).
Definition set_dswal (s : diskStorage) (w : option WAL) : diskStorage :=
  mkStore (ds_files s) (ds_script s) w (ds_term s) (ds_votedFor s) (ds_dirty s) (ds_conf s) (ds_log s)
    (ds_snapIndex s) (ds_snapTerm s) (ds_snapshot s).
Definition set_hard (s : diskStorage) (term votedFor : N) : diskStorage :=
  mkStore (ds_files s) (ds_script s) (ds_wal s) term votedFor (ds_dirty s) (ds_conf s) (ds_log s)
    (ds_snapIndex s) (ds_snapTerm s) (ds_snapshot s).
Definition set_dirty (s : diskStorage) (d : bool) : diskStorage :=
  mkStore (ds_files s) (ds_script s) (ds_wal s) (ds_term s) (ds_votedFor s) d (ds_conf s) (ds_log s)
    (ds_snapIndex s) (ds_snapTerm s) (ds_snapshot s).
Definition set_conf (s : diskStorage) (c : ConfState) : diskStorage :=
  mkStore (ds_files s) (ds_script s) (ds_wal s) (ds_term s) (ds_votedFor s) (ds_dirty s) c (ds_log s)
    (ds_snapIndex s) (ds_snapTerm s) (ds_snapshot s).
Definition set_log (s : diskStorage) (l : list Entry) : diskStorage :=
  mkStore (ds_files s) (ds_script s) (ds_wal s) (ds_term s) (ds_votedFor s) (ds_dirty s) (ds_conf s) l
    (ds_snapIndex s) (ds_snapTerm s) (ds_snapshot s).
Definition set_snap (s : diskStorage) (l : list Entry) (index term : N) (data : bytes) (c : ConfState) : diskStorage :=
  mkStore (ds_files s) (ds_script s) (ds_wal s) (ds_term s) (ds_votedFor s) (ds_dirty s) c l index term data.

Definition recHardState : byte := x01.
Definition recAppend : byte := x02.
Definition recTruncate : byte := x03.
Definition recConfState : byte := x04.

(** Outcome of an operation: its error and the storage; [None] is a panic. *)
Abbreviation ds_outcome := (option (option error * diskStorage)).

(** ** The log in memory *)

Definition firstIndex (s : diskStorage) : N := ds_snapIndex s +64 1.

Definition lastIndex (s : diskStorage) : N :=
  match last (ds_log s) with
  | Some e => en_Index e
  | None => ds_snapIndex s
  end.

(** s.log[index-s.firstIndex()]; [None] when out of range. *)
Definition slot (s : diskStorage) (index : N) : option Entry :=
  if (index <? firstIndex s)%N then None else ds_log s !! N.to_nat (index - firstIndex s).

Definition termAt (s : diskStorage) (index : N) : option (N * bool) :=
  if (index =? ds_snapIndex s)%N then Some (ds_snapTerm s, true)
  else if (index <? firstIndex s)%N || (lastIndex s <? index)%N then Some (0%N, false)
  else e ← slot s index; Some (en_Term e, true).

Definition entriesFrom (s : diskStorage) (lo : N) : option (list Entry) :=
  if (lo <? firstIndex s)%N || (lastIndex s <? lo)%N then Some []
  else
    let n := N.to_nat (lo - firstIndex s) in
    if bool_decide (n <= length (ds_log s)) then Some (drop n (ds_log s)) else None.

Definition entryAt (s : diskStorage) (index : N) : option Entry := slot s index.

(** for len(s.log) > 0 && s.log[len(s.log)-1].Index >= from: drop the last, on
    the reversed log. *)
Fixpoint pop_from (from : N) (rev_log : list Entry) : list Entry :=
  match rev_log with
  | [] => []
  | e :: l => if (from <=? en_Index e)%N then pop_from from l else rev_log
  end.

Definition truncate (from : N) (log : list Entry) : list Entry := reverse (pop_from from (reverse log)).

Section storage.

(** google.golang.org/protobuf/proto: Marshal and Unmarshal of an Entry. *)
Context (Marshal : Entry -> bytes) (Unmarshal : bytes -> option Entry).

(** ** Records *)

Definition hard_record (term votedFor : N) : bytes :=
  recHardState :: PutUint64 term ++ PutUint64 votedFor.

Definition encodeEntry (e : Entry) : bytes :=
  recAppend :: PutUint64 (en_Term e) ++ PutUint64 (en_Index e) ++ Marshal e.

Definition truncate_record (from : N) : bytes := recTruncate :: PutUint64 from.

Definition conf_record (c : ConfState) : bytes := recConfState :: encodeConfState c.

Definition empty_entry : Entry := mkLogEntry 0 0 [] ENTRY_NORMAL None.

Definition decodeEntry (p : bytes) : Entry :=
  if (len p <? 16)%N then empty_entry
  else
    let term := Uint64 p in
    let index := Uint64 (drop 8 p) in
    let body := drop 16 p in
    match Unmarshal body with
    | None => mkLogEntry term index body ENTRY_NORMAL None
    | Some e => mkLogEntry term index (en_Data e) (en_Type e) (en_ConfChange e)
    end.

(** The closure openDiskStorage replays the log with. *)
Definition replay_record (s : diskStorage) (p : bytes) : result diskStorage :=
  match p with
  | [] => Err (Errorf (str "empty raft wal record"))
  | t :: r =>
      if decide (t = recHardState) then
        if (len p <? 17)%N then Panic else Ok (set_hard s (Uint64 r) (Uint64 (drop 8 r)))
      else if decide (t = recAppend) then
        let e := decodeEntry r in
        Ok (if (ds_snapIndex s <? en_Index e)%N then set_log s (ds_log s ++ [e]) else s)
      else if decide (t = recTruncate) then
        if (len p <? 9)%N then Panic else Ok (set_log s (truncate (Uint64 r) (ds_log s)))
      else if decide (t = recConfState) then
        let* cs := decodeConfState r in
        Ok (if bool_decide (0 < size (Voters cs)) then set_conf s cs else s)
      else Err (Errorf (str "unknown raft wal record type"))
  end.

(** The snapshot files, read first. *)
Definition load_snapshot (files : snap_files) (bootstrap : list N) : result diskStorage :=
  let s := mkStore files [] None 0 0 false (NewConfState bootstrap) [] 0 0 [] in
  match sf_meta files with
  | None => Ok s
  | Some meta =>
      if (len meta <? 16)%N then Ok s
      else match sf_bin files with
      | None => Err (Errorf (str "snapshot.meta exists but snapshot.bin unreadable"))
      | Some bin =>
          let s := set_snap s [] (Uint64 meta) (Uint64 (drop 8 meta)) bin (ds_conf s) in
          match sf_conf files with
          | None => Ok s
          | Some b =>
              match decodeConfState b with
              | Ok cs => Ok (if bool_decide (0 < size (Voters cs)) then set_conf s cs else s)
              | _ => Ok s
              end
          end
      end
  end.

(** openDiskStorage: [wal] is the file at raft.wal, if any. *)
Definition openDiskStorage (files : snap_files) (wal : option file) (bootstrap : list N) : result diskStorage :=
  let* s := load_snapshot files bootstrap in
  let path := match wal with None => NotExist | Some f => Opened (contents f) end in
  let* s := ReplayWAL replay_record path s in
  match OpenWAL (default empty_file wal) with
  | (Ok w, _) => Ok (set_dswal s (Some w))
  | (Err er, _) => Err er
  | (Panic, _) => Panic
  end.

(** ** Writing *)

(** s.wal.Append(rec) *)
Definition ds_Append (s : diskStorage) (rec : bytes) : ds_outcome :=
  w ← ds_wal s;
  let '(err, w) := Append w rec in
  Some (err, set_dswal s (Some w)).

(** s.wal.Append(rec), then s.wal.Sync(). *)
Definition append_sync (s : diskStorage) (rec : bytes) : ds_outcome :=
  w ← ds_wal s;
  match Append w rec with
  | (Some er, w) => Some (Some er, set_dswal s (Some w))
  | (None, w) => let '(err, w) := Sync w in Some (err, set_dswal s (Some w))
  end.

Definition setConfState (s : diskStorage) (c : ConfState) : ds_outcome :=
  append_sync (set_conf s c) (conf_record c).

Definition setHardState (s : diskStorage) (term votedFor : N) : ds_outcome :=
  append_sync (set_hard s term votedFor) (hard_record term votedFor).

(** The loop of appendEntries over the entries. *)
Fixpoint append_loop (s : diskStorage) (entries : list Entry) : ds_outcome :=
  match entries with
  | [] => Some (None, s)
  | e :: es =>
      '(err, s) ← ds_Append s (encodeEntry e);
      match err with
      | Some er => Some (Some er, s)
      | None => append_loop (set_log s (ds_log s ++ [e])) es
      end
  end.

Definition appendEntries (s : diskStorage) (entries : list Entry) : ds_outcome :=
  match entries with
  | [] => Some (None, s)
  | e0 :: _ =>
      let first := en_Index e0 in
      '(err, s) ←
        match last (ds_log s) with
        | Some l =>
            if (first <=? en_Index l)%N then
              '(err, s) ← ds_Append s (truncate_record first);
              match err with
              | Some er => Some (Some er, s)
              | None => Some (None, set_log s (truncate first (ds_log s)))
              end
            else Some (None, s)
        | None => Some (None, s)
        end;
      match err with
      | Some er => Some (Some er, s)
      | None =>
          '(err, s) ← append_loop s entries;
          match err with
          | Some er => Some (Some er, s)
          | None => Some (None, set_dirty s true)
          end
      end
  end.

Definition sync (s : diskStorage) : ds_outcome :=
  if negb (ds_dirty s) then Some (None, s)
  else
    w ← ds_wal s;
    match Sync w with
    | (Some er, w) => Some (Some er, set_dswal s (Some w))
    | (None, w) => Some (None, set_dirty (set_dswal s (Some w)) false)
    end.

(** ** Snapshots *)

(** atomicWrite: five calls (open, write, fsync, close, rename), the outcome of
    the first that fails; the path has its old contents until the rename. *)
Definition atomicWrite (o : outcome) (old : option bytes) (data : bytes) : option error * option bytes :=
  match o with
  | Done => (None, Some data)
  | FailAfter _ => (Some EIO, old)
  end.

(** The next outcome for the directory. *)
Definition ds_call (s : diskStorage) : outcome * diskStorage :=
  match ds_script s with
  | [] => (Done, s)
  | o :: r => (o, set_files s (ds_files s) r)
  end.

(** snapshot.bin, snapshot.meta and snapshot.conf, in this order. *)
Definition write_snapshot_files (s : diskStorage) (index term : N) (data : bytes) (conf : ConfState) :
    option error * diskStorage :=
  let '(o, s) := ds_call s in
  let '(err, bin) := atomicWrite o (sf_bin (ds_files s)) data in
  let s := set_files s (mkSnapFiles (sf_meta (ds_files s)) bin (sf_conf (ds_files s))) (ds_script s) in
  match err with
  | Some er => (Some er, s)
  | None =>
      let '(o, s) := ds_call s in
      let '(err, meta) := atomicWrite o (sf_meta (ds_files s)) (PutUint64 index ++ PutUint64 term) in
      let s := set_files s (mkSnapFiles meta (sf_bin (ds_files s)) (sf_conf (ds_files s))) (ds_script s) in
      match err with
      | Some er => (Some er, s)
      | None =>
          let '(o, s) := ds_call s in
          let '(err, cf) := atomicWrite o (sf_conf (ds_files s)) (encodeConfState conf) in
          (err, set_files s (mkSnapFiles (sf_meta (ds_files s)) (sf_bin (ds_files s)) cf) (ds_script s))
      end
  end.

(** nw.Append of each record, stopping at the first error. *)
Fixpoint append_all (w : WAL) (recs : list bytes) : option error * WAL :=
  match recs with
  | [] => (None, w)
  | r :: rs =>
      match Append w r with
      | (Some er, w) => (Some er, w)
      | (None, w) => append_all w rs
      end
  end.

(** The records of the rewritten log. *)
Definition rewrite_records (s : diskStorage) (conf : ConfState) : list bytes :=
  hard_record (ds_term s) (ds_votedFor s) :: conf_record conf :: (encodeEntry <$> ds_log s).

(** saveSnapshot; [tscript] answers the calls on raft.wal.tmp. *)
Definition saveSnapshot (s : diskStorage) (index term : N) (data : bytes) (conf : ConfState)
    (tscript : list outcome) : ds_outcome :=
  if (index <=? ds_snapIndex s)%N then Some (None, s)
  else
    match write_snapshot_files s index term data conf with
    | (Some er, s) => Some (Some er, s)
    | (None, s) =>
        let kept := filter (fun e => index < en_Index e)%N (ds_log s) in
        let s := set_snap s kept index term data conf in
        match OpenWAL (mkFile [] [] tscript false) with
        | (Panic, _) => None
        | (Err er, _) => Some (Some er, s)
        | (Ok nw, _) =>
            match append_all nw (rewrite_records s conf) with
            | (Some er, _) => Some (Some er, s)
            | (None, nw) =>
                match Close nw with
                | (Some er, _) => Some (Some er, s)
                | (None, nw) =>
                    w ← ds_wal s;
                    let '(err, w) := Close w in
                    let s := set_dswal s (Some w) in
                    match err with
                    | Some er => Some (Some er, s)
                    | None =>
                        match ds_call s with
                        | (FailAfter _, s) => Some (Some EIO, s)
                        | (Done, s) =>
                            match OpenWAL (reopen (wal_file nw)) with
                            | (Ok w, _) => Some (None, set_dirty (set_dswal s (Some w)) false)
                            | (Err er, _) => Some (Some er, set_dirty (set_dswal s None) false)
                            | (Panic, _) => None
                            end
                        end
                    end
                end
            end
        end
    end.

Definition ds_close (s : diskStorage) : ds_outcome :=
  w ← ds_wal s;
  let '(err, w) := Close w in
  Some (err, set_dswal s (Some w)).

End storage.
