(* ===== verification/StorageCorrect.v ===== *)
(** raft/storage.go: the log in memory is contiguous and indexed correctly, and
    the state on disk replays as the state in memory. *)

From S2P Require Import Prelude Bytes GoIO Wal Messages ConfState DiskStorage.

(** ** The log in memory *)

(** Contiguous indexes from snapIndex+1, none close to 2^64. *)
Record log_wf (s : diskStorage) : Prop := {
  lw_index : forall i e, ds_log s !! i = Some e -> en_Index e = (ds_snapIndex s + 1 + N.of_nat i)%N;
  lw_bound : (ds_snapIndex s + len (ds_log s) + 1 < two64)%N
}.

(** The index after the last one. *)
Definition log_end (s : diskStorage) : N := (ds_snapIndex s + 1 + len (ds_log s))%N.

(** The term at an index: the snapshot's last, or an entry's. *)
Definition term_of (s : diskStorage) (i : N) : option N :=
  if (i =? ds_snapIndex s)%N then Some (ds_snapTerm s)
  else if (i <? ds_snapIndex s)%N then None
  else en_Term <$> ds_log s !! N.to_nat (i - ds_snapIndex s - 1).

(** The entry at an index. *)
Definition entry_of (s : diskStorage) (i : N) : option Entry :=
  if (i <=? ds_snapIndex s)%N then None else ds_log s !! N.to_nat (i - ds_snapIndex s - 1).

Section wf.
Context (s : diskStorage) (Hwf : log_wf s).

Lemma firstIndex_wf : firstIndex s = (ds_snapIndex s + 1)%N.
Proof using Hwf. apply add64_small. pose proof (lw_bound s Hwf). lia. Qed.

Lemma lastIndex_wf : lastIndex s = (log_end s - 1)%N.
Proof using Hwf.
  unfold lastIndex, log_end. destruct (last (ds_log s)) as [e|] eqn:E.
  - rewrite last_lookup in E. pose proof (lookup_lt_Some _ _ _ E) as Hlt.
    apply (lw_index s Hwf) in E as ->. unfold len. lia.
  - apply last_None in E. rewrite E. unfold len. simpl. lia.
Qed.

Lemma slot_wf i : slot s i = entry_of s i.
Proof using Hwf.
  unfold slot, entry_of. rewrite firstIndex_wf.
  destruct (N.ltb_spec i (ds_snapIndex s + 1)), (N.leb_spec i (ds_snapIndex s)); [done|lia|lia|].
  do 2 f_equal. lia.
Qed.

Lemma entry_of_Some i : (ds_snapIndex s < i < log_end s)%N -> exists e, entry_of s i = Some e /\ en_Index e = i.
Proof using Hwf.
  intros Hi. unfold entry_of. destruct (N.leb_spec i (ds_snapIndex s)); [lia|].
  destruct (lookup_lt_is_Some_2 (ds_log s) (N.to_nat (i - ds_snapIndex s - 1))) as [e He].
  { unfold log_end, len in Hi. lia. }
  exists e. split; [done|]. apply (lw_index s Hwf) in He. lia.
Qed.

Lemma term_of_entry i : (ds_snapIndex s < i)%N -> term_of s i = en_Term <$> entry_of s i.
Proof.
  intros Hi. unfold term_of, entry_of.
  destruct (N.eqb_spec i (ds_snapIndex s)), (N.ltb_spec i (ds_snapIndex s)), (N.leb_spec i (ds_snapIndex s)); lia || done.
Qed.

Lemma term_of_None i : (log_end s <= i)%N -> term_of s i = None.
Proof.
  intros Hi. unfold log_end, len in Hi. unfold term_of.
  destruct (N.eqb_spec i (ds_snapIndex s)), (N.ltb_spec i (ds_snapIndex s)); try lia || done.
  rewrite lookup_ge_None_2; [done|lia].
Qed.

Lemma termAt_wf i :
  termAt s i = Some (match term_of s i with Some t => (t, true) | None => (0%N, false) end).
Proof using Hwf.
  unfold termAt. rewrite slot_wf, firstIndex_wf, lastIndex_wf.
  destruct (N.eqb_spec i (ds_snapIndex s)) as [->|Hne].
  { unfold term_of. by rewrite N.eqb_refl. }
  destruct (N.ltb_spec i (ds_snapIndex s + 1)) as [Hlt|Hge]; simpl.
  { unfold term_of. destruct (N.eqb_spec i (ds_snapIndex s)), (N.ltb_spec i (ds_snapIndex s)); lia || done. }
  destruct (N.ltb_spec (log_end s - 1) i) as [Hgt|Hle].
  { by rewrite term_of_None by lia. }
  destruct (entry_of_Some i) as (e & He & _); [unfold log_end in *; lia|].
  rewrite term_of_entry, He by lia. done.
Qed.

Lemma entriesFrom_wf lo :
  entriesFrom s lo = Some (if (lo <=? ds_snapIndex s)%N then [] else drop (N.to_nat (lo - ds_snapIndex s - 1)) (ds_log s)).
Proof using Hwf.
  unfold entriesFrom. rewrite firstIndex_wf, lastIndex_wf.
  destruct (N.leb_spec lo (ds_snapIndex s)) as [Hl|Hl], (N.ltb_spec lo (ds_snapIndex s + 1)) as [H1|H1]; simpl; try lia; try done.
  destruct (N.ltb_spec (log_end s - 1) lo) as [H2|H2].
  - rewrite drop_ge; [done|]. unfold log_end, len in *. lia.
  - rewrite bool_decide_true by (unfold log_end, len in *; lia). do 2 f_equal. lia.
Qed.

End wf.

(** ** Truncation *)

Lemma pop_from_all from l : Forall (fun e => from <= en_Index e)%N l -> pop_from from l = [].
Proof. induction 1 as [|e l He Hl IH]; simpl; [done|]. by apply N.leb_le in He as ->. Qed.

Lemma pop_from_stop from l1 l2 :
  Forall (fun e => from <= en_Index e)%N l1 -> Forall (fun e => en_Index e < from)%N l2 ->
  pop_from from (l1 ++ l2) = l2.
Proof.
  induction 1 as [|e l He Hl IH]; intros H2; simpl.
  - destruct H2 as [|e l2 He2 _]; [done|]. simpl. by rewrite (proj2 (N.leb_gt _ _)).
  - apply N.leb_le in He as ->. by apply IH.
Qed.

Lemma truncate_wf s from :
  log_wf s -> truncate from (ds_log s) = take (N.to_nat (from - ds_snapIndex s - 1)) (ds_log s).
Proof.
  intros [Hi _]. set (n := N.to_nat _). unfold truncate.
  rewrite <-(take_drop n (ds_log s)) at 1. rewrite reverse_app, pop_from_stop; [apply reverse_involutive|..].
  - apply Forall_reverse, Forall_lookup_2. intros i e He. rewrite lookup_drop in He. apply Hi in He. lia.
  - apply Forall_reverse, Forall_lookup_2. intros i e He. apply lookup_take_Some in He as [He Hlt]. apply Hi in He. lia.
Qed.

Lemma log_wf_take s n : log_wf s -> log_wf (set_log s (take n (ds_log s))).
Proof.
  intros [Hi Hb]. split; simpl.
  - intros i e He. apply lookup_take_Some in He as [He _]. by apply Hi.
  - unfold len in *. rewrite length_take. lia.
Qed.

(** ** Records *)

Inductive wal_rec :=
  | RecHard (term votedFor : N)
  | RecAppend (e : Entry)
  | RecTruncate (from : N)
  | RecConf (c : ConfState).

Definition is_log_rec (r : wal_rec) : bool :=
  match r with RecAppend _ | RecTruncate _ => true | _ => false end.

(** What a record does to the state it is replayed into. *)
Definition apply_rec (s : diskStorage) (r : wal_rec) : diskStorage :=
  match r with
  | RecHard t v => set_hard s t v
  | RecAppend e => if (ds_snapIndex s <? en_Index e)%N then set_log s (ds_log s ++ [e]) else s
  | RecTruncate from => set_log s (truncate from (ds_log s))
  | RecConf c => if bool_decide (0 < size (Voters c)) then set_conf s c else s
  end.

(** The last hard state a sequence of records leaves. *)
Definition rec_hard (h : N * N) (r : wal_rec) : N * N :=
  match r with RecHard t v => (t, v) | _ => h end.
Definition last_hard (h : N * N) (rs : list wal_rec) : N * N := foldl rec_hard h rs.

Lemma set_hard_same s : set_hard s (ds_term s) (ds_votedFor s) = s.
Proof. by destruct s. Qed.

Lemma apply_rec_hard s r :
  (ds_term (apply_rec s r), ds_votedFor (apply_rec s r)) = rec_hard (ds_term s, ds_votedFor s) r.
Proof. destruct r; simpl; by repeat case_match. Qed.

Lemma replay_hard rs s :
  (ds_term (foldl apply_rec s rs), ds_votedFor (foldl apply_rec s rs)) = last_hard (ds_term s, ds_votedFor s) rs.
Proof.
  revert s. induction rs as [|r rs IH]; intros s; [done|]. unfold last_hard in *. simpl.
  by rewrite IH, apply_rec_hard.
Qed.

(** The snapshot's part of the state, which no record changes. *)
Definition snap_part (s : diskStorage) : snap_files * list outcome * option WAL * (N * N * bytes * bool) :=
  (ds_files s, ds_script s, ds_wal s, (ds_snapIndex s, ds_snapTerm s, ds_snapshot s, ds_dirty s)).

Lemma replay_snap rs s : snap_part (foldl apply_rec s rs) = snap_part s.
Proof.
  revert s. induction rs as [|r rs IH]; intros s; [done|]. simpl. rewrite IH.
  destruct r; simpl; by repeat case_match.
Qed.

Lemma replay_snapIndex rs s : ds_snapIndex (foldl apply_rec s rs) = ds_snapIndex s.
Proof. pose proof (replay_snap rs s) as [=]. done. Qed.

Section storage.
Context (Marshal : Entry -> bytes) (Unmarshal : bytes -> option Entry).

(** proto3: what Marshal writes, Unmarshal reads back. *)
Context (Hproto : forall e, Unmarshal (Marshal e) = Some e).

Abbreviation encodeEntry := (encodeEntry Marshal).
Abbreviation replay_record := (replay_record Unmarshal).
Abbreviation openDiskStorage := (openDiskStorage Unmarshal).

Definition encode_rec (r : wal_rec) : bytes :=
  match r with
  | RecHard t v => hard_record t v
  | RecAppend e => encodeEntry e
  | RecTruncate from => truncate_record from
  | RecConf c => conf_record c
  end.

Definition entry_ok (e : Entry) : Prop :=
  (en_Term e < two64)%N /\ (en_Index e < two64)%N /\ fits (encodeEntry e).

(** Membership ids are uint64; the record fits the log. *)
Definition conf_fits (c : ConfState) : Prop :=
  ids_fit (Voters c) /\ ids_fit (Joint c) /\ Voters c <> ∅ /\ fits (conf_record c).

Definition rec_ok (r : wal_rec) : Prop :=
  match r with
  | RecHard t v => (t < two64)%N /\ (v < two64)%N
  | RecAppend e => entry_ok e
  | RecTruncate from => (from < two64)%N
  | RecConf c => conf_fits c
  end.

Lemma length_hard_record t v : length (hard_record t v) = 17.
Proof. unfold hard_record. cbn [length]. by rewrite length_app, !LittleEndian.length_PutUint64. Qed.

Lemma length_truncate_record from : length (truncate_record from) = 9.
Proof. unfold truncate_record. cbn [length]. by rewrite LittleEndian.length_PutUint64. Qed.

Lemma rec_ok_fits r : rec_ok r -> fits (encode_rec r).
Proof.
  destruct r as [t v|e|from|c]; cbn [rec_ok encode_rec].
  - intros _. unfold fits, len. by rewrite length_hard_record.
  - by intros (_ & _ & ?).
  - intros _. unfold fits, len. by rewrite length_truncate_record.
  - by intros (_ & _ & _ & ?).
Qed.

Lemma Uint64_Put_nil v : (v < two64)%N -> Uint64 (PutUint64 v) = v.
Proof. intros H. rewrite <-(app_nil_r (PutUint64 v)). by apply LittleEndian.Uint64_Put. Qed.

Lemma decodeEntry_encode e :
  entry_ok e -> decodeEntry Unmarshal (PutUint64 (en_Term e) ++ PutUint64 (en_Index e) ++ Marshal e) = e.
Proof using Hproto.
  intros (Ht & Hi & _). unfold decodeEntry.
  rewrite (proj2 (N.ltb_ge _ 16)).
  2:{ unfold len. rewrite !length_app, !LittleEndian.length_PutUint64. lia. }
  rewrite LittleEndian.Uint64_Put by done.
  rewrite (drop_app_length' (PutUint64 _) _ 8) by by rewrite LittleEndian.length_PutUint64.
  rewrite LittleEndian.Uint64_Put by done.
  rewrite (assoc_L (++)), drop_app_length' by by rewrite length_app, !LittleEndian.length_PutUint64.
  rewrite Hproto. by destruct e.
Qed.

Lemma conf_size c : Voters c <> ∅ -> 0 < size (Voters c).
Proof.
  intros H. apply Nat.neq_0_lt_0. intros E. apply H. by apply size_empty_inv, leibniz_equiv in E.
Qed.

(** Every record written is replayed as what it records. *)
Lemma replay_record_encode s r : rec_ok r -> replay_record s (encode_rec r) = Ok (apply_rec s r).
Proof using Hproto.
  destruct r as [t v|e|from|c]; cbn [rec_ok encode_rec apply_rec].
  - intros [Ht Hv]. unfold DiskStorage.replay_record, hard_record. rewrite decide_True by done.
    rewrite (proj2 (N.ltb_ge _ 17)).
    2:{ pose proof (length_hard_record t v) as H. unfold hard_record in H. unfold len. rewrite H. done. }
    rewrite LittleEndian.Uint64_Put by done.
    rewrite (drop_app_length' (PutUint64 _) _ 8) by by rewrite LittleEndian.length_PutUint64.
    by rewrite Uint64_Put_nil.
  - intros He. unfold DiskStorage.replay_record, DiskStorage.encodeEntry. rewrite decide_False, decide_True by done.
    by rewrite decodeEntry_encode.
  - intros Hf. unfold DiskStorage.replay_record, truncate_record. rewrite !decide_False, decide_True by done.
    rewrite (proj2 (N.ltb_ge _ 9)).
    2:{ pose proof (length_truncate_record from) as H. unfold truncate_record in H. unfold len. rewrite H. done. }
    by rewrite Uint64_Put_nil.
  - intros (Hv & Hj & Hne & _). unfold DiskStorage.replay_record, conf_record.
    rewrite !decide_False, decide_True by done. rewrite decodeConfState_encode by done. done.
Qed.

Lemma replay_records rs s :
  Forall rec_ok rs -> foldM replay_record s (encode_rec <$> rs) = Ok (foldl apply_rec s rs).
Proof using Hproto.
  intros H. revert s. induction H as [|r rs Hr Hrs IH]; intros s; [done|].
  rewrite fmap_cons. cbn [foldM foldl]. rewrite replay_record_encode by done. cbn [rbind]. apply IH.
Qed.

(** ** Opening after a crash *)

Lemma wal_inv_fits w ps qs rs : wal_inv w ps qs -> ps ++ qs = encode_rec <$> rs -> Forall rec_ok rs -> Forall fits (ps ++ qs).
Proof. intros _ -> H. apply Forall_fmap. eapply Forall_impl; [exact H|]. exact rec_ok_fits. Qed.

Lemma open_crashed files boot base w ps qs rs n :
  load_snapshot files boot = Ok base -> wal_inv w ps qs -> ps ++ qs = encode_rec <$> rs -> Forall rec_ok rs ->
  exists s' j, openDiskStorage files (Some (crash (wal_file w) n)) boot = Ok s' /\ length ps <= j /\
    exists w', s' = set_dswal (foldl apply_rec base (take j rs)) (Some w').
Proof using Hproto.
  intros Hb Hw Hrec Hok. unfold DiskStorage.openDiskStorage. rewrite Hb. cbn [rbind].
  rewrite ReplayWAL_records. destruct (crash_records w ps qs n Hw) as [k ->]; [by eapply wal_inv_fits|].
  assert (ps ++ take k qs = encode_rec <$> take (length ps + k) rs) as ->.
  { by rewrite fmap_take, <-Hrec, take_app_add. }
  rewrite replay_records by by apply Forall_take. cbn [rbind].
  eexists _, (length ps + k). split; [done|]. split; [lia|]. by eexists.
Qed.

(** ** Runs of the storage *)

(** The log on disk: [rs] the records handed to it, the first [k] fsynced. *)
Definition log_has (s : diskStorage) (rs : list wal_rec) (k : nat) : Prop :=
  Forall rec_ok rs /\ k <= length rs /\
  forall w, ds_wal s = Some w ->
    exists ps qs, wal_inv w ps qs /\ ps ++ qs = encode_rec <$> rs /\ k <= length ps.

Lemma log_has_append w ps qs rs r e w' :
  wal_inv w ps qs -> ps ++ qs = encode_rec <$> rs -> Append w (encode_rec r) = (e, w') ->
  wal_inv w' ps (qs ++ [encode_rec r]) /\ ps ++ qs ++ [encode_rec r] = encode_rec <$> rs ++ [r].
Proof.
  intros Hw Hrec Ha. split; [by eapply Append_inv|]. by rewrite (assoc_L (++)), Hrec, fmap_app.
Qed.

Lemma ds_Append_log s rs k r err s' :
  log_has s rs k -> rec_ok r -> ds_Append s (encode_rec r) = Some (err, s') ->
  log_has s' (rs ++ [r]) k /\ exists w, s' = set_dswal s (Some w).
Proof.
  intros (Hok & Hk & Hl) Hr. unfold ds_Append. destruct (ds_wal s) as [w|] eqn:Ew; [|done]. simpl.
  destruct (Append w (encode_rec r)) as [e w1] eqn:Ea. intros [= <- <-].
  destruct (Hl w eq_refl) as (ps & qs & Hw & Hrec & Hkp).
  destruct (log_has_append _ _ _ _ _ _ _ Hw Hrec Ea) as [Hw1 Hrec1].
  split; [|by eexists]. split; [by apply Forall_app; split; [|constructor]|].
  split; [rewrite length_app; lia|]. intros w2 [= <-]. by exists ps, (qs ++ [encode_rec r]).
Qed.

Lemma append_sync_log s rs k r err s' :
  log_has s rs k -> rec_ok r -> append_sync s (encode_rec r) = Some (err, s') ->
  log_has s' (rs ++ [r]) (if err is Some _ then k else length (rs ++ [r])) /\ exists w, s' = set_dswal s (Some w).
Proof.
  intros (Hok & Hk & Hl) Hr. unfold append_sync. destruct (ds_wal s) as [w|] eqn:Ew; [|done]. simpl.
  destruct (Append w (encode_rec r)) as [e w1] eqn:Ea.
  destruct (Hl w eq_refl) as (ps & qs & Hw & Hrec & Hkp).
  destruct (log_has_append _ _ _ _ _ _ _ Hw Hrec Ea) as [Hw1 Hrec1].
  assert (Forall rec_ok (rs ++ [r])) as Hok1 by (by apply Forall_app; split; [|constructor]).
  destruct e as [er|].
  { intros [= <- <-]. split; [|by eexists]. split; [done|]. split; [rewrite length_app; lia|].
    intros w2 [= <-]. by exists ps, (qs ++ [encode_rec r]). }
  destruct (Sync w1) as [err1 w2] eqn:Es. intros [= <- <-]. split; [|by eexists]. split; [done|].
  destruct err1 as [er|].
  - split; [rewrite length_app; lia|]. intros w3 [= <-]. exists ps, (qs ++ [encode_rec r]).
    split; [by eapply Sync_err_inv|done].
  - split; [done|]. intros w3 [= <-]. exists (ps ++ qs ++ [encode_rec r]), [].
    split; [by eapply Sync_ok_inv|]. rewrite app_nil_r. split; [done|].
    apply (f_equal length) in Hrec1. rewrite length_fmap in Hrec1. by rewrite Hrec1.
Qed.

Lemma append_loop_log es s rs k err s' :
  log_has s rs k -> Forall entry_ok es -> append_loop Marshal s es = Some (err, s') ->
  exists xs w l, log_has s' (rs ++ xs) k /\ Forall (fun r => is_log_rec r = true) xs /\
    s' = set_log (set_dswal s w) l /\ (Forall entry_ok (ds_log s) -> Forall entry_ok l) /\
    (err = None -> xs = RecAppend <$> es /\ l = ds_log s ++ es).
Proof.
  intros Hl Hes. revert s rs Hl. induction Hes as [|e es He Hes IH]; intros s rs Hl; cbn [append_loop].
  { intros [= <- <-]. exists [], (ds_wal s), (ds_log s). rewrite !app_nil_r. split_and!; [done..|by destruct s|done|done]. }
  destruct (ds_Append s _) as [[e1 s1]|] eqn:Ea; [|done]. simpl.
  destruct (ds_Append_log s rs k (RecAppend e) e1 s1 Hl He Ea) as [Hl1 [w1 ->]].
  destruct e1 as [er|].
  { intros [= <- <-]. exists [RecAppend e], (Some w1), (ds_log s). split; [done|]. split; [by repeat constructor|].
    split; [by destruct s|]. done. }
  intros H. destruct (IH (set_log (set_dswal s (Some w1)) (ds_log s ++ [e])) (rs ++ [RecAppend e])) as (xs & w & l & Hl' & Hx & -> & Hf & Hn).
  { destruct Hl1 as (? & ? & Hw). split; [done|]. split; [done|]. exact Hw. }
  { exact H. }
  exists (RecAppend e :: xs), w, l. rewrite <-(assoc_L (++)) in Hl'. split; [done|].
  split; [by constructor|]. split; [done|]. split.
  - intros Hall. apply Hf. simpl. apply Forall_app. split; [done|]. by constructor.
  - intros Herr. destruct (Hn Herr) as [-> ->]. simpl. by rewrite <-(assoc_L (++)).
Qed.

Lemma Forall_truncate (P : Entry -> Prop) from l : Forall P l -> Forall P (truncate from l).
Proof.
  intros H. unfold truncate. apply Forall_reverse. apply Forall_reverse in H. revert H.
  generalize (reverse l). induction 1 as [|e l' He Hl' IH]; simpl; [done|]. destruct (_ <=? _)%N; [done|by constructor].
Qed.

(** The truncate record appendEntries writes first, if any. *)
Definition truncate_first (s : diskStorage) (es : list Entry) : list wal_rec :=
  match es, last (ds_log s) with
  | e0 :: _, Some l => if (en_Index e0 <=? en_Index l)%N then [RecTruncate (en_Index e0)] else []
  | _, _ => []
  end.

Definition after_truncate (s : diskStorage) (es : list Entry) : list Entry :=
  match truncate_first s es with RecTruncate from :: _ => truncate from (ds_log s) | _ => ds_log s end.

Lemma appendEntries_log s rs k es err s' :
  log_has s rs k -> Forall entry_ok es -> appendEntries Marshal s es = Some (err, s') ->
  exists xs w l d, log_has s' (rs ++ xs) k /\ Forall (fun r => is_log_rec r = true) xs /\
    s' = set_dirty (set_log (set_dswal s w) l) d /\ (Forall entry_ok (ds_log s) -> Forall entry_ok l) /\
    (err = None -> xs = truncate_first s es ++ (RecAppend <$> es) /\ l = after_truncate s es ++ es /\
                   d = match es with [] => ds_dirty s | _ => true end).
Proof.
  intros Hl Hes. unfold appendEntries, truncate_first, after_truncate, truncate_first. destruct es as [|e0 es0].
  { intros [= <- <-]. exists [], (ds_wal s), (ds_log s), (ds_dirty s). rewrite !app_nil_r.
    split_and!; [done..|by destruct s|done|done]. }
  remember (e0 :: es0) as es. assert (He0 : entry_ok e0) by (subst; by inversion Hes).
  assert (Hloop : forall s1 pre w1, log_has s1 (rs ++ pre) k -> Forall (fun r => is_log_rec r = true) pre ->
    s1 = set_log (set_dswal s w1) (ds_log s1) -> (Forall entry_ok (ds_log s) -> Forall entry_ok (ds_log s1)) ->
    ('(err, s2) ← append_loop Marshal s1 es;
     match err with Some er => Some (Some er, s2) | None => Some (None, set_dirty s2 true) end) = Some (err, s') ->
    exists xs w l d, log_has s' (rs ++ xs) k /\ Forall (fun r => is_log_rec r = true) xs /\
      s' = set_dirty (set_log (set_dswal s w) l) d /\ (Forall entry_ok (ds_log s) -> Forall entry_ok l) /\
      (err = None -> xs = pre ++ (RecAppend <$> es) /\ l = ds_log s1 ++ es /\ d = true)).
  { intros s1 pre w1 Hl1 Hp Hs1 Hf1. destruct (append_loop Marshal s1 es) as [[e2 s2]|] eqn:El; [|done]. simpl.
    destruct (append_loop_log _ _ _ _ _ _ Hl1 Hes El) as (xs & w & l & Hl2 & Hx & -> & Hf & Hn).
    assert (set_log (set_dswal s1 w) l = set_log (set_dswal s w) l) as E by (rewrite Hs1; done).
    rewrite <-(assoc_L (++)) in Hl2.
    destruct e2 as [er|]; intros [= <- <-].
    - exists (pre ++ xs), w, l, (ds_dirty s). split; [done|]. split; [by apply Forall_app|].
      split; [by rewrite E; destruct s|]. split; [auto|done].
    - exists (pre ++ xs), w, l, true. split; [done|]. split; [by apply Forall_app|].
      split; [by rewrite E|]. split; [auto|]. intros _. destruct (Hn eq_refl) as [-> ->]. done. }
  subst es. cbn [mbind option_bind]. destruct (last (ds_log s)) as [l|]; [destruct (_ <=? _)%N|].
  - destruct (ds_Append s _) as [[e1 s1]|] eqn:Ea; [|done]. simpl.
    destruct (ds_Append_log s rs k (RecTruncate (en_Index e0)) e1 s1 Hl ltac:(apply He0) Ea) as [Hl1 [w1 ->]].
    destruct e1 as [er|]; simpl.
    + intros [= <- <-]. exists [RecTruncate (en_Index e0)], (Some w1), (ds_log s), (ds_dirty s).
      split; [done|]. split; [by repeat constructor|]. by destruct s.
    + intros H. apply (Hloop _ [RecTruncate (en_Index e0)] (Some w1)) in H; [exact H|exact Hl1|by repeat constructor|done|].
      simpl. apply Forall_truncate.
  - intros H. apply (Hloop s [] (ds_wal s)) in H; [exact H|by rewrite app_nil_r|constructor|by destruct s|done].
  - intros H. apply (Hloop s [] (ds_wal s)) in H; [exact H|by rewrite app_nil_r|constructor|by destruct s|done].
Qed.

Lemma sync_log s rs k err s' :
  log_has s rs k -> sync s = Some (err, s') ->
  log_has s' rs (if ds_dirty s then if err is Some _ then k else length rs else k) /\
  exists w, s' = set_dirty (set_dswal s w) (if err is Some _ then ds_dirty s else false).
Proof.
  intros (Hok & Hk & Hl). unfold sync. destruct (ds_dirty s) eqn:Ed; simpl.
  2:{ intros [= <- <-]. split; [done|]. exists (ds_wal s). destruct s; simpl in *. by subst. }
  destruct (ds_wal s) as [w|] eqn:Ew; [|done]. simpl. destruct (Hl w eq_refl) as (ps & qs & Hw & Hrec & Hkp).
  destruct (Sync w) as [[er|] w1] eqn:Es; intros [= <- <-].
  - split; [|exists (Some w1); destruct s; simpl in *; by subst]. split; [done|]. split; [done|].
    intros w2 [= <-]. exists ps, qs. split; [by eapply Sync_err_inv|done].
  - split; [|by exists (Some w1)]. split; [done|]. split; [done|]. intros w2 [= <-]. exists (ps ++ qs), [].
    split; [by eapply Sync_ok_inv|]. rewrite app_nil_r, Hrec. split; [done|]. by rewrite length_fmap.
Qed.

(** ** Snapshots *)

Definition files_ok (f : snap_files) : Prop :=
  forall m, sf_meta f = Some m -> length m = 16 /\ is_Some (sf_bin f).

Lemma load_snapshot_ok f boot : files_ok f -> 
  exists base, load_snapshot f boot = Ok base /\ ds_term base = 0%N /\ ds_votedFor base = 0%N /\ ds_files base = f /\ ds_log base = [] /\ ds_script base = [].
Proof.
  intros Hf. unfold load_snapshot. destruct (sf_meta f) as [m|] eqn:Em; [|by eexists].
  destruct (Hf m Em) as [Hm [b ->]]. rewrite (proj2 (N.ltb_ge _ 16)) by (unfold len; lia).
  destruct (sf_conf f) as [c|]; [|by eexists].
  destruct (decodeConfState c); [case_bool_decide|..]; by eexists.
Qed.

Lemma ds_call_same s o s' : ds_call s = (o, s') -> s' = set_files s (ds_files s) (ds_script s').
Proof. unfold ds_call. destruct (ds_script s) eqn:E; intros [= <- <-]; [|done]. destruct s; simpl in *; by subst. Qed.

Lemma ds_call_ex s o s' : ds_call s = (o, s') -> exists scr, s' = set_files s (ds_files s) scr.
Proof. intros H%ds_call_same. by eexists. Qed.

Lemma length_meta i t : length (PutUint64 i ++ PutUint64 t) = 16.
Proof. by rewrite length_app, !LittleEndian.length_PutUint64. Qed.

Lemma write_snapshot_files_ok s index term data conf err s' :
  write_snapshot_files s index term data conf = (err, s') -> files_ok (ds_files s) ->
  files_ok (ds_files s') /\ s' = set_files s (ds_files s') (ds_script s') /\
  (err = None -> ds_files s' = mkSnapFiles (Some (PutUint64 index ++ PutUint64 term)) (Some data) (Some (encodeConfState conf))).
Proof.
  unfold write_snapshot_files, atomicWrite. intros H Hf. pose proof (length_meta index term) as Hlen.
  destruct (ds_call s) as [o1 s1] eqn:E1. apply ds_call_same in E1. rewrite E1 in H. clear E1.
  destruct o1 as [|n1].
  2:{ injection H as <- <-. simpl. split; [by destruct (ds_files s)|]. done. }
  destruct (ds_call (set_files _ _ _)) as [o2 s2] eqn:E2. apply ds_call_same in E2. rewrite E2 in H. clear E2. simpl in *.
  destruct o2 as [|n2].
  2:{ injection H as <- <-. simpl. split; [|done]. intros m Hm. by destruct (Hf m Hm). }
  destruct (ds_call (set_files _ _ _)) as [o3 s3] eqn:E3. apply ds_call_same in E3. rewrite E3 in H. clear E3. simpl in *.
  destruct o3 as [|n3]; injection H as <- <-; simpl.
  - split; [|done]. by intros m [= <-].
  - split; [|done]. by intros m [= <-].
Qed.

Lemma append_all_inv recs w err w' ps qs :
  append_all w recs = (err, w') -> wal_inv w ps qs -> err = None -> wal_inv w' ps (qs ++ recs).
Proof.
  revert w qs. induction recs as [|r recs IH]; intros w qs; simpl.
  - intros [= <- <-] H _. by rewrite app_nil_r.
  - destruct (Append w r) as [[er|] w1] eqn:Ea; [by intros [= <- _]|]. intros H Hw Hn.
    rewrite (cons_middle r), (assoc_L (++)). eapply IH; [done| |done]. by eapply Append_inv.
Qed.

Lemma Close_inv w err w' ps qs :
  Close w = (err, w') -> wal_inv w ps qs ->
  exists ps' qs', wal_inv w' ps' qs' /\ ps' ++ qs' = ps ++ qs /\ length ps <= length ps' /\ (err = None -> qs' = []).
Proof.
  assert (Hclose : forall v f e ps0 qs0, file_Close (wal_file v) = (e, f) -> wal_inv v ps0 qs0 -> wal_inv (with_file v f) ps0 qs0).
  { intros v f e ps0 qs0 [Hd Hc]%file_Close_contents [H1 H2 H3].
    unfold wal_file, stream, contents in *. split; unfold wal_file, stream, contents; simpl; rewrite ?Hd, ?Hc; done. }
  unfold Close. destruct (Sync w) as [[er|] w1] eqn:Es.
  - intros [= <- <-] Hw. exists ps, qs. split; [|done]. destruct (file_Close (wal_file w1)) as [e f] eqn:Ef.
    eapply Hclose; [exact Ef|]. by eapply Sync_err_inv.
  - destruct (file_Close (wal_file w1)) as [e f] eqn:Ef. intros [= <- <-] Hw. exists (ps ++ qs), [].
    split; [eapply Hclose; [exact Ef|]; by eapply Sync_ok_inv|]. rewrite app_nil_r, length_app. split; [done|]. split; [lia|done].
Qed.

Lemma wal_inv_synced w ps : wal_inv w ps [] -> f_durable (wal_file w) = encode_log ps /\ f_cached (wal_file w) = [].
Proof.
  intros [Hd Hc _]. split; [done|]. rewrite app_nil_r in Hc. unfold contents in Hc. rewrite Hd in Hc.
  apply prefix_length in Hc. rewrite length_app in Hc. apply nil_length_inv. lia.
Qed.

(** The records of a log rewritten from the state [s]. *)
Definition rewritten (s : diskStorage) (conf : ConfState) : list wal_rec :=
  RecHard (ds_term s) (ds_votedFor s) :: RecConf conf :: (RecAppend <$> ds_log s).

Lemma encode_rewritten s conf : encode_rec <$> rewritten s conf = rewrite_records Marshal s conf.
Proof. unfold rewritten, rewrite_records. rewrite !fmap_cons, <-list_fmap_compose. done. Qed.

Definition hard_fits (s : diskStorage) : Prop := (ds_term s < two64)%N /\ (ds_votedFor s < two64)%N.

Lemma log_has_wal s s' rs k : ds_wal s' = ds_wal s -> log_has s rs k -> log_has s' rs k.
Proof. intros E (? & ? & Hl). split; [done|]. split; [done|]. by rewrite E. Qed.

(** The new log, once closed and renamed over the old one. *)
Lemma rewrite_log rs tscript f0 nw nw' nw2 :
  Forall rec_ok rs -> OpenWAL (mkFile [] [] tscript false) = (Ok nw, f0) ->
  append_all nw (encode_rec <$> rs) = (None, nw') -> Close nw' = (None, nw2) ->
  forall w f1, OpenWAL (reopen (wal_file nw2)) = (Ok w, f1) ->
  exists ps qs, wal_inv w ps qs /\ ps ++ qs = encode_rec <$> rs /\ length rs <= length ps.
Proof.
  intros Hok Ho Ha Hc w f1 Hw.
  assert (wal_inv nw [] []) as H0 by by eapply OpenWAL_inv.
  pose proof (append_all_inv _ _ _ _ _ _ Ha H0 eq_refl) as H1. simpl in H1.
  destruct (Close_inv _ _ _ _ _ Hc H1) as (ps & qs & H2 & Hrec & _ & Hq). rewrite (Hq eq_refl) in *.
  rewrite app_nil_r in Hrec. simpl in Hrec. subst ps. apply wal_inv_synced in H2 as [Hd Hcache].
  exists (encode_rec <$> rs), []. split; [by eapply OpenWAL_inv; [exact Hw|..]|].
  rewrite app_nil_r, length_fmap. done.
Qed.

(** What saveSnapshot leaves: the old log after an error (or for an index that
    is already covered), or the rewritten one. *)
Definition saved (s : diskStorage) (rs : list wal_rec) (k : nat) (index term : N) (data : bytes) (conf : ConfState)
    (err : option error) (s' : diskStorage) : Prop :=
  files_ok (ds_files s') /\ Forall entry_ok (ds_log s') /\
  ds_term s' = ds_term s /\ ds_votedFor s' = ds_votedFor s /\
  ((err <> None \/ s' = s) /\ log_has s' rs k \/
   log_has s' (rewritten s' conf) (length (rewritten s' conf)) /\
   (err = None ->
     ds_files s' = mkSnapFiles (Some (PutUint64 index ++ PutUint64 term)) (Some data) (Some (encodeConfState conf)) /\
     (ds_snapIndex s < index)%N /\
     ds_log s' = filter (fun e => index < en_Index e)%N (ds_log s) /\
     ds_conf s' = conf /\ ds_snapIndex s' = index /\ ds_snapTerm s' = term /\ ds_snapshot s' = data /\
     ds_dirty s' = false)).

Lemma saved_error s rs k index term data conf er s' :
  files_ok (ds_files s') -> Forall entry_ok (ds_log s') -> ds_term s' = ds_term s -> ds_votedFor s' = ds_votedFor s ->
  log_has s' rs k -> saved s rs k index term data conf (Some er) s'.
Proof. intros. split_and!; [done..|]. left. split; [by left|done]. Qed.

Lemma log_has_close s rs k w err w' :
  log_has s rs k -> ds_wal s = Some w -> Close w = (err, w') -> log_has (set_dswal s (Some w')) rs k.
Proof.
  intros (? & ? & Hl) Ew Ec. split; [done|]. split; [done|]. intros w2 [= <-].
  destruct (Hl w Ew) as (ps & qs & Hw & Hrec & Hk).
  destruct (Close_inv _ _ _ _ _ Ec Hw) as (ps' & qs' & ? & E & ? & _).
  exists ps', qs'. split; [done|]. split; [congruence|lia].
Qed.

(** A storage closed without an error, and opened again by the next process. *)
Lemma close_reopen s rs k boot base s1 w s' :
  log_has s rs k -> ds_close s = Some (None, s1) -> ds_wal s1 = Some w -> load_snapshot (ds_files s) boot = Ok base ->
  openDiskStorage (ds_files s) (Some (reopen (wal_file w))) boot = Ok s' ->
  log_has s' rs (length rs) /\ exists w' f', OpenWAL (reopen (wal_file w)) = (Ok w', f') /\ s' = set_dswal (foldl apply_rec base rs) (Some w').
Proof using Hproto.
  intros (Hok & _ & Hl) Hc Hw Hb. unfold ds_close in Hc. destruct (ds_wal s) as [w0|] eqn:Ew; [|done]. cbn [mbind option_bind] in Hc.
  destruct (Close w0) as [err w1] eqn:Ec. injection Hc as -> <-. injection Hw as <-. destruct (Hl w0 eq_refl) as (ps & qs & Hwi & Hrec & _).
  destruct (Close_inv _ _ _ _ _ Ec Hwi) as (ps' & qs' & Hwi' & E & _ & Hq). rewrite (Hq eq_refl) in *. rewrite app_nil_r in E. rewrite <-E in Hrec.
  assert (Forall fits ps') as Hfit by (rewrite Hrec; apply Forall_fmap; eapply Forall_impl; [exact Hok|exact rec_ok_fits]).
  destruct (wal_inv_synced _ _ Hwi') as [Hdur Hcache]. clear Hq E.
  unfold DiskStorage.openDiskStorage. rewrite Hb. cbn [rbind].
  change (default empty_file (Some (reopen (wal_file w1)))) with (reopen (wal_file w1)).
  assert (contents (reopen (wal_file w1)) = encode_log ps') as -> by (unfold contents; simpl; by rewrite Hcache, app_nil_r).
  rewrite ReplayWAL_records, records_encode by done. rewrite Hrec, replay_records by done. cbn [rbind].
  destruct (OpenWAL (reopen (wal_file w1))) as [[w'| |] f'] eqn:Eo; [|done..]. intros [= <-]. split; [|by do 2 eexists]. split; [done|]. split; [lia|].
  intros w2 [= <-]. exists ps', []. rewrite app_nil_r. split; [by eapply OpenWAL_inv|]. split; [done|]. by rewrite Hrec, length_fmap.
Qed.

Lemma saveSnapshot_log s rs k index term data conf tscript err s' :
  log_has s rs k -> files_ok (ds_files s) -> Forall entry_ok (ds_log s) -> hard_fits s -> conf_fits conf ->
  saveSnapshot Marshal s index term data conf tscript = Some (err, s') ->
  saved s rs k index term data conf err s'.
Proof.
  intros Hl Hf Hlog Hh Hc. unfold saveSnapshot. destruct (N.leb_spec index (ds_snapIndex s)) as [Hle|Hgt].
  { intros [= <- <-]. split_and!; [done..|]. left. split; [by right|done]. }
  destruct (write_snapshot_files _ _ _ _ _) as [err1 s1] eqn:Ew.
  destruct (write_snapshot_files_ok _ _ _ _ _ _ _ Ew Hf) as (Hf1 & Es1 & Hfiles).
  assert (Hs1 : ds_log s1 = ds_log s /\ ds_wal s1 = ds_wal s /\ ds_term s1 = ds_term s /\ ds_votedFor s1 = ds_votedFor s)
    by (rewrite Es1; done). destruct Hs1 as (Hlog1 & Hwal1 & Ht1 & Hv1).
  destruct err1 as [er|].
  { intros [= <- <-]. apply saved_error; [done|by rewrite Hlog1|done..|]. by eapply log_has_wal. }
  specialize (Hfiles eq_refl). set (kept := filter _ _). set (s2 := set_snap s1 kept _ _ _ _).
  assert (Forall entry_ok kept) as Hkept.
  { unfold kept. rewrite Hlog1, Forall_forall in *. by intros e [_ He]%list_elem_of_filter; apply Hlog. }
  assert (Forall rec_ok (rewritten s2 conf)) as Hrok.
  { constructor; [simpl; rewrite Ht1, Hv1; exact Hh|]. constructor; [exact Hc|]. by apply Forall_fmap. }
  assert (log_has s2 rs k) as Hl2 by (by eapply log_has_wal).
  destruct (OpenWAL _) as [[nw|er|] f0] eqn:Eo; [|by intros [= <- <-]; apply saved_error|done].
  rewrite <-encode_rewritten.
  destruct (append_all _ _) as [[er|] nw1] eqn:Ea; [by intros [= <- <-]; apply saved_error|].
  destruct (Close nw1) as [[er|] nw2] eqn:Ec; [by intros [= <- <-]; apply saved_error|].
  destruct (ds_wal s2) as [w|] eqn:Ews; [|done]. simpl. destruct (Close w) as [err2 w1] eqn:Ecw.
  pose proof (log_has_close _ _ _ _ _ _ Hl2 Ews Ecw) as Hl3.
  destruct err2 as [er|]; [by intros [= <- <-]; apply saved_error|].
  destruct (ds_call (set_dswal s2 (Some w1))) as [o s4] eqn:Ed. apply ds_call_ex in Ed as [scr ->].
  assert (Hl4 : log_has (set_files (set_dswal s2 (Some w1)) (ds_files s1) scr) rs k) by (by eapply log_has_wal; [|exact Hl3]).
  destruct o as [|n]; [|by intros [= <- <-]; apply saved_error].
  pose proof (rewrite_log (rewritten s2 conf) tscript f0 nw nw1 nw2 Hrok Eo Ea Ec) as Hnew.
  destruct (OpenWAL (reopen _)) as [[w2|er|] f2] eqn:Eo2; [| |done]; intros [= <- <-].
  - unfold saved. simpl. split_and!; [done..|]. right. split.
    + split; [exact Hrok|]. split; [done|]. intros w3 [= <-]. by eapply Hnew.
    + intros _. split_and!; try done. unfold kept. by rewrite Hlog1.
  - apply saved_error; [done..|]. destruct Hl4 as (? & ? & _). split; [done|]. split; [done|]. done.
Qed.

(** A storage just opened on an empty directory, over a device that will answer
    [dscript] to the calls on the directory and [wscript] to those on the log. *)
Definition fresh_store (boot : list N) (dscript wscript : list outcome) : diskStorage :=
  mkStore (mkSnapFiles None None None) dscript (Some (mkWAL (Bufio.NewWriter (mkFile [] [] wscript false)) 0))
    0 0 false (NewConfState boot) [] 0 0 [].

Lemma fresh_log boot ds ws : log_has (fresh_store boot ds ws) [] 0.
Proof.
  split; [done|]. split; [done|]. intros w [= <-]. exists [], []. split; [by split|done].
Qed.

(** ** Hard states under faults *)

(** Any sequence of operations with any outcome; the list collects the calls of
    setHardState with whether each returned nil. *)
Inductive ds_hist (boot : list N) : diskStorage -> list (N * N * bool) -> Prop :=
  | hist_open ds ws : ds_hist boot (fresh_store boot ds ws) []
  | hist_hard s h t v err s' :
      ds_hist boot s h -> (t < two64)%N -> (v < two64)%N -> setHardState s t v = Some (err, s') ->
      ds_hist boot s' (h ++ [(t, v, if err is None then true else false)])
  | hist_append s h es err s' :
      ds_hist boot s h -> Forall entry_ok es -> appendEntries Marshal s es = Some (err, s') -> ds_hist boot s' h
  | hist_sync s h err s' : ds_hist boot s h -> sync s = Some (err, s') -> ds_hist boot s' h
  | hist_conf s h c err s' :
      ds_hist boot s h -> conf_fits c -> setConfState s c = Some (err, s') -> ds_hist boot s' h
  | hist_snap s h index term data conf tscript err s' :
      ds_hist boot s h -> conf_fits conf ->
      saveSnapshot Marshal s index term data conf tscript = Some (err, s') -> ds_hist boot s' h
  | hist_reopen s h s1 w s' :
      ds_hist boot s h -> ds_close s = Some (None, s1) -> ds_wal s1 = Some w ->
      openDiskStorage (ds_files s) (Some (reopen (wal_file w))) boot = Ok s' -> ds_hist boot s' h.

(** The hard states that may be on disk after these calls: the last one stored
    without error, and the failed ones after it. *)
Definition maybe_step (p : list (N * N)) (c : N * N * bool) : list (N * N) :=
  if c.2 then [c.1] else p ++ [c.1].
Definition maybe (h : list (N * N * bool)) : list (N * N) := foldl maybe_step [(0%N, 0%N)] h.

Record hist_inv (s : diskStorage) (h : list (N * N * bool)) (rs : list wal_rec) (k : nat) : Prop := {
  hi_log : log_has s rs k;
  hi_files : files_ok (ds_files s);
  hi_entries : Forall entry_ok (ds_log s);
  hi_fits : hard_fits s;
  hi_mem : (ds_term s, ds_votedFor s) ∈ maybe h;
  hi_disk : forall j, k <= j -> last_hard (0%N, 0%N) (take j rs) ∈ maybe h
}.

Lemma last_hard_app h rs xs : last_hard h (rs ++ xs) = last_hard (last_hard h rs) xs.
Proof. apply foldl_app. Qed.

Lemma last_hard_log h xs : Forall (fun r => is_log_rec r = true) xs -> last_hard h xs = h.
Proof. induction 1 as [|r xs Hr _ IH]; [done|]. unfold last_hard in *. simpl. by destruct r. Qed.

Lemma last_hard_take_log h rs xs j :
  Forall (fun r => is_log_rec r = true) xs -> last_hard h (take j (rs ++ xs)) = last_hard h (take j rs).
Proof. intros Hx. rewrite take_app, last_hard_app. apply last_hard_log. by apply Forall_take. Qed.

Lemma take_snoc_cases {A} j (rs : list A) x : take j (rs ++ [x]) = take j rs \/ take j (rs ++ [x]) = rs ++ [x].
Proof.
  destruct (decide (j <= length rs)) as [H|H].
  - left. by rewrite take_app_le.
  - right. apply take_ge. rewrite length_app. simpl. lia.
Qed.

Lemma maybe_snoc h c : maybe (h ++ [c]) = maybe_step (maybe h) c.
Proof. unfold maybe. by rewrite foldl_app. Qed.

Lemma conf_log_hard h c : last_hard h [RecConf c] = h.
Proof. done. Qed.

(** What the records leave of entries and numbers that fit. *)
Lemma replay_fits rs s :
  Forall rec_ok rs -> Forall entry_ok (ds_log s) -> hard_fits s ->
  Forall entry_ok (ds_log (foldl apply_rec s rs)) /\ hard_fits (foldl apply_rec s rs).
Proof.
  intros H. revert s. induction H as [|r rs Hr _ IH]; intros s He Hh; [done|]. simpl.
  destruct r as [t v|e|from|c]; simpl; [by apply IH|destruct (_ <? _)%N; apply IH; try done|by apply IH; [apply Forall_truncate|]|by case_bool_decide; apply IH].
  apply Forall_app. by split; [|constructor].
Qed.

Lemma ds_hist_inv boot s h : ds_hist boot s h -> exists rs k, hist_inv s h rs k.
Proof using Hproto.
  induction 1 as [ds ws|s h t v err s' _ IH Ht Hv H|s h es err s' _ IH He H|s h err s' _ IH H
                 |s h c err s' _ IH Hc H|s h index term data conf tscript err s' _ IH Hc H|s h s1 w s' _ IH Hc Hw H].
  - exists [], 0. split; [apply fresh_log|by intros m|done|done|by left|]. intros j _. rewrite take_nil. by left.
  - destruct IH as (rs & k & [Hl Hf He Hh Hm Hd]). exists (rs ++ [RecHard t v]).
    destruct (append_sync_log (set_hard s t v) rs k (RecHard t v) err s' Hl ltac:(done) H) as [Hl' [w ->]].
    eexists. split; [exact Hl'|done|done|done|..]; rewrite maybe_snoc; unfold maybe_step; destruct err as [er|]; simpl.
    + apply elem_of_app. right. by left.
    + by left.
    + intros j Hj. apply elem_of_app. destruct (take_snoc_cases j rs (RecHard t v)) as [->| ->].
      * left. by apply Hd.
      * right. rewrite last_hard_app. by left.
    + intros j Hj. rewrite take_ge by lia. rewrite last_hard_app. by left.
  - destruct IH as (rs & k & [Hl Hf Hen Hh Hm Hd]).
    destruct (appendEntries_log _ _ _ _ _ _ Hl He H) as (xs & w & l & d & Hl' & Hx & -> & Hfl & _).
    exists (rs ++ xs), k. split; [done|done|by apply Hfl|done|done|]. intros j Hj. rewrite last_hard_take_log by done. by apply Hd.
  - destruct IH as (rs & k & [Hl Hf Hen Hh Hm Hd]). destruct (sync_log _ _ _ _ _ Hl H) as [Hl' [w ->]].
    exists rs. eexists. split; [exact Hl'|done..|]. intros j Hj. apply Hd. destruct Hl as (_ & ? & _).
    destruct (ds_dirty s), err; lia.
  - destruct IH as (rs & k & [Hl Hf Hen Hh Hm Hd]).
    destruct (append_sync_log (set_conf s c) rs k (RecConf c) err s' Hl Hc H) as [Hl' [w ->]].
    exists (rs ++ [RecConf c]). eexists. split; [exact Hl'|done..|]. intros j Hj. destruct Hl as (_ & Hk & _).
    rewrite take_app, last_hard_app. replace (last_hard _ (take _ [RecConf c])) with (last_hard (0%N, 0%N) (take j rs)).
    + apply Hd. rewrite length_app in Hj. destruct err; lia.
    + destruct (j - length rs) as [|i]; [done|]. simpl. by rewrite take_nil.
  - destruct IH as (rs & k & [Hl Hf Hen Hh Hm Hd]).
    destruct (saveSnapshot_log _ _ _ _ _ _ _ _ _ _ Hl Hf Hen Hh Hc H) as (Hf' & Hen' & Ht & Hv & [[_ Hl']|[Hl' _]]).
    + exists rs, k. split; [done..|unfold hard_fits; by rewrite Ht, Hv|by rewrite Ht, Hv|done].
    + eexists _, _. split; [exact Hl'|done..|unfold hard_fits; by rewrite Ht, Hv|by rewrite Ht, Hv|].
      intros j Hj. rewrite take_ge by done. 
      change (last_hard (ds_term s', ds_votedFor s') (RecAppend <$> ds_log s') ∈ maybe h).
      rewrite last_hard_log; [by rewrite Ht, Hv|]. apply Forall_fmap, Forall_true. done.
  - destruct IH as (rs & k & [Hl Hf Hen Hh Hm Hd]). destruct (load_snapshot_ok (ds_files s) boot Hf) as (base & Hb & Bt & Bv & Bf & Bl & _).
    destruct (close_reopen _ _ _ _ _ _ _ _ Hl Hc Hw Hb H) as (Hl' & w' & _ & _ & ->). destruct Hl as (Hok & Hk & _). exists rs, (length rs).
    destruct (replay_fits rs base) as [He' Hh']; [done|by rewrite Bl|by unfold hard_fits; rewrite Bt, Bv|].
    assert (ds_files (foldl apply_rec base rs) = ds_files s) as Ef by (pose proof (replay_snap rs base) as [=]; congruence).
    assert (last_hard (0%N, 0%N) rs ∈ maybe h) as Hlast by (specialize (Hd (length rs) Hk); by rewrite take_ge in Hd).
    split; simpl; [exact Hl'|by rewrite Ef|done|done| |].
    + pose proof (replay_hard rs base) as Hr. rewrite Bt, Bv in Hr. by rewrite Hr.
    + intros j Hj. by rewrite take_ge.
Qed.

(** ** The state recovered after operations that succeeded *)

(** Operations that all returned nil; entries are appended above the snapshot. *)
Inductive ds_good (boot : list N) : diskStorage -> Prop :=
  | good_open ds ws : ds_good boot (fresh_store boot ds ws)
  | good_hard s t v s' :
      ds_good boot s -> (t < two64)%N -> (v < two64)%N -> setHardState s t v = Some (None, s') -> ds_good boot s'
  | good_append s es s' :
      ds_good boot s -> Forall entry_ok es -> Forall (fun e => ds_snapIndex s < en_Index e)%N es ->
      appendEntries Marshal s es = Some (None, s') -> ds_good boot s'
  | good_sync s s' : ds_good boot s -> sync s = Some (None, s') -> ds_good boot s'
  | good_conf s c s' : ds_good boot s -> conf_fits c -> setConfState s c = Some (None, s') -> ds_good boot s'
  | good_snap s index term data conf tscript s' :
      ds_good boot s -> conf_fits conf -> (index < two64)%N -> (term < two64)%N ->
      saveSnapshot Marshal s index term data conf tscript = Some (None, s') -> ds_good boot s'.

(** The replicated part of the state: all but the device, the log handle and
    the dirty flag; and the part of it that only fsynced records change. *)
Definition stable (s : diskStorage) : N * N * ConfState * (N * N * bytes) :=
  (ds_term s, ds_votedFor s, ds_conf s, (ds_snapIndex s, ds_snapTerm s, ds_snapshot s)).
Definition core (s : diskStorage) : N * N * ConfState * (N * N * bytes) * list Entry := (stable s, ds_log s).

Lemma apply_rec_core s s' r : core s = core s' -> core (apply_rec s r) = core (apply_rec s' r).
Proof.
  destruct s, s'. unfold core, stable. simpl. intros [= -> -> -> -> -> -> ->].
  destruct r; simpl; [done|by destruct (_ <? _)%N|done|by case_bool_decide].
Qed.

Lemma replay_core rs s s' : core s = core s' -> core (foldl apply_rec s rs) = core (foldl apply_rec s' rs).
Proof. revert s s'. induction rs as [|r rs IH]; intros s s' H; [done|]. simpl. by apply IH, apply_rec_core. Qed.

Lemma replay_stable xs s : Forall (fun r => is_log_rec r = true) xs -> stable (foldl apply_rec s xs) = stable s.
Proof.
  intros H. revert s. induction H as [|r xs Hr _ IH]; intros s; [done|]. simpl. rewrite IH.
  destruct r; simpl; [done|by destruct (_ <? _)%N|done|done].
Qed.

Lemma replay_appends es s :
  Forall (fun e => ds_snapIndex s < en_Index e)%N es ->
  foldl apply_rec s (RecAppend <$> es) = set_log s (ds_log s ++ es).
Proof.
  intros H. revert s H. induction es as [|e es IH]; intros s H; simpl.
  - rewrite app_nil_r. by destruct s.
  - apply Forall_cons in H as [He Hes]. rewrite (proj2 (N.ltb_lt _ _) He).
    rewrite IH by done. simpl. by rewrite <-(assoc_L (++)).
Qed.

Record good_inv (boot : list N) (s base : diskStorage) (rs : list wal_rec) (k : nat) : Prop := {
  gi_log : log_has s rs k;
  gi_files : files_ok (ds_files s);
  gi_entries : Forall entry_ok (ds_log s);
  gi_fits : hard_fits s;
  gi_base : load_snapshot (ds_files s) boot = Ok base;
  gi_core : core s = core (foldl apply_rec base rs);
  gi_tail : Forall (fun r => is_log_rec r = true) (drop k rs);
  gi_dirty : ds_dirty s = false -> k = length rs
}.

(** A record that is fsynced before the call returns. *)
Lemma good_synced boot s base rs k r s1 s' :
  good_inv boot s base rs k -> rec_ok r -> core s1 = core (apply_rec s r) ->
  ds_files s1 = ds_files s -> ds_wal s1 = ds_wal s -> ds_log s1 = ds_log s -> hard_fits s1 ->
  append_sync s1 (encode_rec r) = Some (None, s') ->
  good_inv boot s' base (rs ++ [r]) (length (rs ++ [r])).
Proof.
  intros [Hl Hf He Hh Hb Hc Ht Hd] Hr Hs1 Ef Ew El Hh1 H.
  destruct (append_sync_log s1 rs k r None s') as [Hl' [w ->]]; [by eapply log_has_wal|done|done|].
  split; simpl; [done|by rewrite Ef|by rewrite El|done|by rewrite Ef| |by rewrite drop_all|done].
  rewrite foldl_app. transitivity (core s1); [done|]. rewrite Hs1. simpl. by apply apply_rec_core.
Qed.

Lemma load_saved index term data conf boot :
  (index < two64)%N -> (term < two64)%N -> conf_fits conf ->
  exists base, load_snapshot (mkSnapFiles (Some (PutUint64 index ++ PutUint64 term)) (Some data) (Some (encodeConfState conf))) boot
    = Ok base /\ ds_snapIndex base = index /\ ds_snapTerm base = term /\ ds_snapshot base = data /\ ds_log base = [].
Proof.
  intros Hi Ht (Hv & Hj & Hne & _). unfold load_snapshot; cbn [sf_meta sf_bin sf_conf].
  rewrite (proj2 (N.ltb_ge _ 16)) by (unfold len; rewrite length_meta; lia).
  rewrite decodeConfState_encode by done. rewrite bool_decide_true by by apply conf_size.
  rewrite LittleEndian.Uint64_Put by done.
  rewrite (drop_app_length' (PutUint64 _) _ 8) by by rewrite LittleEndian.length_PutUint64.
  rewrite Uint64_Put_nil by done. by eexists.
Qed.

Lemma good_append_inv boot s base rs k es s' :
  good_inv boot s base rs k -> Forall entry_ok es -> Forall (fun e => ds_snapIndex s < en_Index e)%N es ->
  appendEntries Marshal s es = Some (None, s') ->
  good_inv boot s' base (rs ++ truncate_first s es ++ (RecAppend <$> es)) k /\
  ds_log s' = after_truncate s es ++ es /\ ds_snapIndex s' = ds_snapIndex s.
Proof.
  intros [Hl Hf Hen Hh Hb Hc Htl Hd] He Hgt H.
  destruct (appendEntries_log _ _ _ _ _ _ Hl He H) as (xs & w & l & d & Hl' & Hx & -> & Hfl & Hn).
  destruct (Hn eq_refl) as (-> & -> & Hdirty). split; [|done].
  split; [done|done|by apply Hfl|done|done|..].
  - rewrite foldl_app, foldl_app.
    transitivity (core (foldl apply_rec (foldl apply_rec s (truncate_first s es)) (RecAppend <$> es))).
    + assert (Hsi : ds_snapIndex (foldl apply_rec s (truncate_first s es)) = ds_snapIndex s) by apply replay_snapIndex.
      rewrite replay_appends by by rewrite Hsi. unfold core. simpl. unfold after_truncate, truncate_first.
      destruct es as [|e0 es0]; [done|]. destruct (last (ds_log s)); [destruct (_ <=? _)%N|]; done.
    + by apply replay_core, replay_core.
  - destruct Hl as (_ & Hk & _). rewrite drop_app_le by done. by apply Forall_app.
  - simpl. intros Hdf. rewrite Hdirty in Hdf. destruct es as [|e0 es0]; [|done].
    rewrite (Hd Hdf). simpl. by rewrite app_nil_r.
Qed.

(** A saved snapshot leaves nothing that awaits its fsync. *)
Lemma good_snap_inv boot s base rs k index term data conf tscript s' :
  good_inv boot s base rs k -> conf_fits conf -> (index < two64)%N -> (term < two64)%N ->
  saveSnapshot Marshal s index term data conf tscript = Some (None, s') ->
  s' = s \/ exists base' rs', good_inv boot s' base' rs' (length rs') /\ ds_log s' = filter (fun e => index < en_Index e)%N (ds_log s) /\ ds_snapIndex s' = index.
Proof.
  intros [Hl Hf Hen Hh Hb Hco Htl Hd] Hc Hi Ht H.
  destruct (saveSnapshot_log _ _ _ _ _ _ _ _ _ _ Hl Hf Hen Hh Hc H) as (Hf' & Hen' & Et & Ev & [[[?| ->] Hl']|[Hl' Hn]]);
    [done|by left|right].
  destruct (Hn eq_refl) as (Hfiles & Hgt & Hlog & Hconf & Hsi & Hst & Hsn & Hdf).
  destruct (load_saved index term data conf boot Hi Ht Hc) as (base' & Hb' & Bi & Bt & Bs & Bl).
  exists base', (rewritten s' conf). split; [|done].
  split; [done..|unfold hard_fits; by rewrite Et, Ev|by rewrite Hfiles| |by rewrite drop_all|done].
  unfold rewritten. cbn [foldl apply_rec]. rewrite bool_decide_true by apply conf_size, Hc.
  rewrite replay_appends; unfold core, stable; simpl; [|].
  - by rewrite Bl, Bi, Bt, Bs, Hconf, Hsi, Hst, Hsn.
  - rewrite Bi, Hlog. apply Forall_forall. by intros e [? _]%list_elem_of_filter.
Qed.

Lemma ds_good_inv boot s : ds_good boot s -> exists base rs k, good_inv boot s base rs k.
Proof.
  induction 1 as [ds ws|s t v s' _ IH Ht Hv H|s es s' _ IH He Hgt H|s s' _ IH H|s c s' _ IH Hc H
                 |s index term data conf tscript s' _ IH Hc Hi Ht H].
  - eexists _, [], 0. split; [apply fresh_log|by intros m|done|done|done|done|done|done].
  - destruct IH as (base & rs & k & Hg). eexists base, _, _.
    eapply (good_synced boot s base rs k (RecHard t v) (set_hard s t v)); done.
  - destruct IH as (base & rs & k & Hg). eexists base, _, k. by eapply good_append_inv.
  - destruct IH as (base & rs & k & [Hl Hf Hen Hh Hb Hc Htl Hd]). destruct (sync_log _ _ _ _ _ Hl H) as [Hl' [w ->]].
    eexists base, rs, _. split; [exact Hl'|done..| |].
    + destruct (ds_dirty s); [by rewrite drop_all|done].
    + destruct (ds_dirty s); [done|]. intros _. by apply Hd.
  - destruct IH as (base & rs & k & Hg). eexists base, _, _.
    eapply (good_synced boot s base rs k (RecConf c) (set_conf s c)); try done; [|apply Hg].
    simpl. rewrite bool_decide_true; [done|]. apply conf_size, Hc.
  - destruct IH as (base & rs & k & Hg). destruct (good_snap_inv _ _ _ _ _ _ _ _ _ _ _ Hg Hc Hi Ht H) as [->|(base' & rs' & Hg' & _)];
      [by exists base, rs, k|by eexists _, _, _].
Qed.

(** ** Properties *)

(** What a crash leaves: the records up to some [j], with all that were fsynced. *)
Lemma good_recovers boot s base rs k w n :
  good_inv boot s base rs k -> ds_wal s = Some w ->
  exists s' j, openDiskStorage (ds_files s) (Some (crash (wal_file w) n)) boot = Ok s' /\ stable s' = stable s /\
    is_Some (ds_wal s') /\ ds_log s' = ds_log (foldl apply_rec base (take j rs)) /\ k <= j.
Proof using Hproto.
  intros [Hl Hf Hen Hh Hb Hc Htl Hd] Hw.
  destruct Hl as (Hok & Hk & Hl). destruct (Hl w Hw) as (ps & qs & Hwi & Hrec & Hkp).
  destruct (open_crashed _ _ _ _ _ _ _ n Hb Hwi Hrec Hok) as (s' & j & Ho & Hj & w' & ->).
  eexists _, j. split; [exact Ho|]. split_and!; [|by eexists|done|lia].
  - change (stable (foldl apply_rec base (take j rs)) = stable s).
    transitivity (stable (foldl apply_rec base rs)); [|symmetry; exact (f_equal fst Hc)].
    replace (foldl apply_rec base rs) with (foldl apply_rec (foldl apply_rec base (take j rs)) (drop j rs))
      by by rewrite <-foldl_app, take_drop.
    symmetry. apply replay_stable.
    replace (drop j rs) with (drop (j - k) (drop k rs)); [by apply Forall_drop|].
    rewrite drop_drop. f_equal. lia.
Qed.

(** A storage closed without an error and opened again is as it was. *)
Lemma good_reopen boot s base rs k s1 w s' :
  good_inv boot s base rs k -> ds_close s = Some (None, s1) -> ds_wal s1 = Some w ->
  openDiskStorage (ds_files s) (Some (reopen (wal_file w))) boot = Ok s' ->
  good_inv boot s' base rs (length rs) /\ core s' = core s /\ ds_script s' = [] /\
    exists w' f', OpenWAL (reopen (wal_file w)) = (Ok w', f') /\ ds_wal s' = Some w'.
Proof using Hproto.
  intros [Hl Hf Hen Hh Hb Hc Htl Hd] Hcl Hw H. destruct (close_reopen _ _ _ _ _ _ _ _ Hl Hcl Hw Hb H) as (Hl' & w' & f' & Eo & ->).
  assert (core (set_dswal (foldl apply_rec base rs) (Some w')) = core s) as Ec by by rewrite Hc.
  destruct (load_snapshot_ok (ds_files s) boot Hf) as (base' & Hb' & _ & _ & Bf & _ & Bs). rewrite Hb in Hb'. injection Hb' as <-.
  assert (ds_files (foldl apply_rec base rs) = ds_files s) as Ef by (pose proof (replay_snap rs base) as [=]; congruence).
  split; [|split_and!; [done|simpl; pose proof (replay_snap rs base) as [=]; congruence|by do 2 eexists]]. pose proof (f_equal snd Ec) as El. simpl in El. unfold core, stable in Ec. simpl in Ec. injection Ec as E1 E2 _ _ _ _ _.
  split; simpl; [exact Hl'|by rewrite Ef|by rewrite El|unfold hard_fits; simpl; by rewrite E1, E2|by rewrite Ef|done|by rewrite drop_all|done].
Qed.

(** C19. Raft's durable state survives a crash: after any sequence of setHardState,
    appendEntries, sync, setConfState and saveSnapshot calls that returned nil
    (on any device), cut the log at any byte beyond what was fsynced:
    openDiskStorage succeeds and finds the same term, vote, membership and
    snapshot, and, when no appended entry awaits its fsync (the dirty flag is
    clear), the same log. *)
Theorem storage_recovery boot s w n :
  ds_good boot s -> ds_wal s = Some w ->
  exists s', openDiskStorage (ds_files s) (Some (crash (wal_file w) n)) boot = Ok s' /\
    ds_term s' = ds_term s /\ ds_votedFor s' = ds_votedFor s /\ ds_conf s' = ds_conf s /\
    ds_snapIndex s' = ds_snapIndex s /\ ds_snapTerm s' = ds_snapTerm s /\ ds_snapshot s' = ds_snapshot s /\
    (ds_dirty s = false -> ds_log s' = ds_log s).
Proof using Hproto.
  intros (base & rs & k & Hg)%ds_good_inv Hw. destruct (good_recovers _ _ _ _ _ _ n Hg Hw) as (s' & j & Ho & Hst & _ & El & Hj).
  exists s'. split; [exact Ho|]. unfold stable in Hst. injection Hst as E1 E2 E3 E4 E5 E6.
  split_and!; [done..|]. intros Hdf. rewrite (gi_dirty _ _ _ _ _ Hg Hdf) in Hj. rewrite take_ge in El by lia.
  rewrite El. symmetry. apply (f_equal snd (gi_core _ _ _ _ _ Hg)).
Qed.

Lemma hard_state_recovers boot s h w n :
  ds_hist boot s h -> ds_wal s = Some w ->
  exists s', openDiskStorage (ds_files s) (Some (crash (wal_file w) n)) boot = Ok s' /\
    (ds_term s', ds_votedFor s') ∈ maybe h.
Proof using Hproto.
  intros (rs & k & [(Hok & Hk & Hl) Hf Hen Hh Hm Hd])%ds_hist_inv Hw.
  destruct (Hl w Hw) as (ps & qs & Hwi & Hrec & Hkp).
  destruct (load_snapshot_ok (ds_files s) boot Hf) as (base & Hb & Bt & Bv & _).
  destruct (open_crashed _ _ _ _ _ _ _ n Hb Hwi Hrec Hok) as (s' & j & Ho & Hj & w' & ->).
  eexists. split; [exact Ho|]. simpl.
  pose proof (replay_hard (take j rs) base) as Hr. rewrite Bt, Bv in Hr. rewrite Hr. apply Hd. lia.
Qed.

(** C37. A vote is durable: whatever calls are made on the storage and whichever of
    them fail part way, after a crash the storage opens with the term and vote of
    the last setHardState that returned nil, or of a failed one after it; an
    older vote never comes back. *)
Theorem hard_state_durable boot s h w n :
  ds_hist boot s h -> ds_wal s = Some w ->
  exists s', openDiskStorage (ds_files s) (Some (crash (wal_file w) n)) boot = Ok s' /\
    (ds_term s', ds_votedFor s') ∈ maybe h.
Proof using Hproto. apply hard_state_recovers. Qed.

End storage.

(** ** Witnesses: a concrete serializer and a short run *)

Definition entry_tuple (e : Entry) : N * N * bytes * Z * option (Z * N * bytes) :=
  (en_Term e, en_Index e, en_Data e, en_Type e,
   (fun c => (cc_Type c, cc_NodeId c, cc_Context c)) <$> en_ConfChange e).

Definition tuple_entry (t : N * N * bytes * Z * option (Z * N * bytes)) : Entry :=
  let '(term, index, data, ty, cc) := t in
  mkLogEntry term index data ty ((fun c => mkConfChange c.1.1 c.1.2 c.2) <$> cc).

Lemma tuple_entry_tuple e : tuple_entry (entry_tuple e) = e.
Proof. by destruct e as [t i d ty [[]|]]. Qed.

Fixpoint pos_bytes (p : positive) : bytes :=
  match p with
  | xH => []
  | xO p => x00 :: pos_bytes p
  | xI p => x01 :: pos_bytes p
  end.

Fixpoint bytes_pos (b : bytes) : positive :=
  match b with
  | [] => xH
  | c :: b => if decide (c = x00) then xO (bytes_pos b) else xI (bytes_pos b)
  end.

Lemma bytes_pos_bytes p : bytes_pos (pos_bytes p) = p.
Proof. induction p; simpl; by f_equal. Qed.

Definition sample_Marshal (e : Entry) : bytes := pos_bytes (encode (entry_tuple e)).
Definition sample_Unmarshal (b : bytes) : option Entry := tuple_entry <$> decode (bytes_pos b).

Lemma sample_roundtrip e : sample_Unmarshal (sample_Marshal e) = Some e.
Proof. unfold sample_Unmarshal, sample_Marshal. rewrite bytes_pos_bytes, decode_encode. cbn [fmap option_fmap option_map]. by rewrite tuple_entry_tuple. Qed.

Definition get_store (s0 : diskStorage) (o : option (option error * diskStorage)) : diskStorage :=
  match o with Some (_, s) => s | None => s0 end.

Definition sample_log_entries : list Entry :=
  [mkLogEntry 3 1 [] ENTRY_NORMAL None; mkLogEntry 3 2 (str "cmd") ENTRY_NORMAL None].
Definition store0 : diskStorage := fresh_store [1%N; 2%N; 3%N] [] [].
Definition store1 : diskStorage := get_store store0 (setHardState store0 3 1).
Definition store2 : diskStorage := get_store store1 (appendEntries sample_Marshal store1 sample_log_entries).
Definition store3 : diskStorage := get_store store2 (sync store2).
Definition store3_wal : WAL := default (mkWAL (Bufio.NewWriter empty_file) 0) (ds_wal store3).

Lemma storage_recovery_witness :
  exists s', openDiskStorage sample_Unmarshal (ds_files store3) (Some (crash (wal_file store3_wal) 4)) [1%N; 2%N; 3%N] = Ok s' /\
    ds_term s' = ds_term store3 /\ ds_votedFor s' = ds_votedFor store3 /\ ds_conf s' = ds_conf store3 /\
    ds_snapIndex s' = ds_snapIndex store3 /\ ds_snapTerm s' = ds_snapTerm store3 /\ ds_snapshot s' = ds_snapshot store3 /\
    (ds_dirty store3 = false -> ds_log s' = ds_log store3).
Proof.
  apply (storage_recovery sample_Marshal sample_Unmarshal sample_roundtrip [1%N; 2%N; 3%N] store3 store3_wal 4).
  - apply (good_sync sample_Marshal [1%N; 2%N; 3%N] store2 store3); [|vm_compute; reflexivity].
    apply (good_append sample_Marshal [1%N; 2%N; 3%N] store1 sample_log_entries store2).
    + apply (good_hard sample_Marshal [1%N; 2%N; 3%N] store0 3 1 store1);
        [constructor|vm_compute; reflexivity|vm_compute; reflexivity|vm_compute; reflexivity].
    + repeat constructor; vm_compute; reflexivity.
    + repeat constructor; vm_compute; reflexivity.
    + vm_compute; reflexivity.
  - vm_compute; reflexivity.
Defined.

(** The second vote is written but its fsync fails. *)
Definition vote0 : diskStorage := fresh_store [1%N; 2%N; 3%N] [] [Done; Done; Done; FailAfter 0].
Definition vote1 : diskStorage := get_store vote0 (setHardState vote0 3 1).
Definition vote2 : diskStorage := get_store vote1 (setHardState vote1 4 2).
Definition vote2_wal : WAL := default (mkWAL (Bufio.NewWriter empty_file) 0) (ds_wal vote2).

Lemma hard_state_durable_witness :
  maybe [(3, 1, true); (4, 2, false)]%N = [(3, 1); (4, 2)]%N /\
  exists s', openDiskStorage sample_Unmarshal (ds_files vote2) (Some (crash (wal_file vote2_wal) 9)) [1%N; 2%N; 3%N] = Ok s' /\
    (ds_term s', ds_votedFor s') ∈ maybe [(3, 1, true); (4, 2, false)]%N.
Proof.
  split; [reflexivity|].
  apply (hard_state_durable sample_Marshal sample_Unmarshal sample_roundtrip [1%N; 2%N; 3%N] vote2
           [(3, 1, true); (4, 2, false)]%N vote2_wal 9).
  - apply (hist_hard sample_Marshal sample_Unmarshal [1%N; 2%N; 3%N] vote1 [(3, 1, true)]%N 4 2 (Some EIO) vote2);
      [|vm_compute; reflexivity|vm_compute; reflexivity|vm_compute; reflexivity].
    apply (hist_hard sample_Marshal sample_Unmarshal [1%N; 2%N; 3%N] vote0 [] 3 1 None vote1);
      [constructor|vm_compute; reflexivity|vm_compute; reflexivity|vm_compute; reflexivity].
  - vm_compute; reflexivity.
Defined.
