(* ===== verification/StorageMem.v ===== *)
(** raft/storage.go: what each operation does to the state in memory, whatever
    its outcome, and that none of them panics while the log is open. *)

From S2P Require Import Prelude Bytes GoIO Wal Messages ConfState DiskStorage StorageCorrect.

(** The log handle is not nil. *)
Definition wal_open (s : diskStorage) : Prop := is_Some (ds_wal s).

(** ** One record *)

Lemma append_sync_mem s rec err s' :
  append_sync s rec = Some (err, s') -> exists w, s' = set_dswal s (Some w).
Proof.
  unfold append_sync. destruct (ds_wal s) as [w|]; [|done]. simpl.
  destruct (Append w rec) as [[er|] w1]; [intros [= <- <-]; by eexists|].
  destruct (Sync w1) as [err1 w2]. intros [= <- <-]. by eexists.
Qed.

Lemma append_sync_total s rec : wal_open s -> exists err s', append_sync s rec = Some (err, s').
Proof.
  intros [w Hw]. unfold append_sync. rewrite Hw. simpl. destruct (Append w rec) as [[er|] w1]; [by do 2 eexists|].
  destruct (Sync w1). by do 2 eexists.
Qed.

Lemma setHardState_mem s t v err s' :
  setHardState s t v = Some (err, s') -> exists w, s' = set_dswal (set_hard s t v) (Some w).
Proof. apply append_sync_mem. Qed.

Lemma setHardState_total s t v : wal_open s -> exists err s', setHardState s t v = Some (err, s').
Proof. intros H. by apply append_sync_total. Qed.

Lemma setConfState_mem s c err s' :
  setConfState s c = Some (err, s') -> exists w, s' = set_dswal (set_conf s c) (Some w).
Proof. apply append_sync_mem. Qed.

Lemma setConfState_total s c : wal_open s -> exists err s', setConfState s c = Some (err, s').
Proof. intros H. by apply append_sync_total. Qed.

Lemma sync_mem s err s' :
  sync s = Some (err, s') -> exists w d, s' = set_dirty (set_dswal s w) d /\ (wal_open s -> is_Some w).
Proof.
  unfold sync. destruct (ds_dirty s) eqn:Ed; simpl.
  - destruct (ds_wal s) as [w|] eqn:Ew; [|done]. simpl.
    destruct (Sync w) as [[er|] w1]; intros [= <- <-]; (exists (Some w1); eexists); (split; [|by eexists]);
      [|reflexivity]. instantiate (1 := true). destruct s; simpl in *. by subst.
  - intros [= <- <-]. exists (ds_wal s), false. split; [|done]. destruct s; simpl in *. by subst.
Qed.

Lemma sync_total s : wal_open s -> exists err s', sync s = Some (err, s').
Proof.
  intros [w Hw]. unfold sync. destruct (ds_dirty s); simpl; [|by do 2 eexists].
  rewrite Hw. simpl. destruct (Sync w) as [[er|] w1]; by do 2 eexists.
Qed.

Section storage.
Context (Marshal : Entry -> bytes).

(** ** Appending *)

Lemma ds_Append_mem s rec err s' : ds_Append s rec = Some (err, s') -> exists w, s' = set_dswal s (Some w).
Proof.
  unfold ds_Append. destruct (ds_wal s) as [w|]; [|done]. simpl.
  destruct (Append w rec). intros [= <- <-]. by eexists.
Qed.

Lemma ds_Append_total s rec : wal_open s -> exists err s', ds_Append s rec = Some (err, s').
Proof. intros [w Hw]. unfold ds_Append. rewrite Hw. simpl. destruct (Append w rec). by do 2 eexists. Qed.

Lemma append_loop_mem es s err s' :
  append_loop Marshal s es = Some (err, s') ->
  exists j w, s' = set_log (set_dswal s w) (ds_log s ++ take j es) /\ (wal_open s -> is_Some w) /\
    (err = None -> length es <= j).
Proof.
  revert s. induction es as [|e es IH]; intros s; cbn [append_loop].
  { intros [= <- <-]. exists 0, (ds_wal s). rewrite app_nil_r. split; [by destruct s|done]. }
  destruct (ds_Append s _) as [[e1 s1]|] eqn:Ea; [|done]. simpl. apply ds_Append_mem in Ea as [w1 ->].
  destruct e1 as [er|].
  { intros [= <- <-]. exists 0, (Some w1). rewrite app_nil_r. split; [by destruct s|]. split; [by eexists|done]. }
  intros (j & w & -> & Hw & Hj)%IH. exists (S j), w. simpl. rewrite <-(assoc_L (++)). split; [done|].
  split; [|intros He; apply le_n_S; auto]. intros _. apply Hw. by eexists.
Qed.

Lemma append_loop_total es s : wal_open s -> exists err s', append_loop Marshal s es = Some (err, s').
Proof.
  revert s. induction es as [|e es IH]; intros s Hw; cbn [append_loop]; [by do 2 eexists|].
  destruct (ds_Append_total s (encodeEntry Marshal e) Hw) as (e1 & s1 & Ea). rewrite Ea. simpl.
  apply ds_Append_mem in Ea as [w ->]. destruct e1; [by do 2 eexists|]. apply IH. by eexists.
Qed.

(** appendEntries leaves the log as it was, or cut at the first new index and
    followed by some of the entries: all of them when it returns nil. *)
Lemma appendEntries_mem s es err s' :
  appendEntries Marshal s es = Some (err, s') ->
  exists l w d, s' = set_dirty (set_log (set_dswal s w) l) d /\ (wal_open s -> is_Some w) /\
    (l = ds_log s /\ (err <> None \/ es = []) \/
     exists j, l = after_truncate s es ++ take j es /\ (err = None -> length es <= j)).
Proof.
  unfold appendEntries. destruct es as [|e0 es0].
  { intros [= <- <-]. exists (ds_log s), (ds_wal s), (ds_dirty s). split; [by destruct s|]. split; [done|]. left. by auto. }
  remember (e0 :: es0) as es eqn:Hes.
  assert (Hloop : forall s1 w1, s1 = set_log (set_dswal s w1) (after_truncate s es) -> (wal_open s -> is_Some w1) ->
    ('(err, s2) ← append_loop Marshal s1 es;
     match err with Some er => Some (Some er, s2) | None => Some (None, set_dirty s2 true) end) = Some (err, s') ->
    exists l w d, s' = set_dirty (set_log (set_dswal s w) l) d /\ (wal_open s -> is_Some w) /\
      (l = ds_log s /\ (err <> None \/ es = []) \/
       exists j, l = after_truncate s es ++ take j es /\ (err = None -> length es <= j))).
  { intros s1 w1 -> Hw1. destruct (append_loop Marshal _ es) as [[e2 s2]|] eqn:El; [|done]. simpl.
    apply append_loop_mem in El as (j & w & -> & Hw & Hj).
    assert (wal_open s -> is_Some w) as Hw' by (intros Hs; apply Hw, Hw1, Hs).
    destruct e2 as [er|]; intros [= <- <-]; simpl.
    - exists (after_truncate s es ++ take j es), w, (ds_dirty s). split; [done|]. split; [done|]. right. by exists j.
    - exists (after_truncate s es ++ take j es), w, true. split; [done|]. split; [done|]. right. by exists j. }
  unfold after_truncate, truncate_first in Hloop. rewrite Hes in Hloop |- *. cbn [mbind option_bind] in *.
  unfold after_truncate, truncate_first.
  destruct (last (ds_log s)) as [l|]; [destruct (_ <=? _)%N|].
  - destruct (ds_Append s _) as [[e1 s1]|] eqn:Ea; [|done]. simpl. apply ds_Append_mem in Ea as [w1 ->].
    destruct e1 as [er|]; simpl.
    + intros [= <- <-]. exists (ds_log s), (Some w1), (ds_dirty s). split; [by destruct s|]. split; [by eexists|]. left. auto.
    + apply (Hloop _ (Some w1)); [done|by eexists].
  - apply (Hloop _ (ds_wal s)); [by destruct s|done].
  - apply (Hloop _ (ds_wal s)); [by destruct s|done].
Qed.

Lemma appendEntries_total s es : wal_open s -> exists err s', appendEntries Marshal s es = Some (err, s').
Proof.
  intros Hw. unfold appendEntries. destruct es as [|e0 es0]; [by do 2 eexists|].
  assert (Hloop : forall s1, wal_open s1 -> exists err s',
    ('(err, s2) ← append_loop Marshal s1 (e0 :: es0);
     match err with Some er => Some (Some er, s2) | None => Some (None, set_dirty s2 true) end) = Some (err, s')).
  { intros s1 Hw1. destruct (append_loop_total (e0 :: es0) s1 Hw1) as (e2 & s2 & ->). simpl. destruct e2; by do 2 eexists. }
  cbn [mbind option_bind] in *. destruct (last (ds_log s)) as [l|]; [destruct (_ <=? _)%N|]; [|by apply Hloop..].
  destruct (ds_Append_total s (truncate_record (en_Index e0)) Hw) as (e1 & s1 & Ea). rewrite Ea. simpl.
  apply ds_Append_mem in Ea as [w ->]. destruct e1; simpl; [by do 2 eexists|]. apply Hloop. by eexists.
Qed.

(** ** Snapshots *)

Lemma write_snapshot_files_same s index term data conf err s' :
  write_snapshot_files s index term data conf = (err, s') -> exists f scr, s' = set_files s f scr.
Proof.
  unfold write_snapshot_files.
  destruct (ds_call s) as [o1 s1] eqn:E1. apply ds_call_ex in E1 as [scr1 ->].
  destruct (atomicWrite _ _ _) as [[er|] bin]; [intros [= <- <-]; by do 2 eexists|].
  destruct (ds_call (set_files _ _ _)) as [o2 s2] eqn:E2. apply ds_call_ex in E2 as [scr2 ->].
  destruct (atomicWrite _ _ _) as [[er|] meta]; [intros [= <- <-]; by do 2 eexists|].
  destruct (ds_call (set_files _ _ _)) as [o3 s3] eqn:E3. apply ds_call_ex in E3 as [scr3 ->].
  destruct (atomicWrite _ _ _) as [er cf]. intros [= <- <-]. by do 2 eexists.
Qed.

(** saveSnapshot leaves the replicated state as it was, or replaces the log up
    to [index] by the snapshot. *)
Lemma saveSnapshot_mem s index term data conf tscript err s' :
  saveSnapshot Marshal s index term data conf tscript = Some (err, s') ->
  ds_term s' = ds_term s /\ ds_votedFor s' = ds_votedFor s /\ (err = None -> wal_open s -> wal_open s') /\
  ((ds_log s' = ds_log s /\ ds_snapIndex s' = ds_snapIndex s /\ ds_snapTerm s' = ds_snapTerm s /\ ds_conf s' = ds_conf s /\
    (err <> None \/ (index <= ds_snapIndex s)%N)) \/
   ((ds_snapIndex s < index)%N /\ ds_log s' = filter (fun e => index < en_Index e)%N (ds_log s) /\
    ds_snapIndex s' = index /\ ds_snapTerm s' = term /\ ds_conf s' = conf /\ ds_snapshot s' = data)).
Proof.
  unfold saveSnapshot. destruct (N.leb_spec index (ds_snapIndex s)) as [Hle|Hgt].
  { intros [= <- <-]. split_and!; [done..|auto|]. left. split_and!; auto. }
  destruct (write_snapshot_files _ _ _ _ _) as [err1 s1] eqn:Ew.
  apply write_snapshot_files_same in Ew as (f & scr & ->).
  destruct err1 as [er|].
  { intros [= <- <-]. simpl. split_and!; [done..|]. left. split_and!; auto. }
  set (s2 := set_snap _ _ _ _ _ _).
  assert (Hnew : forall (err : option error) s3, (exists f' scr' w d, s3 = set_dirty (set_dswal (set_files s2 f' scr') w) d) ->
    (err = None -> wal_open s3) ->
    ds_term s3 = ds_term s /\ ds_votedFor s3 = ds_votedFor s /\ (err = None -> wal_open s -> wal_open s3) /\
    ((ds_log s3 = ds_log s /\ ds_snapIndex s3 = ds_snapIndex s /\ ds_snapTerm s3 = ds_snapTerm s /\ ds_conf s3 = ds_conf s /\
      (err <> None \/ (index <= ds_snapIndex s)%N)) \/
     ((ds_snapIndex s < index)%N /\ ds_log s3 = filter (fun e => index < en_Index e)%N (ds_log s) /\
      ds_snapIndex s3 = index /\ ds_snapTerm s3 = term /\ ds_conf s3 = conf /\ ds_snapshot s3 = data))).
  { intros err3 s3 (f' & scr' & w & d & ->) Hw. simpl in *. split_and!; [done..|auto|]. right. done. }
  assert (H2 : exists f' scr' w d, s2 = set_dirty (set_dswal (set_files s2 f' scr') w) d)
    by (exists f, scr, (ds_wal s2), (ds_dirty s2); by destruct s).
  destruct (OpenWAL _) as [[nw|er|] f0]; [| |done]; [|intros [= <- <-]; by apply Hnew].
  destruct (append_all _ _) as [[er|] nw1]; [intros [= <- <-]; by apply Hnew|].
  destruct (Close nw1) as [[er|] nw2]; [intros [= <- <-]; by apply Hnew|].
  destruct (ds_wal s2) as [w|]; [|done]. simpl. destruct (Close w) as [[er|] w1].
  { intros [= <- <-]. apply Hnew; [|done]. exists f, scr, (Some w1), (ds_dirty s2). by destruct s. }
  destruct (ds_call (set_dswal s2 (Some w1))) as [o s4] eqn:Ed. apply ds_call_ex in Ed as [scr' ->].
  destruct o as [|n].
  2:{ intros [= <- <-]. apply Hnew; [|done]. exists f, scr', (Some w1), (ds_dirty s2). by destruct s. }
  destruct (OpenWAL _) as [[w2|er|] f2]; [| |done]; intros [= <- <-]; apply Hnew.
  - exists f, scr', (Some w2), false. done.
  - intros _. by eexists.
  - exists f, scr', None, false. done.
  - done.
Qed.

Lemma saveSnapshot_total s index term data conf tscript :
  wal_open s -> exists err s', saveSnapshot Marshal s index term data conf tscript = Some (err, s').
Proof.
  intros [w Hw]. unfold saveSnapshot. destruct (_ <=? _)%N; [by do 2 eexists|].
  destruct (write_snapshot_files _ _ _ _ _) as [err1 s1] eqn:Ew. apply write_snapshot_files_same in Ew as (f & scr & ->).
  destruct err1; [by do 2 eexists|]. set (s2 := set_snap _ _ _ _ _ _).
  pose proof (OpenWAL_no_panic (mkFile [] [] tscript false)) as Hp.
  destruct (OpenWAL _) as [[nw|er|] f0]; [|by do 2 eexists|done].
  destruct (append_all _ _) as [[er|] nw1]; [by do 2 eexists|].
  destruct (Close nw1) as [[er|] nw2]; [by do 2 eexists|].
  assert (ds_wal s2 = Some w) as -> by done. simpl. destruct (Close w) as [[er|] w1]; [by do 2 eexists|].
  destruct (ds_call _) as [[|n] s4]; [|by do 2 eexists].
  pose proof (OpenWAL_no_panic (reopen (wal_file nw2))) as Hp2.
  destruct (OpenWAL _) as [[w2|er|] f2]; [by do 2 eexists..|done].
Qed.

End storage.
