(* ===== verification/LogFacts.v ===== *)
(** raft/storage.go: appending and compacting keep the log contiguous, and which
    entries they keep. *)

From S2P Require Import Prelude Bytes GoIO Wal Messages ConfState DiskStorage StorageCorrect StorageMem.

(** Entries with consecutive indexes from [first]. *)
Definition contiguous (first : N) (es : list Entry) : Prop :=
  forall i e, es !! i = Some e -> en_Index e = (first + N.of_nat i)%N.

Lemma contiguous_cons first e es :
  contiguous first (e :: es) <-> en_Index e = first /\ contiguous (first + 1) es.
Proof.
  split.
  - intros H. split; [specialize (H 0 e eq_refl); lia|]. intros i x Hx. specialize (H (S i) x Hx). lia.
  - intros [He H] [|i] x; simpl; [intros [= <-]; lia|]. intros Hx. specialize (H i x Hx). lia.
Qed.

Lemma contiguous_app first es fs :
  contiguous first (es ++ fs) <-> contiguous first es /\ contiguous (first + len es) fs.
Proof.
  revert first. induction es as [|e es IH]; intros first; simpl.
  - replace (first + len [])%N with first by (unfold len; simpl; lia). split; [|tauto]. intros H. split; [by intros i e|done].
  - rewrite !contiguous_cons, IH, len_cons. replace (first + (1 + len es))%N with (first + 1 + len es)%N by lia. tauto.
Qed.

Lemma contiguous_take first es j : contiguous first es -> contiguous first (take j es).
Proof. intros H i e He. apply lookup_take_Some in He as [He _]. by apply H. Qed.

Lemma log_wf_contiguous s :
  log_wf s <-> contiguous (ds_snapIndex s + 1) (ds_log s) /\ (ds_snapIndex s + len (ds_log s) + 1 < two64)%N.
Proof. split; [by intros []|by intros []; split]. Qed.

(** Only the snapshot index and the log matter. *)
Lemma log_wf_ext s s' : ds_snapIndex s' = ds_snapIndex s -> ds_log s' = ds_log s -> log_wf s -> log_wf s'.
Proof. intros E1 E2. rewrite !log_wf_contiguous, E1, E2. done. Qed.

(** ** Appending *)

(** The place of an index in the log. *)
Definition pos (s : diskStorage) (i : N) : nat := N.to_nat (i - ds_snapIndex s - 1).

Lemma after_truncate_wf s e0 es :
  log_wf s -> (ds_snapIndex s < en_Index e0 <= log_end s)%N ->
  after_truncate s (e0 :: es) = take (pos s (en_Index e0)) (ds_log s).
Proof.
  intros Hwf He. unfold after_truncate, truncate_first. pose proof (lastIndex_wf s Hwf) as Hl.
  unfold lastIndex in Hl. destruct (last (ds_log s)) as [l|] eqn:El.
  - destruct (N.leb_spec (en_Index e0) (en_Index l)); [by apply truncate_wf|].
    rewrite take_ge; [done|]. unfold pos, log_end, len in *. lia.
  - apply last_None in El. by rewrite El, take_nil.
Qed.

Lemma wf_append s e0 es j :
  log_wf s -> (ds_snapIndex s < en_Index e0 <= log_end s)%N -> contiguous (en_Index e0) (e0 :: es) ->
  (en_Index e0 + len (e0 :: es) < two64)%N ->
  log_wf (set_log s (take (pos s (en_Index e0)) (ds_log s) ++ take j (e0 :: es))).
Proof.
  intros Hwf He Hc Hb. pose proof Hwf as [Hc0 Hb0]%log_wf_contiguous. apply log_wf_contiguous. simpl.
  assert (length (take (pos s (en_Index e0)) (ds_log s)) = pos s (en_Index e0)) as Hlen.
  { rewrite length_take. unfold pos, log_end, len in *. lia. }
  split.
  - apply contiguous_app. split; [by apply contiguous_take|]. apply contiguous_take.
    unfold len. rewrite Hlen. unfold pos. replace (_ + _)%N with (en_Index e0) by lia. done.
  - rewrite len_app. unfold len at 1 2. rewrite Hlen, length_take. unfold pos, len in *. simpl in *. lia.
Qed.

(** Where the entries of such a log come from. *)
Lemma entry_of_append s e0 new i :
  log_wf s -> (ds_snapIndex s < en_Index e0 <= log_end s)%N ->
  entry_of (set_log s (take (pos s (en_Index e0)) (ds_log s) ++ new)) i =
    if (i <? en_Index e0)%N then entry_of s i else new !! N.to_nat (i - en_Index e0).
Proof.
  intros Hwf He. unfold entry_of; simpl.
  assert (length (take (pos s (en_Index e0)) (ds_log s)) = pos s (en_Index e0)) as Hlen.
  { rewrite length_take. unfold pos, log_end, len in *. lia. }
  destruct (N.leb_spec i (ds_snapIndex s)), (N.ltb_spec i (en_Index e0)); [done|lia|..].
  - rewrite lookup_app_l by (rewrite Hlen; unfold pos; lia). apply lookup_take_lt. unfold pos. lia.
  - rewrite lookup_app_r by (rewrite Hlen; unfold pos; lia). f_equal. rewrite Hlen. unfold pos. lia.
Qed.

(** ** Compacting *)

Lemma filter_suffix (P : Entry -> Prop) `{!forall e, Decision (P e)} k (l : list Entry) :
  Forall (fun e => ~ P e) (take k l) -> Forall P (drop k l) -> filter P l = drop k l.
Proof.
  intros H1 H2. rewrite <-(take_drop k l) at 1. rewrite filter_app, (filter_all P (drop k l)) by done.
  assert (filter P (take k l) = []) as ->; [|done].
  induction H1 as [|e l' He _ IH]; [done|]. by rewrite filter_cons_False.
Qed.

Lemma kept_drop s index :
  log_wf s -> (ds_snapIndex s < index)%N ->
  filter (fun e => index < en_Index e)%N (ds_log s) = drop (N.to_nat (index - ds_snapIndex s)) (ds_log s).
Proof.
  intros [Hc _]%log_wf_contiguous Hi. apply filter_suffix; apply Forall_lookup_2; intros i e He.
  - apply lookup_take_Some in He as [He Hlt]. apply Hc in He. lia.
  - rewrite lookup_drop in He. apply Hc in He. lia.
Qed.

Lemma wf_compact s index term data conf :
  log_wf s -> (ds_snapIndex s < index)%N -> (index + 1 < two64)%N ->
  let s' := set_snap s (filter (fun e => index < en_Index e)%N (ds_log s)) index term data conf in
  log_wf s' /\ (log_end s <= log_end s')%N.
Proof.
  intros Hwf Hi Hb. cbn zeta. rewrite kept_drop by done. pose proof Hwf as [Hc Hb0]%log_wf_contiguous.
  rewrite log_wf_contiguous. unfold log_end; simpl. unfold len in *. rewrite length_drop. split; [split|lia]; [|lia].
  intros i e He. rewrite lookup_drop in He. apply Hc in He. lia.
Qed.
