(* ===== verification/DurableLog.v ===== *)
(** raft/storage.go on a device that does not fail: every call succeeds, and what a
    crash loses is at most the last entries appended since the last fsync. *)

From S2P Require Import Prelude Bytes GoIO Wal Messages ConfState DiskStorage StorageCorrect StorageMem LogFacts.
#[local] Open Scope nat_scope.

Section durable.
Context (Marshal : Entry -> bytes) (Unmarshal : bytes -> option Entry).
Context (Hproto : forall e, Unmarshal (Marshal e) = Some e).
Context (boot : list N).

Abbreviation entry_ok := (entry_ok Marshal).
Abbreviation good_inv := (good_inv Marshal boot).

(** ** The device *)

Definition healthy_wal (w : WAL) : Prop := healthy (wal_file w) /\ Bufio.w_err (buf w) = None.
Definition healthy_store (s : diskStorage) : Prop := ds_script s = [] /\ exists w, ds_wal s = Some w /\ healthy_wal w.

(** The entries are above the snapshot. *)
Definition above_snap (s : diskStorage) : Prop := Forall (fun e => ds_snapIndex s < en_Index e)%N (ds_log s).

(** Every call so far succeeded. *)
Definition sound_store (s : diskStorage) : Prop :=
  healthy_store s /\ above_snap s /\ exists base rs k, good_inv s base rs k.

(** ... and at most the last [d] entries of the log are not yet fsynced. *)
Definition disk (s : diskStorage) (d : nat) : Prop :=
  healthy_store s /\ above_snap s /\ exists base rs k d0, good_inv s base rs k /\ d0 <= d /\ d0 <= length (ds_log s) /\
    drop k rs = RecAppend <$> drop (length (ds_log s) - d0) (ds_log s).

Lemma disk_sound s d : disk s d -> sound_store s.
Proof. intros (H1 & H2 & base & rs & k & d0 & H3 & _). split; [done|]. split; [done|]. by exists base, rs, k. Qed.

Lemma disk_weaken s d d' : d <= d' -> disk s d -> disk s d'.
Proof. intros Hle (H1 & H2 & base & rs & k & d0 & H3 & H4 & H5). split; [done|]. split; [done|]. exists base, rs, k, d0. split_and!; [done|lia|apply H5..]. Qed.

Lemma disk_synced s base rs : healthy_store s -> above_snap s -> good_inv s base rs (length rs) -> disk s 0.
Proof.
  intros H1 H2 H3. split; [done|]. split; [done|]. exists base, rs, (length rs), 0. split_and!; [done|done|lia|].
  by rewrite Nat.sub_0_r, !drop_all.
Qed.

Lemma fresh_disk ds ws : ds = [] -> ws = [] -> disk (fresh_store boot ds ws) 0.
Proof.
  intros -> ->. destruct (ds_good_inv Marshal boot (fresh_store boot [] [])) as (base & rs & k & Hg); [constructor|].
  pose proof (gi_dirty _ _ _ _ _ _ Hg eq_refl) as ->. eapply disk_synced; [|constructor|exact Hg].
  split; [done|]. by eexists.
Qed.

(** ** Records that are fsynced at once *)

Lemma append_sync_healthy s rec : healthy_store s -> exists w, append_sync s rec = Some (None, set_dswal s (Some w)) /\ healthy_wal w.
Proof.
  intros [_ (w & Ew & Hh & He)]. unfold append_sync. rewrite Ew. simpl. destruct (Append_no_fault w rec He Hh) as (w1 & -> & Hh1 & He1).
  destruct (Sync_no_fault w1 He1 Hh1) as (w2 & -> & Hh2 & He2). exists w2. split; [done|]. by split.
Qed.

Lemma setHardState_disk s t v err s' :
  sound_store s -> (t < two64)%N -> (v < two64)%N -> setHardState s t v = Some (err, s') -> err = None /\ disk s' 0.
Proof.
  intros (Hh & Ha & base & rs & k & Hg) Ht Hv H. destruct (append_sync_healthy (set_hard s t v) (hard_record t v)) as (w & E & Hw); [exact Hh|].
  unfold setHardState in H. rewrite E in H. injection H as <- <-. split; [done|].
  eapply disk_synced; [split; [apply Hh|by exists w]|exact Ha|].
  eapply (good_synced Marshal boot s base rs k (RecHard t v) (set_hard s t v)); try done.
Qed.

Lemma sync_disk s err s' : sound_store s -> sync s = Some (err, s') -> err = None /\ disk s' 0.
Proof.
  intros (Hh & Ha & base & rs & k & Hg) H. pose proof Hg as [Hl Hf Hen Hhf Hb Hc Htl Hd].
  assert (err = None /\ healthy_store s') as [-> Hh'].
  { revert H. unfold sync. destruct (ds_dirty s); simpl; [|by intros [= <- <-]]. destruct Hh as [Hs (w & Ew & Hw & He)]. rewrite Ew. simpl.
    destruct (Sync_no_fault w He Hw) as (w2 & -> & Hh2 & He2). intros [= <- <-]. split; [done|]. split; [exact Hs|]. by exists w2. }
  split; [done|]. destruct (sync_log Marshal _ _ _ _ _ Hl H) as [Hl' [w ->]].
  assert ((if ds_dirty s then length rs else k) = length rs) as Ek by (destruct (ds_dirty s) eqn:Ed; [done|by apply Hd]).
  eapply (disk_synced _ base rs); [done|exact Ha|]. split; [by rewrite Ek in Hl'|done..|by rewrite drop_all|done].
Qed.

(** ** Entries *)

Lemma append_loop_healthy es s : healthy_store s -> exists s', append_loop Marshal s es = Some (None, s') /\ healthy_store s'.
Proof.
  revert s. induction es as [|e es IH]; intros s Hh; cbn [append_loop]; [by exists s|]. unfold ds_Append.
  destruct Hh as [Hs (w & Ew & Hw & He)]. rewrite Ew. simpl. destruct (Append_no_fault w (encodeEntry Marshal e) He Hw) as (w1 & -> & Hh1 & He1).
  apply IH. split; [exact Hs|]. by exists w1.
Qed.

Lemma appendEntries_healthy es s err s' : healthy_store s -> appendEntries Marshal s es = Some (err, s') -> err = None /\ healthy_store s'.
Proof.
  intros Hh. unfold appendEntries. destruct es as [|e0 es0]; [by intros [= <- <-]|]. remember (e0 :: es0) as es. clear Heqes.
  assert (forall s1, healthy_store s1 -> ('(err, s2) ← append_loop Marshal s1 es;
     match err with Some er => Some (Some er, s2) | None => Some (None, set_dirty s2 true) end) = Some (err, s') -> err = None /\ healthy_store s') as Hloop.
  { intros s1 H1. destruct (append_loop_healthy es s1 H1) as (s2 & -> & H2). simpl. intros [= <- <-]. by split. }
  cbn [mbind option_bind] in *. destruct (last (ds_log s)) as [l|]; [destruct (_ <=? _)%N|]; [|by apply Hloop..].
  unfold ds_Append. destruct Hh as [Hs (w & Ew & Hw & He)]. rewrite Ew. simpl.
  destruct (Append_no_fault w (truncate_record (en_Index e0)) He Hw) as (w1 & -> & Hh1 & He1). simpl. apply Hloop. split; [exact Hs|]. by exists w1.
Qed.

(** Appending anywhere, to be fsynced by the next call. *)
Lemma appendEntries_sound s es err s' :
  sound_store s -> Forall entry_ok es -> Forall (fun e => ds_snapIndex s < en_Index e)%N es ->
  appendEntries Marshal s es = Some (err, s') -> err = None /\ sound_store s'.
Proof.
  intros (Hh & Ha & base & rs & k & Hg) He Hgt H. destruct (appendEntries_healthy _ _ _ _ Hh H) as [-> Hh']. split; [done|].
  destruct (good_append_inv _ _ _ _ _ _ _ _ Hg He Hgt H) as (Hg' & El & Es). split; [done|]. split; [|by eexists _, _, _].
  unfold above_snap. rewrite El, Es. apply Forall_app. split; [|done]. unfold after_truncate.
  destruct (truncate_first s es) as [|[]]; try done. by apply Forall_truncate.
Qed.

(** One entry behind the log. *)
Lemma append_disk s d e err s' :
  disk s d -> entry_ok e -> log_wf s -> en_Index e = log_end s -> appendEntries Marshal s [e] = Some (err, s') ->
  err = None /\ ds_log s' = ds_log s ++ [e] /\ ds_snapIndex s' = ds_snapIndex s /\ disk s' (S d).
Proof.
  intros (Hh & Ha & base & rs & k & d0 & Hg & Hd & Hle & Ht) He Hwf Hi H. destruct (appendEntries_healthy _ _ _ _ Hh H) as [-> Hh'].
  assert (ds_snapIndex s < en_Index e)%N as Hgt by (rewrite Hi; unfold log_end; lia).
  destruct (good_append_inv Marshal boot s base rs k [e] s' Hg) as (Hg' & El & Es); [by constructor|by constructor|done|].
  rewrite after_truncate_wf, take_ge in El by (done || (rewrite Hi; unfold pos, log_end, len; lia)).
  assert (truncate_first s [e] = []) as Etr.
  { unfold truncate_first. pose proof (lastIndex_wf s Hwf) as Hl. unfold lastIndex in Hl. destruct (last (ds_log s)) as [l|] eqn:E; [|done].
    rewrite (proj2 (N.leb_gt _ _)); [done|]. unfold log_end, len in *. lia. }
  split; [done|]. split; [done|]. split; [done|]. split; [done|]. split; [unfold above_snap; rewrite El, Es; apply Forall_app; by split; [|constructor]|].
  rewrite Etr in Hg'. exists base, (rs ++ [RecAppend e]), k, (S d0). rewrite El, length_app. simpl. split_and!; [done|lia|lia|].
  destruct (gi_log _ _ _ _ _ _ Hg) as (_ & Hk & _). rewrite drop_app_le, Ht by done.
  replace (length (ds_log s) + 1 - S d0) with (length (ds_log s) - d0) by lia. by rewrite drop_app_le, fmap_app by lia.
Qed.

(** ** Snapshots *)

Lemma write_snapshot_files_healthy s index term data conf :
  ds_script s = [] -> exists f, write_snapshot_files s index term data conf = (None, set_files s f []).
Proof. destruct s. simpl. intros ->. by eexists. Qed.

Lemma append_all_healthy recs w : healthy_wal w -> exists w', append_all w recs = (None, w') /\ healthy_wal w'.
Proof.
  revert w. induction recs as [|r recs IH]; intros w [Hh He]; cbn [append_all]; [by exists w|].
  destruct (Append_no_fault w r He Hh) as (w1 & -> & Hh1 & He1). by apply IH.
Qed.

Lemma saveSnapshot_healthy s index term data conf err s' :
  healthy_store s -> saveSnapshot Marshal s index term data conf [] = Some (err, s') -> err = None /\ healthy_store s'.
Proof.
  intros [Hs (w & Ew & Hw)]. unfold saveSnapshot. destruct (_ <=? _)%N; [intros [= <- <-]; split; [done|]; split; [done|by exists w]|].
  destruct (write_snapshot_files_healthy s index term data conf Hs) as [f ->].
  set (s2 := set_snap _ _ _ _ _ _). cbv zeta. change (OpenWAL (mkFile [] [] [] false)) with (Ok (mkWAL (Bufio.NewWriter empty_file) 0), empty_file).
  destruct (append_all_healthy (rewrite_records Marshal s2 conf) (mkWAL (Bufio.NewWriter empty_file) 0)) as (nw & -> & [Hn Hne]); [done|].
  destruct (Close_no_fault nw Hne Hn) as (nw' & -> & Hsc). change (ds_wal s2) with (ds_wal s). rewrite Ew. cbn [mbind option_bind].
  destruct Hw as [Hw Hwe]. destruct (Close_no_fault w Hwe Hw) as (w' & -> & _). unfold ds_call. simpl.
  unfold OpenWAL, file_call, syscall, reopen. simpl. rewrite Hsc. simpl. intros [= <- <-]. split; [done|]. split; [done|]. by eexists.
Qed.

Lemma saveSnapshot_disk s d index term data conf err s' :
  disk s d -> conf_fits conf -> (index < two64)%N -> (term < two64)%N ->
  saveSnapshot Marshal s index term data conf [] = Some (err, s') -> disk s' d.
Proof.
  intros (Hh & Ha & base & rs & k & d0 & Hg & Hd) Hc Hi Ht H. destruct (saveSnapshot_healthy _ _ _ _ _ _ _ Hh H) as [-> Hh'].
  destruct (good_snap_inv _ _ _ _ _ _ _ _ _ _ _ _ Hg Hc Hi Ht H) as [->|(base' & rs' & Hg' & El & Es)].
  - split; [done|]. split; [done|]. by exists base, rs, k, d0.
  - apply (disk_weaken _ 0); [lia|]. eapply disk_synced; [done| |exact Hg']. unfold above_snap. rewrite El, Es.
    apply Forall_forall. by intros e [? _]%list_elem_of_filter.
Qed.

(** ** Recovery *)

(** A crash loses at most the entries that were not fsynced. *)
Lemma disk_recovers s d w n :
  disk s d -> ds_wal s = Some w ->
  exists s' m, openDiskStorage Unmarshal (ds_files s) (Some (crash (wal_file w) n)) boot = Ok s' /\ stable s' = stable s /\
    is_Some (ds_wal s') /\ ds_log s' = take m (ds_log s) /\ length (ds_log s) - d <= m.
Proof using Hproto.
  intros (Hh & Ha & base & rs & k & d0 & Hg & Hd & Hle & Ht) Hw.
  destruct (good_recovers _ _ Hproto _ _ _ _ _ _ n Hg Hw) as (s' & j & Ho & Hst & Hwal & El & Hj).
  exists s', (length (ds_log s) - d0 + (j - k)). split_and!; [done..| |lia]. rewrite El. clear El Ho Hst Hwal.
  destruct (gi_log _ _ _ _ _ _ Hg) as (_ & Hk & _). set (t := drop (length (ds_log s) - d0) (ds_log s)) in *.
  assert (length t = d0) as Hlt by (unfold t; rewrite length_drop; lia). set (sk := foldl apply_rec base (take k rs)).
  assert (ds_snapIndex sk = ds_snapIndex s) as Esk.
  { transitivity (ds_snapIndex base); [apply replay_snapIndex|]. pose proof (f_equal (fun x => x.1.2.1.1) (gi_core _ _ _ _ _ _ Hg)) as E. simpl in E.
    rewrite E. symmetry. apply replay_snapIndex. }
  assert (Forall (fun e => ds_snapIndex sk < en_Index e)%N t) as Hat by (rewrite Esk; by apply Forall_drop).
  assert (ds_log s = ds_log sk ++ t) as Els.
  { pose proof (f_equal snd (gi_core _ _ _ _ _ _ Hg)) as E. simpl in E. rewrite <-(take_drop k rs), foldl_app, Ht in E. fold sk in E.
    by rewrite replay_appends in E. }
  assert (length (ds_log sk) = length (ds_log s) - d0) as Hlk by (rewrite Els, length_app; lia).
  replace (take j rs) with (take k rs ++ (RecAppend <$> take (j - k) t)).
  - rewrite foldl_app, replay_appends by by apply Forall_take. simpl. rewrite Els at 2. by rewrite take_app_ge, Hlk, Nat.add_comm, Nat.add_sub by lia.
  - rewrite fmap_take, <-Ht, take_take_drop. f_equal. lia.
Qed.

(** A clean stop and a new start: nothing is lost, and everything is on disk. *)
Lemma disk_reopen s d s1 w s' :
  disk s d -> ds_close s = Some (None, s1) -> ds_wal s1 = Some w ->
  openDiskStorage Unmarshal (ds_files s) (Some (reopen (wal_file w))) boot = Ok s' ->
  disk s' 0 /\ core s' = core s /\ is_Some (ds_wal s').
Proof using Hproto.
  intros ([_ (w0 & Ew & Hh & He)] & Ha & base & rs & k & d0 & Hg & _) Hc Hw H.
  destruct (good_reopen _ _ Hproto _ _ _ _ _ _ _ _ Hg Hc Hw H) as (Hg' & Ec & Es & w' & f' & Eo & Ew').
  unfold ds_close in Hc. rewrite Ew in Hc. cbn [mbind option_bind] in Hc. destruct (Close_no_fault w0 He Hh) as (w1 & Ecl & Hs). rewrite Ecl in Hc.
  injection Hc as <-. injection Hw as <-. split; [|by split]. eapply disk_synced; [| |exact Hg'].
  - split; [done|]. exists w'. split; [done|]. unfold OpenWAL, file_call, syscall in Eo. simpl in Eo. rewrite Hs in Eo. simpl in Eo. rewrite Hs in Eo.
    by injection Eo as <- _.
  - unfold above_snap. pose proof (f_equal snd Ec) as El. simpl in El. rewrite El.
    pose proof (f_equal (fun x => x.1.2.1.1) Ec) as Ei. simpl in Ei. by rewrite Ei.
Qed.

End durable.
