(* ===== verification/Node.v ===== *)
(** raft/node.go: the Raft node. Every critical section of the source (what runs
    between n.mu.Lock and n.mu.Unlock) is one function from the node's state to
    its new state, its answer and the RPCs it hands to goroutines; the goroutine
    that waits for an RPC's answer continues in a function of its own. [None]
    is a run-time panic. *)

From S2P Require Import Prelude Bytes GoIO Wal Messages ConfState DiskStorage.

(** ** State *)

Inductive role := follower | candidate | leader.

#[global] Instance role_eq_dec : EqDecision role.
Proof. solve_decision. Defined.

(** type Config struct; durations and times in nanoseconds. *)
Record Config := mkConfig {
  cfg_ID : N;
  cfg_Peers : list N;
  cfg_Addrs : gmap N bytes;
  cfg_ElectionTimeoutMin : Z;
  cfg_ElectionTimeoutMax : Z;
  cfg_HeartbeatInterval : Z
}.

Definition Millisecond : Z := 1000000.

Definition fill (c : Config) : Config :=
  mkConfig (cfg_ID c) (cfg_Peers c) (cfg_Addrs c)
    (if (cfg_ElectionTimeoutMin c =? 0)%Z then (150 * Millisecond)%Z else cfg_ElectionTimeoutMin c)
    (if (cfg_ElectionTimeoutMax c =? 0)%Z then (300 * Millisecond)%Z else cfg_ElectionTimeoutMax c)
    (if (cfg_HeartbeatInterval c =? 0)%Z then (50 * Millisecond)%Z else cfg_HeartbeatInterval c).

(** The four maps a leader keeps about its peers: nil before a node first leads,
    and made together by becomeLeaderLocked. *)
Record progress := mkProgress {
  nextIndex : gmap N N;
  matchIndex : gmap N N;
  lastSentAt : gmap N Z;
  inflight : gset N
}.

(** type Node struct. [n_kick]: the one-slot channel holds a token; [n_votes]:
    the counter each election shares with its goroutines, by term. *)
Record Node := mkNode {
  n_cfg : Config;
  n_store : diskStorage;
  n_conf : ConfState;
  n_addrs : gmap N bytes;
  n_role : role;
  n_leaderID : N;
  n_commitIndex : N;
  n_lastApplied : N;
  n_progress : option progress;
  n_electionDeadline : Z;
  n_kick : bool;
  n_votes : gmap N nat
}.

Definition set_store (n : Node) (s : diskStorage) : Node :=
  mkNode (n_cfg n) s (n_conf n) (n_addrs n) (n_role n) (n_leaderID n) (n_commitIndex n) (n_lastApplied n)
    (n_progress n) (n_electionDeadline n) (n_kick n) (n_votes n).
Definition set_nconf (n : Node) (c : ConfState) (addrs : gmap N bytes) : Node :=
  mkNode (n_cfg n) (n_store n) c addrs (n_role n) (n_leaderID n) (n_commitIndex n) (n_lastApplied n)
    (n_progress n) (n_electionDeadline n) (n_kick n) (n_votes n).
Definition set_role (n : Node) (r : role) : Node :=
  mkNode (n_cfg n) (n_store n) (n_conf n) (n_addrs n) r (n_leaderID n) (n_commitIndex n) (n_lastApplied n)
    (n_progress n) (n_electionDeadline n) (n_kick n) (n_votes n).
Definition set_leaderID (n : Node) (id : N) : Node :=
  mkNode (n_cfg n) (n_store n) (n_conf n) (n_addrs n) (n_role n) id (n_commitIndex n) (n_lastApplied n)
    (n_progress n) (n_electionDeadline n) (n_kick n) (n_votes n).
Definition set_commitIndex (n : Node) (i : N) : Node :=
  mkNode (n_cfg n) (n_store n) (n_conf n) (n_addrs n) (n_role n) (n_leaderID n) i (n_lastApplied n)
    (n_progress n) (n_electionDeadline n) (n_kick n) (n_votes n).
Definition set_lastApplied (n : Node) (i : N) : Node :=
  mkNode (n_cfg n) (n_store n) (n_conf n) (n_addrs n) (n_role n) (n_leaderID n) (n_commitIndex n) i
    (n_progress n) (n_electionDeadline n) (n_kick n) (n_votes n).
Definition set_progress (n : Node) (p : option progress) : Node :=
  mkNode (n_cfg n) (n_store n) (n_conf n) (n_addrs n) (n_role n) (n_leaderID n) (n_commitIndex n) (n_lastApplied n)
    p (n_electionDeadline n) (n_kick n) (n_votes n).
Definition set_deadline (n : Node) (d : Z) : Node :=
  mkNode (n_cfg n) (n_store n) (n_conf n) (n_addrs n) (n_role n) (n_leaderID n) (n_commitIndex n) (n_lastApplied n)
    (n_progress n) d (n_kick n) (n_votes n).
Definition set_kick (n : Node) (k : bool) : Node :=
  mkNode (n_cfg n) (n_store n) (n_conf n) (n_addrs n) (n_role n) (n_leaderID n) (n_commitIndex n) (n_lastApplied n)
    (n_progress n) (n_electionDeadline n) k (n_votes n).
Definition set_votes (n : Node) (v : gmap N nat) : Node :=
  mkNode (n_cfg n) (n_store n) (n_conf n) (n_addrs n) (n_role n) (n_leaderID n) (n_commitIndex n) (n_lastApplied n)
    (n_progress n) (n_electionDeadline n) (n_kick n) v.

Definition n_ID (n : Node) : N := cfg_ID (n_cfg n).
Definition n_term (n : Node) : N := ds_term (n_store n).

Definition set_next (p : progress) (id i : N) : progress :=
  mkProgress (<[id := i]> (nextIndex p)) (matchIndex p) (lastSentAt p) (inflight p).
Definition set_match (p : progress) (id i : N) : progress :=
  mkProgress (nextIndex p) (<[id := i]> (matchIndex p)) (lastSentAt p) (inflight p).
Definition set_sent (p : progress) (id : N) (t : Z) : progress :=
  mkProgress (nextIndex p) (matchIndex p) (<[id := t]> (lastSentAt p)) (inflight p).
Definition set_inflight (p : progress) (s : gset N) : progress :=
  mkProgress (nextIndex p) (matchIndex p) (lastSentAt p) s.

(** type ApplyMsg struct: exactly one of its three Valid flags is set. *)
Inductive ApplyMsg :=
  | CommandMsg (command : bytes) (index term : N)
  | ConfChangeMsg (cc : ConfChange) (index term : N)
  | SnapshotMsg (data : bytes) (index term : N).

(** An RPC handed to a goroutine. *)
Inductive rpc :=
  | RpcVote (peer : N) (req : RequestVoteRequest)
  | RpcAppend (peer : N) (req : AppendEntriesRequest)
  | RpcSnapshot (peer : N) (req : InstallSnapshotRequest).

Definition ErrNotLeader : error := Errorf (str "not leader").
Definition ErrReadIndexTimeout : error := Errorf (str "readindex: quorum ack timeout").

(** What time.Now answers in a critical section, and a random number for rand.Int63n. *)
Record clock := mkClock { c_now : Z; c_rand : Z }.

(** ** Small operations *)

(** A send on the kick channel that never blocks. *)
Definition kickRun (n : Node) : Node := set_kick n true.

(** The arithmetic of int64. *)
Definition int64 (z : Z) : Z := (z + 2 ^ 63) mod 2 ^ 64 - 2 ^ 63.

(** rand.Int63n panics unless [n] is positive; otherwise it answers any number below [n]. *)
Definition Int63n (n rnd : Z) : option Z := if (n <=? 0)%Z then None else Some (rnd mod n)%Z.

Definition resetElectionTimerLocked (c : clock) (n : Node) : option Node :=
  let span := int64 (cfg_ElectionTimeoutMax (n_cfg n) - cfg_ElectionTimeoutMin (n_cfg n)) in
  r ← Int63n (int64 (span + 1)) (c_rand c);
  Some (set_deadline n (c_now c + (cfg_ElectionTimeoutMin (n_cfg n) + r))).

Definition peerIDsLocked (n : Node) : list N := AllPeerIDs (n_conf n).

Definition Status (n : Node) : N * bool * N := (n_term n, bool_decide (n_role n = leader), n_leaderID n).
Definition CommitIndex (n : Node) : N := n_commitIndex n.
Definition AppliedIndex (n : Node) : N := n_lastApplied n.
Definition MemberAddrs (n : Node) : gmap N bytes := n_addrs n.
Definition LastLogIndex (n : Node) : N := lastIndex (n_store n).
Definition ReadSnapshot (n : Node) : bytes * N * N :=
  (ds_snapshot (n_store n), ds_snapIndex (n_store n), ds_snapTerm (n_store n)).

(** A persist error is only logged: the term is already changed in memory. *)
Definition stepDownLocked (c : clock) (n : Node) (term : N) : option Node :=
  n ← (if (n_term n <? term)%N then
         '(_, s) ← setHardState (n_store n) term 0; Some (set_store n s)
       else Some n);
  resetElectionTimerLocked c (set_role n follower).

Section node.

Context (Marshal : Entry -> bytes) (Unmarshal : bytes -> option Entry).

(** ** Proposals *)

Definition appendEntryLocked (n : Node) (e : Entry) : option (sum error (N * N) * Node) :=
  '(err, s) ← appendEntries Marshal (n_store n) [e];
  let n := set_store n s in
  match err with
  | Some er => Some (inl er, n)
  | None =>
      p ← n_progress n;
      let n := set_progress n (Some (set_match p (n_ID n) (en_Index e))) in
      Some (inr (en_Index e, en_Term e), kickRun n)
  end.

Definition Propose (n : Node) (command : bytes) : option (sum error (N * N) * Node) :=
  if decide (n_role n = leader) then
    appendEntryLocked n (mkLogEntry (n_term n) (lastIndex (n_store n) +64 1) command ENTRY_NORMAL None)
  else Some (inl ErrNotLeader, n).

Definition ProposeConfChange (n : Node) (cc : ConfChange) : option (sum error (N * N) * Node) :=
  if decide (n_role n = leader) then
    if negb (cc_Type cc =? CONF_CHANGE_LEAVE_JOINT)%Z && InJoint (n_conf n)
    then Some (inl ErrConfChangeInProgress, n)
    else match ApplyConfChange (n_conf n) cc with
    | Panic => None
    | Err er => Some (inl er, n)
    | Ok _ =>
        appendEntryLocked n
          (mkLogEntry (n_term n) (lastIndex (n_store n) +64 1) [] ENTRY_CONF_CHANGE (Some cc))
    end
  else Some (inl ErrNotLeader, n).

(** ** Replication *)

(** m[id] of a map that may be nil. *)
Definition next_of (n : Node) (id : N) : N :=
  match n_progress n with Some p => match_of (nextIndex p) id | None => 0 end.
Definition matched (n : Node) : gmap N N :=
  match n_progress n with Some p => matchIndex p | None => ∅ end.

(** time.Since(lastSentAt[peer]) < HeartbeatInterval; the zero time is long ago. *)
Definition recently_sent (now : Z) (n : Node) (peer : N) : bool :=
  match n_progress n with
  | Some p => match lastSentAt p !! peer with
              | Some t => (now - t <? cfg_HeartbeatInterval (n_cfg n))%Z
              | None => false
              end
  | None => false
  end.

Definition sendAppendLocked (now : Z) (n : Node) (peer : N) : option (list rpc * Node) :=
  let ni := next_of n peer in
  let s := n_store n in
  let hasNew := (ni <=? lastIndex s)%N in
  if negb hasNew && recently_sent now n peer then Some ([], n)
  else
    p ← n_progress n;
    let p := set_sent p peer now in
    let n := set_progress n (Some p) in
    if (ni <? firstIndex s)%N then
      if decide (peer ∈ inflight p) then Some ([], n)
      else
        let req := mkSnapReq (n_term n) (n_ID n) (ds_snapIndex s) (ds_snapTerm s) (ds_snapshot s)
                     (encodeConfState (n_conf n)) in
        Some ([RpcSnapshot peer req], set_progress n (Some (set_inflight p ({[peer]} ∪ inflight p))))
    else
      let prevIdx := ni -64 1 in
      '(prevTerm, ok) ← termAt s prevIdx;
      if negb ok then Some ([], n)
      else
        entries ← entriesFrom s ni;
        let req := mkAppendReq (n_term n) (n_ID n) prevIdx prevTerm entries (n_commitIndex n) in
        if decide (peer ∈ inflight p) then Some ([], n)
        else Some ([RpcAppend peer req], set_progress n (Some (set_inflight p ({[peer]} ∪ inflight p)))).

(** The loop of broadcastAppendLocked over the peers. *)
Fixpoint send_all (now : Z) (n : Node) (peers : list N) : option (list rpc * Node) :=
  match peers with
  | [] => Some ([], n)
  | p :: ps =>
      if (p =? n_ID n)%N then send_all now n ps
      else
        '(out, n) ← sendAppendLocked now n p;
        '(outs, n) ← send_all now n ps;
        Some (out ++ outs, n)
  end.

Definition broadcastAppendLocked (now : Z) (n : Node) : option (list rpc * Node) :=
  '(err, s) ← sync (n_store n);
  let n := set_store n s in
  match err with
  | Some _ => Some ([], n)
  | None => send_all now n (peerIDsLocked n)
  end.

Definition advanceCommitLocked (n : Node) : option Node :=
  let majority := MaxCommitIndex (n_conf n) (matched n) in
  if (majority <=? n_commitIndex n)%N then Some n
  else
    '(err, s) ← sync (n_store n);
    let n := set_store n s in
    match err with
    | Some _ => Some n
    | None =>
        '(t, ok) ← termAt s majority;
        if negb ok || negb (t =? ds_term s)%N then Some n
        else Some (kickRun (set_commitIndex n majority))
    end.

(** The loop over the log that looks for the conflicting term, from index [i]
    down to firstIndex: at most one turn per entry. *)
Fixpoint conflict_next (fuel : nat) (s : diskStorage) (i conflictTerm next : N) : option N :=
  match fuel with
  | O => Some next
  | S fuel =>
      if (i <? firstIndex s)%N then Some next
      else
        '(t, ok) ← termAt s i;
        if negb ok then Some next
        else if (t =? conflictTerm)%N then Some (i +64 1)
        else if (t <? conflictTerm)%N then Some next
        else conflict_next fuel s (i -64 1) conflictTerm next
  end.

(** sendAppend, from the answer on; a transport error changes nothing. *)
Definition onAppendResponse (c : clock) (n : Node) (peer : N) (req : AppendEntriesRequest)
    (resp : AppendEntriesResponse) : option Node :=
  if (n_term n <? aer_Term resp)%N then stepDownLocked c n (aer_Term resp)
  else if negb (bool_decide (n_role n = leader)) || negb (n_term n =? ae_Term req)%N then Some n
  else
    p ← n_progress n;
    if aer_Success resp then
      let mi := ae_PrevLogIndex req +64 len (ae_Entries req) in
      let p := if (match_of (matchIndex p) peer <? mi)%N then set_match p peer mi else p in
      let p := if (match_of (nextIndex p) peer <? mi +64 1)%N then set_next p peer (mi +64 1) else p in
      advanceCommitLocked (set_progress n (Some p))
    else
      let s := n_store n in
      p ← (if negb (aer_ConflictTerm resp =? 0)%N then
             next ← conflict_next (S (length (ds_log s))) s (lastIndex s) (aer_ConflictTerm resp) (aer_ConflictIndex resp);
             Some (set_next p peer (N.max 1 next))
           else if (0 <? aer_ConflictIndex resp)%N then Some (set_next p peer (aer_ConflictIndex resp))
           else if (1 <? match_of (nextIndex p) peer)%N
           then Some (set_next p peer (match_of (nextIndex p) peer -64 1))
           else Some p);
      Some (kickRun (set_progress n (Some p))).

(** The deferred delete(n.inflight, peer) of both senders. *)
Definition clearInflight (n : Node) (peer : N) : Node :=
  set_progress n ((fun p => set_inflight p (inflight p ∖ {[peer]})) <$> n_progress n).

(** sendSnapshot, from the answer on. *)
Definition onSnapshotResponse (c : clock) (n : Node) (peer : N) (req : InstallSnapshotRequest)
    (resp : InstallSnapshotResponse) : option Node :=
  if (n_term n <? isr_Term resp)%N then stepDownLocked c n (isr_Term resp)
  else if negb (bool_decide (n_role n = leader)) || negb (n_term n =? is_Term req)%N then Some n
  else
    p ← n_progress n;
    let last := is_LastIncludedIndex req in
    let p := if (match_of (matchIndex p) peer <? last)%N then set_match p peer last else p in
    let p := if (match_of (nextIndex p) peer <? last +64 1)%N then set_next p peer (last +64 1) else p in
    Some (set_progress n (Some p)).

(** ** Elections *)

Definition becomeLeaderLocked (now : Z) (n : Node) : option (list rpc * Node) :=
  if decide (n_role n = leader) then Some ([], n)
  else
    let last := lastIndex (n_store n) in
    let peers := peerIDsLocked n in
    let p := mkProgress (list_to_map ((fun id => (id, last +64 1)) <$> peers))
               (<[n_ID n := last]> (list_to_map ((fun id => (id, 0%N)) <$> peers))) ∅ ∅ in
    let n := set_progress (set_leaderID (set_role n leader) (n_ID n)) (Some p) in
    let noop := mkLogEntry (n_term n) (last +64 1) [] ENTRY_NORMAL None in
    '(err, s) ← appendEntries Marshal (n_store n) [noop];
    let n := set_store n s in
    let n := match err with
             | Some _ => n
             | None => set_progress n (Some (set_next (set_match p (n_ID n) (en_Index noop)) (n_ID n) (en_Index noop +64 1)))
             end in
    broadcastAppendLocked now n.

Definition startElectionLocked (c : clock) (n : Node) : option (list rpc * Node) :=
  if negb (Contains (n_conf n) (n_ID n)) then n ← resetElectionTimerLocked c n; Some ([], n)
  else if bool_decide (length (VoterIDs (n_conf n)) = 1) && (lastIndex (n_store n) =? ds_snapIndex (n_store n))%N
  then n ← resetElectionTimerLocked c n; Some ([], n)
  else
    let n := set_role n candidate in
    let newTerm := n_term n +64 1 in
    '(err, s) ← setHardState (n_store n) newTerm (n_ID n);
    let n := set_store n s in
    match err with
    | Some _ => Some ([], n)
    | None =>
        n ← resetElectionTimerLocked c (set_leaderID n 0);
        let lastIdx := lastIndex s in
        '(lastTerm, _) ← termAt s lastIdx;
        let req := mkVoteReq newTerm (n_ID n) lastIdx lastTerm in
        let others := filter (fun p => p <> n_ID n) (peerIDsLocked n) in
        Some ((fun p => RpcVote p req) <$> others, set_votes n (<[newTerm := 1]> (n_votes n)))
    end.

(** The goroutine of one vote, from the answer on; [newTerm] is the election's. *)
Definition onVoteResponse (c : clock) (n : Node) (newTerm : N) (resp : RequestVoteResponse) :
    option (list rpc * Node) :=
  if (n_term n <? rvr_Term resp)%N then n ← stepDownLocked c n (rvr_Term resp); Some ([], n)
  else if negb (bool_decide (n_role n = candidate)) || negb (n_term n =? newTerm)%N || negb (rvr_VoteGranted resp)
  then Some ([], n)
  else
    let votes := S (default 1 (n_votes n !! newTerm)) in
    let n := set_votes n (<[newTerm := votes]> (n_votes n)) in
    if HasVoteQuorum (n_conf n) votes then becomeLeaderLocked (c_now c) n else Some ([], n).

(** One turn of run, woken by the kick channel ([kicked]) or the ticker. *)
Definition run_step (c : clock) (kicked : bool) (n : Node) : option (list rpc * Node) :=
  let n := if kicked then set_kick n false else n in
  match n_role n with
  | follower | candidate =>
      if (n_electionDeadline n <? c_now c)%Z then startElectionLocked c n else Some ([], n)
  | leader => broadcastAppendLocked (c_now c) n
  end.

(** ** Handlers *)

Definition HandleRequestVote (c : clock) (n : Node) (req : RequestVoteRequest) :
    option (RequestVoteResponse * Node) :=
  n ← (if (n_term n <? rv_Term req)%N then stepDownLocked c n (rv_Term req) else Some n);
  let resp := mkVoteResp (n_term n) false in
  if (rv_Term req <? n_term n)%N then Some (resp, n)
  else if negb (Contains (n_conf n) (n_ID n)) then Some (resp, n)
  else
    let s := n_store n in
    let lastIdx := lastIndex s in
    '(lastTerm, _) ← termAt s lastIdx;
    let upToDate := (lastTerm <? rv_LastLogTerm req)%N ||
                    ((rv_LastLogTerm req =? lastTerm)%N && (lastIdx <=? rv_LastLogIndex req)%N) in
    if ((ds_votedFor s =? 0)%N || (ds_votedFor s =? rv_CandidateId req)%N) && upToDate then
      '(err, s) ← setHardState s (ds_term s) (rv_CandidateId req);
      let n := set_store n s in
      match err with
      | Some _ => Some (resp, n)
      | None => n ← resetElectionTimerLocked c n; Some (mkVoteResp (rvr_Term resp) true, n)
      end
    else Some (resp, n).

(** for ci > firstIndex: step back over the entries of term [t]. *)
Fixpoint conflict_start (fuel : nat) (s : diskStorage) (ci t : N) : option N :=
  match fuel with
  | O => Some ci
  | S fuel =>
      if (firstIndex s <? ci)%N then
        '(pt, ok) ← termAt s (ci -64 1);
        if negb ok || negb (pt =? t)%N then Some ci else conflict_start fuel s (ci -64 1) t
      else Some ci
  end.

(** The consistency check: the answer that rejects the request, if any. *)
Definition check_prev (s : diskStorage) (req : AppendEntriesRequest) : option (option AppendEntriesResponse) :=
  let prev := ae_PrevLogIndex req in
  if (lastIndex s <? prev)%N then Some (Some (mkAppendResp (ds_term s) false (lastIndex s +64 1) 0))
  else if (firstIndex s <=? prev)%N || (prev =? ds_snapIndex s)%N then
    '(t, ok) ← termAt s prev;
    if ok && negb (t =? ae_PrevLogTerm req)%N then
      ci ← conflict_start (S (length (ds_log s))) s prev t;
      Some (Some (mkAppendResp (ds_term s) false ci t))
    else if negb ok then Some (Some (mkAppendResp (ds_term s) false (firstIndex s) 0))
    else Some None
  else Some None.

(** The loop that finds the entries to append: those from the first one that is
    not already in the log. *)
Fixpoint toAppend (s : diskStorage) (entries : list Entry) : option (list Entry) :=
  match entries with
  | [] => Some []
  | e :: es =>
      if (en_Index e <=? ds_snapIndex s)%N then toAppend s es
      else if (en_Index e <=? lastIndex s)%N then
        '(t, _) ← termAt s (en_Index e);
        if (t =? en_Term e)%N then toAppend s es else Some entries
      else Some entries
  end.

(** Appending and fsyncing the new entries. *)
Definition store_entries (n : Node) (new : list Entry) : option (option error * Node) :=
  match new with
  | [] => Some (None, n)
  | _ =>
      '(err, s) ← appendEntries Marshal (n_store n) new;
      match err with
      | Some er => Some (Some er, set_store n s)
      | None => '(err, s) ← sync s; Some (err, set_store n s)
      end
  end.

(** Following the leader's commit index, up to the last entry of the request. *)
Definition follow_commit (n : Node) (req : AppendEntriesRequest) : Node :=
  if (n_commitIndex n <? ae_LeaderCommit req)%N then
    let lastNew := ae_PrevLogIndex req +64 len (ae_Entries req) in
    set_commitIndex n (N.min (ae_LeaderCommit req) (N.max lastNew (n_commitIndex n)))
  else n.

(** What a request of a current leader does first: step down if needed. *)
Definition follow_leader (c : clock) (n : Node) (term leaderId : N) : option Node :=
  n ← (if (n_term n <? term)%N || negb (bool_decide (n_role n = follower))
       then stepDownLocked c n term else Some n);
  resetElectionTimerLocked c (set_leaderID n leaderId).

Definition HandleAppendEntries (c : clock) (n : Node) (req : AppendEntriesRequest) :
    option (AppendEntriesResponse * Node) :=
  if (ae_Term req <? n_term n)%N then Some (mkAppendResp (n_term n) false 0 0, n)
  else
    n ← follow_leader c n (ae_Term req) (ae_LeaderId req);
    let resp := mkAppendResp (n_term n) false 0 0 in
    rejected ← check_prev (n_store n) req;
    match rejected with
    | Some r => Some (r, n)
    | None =>
        new ← toAppend (n_store n) (ae_Entries req);
        '(err, n) ← store_entries n new;
        match err with
        | Some _ => Some (resp, n)
        | None => Some (mkAppendResp (aer_Term resp) true 0 0, follow_commit n req)
        end
    end.

(** HandleInstallSnapshot: the answer, the message for the apply channel, and
    whether n.mu is released when it returns. *)
Definition HandleInstallSnapshot (c : clock) (n : Node) (req : InstallSnapshotRequest) (tscript : list outcome) :
    option (InstallSnapshotResponse * option ApplyMsg * bool * Node) :=
  if (is_Term req <? n_term n)%N then Some (mkSnapResp (n_term n), None, true, n)
  else
    n ← follow_leader c n (is_Term req) (is_LeaderId req);
    let resp := mkSnapResp (n_term n) in
    if (is_LastIncludedIndex req <=? ds_snapIndex (n_store n))%N then Some (resp, None, true, n)
    else
      let conf := match is_ConfState req with
                  | [] => n_conf n
                  | b => match decodeConfState b with Ok cs => cs | _ => n_conf n end
                  end in
      '(err, s) ← saveSnapshot Marshal (n_store n) (is_LastIncludedIndex req) (is_LastIncludedTerm req) (is_Data req) conf tscript;
      let n := set_store n s in
      match err with
      | Some _ => Some (resp, None, false, n)
      | None =>
          let n := set_nconf n conf (n_addrs n) in
          let n := set_lastApplied (set_commitIndex n (is_LastIncludedIndex req)) (is_LastIncludedIndex req) in
          Some (resp, Some (SnapshotMsg (is_Data req) (is_LastIncludedIndex req) (is_LastIncludedTerm req)), true, n)
      end.

Definition HandleReadIndex (c : clock) (n : Node) (req : ReadIndexRequest) : option (ReadIndexResponse * Node) :=
  let resp := mkReadResp (n_term n) false in
  if (ri_Term req <? n_term n)%N then Some (resp, n)
  else
    n ← (if (n_term n <? ri_Term req)%N then stepDownLocked c n (ri_Term req) else Some n);
    if negb (ri_Term req =? n_term n)%N || bool_decide (n_role n = candidate) then Some (resp, n)
    else
      n ← resetElectionTimerLocked c (set_leaderID n (ri_LeaderId req));
      Some (mkReadResp (rir_Term resp) true, n).

(** ** Linearizable reads *)

(** What ReadIndex captures before it asks the peers. *)
Record read_state := mkRead {
  rd_index : N;
  rd_term : N;
  rd_peers : list N;
  rd_need : nat;
  rd_acks : nat;
  rd_done : bool
}.

Definition ReadIndex (n : Node) : sum error read_state :=
  if decide (n_role n = leader) then
    let peers := peerIDsLocked n in
    let need := majority (length peers) in
    let need :=
      if InJoint (n_conf n) then
        let jm := majority (size (Joint (n_conf n))) in
        let vm := majority (size (Voters (n_conf n))) in
        let need := if bool_decide (need < jm) then jm else need in
        if bool_decide (need < vm) then vm else need
      else need in
    inr (mkRead (n_commitIndex n) (n_term n) (filter (fun p => p <> n_ID n) peers) need 1 false)
  else inl ErrNotLeader.

(** The goroutine of one acknowledgement, from the answer on. *)
Definition onReadResponse (c : clock) (n : Node) (r : read_state) (resp : ReadIndexResponse) :
    option (read_state * Node) :=
  if (n_term n <? rir_Term resp)%N then n ← stepDownLocked c n (rir_Term resp); Some (r, n)
  else if negb (bool_decide (n_role n = leader)) || negb (n_term n =? rd_term r)%N then Some (r, n)
  else if rir_Ack resp then
    let acks := S (rd_acks r) in
    Some (mkRead (rd_index r) (rd_term r) (rd_peers r) (rd_need r) acks
            (rd_done r || bool_decide (rd_need r <= acks)), n)
  else Some (r, n).

(** The end of ReadIndex once the quorum is signalled. *)
Definition readIndexDone (n : Node) (r : read_state) : sum error N :=
  if bool_decide (n_role n = leader) && (n_term n =? rd_term r)%N then inr (rd_index r) else inl ErrNotLeader.

(** ** Applying *)

(** The part of applyConfChangeLocked on the leader's maps. *)
Definition conf_progress (n : Node) (cc : ConfChange) (p : progress) : progress :=
  if (cc_Type cc =? CONF_CHANGE_ADD_NODE)%Z then
    match nextIndex p !! cc_NodeId cc with
    | Some _ => p
    | None => set_match (set_next p (cc_NodeId cc) (firstIndex (n_store n))) (cc_NodeId cc) 0
    end
  else if (cc_Type cc =? CONF_CHANGE_REMOVE_NODE)%Z then
    mkProgress (delete (cc_NodeId cc) (nextIndex p)) (delete (cc_NodeId cc) (matchIndex p))
      (delete (cc_NodeId cc) (lastSentAt p)) (inflight p)
  else if (cc_Type cc =? CONF_CHANGE_LEAVE_JOINT)%Z then
    foldl (fun p id => match nextIndex p !! id with
                       | Some _ => p
                       | None => set_match (set_next p id (lastIndex (n_store n) +64 1)) id 0
                       end) p (VoterIDs (n_conf n))
  else p.

Definition applyConfChangeLocked (n : Node) (cc : ConfChange) : option (option error * Node) :=
  match ApplyConfChange (n_conf n) cc with
  | Panic => None
  | Err er => Some (Some er, n)
  | Ok next =>
      let addrs := match cc_Context cc with
                   | [] => n_addrs n
                   | ctx => if (cc_Type cc =? CONF_CHANGE_ADD_NODE)%Z then <[cc_NodeId cc := ctx]> (n_addrs n) else n_addrs n
                   end in
      let n := set_nconf n next addrs in
      let n :=
        if (cc_Type cc =? CONF_CHANGE_REMOVE_NODE)%Z then
          let n := set_nconf n next (delete (cc_NodeId cc) (n_addrs n)) in
          if (cc_NodeId cc =? n_ID n)%N then set_leaderID (set_role n follower) 0 else n
        else n in
      let n :=
        if decide (n_role n = leader) then set_progress n (conf_progress n cc <$> n_progress n) else n in
      '(err, s) ← setConfState (n_store n) (n_conf n);
      Some (err, set_store n s)
  end.

(** The inner loop of applier: the messages of one turn, and the node. A turn
    advances lastApplied, so the distance to commitIndex bounds the turns. *)
Fixpoint apply_loop (fuel : nat) (n : Node) : option (list ApplyMsg * Node) :=
  match fuel with
  | O => Some ([], n)
  | S fuel =>
      if (n_lastApplied n <? n_commitIndex n)%N then
        let next := n_lastApplied n +64 1 in
        if (next <? firstIndex (n_store n))%N then
          apply_loop fuel (set_lastApplied n (ds_snapIndex (n_store n)))
        else
          e ← entryAt (n_store n) next;
          '(msg, n) ←
            match en_ConfChange e with
            | Some cc =>
                if (en_Type e =? ENTRY_CONF_CHANGE)%Z then
                  '(_, n) ← applyConfChangeLocked n cc;
                  Some (ConfChangeMsg cc (en_Index e) (en_Term e), n)
                else Some (CommandMsg (en_Data e) (en_Index e) (en_Term e), n)
            | None => Some (CommandMsg (en_Data e) (en_Index e) (en_Term e), n)
            end;
          '(msgs, n) ← apply_loop fuel (set_lastApplied n next);
          Some (msg :: msgs, n)
      else Some ([], n)
  end.

Definition applier (n : Node) : option (list ApplyMsg * Node) :=
  apply_loop (S (N.to_nat (n_commitIndex n - n_lastApplied n))) n.

(** Snapshot: compaction asked for by the state machine. *)
Definition Snapshot (n : Node) (index : N) (data : bytes) (tscript : list outcome) : option (option error * Node) :=
  if (n_lastApplied n <? index)%N then Some (Some (Errorf (str "cannot snapshot beyond applied index")), n)
  else
    '(term, ok) ← termAt (n_store n) index;
    if negb ok then Some (None, n)
    else
      '(err, s) ← saveSnapshot Marshal (n_store n) index term data (n_conf n) tscript;
      Some (err, set_store n s).

(** ** Starting *)

Definition NewNode (c : clock) (cfg : Config) (files : snap_files) (wal : option file) : result Node :=
  let cfg := fill cfg in
  let* store := openDiskStorage Unmarshal files wal (cfg_Peers cfg) in
  let applied := if (0 <? ds_snapIndex store)%N then ds_snapIndex store else 0%N in
  let n := mkNode cfg store (ds_conf store) (cfg_Addrs cfg) follower 0 applied applied None 0 false ∅ in
  match resetElectionTimerLocked c n with Some n => Ok n | None => Panic end.

(** Stop closes the storage. *)
Definition Stop (n : Node) : option Node :=
  '(_, s) ← ds_close (n_store n); Some (set_store n s).

End node.
