(* ===== verification/NodeWf.v ===== *)
(** raft/node.go: the node's invariant. Every critical section keeps it, and none
    panics from a state that has it. *)

From S2P Require Import Prelude Bytes GoIO Wal Messages ConfState DiskStorage StorageCorrect StorageMem LogFacts Node.

(** Peels the calls of a critical section off a hypothesis, one outcome each. *)
Ltac peel E :=
  lazymatch type of E with
  | ?m ≫= _ = Some _ => let r := fresh "r" in let Em := fresh "Em" in destruct m as [r|] eqn:Em; [|discriminate E]; cbn [mbind option_bind] in E
  end.

(** ** The invariant *)

(** The election timeouts are in order: rand.Int63n gets a positive number. *)
Definition timer_ok (c : Config) : Prop := (0 < int64 (int64 (cfg_ElectionTimeoutMax c - cfg_ElectionTimeoutMin c) + 1))%Z.

Lemma reset_some c n : timer_ok (n_cfg n) -> exists d, resetElectionTimerLocked c n = Some (set_deadline n d).
Proof. unfold timer_ok, resetElectionTimerLocked, Int63n. intros H. rewrite (proj2 (Z.leb_gt _ _)) by done. by eexists. Qed.

Lemma reset_inv c n n' : resetElectionTimerLocked c n = Some n' -> timer_ok (n_cfg n) /\ exists d, n' = set_deadline n d.
Proof. unfold timer_ok, resetElectionTimerLocked, Int63n. destruct (Z.leb_spec (int64 (int64 (cfg_ElectionTimeoutMax (n_cfg n) - cfg_ElectionTimeoutMin (n_cfg n)) + 1)) 0); [done|]. intros [= <-]. split; [done|by eexists]. Qed.

Lemma reset_deadline c n n' : resetElectionTimerLocked c n = Some n' -> exists d, n' = set_deadline n d.
Proof. by intros [_ ?]%reset_inv. Qed.

(** A hypothesis behind a reset of the timer, at its end or before more. *)
Ltac rewind E :=
  let d := fresh "d" in
  lazymatch type of E with
  | resetElectionTimerLocked _ _ = Some _ => apply reset_deadline in E as [d ->]
  | ?m ≫= _ = Some _ =>
      let r := fresh "r" in let Em := fresh "Em" in destruct m as [r|] eqn:Em; [|discriminate E]; apply reset_deadline in Em as [d ->]; cbn [mbind option_bind] in E
  end.

Record node_wf (n : Node) : Prop := {
  nw_log : log_wf (n_store n);
  nw_commit : (n_commitIndex n < log_end (n_store n))%N;
  nw_applied : (n_lastApplied n <= n_commitIndex n)%N;
  nw_snap : (ds_snapIndex (n_store n) <= n_lastApplied n)%N;
  nw_leader : n_role n = leader -> is_Some (n_progress n);
  nw_voters : Voters (n_conf n) <> ∅;
  nw_timer : timer_ok (n_cfg n)
}.

(** The invariant, and an open log. *)
Definition node_ok (n : Node) : Prop := node_wf n /\ wal_open (n_store n).

(** [s'] has the log of [s]. *)
Record same_log (s s' : diskStorage) : Prop := {
  sl_index : ds_snapIndex s' = ds_snapIndex s;
  sl_term : ds_snapTerm s' = ds_snapTerm s;
  sl_log : ds_log s' = ds_log s
}.

Lemma same_log_end s s' : same_log s s' -> log_end s' = log_end s.
Proof. intros [E1 _ E3]. unfold log_end. by rewrite E1, E3. Qed.

Lemma same_log_wf s s' : same_log s s' -> log_wf s -> log_wf s'.
Proof. intros [E1 _ E3]. by apply log_wf_ext. Qed.

Lemma wf_set_store n s : node_wf n -> same_log (n_store n) s -> node_wf (set_store n s).
Proof.
  intros [] Hs. split; simpl; [by eapply same_log_wf|by rewrite (same_log_end _ _ Hs)|done|by rewrite (sl_index _ _ Hs)|done..].
Qed.

Lemma wf_set_role n r : node_wf n -> (r = leader -> is_Some (n_progress n)) -> node_wf (set_role n r).
Proof. intros [] H. by split. Qed.

Lemma wf_set_progress n p : node_wf n -> node_wf (set_progress n (Some p)).
Proof. intros []. split; simpl; try done. Qed.

Lemma wf_reset n d : node_wf n -> node_wf (set_deadline n d).
Proof. intros []. by split. Qed.

Lemma wf_leaderID n id : node_wf n -> node_wf (set_leaderID n id).
Proof. intros []. by split. Qed.

Lemma wf_kick n k : node_wf n -> node_wf (set_kick n k).
Proof. intros []. by split. Qed.

Lemma wf_votes n v : node_wf n -> node_wf (set_votes n v).
Proof. intros []. by split. Qed.

Create HintDb node_wf.
#[local] Hint Resolve wf_set_role wf_set_progress wf_reset wf_leaderID wf_kick wf_votes : node_wf.

(** ** Storage calls *)

Lemma hard_same_log s t v err s' : setHardState s t v = Some (err, s') -> same_log s s' /\ wal_open s'.
Proof. intros [w ->]%setHardState_mem. split; [by split|by eexists]. Qed.

Lemma conf_same_log s c err s' : setConfState s c = Some (err, s') -> same_log s s' /\ wal_open s'.
Proof. intros [w ->]%setConfState_mem. split; [by split|by eexists]. Qed.

Lemma sync_same_log s err s' : sync s = Some (err, s') -> wal_open s -> same_log s s' /\ wal_open s' /\ ds_term s' = ds_term s.
Proof. intros (w & d & -> & Hw)%sync_mem Hs. split; [by split|]. split; [by apply Hw|done]. Qed.

Section node.
Context (Marshal : Entry -> bytes) (Unmarshal : bytes -> option Entry).

(** One entry at the end of the log. *)
Lemma append_one s e :
  log_wf s -> wal_open s -> en_Index e = log_end s -> (log_end s + 1 < two64)%N ->
  exists err s', appendEntries Marshal s [e] = Some (err, s') /\ wal_open s' /\ log_wf s' /\
    (log_end s <= log_end s')%N /\ ds_term s' = ds_term s /\ ds_snapIndex s' = ds_snapIndex s.
Proof.
  intros Hwf Hw He Hb. destruct (appendEntries_total Marshal s [e] Hw) as (err & s' & Ha).
  exists err, s'. split; [done|]. apply appendEntries_mem in Ha as (l & w & d & -> & Ho & Hl).
  split; [by apply Ho|]. assert (Hin : (ds_snapIndex s < en_Index e <= log_end s)%N) by (unfold log_end in *; lia).
  destruct Hl as [[-> _]|(j & -> & _)].
  - split; [by apply (log_wf_ext s)|done].
  - rewrite (after_truncate_wf s e []) by done. split.
    + eapply log_wf_ext; [| |eapply (wf_append s e [] j Hwf Hin)]; [done|done| |unfold len; simpl; lia].
      apply contiguous_cons. split; [done|]. by intros i x Hx.
    + split_and!; [|done..]. unfold log_end, len; simpl. rewrite length_app, length_take. unfold pos, log_end, len in *. lia.
Qed.

Lemma lastIndex_next s : log_wf s -> (log_end s + 1 < two64)%N -> lastIndex s +64 1 = log_end s.
Proof.
  intros Hwf Hb. rewrite lastIndex_wf by done. unfold log_end in *. rewrite add64_small by lia. lia.
Qed.

(** ** Sections that write the hard state *)

Lemma stepDown_ok c n term :
  node_ok n -> exists n', stepDownLocked c n term = Some n' /\ node_ok n' /\ n_role n' = follower.
Proof.
  intros [Hwf Hw]. unfold stepDownLocked. destruct (_ <? _)%N; simpl.
  - destruct (setHardState_total (n_store n) term 0 Hw) as (err & s' & E). rewrite E. simpl.
    apply hard_same_log in E as [Hs Hw']. destruct (reset_some c (set_role (set_store n s') follower) (nw_timer _ Hwf)) as [d ->].
    eexists. split; [done|]. split; [|done]. split; [|done]. apply wf_reset, wf_set_role; [by apply wf_set_store|done].
  - destruct (reset_some c (set_role n follower) (nw_timer _ Hwf)) as [d ->].
    eexists. split; [done|]. split; [|done]. split; [|done]. by apply wf_reset, wf_set_role.
Qed.

Lemma HandleRequestVote_ok c n req :
  node_ok n -> exists resp n', HandleRequestVote c n req = Some (resp, n') /\ node_ok n'.
Proof.
  intros Hok. unfold HandleRequestVote.
  assert (exists n1, (if (n_term n <? rv_Term req)%N then stepDownLocked c n (rv_Term req) else Some n) = Some n1 /\ node_ok n1)
    as (n1 & -> & [Hwf Hw]).
  { destruct (_ <? _)%N; [|by eexists]. destruct (stepDown_ok c n (rv_Term req) Hok) as (n1 & ? & ? & _). by eexists. }
  cbn [mbind option_bind]. destruct (_ <? _)%N; [by do 2 eexists|]. destruct (negb _); [by do 2 eexists|].
  rewrite termAt_wf by apply Hwf. cbn [mbind option_bind].
  set (lt := match term_of _ _ with Some t => (t, true) | None => (0%N, false) end). destruct lt as [lastTerm ok].
  destruct (_ && _); [|by do 2 eexists].
  destruct (setHardState_total (n_store n1) (ds_term (n_store n1)) (rv_CandidateId req) Hw) as (err & s' & E). rewrite E. simpl.
  apply hard_same_log in E as [Hs Hw']. pose proof (wf_set_store _ _ Hwf Hs) as Hn. destruct err; [by do 2 eexists|].
  destruct (reset_some c (set_store n1 s') (nw_timer _ Hn)) as [d ->]. do 2 eexists. split; [done|]. split; [by apply wf_reset|done].
Qed.

Lemma HandleReadIndex_ok c n req :
  node_ok n -> exists resp n', HandleReadIndex c n req = Some (resp, n') /\ node_ok n'.
Proof.
  intros Hok. unfold HandleReadIndex. destruct (_ <? _)%N; [by do 2 eexists|].
  assert (exists n1, (if (n_term n <? ri_Term req)%N then stepDownLocked c n (ri_Term req) else Some n) = Some n1 /\ node_ok n1)
    as (n1 & -> & [Hwf Hw]).
  { destruct (_ <? _)%N; [|by eexists]. destruct (stepDown_ok c n (ri_Term req) Hok) as (n1 & ? & ? & _). by eexists. }
  cbn [mbind option_bind]. destruct (_ || _); [by do 2 eexists|].
  destruct (reset_some c (set_leaderID n1 (ri_LeaderId req)) (nw_timer _ Hwf)) as [d ->]. do 2 eexists. split; [done|]. split; [by apply wf_reset, wf_leaderID|done].
Qed.

Lemma onReadResponse_ok c n r resp :
  node_ok n -> exists r' n', onReadResponse c n r resp = Some (r', n') /\ node_ok n'.
Proof.
  intros Hok. unfold onReadResponse. destruct (_ <? _)%N.
  { destruct (stepDown_ok c n (rir_Term resp) Hok) as (n1 & -> & ? & _). simpl. by do 2 eexists. }
  destruct (_ || _); [by do 2 eexists|]. destruct (rir_Ack resp); by do 2 eexists.
Qed.

(** ** Sections of the leader *)

Lemma sendAppend_ok now n peer :
  node_ok n -> is_Some (n_progress n) ->
  exists out n', sendAppendLocked now n peer = Some (out, n') /\ node_ok n' /\ is_Some (n_progress n') /\
    n_store n' = n_store n /\ n_cfg n' = n_cfg n.
Proof.
  intros [Hwf Hw] [p Hp]. unfold sendAppendLocked. destruct (_ && _); [by do 2 eexists|].
  rewrite Hp. cbn [mbind option_bind].
  assert (Hset : forall q, node_ok (set_progress n (Some q))) by (intros q; split; [by apply wf_set_progress|done]).
  destruct (_ <? _)%N.
  { case_decide; do 2 eexists; (split; [done|]); (split; [apply Hset|]); by eauto. }
  rewrite termAt_wf by apply Hwf. cbn [mbind option_bind].
  destruct (term_of _ _); simpl; [|do 2 eexists; (split; [done|]); (split; [apply Hset|]); by eauto].
  rewrite entriesFrom_wf by apply Hwf. simpl.
  case_decide; do 2 eexists; (split; [done|]); (split; [apply Hset|]); by eauto.
Qed.

Lemma send_all_ok now peers n :
  node_ok n -> is_Some (n_progress n) ->
  exists out n', send_all now n peers = Some (out, n') /\ node_ok n' /\ is_Some (n_progress n') /\ n_store n' = n_store n.
Proof.
  revert n. induction peers as [|p peers IH]; intros n Hok Hp; cbn [send_all]; [by do 2 eexists|].
  destruct (_ =? _)%N; [by apply IH|].
  destruct (sendAppend_ok now n p Hok Hp) as (out & n1 & -> & Hok1 & Hp1 & Hs1 & _). simpl.
  destruct (IH n1 Hok1 Hp1) as (outs & n2 & -> & Hok2 & Hp2 & Hs2). simpl.
  do 2 eexists. split; [done|]. split; [done|]. split; [done|]. congruence.
Qed.

Lemma broadcast_ok now n :
  node_ok n -> is_Some (n_progress n) -> exists out n', broadcastAppendLocked now n = Some (out, n') /\ node_ok n'.
Proof.
  intros [Hwf Hw] Hp. unfold broadcastAppendLocked. destruct (sync_total _ Hw) as (err & s' & E). rewrite E. simpl.
  apply sync_same_log in E as (Hs & Hw' & _); [|done].
  assert (node_ok (set_store n s')) as Hok by (split; [by apply wf_set_store|done]).
  destruct err; [by do 2 eexists|].
  destruct (send_all_ok now (peerIDsLocked (set_store n s')) _ Hok Hp) as (out & n' & -> & ? & _). by do 2 eexists.
Qed.

Lemma term_of_lt s i t : log_wf s -> term_of s i = Some t -> (i < log_end s)%N.
Proof. intros Hwf H. destruct (N.lt_ge_cases i (log_end s)); [done|]. by rewrite term_of_None in H. Qed.

Lemma advanceCommit_ok n : node_ok n -> exists n', advanceCommitLocked n = Some n' /\ node_ok n'.
Proof.
  intros [Hwf Hw]. unfold advanceCommitLocked. destruct (N.leb_spec (MaxCommitIndex (n_conf n) (matched n)) (n_commitIndex n)) as [|Hgt]; [by eexists|].
  destruct (sync_total _ Hw) as (err & s' & E). rewrite E. simpl. apply sync_same_log in E as (Hs & Hw' & _); [|done].
  pose proof (wf_set_store _ _ Hwf Hs) as Hwf'. destruct err; [by eexists|].
  rewrite termAt_wf by by eapply same_log_wf; [|apply Hwf]. cbn [mbind option_bind].
  destruct (term_of s' _) as [t|] eqn:Et; simpl; [|by eexists]. destruct (negb _); [by eexists|].
  eexists. split; [done|]. split; [|done]. apply wf_kick. destruct Hwf' as [H1 H2 H3 H3s H4 H5].
  split; simpl in *; [done|by eapply term_of_lt|lia|done|done..].
Qed.

Lemma conflict_next_some s fuel i t next : log_wf s -> exists r, conflict_next fuel s i t next = Some r.
Proof.
  intros Hwf. revert i. induction fuel as [|fuel IH]; intros i; simpl; [by eexists|].
  destruct (_ <? _)%N; [by eexists|]. rewrite termAt_wf by done. simpl. destruct (term_of s i); simpl; [|by eexists].
  destruct (_ =? _)%N; [by eexists|]. destruct (_ <? _)%N; [by eexists|]. apply IH.
Qed.

Lemma onAppendResponse_ok c n peer req resp :
  node_ok n -> exists n', onAppendResponse c n peer req resp = Some n' /\ node_ok n'.
Proof.
  intros Hok. unfold onAppendResponse. destruct (_ <? _)%N.
  { destruct (stepDown_ok c n (aer_Term resp) Hok) as (n1 & -> & ? & _). by eexists. }
  destruct (bool_decide (n_role n = leader)) eqn:Er; simpl; [|by eexists]. apply bool_decide_eq_true in Er.
  destruct (negb _); [by eexists|]. pose proof Hok as [Hwf Hw]. destruct (nw_leader n Hwf Er) as [p Hp]. rewrite Hp. simpl.
  assert (Hset : forall q, node_ok (set_progress n (Some q))) by (intros q; split; [by apply wf_set_progress|done]).
  destruct (aer_Success resp); [by apply advanceCommit_ok|].
  destruct (conflict_next_some (n_store n) (S (length (ds_log (n_store n)))) (lastIndex (n_store n)) (aer_ConflictTerm resp) (aer_ConflictIndex resp)) as [r Hr];
    [apply Hwf|]. simpl in Hr. rewrite Hr.
  assert (forall q, node_ok (kickRun (set_progress n (Some q)))) as Hk by (intros q; split; [by apply wf_kick, wf_set_progress|done]).
  repeat (case_match; simpl); eexists; (split; [done|]); apply Hk.
Qed.

Lemma onSnapshotResponse_ok c n peer req resp :
  node_ok n -> exists n', onSnapshotResponse c n peer req resp = Some n' /\ node_ok n'.
Proof.
  intros Hok. unfold onSnapshotResponse. destruct (_ <? _)%N.
  { destruct (stepDown_ok c n (isr_Term resp) Hok) as (n1 & -> & ? & _). by eexists. }
  destruct (bool_decide (n_role n = leader)) eqn:Er; simpl; [|by eexists]. apply bool_decide_eq_true in Er.
  destruct (negb _); [by eexists|]. destruct Hok as [Hwf Hw]. destruct (nw_leader n Hwf Er) as [p Hp]. rewrite Hp. simpl.
  eexists. split; [done|]. split; [by apply wf_set_progress|done].
Qed.

Lemma clearInflight_ok n peer : node_ok n -> node_ok (clearInflight n peer).
Proof.
  intros [[H1 H2 H3 H3s H4 H5] Hw]. split; [|done]. split; simpl; [done..| |done|done].
  intros Hr. destruct (H4 Hr) as [p ->]. by eexists.
Qed.

(** ** Sections that append to the log *)

(** Room for one more index. *)
Definition room (n : Node) : Prop := (log_end (n_store n) + 1 < two64)%N.

Lemma wf_grow n s :
  node_wf n -> log_wf s -> (log_end (n_store n) <= log_end s)%N -> ds_snapIndex s = ds_snapIndex (n_store n) ->
  node_wf (set_store n s).
Proof. intros [] Hs Hl Hi. split; simpl; [done|lia|done|lia|done..]. Qed.

Lemma appendEntryLocked_ok n e :
  node_ok n -> is_Some (n_progress n) -> room n -> en_Index e = log_end (n_store n) ->
  exists r n', appendEntryLocked Marshal n e = Some (r, n') /\ node_ok n'.
Proof.
  intros [Hwf Hw] [p Hp] Hb He. unfold appendEntryLocked.
  destruct (append_one (n_store n) e (nw_log n Hwf) Hw He Hb) as (err & s' & -> & Hw' & Hwf' & Hl & _ & Hi). simpl.
  pose proof (wf_grow n s' Hwf Hwf' Hl Hi) as Hn. destruct err; [by do 2 eexists|].
  cbn [set_store n_progress]. rewrite Hp. simpl. do 2 eexists. split; [done|]. split; [|done].
  by apply wf_kick, wf_set_progress.
Qed.

Lemma Propose_ok n cmd : node_ok n -> room n -> exists r n', Propose Marshal n cmd = Some (r, n') /\ node_ok n'.
Proof.
  intros Hok Hb. unfold Propose. case_decide as Hr; [|by do 2 eexists]. destruct (Hok) as [Hwf _].
  apply appendEntryLocked_ok; [done|by apply Hwf|done|]. simpl. apply lastIndex_next; [apply Hwf|done].
Qed.

Lemma ApplyConfChange_no_panic c cc : Voters c <> ∅ -> ApplyConfChange c cc <> Panic.
Proof.
  intros Hne. unfold ApplyConfChange. repeat case_match; try done.
  apply bool_decide_eq_true in H1. apply conf_size in Hne. lia.
Qed.

Lemma ProposeConfChange_ok n cc :
  node_ok n -> room n -> exists r n', ProposeConfChange Marshal n cc = Some (r, n') /\ node_ok n'.
Proof.
  intros Hok Hb. unfold ProposeConfChange. case_decide as Hr; [|by do 2 eexists]. destruct (Hok) as [Hwf _].
  destruct (_ && _); [by do 2 eexists|]. pose proof (ApplyConfChange_no_panic (n_conf n) cc (nw_voters n Hwf)) as Hp.
  destruct (ApplyConfChange _ _); [|by do 2 eexists|done].
  apply appendEntryLocked_ok; [done|by apply Hwf|done|]. simpl. apply lastIndex_next; [apply Hwf|done].
Qed.

Lemma becomeLeader_ok now n :
  node_ok n -> room n -> exists out n', becomeLeaderLocked Marshal now n = Some (out, n') /\ node_ok n'.
Proof.
  intros [Hwf Hw] Hb. unfold becomeLeaderLocked. case_decide as Hr; [by do 2 eexists|].
  set (p := mkProgress _ _ _ _). set (n1 := set_progress _ (Some p)).
  assert (node_wf n1) as Hwf1.
  { destruct Hwf. split; simpl; try done. }
  set (noop := mkLogEntry _ _ _ _ _).
  destruct (append_one (n_store n) noop (nw_log n Hwf) Hw) as (err & s' & E & Hw' & Hwf' & Hl & _ & Hi);
    [simpl; apply lastIndex_next; [apply Hwf|done]|done|].
  change (n_store n1) with (n_store n). rewrite E. simpl. pose proof (wf_grow n1 s' Hwf1 Hwf' Hl Hi) as Hn.
  destruct err; (apply broadcast_ok; [split; [|done]|by eexists]); [done|by apply wf_set_progress].
Qed.

Lemma onVoteResponse_ok c n t resp :
  node_ok n -> room n -> exists out n', onVoteResponse Marshal c n t resp = Some (out, n') /\ node_ok n'.
Proof.
  intros Hok Hb. unfold onVoteResponse. destruct (_ <? _)%N.
  { destruct (stepDown_ok c n (rvr_Term resp) Hok) as (n1 & -> & ? & _). simpl. by do 2 eexists. }
  destruct (_ || _); [by do 2 eexists|].
  assert (forall v, node_ok (set_votes n v)) as Hv by (intros v; destruct Hok; split; [by apply wf_votes|done]).
  destruct (HasVoteQuorum _ _); [apply becomeLeader_ok; [apply Hv|done]|]. by do 2 eexists.
Qed.

Lemma startElection_ok c n :
  node_ok n -> exists out n', startElectionLocked c n = Some (out, n') /\ node_ok n'.
Proof.
  intros [Hwf Hw]. unfold startElectionLocked.
  assert (exists (out : list rpc) n', (n ← resetElectionTimerLocked c n; Some ([], n)) = Some (out, n') /\ node_ok n') as Hq.
  { destruct (reset_some c n (nw_timer _ Hwf)) as [d ->]. do 2 eexists. split; [done|]. split; [by apply wf_reset|done]. }
  destruct (negb _); [exact Hq|]. destruct (_ && _); [exact Hq|]. clear Hq.
  set (n1 := set_role n candidate). assert (node_wf n1) as Hwf1 by (by apply wf_set_role).
  destruct (setHardState_total (n_store n1) (n_term n1 +64 1) (n_ID n1) Hw) as (err & s' & E). rewrite E. simpl.
  apply hard_same_log in E as [Hs Hw']. pose proof (wf_set_store n1 s' Hwf1 Hs) as Hn.
  destruct err; [by do 2 eexists|]. destruct (reset_some c (set_leaderID (set_store n1 s') 0) (nw_timer _ Hn)) as [d ->]. cbn [mbind option_bind].
  rewrite termAt_wf by apply Hn. cbn [mbind option_bind].
  set (lt := match term_of _ _ with Some t => (t, true) | None => (0%N, false) end). destruct lt as [lastTerm ok].
  do 2 eexists. split; [done|]. split; [|done]. by apply wf_votes, wf_reset, wf_leaderID.
Qed.

Lemma run_step_ok c k n : node_ok n -> exists out n', run_step c k n = Some (out, n') /\ node_ok n'.
Proof.
  intros [Hwf Hw]. unfold run_step. set (n1 := if k then set_kick n false else n).
  assert (node_ok n1 /\ n_role n1 = n_role n /\ n_progress n1 = n_progress n) as (Hok1 & Hr1 & Hp1).
  { subst n1. destruct k; [|done]. split; [|done]. split; [by apply wf_kick|done]. }
  rewrite Hr1. destruct (n_role n) eqn:Er.
  - destruct (_ <? _)%Z; [by apply startElection_ok|by do 2 eexists].
  - destruct (_ <? _)%Z; [by apply startElection_ok|by do 2 eexists].
  - apply broadcast_ok; [done|]. rewrite Hp1. by apply Hwf.
Qed.

(** ** AppendEntries *)

(** A request a correct leader may send to this node: consecutive entries behind
    PrevLogIndex, none contradicting what the node knows to be committed. *)
Record append_ok (n : Node) (req : AppendEntriesRequest) : Prop := {
  ao_entries : contiguous (ae_PrevLogIndex req + 1) (ae_Entries req);
  ao_bound : (ae_PrevLogIndex req + len (ae_Entries req) + 2 < two64)%N;
  ao_commit : forall e, e ∈ ae_Entries req -> (ds_snapIndex (n_store n) < en_Index e <= n_commitIndex n)%N ->
                term_of (n_store n) (en_Index e) = Some (en_Term e)
}.

Lemma conflict_start_some s fuel ci t : log_wf s -> exists r, conflict_start fuel s ci t = Some r.
Proof.
  intros Hwf. revert ci. induction fuel as [|fuel IH]; intros ci; simpl; [by eexists|].
  destruct (_ <? _)%N; [|by eexists]. rewrite termAt_wf by done. simpl. destruct (term_of s _); simpl; [|by eexists].
  destruct (negb _); [by eexists|]. apply IH.
Qed.

Lemma check_prev_some s req : log_wf s -> exists r, check_prev s req = Some r.
Proof.
  intros Hwf. unfold check_prev. destruct (_ <? _)%N; [by eexists|]. destruct (_ || _); [|by eexists].
  rewrite termAt_wf by done. simpl. destruct (term_of s _) as [t|]; simpl; [|by eexists].
  destruct (negb _); [|by eexists]. destruct (conflict_start_some s (S (length (ds_log s))) (ae_PrevLogIndex req) t Hwf) as [r Hr].
  simpl in Hr. rewrite Hr. by eexists.
Qed.

(** An accepted request continues the log without a gap. *)
Lemma check_prev_accept s req : log_wf s -> check_prev s req = Some None -> (ae_PrevLogIndex req < log_end s)%N.
Proof.
  intros Hwf. unfold check_prev. rewrite lastIndex_wf by done.
  destruct (N.ltb_spec (log_end s - 1) (ae_PrevLogIndex req)); [done|]. intros _. unfold log_end in *. lia.
Qed.

(** toAppend skips the entries that are in the log already, and stops at the
    first that is not. *)
Lemma toAppend_spec s es first :
  log_wf s -> contiguous first es -> (first <= log_end s)%N ->
  exists old new, toAppend s es = Some new /\ es = old ++ new /\
    (forall e, e ∈ old -> (en_Index e <= ds_snapIndex s)%N \/ term_of s (en_Index e) = Some (en_Term e)) /\
    (forall e0 new', new = e0 :: new' -> (ds_snapIndex s < en_Index e0 <= log_end s)%N /\
       (en_Index e0 = log_end s \/ term_of s (en_Index e0) <> Some (en_Term e0))).
Proof.
  intros Hwf. revert first. induction es as [|e es IH]; intros first Hc Hle.
  { exists [], []. split_and!; [done..| |done]. by intros e ?%not_elem_of_nil. }
  apply contiguous_cons in Hc as [He Hc]. cbn [toAppend]. rewrite lastIndex_wf by done.
  assert (Hstop : (en_Index e = log_end s \/ term_of s (en_Index e) <> Some (en_Term e)) -> (ds_snapIndex s < en_Index e)%N ->
    exists old new, Some (e :: es) = Some new /\ e :: es = old ++ new /\
      (forall e, e ∈ old -> (en_Index e <= ds_snapIndex s)%N \/ term_of s (en_Index e) = Some (en_Term e)) /\
      (forall e0 new', new = e0 :: new' -> (ds_snapIndex s < en_Index e0 <= log_end s)%N /\
         (en_Index e0 = log_end s \/ term_of s (en_Index e0) <> Some (en_Term e0)))).
  { intros Hd Hgt. exists [], (e :: es). split_and!; [done..| |].
    - by intros x ?%not_elem_of_nil.
    - intros e0 new' [= <- <-]. split; [lia|done]. }
  assert (Hskip : (en_Index e < log_end s)%N -> (en_Index e <= ds_snapIndex s)%N \/ term_of s (en_Index e) = Some (en_Term e) ->
    exists old new, toAppend s es = Some new /\ e :: es = old ++ new /\
      (forall e, e ∈ old -> (en_Index e <= ds_snapIndex s)%N \/ term_of s (en_Index e) = Some (en_Term e)) /\
      (forall e0 new', new = e0 :: new' -> (ds_snapIndex s < en_Index e0 <= log_end s)%N /\
         (en_Index e0 = log_end s \/ term_of s (en_Index e0) <> Some (en_Term e0)))).
  { intros Hlt Hd. destruct (IH (first + 1)%N Hc) as (old & new & -> & -> & Ho & Hn); [lia|].
    exists (e :: old), new. split_and!; [done..| |done]. by intros x [->|Hx]%elem_of_cons; [|apply Ho]. }
  destruct (N.leb_spec (en_Index e) (ds_snapIndex s)) as [Hs|Hs].
  { apply Hskip; [unfold log_end; lia|by left]. }
  destruct (N.leb_spec (en_Index e) (log_end s - 1)) as [Hl|Hl].
  - rewrite termAt_wf by done. cbn [mbind option_bind].
    destruct (entry_of_Some s Hwf (en_Index e)) as (x & Hx & _); [lia|].
    rewrite term_of_entry, Hx by done. simpl. destruct (N.eqb_spec (en_Term x) (en_Term e)) as [Et|Et].
    + apply Hskip; [lia|]. right. rewrite term_of_entry, Hx by done. simpl. by rewrite Et.
    + apply Hstop; [|done]. right. rewrite term_of_entry, Hx by done. simpl. congruence.
  - apply Hstop; [left; lia|done].
Qed.

(** A node that differs from [n] in what following a leader changes. *)
Record follows (n n' : Node) : Prop := {
  fo_log : same_log (n_store n) (n_store n');
  fo_commit : n_commitIndex n' = n_commitIndex n;
  fo_applied : n_lastApplied n' = n_lastApplied n;
  fo_conf : n_conf n' = n_conf n;
  fo_role : n_role n' = follower
}.

Lemma follow_leader_ok c n term id :
  node_ok n -> exists n', follow_leader c n term id = Some n' /\ node_ok n' /\ follows n n'.
Proof.
  intros Hok. unfold follow_leader. destruct (_ || _) eqn:Eb.
  - destruct (stepDown_ok c n term Hok) as (n1 & E & [Hwf Hw] & Hr). rewrite E. cbn [mbind option_bind].
    destruct (reset_some c (set_leaderID n1 id) (nw_timer _ Hwf)) as [d ->]. eexists. split; [done|].
    split; [split; [by apply wf_reset, wf_leaderID|done]|].
    revert E. unfold stepDownLocked. destruct (_ <? _)%N; simpl.
    + destruct (setHardState _ _ _) as [[err s']|] eqn:Eh; [|done]. intros [d' ->]%reset_deadline. apply hard_same_log in Eh as [? _]. by split.
    + intros [d' ->]%reset_deadline. by split.
  - apply orb_false_iff in Eb as [_ Er%negb_false_iff%bool_decide_eq_true]. cbn [mbind option_bind]. destruct Hok as [Hwf Hw].
    destruct (reset_some c (set_leaderID n id) (nw_timer _ Hwf)) as [d ->]. eexists. split; [done|].
    split; [split; [by apply wf_reset, wf_leaderID|done]|]. by split.
Qed.

(** What an accepted request leaves to append: nothing, or entries that start
    inside or right behind the log, above the commit index. *)
Definition new_ok (n : Node) (new : list Entry) : Prop :=
  match new with
  | [] => True
  | e0 :: _ =>
      (ds_snapIndex (n_store n) < en_Index e0 <= log_end (n_store n))%N /\ contiguous (en_Index e0) new /\
      (en_Index e0 + len new < two64)%N /\ (n_commitIndex n < en_Index e0)%N
  end.

(** The log with [new] in place of everything from its first index. *)
Definition overwrite (s : diskStorage) (new : list Entry) : list Entry :=
  match new with
  | [] => ds_log s
  | e0 :: _ => take (pos s (en_Index e0)) (ds_log s) ++ new
  end.

Lemma store_entries_ok n new :
  node_ok n -> new_ok n new ->
  exists err n', store_entries Marshal n new = Some (err, n') /\ node_ok n' /\
    n_commitIndex n' = n_commitIndex n /\ ds_snapIndex (n_store n') = ds_snapIndex (n_store n) /\
    ds_snapTerm (n_store n') = ds_snapTerm (n_store n) /\ n_term n' = n_term n /\
    (err = None -> ds_log (n_store n') = overwrite (n_store n) new).
Proof.
  intros [Hwf Hw] Hn. unfold store_entries. destruct new as [|e0 new]; [by do 2 eexists|]. destruct Hn as (Hin & Hc & Hb & Hcom).
  destruct (appendEntries_total Marshal (n_store n) (e0 :: new) Hw) as (err & s' & E). rewrite E. cbn [mbind option_bind].
  apply appendEntries_mem in E as (l & w & d & -> & Ho & Hl).
  assert (node_ok (set_store n (set_dirty (set_log (set_dswal (n_store n) w) l) d)) /\
          (err = None -> l = overwrite (n_store n) (e0 :: new))) as [Hok1 Hlog].
  { destruct Hl as [[-> He]|(j & -> & Hj)].
    - split; [|intros ->; by destruct He]. split; [|by apply Ho]. apply wf_set_store; [done|by split].
    - rewrite (after_truncate_wf (n_store n) e0 new) by (done || apply Hwf). split.
      + split; [|by apply Ho]. pose proof (wf_append (n_store n) e0 new j (nw_log n Hwf) Hin Hc Hb) as Hwl.
        destruct Hwf. split; simpl; [by eapply log_wf_ext; [| |exact Hwl]| |done..].
        unfold log_end, len in *; simpl. rewrite length_app, length_take. unfold pos. lia.
      + intros He. unfold overwrite. by rewrite (take_ge (e0 :: new)) by by apply Hj. }
  set (s1 := set_dirty _ d) in *. destruct err as [er|]; [by do 2 eexists|]. destruct Hok1 as [Hwf1 Hw1].
  destruct (sync_total s1 Hw1) as (err & s2 & Es). rewrite Es. simpl. apply sync_same_log in Es as (Hs & Hw2 & Ht); [|done].
  do 2 eexists. split; [done|]. split; [split; [by apply (wf_set_store (set_store n s1))|done]|].
  destruct Hs as [E1 E2 E3]. split_and!; [done..|]. intros _. simpl. rewrite E3. by apply Hlog.
Qed.

Lemma contiguous_last first es e : contiguous first (es ++ [e]) -> (en_Index e + 1)%N = (first + len (es ++ [e]))%N.
Proof.
  intros [_ H]%contiguous_app. specialize (H 0 e eq_refl). rewrite len_app. unfold len at 2. simpl. lia.
Qed.

(** Behind an accepted request, the log reaches at least its last index. *)
Lemma accepted_end s old new prev :
  log_wf s -> contiguous (prev + 1) (old ++ new) -> (prev < log_end s)%N ->
  (forall e, e ∈ old -> (en_Index e <= ds_snapIndex s)%N \/ term_of s (en_Index e) = Some (en_Term e)) ->
  (forall e0 new', new = e0 :: new' -> (ds_snapIndex s < en_Index e0 <= log_end s)%N) ->
  (prev + len (old ++ new) < ds_snapIndex s + 1 + len (overwrite s new))%N.
Proof.
  intros Hwf Hc Hprev Hold Hnew. destruct new as [|e0 new].
  - rewrite app_nil_r in *. simpl. fold (log_end s). destruct old as [|e old _] using rev_ind; [unfold len; simpl; lia|].
    pose proof (contiguous_last _ _ _ Hc). assert (en_Index e < log_end s)%N; [|lia].
    destruct (Hold e) as [?|Ht]; [apply elem_of_app; right; by left|unfold log_end; lia|by eapply term_of_lt].
  - pose proof (Hnew e0 new eq_refl) as Hin. apply contiguous_app in Hc as [_ Hc]. specialize (Hc 0 e0 eq_refl).
    unfold overwrite. rewrite !len_app. unfold len in *. rewrite length_take. unfold pos, log_end, len in *. simpl in *. lia.
Qed.

Lemma follow_commit_ok n req :
  node_ok n -> (ae_PrevLogIndex req + len (ae_Entries req) < log_end (n_store n))%N -> node_ok (follow_commit n req).
Proof.
  intros [[H1 H2 H3 H3s H4 H5] Hw] Hend. unfold follow_commit. destruct (N.ltb_spec (n_commitIndex n) (ae_LeaderCommit req)); [|by split; [split|]].
  pose proof (lw_bound _ H1). rewrite add64_small by (unfold log_end in Hend; lia). split; [|done]. split; simpl; [done|lia|lia|done|done..].
Qed.

(** The entries left to append are acceptable to the node that follows. *)
Lemma append_new_ok n n1 req old new :
  append_ok n req -> follows n n1 -> node_wf n1 -> ae_Entries req = old ++ new ->
  (forall e0 new', new = e0 :: new' -> (ds_snapIndex (n_store n1) < en_Index e0 <= log_end (n_store n1))%N /\
     (en_Index e0 = log_end (n_store n1) \/ term_of (n_store n1) (en_Index e0) <> Some (en_Term e0))) ->
  new_ok n1 new.
Proof.
  intros [Hac Hab Hacm] Hf Hwf Hes Hnew. destruct new as [|e0 new]; [done|].
  destruct (Hnew e0 new eq_refl) as [Hin Hdiff]. rewrite Hes in Hac, Hab. apply contiguous_app in Hac as [_ Hac].
  pose proof (Hac 0 e0 eq_refl) as He0. rewrite N.add_0_r in He0. rewrite len_app in Hab.
  split; [done|]. split; [by rewrite He0|]. split; [lia|].
  destruct (N.lt_ge_cases (n_commitIndex n1) (en_Index e0)) as [|Hge]; [done|]. exfalso.
  destruct Hdiff as [Hd|Hd]; [pose proof (nw_commit _ Hwf); lia|]. apply Hd.
  destruct Hf as [[E1 E2 E3] Ec _ _ _].
  assert (term_of (n_store n) (en_Index e0) = Some (en_Term e0)) as Ht.
  { apply Hacm; [rewrite Hes; apply elem_of_app; right; by left|]. rewrite <-E1, <-Ec. lia. }
  rewrite <-Ht. unfold term_of. by rewrite E1, E2, E3.
Qed.

Lemma HandleAppendEntries_ok c n req :
  node_ok n -> append_ok n req -> exists resp n', HandleAppendEntries Marshal c n req = Some (resp, n') /\ node_ok n'.
Proof.
  intros Hok Hao. unfold HandleAppendEntries. destruct (_ <? _)%N; [by do 2 eexists|].
  destruct (follow_leader_ok c n (ae_Term req) (ae_LeaderId req) Hok) as (n1 & -> & Hok1 & Hf). cbn [mbind option_bind].
  pose proof Hok1 as [Hwf1 Hw1]. destruct (check_prev_some (n_store n1) req (nw_log _ Hwf1)) as [r Hr]. rewrite Hr. cbn [mbind option_bind].
  destruct r as [r|]; [by do 2 eexists|]. apply check_prev_accept in Hr; [|apply Hwf1].
  destruct (toAppend_spec (n_store n1) (ae_Entries req) (ae_PrevLogIndex req + 1)) as (old & new & -> & Hes & Hold & Hnew);
    [apply Hwf1|apply Hao|unfold log_end in *; lia|]. cbn [mbind option_bind].
  destruct (store_entries_ok n1 new Hok1) as (err & n2 & -> & Hok2 & Hc2 & Hi2 & _ & _ & Hlog); [by eapply append_new_ok|]. cbn [mbind option_bind].
  destruct err as [er|]; [by do 2 eexists|]. do 2 eexists. split; [done|]. apply follow_commit_ok; [done|].
  unfold log_end. rewrite Hi2, Hlog, Hes by done. apply accepted_end; [apply Hwf1| |done|done|].
  - rewrite <-Hes. apply Hao.
  - intros e0 new' E. by destruct (Hnew e0 new' E).
Qed.

(** ** Snapshots *)

(** A snapshot index below 2^64-1 and a membership with voters. *)
Record snap_ok (req : InstallSnapshotRequest) : Prop := {
  so_bound : (is_LastIncludedIndex req + 1 < two64)%N;
  so_conf : forall cs, decodeConfState (is_ConfState req) = Ok cs -> is_ConfState req <> [] -> Voters cs <> ∅
}.

Lemma compact_wf s s' index :
  log_wf s -> (ds_snapIndex s < index)%N -> (index + 1 < two64)%N ->
  ds_log s' = filter (fun e => index < en_Index e)%N (ds_log s) -> ds_snapIndex s' = index ->
  log_wf s' /\ (log_end s <= log_end s')%N /\ (index < log_end s')%N.
Proof.
  intros Hwf Hlt Hb El Ei. destruct (wf_compact s index 0 [] (ds_conf s) Hwf Hlt Hb) as [H1 H2].
  split; [by eapply log_wf_ext; [| |exact H1]|]. split; [|unfold log_end; lia].
  revert H2. unfold log_end. simpl. by rewrite El, Ei.
Qed.

(** Only an error after the files were written leaves the mutex held. *)
Lemma HandleInstallSnapshot_ok c n req tscript :
  node_ok n -> snap_ok req ->
  exists resp msg unlocked n', HandleInstallSnapshot Marshal c n req tscript = Some (resp, msg, unlocked, n') /\
    (unlocked = true -> node_ok n').
Proof.
  intros Hok [Hb Hcf]. unfold HandleInstallSnapshot. destruct (_ <? _)%N; [by do 4 eexists|].
  destruct (follow_leader_ok c n (is_Term req) (is_LeaderId req) Hok) as (n1 & -> & Hok1 & Hf). cbn [mbind option_bind].
  pose proof Hok1 as [Hwf1 Hw1].
  destruct (N.leb_spec (is_LastIncludedIndex req) (ds_snapIndex (n_store n1))) as [Hle|Hgt]; [by do 4 eexists|].
  set (conf := match is_ConfState req with [] => _ | _ => _ end).
  assert (Voters conf <> ∅) as Hne.
  { subst conf. specialize (Hcf). destruct (is_ConfState req) as [|b bs] eqn:E; [apply Hwf1|].
    destruct (decodeConfState (b :: bs)) as [cs| |] eqn:Ed; [|apply Hwf1..]. by apply (Hcf cs). }
  destruct (saveSnapshot_total Marshal (n_store n1) (is_LastIncludedIndex req) (is_LastIncludedTerm req) (is_Data req) conf tscript Hw1)
    as (err & s' & E). rewrite E. cbn [mbind option_bind]. destruct err as [er|]; [by do 4 eexists|].
  apply saveSnapshot_mem in E as (_ & _ & Hw' & [(_ & _ & _ & _ & [?|?])|(Hlt & El & Ei & _ & _)]); [done|lia|].
  destruct (compact_wf (n_store n1) s' _ (nw_log _ Hwf1) Hlt Hb El Ei) as (Hwl & _ & Hend).
  do 4 eexists. split; [done|]. intros _. split; [|by apply Hw'].
  split; simpl; [done|done|done|by rewrite Ei| |done|apply Hwf1]. intros Hr. by rewrite (fo_role _ _ Hf) in Hr.
Qed.

Lemma Snapshot_ok n index data tscript :
  node_ok n ->
  exists err n', Snapshot Marshal n index data tscript = Some (err, n') /\ node_wf n' /\ (err = None -> node_ok n').
Proof.
  intros [Hwf Hw]. unfold Snapshot. destruct (N.ltb_spec (n_lastApplied n) index) as [|Hle]; [by do 2 eexists|].
  rewrite termAt_wf by apply Hwf. cbn [mbind option_bind]. destruct (term_of _ _) as [t|] eqn:Et; [|by do 2 eexists]. simpl.
  destruct (saveSnapshot_total Marshal (n_store n) index t data (n_conf n) tscript Hw) as (err & s' & E). rewrite E. simpl.
  apply saveSnapshot_mem in E as (_ & _ & Hw' & Hs). do 2 eexists. split; [done|].
  assert (node_wf (set_store n s')) as Hn; [|split; [done|]; intros He; split; [done|]; by apply Hw'].
  destruct Hs as [(El & Ei & Est & _)|(Hlt & El & Ei & _)]; [by apply wf_set_store|].
  pose proof Hwf as [H1 H2 H3 H3s H4 H5]. pose proof (lw_bound _ H1).
  assert (index + 1 < two64)%N as Hb by (unfold log_end in *; lia).
  destruct (compact_wf (n_store n) s' index H1 Hlt Hb El Ei) as (Hwl & Hend & _). split; simpl; [done|lia|done|lia|done..].
Qed.

(** ** Applying *)

(** The message of a committed entry. *)
Definition msg_of (e : Entry) : ApplyMsg :=
  match en_ConfChange e with
  | Some cc => if (en_Type e =? ENTRY_CONF_CHANGE)%Z then ConfChangeMsg cc (en_Index e) (en_Term e)
               else CommandMsg (en_Data e) (en_Index e) (en_Term e)
  | None => CommandMsg (en_Data e) (en_Index e) (en_Term e)
  end.

(** The entries with indexes in (lo, hi]. *)
Definition entries_between (s : diskStorage) (lo hi : N) : list Entry :=
  take (N.to_nat (hi - lo)) (drop (N.to_nat (lo - ds_snapIndex s)) (ds_log s)).

Lemma applyConfChange_ok n cc :
  node_ok n -> exists err n', applyConfChangeLocked n cc = Some (err, n') /\ node_ok n' /\
    same_log (n_store n) (n_store n') /\ n_commitIndex n' = n_commitIndex n /\ n_lastApplied n' = n_lastApplied n.
Proof.
  intros [Hwf Hw]. unfold applyConfChangeLocked.
  pose proof (ApplyConfChange_no_panic (n_conf n) cc (nw_voters n Hwf)) as Hp.
  destruct (ApplyConfChange (n_conf n) cc) as [next|er|] eqn:Ea; [|by do 2 eexists|done].
  assert (Voters next <> ∅) as Hne.
  { revert Ea. unfold ApplyConfChange. pose proof (nw_voters n Hwf) as Hv. repeat case_match; try done; intros [= <-]; simpl; [set_solver|..|done].
    intros E. apply bool_decide_eq_false in H3. apply H3. transitivity (size (Voters (n_conf n) ∖ {[cc_NodeId cc]}) + 1).
    - pose proof (grows_remove (cc_NodeId cc) (Voters (n_conf n))) as [_ ?]. lia.
    - by rewrite E, size_empty. }
  set (addrs := match cc_Context cc with [] => _ | _ => _ end). set (n1 := set_nconf n next addrs).
  assert (node_wf n1 /\ n_store n1 = n_store n) as [Hwf1 Hst1] by (destruct Hwf; by split).
  set (n2 := if (cc_Type cc =? _)%Z then _ else n1).
  assert (node_wf n2 /\ n_store n2 = n_store n /\ n_commitIndex n2 = n_commitIndex n /\ n_lastApplied n2 = n_lastApplied n) as (Hwf2 & Hst2 & Hc2 & Ha2).
  { subst n2. destruct (cc_Type cc =? CONF_CHANGE_REMOVE_NODE)%Z.
    - destruct (_ =? _)%N; (split; [destruct Hwf1; by split|done]).
    - split_and!; [exact Hwf1|exact Hst1|reflexivity|reflexivity]. }
  set (n3 := if decide (n_role n2 = leader) then _ else n2).
  assert (node_wf n3 /\ n_store n3 = n_store n /\ n_commitIndex n3 = n_commitIndex n /\ n_lastApplied n3 = n_lastApplied n) as (Hwf3 & Hst3 & Hc3 & Ha3).
  { subst n3. case_decide as Hr; [|by split_and!]. split; [|by split_and!]. destruct (nw_leader _ Hwf2 Hr) as [p Hp2]. rewrite Hp2. by apply wf_set_progress. }
  destruct (setConfState_total (n_store n3) (n_conf n3)) as (err & s' & E); [by rewrite Hst3|]. rewrite E. simpl.
  apply conf_same_log in E as [Hs Hw']. do 2 eexists. split; [done|]. split; [split; [by apply wf_set_store|done]|].
  simpl. rewrite Hst3 in Hs. done.
Qed.

(** Applying one entry: the node before lastApplied is advanced. *)
Definition applies (n : Node) (e : Entry) (n1 : Node) : Prop :=
  match en_ConfChange e with
  | Some cc => if (en_Type e =? ENTRY_CONF_CHANGE)%Z then exists err, applyConfChangeLocked n cc = Some (err, n1) else n1 = n
  | None => n1 = n
  end.

Lemma applies_ok n e :
  node_ok n -> exists n1, applies n e n1 /\ node_ok n1 /\ same_log (n_store n) (n_store n1) /\
    n_commitIndex n1 = n_commitIndex n /\ n_lastApplied n1 = n_lastApplied n.
Proof.
  intros Hok. unfold applies. destruct (en_ConfChange e) as [cc|]; [|by exists n]. destruct (_ =? _)%Z; [|by exists n].
  destruct (applyConfChange_ok n cc Hok) as (err & n1 & E & ? & ? & ? & ?). exists n1. split; [by eexists|done].
Qed.

(** One turn of the loop. *)
Lemma apply_turn n :
  node_ok n -> (n_lastApplied n < n_commitIndex n)%N ->
  exists e n1, let n2 := set_lastApplied n1 (n_lastApplied n + 1)%N in
    applies n e n1 /\ node_ok n2 /\ n_commitIndex n2 = n_commitIndex n /\
    entries_between (n_store n) (n_lastApplied n) (n_commitIndex n) =
      e :: entries_between (n_store n2) (n_lastApplied n2) (n_commitIndex n2) /\
    forall fuel, apply_loop (S fuel) n = '(msgs, n') ← apply_loop fuel n2; Some (msg_of e :: msgs, n').
Proof.
  intros Hok Hlt. pose proof Hok as [Hwf Hw]. pose proof Hwf as [H1 H2 H3 H3s H4 H5]. pose proof (lw_bound _ H1) as Hb.
  destruct (entry_of_Some _ H1 (n_lastApplied n + 1)%N) as (e & He & Hi); [unfold log_end in *; lia|].
  destruct (applies_ok n e Hok) as (n1 & Ha1 & Hok1 & Hs1 & Hc1 & Hl1). exists e, n1. cbv zeta. split; [done|].
  split.
  { destruct Hok1 as [[G1 G2 G3 G3s G4 G5] Gw]. split; [|done]. split; simpl; [done|done|lia|lia|done|done..]. }
  split; [done|]. split.
  - unfold entries_between. simpl. rewrite (sl_index _ _ Hs1), (sl_log _ _ Hs1), Hc1.
    replace (N.to_nat (n_lastApplied n + 1 - _)) with (S (N.to_nat (n_lastApplied n - ds_snapIndex (n_store n)))) by lia.
    replace (N.to_nat (n_commitIndex n - n_lastApplied n)) with (S (N.to_nat (n_commitIndex n - (n_lastApplied n + 1)))) by lia.
    rewrite <-firstn_cons. f_equal. apply drop_S.
    revert He. unfold entry_of. destruct (N.leb_spec (n_lastApplied n + 1) (ds_snapIndex (n_store n))); [lia|].
    intros <-. f_equal. lia.
  - intros fuel. cbn [apply_loop]. rewrite (proj2 (N.ltb_lt _ _)) by done.
    rewrite add64_small by (unfold log_end in *; lia). rewrite firstIndex_wf by done.
    rewrite (proj2 (N.ltb_ge _ (ds_snapIndex (n_store n) + 1))) by lia.
    unfold entryAt. rewrite slot_wf by done. rewrite He. cbn [mbind option_bind]. revert Ha1. unfold applies, msg_of.
    destruct (en_ConfChange e) as [cc|]; [|by intros ->]. destruct (_ =? _)%Z; [|by intros ->]. by intros [err ->].
Qed.

Lemma apply_loop_spec fuel n :
  node_ok n -> N.to_nat (n_commitIndex n - n_lastApplied n) < fuel ->
  exists n', apply_loop fuel n = Some (msg_of <$> entries_between (n_store n) (n_lastApplied n) (n_commitIndex n), n') /\
    node_ok n' /\ n_lastApplied n' = n_commitIndex n /\ n_commitIndex n' = n_commitIndex n.
Proof.
  revert n. induction fuel as [|fuel IH]; intros n Hok Hf; [lia|]. pose proof (nw_applied _ (proj1 Hok)) as Ha.
  destruct (N.ltb_spec (n_lastApplied n) (n_commitIndex n)) as [Hlt|Hge].
  2:{ exists n. assert (n_lastApplied n = n_commitIndex n) as E by lia. cbn [apply_loop]. rewrite (proj2 (N.ltb_ge _ _)) by done.
      unfold entries_between. rewrite E, N.sub_diag. done. }
  destruct (apply_turn n Hok Hlt) as (e & n1 & _ & Hok2 & Hc2 & Eb & El). rewrite El, Eb.
  destruct (IH _ Hok2) as (n' & -> & Hok' & Ha' & Hc'); [rewrite Hc2; simpl; lia|]. simpl. exists n'.
  rewrite Hc2 in *. done.
Qed.

End node.
