(* ===== verification/NodeSteps.v ===== *)
(** raft/node.go: the node as a transition system. An event is one critical
    section of the node, in the order the mutex lets them in; a run is any
    sequence of events a correct cluster can produce. *)

From S2P Require Import Prelude Bytes GoIO Wal Messages ConfState DiskStorage StorageCorrect StorageMem LogFacts Node NodeWf.

(** ** Events *)

Inductive event :=
  | EvTick (kicked : bool)
  | EvVote (req : RequestVoteRequest)
  | EvVoteResp (newTerm : N) (resp : RequestVoteResponse)
  | EvAppend (req : AppendEntriesRequest)
  | EvAppendResp (peer : N) (req : AppendEntriesRequest) (resp : AppendEntriesResponse)
  | EvInstall (req : InstallSnapshotRequest) (tscript : list outcome)
  | EvSnapResp (peer : N) (req : InstallSnapshotRequest) (resp : InstallSnapshotResponse)
  | EvSent (peer : N)
  | EvRead (req : ReadIndexRequest)
  | EvReadResp (r : read_state) (resp : ReadIndexResponse)
  | EvPropose (command : bytes)
  | EvProposeConf (cc : ConfChange)
  | EvApply
  | EvSnapshot (index : N) (data : bytes) (tscript : list outcome).

(** What an event answers. [OutFault] is a snapshot that could not be stored:
    the log may be closed behind it, and in the handler of InstallSnapshot the
    mutex stays locked. *)
Inductive output :=
  | OutRpcs (rpcs : list rpc)
  | OutVote (resp : RequestVoteResponse)
  | OutAppend (resp : AppendEntriesResponse)
  | OutInstall (resp : InstallSnapshotResponse) (msg : option ApplyMsg)
  | OutRead (resp : ReadIndexResponse)
  | OutReading (r : read_state)
  | OutPropose (r : sum error (N * N))
  | OutApply (msgs : list ApplyMsg)
  | OutNone
  | OutFault.

Section node.
Context (Marshal : Entry -> bytes).

Definition exec (c : clock) (ev : event) (n : Node) : option (output * Node) :=
  match ev with
  | EvTick k => '(out, n) ← run_step c k n; Some (OutRpcs out, n)
  | EvVote req => '(resp, n) ← HandleRequestVote c n req; Some (OutVote resp, n)
  | EvVoteResp t resp => '(out, n) ← onVoteResponse Marshal c n t resp; Some (OutRpcs out, n)
  | EvAppend req => '(resp, n) ← HandleAppendEntries Marshal c n req; Some (OutAppend resp, n)
  | EvAppendResp peer req resp => n ← onAppendResponse c n peer req resp; Some (OutNone, n)
  | EvInstall req tscript =>
      '(resp, msg, unlocked, n) ← HandleInstallSnapshot Marshal c n req tscript;
      Some ((if unlocked : bool then OutInstall resp msg else OutFault), n)
  | EvSnapResp peer req resp => n ← onSnapshotResponse c n peer req resp; Some (OutNone, n)
  | EvSent peer => Some (OutNone, clearInflight n peer)
  | EvRead req => '(resp, n) ← HandleReadIndex c n req; Some (OutRead resp, n)
  | EvReadResp r resp => '(r, n) ← onReadResponse c n r resp; Some (OutReading r, n)
  | EvPropose cmd => '(r, n) ← Propose Marshal n cmd; Some (OutPropose r, n)
  | EvProposeConf cc => '(r, n) ← ProposeConfChange Marshal n cc; Some (OutPropose r, n)
  | EvApply => '(msgs, n) ← applier n; Some (OutApply msgs, n)
  | EvSnapshot index data tscript =>
      '(err, n) ← Snapshot Marshal n index data tscript;
      Some (match err with Some _ => OutFault | None => OutNone end, n)
  end.

(** What the rest of the cluster guarantees of an event. *)
Definition ev_ok (n : Node) (ev : event) : Prop :=
  match ev with
  | EvVoteResp _ _ | EvPropose _ | EvProposeConf _ => room n
  | EvAppend req => append_ok n req
  | EvInstall req _ => snap_ok req
  | _ => True
  end.

Lemma exec_ok c ev n :
  node_ok n -> ev_ok n ev ->
  exists out n', exec c ev n = Some (out, n') /\ (out <> OutFault -> node_ok n').
Proof.
  intros Hok Hev. destruct ev as [k|req|t resp|req|peer req resp|req ts|peer req resp|peer|req|r resp|cmd|cc| |index data ts]; simpl in *.
  - destruct (run_step_ok c k n Hok) as (out & n' & -> & ?). simpl. by do 2 eexists.
  - destruct (HandleRequestVote_ok c n req Hok) as (out & n' & -> & ?). simpl. by do 2 eexists.
  - destruct (onVoteResponse_ok Marshal c n t resp Hok Hev) as (out & n' & -> & ?). simpl. by do 2 eexists.
  - destruct (HandleAppendEntries_ok Marshal c n req Hok Hev) as (out & n' & -> & ?). simpl. by do 2 eexists.
  - destruct (onAppendResponse_ok c n peer req resp Hok) as (n' & -> & ?). simpl. by do 2 eexists.
  - destruct (HandleInstallSnapshot_ok Marshal c n req ts Hok Hev) as (r & m & u & n' & -> & Hu). simpl.
    do 2 eexists. split; [done|]. destruct u; [|done]. intros _. by apply Hu.
  - destruct (onSnapshotResponse_ok c n peer req resp Hok) as (n' & -> & ?). simpl. by do 2 eexists.
  - do 2 eexists. split; [done|]. intros _. by apply clearInflight_ok.
  - destruct (HandleReadIndex_ok c n req Hok) as (out & n' & -> & ?). simpl. by do 2 eexists.
  - destruct (onReadResponse_ok c n r resp Hok) as (out & n' & -> & ?). simpl. by do 2 eexists.
  - destruct (Propose_ok Marshal n cmd Hok Hev) as (out & n' & -> & ?). simpl. by do 2 eexists.
  - destruct (ProposeConfChange_ok Marshal n cc Hok Hev) as (out & n' & -> & ?). simpl. by do 2 eexists.
  - unfold applier. destruct (apply_loop_spec _ n Hok (Nat.lt_succ_diag_r _)) as (n' & -> & ? & _). simpl. by do 2 eexists.
  - destruct (Snapshot_ok Marshal n index data ts Hok) as (err & n' & -> & _ & He). simpl.
    do 2 eexists. split; [done|]. destruct err; [done|]. intros _. by apply He.
Qed.

(** Runs whose snapshots are stored without error; every other call on the
    device may fail. *)
Inductive steps : Node -> Node -> Prop :=
  | steps_refl n : steps n n
  | steps_step n n1 c ev out n2 :
      steps n n1 -> ev_ok n1 ev -> exec c ev n1 = Some (out, n2) -> out <> OutFault -> steps n n2.

Lemma steps_ok n n' : node_ok n -> steps n n' -> node_ok n'.
Proof.
  intros Hok. induction 1 as [|n n1 c ev out n2 _ IH Hev He Hout]; [done|].
  destruct (exec_ok c ev n1 (IH Hok) Hev) as (out' & n' & E & Hn). rewrite E in He. injection He as -> ->. by apply Hn.
Qed.

Lemma NewNode_ok Unmarshal c cfg :
  cfg_Peers cfg <> [] -> timer_ok (fill cfg) ->
  exists n, NewNode Unmarshal c cfg (mkSnapFiles None None None) None = Ok n /\ node_ok n /\ n_role n = follower.
Proof.
  intros Hp Ht. unfold NewNode, openDiskStorage. cbn [rbind load_snapshot sf_meta].
  cbn. unfold resetElectionTimerLocked, Int63n. cbn [n_cfg]. rewrite (proj2 (Z.leb_gt _ _) Ht). cbn [mbind option_bind].
  eexists. split; [reflexivity|]. split; [|done]. split; [|by eexists].
  split; simpl; [by split|done|done|done|done| |done].
  destruct (cfg_Peers cfg); [done|]. simpl. set_solver.
Qed.

(** C12. The node never panics and keeps its invariant: from a new node with peers and
    election timeouts in order, through any sequence of events (elections, votes, log
    replication, snapshots, membership changes, reads, applies), with any clock and
    any device failures outside snapshots, the log stays contiguous after the
    snapshot, snapIndex <= lastApplied <= commitIndex <= lastIndex, a leader has its
    progress maps and the membership is not empty; and the next event returns
    rather than panics. The requests among the events are such as a leader sends
    ([ev_ok]: contiguous entries that do not contradict what is committed), there
    is room for one more entry, and no snapshot fails to be stored. *)
Theorem node_invariant Unmarshal c0 cfg :
  cfg_Peers cfg <> [] -> timer_ok (fill cfg) ->
  exists n0, NewNode Unmarshal c0 cfg (mkSnapFiles None None None) None = Ok n0 /\
    forall n, steps n0 n ->
      node_wf n /\
      forall c ev, ev_ok n ev -> exists out n', exec c ev n = Some (out, n').
Proof.
  intros Hp Ht. destruct (NewNode_ok Unmarshal c0 cfg Hp Ht) as (n0 & E & Hok & _). exists n0. split; [done|].
  intros n Hn. pose proof (steps_ok _ _ Hok Hn) as Hok'. split; [apply Hok'|].
  intros c ev Hev. destruct (exec_ok c ev n Hok' Hev) as (out & n' & He & _). by do 2 eexists.
Qed.

(** With timeouts out of order no node starts. *)
Theorem bad_timeouts_panic Unmarshal c cfg files wal n : ~ timer_ok (fill cfg) -> NewNode Unmarshal c cfg files wal <> Ok n.
Proof.
  intros Ht. unfold NewNode. destruct (openDiskStorage _ _ _ _) as [s| |]; cbn [rbind]; [|done..].
  destruct (resetElectionTimerLocked c _) as [n1|] eqn:E; [|done]. by apply reset_inv in E as [? _].
Qed.

End node.

(** ** Witnesses *)

Definition clock0 : clock := mkClock 0 0.
Definition sample_cfg (id : N) : Config := mkConfig id [1; 2; 3]%N ∅ 0 0 0.

Lemma node_invariant_witness :
  exists n0, NewNode sample_Unmarshal clock0 (sample_cfg 1) (mkSnapFiles None None None) None = Ok n0 /\
    forall n, steps sample_Marshal n0 n ->
      node_wf n /\
      forall c ev, ev_ok n ev -> exists out n', exec sample_Marshal c ev n = Some (out, n').
Proof. apply (node_invariant sample_Marshal sample_Unmarshal clock0 (sample_cfg 1)); [discriminate|reflexivity]. Defined.
