(* ===== verification/NodeVotes.v ===== *)
(** raft/node.go: terms and votes. Every storage call of a node keeps its hard
    state moving forward, and the write-ahead log makes a granted vote survive a
    crash. *)

From S2P Require Import Prelude Bytes GoIO Wal Messages ConfState DiskStorage StorageCorrect StorageMem LogFacts Node NodeWf NodeSteps.

(** ** The order on hard states *)

(** [(t', v')] may follow [(t, v)]: a later term, or the same term with the same
    vote or the first one. *)
Definition hard_le (p q : N * N) : Prop := (p.1 < q.1)%N \/ p.1 = q.1 /\ (p.2 = 0%N \/ p.2 = q.2).

#[global] Instance hard_le_preorder : PreOrder hard_le.
Proof.
  split.
  - intros [t v]. right. by auto.
  - intros [t1 v1] [t2 v2] [t3 v3]; unfold hard_le; simpl. intros [|[-> H]] [|[-> H']]; [left; lia|left; lia|by left|right].
    split; [done|]. naive_solver.
Qed.

Definition hard (s : diskStorage) : N * N := (ds_term s, ds_votedFor s).

Section node.
Context (Marshal : Entry -> bytes) (Unmarshal : bytes -> option Entry).
Context (Hproto : forall e, Unmarshal (Marshal e) = Some e).

Abbreviation entry_ok := (entry_ok Marshal).

(** ** The storage calls a critical section makes *)

Inductive store_step (s : diskStorage) : list (N * N * bool) -> diskStorage -> Prop :=
  | st_hard t v err s' :
      hard_le (hard s) (t, v) -> (t < two64)%N -> (v < two64)%N -> setHardState s t v = Some (err, s') ->
      store_step s [(t, v, if err is None then true else false)] s'
  | st_append es err s' : Forall entry_ok es -> appendEntries Marshal s es = Some (err, s') -> store_step s [] s'
  | st_sync err s' : sync s = Some (err, s') -> store_step s [] s'
  | st_conf c err s' : conf_fits c -> setConfState s c = Some (err, s') -> store_step s [] s'
  | st_snap index term data c tscript err s' :
      conf_fits c -> saveSnapshot Marshal s index term data c tscript = Some (err, s') -> store_step s [] s'.

Inductive store_path (s : diskStorage) : list (N * N * bool) -> diskStorage -> Prop :=
  | path_refl : store_path s [] s
  | path_step h1 s1 h2 s2 : store_path s h1 s1 -> store_step s1 h2 s2 -> store_path s (h1 ++ h2) s2.

Lemma path_one s h s' : store_step s h s' -> store_path s h s'.
Proof. intros H. rewrite <-(app_nil_l h). by eapply path_step; [apply path_refl|]. Qed.

Lemma path_trans s h1 s1 h2 s2 : store_path s h1 s1 -> store_path s1 h2 s2 -> store_path s (h1 ++ h2) s2.
Proof.
  intros H1. induction 1 as [|h s3 h' s4 _ IH Hs]; [by rewrite app_nil_r|].
  rewrite (assoc_L (++)). by eapply path_step.
Qed.

Lemma store_step_hard s h s' : store_step s h s' -> hard_le (hard s) (hard s').
Proof.
  destruct 1 as [t v err s' Hle _ _ H|es err s' _ H|err s' H|c err s' _ H|index term data c ts err s' _ H].
  - by apply setHardState_mem in H as [w ->].
  - apply appendEntries_mem in H as (l & w & d & -> & _). reflexivity.
  - apply sync_mem in H as (w & d & -> & _). reflexivity.
  - apply setConfState_mem in H as [w ->]. reflexivity.
  - apply saveSnapshot_mem in H as (Et & Ev & _). unfold hard. rewrite Et, Ev. reflexivity.
Qed.

Lemma store_path_hard s h s' : store_path s h s' -> hard_le (hard s) (hard s').
Proof. induction 1 as [|h1 s1 h2 s2 _ IH Hs]; [reflexivity|]. etrans; [done|by eapply store_step_hard]. Qed.

(** Calls that never go back before [p]. *)
Definition above (p : N * N) (h : list (N * N * bool)) : Prop := Forall (fun c => hard_le p c.1) h.

Lemma store_path_above s h s' : store_path s h s' -> above (hard s) h.
Proof.
  induction 1 as [|h1 s1 h2 s2 H1 IH Hs]; [by constructor|]. apply Forall_app. split; [done|].
  apply store_path_hard in H1. destruct Hs; [|by constructor..]. constructor; [by etrans|by constructor].
Qed.

Lemma ds_hist_step boot s h0 h s' : ds_hist Marshal Unmarshal boot s h0 -> store_step s h s' -> ds_hist Marshal Unmarshal boot s' (h0 ++ h).
Proof.
  intros H0. destruct 1; rewrite ?app_nil_r; by econstructor.
Qed.

Lemma ds_hist_path boot s h0 h s' : ds_hist Marshal Unmarshal boot s h0 -> store_path s h s' -> ds_hist Marshal Unmarshal boot s' (h0 ++ h).
Proof.
  intros H0. induction 1 as [|h1 s1 h2 s2 _ IH Hs]; [by rewrite app_nil_r|]. rewrite (assoc_L (++)). by eapply ds_hist_step.
Qed.

(** What may be on disk after calls that never go back before the last synced
    one never goes back before it either. *)
Lemma maybe_above p h0 h q : above p h -> q ∈ maybe (h0 ++ (p, true) :: h) -> hard_le p q.
Proof.
  intros Ha. unfold maybe. rewrite foldl_app. simpl. unfold maybe_step at 2. simpl.
  assert (forall l, above p h -> Forall (hard_le p) l -> Forall (hard_le p) (foldl maybe_step l h)) as Hall.
  { clear Ha. induction h as [|c h IH]; intros l Ha Hl; [done|]. apply Forall_cons in Ha as [Hc Ha]. simpl. apply IH; [done|].
    unfold maybe_step. destruct (c.2); [by constructor|]. apply Forall_app. split; [done|by constructor]. }
  intros Hq. eapply Forall_forall in Hq; [done|]. apply Hall; [done|]. constructor; [reflexivity|constructor].
Qed.

(** ** Critical sections *)

(** Storage calls lead from [n] to [n'], and nothing changes its identity. *)
Record spath (n n' : Node) : Prop := {
  sp_path : exists h, store_path (n_store n) h (n_store n');
  sp_cfg : n_cfg n' = n_cfg n
}.

(** ... nor its membership. *)
Record npath (n n' : Node) : Prop := {
  np_spath : spath n n';
  np_conf : n_conf n' = n_conf n
}.

#[local] Instance spath_preorder : PreOrder spath.
Proof.
  split.
  - intros n. split; [|done]. exists []. constructor.
  - intros n1 n2 n3 [[h1 H1] E1] [[h2 H2] E2]. split; [|congruence]. exists (h1 ++ h2). by eapply path_trans.
Qed.

#[local] Instance npath_preorder : PreOrder npath.
Proof.
  split; [intros n; by split|]. intros n1 n2 n3 [H1 E1] [H2 E2]. split; [by etrans|congruence].
Qed.

Lemma npath_one n n' h :
  store_step (n_store n) h (n_store n') -> n_cfg n' = n_cfg n -> n_conf n' = n_conf n -> npath n n'.
Proof. intros H Ec Ef. split; [|done]. split; [|done]. exists h. by apply path_one. Qed.

Lemma npath_same n n' : n_store n' = n_store n -> n_cfg n' = n_cfg n -> n_conf n' = n_conf n -> npath n n'.
Proof. intros E Ec Ef. split; [|done]. split; [|done]. exists []. rewrite E. constructor. Qed.

Lemma spath_same n n' : n_store n' = n_store n -> n_cfg n' = n_cfg n -> spath n n'.
Proof. intros E Ec. split; [|done]. exists []. rewrite E. constructor. Qed.

Lemma stepDown_path c n t n' : (t < two64)%N -> stepDownLocked c n t = Some n' -> npath n n'.
Proof.
  intros Ht. unfold stepDownLocked. destruct (N.ltb_spec (n_term n) t) as [Hlt|_]; simpl.
  - destruct (setHardState _ _ _) as [[err s']|] eqn:E; [|done]. intros [d ->]%reset_deadline. eapply npath_one; [|done..]. simpl.
    apply (st_hard _ t 0 err s'); [by left|done|done|exact E].
  - intros [d ->]%reset_deadline. by apply npath_same.
Qed.

Lemma HandleRequestVote_path c n req resp n' :
  (rv_Term req < two64)%N -> (rv_CandidateId req < two64)%N -> (n_term n < two64)%N ->
  HandleRequestVote c n req = Some (resp, n') -> npath n n'.
Proof.
  intros Ht Hc Hn. unfold HandleRequestVote.
  destruct (if (n_term n <? rv_Term req)%N then _ else _) as [n1|] eqn:E1; [|done]. cbn [mbind option_bind].
  assert (npath n n1 /\ (n_term n1 < two64)%N) as [H1 Hn1].
  { destruct (N.ltb_spec (n_term n) (rv_Term req)) as [Hlt|]; [|injection E1 as <-; by split; [reflexivity|]].
    split; [exact (stepDown_path _ _ _ _ Ht E1)|]. revert E1. unfold stepDownLocked. rewrite (proj2 (N.ltb_lt _ _)) by done.
    destruct (setHardState _ _ _) as [[err s']|] eqn:E; [|done]. simpl. intros [d ->]%reset_deadline. by apply setHardState_mem in E as [w ->]. }
  clear E1. destruct (rv_Term req <? n_term n1)%N; [by intros [= <- <-]|]. destruct (negb _); [by intros [= <- <-]|].
  destruct (termAt _ _) as [[lt ok]|]; [|done]. cbn [mbind option_bind].
  destruct (_ && _) eqn:Ev; [|by intros [= <- <-]]. apply andb_true_iff in Ev as [Ev _].
  destruct (setHardState _ _ _) as [[err s']|] eqn:E; [|done]. cbn [mbind option_bind].
  assert (npath n1 (set_store n1 s')) as H2.
  { eapply npath_one; [|done..]. simpl. apply (st_hard _ (ds_term (n_store n1)) (rv_CandidateId req) err s'); [|exact Hn1|exact Hc|exact E]. right. simpl. split; [done|].
    apply orb_true_iff in Ev as [Ev|Ev]; apply N.eqb_eq in Ev; [by left|by right]. }
  destruct err; [intros [= <- <-]; by etrans|]. destruct (resetElectionTimerLocked _ _) as [n2|] eqn:Er; [|done]. apply reset_deadline in Er as [d ->].
  intros [= <- <-]. etrans; [exact H1|]. etrans; [exact H2|by apply npath_same].
Qed.

Lemma HandleReadIndex_path c n req resp n' :
  (ri_Term req < two64)%N -> HandleReadIndex c n req = Some (resp, n') -> npath n n'.
Proof.
  intros Ht. unfold HandleReadIndex. destruct (_ <? _)%N; [by intros [= <- <-]|].
  destruct (if (n_term n <? ri_Term req)%N then _ else _) as [n1|] eqn:E1; [|done]. cbn [mbind option_bind].
  assert (npath n n1) as H1.
  { destruct (_ <? _)%N; [exact (stepDown_path _ _ _ _ Ht E1)|]. by injection E1 as <-. }
  destruct (_ || _); [by intros [= <- <-]|]. destruct (resetElectionTimerLocked _ _) as [n2|] eqn:Er; [|done]. apply reset_deadline in Er as [d ->].
  intros [= <- <-]. etrans; [exact H1|by apply npath_same].
Qed.

Lemma onReadResponse_path c n r resp r' n' :
  (rir_Term resp < two64)%N -> onReadResponse c n r resp = Some (r', n') -> npath n n'.
Proof.
  intros Ht. unfold onReadResponse. destruct (_ <? _)%N.
  - destruct (stepDownLocked _ _ _) as [n1|] eqn:E; [|done]. intros [= <- <-]. exact (stepDown_path _ _ _ _ Ht E).
  - destruct (_ || _); [by intros [= <- <-]|]. destruct (rir_Ack resp); by intros [= <- <-].
Qed.

(** The storage, the identity and the membership are the same. *)
Record same_core (n n' : Node) : Prop := {
  sc_store : n_store n' = n_store n;
  sc_cfg : n_cfg n' = n_cfg n;
  sc_conf : n_conf n' = n_conf n
}.

Lemma npath_core n n' : same_core n n' -> npath n n'.
Proof. intros []. by apply npath_same. Qed.

Lemma sendAppend_store now n peer out n' : sendAppendLocked now n peer = Some (out, n') -> same_core n n'.
Proof.
  unfold sendAppendLocked. destruct (_ && _); [by intros [= <- <-]|]. destruct (n_progress n) as [p|]; [|done]. cbn [mbind option_bind].
  destruct (_ <? _)%N; [case_decide; by intros [= <- <-]|].
  destruct (termAt _ _) as [[t ok]|]; [|done]. cbn [mbind option_bind]. destruct (negb ok); [by intros [= <- <-]|].
  destruct (entriesFrom _ _) as [es|]; [|done]. cbn [mbind option_bind]. case_decide; by intros [= <- <-].
Qed.

Lemma send_all_store now peers n out n' : send_all now n peers = Some (out, n') -> same_core n n'.
Proof.
  revert n out n'. induction peers as [|p peers IH]; intros n out n'; cbn [send_all]; [by intros [= <- <-]|].
  destruct (_ =? _)%N; [by apply IH|]. destruct (sendAppendLocked _ _ _) as [[o1 n1]|] eqn:E1; [|done]. cbn [mbind option_bind].
  destruct (send_all now n1 peers) as [[o2 n2]|] eqn:E2; [|done]. intros [= <- <-].
  apply IH in E2 as []. apply sendAppend_store in E1 as []. split; congruence.
Qed.

Lemma broadcast_path now n out n' : broadcastAppendLocked now n = Some (out, n') -> npath n n'.
Proof.
  unfold broadcastAppendLocked. destruct (sync _) as [[err s']|] eqn:E; [|done]. cbn [mbind option_bind].
  assert (npath n (set_store n s')) as H by (eapply npath_one; [eapply st_sync, E|done..]).
  destruct err; [by intros [= <- <-]|]. intros H2%send_all_store. etrans; [exact H|by apply npath_core].
Qed.

Lemma advanceCommit_path n n' : advanceCommitLocked n = Some n' -> npath n n'.
Proof.
  unfold advanceCommitLocked. destruct (_ <=? _)%N; [by intros [= <-]|].
  destruct (sync _) as [[err s']|] eqn:E; [|done]. cbn [mbind option_bind].
  assert (npath n (set_store n s')) as H by (eapply npath_one; [eapply st_sync, E|done..]).
  destruct err; [by intros [= <-]|]. destruct (termAt _ _) as [[t ok]|]; [|done]. cbn [mbind option_bind].
  destruct (_ || _); intros [= <-]; [done|]. etrans; [exact H|by apply npath_same].
Qed.

Lemma onAppendResponse_path c n peer req resp n' :
  (aer_Term resp < two64)%N -> onAppendResponse c n peer req resp = Some n' -> npath n n'.
Proof.
  intros Ht. unfold onAppendResponse. destruct (_ <? _)%N; [by apply stepDown_path|].
  destruct (_ || _); [by intros [= <-]|]. destruct (n_progress n) as [p|]; [|done]. cbn [mbind option_bind].
  destruct (aer_Success resp).
  - intros H%advanceCommit_path. etrans; [|exact H]. by apply npath_same.
  - match goal with |- ?m ≫= _ = _ -> _ => destruct m as [q|] end; [|done]. intros [= <-]. by apply npath_same.
Qed.

Lemma onSnapshotResponse_path c n peer req resp n' :
  (isr_Term resp < two64)%N -> onSnapshotResponse c n peer req resp = Some n' -> npath n n'.
Proof.
  intros Ht. unfold onSnapshotResponse. destruct (_ <? _)%N; [by apply stepDown_path|].
  destruct (_ || _); [by intros [= <-]|]. destruct (n_progress n) as [p|]; [|done]. simpl. intros [= <-]. by apply npath_same.
Qed.

Lemma appendEntryLocked_path n e r n' : entry_ok e -> appendEntryLocked Marshal n e = Some (r, n') -> npath n n'.
Proof.
  intros He. unfold appendEntryLocked. destruct (appendEntries _ _ _) as [[err s']|] eqn:E; [|done]. cbn [mbind option_bind].
  assert (npath n (set_store n s')) as H.
  { eapply npath_one; [eapply st_append, E|done..]. by constructor. }
  destruct err; [by intros [= <- <-]|]. cbn [set_store n_progress]. destruct (n_progress n); [|done]. simpl.
  intros [= <- <-]. etrans; [exact H|by apply npath_same].
Qed.

(** The entry a leader makes of a command, of a membership change, and when it
    starts to lead. *)
Definition own_entry (n : Node) (data : bytes) (ty : EntryType) (cc : option ConfChange) : Entry :=
  mkLogEntry (n_term n) (lastIndex (n_store n) +64 1) data ty cc.

Lemma Propose_path n cmd r n' :
  entry_ok (own_entry n cmd ENTRY_NORMAL None) -> Propose Marshal n cmd = Some (r, n') -> npath n n'.
Proof. intros He. unfold Propose. case_decide; [by apply appendEntryLocked_path|by intros [= <- <-]]. Qed.

Lemma ProposeConfChange_path n cc r n' :
  entry_ok (own_entry n [] ENTRY_CONF_CHANGE (Some cc)) -> ProposeConfChange Marshal n cc = Some (r, n') -> npath n n'.
Proof.
  intros He. unfold ProposeConfChange. case_decide; [|by intros [= <- <-]]. destruct (_ && _); [by intros [= <- <-]|].
  destruct (ApplyConfChange _ _); [by apply appendEntryLocked_path|by intros [= <- <-]|done].
Qed.

Lemma becomeLeader_path now n out n' :
  entry_ok (own_entry n [] ENTRY_NORMAL None) -> becomeLeaderLocked Marshal now n = Some (out, n') -> npath n n'.
Proof.
  intros He. unfold becomeLeaderLocked. case_decide; [by intros [= <- <-]|].
  set (p := mkProgress _ _ _ _). set (n1 := set_progress _ (Some p)). set (noop := mkLogEntry _ _ _ _ _).
  destruct (appendEntries _ _ _) as [[err s']|] eqn:E; [|done]. cbn [mbind option_bind].
  intros Hb%broadcast_path. etrans; [|exact Hb]. apply (npath_one _ _ []); [|by destruct err..]. destruct err; simpl; (eapply st_append; [|exact E]); by constructor.
Qed.

Lemma onVoteResponse_path c n t resp out n' :
  (rvr_Term resp < two64)%N -> entry_ok (own_entry n [] ENTRY_NORMAL None) ->
  onVoteResponse Marshal c n t resp = Some (out, n') -> npath n n'.
Proof.
  intros Ht He. unfold onVoteResponse. destruct (_ <? _)%N.
  { destruct (stepDownLocked _ _ _) as [n1|] eqn:E; [|done]. intros [= <- <-]. exact (stepDown_path _ _ _ _ Ht E). }
  destruct (_ || _); [by intros [= <- <-]|]. destruct (HasVoteQuorum _ _).
  - intros H%becomeLeader_path; [|done]. etrans; [|exact H]. by apply npath_same.
  - intros [= <- <-]. by apply npath_same.
Qed.

Lemma startElection_path c n out n' :
  (n_term n + 1 < two64)%N -> (n_ID n < two64)%N -> startElectionLocked c n = Some (out, n') -> npath n n'.
Proof.
  intros Ht Hi. unfold startElectionLocked.
  assert ((n ← resetElectionTimerLocked c n; Some ([] : list rpc, n)) = Some (out, n') -> npath n n') as Hq.
  { destruct (resetElectionTimerLocked _ _) as [n2|] eqn:Er; [|done]. apply reset_deadline in Er as [d ->]. intros [= <- <-]. by apply npath_same. }
  destruct (negb _); [exact Hq|]. destruct (_ && _); [exact Hq|]. clear Hq.
  destruct (setHardState _ _ _) as [[err s']|] eqn:E; [|done]. cbn [mbind option_bind].
  assert (npath n (set_store n s')) as H.
  { eapply npath_one; [|done..]. cbn [set_store n_store]. cbn [set_role n_store] in E. change (n_term (set_role n candidate)) with (n_term n) in E.
    rewrite add64_small in E by done. apply (st_hard _ (n_term n + 1)%N (n_ID n) err s'); [|done..]. left. simpl. unfold n_term. lia. }
  destruct err; [intros [= <- <-]; etrans; [exact H|by apply npath_same]|].
  destruct (resetElectionTimerLocked _ _) as [n2|] eqn:Er; [|done]. apply reset_deadline in Er as [d ->]. cbn [mbind option_bind].
  destruct (termAt _ _) as [[t ok]|]; [|done]. cbn [mbind option_bind]. intros [= <- <-]. etrans; [exact H|by apply npath_same].
Qed.

Lemma run_step_path c k n out n' :
  (n_term n + 1 < two64)%N -> (n_ID n < two64)%N -> run_step c k n = Some (out, n') -> npath n n'.
Proof.
  intros Ht Hi. unfold run_step. set (n1 := if k then _ else n).
  assert (npath n n1 /\ n_term n1 = n_term n /\ n_ID n1 = n_ID n) as (H1 & E1 & E2).
  { subst n1. destruct k; [|done]. split; [by apply npath_same|done]. }
  rewrite <-E1 in Ht. rewrite <-E2 in Hi.
  destruct (n_role n1); [destruct (_ <? _)%Z|destruct (_ <? _)%Z|]; intros H;
    try (injection H as <- <-; done); (etrans; [exact H1|]); (by eapply startElection_path) || (by eapply broadcast_path).
Qed.

Lemma follow_leader_path c n t id n' : (t < two64)%N -> follow_leader c n t id = Some n' -> npath n n'.
Proof.
  intros Ht. unfold follow_leader. destruct (_ || _).
  - destruct (stepDownLocked _ _ _) as [n1|] eqn:E; [|done]. intros [d ->]%reset_deadline.
    etrans; [exact (stepDown_path _ _ _ _ Ht E)|by apply npath_same].
  - intros [d ->]%reset_deadline. by apply npath_same.
Qed.

Lemma toAppend_sub s es new : toAppend s es = Some new -> Forall entry_ok es -> Forall entry_ok new.
Proof.
  induction es as [|e es IH]; cbn [toAppend]; [by intros [= <-]|]. intros H Hall. pose proof Hall as [He Hes]%Forall_cons.
  destruct (_ <=? _)%N; [by apply IH|]. destruct (_ <=? _)%N; [|by injection H as <-].
  destruct (termAt _ _) as [[t ok]|]; [|done]. cbn [mbind option_bind] in H.
  destruct (_ =? _)%N; [by apply IH|by injection H as <-].
Qed.

Lemma store_entries_path n new err n' :
  Forall entry_ok new -> store_entries Marshal n new = Some (err, n') -> npath n n'.
Proof.
  intros Hn. unfold store_entries. destruct new as [|e new]; [by intros [= <- <-]|].
  destruct (appendEntries _ _ _) as [[err1 s1]|] eqn:E; [|done]. cbn [mbind option_bind].
  assert (npath n (set_store n s1)) as H by (eapply npath_one; [by eapply st_append, E|done..]).
  destruct err1; [by intros [= <- <-]|]. destruct (sync s1) as [[err2 s2]|] eqn:E2; [|done]. intros [= <- <-].
  etrans; [exact H|]. eapply npath_one; [eapply st_sync, E2|done..].
Qed.

Lemma HandleAppendEntries_path c n req resp n' :
  (ae_Term req < two64)%N -> Forall entry_ok (ae_Entries req) ->
  HandleAppendEntries Marshal c n req = Some (resp, n') -> npath n n'.
Proof.
  intros Ht He. unfold HandleAppendEntries. destruct (ae_Term req <? n_term n)%N; [by intros [= <- <-]|].
  destruct (follow_leader _ _ _ _) as [n1|] eqn:E1; [|done]. cbn [mbind option_bind]. apply follow_leader_path in E1; [|done].
  destruct (check_prev _ _) as [[r|]|]; [by intros [= <- <-]| |done]. cbn [mbind option_bind].
  destruct (toAppend _ _) as [new|] eqn:E2; [|done]. cbn [mbind option_bind]. apply toAppend_sub in E2; [|done].
  destruct (store_entries _ _ _) as [[err n2]|] eqn:E3; [|done]. cbn [mbind option_bind]. apply store_entries_path in E3; [|done].
  assert (npath n n2) as H by by etrans.
  destruct err; intros [= <- <-]; [done|]. etrans; [exact H|]. unfold follow_commit. destruct (_ <? _)%N; by apply npath_same.
Qed.

(** The membership of a snapshot message can be stored. *)
Definition snap_fits (req : InstallSnapshotRequest) : Prop :=
  forall cs, is_ConfState req <> [] -> decodeConfState (is_ConfState req) = Ok cs -> conf_fits cs.

Lemma follow_leader_conf c n t id n' : follow_leader c n t id = Some n' -> n_conf n' = n_conf n.
Proof.
  unfold follow_leader, stepDownLocked. destruct (_ || _); [|by intros [d ->]%reset_deadline]. intros E. peel E. apply reset_deadline in E as [d ->].
  apply bind_Some in Em as (n1 & E1 & [d1 ->]%reset_deadline). destruct (_ <? _)%N; [|by injection E1 as <-].
  destruct (setHardState _ _ _) as [[err s']|]; [|done]. by injection E1 as <-.
Qed.

Lemma HandleInstallSnapshot_path c n req ts resp msg u n' :
  (is_Term req < two64)%N -> snap_fits req -> conf_fits (n_conf n) ->
  HandleInstallSnapshot Marshal c n req ts = Some (resp, msg, u, n') ->
  spath n n' /\ (u = true -> conf_fits (n_conf n')).
Proof.
  intros Ht Hs Hc. unfold HandleInstallSnapshot. destruct (is_Term req <? n_term n)%N; [by intros [= <- <- <- <-]|].
  destruct (follow_leader _ _ _ _) as [n1|] eqn:E1; [|done]. cbn [mbind option_bind].
  pose proof (follow_leader_conf _ _ _ _ _ E1) as Ec. apply follow_leader_path in E1; [|done].
  destruct (is_LastIncludedIndex req <=? _)%N; [intros [= <- <- <- <-]; rewrite Ec; by split; [apply E1|]|].
  set (conf := match is_ConfState req with [] => _ | _ => _ end).
  assert (conf_fits conf) as Hcf.
  { subst conf. rewrite Ec. destruct (is_ConfState req) as [|b bs] eqn:Eb; [done|].
    destruct (decodeConfState (b :: bs)) as [cs| |] eqn:Ed; [|done..]. apply Hs; by rewrite Eb. }
  destruct (saveSnapshot _ _ _ _ _ _ _) as [[err s']|] eqn:E2; [|done]. cbn [mbind option_bind].
  assert (npath n (set_store n1 s')) as H.
  { etrans; [exact E1|]. eapply npath_one; [by eapply st_snap, E2|done..]. }
  destruct err; intros [= <- <- <- <-]; (split; [|done]); [apply H|]. etrans; [apply H|by apply spath_same].
Qed.

Lemma Snapshot_path n index data ts err n' :
  conf_fits (n_conf n) -> Snapshot Marshal n index data ts = Some (err, n') -> npath n n'.
Proof.
  intros Hc. unfold Snapshot. destruct (_ <? _)%N; [by intros [= <- <-]|].
  destruct (termAt _ _) as [[t ok]|]; [|done]. cbn [mbind option_bind]. destruct (negb ok); [by intros [= <- <-]|].
  destruct (saveSnapshot _ _ _ _ _ _ _) as [[err1 s']|] eqn:E; [|done]. intros [= <- <-]. eapply npath_one; [by eapply st_snap, E|done..].
Qed.

(** The membership after an entry is applied. *)
Definition conf_after (c : ConfState) (e : Entry) : ConfState :=
  match en_ConfChange e with
  | Some cc => if (en_Type e =? ENTRY_CONF_CHANGE)%Z
               then match ApplyConfChange c cc with Ok c' => c' | _ => c end else c
  | None => c
  end.

Lemma applyConfChange_path n cc err n' :
  conf_fits (match ApplyConfChange (n_conf n) cc with Ok c' => c' | _ => n_conf n end) ->
  applyConfChangeLocked n cc = Some (err, n') ->
  spath n n' /\ n_conf n' = match ApplyConfChange (n_conf n) cc with Ok c' => c' | _ => n_conf n end.
Proof.
  unfold applyConfChangeLocked. destruct (ApplyConfChange (n_conf n) cc) as [next|er|]; [|by intros ? [= <- <-]|done]. intros Hf.
  set (addrs := match cc_Context cc with [] => _ | _ => _ end). set (n1 := set_nconf n next addrs).
  set (n2 := if (cc_Type cc =? CONF_CHANGE_REMOVE_NODE)%Z then _ else n1).
  assert (n_store n2 = n_store n /\ n_conf n2 = next /\ n_cfg n2 = n_cfg n) as (Es2 & Ec2 & Eg2).
  { subst n2. destruct (cc_Type cc =? CONF_CHANGE_REMOVE_NODE)%Z; [destruct (cc_NodeId cc =? _)%N|]; done. }
  set (n3 := if decide (n_role n2 = leader) then _ else n2).
  assert (n_store n3 = n_store n /\ n_conf n3 = next /\ n_cfg n3 = n_cfg n) as (Es3 & Ec3 & Eg3).
  { subst n3. case_decide; done. }
  destruct (setConfState _ _) as [[err1 s']|] eqn:E; [|done]. intros [= <- <-]. split; [|done].
  rewrite Es3, Ec3 in E. split; [|done]. exists []. simpl. by eapply path_one, st_conf, E.
Qed.

(** Every membership an apply turn goes through can be stored. *)
Definition confs_fit (c : ConfState) (es : list Entry) : Prop :=
  forall k, conf_fits (foldl conf_after c (take k es)).

Lemma confs_fit_cons c e es : confs_fit c (e :: es) <-> conf_fits c /\ confs_fit (conf_after c e) es.
Proof.
  split.
  - intros H. split; [apply (H 0)|]. intros k. apply (H (S k)).
  - intros [Hc H] [|k]; [done|apply H].
Qed.

Lemma apply_loop_path fuel n msgs n' :
  node_ok n -> N.to_nat (n_commitIndex n - n_lastApplied n) < fuel ->
  confs_fit (n_conf n) (entries_between (n_store n) (n_lastApplied n) (n_commitIndex n)) ->
  apply_loop fuel n = Some (msgs, n') -> spath n n' /\ conf_fits (n_conf n').
Proof.
  revert n msgs n'. induction fuel as [|fuel IH]; intros n msgs n' Hok Hf Hc; [lia|]. pose proof Hok as [Hwf Hw].
  destruct (N.ltb_spec (n_lastApplied n) (n_commitIndex n)) as [Hlt|Hge].
  2:{ cbn [apply_loop]. rewrite (proj2 (N.ltb_ge _ _)) by done. intros [= <- <-]. split; [reflexivity|apply (Hc 0)]. }
  destruct (apply_turn n Hok Hlt) as (e & n1 & Ha & Hok2 & Hc2 & Eb & El). rewrite Eb in Hc. apply confs_fit_cons in Hc as [Hc1 Hc].
  rewrite El. destruct (apply_loop fuel _) as [[ms n2]|] eqn:E; [|done]. intros [= <- <-].
  assert (spath n n1 /\ n_conf n1 = conf_after (n_conf n) e) as [Hp Ec].
  { pose proof (Hc 0) as Hc0. revert Ha Hc0. unfold applies, conf_after. simpl.
    destruct (en_ConfChange e) as [cc|]; [|by intros ->]. destruct (_ =? _)%Z; [|by intros ->].
    intros [err Ha] Hcf. by eapply applyConfChange_path. }
  eapply IH in E; [|done|rewrite Hc2; simpl; lia|by simpl; rewrite Ec]. destruct E as [E ?]. split; [|done].
  etrans; [exact Hp|]. etrans; [|exact E]. by apply spath_same.
Qed.

(** ** Events *)

(** The integers of an event fit their widths and what it stores fits a record. *)
Definition ev_fits (n : Node) (ev : event) : Prop :=
  match ev with
  | EvTick _ => (n_term n + 1 < two64)%N
  | EvVote req => (rv_Term req < two64)%N /\ (rv_CandidateId req < two64)%N
  | EvVoteResp _ resp => (rvr_Term resp < two64)%N /\ entry_ok (own_entry n [] ENTRY_NORMAL None)
  | EvAppend req => (ae_Term req < two64)%N /\ Forall entry_ok (ae_Entries req)
  | EvAppendResp _ _ resp => (aer_Term resp < two64)%N
  | EvInstall req _ => (is_Term req < two64)%N /\ snap_fits req
  | EvSnapResp _ _ resp => (isr_Term resp < two64)%N
  | EvSent _ => True
  | EvRead req => (ri_Term req < two64)%N
  | EvReadResp _ resp => (rir_Term resp < two64)%N
  | EvPropose cmd => entry_ok (own_entry n cmd ENTRY_NORMAL None)
  | EvProposeConf cc => entry_ok (own_entry n [] ENTRY_CONF_CHANGE (Some cc))
  | EvApply => confs_fit (n_conf n) (entries_between (n_store n) (n_lastApplied n) (n_commitIndex n))
  | EvSnapshot _ _ _ => True
  end.

Record node_fits (n : Node) : Prop := {
  nf_id : (n_ID n < two64)%N;
  nf_term : (n_term n < two64)%N;
  nf_conf : conf_fits (n_conf n);
  nf_timer : timer_ok (n_cfg n)
}.

Lemma store_path_term s h s' : store_path s h s' -> (ds_term s < two64)%N -> (ds_term s' < two64)%N.
Proof.
  induction 1 as [|h1 s1 h2 s2 _ IH Hs]; [done|]. intros Hlt. specialize (IH Hlt).
  destruct Hs as [t v err s' _ Ht _ H|es err s' _ H|err s' H|c err s' _ H|index term data c ts err s' _ H].
  - by apply setHardState_mem in H as [w ->].
  - by apply appendEntries_mem in H as (l & w & d & -> & _).
  - by apply sync_mem in H as (w & d & -> & _).
  - by apply setConfState_mem in H as [w ->].
  - apply saveSnapshot_mem in H as (Et & _). congruence.
Qed.

Lemma npath_fits n n' : node_fits n -> npath n n' -> spath n n' /\ node_fits n'.
Proof.
  intros [Hi Ht Hc Hm] [Hs Ef]. split; [done|]. destruct Hs as [[h Hp] Ec]. split.
  - unfold n_ID in *. by rewrite Ec.
  - by eapply store_path_term.
  - by rewrite Ef.
  - by rewrite Ec.
Qed.

Lemma spath_fits n n' : node_fits n -> spath n n' -> conf_fits (n_conf n') -> node_fits n'.
Proof.
  intros [Hi Ht _ Hm] [[h Hp] Ec] Hc. split; [|by eapply store_path_term|done|by rewrite Ec]. unfold n_ID in *. by rewrite Ec.
Qed.

Lemma exec_path c ev n out n' :
  (ev = EvApply -> node_ok n) -> node_fits n -> ev_fits n ev -> exec Marshal c ev n = Some (out, n') ->
  spath n n' /\ (out <> OutFault -> node_fits n').
Proof.
  intros Hok Hn He. assert (Hp : npath n n' -> spath n n' /\ (out <> OutFault -> node_fits n')).
  { intros H. apply (npath_fits _ _ Hn) in H as [? ?]. by split. }
  pose proof Hn as [Hi Ht Hc].
  destruct ev as [k|req|t resp|req|peer req resp|req ts|peer req resp|peer|req|r resp|cmd|cc| |index data ts]; simpl in *;
    intros H; try (match type of H with ?m ≫= _ = _ => destruct m as [r1|] eqn:E; [|done] end; simpl in H);
    try (lazymatch type of r1 with Node => rename r1 into n1 | _ => destruct r1 as [o1 n1] end);
    try (injection H as <- <-).
  - apply Hp. by eapply run_step_path.
  - apply Hp. destruct He. by eapply HandleRequestVote_path, E.
  - apply Hp. destruct He as [Hr ?]. by eapply onVoteResponse_path, E.
  - apply Hp. destruct He. by eapply HandleAppendEntries_path, E.
  - apply Hp. by eapply onAppendResponse_path, E.
  - destruct o1 as [[resp m] u]. injection H as <- <-. destruct He as [Hr Hs].
    destruct (HandleInstallSnapshot_path c n req ts resp m u n1 Hr Hs Hc E) as [Hs' Hu]. split; [done|].
    intros Ho. eapply spath_fits; [done|done|]. apply Hu. by destruct u.
  - apply Hp. by eapply onSnapshotResponse_path, E.
  - apply Hp. by apply npath_same.
  - apply Hp. by eapply HandleReadIndex_path, E.
  - apply Hp. by eapply onReadResponse_path, E.
  - apply Hp. by eapply Propose_path, E.
  - apply Hp. by eapply ProposeConfChange_path, E.
  - apply apply_loop_path in E as [Hs Hcf]; [|by apply Hok|lia|done]. split; [done|]. intros _. by eapply spath_fits.
  - apply Hp. by eapply Snapshot_path, E.
Qed.

(** Runs of events that satisfy both guards. *)
Inductive fsteps : Node -> Node -> Prop :=
  | fsteps_refl n : fsteps n n
  | fsteps_step n n1 c ev out n2 :
      fsteps n n1 -> ev_ok n1 ev -> ev_fits n1 ev -> exec Marshal c ev n1 = Some (out, n2) -> out <> OutFault ->
      fsteps n n2.

Lemma fsteps_path n n' : node_ok n -> node_fits n -> fsteps n n' -> node_ok n' /\ node_fits n' /\ spath n n'.
Proof.
  intros Hok Hf. induction 1 as [|n n1 c ev out n2 _ IH Hev Hef He Hout]; [split_and!; [done|done|reflexivity]|].
  destruct (IH Hok Hf) as (Hok1 & Hf1 & Hp1). destruct (exec_path c ev n1 out n2 (fun _ => Hok1) Hf1 Hef He) as [Hp2 Hf2].
  destruct (exec_ok Marshal c ev n1 Hok1 Hev) as (out' & n' & E & Hn). rewrite E in He. injection He as -> ->.
  split; [by apply Hn|]. split; [by apply Hf2|by etrans].
Qed.

(** ** Votes *)

(** A granted vote is the last call on the storage, and it returned nil. *)
Lemma granted_path c n req resp n' :
  (rv_Term req < two64)%N -> (rv_CandidateId req < two64)%N -> (n_term n < two64)%N ->
  HandleRequestVote c n req = Some (resp, n') -> rvr_VoteGranted resp = true ->
  exists h, store_path (n_store n) (h ++ [(rv_Term req, rv_CandidateId req, true)]) (n_store n') /\
    hard (n_store n') = (rv_Term req, rv_CandidateId req).
Proof.
  intros Ht Hc Hn. unfold HandleRequestVote.
  destruct (if (n_term n <? rv_Term req)%N then _ else _) as [n1|] eqn:E1; [|done]. cbn [mbind option_bind].
  assert ((exists h, store_path (n_store n) h (n_store n1)) /\ (rv_Term req <= n_term n1)%N) as [[h H1] Hle].
  { destruct (N.ltb_spec (n_term n) (rv_Term req)) as [Hlt|]; [|injection E1 as <-; split; [exists []; constructor|done]].
    split; [apply (stepDown_path _ _ _ _ Ht E1)|]. revert E1. unfold stepDownLocked. rewrite (proj2 (N.ltb_lt _ _)) by done.
    destruct (setHardState _ _ _) as [[err s']|] eqn:E; [|done]. simpl. intros [d ->]%reset_deadline.
    apply setHardState_mem in E as [w ->]. unfold n_term. simpl. lia. }
  clear E1. destruct (N.ltb_spec (rv_Term req) (n_term n1)) as [|Hge]; [by intros [= <- <-]|]. destruct (negb _); [by intros [= <- <-]|].
  destruct (termAt _ _) as [[lt ok]|]; [|done]. cbn [mbind option_bind].
  destruct (_ && _) eqn:Ev; [|by intros [= <- <-]]. apply andb_true_iff in Ev as [Ev _].
  destruct (setHardState _ _ _) as [[err s']|] eqn:E; [|done]. cbn [mbind option_bind]. destruct err; [by intros [= <- <-]|].
  destruct (resetElectionTimerLocked _ _) as [n2|] eqn:Er; [|done]. apply reset_deadline in Er as [d ->]. intros [= <- <-] _.
  change (ds_term (n_store n1)) with (n_term n1) in E. replace (n_term n1) with (rv_Term req) in E by lia. exists h. split.
  - eapply path_step; [exact H1|]. apply (st_hard _ (rv_Term req) (rv_CandidateId req) None s'); [|done..]. right. simpl.
    split; [unfold n_term in *; lia|]. apply orb_true_iff in Ev as [Ev|Ev]; apply N.eqb_eq in Ev; [by left|by right].
  - simpl. by apply setHardState_mem in E as [w ->].
Qed.

(** A node whose hard state holds a vote in the request's term grants no other. *)
Lemma vote_kept c n req resp n' t v :
  hard_le (t, v) (hard (n_store n)) -> v <> 0%N -> rv_Term req = t ->
  HandleRequestVote c n req = Some (resp, n') -> rvr_VoteGranted resp = true -> rv_CandidateId req = v.
Proof.
  intros Hle Hv Ht. unfold HandleRequestVote. unfold hard_le, hard in Hle. simpl in Hle. change (ds_term (n_store n)) with (n_term n) in Hle.
  rewrite (proj2 (N.ltb_ge _ _)) by lia. cbn [mbind option_bind].
  destruct (N.ltb_spec (rv_Term req) (n_term n)) as [|Hge]; [by intros [= <- <-]|]. destruct (negb _); [by intros [= <- <-]|].
  destruct (termAt _ _) as [[lt ok]|]; [|done]. cbn [mbind option_bind].
  destruct (_ && _) eqn:Ev; [|by intros [= <- <-]]. apply andb_true_iff in Ev as [Ev _]. intros _ _.
  destruct Hle as [|[_ [|Hvf]]]; [lia|done|]. rewrite <-Hvf in Ev.
  apply orb_true_iff in Ev as [Ev|Ev]; apply N.eqb_eq in Ev; [done|by symmetry].
Qed.

(** A node over an empty directory, with the outcomes of its calls to come. *)
Definition fresh_node (c : clock) (cfg : Config) (ds ws : list outcome) : Node :=
  let n := mkNode (fill cfg) (fresh_store (cfg_Peers cfg) ds ws) (NewConfState (cfg_Peers cfg)) (cfg_Addrs cfg)
             follower 0 0 0 None 0 false ∅ in
  default n (resetElectionTimerLocked c n).

Lemma fresh_node_eq c cfg ds ws :
  exists d, fresh_node c cfg ds ws =
    mkNode (fill cfg) (fresh_store (cfg_Peers cfg) ds ws) (NewConfState (cfg_Peers cfg)) (cfg_Addrs cfg) follower 0 0 0 None d false ∅.
Proof.
  unfold fresh_node. destruct (resetElectionTimerLocked c _) as [n|] eqn:E; [apply reset_deadline in E as [d ->]|]; by eexists.
Qed.

(** It is what NewNode makes of such a directory. *)
Lemma NewNode_fresh c cfg ws :
  timer_ok (fill cfg) ->
  NewNode Unmarshal c cfg (mkSnapFiles None None None) (Some (mkFile [] [] (Done :: Done :: ws) false)) = Ok (fresh_node c cfg [] ws).
Proof.
  intros Ht. unfold fresh_node, NewNode.
  assert (openDiskStorage Unmarshal (mkSnapFiles None None None) (Some (mkFile [] [] (Done :: Done :: ws) false)) (cfg_Peers (fill cfg)) =
    Ok (fresh_store (cfg_Peers cfg) [] ws)) as -> by reflexivity.
  set (n0 := mkNode (fill cfg) _ _ _ _ _ _ _ _ _ _ _). change (match resetElectionTimerLocked c n0 with Some n => Ok n | None => Panic end =
    Ok (default n0 (resetElectionTimerLocked c n0))). by destruct (reset_some c n0 Ht) as [d ->].
Qed.

Lemma fresh_node_ok c cfg ds ws : node_fits (fresh_node c cfg ds ws) -> node_ok (fresh_node c cfg ds ws).
Proof.
  destruct (fresh_node_eq c cfg ds ws) as [d ->]. intros [_ _ (_ & _ & Hv & _) Hm]. split; [|by eexists]. by split; [split|..].
Qed.

(** One vote per term: once a node has granted its vote in a term, no later
    request of that term by another candidate is granted, whatever happens in
    between. *)
Theorem one_vote_per_term c n req resp n1 n2 c' req' resp' n3 :
  node_ok n -> node_fits n -> ev_fits n (EvVote req) -> rv_CandidateId req <> 0%N ->
  HandleRequestVote c n req = Some (resp, n1) -> rvr_VoteGranted resp = true ->
  fsteps n1 n2 ->
  HandleRequestVote c' n2 req' = Some (resp', n3) -> rvr_VoteGranted resp' = true -> rv_Term req' = rv_Term req ->
  rv_CandidateId req' = rv_CandidateId req.
Proof.
  intros Hok Hf Hef Hc H1 Hg Hs H3 Hg' Ht. pose proof Hef as [Hft Hfc].
  destruct (granted_path c n req resp n1 Hft Hfc (nf_term _ Hf) H1 Hg) as (h & _ & Eh).
  assert (exec Marshal c (EvVote req) n = Some (OutVote resp, n1)) as He by (simpl; by rewrite H1).
  destruct (exec_path _ _ _ _ _ (fun _ => Hok) Hf Hef He) as [_ Hf1]. specialize (Hf1 ltac:(done)).
  destruct (HandleRequestVote_ok c n req Hok) as (? & ? & E & Hok1). rewrite E in H1. injection H1 as -> ->.
  destruct (fsteps_path n1 n2 Hok1 Hf1 Hs) as (_ & _ & [[h2 Hp] _]). apply store_path_hard in Hp. rewrite Eh in Hp.
  by eapply vote_kept.
Qed.

(** C13. A vote survives a crash: a node runs from an empty directory, grants its
    vote, runs on (any event, any device failure outside snapshots) and crashes
    at any point, keeping any part of the bytes not fsynced. Then it restarts,
    and in the term of the vote it grants its vote to no other candidate. *)
Theorem vote_survives_crash c0 cfg ds ws n1 c req resp n2 n3 w k c4 :
  node_fits (fresh_node c0 cfg ds ws) -> fsteps (fresh_node c0 cfg ds ws) n1 ->
  ev_fits n1 (EvVote req) -> rv_CandidateId req <> 0%N ->
  HandleRequestVote c n1 req = Some (resp, n2) -> rvr_VoteGranted resp = true ->
  fsteps n2 n3 -> ds_wal (n_store n3) = Some w ->
  exists n4, NewNode Unmarshal c4 cfg (ds_files (n_store n3)) (Some (crash (wal_file w) k)) = Ok n4 /\
    forall c5 req' resp' n5,
      HandleRequestVote c5 n4 req' = Some (resp', n5) -> rvr_VoteGranted resp' = true -> rv_Term req' = rv_Term req ->
      rv_CandidateId req' = rv_CandidateId req.
Proof using Hproto.
  intros Hf0 Hs1 Hef Hc H2 Hg Hs3 Hw. pose proof Hef as [Hft Hfc].
  destruct (fsteps_path _ _ (fresh_node_ok _ _ _ _ Hf0) Hf0 Hs1) as (Hok1 & Hf1 & [[h1 Hp1] _]).
  destruct (granted_path c n1 req resp n2 Hft Hfc (nf_term _ Hf1) H2 Hg) as (h2 & Hp2 & Eh).
  assert (exec Marshal c (EvVote req) n1 = Some (OutVote resp, n2)) as He by (simpl; by rewrite H2).
  destruct (exec_path _ _ _ _ _ (fun _ => Hok1) Hf1 Hef He) as [_ Hf2]. specialize (Hf2 ltac:(done)).
  destruct (HandleRequestVote_ok c n1 req Hok1) as (? & ? & E & Hok2). rewrite E in H2. injection H2 as -> ->.
  destruct (fsteps_path n2 n3 Hok2 Hf2 Hs3) as (_ & _ & [[h3 Hp3] _]).
  pose proof (store_path_above _ _ _ Hp3) as Ha. rewrite Eh in Ha.
  assert (ds_hist Marshal Unmarshal (cfg_Peers cfg) (n_store n3) (h1 ++ (h2 ++ [(rv_Term req, rv_CandidateId req, true)]) ++ h3)) as Hh.
  { rewrite (assoc_L (++)). eapply ds_hist_path; [|exact Hp3]. eapply ds_hist_path; [|exact Hp2].
    rewrite <-(app_nil_l h1). destruct (fresh_node_eq c0 cfg ds ws) as [d Ed]. rewrite Ed in Hp1. eapply ds_hist_path; [|exact Hp1]. constructor. }
  destruct (hard_state_recovers Marshal Unmarshal Hproto _ _ _ w k Hh Hw) as (s' & Ho & Hm).
  rewrite <-(assoc_L (++)), (assoc_L (++)) in Hm. cbn [app] in Hm. apply maybe_above in Hm; [|exact Ha].
  unfold NewNode. change (cfg_Peers (fill cfg)) with (cfg_Peers cfg). rewrite Ho. cbn [rbind].
  assert (timer_ok (fill cfg)) as Htm by (destruct (fresh_node_eq c0 cfg ds ws) as [d Ed]; rewrite Ed in Hf0; apply Hf0).
  match goal with |- context [resetElectionTimerLocked c4 ?n] => destruct (reset_some c4 n Htm) as [d4 ->] end. eexists. split; [reflexivity|].
  intros c5 req' resp' n5 H5 Hg5 Ht5. refine (vote_kept _ _ _ _ _ _ _ _ Hc Ht5 H5 Hg5). exact Hm.
Qed.

End node.

(** ** Witnesses *)

Definition node_of {A} (n0 : Node) (r : option (A * Node)) : Node :=
  match r with Some (_, n) => n | None => n0 end.

(** A node of three that grants candidate 2 its vote in term 5, is asked by
    candidate 3, and whose device then fails while a later term is stored. *)
Definition voter0 : Node := fresh_node clock0 (sample_cfg 1) [] (replicate 6 Done ++ [FailAfter 5]).
Definition vote_req (t cand : N) : RequestVoteRequest := mkVoteReq t cand 0 0.
Definition voter1 : Node := node_of voter0 (HandleRequestVote clock0 voter0 (vote_req 5 2)).
Definition voter2 : Node := node_of voter1 (HandleRequestVote clock0 voter1 (vote_req 5 3)).
Definition voter3 : Node := node_of voter2 (HandleRequestVote clock0 voter2 (vote_req 9 3)).
Definition voter3_wal : WAL := default (mkWAL (Bufio.NewWriter empty_file) 0) (ds_wal (n_store voter3)).

Lemma voter0_fits : node_fits voter0.
Proof.
  split; [reflexivity|reflexivity| |reflexivity]. split_and!; [| |discriminate|reflexivity];
    (split; [|vm_compute; reflexivity]); apply (bool_decide_unpack _); vm_compute; exact I.
Qed.

Definition voter2' : Node := node_of voter2 (HandleRequestVote clock0 voter2 (vote_req 5 2)).

Lemma vote_fits n t cand : (t < two64)%N -> (cand < two64)%N -> ev_fits sample_Marshal n (EvVote (vote_req t cand)).
Proof. by split. Qed.

Lemma voter2_run : fsteps sample_Marshal voter1 voter2.
Proof.
  apply (fsteps_step _ _ voter1 clock0 (EvVote (vote_req 5 3)) (OutVote (mkVoteResp 5 false)));
    [constructor|done|by apply vote_fits|vm_compute; reflexivity|done].
Qed.

Lemma voter3_run : fsteps sample_Marshal voter1 voter3.
Proof.
  apply (fsteps_step _ _ voter2 clock0 (EvVote (vote_req 9 3)) (OutVote (mkVoteResp 9 false)));
    [apply voter2_run|done|by apply vote_fits|vm_compute; reflexivity|done].
Qed.

Lemma one_vote_per_term_witness :
  HandleRequestVote clock0 voter2 (vote_req 5 2) = Some (mkVoteResp 5 true, voter2') /\
  rv_CandidateId (vote_req 5 2) = rv_CandidateId (vote_req 5 2).
Proof.
  split; [vm_compute; reflexivity|].
  apply (one_vote_per_term sample_Marshal clock0 voter0 (vote_req 5 2) (mkVoteResp 5 true) voter1 voter2 clock0
    (vote_req 5 2) (mkVoteResp 5 true) voter2').
  - apply fresh_node_ok, voter0_fits.
  - apply voter0_fits.
  - by apply vote_fits.
  - done.
  - vm_compute; reflexivity.
  - done.
  - apply voter2_run.
  - vm_compute; reflexivity.
  - done.
  - done.
Defined.

Lemma vote_survives_crash_witness :
  exists n4, NewNode sample_Unmarshal clock0 (sample_cfg 1) (ds_files (n_store voter3)) (Some (crash (wal_file voter3_wal) 3)) = Ok n4 /\
    forall c5 req' resp' n5,
      HandleRequestVote c5 n4 req' = Some (resp', n5) -> rvr_VoteGranted resp' = true -> rv_Term req' = 5%N ->
      rv_CandidateId req' = 2%N.
Proof.
  apply (vote_survives_crash sample_Marshal sample_Unmarshal sample_roundtrip clock0 (sample_cfg 1) [] (replicate 6 Done ++ [FailAfter 5])
           voter0 clock0 (vote_req 5 2) (mkVoteResp 5 true) voter1 voter3 voter3_wal 3 clock0).
  - apply voter0_fits.
  - constructor.
  - by apply vote_fits.
  - done.
  - vm_compute; reflexivity.
  - done.
  - apply voter3_run.
  - vm_compute; reflexivity.
Defined.
