(* ===== verification/NodeRoles.v ===== *)
(** raft/node.go: what each critical section does to the node's role. Only a turn of
    run makes a candidate, and only an answered vote makes a leader; everything
    else keeps role, term and vote count or leaves a follower. *)

From S2P Require Import Prelude Bytes GoIO Wal Messages ConfState DiskStorage StorageCorrect StorageMem LogFacts Node NodeWf NodeSteps NodeVotes.

(** ** Keeping the role *)

Record keeps (n n' : Node) : Prop := {
  kp_role : n_role n' = n_role n;
  kp_term : n_term n' = n_term n;
  kp_votes : n_votes n' = n_votes n
}.

#[global] Instance keeps_preorder : PreOrder keeps.
Proof. split; [by split|]. intros n1 n2 n3 [] []. split; congruence. Qed.

Definition quiet (n n' : Node) : Prop := n_role n' = follower \/ keeps n n'.

Lemma quiet_keeps n n' : keeps n n' -> quiet n n'.
Proof. by right. Qed.

Lemma quiet_follower n n' : n_role n' = follower -> quiet n n'.
Proof. by left. Qed.

#[global] Instance quiet_refl : Reflexive quiet.
Proof. intros n. right. reflexivity. Qed.

Lemma quiet_then n n1 n2 : quiet n n1 -> keeps n1 n2 -> quiet n n2.
Proof. intros [Hf|Hk] [E1 E2 E3]; [left; congruence|right; by etrans; [exact Hk|]]. Qed.

Create HintDb roles discriminated.
#[export] Hint Resolve quiet_keeps quiet_follower : roles.

(** The calls on the storage that keep the term. *)
Lemma appendEntries_term Marshal s es err s' : appendEntries Marshal s es = Some (err, s') -> ds_term s' = ds_term s.
Proof. by intros (l & w & d & -> & _)%appendEntries_mem. Qed.

Lemma sync_term s err s' : sync s = Some (err, s') -> ds_term s' = ds_term s.
Proof. by intros (w & d & -> & _)%sync_mem. Qed.

Lemma setConfState_term s c err s' : setConfState s c = Some (err, s') -> ds_term s' = ds_term s.
Proof. by intros [w ->]%setConfState_mem. Qed.

Lemma keeps_store n s : ds_term s = n_term n -> keeps n (set_store n s).
Proof. by split. Qed.

Lemma stepDown_follower c n t n' : stepDownLocked c n t = Some n' -> n_role n' = follower.
Proof. unfold stepDownLocked. intros E. peel E. by rewind E. Qed.

(** ** Sending *)

Definition no_votes (out : list rpc) : Prop := Forall (fun r => match r with RpcVote _ _ => False | _ => True end) out.

Lemma keeps_idle n : keeps n n /\ no_votes [].
Proof. split; [reflexivity|constructor]. Qed.

Lemma sendAppend_keeps now n peer out n' : sendAppendLocked now n peer = Some (out, n') -> keeps n n' /\ no_votes out.
Proof.
  unfold sendAppendLocked, no_votes. intros E. destruct (_ && _); [by injection E as <- <-|]. destruct (n_progress n) as [p|]; [|done]. cbn [mbind option_bind] in E.
  destruct (_ <? _)%N; [case_decide; injection E as <- <-; split; [done|by repeat constructor|done|by repeat constructor]|].
  peel E. destruct r as [t ok]. destruct (negb ok); [by injection E as <- <-|].
  peel E. case_decide; injection E as <- <-; split; [done|by repeat constructor|done|by repeat constructor].
Qed.

Lemma send_all_keeps now peers n out n' : send_all now n peers = Some (out, n') -> keeps n n' /\ no_votes out.
Proof.
  revert n out n'. induction peers as [|p peers IH]; intros n out n' E; cbn [send_all] in E; [injection E as <- <-; apply keeps_idle|].
  destruct (_ =? _)%N; [by apply IH|]. peel E. destruct r as [o1 n1]. peel E. destruct r as [o2 n2]. injection E as <- <-.
  apply sendAppend_keeps in Em as [Hk1 Ho1]. apply IH in Em0 as [Hk2 Ho2]. split; [by etrans|]. by apply Forall_app.
Qed.

Lemma broadcast_keeps now n out n' : broadcastAppendLocked now n = Some (out, n') -> keeps n n' /\ no_votes out.
Proof.
  unfold broadcastAppendLocked. intros E. peel E. destruct r as [err s]. apply sync_term in Em.
  pose proof (keeps_store n s Em) as Hk. destruct err; [injection E as <- <-; split; [done|constructor]|].
  apply send_all_keeps in E as [Hk2 Ho]. split; [by etrans|done].
Qed.

Lemma advanceCommit_keeps n n' : advanceCommitLocked n = Some n' -> keeps n n'.
Proof.
  unfold advanceCommitLocked. intros E. destruct (_ <=? _)%N; [by injection E as <-|]. peel E. destruct r as [err s]. apply sync_term in Em.
  pose proof (keeps_store n s Em) as Hk. destruct err; [by injection E as <-|]. peel E. destruct r as [t ok].
  destruct (_ || _); by injection E as <-.
Qed.

Lemma appendEntryLocked_keeps Marshal n e r n' : appendEntryLocked Marshal n e = Some (r, n') -> keeps n n'.
Proof.
  unfold appendEntryLocked. intros E. peel E. destruct r0 as [err s]. apply appendEntries_term in Em.
  pose proof (keeps_store n s Em) as Hk. destruct err; [by injection E as <- <-|]. peel E. by injection E as <- <-.
Qed.

(** ** Elections *)

Lemma becomeLeader_roles Marshal now n out n' :
  n_role n = candidate -> becomeLeaderLocked Marshal now n = Some (out, n') ->
  n_role n' = leader /\ n_term n' = n_term n /\ no_votes out.
Proof.
  intros Hr. unfold becomeLeaderLocked. rewrite decide_False by congruence. intros E. peel E. destruct r as [err s]. apply appendEntries_term in Em.
  apply broadcast_keeps in E as [[E1 E2 _] Ho]. rewrite E1, E2. split_and!; [by destruct err| |done].
  unfold n_term. destruct err; simpl; by rewrite Em.
Qed.

(** What becomes of an answered vote. *)
Inductive vote_counted (n : Node) (t : N) (resp : RequestVoteResponse) (n' : Node) : Prop :=
  | vc_quiet : quiet n n' -> vote_counted n t resp n'
  | vc_count votes :
      n_role n = candidate -> n_term n = t -> rvr_VoteGranted resp = true ->
      votes = S (default 1 (n_votes n !! t)) -> n_term n' = t ->
      (n_role n' = candidate /\ n_votes n' !! t = Some votes \/ n_role n' = leader /\ HasVoteQuorum (n_conf n) votes = true) ->
      vote_counted n t resp n'.

Lemma onVoteResponse_roles Marshal c n t resp out n' :
  onVoteResponse Marshal c n t resp = Some (out, n') -> vote_counted n t resp n' /\ no_votes out.
Proof.
  unfold onVoteResponse. intros E. destruct (_ <? _)%N.
  { peel E. injection E as <- <-. apply stepDown_follower in Em. split; [by apply vc_quiet, quiet_follower|constructor]. }
  destruct (bool_decide (n_role n = candidate)) eqn:Er; [|by injection E as <- <-; split; [apply vc_quiet|constructor]].
  apply bool_decide_eq_true in Er. destruct (N.eqb_spec (n_term n) t) as [Et|]; [|by injection E as <- <-; split; [apply vc_quiet|constructor]].
  destruct (rvr_VoteGranted resp) eqn:Eg; [|by injection E as <- <-; split; [apply vc_quiet|constructor]]. cbn [negb orb] in E.
  destruct (HasVoteQuorum _ _) eqn:Eq.
  - apply becomeLeader_roles in E as (E1 & E2 & Ho); [|done]. split; [|done]. eapply vc_count; [done|done|done|done| |right; by split].
    by rewrite E2.
  - injection E as <- <-. split; [|constructor]. eapply vc_count; [done|done|done|done|done|left]. split; [done|]. simpl. by rewrite lookup_insert_eq.
Qed.

(** What a turn of run starts: nothing, an election whose vote could not be stored,
    or one that asks every other peer. *)
Inductive run_started (n : Node) (out : list rpc) (n' : Node) : Prop :=
  | rs_quiet : keeps n n' -> no_votes out -> run_started n out n'
  | rs_failed :
      n_role n' = candidate -> n_term n' = (n_term n + 1)%N -> out = [] -> run_started n out n'
  | rs_asked req :
      rv_Term req = (n_term n + 1)%N -> rv_CandidateId req = n_ID n -> n_ID n ∈ Voters (n_conf n) ->
      out = (fun p => RpcVote p req) <$> filter (fun p => p <> n_ID n) (peerIDsLocked n) ->
      n_role n' = candidate -> n_term n' = rv_Term req -> n_votes n' !! rv_Term req = Some 1 ->
      setHardState (n_store n) (rv_Term req) (n_ID n) = Some (None, n_store n') ->
      run_started n out n'.

Lemma startElection_roles c n out n' :
  (n_term n + 1 < two64)%N -> startElectionLocked c n = Some (out, n') -> run_started n out n'.
Proof.
  intros Hlt. unfold startElectionLocked. intros E. destruct (Contains _ _) eqn:Ec; [|by cbn [negb] in E; rewind E; injection E as <- <-; apply rs_quiet; [|constructor]].
  apply bool_decide_eq_true in Ec. cbn [negb] in E. destruct (_ && _); [by rewind E; injection E as <- <-; apply rs_quiet; [|constructor]|].
  change (n_term (set_role n candidate)) with (n_term n) in E. rewrite add64_small in E by done. peel E. destruct r as [err s].
  pose proof Em as [w Es]%setHardState_mem.
  destruct err; [injection E as <- <-; apply rs_failed; [done|unfold n_term; simpl; by rewrite Es|done]|].
  rewind E. peel E. destruct r as [lastTerm ok]. injection E as <- <-.
  apply (rs_asked _ _ _ (mkVoteReq (n_term n + 1) (n_ID n) (lastIndex s) lastTerm)); cbn [rv_Term rv_CandidateId];
    [reflexivity|reflexivity|exact Ec|reflexivity|reflexivity|unfold n_term; simpl; by rewrite Es|simpl; by rewrite lookup_insert_eq|exact Em].
Qed.

Lemma run_step_roles c k n out n' :
  (n_term n + 1 < two64)%N -> run_step c k n = Some (out, n') -> run_started n out n'.
Proof.
  intros Hlt. unfold run_step. set (n1 := if k then _ else n). assert (keeps n n1 /\ n_store n1 = n_store n /\ n_cfg n1 = n_cfg n /\ n_conf n1 = n_conf n)
    as (Hk & Es & Ec & Ef) by (subst n1; by destruct k).
  assert (run_started n1 out n' -> run_started n out n') as Hn.
  { destruct 1 as [Hk1 Ho|Er Et Eo|req Et Ei Hv Eo Er Et' Ev Eh].
    - apply rs_quiet; [by etrans|done].
    - apply rs_failed; [done| |done]. by rewrite Et, (kp_term _ _ Hk).
    - rewrite (kp_term _ _ Hk) in Et. unfold n_ID, peerIDsLocked in *. rewrite Ec, ?Ef, ?Es in *. by eapply rs_asked. }
  rewrite <-(kp_term _ _ Hk) in Hlt. intros E. apply Hn. clearbody n1. clear -Hlt E.
  destruct (n_role n1) eqn:Er.
  - destruct (_ <? _)%Z; [by eapply startElection_roles|]. injection E as <- <-. by apply rs_quiet; [|constructor].
  - destruct (_ <? _)%Z; [by eapply startElection_roles|]. injection E as <- <-. by apply rs_quiet; [|constructor].
  - apply broadcast_keeps in E as [Hk Ho]. by apply rs_quiet.
Qed.

(** ** Handlers and the rest *)

Lemma follow_leader_quiet c n t id n' : follow_leader c n t id = Some n' -> n_role n' = follower.
Proof.
  unfold follow_leader. intros E. peel E. rewind E. simpl.
  destruct (_ || _) eqn:Eo; [by eapply stepDown_follower|]. injection Em as <-.
  apply orb_false_iff in Eo as [_ Eo%negb_false_iff%bool_decide_eq_true]. exact Eo.
Qed.

Lemma HandleRequestVote_quiet c n req resp n' : HandleRequestVote c n req = Some (resp, n') -> quiet n n'.
Proof.
  unfold HandleRequestVote. intros E. peel E. rename r into n1.
  assert (quiet n n1) as Hq.
  { destruct (_ <? _)%N; [apply quiet_follower; by eapply stepDown_follower|by injection Em as <-]. }
  clear Em.
  destruct (_ <? _)%N; [by injection E as <- <-|]. destruct (negb _); [by injection E as <- <-|]. peel E. destruct r as [lt ok].
  destruct (_ && _); [|by injection E as <- <-]. peel E. destruct r as [err s].
  assert (keeps n1 (set_store n1 s)) as Hk. { apply keeps_store. apply setHardState_mem in Em0 as [w ->]. reflexivity. }
  pose proof (quiet_then _ _ _ Hq Hk) as Hq'. destruct err; [by injection E as <- <-|]. rewind E. injection E as <- <-.
  apply (quiet_then _ _ _ Hq'). by split.
Qed.

Lemma HandleAppendEntries_quiet Marshal c n req resp n' : HandleAppendEntries Marshal c n req = Some (resp, n') -> quiet n n'.
Proof.
  unfold HandleAppendEntries. intros E. destruct (_ <? _)%N; [by injection E as <- <-|]. peel E. rename r into n1. apply follow_leader_quiet in Em.
  peel E. destruct r as [r|]; [injection E as <- <-; by left|]. peel E. peel E. destruct r0 as [err n2].
  assert (n_role n2 = follower) as Hr.
  { revert Em2. unfold store_entries. destruct r; [by intros [= <- <-]|]. intros E2. peel E2. destruct r0 as [[er|] s1]; [by injection E2 as <- <-|].
    peel E2. destruct r0. by injection E2 as <- <-. }
  left. destruct err; injection E as <- <-; [done|]. unfold follow_commit. by destruct (_ <? _)%N.
Qed.

Lemma HandleInstallSnapshot_quiet Marshal c n req ts resp msg u n' :
  HandleInstallSnapshot Marshal c n req ts = Some (resp, msg, u, n') -> quiet n n'.
Proof.
  unfold HandleInstallSnapshot. intros E. destruct (_ <? _)%N; [by injection E as <- <- <- <-|]. peel E. rename r into n1. apply follow_leader_quiet in Em.
  destruct (_ <=? _)%N; [injection E as <- <- <- <-; by left|]. peel E. destruct r as [err s].
  destruct err; injection E as <- <- <- <-; by left.
Qed.

Lemma HandleReadIndex_quiet c n req resp n' : HandleReadIndex c n req = Some (resp, n') -> quiet n n'.
Proof.
  unfold HandleReadIndex. intros E. destruct (_ <? _)%N; [by injection E as <- <-|]. peel E. rename r into n1.
  assert (quiet n n1) as Hq.
  { destruct (_ <? _)%N; [apply quiet_follower; by eapply stepDown_follower|by injection Em as <-]. }
  clear Em.
  destruct (_ || _); [by injection E as <- <-|]. rewind E. injection E as <- <-. apply (quiet_then _ _ _ Hq). by split.
Qed.

Lemma onReadResponse_quiet c n r resp r' n' : onReadResponse c n r resp = Some (r', n') -> quiet n n'.
Proof.
  unfold onReadResponse. intros E. destruct (_ <? _)%N.
  - peel E. injection E as <- <-. apply quiet_follower. by eapply stepDown_follower.
  - destruct (_ || _); [by injection E as <- <-|]. by destruct (rir_Ack resp); injection E as <- <-.
Qed.

Lemma onAppendResponse_quiet c n peer req resp n' : onAppendResponse c n peer req resp = Some n' -> quiet n n'.
Proof.
  unfold onAppendResponse. intros E. destruct (_ <? _)%N; [apply quiet_follower; by eapply stepDown_follower|].
  destruct (_ || _); [by injection E as <-|]. peel E. destruct (aer_Success resp).
  - apply advanceCommit_keeps in E. right. etrans; [|exact E]. by split.
  - peel E. injection E as <-. right. by split.
Qed.

Lemma onSnapshotResponse_quiet c n peer req resp n' : onSnapshotResponse c n peer req resp = Some n' -> quiet n n'.
Proof.
  unfold onSnapshotResponse. intros E. destruct (_ <? _)%N; [apply quiet_follower; by eapply stepDown_follower|].
  destruct (_ || _); [by injection E as <-|]. peel E. injection E as <-. right. by split.
Qed.

Lemma Propose_keeps Marshal n cmd r n' : Propose Marshal n cmd = Some (r, n') -> keeps n n'.
Proof. unfold Propose. case_decide; [apply appendEntryLocked_keeps|by intros [= <- <-]]. Qed.

Lemma Snapshot_keeps Marshal n index data ts err n' : Snapshot Marshal n index data ts = Some (err, n') -> keeps n n'.
Proof.
  unfold Snapshot. intros E. destruct (_ <? _)%N; [by injection E as <- <-|]. peel E. destruct r as [t ok]. destruct (negb ok); [by injection E as <- <-|].
  peel E. destruct r as [er s]. injection E as <- <-. apply keeps_store. by apply saveSnapshot_mem in Em0 as (? & _).
Qed.

(** Without membership changes in the log, applying moves lastApplied only. *)
Definition no_conf (e : Entry) : Prop := en_ConfChange e = None \/ en_Type e <> ENTRY_CONF_CHANGE.

Lemma apply_loop_only fuel n msgs n' :
  Forall no_conf (ds_log (n_store n)) -> apply_loop fuel n = Some (msgs, n') -> exists i, n' = set_lastApplied n i.
Proof.
  revert n msgs n'. induction fuel as [|fuel IH]; intros n msgs n' Hl E; cbn [apply_loop] in E.
  { injection E as <- <-. exists (n_lastApplied n). by destruct n. }
  destruct (_ <? _)%N; [|injection E as <- <-; exists (n_lastApplied n); by destruct n]. destruct (_ <? _)%N.
  { destruct (IH (set_lastApplied n _) _ _ Hl E) as [i ->]. by exists i. }
  peel E. rename r into e. assert (no_conf e) as Hn.
  { unfold entryAt, slot in Em. destruct (_ <? _)%N; [done|]. eapply Forall_lookup_1; [exact Hl|exact Em]. }
  peel E. destruct r as [msg n1]. peel E. destruct r as [ms n2]. injection E as <- <-.
  assert (n1 = n) as ->.
  { destruct (en_ConfChange e) as [cc|] eqn:Ecc; [|by injection Em0 as <- <-]. destruct Hn as [|Hn]; [congruence|].
    rewrite (proj2 (Z.eqb_neq _ _) Hn) in Em0. by injection Em0 as <- <-. }
  destruct (IH (set_lastApplied n _) _ _ Hl Em1) as [i ->]. by exists i.
Qed.

Lemma apply_loop_quiet fuel n msgs n' :
  Forall no_conf (ds_log (n_store n)) -> apply_loop fuel n = Some (msgs, n') -> keeps n n' /\ same_core n n'.
Proof. intros Hl [i ->]%apply_loop_only; [|done]. by split; split. Qed.

(** ** All the other events *)

Definition ordinary (n : Node) (ev : event) : Prop :=
  match ev with
  | EvTick _ | EvVote _ | EvVoteResp _ _ | EvProposeConf _ => False
  | EvApply => Forall no_conf (ds_log (n_store n))
  | _ => True
  end.

Definition out_rpcs (out : output) : list rpc := match out with OutRpcs l => l | _ => [] end.

Lemma exec_quiet Marshal c ev n out n' :
  ordinary n ev -> exec Marshal c ev n = Some (out, n') -> quiet n n' /\ out_rpcs out = [].
Proof.
  intros Ho H.
  destruct ev as [k|req|t resp|req|peer req resp|req ts|peer req resp|peer|req|r resp|cmd|cc| |index data ts]; cbn [ordinary exec] in *; try done.
  - peel H. destruct r as [resp n1]. injection H as <- <-. split; [by eapply HandleAppendEntries_quiet|done].
  - peel H. injection H as <- <-. split; [by eapply onAppendResponse_quiet|done].
  - peel H. destruct r as [[[resp m] u] n1]. injection H as <- <-. split; [by eapply HandleInstallSnapshot_quiet|by destruct u].
  - peel H. injection H as <- <-. split; [by eapply onSnapshotResponse_quiet|done].
  - injection H as <- <-. split; [right; by split|done].
  - peel H. destruct r as [resp n1]. injection H as <- <-. split; [by eapply HandleReadIndex_quiet|done].
  - peel H. destruct r0 as [r1 n1]. injection H as <- <-. split; [by eapply onReadResponse_quiet|done].
  - peel H. destruct r as [r1 n1]. injection H as <- <-. split; [right; by eapply Propose_keeps|done].
  - peel H. destruct r as [ms n1]. injection H as <- <-. split; [right; by eapply apply_loop_quiet|done].
  - peel H. destruct r as [err n1]. injection H as <- <-. split; [right; by eapply Snapshot_keeps|by destruct err].
Qed.

(** They are paths of the storage too, without the node's invariant. *)
Lemma exec_ordinary_path Marshal c ev n out n' :
  ordinary n ev -> node_fits n -> ev_fits Marshal n ev -> exec Marshal c ev n = Some (out, n') ->
  spath Marshal n n' /\ (out <> OutFault -> node_fits n').
Proof.
  intros Ho Hf He H. assert (ev = EvApply \/ ev <> EvApply) as [->|Hne] by (destruct ev; (by left) || by right).
  - cbn [exec] in H. peel H. destruct r as [ms n1]. injection H as <- <-. apply apply_loop_quiet in Em as [_ Hc]; [|done].
    apply (npath_core Marshal) in Hc. apply (npath_fits _ _ _ Hf) in Hc as [? ?]. by split.
  - eapply exec_path; [|done|exact He|exact H]. by intros ->.
Qed.
