(* ===== verification/NodeLog.v ===== *)
(** raft/node.go: what the handlers do to the log: replication on a follower,
    the conflict hint, the leader's commit rule, applying, and snapshots. *)

From S2P Require Import Prelude Bytes GoIO Wal Messages ConfState DiskStorage StorageCorrect StorageMem LogFacts Node NodeWf NodeSteps.

(** ** Entries by index *)

Lemma entry_of_ext s s' i : ds_snapIndex s' = ds_snapIndex s -> ds_log s' = ds_log s -> entry_of s' i = entry_of s i.
Proof. intros E1 E2. unfold entry_of. by rewrite E1, E2. Qed.

Lemma term_of_ext s s' i : same_log s s' -> term_of s' i = term_of s i.
Proof. intros [E1 E2 E3]. unfold term_of. by rewrite E1, E2, E3. Qed.

Lemma contiguous_elem first es e : contiguous first es -> e ∈ es -> (first <= en_Index e < first + len es)%N.
Proof.
  intros H [i Hi]%list_elem_of_lookup. pose proof (lookup_lt_Some _ _ _ Hi). rewrite (H i e Hi). unfold len. lia.
Qed.

Section node.
Context (Marshal : Entry -> bytes).

(** ** AppendEntries on a follower *)

Lemma store_entries_synced n e0 new n' :
  store_entries Marshal n (e0 :: new) = Some (None, n') -> ds_dirty (n_store n') = false.
Proof.
  unfold store_entries. destruct (appendEntries _ _ _) as [[[er|] s1]|]; [done| |done]. cbn [mbind option_bind].
  unfold sync. destruct (negb (ds_dirty s1)) eqn:Ed; [by intros [= <-]; apply negb_true_iff in Ed|].
  destruct (ds_wal s1) as [w|]; [|done]. simpl. destruct (Sync w) as [[er|] w']; [done|]. by intros [= <-].
Qed.

(** What an accepted request consists of: entries the log has already, then
    entries that replace its tail. *)
Record accepted (n : Node) (req : AppendEntriesRequest) (n' : Node) (old new : list Entry) : Prop := {
  ac_split : ae_Entries req = old ++ new;
  ac_prev : (ae_PrevLogIndex req < ds_snapIndex (n_store n))%N \/
            term_of (n_store n) (ae_PrevLogIndex req) = Some (ae_PrevLogTerm req);
  ac_old : forall e, e ∈ old -> (en_Index e <= ds_snapIndex (n_store n))%N \/
             term_of (n_store n) (en_Index e) = Some (en_Term e);
  ac_new : forall e0 new', new = e0 :: new' ->
             (ds_snapIndex (n_store n) < en_Index e0 <= log_end (n_store n))%N /\
             term_of (n_store n) (en_Index e0) <> Some (en_Term e0);
  ac_snap : ds_snapIndex (n_store n') = ds_snapIndex (n_store n) /\ ds_snapTerm (n_store n') = ds_snapTerm (n_store n);
  ac_log : ds_log (n_store n') = overwrite (n_store n) new;
  ac_dirty : new = [] \/ ds_dirty (n_store n') = false;
  ac_commit : n_commitIndex n' = N.max (n_commitIndex n)
                (N.min (ae_LeaderCommit req) (ae_PrevLogIndex req + len (ae_Entries req)))
}.

Lemma check_prev_term s req :
  log_wf s -> check_prev s req = Some None ->
  (ae_PrevLogIndex req < ds_snapIndex s)%N \/ term_of s (ae_PrevLogIndex req) = Some (ae_PrevLogTerm req).
Proof.
  intros Hwf. unfold check_prev. destruct (_ <? _)%N; [done|]. rewrite firstIndex_wf by done.
  destruct (_ || _) eqn:Eb.
  - rewrite termAt_wf by done. cbn [mbind option_bind]. destruct (term_of s _) as [t|]; [|done]. cbn [andb negb].
    destruct (N.eqb_spec t (ae_PrevLogTerm req)) as [->|]; cbn [negb]; [by right|]. by destruct (conflict_start _ _ _ _).
  - intros _. apply orb_false_iff in Eb as [Eb1 Eb2]. apply N.leb_gt in Eb1. apply N.eqb_neq in Eb2. left. lia.
Qed.

Lemma check_prev_rejects s req r : check_prev s req = Some (Some r) -> aer_Success r = false.
Proof.
  unfold check_prev. destruct (_ <? _)%N; [by intros [= <-]|]. destruct (_ || _); [|done].
  destruct (termAt _ _) as [[t ok]|]; [|done]. cbn [mbind option_bind]. destruct (_ && _).
  - destruct (conflict_start _ _ _ _); [|done]. by intros [= <-].
  - destruct (negb ok); [by intros [= <-]|done].
Qed.

Lemma append_accepted c n req resp n' :
  node_ok n -> append_ok n req -> HandleAppendEntries Marshal c n req = Some (resp, n') -> aer_Success resp = true ->
  exists old new, accepted n req n' old new.
Proof.
  intros Hok Hao. unfold HandleAppendEntries. destruct (ae_Term req <? n_term n)%N; [by intros [= <- <-]|].
  destruct (follow_leader_ok c n (ae_Term req) (ae_LeaderId req) Hok) as (n1 & -> & Hok1 & Hf). cbn [mbind option_bind].
  pose proof Hok1 as [Hwf1 Hw1]. destruct (check_prev_some (n_store n1) req (nw_log _ Hwf1)) as [r Hr]. rewrite Hr. cbn [mbind option_bind].
  destruct r as [r|].
  { intros [= <- <-]. by rewrite (check_prev_rejects _ _ _ Hr). }
  pose proof (check_prev_term _ _ (nw_log _ Hwf1) Hr) as Hpt. apply check_prev_accept in Hr; [|apply Hwf1].
  destruct (toAppend_spec (n_store n1) (ae_Entries req) (ae_PrevLogIndex req + 1)) as (old & new & -> & Hes & Hold & Hnew);
    [apply Hwf1|apply Hao|unfold log_end in *; lia|]. cbn [mbind option_bind].
  destruct (store_entries_ok Marshal n1 new Hok1) as (err & n2 & E & Hok2 & Hc2 & Hi2 & Ht2 & _ & Hlog);
    [by eapply (append_new_ok n)|]. rewrite E. cbn [mbind option_bind].
  destruct err as [er|]; [by intros [= <- <-]|]. intros [= <- <-] _. exists old, new.
  destruct Hf as [Hs Ec _ _ _]. pose proof Hs as [E1 E2 E3]. pose proof (fun i => term_of_ext _ _ i Hs) as Ht.
  assert (n_store (follow_commit n2 req) = n_store n2) as Est by (unfold follow_commit; by destruct (_ <? _)%N).
  split.
  - done.
  - by rewrite <-E1, <-Ht.
  - intros e He. rewrite <-E1, <-Ht. by apply Hold.
  - intros e0 new' ->. rewrite <-E1, <-(same_log_end _ _ Hs), <-Ht. destruct (Hnew e0 new' eq_refl) as [Hin Hd]. split; [done|].
    destruct Hd as [Hd|Hd]; [|done]. by rewrite term_of_None by lia.
  - rewrite Est. split; congruence.
  - rewrite Est, Hlog by done. unfold overwrite, pos. destruct new; congruence.
  - rewrite Est. destruct new as [|e0 new]; [by left|right]. by eapply store_entries_synced.
  - unfold follow_commit. pose proof (ao_bound _ _ Hao). rewrite Hc2, Ec.
    destruct (N.ltb_spec (n_commitIndex n) (ae_LeaderCommit req)); simpl; [|lia].
    rewrite add64_small by lia. lia.
Qed.

(** The log behind an accepted request, index by index. *)
Lemma accepted_entry n req n' old new i :
  node_ok n -> accepted n req n' old new ->
  entry_of (n_store n') i =
    match new with
    | [] => entry_of (n_store n) i
    | e0 :: _ => if (i <? en_Index e0)%N then entry_of (n_store n) i else new !! N.to_nat (i - en_Index e0)
    end.
Proof.
  intros [Hwf _] [_ _ _ Hn [E1 _] El _ _]. destruct new as [|e0 new]; [by apply entry_of_ext|].
  destruct (Hn e0 new eq_refl) as [Hin _]. rewrite <-(entry_of_append (n_store n) e0 (e0 :: new) i) by (done || apply Hwf).
  by apply entry_of_ext.
Qed.

Lemma accepted_has n req n' old new e :
  node_ok n -> append_ok n req -> accepted n req n' old new -> e ∈ ae_Entries req ->
  (ds_snapIndex (n_store n) < en_Index e)%N -> term_of (n_store n') (en_Index e) = Some (en_Term e).
Proof.
  intros Hok Hao Ha He Hgt. rewrite term_of_entry by (by rewrite (proj1 (ac_snap _ _ _ _ _ Ha))).
  rewrite (accepted_entry _ _ _ _ _ _ Hok Ha). pose proof (ao_entries _ _ Hao) as Hc. rewrite (ac_split _ _ _ _ _ Ha) in He, Hc.
  apply contiguous_app in Hc as [Hco Hcn].
  assert (e ∈ old -> en_Term <$> entry_of (n_store n) (en_Index e) = Some (en_Term e)) as Hold.
  { intros Heo. rewrite <-term_of_entry by done. destruct (ac_old _ _ _ _ _ Ha e Heo); [lia|done]. }
  apply elem_of_app in He as [He|He].
  - destruct new as [|e0 new]; [by apply Hold|]. pose proof (contiguous_elem _ _ _ Hco He).
    pose proof (Hcn 0 e0 eq_refl). rewrite (proj2 (N.ltb_lt _ _)) by lia. by apply Hold.
  - destruct new as [|e0 new]; [by apply not_elem_of_nil in He|]. apply list_elem_of_lookup in He as [j Hj].
    pose proof (Hcn 0 e0 eq_refl). rewrite (Hcn j e Hj). rewrite (proj2 (N.ltb_ge _ _)) by lia.
    replace (N.to_nat _) with j by lia. by rewrite Hj.
Qed.

(** C14. A successful AppendEntries leaves the follower's log equal to the leader's
    over the range of the request: the previous entry matched, every entry of
    the request (above the snapshot) is in the log with its term, a prefix that
    matched the request is untouched, committed entries do not change, what was
    written is fsynced, and the commit index follows the leader's up to the last
    entry of the request and never goes back. *)
Theorem append_entries_success c n req resp n' :
  node_ok n -> append_ok n req -> HandleAppendEntries Marshal c n req = Some (resp, n') -> aer_Success resp = true ->
  ((ae_PrevLogIndex req < ds_snapIndex (n_store n))%N \/
   term_of (n_store n) (ae_PrevLogIndex req) = Some (ae_PrevLogTerm req)) /\
  (forall e, e ∈ ae_Entries req -> (ds_snapIndex (n_store n) < en_Index e)%N ->
     term_of (n_store n') (en_Index e) = Some (en_Term e)) /\
  (forall i, (forall e, e ∈ ae_Entries req -> (ds_snapIndex (n_store n) < en_Index e <= i)%N ->
                term_of (n_store n) (en_Index e) = Some (en_Term e)) ->
     entry_of (n_store n') i = entry_of (n_store n) i) /\
  (forall i, (i <= n_commitIndex n)%N -> entry_of (n_store n') i = entry_of (n_store n) i) /\
  (ds_log (n_store n') = ds_log (n_store n) \/ ds_dirty (n_store n') = false) /\
  n_commitIndex n' = N.max (n_commitIndex n) (N.min (ae_LeaderCommit req) (ae_PrevLogIndex req + len (ae_Entries req))).
Proof.
  intros Hok Hao H Hs. destruct (append_accepted _ _ _ _ _ Hok Hao H Hs) as (old & new & Ha).
  assert (forall i, (forall e, e ∈ ae_Entries req -> (ds_snapIndex (n_store n) < en_Index e <= i)%N ->
                term_of (n_store n) (en_Index e) = Some (en_Term e)) ->
     entry_of (n_store n') i = entry_of (n_store n) i) as Hkeep.
  { intros i Hi. rewrite (accepted_entry _ _ _ _ _ i Hok Ha). destruct new as [|e0 new]; [done|].
    destruct (ac_new _ _ _ _ _ Ha e0 new eq_refl) as [Hin Hd]. rewrite (proj2 (N.ltb_lt _ _)); [done|].
    destruct (N.lt_ge_cases i (en_Index e0)) as [|Hge]; [done|]. exfalso. apply Hd, Hi; [|lia].
    rewrite (ac_split _ _ _ _ _ Ha). apply elem_of_app. right. by left. }
  split_and!.
  - apply (ac_prev _ _ _ _ _ Ha).
  - intros e He Hgt. eapply accepted_has; [exact Hok|exact Hao|exact Ha|done|done].
  - done.
  - intros i Hi. apply Hkeep. intros e He Hle. apply (ao_commit _ _ Hao); [done|lia].
  - destruct (ac_dirty _ _ _ _ _ Ha) as [Hn|]; [|by right]. left. rewrite (ac_log _ _ _ _ _ Ha), Hn. done.
  - apply (ac_commit _ _ _ _ _ Ha).
Qed.

(** ** The conflict hint *)

(** [r] is where the run of term [t] that ends at [i] starts. *)
Definition run_start (s : diskStorage) (t i r : N) : Prop :=
  (r <= i)%N /\ (forall j, (r <= j <= i)%N -> term_of s j = Some t) /\
  ((r <= ds_snapIndex s + 1)%N \/ term_of s (r - 1) <> Some t).

Lemma conflict_start_spec s fuel ci t :
  log_wf s -> term_of s ci = Some t -> N.to_nat (ci - (ds_snapIndex s + 1)) < fuel ->
  exists r, conflict_start fuel s ci t = Some r /\ run_start s t ci r.
Proof.
  intros Hwf. revert ci. induction fuel as [|fuel IH]; intros ci Ht Hf; [lia|]. cbn [conflict_start].
  assert (Hone : forall j, (ci <= j <= ci)%N -> term_of s j = Some t) by (intros j Hj; by replace j with ci by lia).
  rewrite firstIndex_wf by done. destruct (N.ltb_spec (ds_snapIndex s + 1) ci) as [Hlt|Hge].
  2:{ exists ci. split; [done|]. split; [done|]. split; [done|by left]. }
  pose proof (term_of_lt _ _ _ Hwf Ht) as Hend. pose proof (lw_bound _ Hwf) as Hb. unfold log_end in Hend.
  rewrite sub64_small by lia. rewrite termAt_wf by done. cbn [mbind option_bind].
  destruct (term_of s (ci - 1)) as [t'|] eqn:Et; cbn [negb orb].
  2:{ exists ci. split; [done|]. split; [done|]. split; [done|]. right. by rewrite Et. }
  destruct (N.eqb_spec t' t) as [->|Hne]; cbn [negb].
  - destruct (IH (ci - 1)%N Et) as (r & Er & Hle & Hrun & Hstop); [lia|]. exists r. split; [done|].
    split; [lia|]. split; [|done]. intros j Hj. destruct (N.eq_dec j ci) as [->|]; [done|]. apply Hrun. lia.
  - exists ci. split; [done|]. split; [done|]. split; [done|]. right. rewrite Et. congruence.
Qed.

Lemma follow_leader_term c n t id n' :
  (n_term n <= t)%N -> follow_leader c n t id = Some n' -> n_term n' = t.
Proof.
  intros Hle. unfold follow_leader, stepDownLocked. destruct (N.ltb_spec (n_term n) t) as [Hlt|Hge]; simpl.
  - destruct (setHardState _ _ _) as [[err s']|] eqn:E; [|done]. cbn [mbind option_bind]. intros H. rewind H. rewind H. by apply setHardState_mem in E as [w ->].
  - intros H. destruct (negb _); [rewind H|cbn [mbind option_bind] in H]; rewind H; unfold n_term in *; simpl; lia.
Qed.

(** C27. A rejected AppendEntries changes nothing in the log and answers with an
    exact hint: when the log is too short, the index after its end and no term;
    when the previous entry has another term, that term and the first index of
    its run (or the first index of the log). *)
Theorem append_entries_reject c n req :
  node_ok n -> (n_term n <= ae_Term req)%N -> (ds_snapIndex (n_store n) <= ae_PrevLogIndex req)%N ->
  term_of (n_store n) (ae_PrevLogIndex req) <> Some (ae_PrevLogTerm req) ->
  exists ci ct n',
    HandleAppendEntries Marshal c n req = Some (mkAppendResp (ae_Term req) false ci ct, n') /\
    same_log (n_store n) (n_store n') /\ n_commitIndex n' = n_commitIndex n /\ n_role n' = follower /\
    match term_of (n_store n) (ae_PrevLogIndex req) with
    | None => (log_end (n_store n) <= ae_PrevLogIndex req)%N /\ ci = log_end (n_store n) /\ ct = 0%N
    | Some t => ct = t /\ run_start (n_store n) t (ae_PrevLogIndex req) ci
    end.
Proof.
  intros Hok Hle Hprev Hne. unfold HandleAppendEntries. rewrite (proj2 (N.ltb_ge _ _)) by done.
  destruct (follow_leader_ok c n (ae_Term req) (ae_LeaderId req) Hok) as (n1 & E1 & [Hwf1 _] & [Hs Ec _ _ Hr]).
  rewrite E1. cbn [mbind option_bind]. apply follow_leader_term in E1; [|done]. pose proof (nw_log _ Hwf1) as Hl1.
  pose proof Hs as [Ei _ El]. pose proof (lw_bound _ Hl1) as Hb.
  rewrite <-(term_of_ext _ _ _ Hs), <-(same_log_end _ _ Hs) in *. unfold check_prev. rewrite lastIndex_wf, firstIndex_wf by done.
  change (ds_term (n_store n1)) with (n_term n1). rewrite E1.
  destruct (N.ltb_spec (log_end (n_store n1) - 1) (ae_PrevLogIndex req)) as [Hlt|Hge].
  - assert (log_end (n_store n1) <= ae_PrevLogIndex req)%N as Hout by lia. rewrite term_of_None by done.
    cbn [mbind option_bind]. do 3 eexists. split; [done|]. split_and!; try done.
    unfold log_end in *. rewrite add64_small by lia. lia.
  - destruct (term_of (n_store n1) (ae_PrevLogIndex req)) as [t|] eqn:Et.
    2:{ exfalso. destruct (N.eq_dec (ae_PrevLogIndex req) (ds_snapIndex (n_store n1))) as [Heq|Hneq].
        - unfold term_of in Et. by rewrite Heq, N.eqb_refl in Et.
        - destruct (entry_of_Some _ Hl1 (ae_PrevLogIndex req)) as (e & He & _); [unfold log_end in *; lia|].
          rewrite term_of_entry in Et by lia. by rewrite He in Et. }
    rewrite (proj2 (orb_true_iff _ _)).
    2:{ rewrite N.leb_le, N.eqb_eq. lia. }
    rewrite termAt_wf, Et by done. cbn [mbind option_bind andb]. rewrite (proj2 (N.eqb_neq _ _)) by congruence. cbn [negb].
    destruct (conflict_start_spec (n_store n1) (S (length (ds_log (n_store n1)))) (ae_PrevLogIndex req) t Hl1 Et) as (r & Er & Hrun).
    { unfold log_end, len in *. lia. }
    rewrite Er. cbn [mbind option_bind]. do 3 eexists. split; [done|]. split; [done|]. split; [done|]. split; [done|].
    destruct Hrun as (H1 & H2 & H3). split; [done|]. split; [done|]. split.
    + intros j Hj. rewrite <-(term_of_ext _ _ _ Hs). by apply H2.
    + rewrite <-Ei, <-(term_of_ext _ _ _ Hs). done.
Qed.

(** ** The leader's side *)

Lemma sync_clean s s' : sync s = Some (None, s') -> ds_dirty s' = false.
Proof.
  unfold sync. destruct (negb (ds_dirty s)) eqn:Ed; [by intros [= <-]; apply negb_true_iff in Ed|].
  destruct (ds_wal s) as [w|]; [|done]. simpl. destruct (Sync w) as [[er|] w']; [done|]. by intros [= <-].
Qed.

Lemma advanceCommit_rule n n' :
  node_ok n -> advanceCommitLocked n = Some n' -> n_commitIndex n' <> n_commitIndex n ->
  (n_commitIndex n < n_commitIndex n')%N /\ term_of (n_store n') (n_commitIndex n') = Some (n_term n') /\
  canCommit (n_conf n') (n_commitIndex n') (matched n') = true /\ ds_dirty (n_store n') = false /\ n_term n' = n_term n.
Proof.
  intros [Hwf Hw]. unfold advanceCommitLocked. destruct (N.leb_spec (MaxCommitIndex (n_conf n) (matched n)) (n_commitIndex n)) as [|Hlt]; [by intros [= <-]|].
  destruct (sync _) as [[err s']|] eqn:E; [|done]. cbn [mbind option_bind]. destruct err; [by intros [= <-]|].
  pose proof (sync_clean _ _ E) as Hd. apply sync_same_log in E as (Hs & _ & Ht); [|done].
  rewrite termAt_wf by by eapply same_log_wf; [|apply Hwf]. cbn [mbind option_bind].
  destruct (term_of s' _) as [t|] eqn:Et; cbn [negb orb]; [|by intros [= <-]].
  destruct (N.eqb_spec t (ds_term s')) as [->|]; cbn [negb]; [|by intros [= <-]]. intros [= <-] _. simpl.
  split_and!; [done|done| |done|done].
  destruct (MaxCommitIndex_spec (n_conf n) (matched n)) as [[H0|H] _]; [lia|exact H].
Qed.

(** C9. The commit rule: when an answer to AppendEntries moves the commit index, the
    node leads, the index only grows, its entry is of the leader's own term,
    every quorum of the membership (both of them while joint) has acknowledged
    it, and the leader's own log is fsynced. *)
Theorem commit_rule c n peer req resp n' :
  node_ok n -> onAppendResponse c n peer req resp = Some n' -> n_commitIndex n' <> n_commitIndex n ->
  n_role n = leader /\ ae_Term req = n_term n' /\ (n_commitIndex n < n_commitIndex n')%N /\
  term_of (n_store n') (n_commitIndex n') = Some (n_term n') /\
  canCommit (n_conf n') (n_commitIndex n') (matched n') = true /\
  ds_dirty (n_store n') = false.
Proof.
  intros [Hwf Hw]. unfold onAppendResponse. destruct (n_term n <? aer_Term resp)%N eqn:Et.
  { unfold stepDownLocked. rewrite Et. destruct (setHardState _ _ _) as [[err s']|]; [|done]. cbn [mbind option_bind]. intros H. by rewind H. }
  destruct (bool_decide (n_role n = leader)) eqn:Er; cbn [negb orb]; [|by intros [= <-]]. apply bool_decide_eq_true in Er.
  destruct (N.eqb_spec (n_term n) (ae_Term req)) as [Heq|]; cbn [negb]; [|by intros [= <-]].
  destruct (n_progress n) as [p|]; [|done]. cbn [mbind option_bind]. destruct (aer_Success resp).
  2:{ match goal with |- ?m ≫= _ = _ -> _ => destruct m as [q|]; [|done] end. by intros [= <-]. }
  set (q := if (match_of (nextIndex _) peer <? _)%N then _ else _).
  intros H Hne. destruct (advanceCommit_rule (set_progress n (Some q)) n') as (H1 & H2 & H3 & H4 & H5); try done.
  - split; [by apply wf_set_progress|done].
  - split_and!; try done. rewrite H5, <-Heq. done.
Qed.

(** Where the search for the conflicting term stops: behind the last entry of
    that term, every later one being of a higher term; or at the hint, when an
    entry of a lower term (or the start of the log) comes first. *)
Definition backtrack (s : diskStorage) (ct hint i r : N) : Prop :=
  exists k, (ds_snapIndex s <= k <= i)%N /\ (forall j, (k < j <= i)%N -> exists t, term_of s j = Some t /\ (ct < t)%N) /\
    ((ds_snapIndex s < k)%N /\ term_of s k = Some ct /\ r = (k + 1)%N \/
     r = hint /\ (k = ds_snapIndex s \/ exists t, term_of s k = Some t /\ (t < ct)%N)).

Lemma conflict_next_spec s fuel i ct hint :
  log_wf s -> (ds_snapIndex s <= i < log_end s)%N -> N.to_nat (i - ds_snapIndex s) < fuel ->
  exists r, conflict_next fuel s i ct hint = Some r /\ backtrack s ct hint i r.
Proof.
  intros Hwf. revert i. induction fuel as [|fuel IH]; intros i Hi Hf; [lia|]. cbn [conflict_next]. pose proof (lw_bound _ Hwf).
  assert (Hno : forall j, (i < j <= i)%N -> exists t, term_of s j = Some t /\ (ct < t)%N) by lia.
  rewrite firstIndex_wf by done. destruct (N.ltb_spec i (ds_snapIndex s + 1)).
  { exists hint. split; [done|]. exists i. split; [lia|]. split; [done|]. right. split; [done|]. left. lia. }
  destruct (entry_of_Some _ Hwf i) as (e & He & _); [lia|].
  assert (term_of s i = Some (en_Term e)) as Et by (rewrite term_of_entry, He by lia; done).
  rewrite termAt_wf, Et by done. cbn [mbind option_bind negb]. destruct (N.eqb_spec (en_Term e) ct) as [Heq|Hne].
  { exists (i + 1)%N. unfold log_end in *. rewrite add64_small by lia. split; [done|]. exists i. split; [lia|]. split; [done|].
    left. rewrite Et, Heq. split; [lia|done]. }
  destruct (N.ltb_spec (en_Term e) ct) as [Hlt|Hge].
  { exists hint. split; [done|]. exists i. split; [lia|]. split; [done|]. right. split; [done|]. right. by eexists. }
  rewrite sub64_small by (unfold log_end in *; lia). destruct (IH (i - 1)%N) as (r & -> & k & Hk & Hj & Hr); [lia..|].
  exists r. split; [done|]. exists k. split; [lia|]. split; [|done]. intros j Hjk.
  destruct (N.eq_dec j i) as [->|]; [|apply Hj; lia]. exists (en_Term e). split; [done|lia].
Qed.

(** Fast backtracking: a leader whose AppendEntries is rejected with a conflict
    term moves the peer's next index behind its own last entry of that term, or
    to the hinted index when it has none (and to 1 at least); nothing else but
    the kick changes. The search visits each entry at most once. *)
Theorem next_index_backtrack c n p peer req resp :
  node_wf n -> n_role n = leader -> n_progress n = Some p -> n_term n = ae_Term req -> (aer_Term resp <= n_term n)%N ->
  aer_Success resp = false -> aer_ConflictTerm resp <> 0%N ->
  exists r, backtrack (n_store n) (aer_ConflictTerm resp) (aer_ConflictIndex resp) (log_end (n_store n) - 1) r /\
    onAppendResponse c n peer req resp = Some (kickRun (set_progress n (Some (set_next p peer (N.max 1 r))))).
Proof.
  intros Hwf Hr Hp Ht Hle Hs Hc. unfold onAppendResponse. rewrite (proj2 (N.ltb_ge _ _)) by done.
  rewrite bool_decide_true by done. rewrite (proj2 (N.eqb_eq _ _)) by done. cbn [negb orb]. rewrite Hp. cbn [mbind option_bind].
  rewrite Hs. rewrite (proj2 (N.eqb_neq _ _)) by done. cbn [negb]. rewrite lastIndex_wf by apply Hwf.
  destruct (conflict_next_spec (n_store n) (S (length (ds_log (n_store n)))) (log_end (n_store n) - 1) (aer_ConflictTerm resp)
              (aer_ConflictIndex resp) (nw_log _ Hwf)) as (r & Er & Hb).
  - unfold log_end. lia.
  - unfold log_end, len. lia.
  - rewrite Er. cbn [mbind option_bind]. by exists r.
Qed.

(** ** Applying *)

(** C26. The applier delivers every committed entry exactly once and in order: one
    turn emits the messages of the entries lastApplied+1 .. commitIndex, each
    with its command (or membership change), index and term, and leaves
    lastApplied at commitIndex. *)
Theorem applier_in_order n :
  node_ok n ->
  exists msgs n', applier n = Some (msgs, n') /\ n_lastApplied n' = n_commitIndex n /\ n_commitIndex n' = n_commitIndex n /\
    length msgs = N.to_nat (n_commitIndex n - n_lastApplied n) /\
    forall i, i < length msgs ->
      exists e, entry_of (n_store n) (n_lastApplied n + 1 + N.of_nat i) = Some e /\
        en_Index e = (n_lastApplied n + 1 + N.of_nat i)%N /\ msgs !! i = Some (msg_of e).
Proof.
  intros Hok. destruct (apply_loop_spec _ n Hok (Nat.lt_succ_diag_r _)) as (n' & E & _ & Ha & Hc).
  eexists _, n'. split; [exact E|]. split; [done|]. split; [done|]. destruct Hok as [[H1 H2 H3 H4 _ _] _].
  assert (length (entries_between (n_store n) (n_lastApplied n) (n_commitIndex n)) = N.to_nat (n_commitIndex n - n_lastApplied n)) as El.
  { unfold entries_between. rewrite length_take, length_drop. unfold log_end, len in H2. lia. }
  rewrite length_fmap, El. split; [done|]. intros i Hi.
  destruct (entry_of_Some _ H1 (n_lastApplied n + 1 + N.of_nat i)%N) as (e & He & Hidx); [lia|].
  exists e. split; [done|]. split; [done|]. rewrite list_lookup_fmap. unfold entries_between.
  rewrite lookup_take_lt by done. rewrite lookup_drop. revert He. unfold entry_of.
  destruct (N.leb_spec (n_lastApplied n + 1 + N.of_nat i) (ds_snapIndex (n_store n))); [lia|].
  replace (N.to_nat (_ - _ - 1)) with (N.to_nat (n_lastApplied n - ds_snapIndex (n_store n)) + i) by lia. by intros ->.
Qed.

(** ** Snapshots *)

(** The entries a compaction keeps are at their index. *)
Lemma entry_of_compact s s' index i :
  log_wf s -> (ds_snapIndex s < index)%N -> ds_snapIndex s' = index ->
  ds_log s' = filter (fun e => index < en_Index e)%N (ds_log s) -> (index < i)%N -> entry_of s' i = entry_of s i.
Proof.
  intros Hwf Hlt Ei El Hi. unfold entry_of. rewrite Ei, El, kept_drop by done.
  destruct (N.leb_spec i index), (N.leb_spec i (ds_snapIndex s)); try lia. rewrite lookup_drop. f_equal. lia.
Qed.

(** C28. A snapshot a follower installs becomes its state: the handler releases the
    mutex and delivers the snapshot to the state machine; the storage holds its
    index, term and data, the commit and applied indexes are the snapshot's, and
    the log entries above it stay where they were. *)
Theorem install_snapshot_installs c n req tscript resp msg unlocked n' :
  node_ok n -> snap_ok req -> HandleInstallSnapshot Marshal c n req tscript = Some (resp, Some msg, unlocked, n') ->
  unlocked = true /\ node_ok n' /\
  msg = SnapshotMsg (is_Data req) (is_LastIncludedIndex req) (is_LastIncludedTerm req) /\
  (ds_snapIndex (n_store n) < is_LastIncludedIndex req)%N /\
  ReadSnapshot n' = (is_Data req, is_LastIncludedIndex req, is_LastIncludedTerm req) /\
  n_commitIndex n' = is_LastIncludedIndex req /\ n_lastApplied n' = is_LastIncludedIndex req /\
  forall i, (is_LastIncludedIndex req < i)%N -> entry_of (n_store n') i = entry_of (n_store n) i.
Proof.
  intros Hok Hs H. destruct (HandleInstallSnapshot_ok Marshal c n req tscript Hok Hs) as (r0 & m0 & u0 & n0 & E0 & Hok').
  rewrite H in E0. injection E0 as <- <- <- <-. revert H. unfold HandleInstallSnapshot. destruct (_ <? _)%N; [done|].
  destruct (follow_leader_ok c n (is_Term req) (is_LeaderId req) Hok) as (n1 & -> & [Hwf1 Hw1] & [Hsl _ _ _ _]). cbn [mbind option_bind].
  destruct (N.leb_spec (is_LastIncludedIndex req) (ds_snapIndex (n_store n1))) as [|Hgt]; [done|]. set (conf := match is_ConfState req with [] => _ | _ => _ end).
  destruct (saveSnapshot _ _ _ _ _ _ _) as [[[er|] s']|] eqn:E; [done| |done]. cbn [mbind option_bind].
  intros H. injection H as <- <- <- <-. split; [done|]. split; [by apply Hok'|].
  apply saveSnapshot_mem in E as (_ & _ & _ & [(_ & _ & _ & _ & [?|Hle])|(Hlt & El & Ei & Et & _ & Ed)]); [done| |].
  { lia. }
  split; [done|]. split; [by rewrite <-(sl_index _ _ Hsl)|]. split; [unfold ReadSnapshot; simpl; congruence|].
  split; [done|]. split; [done|]. intros i Hi. simpl.
  rewrite (entry_of_compact (n_store n1) s' (is_LastIncludedIndex req) i) by (done || apply Hwf1).
  apply entry_of_ext; apply Hsl.
Qed.

End node.

(** ** Witnesses: a follower with two entries of term 1, and a leader *)

Definition an_entry (t i : N) : Entry := mkLogEntry t i [] ENTRY_NORMAL None.
Definition a_store (es : list Entry) (t : N) : diskStorage :=
  mkStore (mkSnapFiles None None None) [] (Some (mkWAL (Bufio.NewWriter empty_file) 0)) t 0 false
    (NewConfState [1; 2; 3]%N) es 0 0 [].
Definition a_node (r : role) (es : list Entry) (t commit : N) : Node :=
  mkNode (fill (sample_cfg 1)) (a_store es t) (NewConfState [1; 2; 3]%N) ∅ r 0 commit 0
    (Some (mkProgress ∅ (<[1%N := len es]> ∅) ∅ ∅)) 0 false ∅.

Definition follower2 : Node := a_node follower [an_entry 1 1; an_entry 1 2] 2 1.

(** A node whose log is a list of entries numbered from 1 is in order. *)
Lemma a_node_ok r es t commit :
  contiguous 1 es -> (len es + 1 < two64)%N -> (commit <= len es)%N -> node_ok (a_node r es t commit).
Proof.
  intros Hc Hl Hcom. split; [|by eexists]. split; simpl; try done; [unfold log_end; simpl; lia|lia].
Qed.

Lemma contiguous_forallb first es :
  forallb (fun '(i, e) => (en_Index e =? first + N.of_nat i)%N) (imap pair es) = true -> contiguous first es.
Proof.
  intros H i e He. rewrite forallb_forall in H. apply N.eqb_eq. apply (H (i, e)). apply list_elem_of_In, list_elem_of_lookup.
  exists i. by rewrite list_lookup_imap, He.
Qed.

Lemma follower2_ok : node_ok follower2.
Proof. apply a_node_ok; [by apply contiguous_forallb|done|done]. Qed.

(** A request that replaces the second entry and adds a third. *)
Definition append_req : AppendEntriesRequest := mkAppendReq 2 2 1 1 [an_entry 2 2; an_entry 2 3] 2.
Definition follower3 : Node :=
  match HandleAppendEntries sample_Marshal clock0 follower2 append_req with Some (_, n) => n | None => follower2 end.

Lemma append_req_ok : append_ok follower2 append_req.
Proof.
  split; [by apply contiguous_forallb|done|]. simpl. intros e He Hi. repeat (apply elem_of_cons in He as [->|He]; [simpl in Hi; lia|]).
  by apply not_elem_of_nil in He.
Qed.

Lemma append_entries_success_witness :
  HandleAppendEntries sample_Marshal clock0 follower2 append_req = Some (mkAppendResp 2 true 0 0, follower3) /\
  term_of (n_store follower3) 3 = Some 2%N /\ n_commitIndex follower3 = 2%N.
Proof.
  assert (HandleAppendEntries sample_Marshal clock0 follower2 append_req = Some (mkAppendResp 2 true 0 0, follower3)) as E
    by (vm_compute; reflexivity).
  split; [exact E|].
  destruct (append_entries_success sample_Marshal clock0 follower2 append_req (mkAppendResp 2 true 0 0) follower3
              follower2_ok append_req_ok E eq_refl) as (_ & Hhas & _ & _ & _ & Hc).
  split; [|exact Hc]. apply (Hhas (an_entry 2 3)); [right; left|vm_compute; reflexivity].
Defined.

(** The same follower asked to append behind an entry of term 2 at index 2. *)
Definition bad_req : AppendEntriesRequest := mkAppendReq 2 2 2 2 [] 2.

Lemma append_entries_reject_witness :
  exists ci ct n',
    HandleAppendEntries sample_Marshal clock0 follower2 bad_req = Some (mkAppendResp 2 false ci ct, n') /\
    same_log (n_store follower2) (n_store n') /\ n_commitIndex n' = 1%N /\ n_role n' = follower /\
    ct = 1%N /\ run_start (n_store follower2) 1 2 ci.
Proof.
  apply (append_entries_reject sample_Marshal clock0 follower2 bad_req); [apply follower2_ok|discriminate|discriminate|discriminate].
Defined.

(** A leader of term 2 whose second peer acknowledges its two entries. *)
Definition leader2 : Node := a_node leader [an_entry 1 1; an_entry 2 2] 2 0.
Definition ack_req : AppendEntriesRequest := mkAppendReq 2 1 0 0 [an_entry 1 1; an_entry 2 2] 0.
Definition leader3 : Node :=
  default leader2 (onAppendResponse clock0 leader2 2 ack_req (mkAppendResp 2 true 0 0)).

Lemma leader2_ok : node_ok leader2.
Proof. apply a_node_ok; [by apply contiguous_forallb|done|done]. Qed.

Lemma commit_rule_witness :
  n_commitIndex leader3 = 2%N /\ term_of (n_store leader3) (n_commitIndex leader3) = Some (n_term leader3) /\
  canCommit (n_conf leader3) (n_commitIndex leader3) (matched leader3) = true.
Proof.
  split; [vm_compute; reflexivity|].
  destruct (commit_rule clock0 leader2 2 ack_req (mkAppendResp 2 true 0 0) leader3 leader2_ok) as (_ & _ & _ & Ht & Hc & _);
    [vm_compute; reflexivity|vm_compute; discriminate|]. split; [exact Ht|exact Hc].
Defined.

Lemma next_index_backtrack_witness :
  exists r, backtrack (n_store leader2) 1 1 (log_end (n_store leader2) - 1) r /\
    onAppendResponse clock0 leader2 3 ack_req (mkAppendResp 2 false 1 1) =
      Some (kickRun (set_progress leader2 (Some (set_next (mkProgress ∅ (<[1%N := 2%N]> ∅) ∅ ∅) 3 (N.max 1 r))))).
Proof.
  apply (next_index_backtrack clock0 leader2 (mkProgress ∅ (<[1%N := 2%N]> ∅) ∅ ∅) 3 ack_req (mkAppendResp 2 false 1 1));
    [apply leader2_ok|reflexivity|reflexivity|reflexivity|discriminate|reflexivity|discriminate].
Defined.

Lemma applier_in_order_witness :
  exists msgs n', applier follower3 = Some (msgs, n') /\ n_lastApplied n' = 2%N /\ length msgs = 2.
Proof.
  destruct (applier_in_order follower3) as (msgs & n' & E & Ha & _ & Hl & _).
  - destruct (HandleAppendEntries_ok sample_Marshal clock0 follower2 append_req follower2_ok append_req_ok) as (r & n' & E & Hok).
    unfold follower3. by rewrite E.
  - exists msgs, n'. split; [exact E|]. split; [rewrite Ha; vm_compute; reflexivity|rewrite Hl; vm_compute; reflexivity].
Defined.

Definition snap_req : InstallSnapshotRequest := mkSnapReq 2 2 2 2 (str "state") [].
Definition installed : Node :=
  match HandleInstallSnapshot sample_Marshal clock0 follower3 snap_req [] with Some (_, n) => n | None => follower3 end.

Lemma install_snapshot_installs_witness :
  ReadSnapshot installed = (str "state", 2, 2)%N /\ entry_of (n_store installed) 3 = entry_of (n_store follower3) 3.
Proof.
  destruct (install_snapshot_installs sample_Marshal clock0 follower3 snap_req [] (mkSnapResp 2)
              (SnapshotMsg (str "state") 2 2) true installed) as (_ & _ & _ & _ & Hr & _ & _ & He).
  - destruct (HandleAppendEntries_ok sample_Marshal clock0 follower2 append_req follower2_ok append_req_ok) as (r & n' & E & Hok).
    unfold follower3. by rewrite E.
  - split; [vm_compute; reflexivity|]. by intros cs _ [].
  - vm_compute; reflexivity.
  - split; [exact Hr|]. apply He. vm_compute; reflexivity.
Defined.
