(* ===== verification/NodeHazards.v ===== *)
(** raft/node.go: where the node does not do what Raft promises. The first section
    has theorems about every node (a mutex left locked, entries acknowledged without
    an fsync, a cluster of one), the others single runs from fresh nodes. *)

From S2P Require Import Prelude Bytes GoIO Wal Messages ConfState DiskStorage StorageCorrect StorageMem LogFacts Node NodeWf NodeSteps NodeVotes NodeLog.

(** ** A mutex left locked *)

Section node.
Context (Marshal : Entry -> bytes).

Lemma follow_leader_script c n t id n' :
  follow_leader c n t id = Some n' -> ds_script (n_store n') = ds_script (n_store n).
Proof.
  unfold follow_leader, stepDownLocked. destruct (_ || _); [|by intros [d ->]%reset_deadline]. intros E. peel E. apply reset_deadline in E as [d ->].
  apply bind_Some in Em as (n1 & E1 & [d1 ->]%reset_deadline). destruct (_ <? _)%N; [|by injection E1 as <-].
  destruct (setHardState _ _ _) as [[err s']|] eqn:E; [|done]. injection E1 as <-. by apply setHardState_mem in E as [w ->].
Qed.

(** C40. A failed snapshot leaves the node locked: when a request of a current term
    carries a newer snapshot and the first write of its files fails,
    HandleInstallSnapshot answers without a message for the state machine and
    without releasing n.mu, which every later critical section of the node has to
    take. *)
Theorem install_error_keeps_lock c n req tscript k script :
  node_ok n -> (n_term n <= is_Term req)%N -> (ds_snapIndex (n_store n) < is_LastIncludedIndex req)%N ->
  ds_script (n_store n) = FailAfter k :: script ->
  exists resp n', HandleInstallSnapshot Marshal c n req tscript = Some (resp, None, false, n').
Proof.
  intros Hok Ht Hi Hsc. unfold HandleInstallSnapshot. rewrite (proj2 (N.ltb_ge _ _)) by done.
  destruct (follow_leader_ok c n (is_Term req) (is_LeaderId req) Hok) as (n1 & E & _ & [Hs _ _ _ _]). rewrite E. cbn [mbind option_bind].
  apply follow_leader_script in E. rewrite (sl_index _ _ Hs). rewrite (proj2 (N.leb_gt _ _)) by done.
  set (conf := match is_ConfState req with [] => _ | _ => _ end). unfold saveSnapshot. rewrite (sl_index _ _ Hs).
  rewrite (proj2 (N.leb_gt _ _)) by done. unfold write_snapshot_files, ds_call. rewrite E, Hsc. simpl. by do 2 eexists.
Qed.

(** ** An acknowledgement without an fsync *)

Lemma check_prev_passes s req :
  log_wf s -> (ae_PrevLogIndex req < log_end s)%N ->
  (ae_PrevLogIndex req < ds_snapIndex s)%N \/ term_of s (ae_PrevLogIndex req) = Some (ae_PrevLogTerm req) -> check_prev s req = Some None.
Proof.
  intros Hwf Hlt Hp. unfold check_prev. rewrite lastIndex_wf, firstIndex_wf by done. rewrite (proj2 (N.ltb_ge _ _)) by (unfold log_end in *; lia).
  destruct (_ || _) eqn:Eb; [|done]. rewrite termAt_wf by done. cbn [mbind option_bind]. destruct Hp as [Hp| ->]; [|simpl; by rewrite N.eqb_refl].
  apply orb_true_iff in Eb as [Eb%N.leb_le|Eb%N.eqb_eq]; lia.
Qed.

Lemma toAppend_nothing s es :
  log_wf s -> (forall e, e ∈ es -> (ds_snapIndex s < en_Index e)%N -> term_of s (en_Index e) = Some (en_Term e)) -> toAppend s es = Some [].
Proof.
  intros Hwf. induction es as [|e es IH]; intros H; cbn [toAppend]; [done|]. assert (toAppend s es = Some []) as Hes by (apply IH; intros x Hx; apply H; by right).
  destruct (N.leb_spec (en_Index e) (ds_snapIndex s)) as [|Hgt]; [done|]. specialize (H e ltac:(by left) Hgt).
  destruct (N.lt_ge_cases (en_Index e) (log_end s)) as [Hlt|Hge]; [|by rewrite term_of_None in H by lia].
  rewrite lastIndex_wf, (proj2 (N.leb_le _ _)) by (done || lia). rewrite termAt_wf, H by done. cbn [mbind option_bind]. by rewrite N.eqb_refl.
Qed.

(** A follower answers yes for entries it has in memory without a call on its device. *)
Lemma in_memory_acknowledged c n req :
  node_ok n -> n_role n = follower -> ae_Term req = n_term n -> (ae_PrevLogIndex req < log_end (n_store n))%N ->
  (ae_PrevLogIndex req < ds_snapIndex (n_store n))%N \/ term_of (n_store n) (ae_PrevLogIndex req) = Some (ae_PrevLogTerm req) ->
  (forall e, e ∈ ae_Entries req -> (ds_snapIndex (n_store n) < en_Index e)%N -> term_of (n_store n) (en_Index e) = Some (en_Term e)) ->
  exists n', HandleAppendEntries Marshal c n req = Some (mkAppendResp (n_term n) true 0 0, n') /\ n_store n' = n_store n.
Proof.
  intros [Hwf _] Hr Ht Hlt Hp He. unfold HandleAppendEntries, follow_leader. rewrite Ht, N.ltb_irrefl, bool_decide_true by done. cbn [orb negb mbind option_bind].
  destruct (reset_some c (set_leaderID n (ae_LeaderId req)) (nw_timer _ Hwf)) as [d ->]. cbn [mbind option_bind].
  change (n_store (set_deadline (set_leaderID n (ae_LeaderId req)) d)) with (n_store n).
  rewrite check_prev_passes by (done || apply Hwf). cbn [mbind option_bind]. rewrite toAppend_nothing by (done || apply Hwf). cbn [mbind option_bind store_entries].
  eexists. split; [reflexivity|]. unfold follow_commit. by destruct (_ <? _)%N.
Qed.

(** The log a follower is left with when the fsync of the new entries fails has the
    whole request. *)
Lemma failed_fsync_log n req new s1 er s2 :
  node_ok n -> append_ok n req -> n_role n = follower -> check_prev (n_store n) req = Some None -> toAppend (n_store n) (ae_Entries req) = Some new -> new <> [] ->
  appendEntries Marshal (n_store n) new = Some (None, s1) -> sync s1 = Some (Some er, s2) ->
  ds_dirty s2 = true /\ ds_snapIndex s2 = ds_snapIndex (n_store n) /\ ds_term s2 = n_term n /\
  ((ae_PrevLogIndex req < ds_snapIndex s2)%N \/ term_of s2 (ae_PrevLogIndex req) = Some (ae_PrevLogTerm req)) /\
  forall e, e ∈ ae_Entries req -> (ds_snapIndex s2 < en_Index e)%N -> term_of s2 (en_Index e) = Some (en_Term e).
Proof.
  intros Hok Hao Hrole Hck Hto Hne Hap Hsy. pose proof Hok as [Hwf Hw]. pose proof (check_prev_term _ _ (nw_log _ Hwf) Hck) as Hpt.
  pose proof (check_prev_accept _ _ (nw_log _ Hwf) Hck) as Hlt.
  destruct (toAppend_spec (n_store n) (ae_Entries req) (ae_PrevLogIndex req + 1)) as (old & new' & E & Hes & Hold & Hnew); [apply Hwf|apply Hao|lia|].
  rewrite E in Hto. injection Hto as ->. destruct new as [|e0 new]; [done|].
  assert (ds_dirty s2 = true) as Hd.
  { unfold sync in Hsy. destruct (ds_dirty s1) eqn:Ed; [|done]. cbn [negb] in Hsy. destruct (ds_wal s1) as [w|]; [|done]. cbn [mbind option_bind] in Hsy.
    destruct (Sync w) as [[er'|] w']; [|done]. by injection Hsy as _ <-. }
  apply appendEntries_mem in Hap as (l & w & d & -> & _ & [[_ [?|?]]|(j & -> & Hj)]); [done|done|].
  apply sync_mem in Hsy as (w2 & d2 & -> & _). destruct (Hnew e0 new eq_refl) as [Hin Hdiff].
  rewrite (after_truncate_wf (n_store n) e0 new), (take_ge (e0 :: new)) in Hd |- * by (done || apply Hwf || by apply Hj).
  set (s2 := set_dirty _ d2) in *.
  assert (accepted n req (set_commitIndex (set_store n (set_dirty s2 false)) (N.max (n_commitIndex n) (N.min (ae_LeaderCommit req) (ae_PrevLogIndex req + len (ae_Entries req)))))
    old (e0 :: new)) as Ha.
  { split; try done; [|by right]. intros e1 new1 [= <- <-]. split; [done|]. destruct Hdiff as [Hdiff|]; [|done]. by rewrite term_of_None by lia. }
  assert (forall i, term_of (set_dirty s2 false) i = term_of s2 i) as Hext by (intros i; by apply term_of_ext).
  split_and!; [done|done|done| |].
  - destruct Hpt as [|Hpt]; [by left|]. destruct (N.lt_ge_cases (ae_PrevLogIndex req) (ds_snapIndex (n_store n))) as [|Hge]; [by left|right]. rewrite <-Hext, <-Hpt.
    destruct (decide (ae_PrevLogIndex req = ds_snapIndex (n_store n))) as [Eq|Hne']; [rewrite Eq; unfold term_of; simpl; by rewrite !N.eqb_refl|].
    rewrite !term_of_entry by (simpl; lia). f_equal. pose proof (accepted_entry _ _ _ _ _ (ae_PrevLogIndex req) Hok Ha) as Hen. simpl in Hen. rewrite Hen.
    pose proof (ao_entries _ _ Hao) as Hc. rewrite Hes in Hc. apply contiguous_app in Hc as [_ Hc]. pose proof (Hc 0 e0 eq_refl).
    by rewrite (proj2 (N.ltb_lt _ _)) by lia.
  - intros e He Hgt. rewrite <-Hext. exact (accepted_has _ _ _ _ _ e Hok Hao Ha He Hgt).
Qed.

(** C36. A follower acknowledges entries it has not stored: when it appends the new
    entries of a request of its leader and the fsync fails, it answers no but keeps
    them in memory; the retry of the same request is then answered with success
    without a call on the device, while the entries still wait for their fsync. *)
Theorem failed_fsync_acknowledged c n req new s1 er s2 c' :
  node_ok n -> append_ok n req -> n_role n = follower -> ae_Term req = n_term n ->
  check_prev (n_store n) req = Some None -> toAppend (n_store n) (ae_Entries req) = Some new -> new <> [] ->
  appendEntries Marshal (n_store n) new = Some (None, s1) -> sync s1 = Some (Some er, s2) ->
  exists n1 n2, HandleAppendEntries Marshal c n req = Some (mkAppendResp (n_term n) false 0 0, n1) /\
    HandleAppendEntries Marshal c' n1 req = Some (mkAppendResp (n_term n) true 0 0, n2) /\
    n_store n2 = n_store n1 /\ ds_dirty (n_store n2) = true.
Proof.
  intros Hok Hao Hr Ht Hck Hto Hne Hap Hsy. destruct (failed_fsync_log n req new s1 er s2) as (Hd & Esn & Et & Hp & He); [done..|].
  assert (exists d, HandleAppendEntries Marshal c n req = Some (mkAppendResp (n_term n) false 0 0, set_store (set_deadline (set_leaderID n (ae_LeaderId req)) d) s2)) as [d H1].
  { unfold HandleAppendEntries, follow_leader. rewrite Ht, N.ltb_irrefl, bool_decide_true by done. cbn [orb negb mbind option_bind].
    destruct (reset_some c (set_leaderID n (ae_LeaderId req)) (nw_timer _ (proj1 Hok))) as [d ->]. cbn [mbind option_bind]. exists d.
    change (n_store (set_deadline (set_leaderID n (ae_LeaderId req)) d)) with (n_store n). rewrite Hck. cbn [mbind option_bind]. rewrite Hto. cbn [mbind option_bind].
    unfold store_entries. destruct new as [|e0 new]; [done|]. change (n_store (set_deadline (set_leaderID n (ae_LeaderId req)) d)) with (n_store n).
    rewrite Hap. cbn [mbind option_bind]. rewrite Hsy. reflexivity. }
  destruct (HandleAppendEntries_ok Marshal c n req Hok Hao) as (resp & n1 & E & Hok1). rewrite H1 in E. injection E as <- <-.
  set (n1 := set_store _ s2) in *. destruct (in_memory_acknowledged c' n1 req Hok1) as (n2 & H2 & Es); [done|unfold n_term; simpl; congruence| |exact Hp|exact He|].
  - simpl. destruct (N.lt_ge_cases (ae_PrevLogIndex req) (log_end s2)) as [|Hge]; [done|]. destruct Hp as [Hp|Hp]; [unfold log_end in Hge; lia|].
    rewrite term_of_None in Hp; [done|lia].
  - exists n1, n2. split; [done|]. unfold n_term in H2 at 1. simpl in H2. rewrite Et in H2. split; [done|]. split; [done|]. by rewrite Es.
Qed.

(** ** A cluster of one *)

Lemma sole_peer n : AllPeerIDs (n_conf n) = [n_ID n] -> filter (fun p => p <> n_ID n) (peerIDsLocked n) = [].
Proof. intros E. unfold peerIDsLocked. rewrite E, filter_cons_False; [done|]. intros H. by apply H. Qed.

(** A cluster of one voter never elects a leader: its node sends no vote request,
    and only an answer to one calls becomeLeaderLocked, so every turn of the main
    loop leaves it follower or candidate without messages. *)
Theorem single_voter_never_leads c kicked n out n' :
  AllPeerIDs (n_conf n) = [n_ID n] -> n_role n <> leader -> run_step c kicked n = Some (out, n') ->
  out = [] /\ n_role n' <> leader.
Proof.
  intros Hp Hr. unfold run_step. set (n1 := if kicked then _ else n).
  assert (AllPeerIDs (n_conf n1) = [n_ID n1] /\ n_role n1 = n_role n) as [Hp1 Hr1] by (subst n1; by destruct kicked).
  assert (startElectionLocked c n1 = Some (out, n') -> out = [] /\ n_role n' <> leader) as He.
  { unfold startElectionLocked. intros E. destruct (negb _); [rewind E; injection E as <- <-; simpl; by rewrite Hr1|].
    destruct (_ && _); [rewind E; injection E as <- <-; simpl; by rewrite Hr1|].
    destruct (setHardState _ _ _) as [[err s']|]; [|done]. cbn [mbind option_bind] in E. destruct err; [by injection E as <- <-|]. rewind E.
    destruct (termAt _ _) as [[tm ok]|]; [|done]. cbn [mbind option_bind] in E. injection E as <- <-.
    match goal with |- context [filter ?P ?l] => replace (filter P l) with (@nil N) by (symmetry; exact (sole_peer n1 Hp1)) end. done. }
  rewrite Hr1. destruct (n_role n) eqn:Er; [| |done]; (destruct (_ <? _)%Z; [done|]); intros [= <- <-]; by rewrite Hr1.
Qed.

End node.

(** ** A vote forgotten behind a torn record *)

(** The directory of a node that crashed while its first hard state was being
    written: three bytes of the record reached the disk. *)
Definition torn_wal : file := mkFile (take 3 (encode_record (hard_record 1 0))) [] [] false.
Definition no_files : snap_files := mkSnapFiles None None None.
Definition started (r : result Node) : Node := match r with Ok n => n | _ => voter0 end.
Definition wal_of (n : Node) : file := wal_file (default (mkWAL (Bufio.NewWriter empty_file) 0) (ds_wal (n_store n))).

Definition torn1 : Node := started (NewNode sample_Unmarshal clock0 (sample_cfg 1) no_files (Some torn_wal)).
Definition torn2 : Node := node_of torn1 (HandleRequestVote clock0 torn1 (vote_req 5 2)).
Definition torn3 : Node := started (NewNode sample_Unmarshal clock0 (sample_cfg 1) no_files (Some (crash (wal_of torn2) 0))).
Definition torn4 : Node := node_of torn3 (HandleRequestVote clock0 torn3 (vote_req 5 3)).

(** Two votes in one term, in a run: a node restarts behind a torn record, grants
    candidate 2 its vote in term 5 (fsynced), crashes, restarts, and grants
    candidate 3 its vote in the same term, because the replay stops at the torn
    record that OpenWAL left in the file. *)
Theorem double_vote_after_torn_crash :
  NewNode sample_Unmarshal clock0 (sample_cfg 1) no_files (Some torn_wal) = Ok torn1 /\
  HandleRequestVote clock0 torn1 (vote_req 5 2) = Some (mkVoteResp 5 true, torn2) /\
  NewNode sample_Unmarshal clock0 (sample_cfg 1) no_files (Some (crash (wal_of torn2) 0)) = Ok torn3 /\
  HandleRequestVote clock0 torn3 (vote_req 5 3) = Some (mkVoteResp 5 true, torn4).
Proof. split_and!; vm_compute; reflexivity. Qed.

(** ** Reads by a new leader *)

Definition get_node (n0 : Node) (r : option Node) : Node := default n0 r.
Definition late : clock := mkClock 1000000000 0.

(** Node 1 leads term 1, appends a command and has it acknowledged by node 2. *)
Definition old1 : Node := fresh_node clock0 (sample_cfg 1) [] [].
Definition old2 : Node := node_of old1 (run_step late false old1).
Definition old3 : Node := node_of old2 (onVoteResponse sample_Marshal late old2 1 (mkVoteResp 1 true)).
Definition old4 : Node := node_of old3 (Propose sample_Marshal old3 (str "x=1")).
Definition old_req : AppendEntriesRequest :=
  mkAppendReq 1 1 0 0 [own_entry old2 [] ENTRY_NORMAL None; mkLogEntry 1 2 (str "x=1") ENTRY_NORMAL None] 0.
Definition old5 : Node := get_node old4 (onAppendResponse late old4 2 old_req (mkAppendResp 1 true 0 0)).

(** Node 2 takes the same request, then wins the election of term 2. *)
Definition new1 : Node := fresh_node clock0 (sample_cfg 2) [] [].
Definition new2 : Node := node_of new1 (HandleAppendEntries sample_Marshal clock0 new1 old_req).
Definition new3 : Node := node_of new2 (run_step late false new2).
Definition new4 : Node := node_of new3 (onVoteResponse sample_Marshal late new3 2 (mkVoteResp 2 true)).
Definition read1 : read_state := match ReadIndex new4 with inr r => r | inl _ => mkRead 0 0 [] 0 0 false end.
Definition read2 : read_state :=
  match onReadResponse late new4 read1 (mkReadResp 2 true) with Some (r, _) => r | None => read1 end.

(** A new leader answers reads from before the last committed write, in a run: node 1
    commits index 2 and its client is answered; node 2, which has the entry, wins
    the next term; its ReadIndex, confirmed by a quorum of acknowledgements,
    returns index 0, because it does not wait for an entry of its own term to
    commit. *)
Theorem stale_read_after_election :
  n_commitIndex old5 = 2%N /\
  HandleAppendEntries sample_Marshal clock0 new1 old_req = Some (mkAppendResp 1 true 0 0, new2) /\
  n_role new4 = leader /\ n_term new4 = 2%N /\ lastIndex (n_store new4) = 3%N /\
  ReadIndex new4 = inr read1 /\ rd_done read2 = true /\ readIndexDone new4 read2 = inr 0%N.
Proof. split_and!; vm_compute; reflexivity. Qed.

(** Node 2, whose device fails the fsync of the entries, is asked twice, and crashes. *)
Definition loose1 : Node := fresh_node clock0 (sample_cfg 2) [] [Done; Done; Done; FailAfter 0].
Definition loose2 : Node := node_of loose1 (HandleAppendEntries sample_Marshal clock0 loose1 old_req).
Definition loose3 : Node := node_of loose2 (HandleAppendEntries sample_Marshal clock0 loose2 old_req).
Definition loose4 : Node := started (NewNode sample_Unmarshal clock0 (sample_cfg 2) no_files (Some (crash (wal_of loose3) 0))).
Definition loose5 : Node := node_of loose4 (HandleRequestVote clock0 loose4 (vote_req 2 3)).

(** What comes of it, in a run: the leader commits the entries; a crash of the
    follower loses them, and it then votes for a candidate with an empty log. *)
Theorem unsynced_entry_acknowledged :
  HandleAppendEntries sample_Marshal clock0 loose1 old_req = Some (mkAppendResp 1 false 0 0, loose2) /\
  HandleAppendEntries sample_Marshal clock0 loose2 old_req = Some (mkAppendResp 1 true 0 0, loose3) /\
  ds_log (n_store loose3) = ae_Entries old_req /\ n_commitIndex old5 = 2%N /\
  n_term loose4 = 1%N /\ ds_log (n_store loose4) = [] /\
  HandleRequestVote clock0 loose4 (vote_req 2 3) = Some (mkVoteResp 2 true, loose5).
Proof. split_and!; vm_compute; reflexivity. Qed.

(** ** Two membership changes in flight *)

Definition add4 : ConfChange := mkConfChange CONF_CHANGE_ADD_NODE 4 (str "n4:7000").
Definition remove3 : ConfChange := mkConfChange CONF_CHANGE_REMOVE_NODE 3 [].
Definition conf1 : Node := node_of old3 (ProposeConfChange sample_Marshal old3 add4).
Definition conf2 : Node := node_of conf1 (ProposeConfChange sample_Marshal conf1 remove3).
Definition conf3 : Node :=
  get_node conf2 (onAppendResponse late conf2 2 (mkAppendReq 1 1 0 0 (ds_log (n_store conf2)) 0) (mkAppendResp 1 true 0 0)).
Definition conf4 : Node := node_of conf3 (applier conf3).

(** A membership change accepted while another is in flight is dropped: both
    proposals are accepted and committed, the second fails when it is applied
    (the cluster is joint then) and leaves the membership unchanged, yet its
    message, which completes the caller's request, is delivered all the same. *)
Theorem second_conf_change_dropped :
  ProposeConfChange sample_Marshal old3 add4 = Some (inr (2, 1)%N, conf1) /\
  ProposeConfChange sample_Marshal conf1 remove3 = Some (inr (3, 1)%N, conf2) /\
  n_commitIndex conf3 = 3%N /\
  applier conf3 = Some ([CommandMsg [] 1 1; ConfChangeMsg add4 2 1; ConfChangeMsg remove3 3 1], conf4) /\
  VoterIDs (n_conf conf4) = [1; 2; 3; 4]%N.
Proof. split_and!; vm_compute; reflexivity. Qed.

(** ** A snapshot behind the commit index *)

Definition ahead1 : Node := node_of new2 (HandleAppendEntries sample_Marshal clock0 new2 (mkAppendReq 1 1 2 1 [] 2)).
Definition ahead2 : Node := node_of ahead1 (applier ahead1).
Definition behind_req : InstallSnapshotRequest := mkSnapReq 1 1 1 1 (str "old state") [].
Definition ahead3 : Node := node_of ahead2 (HandleInstallSnapshot sample_Marshal clock0 ahead2 behind_req []).

(** A delayed snapshot takes the commit index back: a node that has applied
    index 2 accepts a snapshot of index 1 (its own snapshot index is 0), sets its
    commit and applied indexes to 1 and restores the older state. *)
Theorem install_snapshot_regresses :
  n_commitIndex ahead2 = 2%N /\ n_lastApplied ahead2 = 2%N /\
  HandleInstallSnapshot sample_Marshal clock0 ahead2 behind_req [] =
    Some (mkSnapResp 1, Some (SnapshotMsg (str "old state") 1 1), true, ahead3) /\
  n_commitIndex ahead3 = 1%N /\ n_lastApplied ahead3 = 1%N.
Proof. split_and!; vm_compute; reflexivity. Qed.

(** ** Witnesses *)

(** A cluster of one voter with an entry in its log, past its deadline. *)
Definition solo : Node :=
  mkNode (fill (mkConfig 1 [1]%N ∅ 0 0 0)) (a_store [an_entry 1 1] 1) (NewConfState [1]%N) ∅ follower 0 0 0 None 0 false ∅.
Definition solo' : Node := node_of solo (run_step late false solo).

Lemma single_voter_never_leads_witness :
  run_step late false solo = Some ([], solo') /\ n_role solo' = candidate /\ n_role solo' <> leader.
Proof.
  split; [vm_compute; reflexivity|]. split; [vm_compute; reflexivity|].
  apply (single_voter_never_leads late false solo [] solo'); [vm_compute; reflexivity|discriminate|vm_compute; reflexivity].
Defined.

Definition full_disk : Node := set_store follower2 (set_files (n_store follower2) no_files [FailAfter 0]).

Lemma install_error_keeps_lock_witness :
  exists resp n', HandleInstallSnapshot sample_Marshal clock0 full_disk snap_req [] = Some (resp, None, false, n').
Proof.
  apply (install_error_keeps_lock sample_Marshal clock0 full_disk snap_req [] 0 []).
  - split; [|by eexists]. apply wf_set_store; [apply follower2_ok|by split].
  - vm_compute; discriminate.
  - vm_compute; reflexivity.
  - reflexivity.
Defined.

(** A follower in term 1 whose device fails the fsync of its first entries. *)
Definition heartbeat1 : AppendEntriesRequest := mkAppendReq 1 1 0 0 [] 0.
Definition beaten : Node := node_of loose1 (HandleAppendEntries sample_Marshal clock0 loose1 heartbeat1).
Definition beaten1 : diskStorage := match appendEntries sample_Marshal (n_store beaten) (ae_Entries old_req) with Some (_, s) => s | None => n_store beaten end.
Definition beaten2 : diskStorage := match sync beaten1 with Some (_, s) => s | None => beaten1 end.

Lemma beaten_ok : node_ok beaten.
Proof.
  assert (node_ok loose1) as H0.
  { apply fresh_node_ok. destruct voter0_fits as [_ _ Hc _]. split; [reflexivity|reflexivity|exact Hc|reflexivity]. }
  destruct (HandleAppendEntries_ok sample_Marshal clock0 loose1 heartbeat1 H0) as (resp & n' & E & Hok).
  - split; [by apply contiguous_forallb|reflexivity|intros e He; by apply not_elem_of_nil in He].
  - unfold beaten, node_of. by rewrite E.
Qed.

Lemma failed_fsync_acknowledged_witness :
  exists n1 n2, HandleAppendEntries sample_Marshal clock0 beaten old_req = Some (mkAppendResp 1 false 0 0, n1) /\
    HandleAppendEntries sample_Marshal clock0 n1 old_req = Some (mkAppendResp 1 true 0 0, n2) /\
    n_store n2 = n_store n1 /\ ds_dirty (n_store n2) = true.
Proof.
  apply (failed_fsync_acknowledged sample_Marshal clock0 beaten old_req (ae_Entries old_req) beaten1 EIO beaten2 clock0 beaten_ok).
  - split; [by apply contiguous_forallb|vm_compute; reflexivity|]. intros e _ [H1 H2]. exfalso. assert (n_commitIndex beaten = 0%N) as E by (vm_compute; reflexivity).
    assert (ds_snapIndex (n_store beaten) = 0%N) as E' by (vm_compute; reflexivity). lia.
  - vm_compute; reflexivity.
  - vm_compute; reflexivity.
  - vm_compute; reflexivity.
  - vm_compute; reflexivity.
  - vm_compute; discriminate.
  - vm_compute; reflexivity.
  - vm_compute; reflexivity.
Defined.
