(* ===== verification/Cluster.v ===== *)
(** raft/node.go: elections in a cluster. The nodes run their critical sections in any
    order; a vote request reaches its peer, and the peer's answer reaches the
    goroutine that waits for it, at any time or never; a node may crash, losing
    any part of what it has not fsynced, or be stopped, and start again, while the
    requests it has sent stay on their way. The membership is the bootstrap one. *)

From S2P Require Import Prelude Bytes GoIO Wal Messages ConfState DiskStorage StorageCorrect StorageMem LogFacts Node NodeWf NodeSteps NodeVotes NodeRoles.

(** ** The cluster *)

(** A node, and whether it has crashed before. *)
Record replica := mkReplica {
  rp_node : Node;
  rp_restarted : bool
}.

(** A vote asked by candidate, of peer, in term: the goroutine that waits. *)
Abbreviation call_key := (N * N * N)%type.
Abbreviation vote_call := (RequestVoteRequest * option RequestVoteResponse)%type.

(** [cl_votes] only records history: who voted in which term for whom. *)
Record cluster := mkCluster {
  cl_nodes : gmap N replica;
  cl_calls : gmap call_key vote_call;
  cl_votes : gset (N * N * N)
}.

(** The goroutines a turn of run starts, and the vote a candidate gives itself. *)
Definition add_call (i : N) (r : rpc) (calls : gmap call_key vote_call) : gmap call_key vote_call :=
  match r with RpcVote p req => <[(i, p, rv_Term req) := (req, None)]> calls | _ => calls end.
Definition add_calls (i : N) (out : list rpc) (calls : gmap call_key vote_call) : gmap call_key vote_call :=
  foldr (add_call i) calls out.
Definition own_vote (i : N) (r : rpc) (votes : gset (N * N * N)) : gset (N * N * N) :=
  match r with RpcVote _ req => {[(i, rv_Term req, i)]} ∪ votes | _ => votes end.
Definition own_votes (i : N) (out : list rpc) (votes : gset (N * N * N)) : gset (N * N * N) := foldr (own_vote i) votes out.

(** The calls and votes of an election, and of nothing else. *)
Lemma add_calls_none i out calls : no_votes out -> add_calls i out calls = calls.
Proof. induction 1 as [|r out Hr _ IH]; [done|]. unfold add_calls in *. simpl. rewrite IH. by destruct r. Qed.

Lemma own_votes_none i out votes : no_votes out -> own_votes i out votes = votes.
Proof. induction 1 as [|r out Hr _ IH]; [done|]. unfold own_votes in *. simpl. rewrite IH. by destruct r. Qed.

Abbreviation asks req ps := ((fun p => RpcVote p req) <$> ps).

Lemma add_calls_lookup i req ps calls j p t :
  add_calls i (asks req ps) calls !! (j, p, t) =
    if decide (j = i /\ p ∈ ps /\ t = rv_Term req) then Some (req, None) else calls !! (j, p, t).
Proof.
  unfold add_calls. induction ps as [|q ps IH]; rewrite ?fmap_cons; cbn [foldr add_call].
  - rewrite decide_False; [done|]. by intros (_ & ?%not_elem_of_nil & _).
  - destruct (decide ((j, p, t) = (i, q, rv_Term req))) as [[= -> -> ->]|Hne].
    + rewrite lookup_insert_eq, decide_True; [done|]. split_and!; [done|by left|done].
    + rewrite lookup_insert_ne, IH by congruence. apply decide_ext. rewrite elem_of_cons. naive_solver.
Qed.

Lemma own_votes_asks i req ps votes : ps <> [] -> own_votes i (asks req ps) votes = {[(i, rv_Term req, i)]} ∪ votes.
Proof.
  intros Hne. unfold own_votes. induction ps as [|p [|p' ps] IH]; [done|done|]. cbn [fmap list_fmap foldr own_vote] in *.
  rewrite IH by done. set_solver.
Qed.

Lemma once_add (votes : gset (N * N * N)) (v t c : N) :
  (forall t' c1 c2, (v, t', c1) ∈ votes -> (v, t', c2) ∈ votes -> c1 = c2) -> (forall c', (v, t, c') ∈ votes -> c' = c) ->
  forall t' c1 c2, (v, t', c1) ∈ {[(v, t, c)]} ∪ votes -> (v, t', c2) ∈ {[(v, t, c)]} ∪ votes -> c1 = c2.
Proof. intros Ho Hc t' c1 c2. rewrite !elem_of_union, !elem_of_singleton. intros [H1|H1] [H2|H2]; simplify_eq; naive_solver. Qed.

Section cluster.
Context (Marshal : Entry -> bytes) (Unmarshal : bytes -> option Entry).
Context (Hproto : forall e, Unmarshal (Marshal e) = Some e).
(** The configuration of each node; all start from the same voters. *)
Context (cfg : N -> Config) (boot : list N).
Context (Hcfg : forall i, cfg_ID (cfg i) = i /\ cfg_Peers (cfg i) = boot) (Hboot : boot <> []).

Abbreviation C := (NewConfState boot).
Abbreviation spath := (spath Marshal).
Abbreviation npath := (npath Marshal).
Abbreviation store_path := (store_path Marshal).

Definition with_node (cl : cluster) (i : N) (n : Node) (restarted : bool) : gmap N replica :=
  <[i := mkReplica n restarted]> (cl_nodes cl).

Inductive cstep (cl : cluster) : cluster -> Prop :=
  | cs_event i r c ev out n' :
      cl_nodes cl !! i = Some r -> ordinary (rp_node r) ev -> ev_fits Marshal (rp_node r) ev ->
      exec Marshal c ev (rp_node r) = Some (out, n') -> out <> OutFault -> n_conf n' = C ->
      cstep cl (mkCluster (with_node cl i n' (rp_restarted r)) (cl_calls cl) (cl_votes cl))
  | cs_run i r c k out n' :
      cl_nodes cl !! i = Some r -> (n_term (rp_node r) + 1 < two64)%N -> run_step c k (rp_node r) = Some (out, n') ->
      cstep cl (mkCluster (with_node cl i n' (rp_restarted r)) (add_calls i out (cl_calls cl)) (own_votes i out (cl_votes cl)))
  | cs_request i j t req r c resp n' :
      cl_calls cl !! (i, j, t) = Some (req, None) -> cl_nodes cl !! j = Some r ->
      HandleRequestVote c (rp_node r) req = Some (resp, n') ->
      cstep cl (mkCluster (with_node cl j n' (rp_restarted r)) (<[(i, j, t) := (req, Some resp)]> (cl_calls cl))
                  (if rvr_VoteGranted resp then {[(j, rv_Term req, rv_CandidateId req)]} ∪ cl_votes cl else cl_votes cl))
  | cs_answer i j t req resp r c out n' :
      cl_calls cl !! (i, j, t) = Some (req, Some resp) -> cl_nodes cl !! i = Some r ->
      entry_ok Marshal (own_entry (rp_node r) [] ENTRY_NORMAL None) ->
      onVoteResponse Marshal c (rp_node r) (rv_Term req) resp = Some (out, n') ->
      cstep cl (mkCluster (with_node cl i n' (rp_restarted r)) (delete (i, j, t) (cl_calls cl)) (cl_votes cl))
  (* the requests of the crashed node stay on their way; a late answer to one finds no candidate of its term *)
  | cs_crash i r w k c n' :
      cl_nodes cl !! i = Some r -> rp_restarted r = false -> ds_wal (n_store (rp_node r)) = Some w ->
      NewNode Unmarshal c (cfg i) (ds_files (n_store (rp_node r))) (Some (crash (wal_file w) k)) = Ok n' -> n_conf n' = C ->
      cstep cl (mkCluster (with_node cl i n' true) (cl_calls cl) (cl_votes cl))
  (* Stop, whose close returns nil, and a new start on the same directory *)
  | cs_restart i r s1 w c n' :
      cl_nodes cl !! i = Some r -> rp_restarted r = false -> ds_close (n_store (rp_node r)) = Some (None, s1) -> ds_wal s1 = Some w ->
      NewNode Unmarshal c (cfg i) (ds_files (n_store (rp_node r))) (Some (reopen (wal_file w))) = Ok n' -> n_conf n' = C ->
      cstep cl (mkCluster (with_node cl i n' false) (cl_calls cl) (cl_votes cl)).

Inductive csteps (cl : cluster) : cluster -> Prop :=
  | csteps_refl : csteps cl cl
  | csteps_step cl1 cl2 : csteps cl cl1 -> cstep cl1 cl2 -> csteps cl cl2.

(** All the nodes start on empty directories. *)
Definition cluster_start (cl : cluster) : Prop :=
  cl_calls cl = ∅ /\ cl_votes cl = ∅ /\
  forall i r, cl_nodes cl !! i = Some r ->
    i <> 0%N /\ rp_restarted r = false /\ node_fits (rp_node r) /\ exists c ds ws, rp_node r = fresh_node c (cfg i) ds ws.

(** ** The storage remembers the votes *)

Definition store_inv (restarted : bool) (votes : gset (N * N * N)) (i : N) (s : diskStorage) : Prop :=
  (forall t v, (i, t, v) ∈ votes -> hard_le (t, v) (hard s)) /\
  (restarted = false -> exists h, ds_hist Marshal Unmarshal boot s h /\ forall t v q, (i, t, v) ∈ votes -> q ∈ maybe h -> hard_le (t, v) q).

(** The hard states that may be on disk after more calls. *)
Lemma maybe_more h h2 q : q ∈ maybe (h ++ h2) -> q ∈ maybe h \/ exists b, (q, b) ∈ h2.
Proof.
  unfold maybe. rewrite foldl_app. generalize (foldl maybe_step [(0%N, 0%N)] h). clear h.
  induction h2 as [|[p b] h2 IH]; intros l; [by left|]. cbn [foldl]. intros [Hq|[b' Hq]]%IH.
  - unfold maybe_step in Hq. simpl in Hq. destruct b.
    + apply list_elem_of_singleton in Hq as ->. right. exists true. by left.
    + apply elem_of_app in Hq as [Hq|Hq%list_elem_of_singleton]; [by left|subst]. right. exists false. by left.
  - right. exists b'. by right.
Qed.

Lemma store_inv_path b votes i s h s' : store_inv b votes i s -> store_path s h s' -> store_inv b votes i s'.
Proof.
  intros [H1 H2] Hp. pose proof (store_path_hard _ _ _ _ Hp) as Hle. pose proof (store_path_above _ _ _ _ Hp) as Ha. split.
  - intros t v Hv. etrans; [by apply H1|done].
  - intros Hb. destruct (H2 Hb) as (h0 & Hh & Hm). exists (h0 ++ h). split; [by eapply ds_hist_path|].
    intros t v q Hv [Hq|[b' Hq]]%maybe_more; [by eapply Hm|]. etrans; [by apply H1|].
    unfold above in Ha. eapply Forall_forall in Ha; [|exact Hq]. exact Ha.
Qed.

Lemma store_inv_vote b votes i s h t c s' :
  store_inv b votes i s -> store_path s (h ++ [(t, c, true)]) s' -> hard s' = (t, c) ->
  store_inv b ({[(i, t, c)]} ∪ votes) i s'.
Proof.
  intros Hi Hp Eh. destruct (store_inv_path _ _ _ _ _ _ Hi Hp) as [H1 _]. destruct Hi as [_ H2]. split.
  - intros t' v [[= -> ->]%elem_of_singleton|Hv]%elem_of_union; [by rewrite Eh|by apply H1].
  - intros Hb. destruct (H2 Hb) as (h0 & Hh & _). eexists. split; [by eapply ds_hist_path|].
    intros t' v q Hv. rewrite (assoc_L (++)). unfold maybe. rewrite foldl_app. cbn [foldl maybe_step snd fst].
    intros ->%list_elem_of_singleton. rewrite <-Eh. apply elem_of_union in Hv as [[= -> ->]%elem_of_singleton|Hv]; [by rewrite Eh|by apply H1].
Qed.

(** ** The votes behind a candidate and a leader *)

Record role_inv (votes : gset (N * N * N)) (calls : gmap call_key vote_call) (i : N) (n : Node) : Prop := {
  ro_calls : forall j t, (n_term n < t)%N -> calls !! (i, j, t) = None;
  ro_candidate : n_role n = candidate ->
    (forall j, calls !! (i, j, n_term n) = None) \/
    exists P : gset N, P ⊆ Voters C /\ size P = default 1 (n_votes n !! n_term n) /\
      forall p, p ∈ P -> (p, n_term n, i) ∈ votes /\ calls !! (i, p, n_term n) = None;
  ro_leader : n_role n = leader -> exists S, elects C S /\ forall p, p ∈ S -> (p, n_term n, i) ∈ votes
}.

(** No new calls of [i]. *)
Definition fewer (i : N) (calls calls' : gmap call_key vote_call) : Prop :=
  forall p t, calls !! (i, p, t) = None -> calls' !! (i, p, t) = None.

Lemma role_inv_quiet votes calls i n votes' calls' n' :
  role_inv votes calls i n -> quiet n n' -> (n_term n <= n_term n')%N -> votes ⊆ votes' -> fewer i calls calls' ->
  role_inv votes' calls' i n'.
Proof.
  intros [H1 H2 H3] Hq Hle Hv Hf. split.
  - intros j t Hlt. apply Hf, H1. lia.
  - destruct Hq as [->|[-> -> ->]]; [done|]. intros [H|(P & HP & Hs & Hall)]%H2; [left; intros j; by apply Hf|right].
    exists P. split_and!; [done|done|]. intros p [Hp1 Hp2]%Hall. split; [set_solver|by apply Hf].
  - destruct Hq as [->|[-> -> _]]; [done|]. intros (S & HS & Hall)%H3. exists S. split; [done|]. intros p Hp%Hall. set_solver.
Qed.

Record replica_inv (votes : gset (N * N * N)) (calls : gmap call_key vote_call) (i : N) (r : replica) : Prop := {
  ri_zero : i <> 0%N;
  ri_id : n_ID (rp_node r) = i;
  ri_conf : n_conf (rp_node r) = C;
  ri_fits : node_fits (rp_node r);
  ri_store : store_inv (rp_restarted r) votes i (n_store (rp_node r));
  ri_role : role_inv votes calls i (rp_node r)
}.

(** A call in flight: its answer, if it granted the vote, is a recorded vote. *)
Record call_ok (votes : gset (N * N * N)) (i j t : N) (x : vote_call) : Prop := {
  co_term : rv_Term x.1 = t;
  co_cand : rv_CandidateId x.1 = i;
  co_zero : i <> 0%N;
  co_idfits : (i < two64)%N;
  co_fits : (t < two64)%N;
  co_voter : j ∈ Voters C;
  co_own : (i, t, i) ∈ votes;
  co_answer : forall resp, x.2 = Some resp -> (rvr_Term resp < two64)%N /\ (rvr_VoteGranted resp = true -> (j, t, i) ∈ votes)
}.

Record cluster_inv (cl : cluster) : Prop := {
  ci_nodes : forall i r, cl_nodes cl !! i = Some r -> replica_inv (cl_votes cl) (cl_calls cl) i r;
  ci_calls : forall i j t x, cl_calls cl !! (i, j, t) = Some x -> call_ok (cl_votes cl) i j t x;
  ci_votes : forall v t c, (v, t, c) ∈ cl_votes cl -> c <> 0%N;
  ci_once : forall v t c c', (v, t, c) ∈ cl_votes cl -> (v, t, c') ∈ cl_votes cl -> c = c'
}.

(** ** Every step keeps the invariant *)

(** A step of node [i] alone, which may add votes of [i]. *)
Lemma update_inv cl i r' calls' votes' :
  cluster_inv cl -> cl_votes cl ⊆ votes' -> (forall v t c, (v, t, c) ∈ votes' -> v <> i -> (v, t, c) ∈ cl_votes cl) ->
  (forall k, k <> i -> fewer k (cl_calls cl) calls') -> replica_inv votes' calls' i r' ->
  (forall k j t x, calls' !! (k, j, t) = Some x -> call_ok votes' k j t x) -> (forall v t c, (v, t, c) ∈ votes' -> c <> 0%N) ->
  (forall t c c', (i, t, c) ∈ votes' -> (i, t, c') ∈ votes' -> c = c') ->
  cluster_inv (mkCluster (<[i := r']> (cl_nodes cl)) calls' votes').
Proof.
  intros [Hn _ _ Ho] Hsub Hown Hf Hr Hc Hz Honce. split; [|done..|]; simpl.
  - intros k r [[<- <-]|[Hne Hk]]%lookup_insert_Some; [done|]. destruct (Hn k r Hk) as [Z1 Z2 Z3 Z4 [S1 S2] R]. split; try done.
    + split; [intros t v Hv; apply S1; by apply Hown|]. intros Hb. destruct (S2 Hb) as (h & Hh & Hm). exists h. split; [done|].
      intros t v q Hv. apply Hm. by apply Hown.
    + eapply role_inv_quiet; [exact R|reflexivity|done|done|by apply Hf].
  - intros v t c c' Hv Hv'. destruct (decide (v = i)) as [->|Hne]; [by eapply Honce|]. eapply Ho; by apply Hown.
Qed.

Lemma call_ok_mono votes votes' i j t x : votes ⊆ votes' -> call_ok votes i j t x -> call_ok votes' i j t x.
Proof.
  intros Hs [E1 E2 Z1 Z2 Z3 V Ho H]. split; try done; [set_solver|]. intros resp Hr. destruct (H resp Hr) as [Ht Hg]. split; [done|]. intros Hgr. set_solver.
Qed.

Lemma hard_le_term p q : hard_le p q -> (p.1 <= q.1)%N.
Proof. intros [|[-> _]]; lia. Qed.

Lemma spath_term n n' : spath n n' -> (n_term n <= n_term n')%N.
Proof. intros [[h Hp] _]. apply store_path_hard, hard_le_term in Hp. exact Hp. Qed.

(** The storage, the widths, the identity and the term after a path. *)
Lemma replica_path votes calls i r n' votes' calls' :
  replica_inv votes calls i r -> spath (rp_node r) n' -> node_fits n' -> n_conf n' = C ->
  store_inv (rp_restarted r) votes' i (n_store n') -> role_inv votes' calls' i n' ->
  replica_inv votes' calls' i (mkReplica n' (rp_restarted r)).
Proof. intros [Z1 Z2 Z3 Z4 S R] [_ Ec] Hf Hc Hs Hr. split; try done. simpl. unfold n_ID in *. by rewrite Ec. Qed.

(** A quiet step of one node that adds no vote and no call. *)
Lemma quiet_step cl i r n' calls' :
  cluster_inv cl -> cl_nodes cl !! i = Some r -> spath (rp_node r) n' -> node_fits n' -> n_conf n' = C -> 
  (forall k, fewer k (cl_calls cl) calls') -> (forall k x, calls' !! k = Some x -> cl_calls cl !! k = Some x) ->
  role_inv (cl_votes cl) calls' i n' ->
  cluster_inv (mkCluster (with_node cl i n' (rp_restarted r)) calls' (cl_votes cl)).
Proof.
  intros Hi Hr Hp Hf Hc Hfew Hsub Hro. pose proof (ci_nodes _ Hi i r Hr) as Hri. apply update_inv; try done.
  - eapply replica_path; try done. destruct Hp as [[h Hp] _]. eapply store_inv_path; [apply Hri|exact Hp].
  - intros k j t x Hx. apply Hsub in Hx. by apply (ci_calls _ Hi).
  - apply (ci_votes _ Hi).
  - intros t c c'. apply (ci_once _ Hi).
Qed.

Lemma fewer_refl i calls : fewer i calls calls.
Proof. by intros p t H. Qed.

Lemma event_inv cl i r c ev out n' :
  cluster_inv cl -> cl_nodes cl !! i = Some r -> ordinary (rp_node r) ev -> ev_fits Marshal (rp_node r) ev ->
  exec Marshal c ev (rp_node r) = Some (out, n') -> out <> OutFault -> n_conf n' = C ->
  cluster_inv (mkCluster (with_node cl i n' (rp_restarted r)) (cl_calls cl) (cl_votes cl)).
Proof.
  intros Hi Hr Ho He Hx Hout Hc. pose proof (ci_nodes _ Hi i r Hr) as Hri.
  destruct (exec_quiet _ _ _ _ _ _ Ho Hx) as [Hq _]. destruct (exec_ordinary_path _ _ _ _ _ _ Ho (ri_fits _ _ _ _ Hri) He Hx) as [Hp Hf].
  eapply quiet_step; try done; [by apply Hf|intros k; apply fewer_refl|].
  eapply role_inv_quiet; [apply Hri|exact Hq|by apply spath_term|done|apply fewer_refl].
Qed.

Lemma call_delete_fewer (calls : gmap call_key vote_call) key k : fewer k calls (delete key calls).
Proof. intros p t H. apply lookup_delete_None. by right. Qed.

Lemma AllPeers_boot : AllPeers C = Voters C.
Proof. reflexivity. Qed.

Lemma answer_inv cl i j t req resp r c out n' :
  cluster_inv cl -> cl_calls cl !! (i, j, t) = Some (req, Some resp) -> cl_nodes cl !! i = Some r ->
  entry_ok Marshal (own_entry (rp_node r) [] ENTRY_NORMAL None) ->
  onVoteResponse Marshal c (rp_node r) (rv_Term req) resp = Some (out, n') ->
  cluster_inv (mkCluster (with_node cl i n' (rp_restarted r)) (delete (i, j, t) (cl_calls cl)) (cl_votes cl)).
Proof.
  intros Hi Hk Hr He Hx. pose proof (ci_nodes _ Hi i r Hr) as Hri. pose proof (ci_calls _ Hi _ _ _ _ Hk) as [E1 E2 Z1 Z2 Z3 Hv Hown Ha].
  simpl in *. destruct (Ha resp eq_refl) as [Hrt Hg]. rewrite E1 in Hx.
  pose proof (onVoteResponse_path _ _ _ _ _ _ _ Hrt He Hx) as Hp. pose proof (np_conf _ _ _ Hp) as Ec.
  destruct (npath_fits _ _ _ (ri_fits _ _ _ _ Hri) Hp) as [Hsp Hf]. rewrite (ri_conf _ _ _ _ Hri) in Ec.
  eapply quiet_step; try done; [intros k; apply call_delete_fewer|by intros k x [_ ?]%lookup_delete_Some|].
  destruct (onVoteResponse_roles _ _ _ _ _ _ _ Hx) as [[Hq|votes Hrole Ht Hgr Evotes Et' Hcase] _].
  { eapply role_inv_quiet; [apply Hri|exact Hq|by apply spath_term|done|apply call_delete_fewer]. }
  destruct (ri_role _ _ _ _ Hri) as [R1 R2 _]. destruct (R2 Hrole) as [Hno|(P & HP & Hs & Hall)].
  { specialize (Hno j). rewrite Ht in Hno. congruence. }
  rewrite Ht in *. assert (j ∉ P) as Hj by (intros [_ Hj]%Hall; congruence).
  assert ({[j]} ∪ P ⊆ Voters C) as Hsub by (apply union_subseteq; split; [by apply singleton_subseteq_l|done]).
  assert (size ({[j]} ∪ P) = votes) as Hsz by (rewrite size_union by set_solver; rewrite size_singleton; lia).
  assert (forall p, p ∈ {[j]} ∪ P -> (p, t, i) ∈ cl_votes cl /\ delete (i, j, t) (cl_calls cl) !! (i, p, t) = None) as Hall'.
  { intros p [->%elem_of_singleton|[Hp1 Hp2]%Hall]%elem_of_union; [split; [by apply Hg|apply lookup_delete_eq]|].
    split; [done|]. by apply call_delete_fewer. }
  split; rewrite Et'.
  - intros j' t' Hlt. by apply call_delete_fewer, R1.
  - intros Er. destruct Hcase as [[_ Ev]|[Er' _]]; [|congruence]. right. exists ({[j]} ∪ P).
    split; [done|]. split; [by rewrite Ev|done].
  - intros Er. destruct Hcase as [[Er' _]|[_ Hq]]; [congruence|]. exists ({[j]} ∪ P). split; [|intros p Hp'; by apply Hall'].
    rewrite (ri_conf _ _ _ _ Hri) in Hq. split; [|by rewrite Hsz]. by rewrite AllPeers_boot.
Qed.

(** A node that starts an election: its own vote is stored before anyone is asked. *)
Lemma asked_inv cl i r c k n' req :
  cluster_inv cl -> cl_nodes cl !! i = Some r -> spath (rp_node r) n' -> node_fits n' -> n_conf n' = C ->
  let ps := filter (fun p => p <> n_ID (rp_node r)) (peerIDsLocked (rp_node r)) in
  run_step c k (rp_node r) = Some (asks req ps, n') -> 
  rv_Term req = (n_term (rp_node r) + 1)%N -> (rv_Term req < two64)%N -> rv_CandidateId req = n_ID (rp_node r) ->
  n_ID (rp_node r) ∈ Voters (n_conf (rp_node r)) -> n_role n' = candidate -> n_term n' = rv_Term req ->
  n_votes n' !! rv_Term req = Some 1 -> setHardState (n_store (rp_node r)) (rv_Term req) (n_ID (rp_node r)) = Some (None, n_store n') ->
  cluster_inv (mkCluster (with_node cl i n' (rp_restarted r)) (add_calls i (asks req ps) (cl_calls cl)) (own_votes i (asks req ps) (cl_votes cl))).
Proof.
  intros Hi Hr Hp Hf Hc ps _ Et Hlt Ec Hv Er Et' Ev Eh. pose proof (ci_nodes _ Hi i r Hr) as Hri. pose proof Hri as [Z1 Z2 Z3 [Z4 _ _ _] [S1 _] [R1 _ _]].
  rewrite Z2 in *. rewrite Z3 in Hv. assert (forall p, p ∈ ps -> p ∈ Voters C) as Hps.
  { intros p [_ Hp']%list_elem_of_filter. unfold peerIDsLocked in Hp'. rewrite Z3 in Hp'. unfold AllPeerIDs in Hp'. simpl in Hp'. by apply elem_of_sortedKeys in Hp'. }
  assert (i ∉ ps) as Hni by (by intros [? _]%list_elem_of_filter).
  assert (forall j, cl_calls cl !! (i, j, rv_Term req) = None) as Hnew by (intros j; apply R1; lia).
  destruct (decide (ps = [])) as [->|Hne].
  { eapply quiet_step; try done; [intros k'; apply fewer_refl|]. split; [intros j t Ht; apply R1; lia| |congruence]. intros _. left. intros j. rewrite Et'. apply Hnew. }
  rewrite own_votes_asks by done. set (votes' := {[(i, rv_Term req, i)]} ∪ cl_votes cl). assert (cl_votes cl ⊆ votes') as Hsub by (unfold votes'; set_solver).
  assert (store_path (n_store (rp_node r)) ([] ++ [(rv_Term req, i, true)]) (n_store n')) as Hpath.
  { apply path_one. refine (st_hard _ _ _ _ None _ _ Hlt Z4 Eh). left. simpl. unfold n_term in *. lia. }
  apply update_inv; try done.
  - intros v t c' [[= -> -> ->]%elem_of_singleton|?]%elem_of_union ?; done.
  - intros j Hj p t Hnone. rewrite add_calls_lookup, decide_False; [done|]. by intros [-> _].
  - eapply replica_path; [exact Hri|done..| |].
    + eapply store_inv_vote; [apply Hri|exact Hpath|]. by apply setHardState_mem in Eh as [w ->].
    + split; rewrite ?Et'; [| |congruence].
      * intros j t Ht. rewrite add_calls_lookup, decide_False by (intros (_ & _ & ->); lia). apply R1. lia.
      * intros _. right. exists {[i]}. rewrite Ev, size_singleton. split_and!; [by apply singleton_subseteq_l|done|].
        intros p ->%elem_of_singleton. split; [unfold votes'; set_solver|]. rewrite add_calls_lookup, decide_False; [done|]. by intros (_ & Hq & _).
  - intros k' j t x. rewrite add_calls_lookup. case_decide as Hd.
    + destruct Hd as (-> & Hpp & ->). intros [= <-]. split; simpl; try done; [by apply Hps|unfold votes'; set_solver].
    + intros Hx. eapply call_ok_mono; [exact Hsub|]. by apply (ci_calls _ Hi).
  - intros v t c' [[= -> -> ->]%elem_of_singleton|Hx]%elem_of_union; [done|by eapply (ci_votes _ Hi)].
  - apply once_add; [intros t c1 c2; apply (ci_once _ Hi)|].
    intros c' Hx%S1%hard_le_term. unfold n_term in *. simpl in Hx. lia.
Qed.

Lemma run_inv cl i r c k out n' :
  cluster_inv cl -> cl_nodes cl !! i = Some r -> (n_term (rp_node r) + 1 < two64)%N -> run_step c k (rp_node r) = Some (out, n') ->
  cluster_inv (mkCluster (with_node cl i n' (rp_restarted r)) (add_calls i out (cl_calls cl)) (own_votes i out (cl_votes cl))).
Proof.
  intros Hi Hr Hlt Hx. pose proof (ci_nodes _ Hi i r Hr) as Hri. pose proof Hri as [Z1 Z2 Z3 Z4 S [R1 R2 R3]].
  pose proof (run_step_path Marshal _ _ _ _ _ Hlt (nf_id _ Z4) Hx) as Hp.
  pose proof (np_conf _ _ _ Hp) as Ec. destruct (npath_fits _ _ _ Z4 Hp) as [Hsp Hf]. rewrite Z3 in Ec.
  destruct (run_step_roles _ _ _ _ _ Hlt Hx) as [Hk Ho|Er Et ->|req Et Eid Hv -> Er Et' Ev Eh].
  - rewrite add_calls_none, own_votes_none by done. eapply quiet_step; try done; [intros k'; apply fewer_refl|].
    eapply role_inv_quiet; [by split|by right|by apply spath_term|done|apply fewer_refl].
  - eapply quiet_step; try done; [intros k'; apply fewer_refl|]. split; [intros j t Ht; apply R1; lia| |congruence]. intros _. left. intros j. apply R1. lia.
  - eapply asked_inv; try done. lia.
Qed.

(** The answer of HandleRequestVote carries the term it leaves the node in. *)
Lemma HandleRequestVote_term c n req resp n' : HandleRequestVote c n req = Some (resp, n') -> rvr_Term resp = n_term n'.
Proof.
  unfold HandleRequestVote. intros E. peel E. clear Em. rename r into n1.
  destruct (_ <? _)%N; [by injection E as <- <-|]. destruct (negb _); [by injection E as <- <-|]. peel E. destruct r as [lt ok].
  destruct (_ && _); [|by injection E as <- <-]. peel E. destruct r as [err s]. apply setHardState_mem in Em0 as [w ->].
  destruct err; [by injection E as <- <-|]. rewind E. by injection E as <- <-.
Qed.

Lemma call_update_fewer (calls : gmap call_key vote_call) key x y k : calls !! key = Some x -> fewer k calls (<[key := y]> calls).
Proof. intros Hk p t H. rewrite lookup_insert_ne; [done|]. intros Ek. rewrite Ek in Hk. congruence. Qed.

Lemma request_inv cl i j t req r c resp n' :
  cluster_inv cl -> cl_calls cl !! (i, j, t) = Some (req, None) -> cl_nodes cl !! j = Some r ->
  HandleRequestVote c (rp_node r) req = Some (resp, n') ->
  cluster_inv (mkCluster (with_node cl j n' (rp_restarted r)) (<[(i, j, t) := (req, Some resp)]> (cl_calls cl))
                (if rvr_VoteGranted resp then {[(j, rv_Term req, rv_CandidateId req)]} ∪ cl_votes cl else cl_votes cl)).
Proof.
  intros Hi Hk Hr Hx. pose proof (ci_nodes _ Hi j r Hr) as Hri. pose proof Hri as [Z1 Z2 Z3 Z4 S R].
  pose proof (ci_calls _ Hi _ _ _ _ Hk) as [Et Ei Y1 Y2 Y3 Hv Ho _]. simpl in *. subst t i.
  pose proof (HandleRequestVote_path Marshal _ _ _ _ _ Y3 Y2 (nf_term _ Z4) Hx) as Hp.
  pose proof (np_conf _ _ _ Hp) as Ec. destruct (npath_fits _ _ _ Z4 Hp) as [Hsp Hf]. rewrite Z3 in Ec.
  pose proof (HandleRequestVote_term _ _ _ _ _ Hx) as Ert.
  set (votes' := if rvr_VoteGranted resp then _ else _). assert (cl_votes cl ⊆ votes') as Hsub by (unfold votes'; destruct (rvr_VoteGranted resp); set_solver).
  apply update_inv; [done|done| |intros k _; by eapply call_update_fewer| | | |].
  - intros v t c'. unfold votes'. destruct (rvr_VoteGranted resp); [|done]. intros [[= -> -> ->]%elem_of_singleton|?]%elem_of_union ?; done.
  - eapply replica_path; [exact Hri|done..| |].
    + unfold votes'. destruct (rvr_VoteGranted resp) eqn:Eg.
      * destruct (granted_path Marshal _ _ _ _ _ Y3 Y2 (nf_term _ Z4) Hx Eg) as (h & Hh & Ehard). by eapply store_inv_vote.
      * destruct Hsp as [[h Hh] _]. by eapply store_inv_path.
    + eapply role_inv_quiet; [exact R|by eapply HandleRequestVote_quiet|by apply spath_term|done|by eapply call_update_fewer].
  - intros k p t x [[[= <- <- <-] <-]|[_ Hx']]%lookup_insert_Some; [|eapply call_ok_mono; [exact Hsub|by apply (ci_calls _ Hi)]].
    split; simpl; try done; [set_solver|]. intros resp' [= <-]. split; [rewrite Ert; apply (nf_term _ Hf)|]. intros Eg. unfold votes'. rewrite Eg. set_solver.
  - intros v t c'. unfold votes'. destruct (rvr_VoteGranted resp); [|apply (ci_votes _ Hi)].
    intros [[= -> -> ->]%elem_of_singleton|?]%elem_of_union; [done|by eapply (ci_votes _ Hi)].
  - unfold votes'. destruct (rvr_VoteGranted resp) eqn:Eg; [|intros t c1 c2; apply (ci_once _ Hi)].
    apply once_add; [intros t c1 c2; apply (ci_once _ Hi)|]. intros c' Hc'. symmetry.
    refine (vote_kept _ _ _ _ _ _ c' (proj1 S _ _ Hc') _ eq_refl Hx Eg). by eapply (ci_votes _ Hi).
Qed.

(** The terms of a history fit their width. *)
Lemma ds_hist_width s h : ds_hist Marshal Unmarshal boot s h -> Forall (fun q => (q.1 < two64)%N) (maybe h).
Proof.
  induction 1; try done; [by repeat constructor|]. unfold maybe. rewrite foldl_app. cbn [foldl]. fold (maybe h). unfold maybe_step. simpl.
  destruct err; [apply Forall_app; split; [done|]|]; by constructor.
Qed.

(** A new process on the directory of a node: its storage opens with a hard state
    that may have been on disk. *)
Lemma started_inv cl i r b h files wal s' c n' :
  cluster_inv cl -> cl_nodes cl !! i = Some r -> ds_hist Marshal Unmarshal boot (n_store (rp_node r)) h ->
  (forall t v q, (i, t, v) ∈ cl_votes cl -> q ∈ maybe h -> hard_le (t, v) q) ->
  openDiskStorage Unmarshal files wal boot = Ok s' -> hard s' ∈ maybe h -> (b = false -> ds_hist Marshal Unmarshal boot s' h) ->
  NewNode Unmarshal c (cfg i) files wal = Ok n' -> n_conf n' = C ->
  cluster_inv (mkCluster (with_node cl i n' b) (cl_calls cl) (cl_votes cl)).
Proof using Hproto Hcfg Hboot.
  intros Hi Hr Hh Hm Ho Hin Hb Hx Hc. pose proof (ci_nodes _ Hi i r Hr) as Hri. pose proof Hri as [Z1 Z2 Z3 [Zi Zt Zc Zm] _ R].
  unfold NewNode in Hx. destruct (Hcfg i) as [Eid Epeers]. change (cfg_Peers (fill (cfg i))) with (cfg_Peers (cfg i)) in Hx. rewrite Epeers, Ho in Hx.
  cbn [rbind] in Hx. destruct (resetElectionTimerLocked c _) as [nr|] eqn:Er; [|done]. injection Hx as <-. apply reset_inv in Er as [Htm [d ->]].
  apply update_inv; try done.
  - intros k' _. apply fewer_refl.
  - split; simpl; try done.
    + split; simpl; [unfold n_ID; simpl; rewrite Eid; by rewrite <-Z2| |rewrite Z3 in Zc; change (conf_fits (ds_conf s')); by rewrite (Hc : ds_conf s' = C)|exact Htm].
      pose proof (ds_hist_width _ _ Hh) as Hall. eapply Forall_forall in Hall; [|exact Hin]. exact Hall.
    + split; [|intros Eb; exists h; split; [by apply Hb|exact Hm]]. intros t v Hv. eapply Hm; [exact Hv|exact Hin].
    + split; [|done..]. intros j t Hlt. apply eq_None_not_Some. intros [x Hcall].
      pose proof (Hm _ _ _ (co_own _ _ _ _ _ (ci_calls _ Hi _ _ _ _ Hcall)) Hin) as Hle%hard_le_term. unfold n_term in Hlt. simpl in *. lia.
  - apply (ci_calls _ Hi).
  - apply (ci_votes _ Hi).
  - intros t c1 c2. apply (ci_once _ Hi).
Qed.

Lemma crash_inv cl i r w k c n' :
  cluster_inv cl -> cl_nodes cl !! i = Some r -> rp_restarted r = false -> ds_wal (n_store (rp_node r)) = Some w ->
  NewNode Unmarshal c (cfg i) (ds_files (n_store (rp_node r))) (Some (crash (wal_file w) k)) = Ok n' -> n_conf n' = C ->
  cluster_inv (mkCluster (with_node cl i n' true) (cl_calls cl) (cl_votes cl)).
Proof using Hproto Hcfg Hboot.
  intros Hi Hr Hb Hw Hx Hc. destruct (ri_store _ _ _ _ (ci_nodes _ Hi i r Hr)) as [_ S2]. destruct (S2 Hb) as (h & Hh & Hm).
  destruct (hard_state_recovers Marshal Unmarshal Hproto _ _ _ w k Hh Hw) as (s' & Ho & Hin). by eapply started_inv.
Qed.

Lemma restart_inv cl i r s1 w c n' :
  cluster_inv cl -> cl_nodes cl !! i = Some r -> rp_restarted r = false -> ds_close (n_store (rp_node r)) = Some (None, s1) -> ds_wal s1 = Some w ->
  NewNode Unmarshal c (cfg i) (ds_files (n_store (rp_node r))) (Some (reopen (wal_file w))) = Ok n' -> n_conf n' = C ->
  cluster_inv (mkCluster (with_node cl i n' false) (cl_calls cl) (cl_votes cl)).
Proof using Hproto Hcfg Hboot.
  intros Hi Hr Hb Hcl Hw Hx Hc. destruct (ri_store _ _ _ _ (ci_nodes _ Hi i r Hr)) as [_ S2]. destruct (S2 Hb) as (h & Hh & Hm).
  destruct (openDiskStorage Unmarshal (ds_files (n_store (rp_node r))) (Some (reopen (wal_file w))) boot) as [s'| |] eqn:Ho.
  - pose proof (hist_reopen _ _ _ _ _ _ _ _ Hh Hcl Hw Ho) as Hh'. destruct (ds_hist_inv _ _ Hproto _ _ _ Hh') as (rs & k & Hin).
    eapply started_inv; [exact Hi|exact Hr|exact Hh|exact Hm|exact Ho|apply Hin|done|exact Hx|exact Hc].
  - unfold NewNode in Hx. change (cfg_Peers (fill (cfg i))) with (cfg_Peers (cfg i)) in Hx. by rewrite (proj2 (Hcfg i)), Ho in Hx.
  - unfold NewNode in Hx. change (cfg_Peers (fill (cfg i))) with (cfg_Peers (cfg i)) in Hx. by rewrite (proj2 (Hcfg i)), Ho in Hx.
Qed.

Lemma cstep_inv cl cl' : cluster_inv cl -> cstep cl cl' -> cluster_inv cl'.
Proof using Hproto Hcfg Hboot.
  intros Hi. destruct 1; [by eapply event_inv|by eapply run_inv|by eapply request_inv|by eapply answer_inv|by eapply crash_inv|by eapply restart_inv].
Qed.

Lemma csteps_inv cl cl' : cluster_inv cl -> csteps cl cl' -> cluster_inv cl'.
Proof using Hproto Hcfg Hboot. intros Hi. induction 1; [done|]. by eapply cstep_inv. Qed.

Lemma start_inv cl : cluster_start cl -> cluster_inv cl.
Proof using Hcfg.
  intros (Ec & Ev & Hn). split; rewrite ?Ec, ?Ev; try done. intros i r Hr. destruct (Hn i r Hr) as (Hz & Hb & Hf & c & ds & ws & En).
  destruct (Hcfg i) as [Eid Epeers]. destruct (fresh_node_eq c (cfg i) ds ws) as [d Ed]. split; try done; rewrite En, Ed; simpl.
  - done.
  - by rewrite Epeers.
  - split; [done|]. intros _. exists []. split; [rewrite Epeers; constructor|done].
  - by split.
Qed.

(** Votes are never forgotten. *)
Lemma own_votes_sub i out votes : votes ⊆ own_votes i out votes.
Proof. unfold own_votes. induction out as [|[p req|p req|p req] out IH]; simpl; set_solver. Qed.

Lemma csteps_votes cl cl' : csteps cl cl' -> cl_votes cl ⊆ cl_votes cl'.
Proof.
  induction 1 as [|cl1 cl2 _ IH Hs]; [done|]. etrans; [exact IH|]. destruct Hs; simpl; try done; [apply own_votes_sub|].
  destruct (rvr_VoteGranted resp); set_solver.
Qed.

(** C2. Election safety: in a run of the cluster from empty directories, with any
    interleaving of the nodes' critical sections, any loss and delay of votes,
    any device failures outside snapshots, and of each node any number of clean
    stops and restarts and then a crash at any point, no two nodes are ever leaders
    of the same term, at the same time or one after the other. The membership is
    fixed. *)
Theorem election_safety cl0 cl1 cl2 i j ri rj :
  cluster_start cl0 -> csteps cl0 cl1 -> csteps cl1 cl2 ->
  cl_nodes cl1 !! i = Some ri -> n_role (rp_node ri) = leader ->
  cl_nodes cl2 !! j = Some rj -> n_role (rp_node rj) = leader ->
  n_term (rp_node ri) = n_term (rp_node rj) -> i = j.
Proof using Hproto Hcfg Hboot.
  intros H0 H1 H2 Hi Hli Hj Hlj Ht. pose proof (csteps_inv _ _ (start_inv _ H0) H1) as I1. pose proof (csteps_inv _ _ I1 H2) as I2.
  destruct (ro_leader _ _ _ _ (ri_role _ _ _ _ (ci_nodes _ I1 _ _ Hi)) Hli) as (S1 & HS1 & Hv1).
  destruct (ro_leader _ _ _ _ (ri_role _ _ _ _ (ci_nodes _ I2 _ _ Hj)) Hlj) as (S2 & HS2 & Hv2).
  assert (conf_ok C) as Hok by (eapply conf_reach_ok; [exact Hboot|constructor]).
  destruct (quorums_intersect C C S1 S2 (grows_refl _) (elects_quorum _ _ Hok HS1) (elects_quorum _ _ Hok HS2)) as (v & Hx1 & Hx2).
  apply Hv1 in Hx1. apply Hv2 in Hx2. apply (csteps_votes _ _ H2) in Hx1. rewrite Ht in Hx1. by eapply (ci_once _ I2).
Qed.

End cluster.

(** ** Witness: node 1 of three is elected in term 1 by the vote of node 2 *)

Definition three_cfg (i : N) : Config := sample_cfg i.
Definition three_node (i : N) : replica := mkReplica (fresh_node clock0 (three_cfg i) [] []) false.
Definition three0 : cluster := mkCluster (<[1%N := three_node 1]> (<[2%N := three_node 2]> {[3%N := three_node 3]})) ∅ ∅.

Definition late : clock := mkClock (1000 * Millisecond) 0.
Definition asked : list rpc * Node := default ([], rp_node (three_node 1)) (run_step late false (rp_node (three_node 1))).
Definition ask2 : RequestVoteRequest := mkVoteReq 1 1 0 0.
Definition three1 : cluster :=
  mkCluster (with_node three0 1 asked.2 false) (add_calls 1 asked.1 (cl_calls three0)) (own_votes 1 asked.1 (cl_votes three0)).
Definition yes2 : RequestVoteResponse := mkVoteResp 1 true.
Definition voted2 : Node := node_of (rp_node (three_node 2)) (HandleRequestVote clock0 (rp_node (three_node 2)) ask2).
Definition three2 : cluster :=
  mkCluster (with_node three1 2 voted2 false) (<[(1, 2, 1)%N := (ask2, Some yes2)]> (cl_calls three1)) ({[(2, 1, 1)%N]} ∪ cl_votes three1).
Definition elected : Node := node_of asked.2 (onVoteResponse sample_Marshal late asked.2 1 yes2).
Definition three3 : cluster := mkCluster (with_node three2 1 elected false) (delete (1, 2, 1)%N (cl_calls three2)) (cl_votes three2).

Lemma three_start : cluster_start three_cfg three0.
Proof.
  split; [done|]. split; [done|]. intros i r Hr.
  assert (exists i', i = i' /\ r = three_node i' /\ (i' = 1 \/ i' = 2 \/ i' = 3)%N) as (i' & -> & -> & Hi).
  { unfold three0 in Hr. simpl in Hr. repeat (apply lookup_insert_Some in Hr as [[<- <-]|[_ Hr]]; [eexists; by auto|]).
    apply lookup_singleton_Some in Hr as [<- <-]. eexists; by auto. }
  split; [lia|]. split; [done|]. split; [|by do 3 eexists].
  destruct voter0_fits as [_ _ Hc _]. split; [destruct Hi as [->|[->| ->]]; reflexivity|reflexivity|exact Hc|reflexivity].
Qed.

Lemma three_run : csteps sample_Marshal sample_Unmarshal three_cfg [1; 2; 3]%N three0 three3.
Proof.
  eapply csteps_step; [eapply csteps_step; [eapply csteps_step; [constructor|]|]|].
  - apply (cs_run _ _ _ _ three0 1 (three_node 1) late false asked.1 asked.2); [reflexivity|vm_compute; reflexivity|vm_compute; reflexivity].
  - apply (cs_request _ _ _ _ three1 1 2 1 ask2 (three_node 2) clock0 yes2 voted2); vm_compute; reflexivity.
  - apply (cs_answer _ _ _ _ three2 1 2 1 ask2 yes2 (mkReplica asked.2 false) late
             (match onVoteResponse sample_Marshal late asked.2 1 yes2 with Some (o, _) => o | None => [] end) elected).
    + vm_compute; reflexivity.
    + vm_compute; reflexivity.
    + repeat split; vm_compute; reflexivity.
    + vm_compute; reflexivity.
Qed.

Lemma election_safety_witness :
  n_role elected = leader /\ n_term elected = 1%N /\
  forall cl2 j rj, csteps sample_Marshal sample_Unmarshal three_cfg [1; 2; 3]%N three3 cl2 ->
    cl_nodes cl2 !! j = Some rj -> n_role (rp_node rj) = leader -> n_term (rp_node rj) = 1%N -> 1%N = j.
Proof.
  split; [vm_compute; reflexivity|]. split; [vm_compute; reflexivity|]. intros cl2 j rj Hs Hj Hl Ht.
  apply (election_safety sample_Marshal sample_Unmarshal sample_roundtrip three_cfg [1; 2; 3]%N (fun i => conj eq_refl eq_refl)
           ltac:(discriminate) three0 three3 cl2 1 j (mkReplica elected false) rj).
  - apply three_start.
  - apply three_run.
  - exact Hs.
  - vm_compute; reflexivity.
  - vm_compute; reflexivity.
  - exact Hj.
  - exact Hl.
  - rewrite Ht. vm_compute; reflexivity.
Defined.
