(* ===== verification/RaftSpec.v ===== *)
(** raft/node.go: the protocol behind the node, as an abstract specification. A
    log is a list of entries with a term; a node has a term, a log and the logs a
    crash may bring back; the rest of the state is history (who asked for votes
    with which log, who voted, led, acknowledged and committed what). Replication
    proves that a cluster of nodes implements it. *)

From S2P Require Import Prelude.

Section raft.
Context {E : Type} `{Hdec : !EqDecision E} (term : E -> N).
Context (quorum : gset N -> Prop).
Context (Hquorum : forall S1 S2, quorum S1 -> quorum S2 -> exists v, v ∈ S1 /\ v ∈ S2).

Abbreviation log := (list E).

(** The term of the last entry, zero for the empty log. *)
Definition last_term (l : log) : N := default 0%N (term <$> last l).

Lemma last_term_snoc l e : last_term (l ++ [e]) = term e.
Proof. unfold last_term. by rewrite last_snoc. Qed.

Lemma last_term_nil : last_term [] = 0%N.
Proof. done. Qed.

(** The check a voter makes of a candidate's log. *)
Definition up_to_date (mine theirs : log) : Prop :=
  (last_term mine < last_term theirs)%N \/ last_term mine = last_term theirs /\ length mine <= length theirs.

Definition comparable (p q : log) : Prop := p `prefix_of` q \/ q `prefix_of` p.

Record raft := mkRaft {
  r_term : N -> N;
  r_log : N -> log;
  r_disk : N -> log -> Prop;
  r_active : N -> bool;
  r_made : log -> Prop;
  r_asked : N -> N -> log -> Prop;
  r_voted : N -> N -> N -> Prop;
  r_led : N -> N -> log -> Prop;
  r_acked : N -> N -> log -> Prop;
  r_committed : N -> log -> Prop
}.

Definition upd {A} (f : N -> A) (v : N) (a : A) : N -> A := fun w => if decide (w = v) then a else f w.

Lemma upd_same {A} (f : N -> A) v a : upd f v a v = a.
Proof. unfold upd. by rewrite decide_True. Qed.

Lemma upd_other {A} (f : N -> A) v a w : w <> v -> upd f v a w = f w.
Proof. intros H. unfold upd. by rewrite decide_False. Qed.

(** ** Steps *)

(** A prefix of the log of the leader of term [t]: of the log it was elected with,
    or one it made in its term. *)
Definition on_chain (st : raft) (t : N) (q : log) : Prop :=
  exists c y, r_led st t c y /\ (q `prefix_of` y \/ r_made st q /\ last_term q = t).

Definition go_term (st : raft) (v t : N) : raft :=
  mkRaft (upd (r_term st) v t) (r_log st) (r_disk st) (upd (r_active st) v (r_active st v && bool_decide (r_term st v = t)))
    (r_made st) (r_asked st) (r_voted st) (r_led st) (r_acked st) (r_committed st).
Definition add_asked (st : raft) (t c : N) (y : log) : raft :=
  mkRaft (r_term st) (r_log st) (r_disk st) (r_active st) (r_made st)
    (fun t' c' y' => r_asked st t' c' y' \/ t' = t /\ c' = c /\ y' = y) (r_voted st) (r_led st) (r_acked st) (r_committed st).
Definition add_voted (st : raft) (v t c : N) : raft :=
  mkRaft (r_term st) (r_log st) (r_disk st) (r_active st) (r_made st) (r_asked st)
    (fun v' t' c' => r_voted st v' t' c' \/ v' = v /\ t' = t /\ c' = c) (r_led st) (r_acked st) (r_committed st).
Definition add_led (st : raft) (t c : N) (y : log) : raft :=
  mkRaft (r_term st) (r_log st) (r_disk st) (upd (r_active st) c true) (r_made st) (r_asked st) (r_voted st)
    (fun t' c' y' => r_led st t' c' y' \/ t' = t /\ c' = c /\ y' = y) (r_acked st) (r_committed st).
Definition add_acked (st : raft) (v t : N) (q : log) : raft :=
  mkRaft (r_term st) (r_log st) (r_disk st) (r_active st) (r_made st) (r_asked st) (r_voted st) (r_led st)
    (fun v' t' q' => r_acked st v' t' q' \/ v' = v /\ t' = t /\ q' = q) (r_committed st).
Definition add_committed (st : raft) (t : N) (x : log) : raft :=
  mkRaft (r_term st) (r_log st) (r_disk st) (r_active st) (r_made st) (r_asked st) (r_voted st) (r_led st) (r_acked st)
    (fun t' x' => r_committed st t' x' \/ t' = t /\ x' = x).
Definition add_made (st : raft) (p : log) : raft :=
  mkRaft (r_term st) (r_log st) (r_disk st) (r_active st) (fun p' => r_made st p' \/ p' = p) (r_asked st) (r_voted st) (r_led st)
    (r_acked st) (r_committed st).
(** A new log, not yet known to be on disk. *)
Definition write_log (st : raft) (v : N) (l : log) : raft :=
  mkRaft (r_term st) (upd (r_log st) v l) (upd (r_disk st) v (fun l' => r_disk st v l' \/ l' = l)) (r_active st) (r_made st)
    (r_asked st) (r_voted st) (r_led st) (r_acked st) (r_committed st).
Definition sync_log (st : raft) (v : N) : raft :=
  mkRaft (r_term st) (r_log st) (upd (r_disk st) v (fun l' => l' = r_log st v)) (r_active st) (r_made st)
    (r_asked st) (r_voted st) (r_led st) (r_acked st) (r_committed st).
Definition crash_log (st : raft) (v : N) (l : log) : raft :=
  mkRaft (r_term st) (upd (r_log st) v l) (upd (r_disk st) v (fun l' => l' = l)) (upd (r_active st) v false) (r_made st)
    (r_asked st) (r_voted st) (r_led st) (r_acked st) (r_committed st).

(** What a follower may make of its log [l] on a message that carries [q]: keep
    it, or give up what disagrees with [q] for a part of [q]. *)
Definition adopts (l q l' : log) : Prop :=
  l' = l \/ ~ q `prefix_of` l /\ l' `prefix_of` q /\ forall p, p `prefix_of` l -> p `prefix_of` q -> p `prefix_of` l'.

Inductive raft_step (st : raft) : raft -> Prop :=
  | rf_term v t : (r_term st v <= t)%N -> raft_step st (go_term st v t)
  | rf_elect v t :
      t = (r_term st v + 1)%N -> raft_step st (add_voted (add_asked (go_term st v t) t v (r_log st v)) v t v)
  | rf_vote v t c y :
      r_term st v = t -> r_asked st t c y -> up_to_date (r_log st v) y ->
      (forall c', r_voted st v t c' -> c' = c) -> raft_step st (add_voted st v t c)
  | rf_lead t c S :
      r_term st c = t -> r_asked st t c (r_log st c) -> quorum S -> (forall p, p ∈ S -> r_voted st p t c) ->
      (forall y, ~ r_led st t c y) -> raft_step st (add_led st t c (r_log st c))
  | rf_append c t y e :
      r_led st t c y -> r_term st c = t -> r_active st c = true -> term e = t ->
      raft_step st (write_log (add_made st (r_log st c ++ [e])) c (r_log st c ++ [e]))
  | rf_receive v t q l :
      r_term st v = t -> on_chain st t q -> (forall y, ~ r_led st t v y) -> adopts (r_log st v) q l ->
      raft_step st (write_log st v l)
  | rf_sync v : raft_step st (sync_log st v)
  | rf_crash v l : r_disk st v l -> raft_step st (crash_log st v l)
  | rf_ack v t q :
      r_term st v = t -> on_chain st t q -> (forall l, r_disk st v l -> q `prefix_of` l) -> raft_step st (add_acked st v t q)
  | rf_commit t c y x S :
      r_led st t c y -> r_made st x -> last_term x = t -> quorum S ->
      (forall p, p ∈ S -> exists q, r_acked st p t q /\ x `prefix_of` q) -> raft_step st (add_committed st t x).

Inductive raft_steps (st : raft) : raft -> Prop :=
  | raft_refl : raft_steps st st
  | raft_more st1 st2 : raft_steps st st1 -> raft_step st1 st2 -> raft_steps st st2.

Definition raft_start (st : raft) : Prop :=
  (forall v, r_log st v = []) /\ (forall v l, r_disk st v l <-> l = []) /\
  (forall p, ~ r_made st p) /\ (forall t c y, ~ r_asked st t c y) /\ (forall v t c, ~ r_voted st v t c) /\
  (forall t c y, ~ r_led st t c y) /\ (forall v t q, ~ r_acked st v t q) /\ (forall t x, ~ r_committed st t x).

(** ** The invariant *)

(** A leader of a term in (lo, hi] was elected without [x] in its log. *)
Definition misses (st : raft) (x : log) (lo hi : N) : Prop :=
  exists t c y, (lo < t <= hi)%N /\ r_led st t c y /\ ~ x `prefix_of` y.

(** A prefix that its node acknowledged in the term it was made. *)
Definition stamped (t : N) (q x : log) : Prop := x `prefix_of` q /\ last_term x = t /\ x <> [].

Record raft_inv (st : raft) : Prop := {
  iv_prefix : forall p p', r_made st p -> p' `prefix_of` p -> p' <> [] -> r_made st p';
  iv_made : forall p, r_made st p ->
    exists p0 e c y, p = p0 ++ [e] /\ r_led st (term e) c y /\ y `prefix_of` p0 /\ (p0 = y \/ last_term p0 = term e);
  iv_same : forall p p', r_made st p -> r_made st p' -> last_term p = last_term p' -> comparable p p';
  iv_asked : forall t c y, r_asked st t c y -> (t <= r_term st c)%N /\ (last_term y < t)%N /\ (y = [] \/ r_made st y);
  iv_asked1 : forall t c y y', r_asked st t c y -> r_asked st t c y' -> y = y';
  iv_voted : forall v t c, r_voted st v t c -> (t <= r_term st v)%N /\ exists y, r_asked st t c y;
  iv_once : forall v t c c', r_voted st v t c -> r_voted st v t c' -> c = c';
  iv_votes : forall v t c y t1 q x, r_voted st v t c -> r_asked st t c y -> r_acked st v t1 q -> (t1 < t)%N ->
    stamped t1 q x -> x `prefix_of` y \/ misses st x t1 t;
  iv_led : forall t c y, r_led st t c y -> r_asked st t c y /\
    exists S, quorum S /\ forall p, p ∈ S -> r_voted st p t c /\
      forall t1 q x, r_acked st p t1 q -> (t1 < t)%N -> stamped t1 q x -> x `prefix_of` y \/ misses st x t1 (t - 1);
  iv_log : forall v, r_disk st v (r_log st v);
  iv_disk : forall v l, r_disk st v l -> (l = [] \/ r_made st l) /\ (last_term l <= r_term st v)%N;
  iv_active : forall c y, r_active st c = true -> r_led st (r_term st c) c y ->
    y `prefix_of` r_log st c /\ (r_log st c = y \/ last_term (r_log st c) = r_term st c) /\
    forall p, r_made st p -> last_term p = r_term st c -> p `prefix_of` r_log st c;
  iv_acked : forall v t q, r_acked st v t q -> (t <= r_term st v)%N /\ on_chain st t q /\
    forall x l, stamped t q x -> r_disk st v l -> x `prefix_of` l \/ misses st x t (r_term st v);
  iv_committed : forall t x, r_committed st t x -> r_made st x /\ last_term x = t /\
    exists S, quorum S /\ forall p, p ∈ S -> exists q, r_acked st p t q /\ x `prefix_of` q
}.

Lemma misses_hi st x lo hi hi' : misses st x lo hi -> (hi <= hi')%N -> misses st x lo hi'.
Proof. intros (t & c & y & Ht & H). exists t, c, y. split; [lia|done]. Qed.

Lemma comparable_sym p q : comparable p q -> comparable q p.
Proof. intros [H|H]; [by right|by left]. Qed.

Lemma prefix_snoc (l p : log) e : l `prefix_of` p ++ [e] -> l = p ++ [e] \/ l `prefix_of` p.
Proof.
  intros [k Hk]. destruct k as [|e' k _] using rev_ind; [left; by rewrite app_nil_r in Hk|right].
  rewrite (assoc_L (++)) in Hk. apply app_inj_tail in Hk as [-> _]. by eexists.
Qed.

Lemma made_nonempty st p : raft_inv st -> r_made st p -> p <> [].
Proof. intros Hi Hp. destruct (iv_made _ Hi p Hp) as (p0 & e & _ & _ & -> & _). by destruct p0. Qed.

(** *** What the invariant says of a state *)

Section facts.
Context (st : raft) (Hi : raft_inv st).

Lemma led_unique t c c' y y' : r_led st t c y -> r_led st t c' y' -> c = c' /\ y = y'.
Proof using Hi Hquorum Hdec.
  intros [A (S & HS & HV)]%(iv_led _ Hi) [A' (S' & HS' & HV')]%(iv_led _ Hi).
  destruct (Hquorum S S' HS HS') as (v & [Hv _]%HV & [Hv' _]%HV').
  assert (c = c') as -> by (by eapply (iv_once _ Hi)). split; [done|]. by eapply (iv_asked1 _ Hi).
Qed.

(** A log made in a term extends the log its leader was elected with. *)
Lemma made_root p c y : r_made st p -> r_led st (last_term p) c y -> y `prefix_of` p /\ y <> p.
Proof using Hi Hquorum Hdec.
  intros (p0 & e & c' & y' & -> & Hl & Hp & _)%(iv_made _ Hi) Hl'. rewrite last_term_snoc in Hl'.
  destruct (led_unique _ _ _ _ _ Hl Hl') as [_ <-]. split; [by apply prefix_app_r|].
  intros ->. apply prefix_length in Hp. rewrite length_app in Hp. simpl in Hp. lia.
Qed.

Lemma made_term p : r_made st p -> (0 < last_term p)%N /\ exists c y, r_led st (last_term p) c y.
Proof using Hi.
  intros (p0 & e & c & y & -> & Hl & _)%(iv_made _ Hi). rewrite last_term_snoc. split; [|by do 2 eexists].
  apply (iv_led _ Hi) in Hl as [(_ & Hl & _)%(iv_asked _ Hi) _]. lia.
Qed.

(** Terms do not decrease along a log. *)
Lemma terms_grow p p' : p = [] \/ r_made st p -> p' `prefix_of` p -> (last_term p' <= last_term p)%N.
Proof using Hi.
  induction p as [|e p IH] using rev_ind; intros Hp Hpre; [by apply prefix_nil_inv in Hpre as ->|].
  apply prefix_snoc in Hpre as [->|Hpre]; [done|]. destruct Hp as [Hp|Hp]; [by destruct p|].
  assert (p = [] \/ r_made st p) as Hm.
  { destruct p as [|e0 p]; [by left|right]. eapply (iv_prefix _ Hi); [exact Hp|by apply prefix_app_r|done]. }
  specialize (IH Hm Hpre). apply (iv_made _ Hi) in Hp as (p0 & e' & c & y & [<- <-]%app_inj_tail & Hl & Hy & Hcase).
  rewrite last_term_snoc. destruct Hcase as [->|Ht]; [|lia].
  apply (iv_led _ Hi) in Hl as [(_ & Hl & _)%(iv_asked _ Hi) _]. lia.
Qed.

Lemma chain_made t q : on_chain st t q -> q = [] \/ r_made st q.
Proof using Hi.
  intros (c & y & [(_ & _ & Hy)%(iv_asked _ Hi) _]%(iv_led _ Hi) & [Hq|[Hq _]]); [|by right].
  destruct (decide (q = [])) as [->|Hne]; [by left|right].
  destruct Hy as [->|Hy]; [by apply prefix_nil_inv in Hq|by eapply (iv_prefix _ Hi)].
Qed.

Lemma chain_term t q : on_chain st t q -> (last_term q <= t)%N.
Proof using Hi.
  intros (c & y & [(_ & Ht & Hy)%(iv_asked _ Hi) _]%(iv_led _ Hi) & [Hq|[_ Hq]]); [|lia].
  apply (terms_grow _ _ Hy) in Hq. lia.
Qed.

(** Two prefixes of one leader's log. *)
Lemma chain_total t q q' : on_chain st t q -> on_chain st t q' -> comparable q q'.
Proof using Hi Hquorum Hdec.
  intros (c & y & Hl & Hq) (c' & y' & Hl' & Hq'). destruct (led_unique _ _ _ _ _ Hl Hl') as [<- <-].
  destruct Hq as [Hq|[Hq Ht]], Hq' as [Hq'|[Hq' Ht']].
  - by eapply prefix_weak_total.
  - left. subst t. etrans; [exact Hq|]. by apply (made_root q' c y).
  - right. subst t. etrans; [exact Hq'|]. by apply (made_root q c y).
  - apply (iv_same _ Hi); [done|done|congruence].
Qed.

(** Past the log its leader was elected with, a log has entries of its term only. *)
Lemma above_root p c y q : r_made st p -> r_led st (last_term p) c y -> y `prefix_of` q -> q `prefix_of` p -> q <> y -> last_term q = last_term p.
Proof using Hi Hquorum Hdec.
  induction p as [|e p IH] using rev_ind; intros Hp Hl Hy Hq Hne; [by apply prefix_nil_inv in Hq as ->|].
  apply prefix_snoc in Hq as [->|Hq]; [done|]. rewrite last_term_snoc in *.
  destruct (iv_made _ Hi _ Hp) as (p0 & e' & c' & y' & [<- <-]%app_inj_tail & Hl' & Hy' & Hcase).
  destruct (led_unique _ _ _ _ _ Hl Hl') as [<- <-]. destruct Hcase as [->|Ht]; [by destruct Hne; apply (anti_symm prefix)|].
  rewrite <-Ht. apply IH; [|by rewrite Ht|done..]. eapply (iv_prefix _ Hi); [exact Hp|by apply prefix_app_r|].
  intros ->. apply (made_term _) in Hp as [Hp _]. rewrite last_term_snoc, <-Ht in Hp. done.
Qed.

Lemma chain_prefix t q q' : on_chain st t q -> q' `prefix_of` q -> on_chain st t q'.
Proof using Hi Hquorum Hdec.
  intros (c & y & Hl & Hq) Hpre. exists c, y. split; [done|]. destruct Hq as [Hq|[Hq <-]]; [left; by etrans|].
  destruct (made_root q c y Hq Hl) as [Hy _]. destruct (prefix_weak_total _ _ _ Hpre Hy) as [H|[[|e k] ->]]; [by left|left; by rewrite app_nil_r|right].
  assert (y ++ e :: k <> y) as Hne by (intros Heq%(f_equal length); rewrite length_app in Heq; simpl in Heq; lia).
  split; [|eapply above_root; [done..|by eexists|done|done]]. eapply (iv_prefix _ Hi); [exact Hq|done|by destruct y].
Qed.

(** What a voter has acknowledged is in an up-to-date log, or a leader since then
    was elected without it. *)
Lemma up_to_date_has l y x t :
  l = [] \/ r_made st l -> y = [] \/ r_made st y -> (last_term y < t)%N -> up_to_date l y -> x `prefix_of` l -> x <> [] ->
  x `prefix_of` y \/ misses st x (last_term x) t.
Proof using Hi Hquorum Hdec.
  intros Hl Hy Ht Hup Hx Hne. pose proof (terms_grow _ _ Hl Hx) as Hle. destruct Hl as [->|Hl]; [by apply prefix_nil_inv in Hx|].
  pose proof (proj1 (made_term _ Hl)) as Hpos. destruct Hy as [->|Hy]; [destruct Hup as [H|[H _]]; rewrite last_term_nil in H; lia|].
  destruct Hup as [Hlt|[Heq Hlen]].
  - destruct (made_term _ Hy) as (_ & c & y2 & Hled). destruct (made_root _ _ _ Hy Hled) as [Hpre _].
    destruct (decide (x `prefix_of` y2)) as [Hxy|Hxy]; [left; by etrans|right]. exists (last_term y), c, y2. split; [lia|done].
  - left. etrans; [exact Hx|]. destruct (iv_same _ Hi l y Hl Hy Heq) as [H|H]; [done|].
    by rewrite (prefix_length_eq _ _ H Hlen).
Qed.

(** Taking over [q] in term [t] keeps what was acknowledged before, or shows a
    leader elected without it. *)
Lemma adopts_has l q l' x t t1 :
  on_chain st t q -> adopts l q l' -> on_chain st t1 x -> (t1 <= t)%N -> x `prefix_of` l -> x `prefix_of` l' \/ misses st x t1 t.
Proof using Hi Hquorum Hdec.
  intros Hq [->|(Hn & Hl' & Hkeep)] Hx Hle Hxl; [by left|]. assert (comparable x q -> x `prefix_of` l') as Hc.
  { intros [H|H]; [by apply Hkeep|]. destruct Hn. by etrans. }
  destruct (decide (t1 = t)) as [->|Hne]; [left; apply Hc; by eapply chain_total|]. destruct Hq as (c & y & Hl & Hq).
  destruct (decide (x `prefix_of` y)) as [Hxy|Hxy]; [left|right; exists t, c, y; split; [lia|done]]. apply Hc.
  destruct Hq as [Hq|[Hq Ht]]; [by eapply prefix_weak_total|left]. etrans; [exact Hxy|]. subst t. by apply (made_root q c y).
Qed.

(** Leader completeness: a leader of a later term was elected with every
    committed prefix in its log. *)
Lemma leader_complete t1 x t c y : r_committed st t1 x -> r_led st t c y -> (t1 < t)%N -> x `prefix_of` y.
Proof using Hi Hquorum Hdec.
  intros (Hx & Ht1 & S & HS & Hack)%(iv_committed _ Hi). revert c y. induction t as [t IH] using (well_founded_induction N.lt_wf_0).
  intros c y Hl Hlt. destruct (iv_led _ Hi _ _ _ Hl) as (_ & S' & HS' & Hv). destruct (Hquorum S S' HS HS') as (v & Hv1 & Hv2).
  destruct (Hack v Hv1) as (q & Hq & Hxq). destruct (Hv v Hv2) as [_ H].
  destruct (H t1 q x Hq Hlt) as [|(t2 & c2 & y2 & Ht2 & Hl2 & Hn)]; [|done|].
  - split_and!; [done|done|by eapply made_nonempty].
  - destruct Hn. apply (IH t2 ltac:(lia) c2 y2 Hl2). lia.
Qed.

(** A committed prefix and the log of any leader of its term or later. *)
Lemma committed_chain t1 x t q : r_committed st t1 x -> (t1 <= t)%N -> on_chain st t q -> comparable x q.
Proof using Hi Hquorum Hdec.
  intros Hx Hle (c & y & Hl & Hq). destruct (iv_committed _ Hi _ _ Hx) as (Hm & Ht1 & _).
  destruct (decide (t1 = t)) as [->|Hne].
  - eapply chain_total; [exists c, y; split; [exact Hl|right; by split]|]. by exists c, y.
  - assert (x `prefix_of` y) as Hxy by (eapply leader_complete; [exact Hx|exact Hl|lia]). destruct Hq as [Hq|[Hq Ht]].
    + by eapply prefix_weak_total.
    + left. etrans; [exact Hxy|]. subst t. by apply (made_root q c y).
Qed.

(** State-machine safety: of two committed prefixes one extends the other. *)
Lemma committed_comparable t x t' x' : r_committed st t x -> r_committed st t' x' -> comparable x x'.
Proof using Hi Hquorum Hdec.
  assert (forall t x t' x', (t <= t')%N -> r_committed st t x -> r_committed st t' x' -> comparable x x') as H.
  { clear t x t' x'. intros t x t' x' Hle Hx Hx'. eapply committed_chain; [exact Hx|exact Hle|].
    destruct (iv_committed _ Hi _ _ Hx') as (Hm & <- & _). destruct (made_term _ Hm) as (_ & c & y & Hl).
    exists c, y. split; [done|right; by split]. }
  intros Hx Hx'. destruct (N.le_ge_cases t t') as [Hle|Hle]; [by eapply H|apply comparable_sym; by eapply H].
Qed.

(** A follower never gives up what it knows to be committed. *)
Lemma committed_kept t1 x v t q l p :
  r_committed st t1 x -> (t1 <= t)%N -> on_chain st t q -> adopts (r_log st v) q l ->
  p `prefix_of` x -> p `prefix_of` r_log st v -> p `prefix_of` l.
Proof using Hi Hquorum Hdec.
  intros Hx Hle Hq [->|(Hn & Hl & Hkeep)] Hpx Hpl; [done|]. apply Hkeep; [done|].
  destruct (committed_chain _ _ _ _ Hx Hle Hq) as [H|H]; [by trans x|].
  destruct (prefix_weak_total _ _ _ Hpx H) as [|H']; [done|]. destruct Hn. by etrans.
Qed.

End facts.

(** *** Every step keeps it *)

Lemma upd_le st v t w : (r_term st v <= t)%N -> (r_term st w <= upd (r_term st) v t w)%N.
Proof. unfold upd. case_decide; [by subst|done]. Qed.

Lemma term_inv st v t : raft_inv st -> (r_term st v <= t)%N -> raft_inv (go_term st v t).
Proof.
  intros Hi Hle. pose proof (upd_le st v t) as Hup. destruct Hi as [A1 A2 A3 A4 A5 A6 A7 A8 A9 A10 A11 A12 A13 A14]. split; simpl; try done.
  - intros t' c y (H1 & H2 & H3)%A4. split; [etrans; [exact H1|by apply Hup]|done].
  - intros w t' c [H ?]%A6. split; [etrans; [exact H|by apply Hup]|done].
  - intros w l [H1 H2]%A11. split; [done|etrans; [exact H2|by apply Hup]].
  - intros c y. unfold upd. case_decide as Ec; [subst c|by apply A12]. intros [Ha <-%bool_decide_eq_true]%andb_true_iff. by apply A12.
  - intros w t' q (H1 & H2 & H3)%A13. split; [etrans; [exact H1|by apply Hup]|]. split; [done|]. intros x l Hx Hl.
    destruct (H3 x l Hx Hl) as [H|H]; [by left|right]. eapply misses_hi; [exact H|by apply Hup].
Qed.

Lemma elect_inv st v t :
  raft_inv st -> t = (r_term st v + 1)%N -> raft_inv (add_voted (add_asked (go_term st v t) t v (r_log st v)) v t v).
Proof.
  intros Hi Ht. assert (forall y, ~ r_asked st t v y) as Hnew by (intros y [H _]%(iv_asked _ Hi); lia).
  assert (forall w, ~ r_voted st w t v) as Hnv by (intros w [_ [y Hy]]%(iv_voted _ Hi); by eapply Hnew).
  assert (forall c, ~ r_voted st v t c) as Hnc by (intros c [Hc _]%(iv_voted _ Hi); lia).
  destruct (iv_disk _ Hi v _ (iv_log _ Hi v)) as [Hm Hlt].
  destruct (term_inv st v t Hi ltac:(lia)) as [A1 A2 A3 A4 A5 A6 A7 A8 A9 A10 A11 A12 A13 A14]. split; simpl in *; try done.
  - intros t' c y [H|(-> & -> & ->)]; [by apply A4|]. rewrite upd_same. split; [done|]. split; [lia|done].
  - intros t' c y y' [H|(-> & -> & ->)] [H'|(E1 & E2 & E3)]; subst; try done; try (by eapply A5); by exfalso; eapply Hnew.
  - intros w t' c [H|(-> & -> & ->)].
    + destruct (A6 _ _ _ H) as [H1 [y Hy]]. split; [done|]. exists y. by left.
    + rewrite upd_same. split; [done|]. eexists. by right.
  - intros w t' c c' [H|(-> & -> & ->)] [H'|(E1 & E2 & E3)]; subst; try done; try (by eapply A7); by exfalso; eapply Hnc.
  - intros w t' c y t1 q x [H|(-> & -> & ->)] [H'|(E1 & E2 & E3)] Hack H1 Hx; subst y || idtac.
    + by eapply A8.
    + subst t' c. by exfalso; eapply Hnv.
    + by exfalso; eapply Hnew.
    + destruct (iv_acked _ Hi _ _ _ Hack) as (_ & _ & H). destruct (H x _ Hx (iv_log _ Hi v)) as [H'|H']; [by left|right].
      eapply misses_hi; [exact H'|lia].
  - intros t' c y H. destruct (A9 _ _ _ H) as (H1 & S & HS & Hv). split; [by left|]. exists S. split; [done|].
    intros p Hp. destruct (Hv p Hp) as [? ?]. split; [by left|done].
Qed.

Lemma vote_inv st v t c y :
  raft_inv st -> r_term st v = t -> r_asked st t c y -> up_to_date (r_log st v) y -> (forall c', r_voted st v t c' -> c' = c) ->
  raft_inv (add_voted st v t c).
Proof using Hquorum Hdec.
  intros Hi Ht Ha Hup Honce. pose proof Hi as [A1 A2 A3 A4 A5 A6 A7 A8 A9 A10 A11 A12 A13 A14]. split; simpl in *; try done.
  - intros w t' c' [H|(-> & -> & ->)]; [by apply A6|]. split; [lia|by eexists].
  - intros w t' c1 c2 [H|(-> & -> & ->)] [H'|(E1 & E2 & E3)]; subst; try done; [by eapply A7|by apply Honce|symmetry; by apply Honce].
  - intros w t' c' y' t1 q x [H|(-> & -> & ->)] Hy' Hack H1 Hx; [by eapply A8|]. assert (y' = y) as -> by by eapply A5.
    destruct (A13 _ _ _ Hack) as (_ & _ & H). destruct (H x _ Hx (A10 v)) as [H'|H']; [|right; eapply misses_hi; [exact H'|lia]].
    destruct Hx as (_ & <- & Hne). destruct (A4 _ _ _ Ha) as (_ & Hlt & Hy). destruct (A11 v _ (A10 v)) as [Hm _].
    exact (up_to_date_has st Hi _ _ _ _ Hm Hy Hlt Hup H' Hne).
  - intros t' c' y' H. destruct (A9 _ _ _ H) as (H1 & S & HS & Hv). split; [done|]. exists S. split; [done|].
    intros p Hp. destruct (Hv p Hp) as [? ?]. split; [by left|done].
Qed.

Lemma led_mono st t c y lo hi x : misses st x lo hi -> misses (add_led st t c y) x lo hi.
Proof. intros (t' & c' & y' & ? & ? & ?). exists t', c', y'. split; [done|]. split; [by left|done]. Qed.

Lemma led_chain st t c y t' q : on_chain st t' q -> on_chain (add_led st t c y) t' q.
Proof. intros (c' & y' & ? & ?). exists c', y'. split; [by left|done]. Qed.

Lemma lead_inv st t c S :
  raft_inv st -> r_term st c = t -> r_asked st t c (r_log st c) -> quorum S -> (forall p, p ∈ S -> r_voted st p t c) ->
  (forall y, ~ r_led st t c y) -> raft_inv (add_led st t c (r_log st c)).
Proof using Hquorum Hdec.
  intros Hi Ht Ha HS Hv Hn. assert (forall c' y', ~ r_led st t c' y') as Hnone.
  { intros c' y' Hl. destruct (iv_led _ Hi _ _ _ Hl) as (_ & S' & HS' & Hv'). destruct (Hquorum S S' HS HS') as (v & H1 & H2).
    apply Hv in H1. apply Hv' in H2 as [H2 _]. rewrite (iv_once _ Hi _ _ _ _ H2 H1) in Hl. by eapply Hn. }
  pose proof Hi as [A1 A2 A3 A4 A5 A6 A7 A8 A9 A10 A11 A12 A13 A14]. split; simpl in *; try done.
  - intros p (p0 & e & c' & y' & ? & ? & ?)%A2. exists p0, e, c', y'. split; [done|]. split; [by left|done].
  - intros v t' c' y' t1 q x H1 H2 H3 H4 H5. destruct (A8 _ _ _ _ _ _ _ H1 H2 H3 H4 H5) as [H|H]; [by left|right; by apply led_mono].
  - intros t' c' y' [H|(-> & -> & ->)].
    + destruct (A9 _ _ _ H) as (H1 & S' & HS' & Hv'). split; [done|]. exists S'. split; [done|]. intros p Hp. destruct (Hv' p Hp) as [H2 H3].
      split; [done|]. intros t1 q x Hq Hlt Hx. destruct (H3 _ _ _ Hq Hlt Hx) as [H4|H4]; [by left|right; by apply led_mono].
    + split; [done|]. exists S. split; [done|]. intros p Hp. split; [by apply Hv|]. intros t1 q x Hq Hlt Hx.
      destruct (A8 _ _ _ _ _ _ _ (Hv p Hp) Ha Hq Hlt Hx) as [H4|(t2 & c2 & y2 & Ht2 & Hl2 & Hm)]; [by left|right].
      exists t2, c2, y2. split; [|split; [by left|done]]. destruct (decide (t2 = t)) as [->|]; [by exfalso; eapply Hnone|lia].
  - intros c' y'. unfold upd. case_decide as Ec.
    + subst c'. intros _ [H|(_ & _ & ->)]; [rewrite Ht in H; by exfalso; eapply Hnone|]. split; [done|]. split; [by left|].
      intros p Hp Hpt. destruct (made_term _ Hi p Hp) as (_ & c' & y' & Hl). rewrite Hpt, Ht in Hl. by exfalso; eapply Hnone.
    + intros Hact [H|(_ & ? & _)]; [by apply A12|done].
  - intros v t' q (H1 & H2 & H3)%A13. split; [done|]. split; [by apply led_chain|]. intros x l Hx Hl.
    destruct (H3 x l Hx Hl) as [H|H]; [by left|right; by apply led_mono].
Qed.

Lemma made_chain st p t q : on_chain st t q -> on_chain (add_made st p) t q.
Proof. intros (c & y & Hl & Hq). exists c, y. split; [done|]. destruct Hq as [?|[? ?]]; [by left|right; split; [by left|done]]. Qed.

(** The leader makes one more entry. *)
Lemma append_inv st c t y e :
  raft_inv st -> r_led st t c y -> r_term st c = t -> r_active st c = true -> term e = t ->
  raft_inv (write_log (add_made st (r_log st c ++ [e])) c (r_log st c ++ [e])).
Proof using Hquorum Hdec.
  intros Hi Hl Ht Ha He. set (p := r_log st c ++ [e]). pose proof Hi as [A1 A2 A3 A4 A5 A6 A7 A8 A9 A10 A11 A12 A13 A14].
  rewrite <-Ht in Hl. destruct (A12 c y Ha Hl) as (Hy & Hcase & Hall). rewrite Ht in *.
  assert (last_term p = t) as Hpt by (unfold p; by rewrite last_term_snoc). assert (r_log st c `prefix_of` p) as Hlp by by eexists.
  split; simpl in *; try done.
  - intros p1 p2 [H| ->] Hpre Hne; [left; by eapply A1|]. apply prefix_snoc in Hpre as [->|Hpre]; [by right|left].
    destruct (A11 c _ (A10 c)) as [[Hm|Hm] _]; [rewrite Hm in Hpre; by apply prefix_nil_inv in Hpre|by eapply A1].
  - intros p1 [H| ->]; [by apply A2|]. exists (r_log st c), e, c, y. rewrite He. done.
  - intros p1 p2 [H| ->] [H'| ->] Heq; [by apply A3|left|right|by left]; (etrans; [apply Hall; [done|congruence]|done]).
  - intros t' c' y' (H1 & H2 & H3)%A4. split; [done|]. split; [done|]. destruct H3; [by left|right; by left].
  - intros v. unfold upd. case_decide; [by right|apply A10].
  - intros v l. unfold upd. case_decide as Ev; [subst v; intros [Hd| ->]|intros Hd].
    2:{ split; [right; by right|lia]. }
    all: destruct (A11 _ _ Hd) as [[H|H] ?]; (split; [|done]); [by left|right; by left].
  - intros c' y' Hact Hl'. unfold upd. case_decide as Ec.
    + subst c'. rewrite Ht in *. destruct (led_unique st Hi _ _ _ _ _ Hl Hl') as [_ <-]. split; [by trans (r_log st c)|].
      split; [by right|]. intros p1 [H| ->] Hp1; [|done]. trans (r_log st c); [by apply Hall|done].
    + destruct (A12 _ _ Hact Hl') as (H1 & H2 & H3). split; [done|]. split; [done|]. intros p1 [H| ->] Hp1; [by apply H3|].
      rewrite Hpt in Hp1. rewrite <-Hp1 in Hl'. by destruct (led_unique st Hi _ _ _ _ _ Hl Hl') as [<- _].
  - intros v t' q Hq. destruct (A13 _ _ _ Hq) as (H1 & H2 & H3). split; [done|]. split; [by apply made_chain|]. intros x l Hx. unfold upd.
    case_decide as Ev; [subst v|by apply H3]. intros [Hd| ->]; [by apply H3|].
    destruct (H3 x _ Hx (A10 c)) as [H|H]; [left|by right]. by trans (r_log st c).
  - intros t' x (H1 & H2)%A14. split; [by left|done].
Qed.

(** A follower takes a message of its term's leader over. *)
Lemma receive_inv st v t q l :
  raft_inv st -> r_term st v = t -> on_chain st t q -> (forall y, ~ r_led st t v y) -> adopts (r_log st v) q l -> raft_inv (write_log st v l).
Proof using Hquorum Hdec.
  intros Hi Ht Hq Hnl Had. pose proof Hi as [A1 A2 A3 A4 A5 A6 A7 A8 A9 A10 A11 A12 A13 A14].
  assert ((l = [] \/ r_made st l) /\ (last_term l <= t)%N) as Hl.
  { destruct Had as [->|(_ & Hlq & _)]; [rewrite <-Ht; apply A11, A10|]. pose proof (chain_prefix st Hi _ _ _ Hq Hlq) as Hc.
    split; [by eapply chain_made|by eapply chain_term]. }
  split; simpl in *; try done.
  - intros w. unfold upd. case_decide; [by right|apply A10].
  - intros w l'. unfold upd. case_decide as Ew; [subst w; intros [Hd| ->]|apply A11]; [by apply A11|]. by rewrite Ht.
  - intros c y Hact Hled. unfold upd. case_decide as Ec; [subst c; rewrite Ht in Hled; by apply Hnl in Hled|by apply A12].
  - intros w t' q' Hq'. destruct (A13 _ _ _ Hq') as (H1 & H2 & H3). split; [done|]. split; [done|]. intros x l' Hx. unfold upd.
    case_decide as Ew; [subst w|by apply H3]. intros [Hd| ->]; [by apply H3|]. rewrite Ht in *.
    destruct (H3 x _ Hx (A10 v)) as [H|H]; [|by right]. eapply (adopts_has st Hi); [exact Hq|exact Had|eapply chain_prefix; [done|done|apply Hx]|lia|done].
Qed.

Lemma sync_inv st v : raft_inv st -> raft_inv (sync_log st v).
Proof.
  intros Hi. pose proof Hi as [A1 A2 A3 A4 A5 A6 A7 A8 A9 A10 A11 A12 A13 A14]. split; simpl in *; try done.
  - intros w. unfold upd. case_decide; [by subst|apply A10].
  - intros w l. unfold upd. case_decide as Ew; [intros ->; subst w; apply A11, A10|apply A11].
  - intros w t q Hq. destruct (A13 _ _ _ Hq) as (H1 & H2 & H3). split; [done|]. split; [done|]. intros x l Hx. unfold upd.
    case_decide as Ew; [intros ->; subst w; by apply H3|by apply H3].
Qed.

Lemma lost_inv st v l : raft_inv st -> r_disk st v l -> raft_inv (crash_log st v l).
Proof.
  intros Hi Hl. pose proof Hi as [A1 A2 A3 A4 A5 A6 A7 A8 A9 A10 A11 A12 A13 A14]. split; simpl in *; try done.
  - intros w. unfold upd. case_decide; [done|apply A10].
  - intros w l'. unfold upd. case_decide as Ew; [intros ->; subst w; by apply A11|apply A11].
  - intros c y. unfold upd. case_decide; [done|apply A12].
  - intros w t q Hq. destruct (A13 _ _ _ Hq) as (H1 & H2 & H3). split; [done|]. split; [done|]. intros x l' Hx. unfold upd.
    case_decide as Ew; [intros ->; subst w; by apply H3|by apply H3].
Qed.

Lemma ack_inv st v t q :
  raft_inv st -> r_term st v = t -> on_chain st t q -> (forall l, r_disk st v l -> q `prefix_of` l) -> raft_inv (add_acked st v t q).
Proof.
  intros Hi Ht Hq Hd. pose proof Hi as [A1 A2 A3 A4 A5 A6 A7 A8 A9 A10 A11 A12 A13 A14].
  split; simpl in *; try done.
  - intros w t' c y t1 q1 x Hv Ha [H|(-> & -> & ->)] Hlt; [by eapply A8|]. apply A6 in Hv as [Hv _]. lia.
  - intros t' c y Hl. destruct (A9 _ _ _ Hl) as (H1 & S & HS & Hv). split; [done|]. exists S. split; [done|]. intros p Hp.
    destruct (Hv p Hp) as [H2 H3]. split; [done|]. intros t1 q1 x [H|(-> & -> & ->)] Hlt; [by eapply H3|]. apply A6 in H2 as [H2 _]. lia.
  - intros w t' q1 [H|(-> & -> & ->)]; [by apply A13|]. split; [lia|]. split; [done|]. intros x l (Hx & _) Hl. left. trans q; [done|by apply Hd].
  - intros t' x Hx. destruct (A14 _ _ Hx) as (H1 & H2 & S & HS & Hv). split; [done|]. split; [done|]. exists S. split; [done|]. intros p Hp.
    destruct (Hv p Hp) as (q1 & ? & ?). exists q1. split; [by left|done].
Qed.

Lemma commit_inv st t x S :
  raft_inv st -> r_made st x -> last_term x = t -> quorum S -> (forall p, p ∈ S -> exists q, r_acked st p t q /\ x `prefix_of` q) ->
  raft_inv (add_committed st t x).
Proof.
  intros Hi Hx Ht HS Hv. destruct Hi as [A1 A2 A3 A4 A5 A6 A7 A8 A9 A10 A11 A12 A13 A14]. split; simpl in *; try done.
  intros t' x' [H|(-> & ->)]; [by apply A14|]. split; [done|]. split; [done|]. by exists S.
Qed.

Lemma raft_step_inv st st' : raft_inv st -> raft_step st st' -> raft_inv st'.
Proof using Hquorum Hdec.
  intros Hi. destruct 1; [by apply term_inv|by apply elect_inv|by eapply vote_inv|by eapply lead_inv|by eapply append_inv|by eapply receive_inv|
    by apply sync_inv|by apply lost_inv|by apply ack_inv|by eapply commit_inv].
Qed.

Lemma raft_steps_inv st st' : raft_inv st -> raft_steps st st' -> raft_inv st'.
Proof using Hquorum Hdec. intros Hi. induction 1; [done|by eapply raft_step_inv]. Qed.

Lemma raft_start_inv st : raft_start st -> raft_inv st.
Proof.
  intros (H1 & H2 & H3 & H4 & H5 & H6 & H7 & H8). split; try (intros; exfalso; first [by eapply H3|by eapply H4|by eapply H5|by eapply H6|by eapply H7|by eapply H8]).
  - intros v. apply H2, H1.
  - intros v l ->%H2. split; [by left|]. rewrite last_term_nil. lia.
Qed.

(** History is never forgotten. *)
Lemma raft_step_committed st st' t x : raft_step st st' -> r_committed st t x -> r_committed st' t x.
Proof. destruct 1; simpl; try done. by left. Qed.

Lemma raft_steps_committed st st' t x : raft_steps st st' -> r_committed st t x -> r_committed st' t x.
Proof. induction 1; [done|]. intros. eapply raft_step_committed; eauto. Qed.

(** Safety of the protocol: in any run, with any crashes that lose unsynced log
    entries, of two committed prefixes, committed at any two times, one extends the
    other; and every leader of a later term has the committed prefixes in the log it
    was elected with. *)
Theorem raft_safety st0 st1 st2 t x t' x' :
  raft_start st0 -> raft_steps st0 st1 -> raft_steps st1 st2 -> r_committed st1 t x ->
  (r_committed st2 t' x' -> comparable x x') /\
  (forall t2 c y, r_led st2 t2 c y -> (t < t2)%N -> x `prefix_of` y).
Proof using Hquorum Hdec.
  intros H0 H1 H2 Hx. pose proof (raft_steps_inv _ _ (raft_steps_inv _ _ (raft_start_inv _ H0) H1) H2) as Hi.
  apply (raft_steps_committed _ _ _ _ H2) in Hx. split; [by eapply committed_comparable|]. intros t2 c y. by eapply leader_complete.
Qed.

(** ** What a step of one node leaves alone *)

Record touches (i : N) (st st' : raft) : Prop := {
  to_term : forall k, k <> i -> r_term st' k = r_term st k;
  to_log : forall k, k <> i -> r_log st' k = r_log st k;
  to_disk : forall k, k <> i -> r_disk st' k = r_disk st k;
  to_active : forall k, k <> i -> r_active st' k = r_active st k;
  to_asked : forall k t y, k <> i -> r_asked st' t k y -> r_asked st t k y;
  to_led : forall k t y, k <> i -> r_led st' t k y -> r_led st t k y;
  to_made_mono : forall p, r_made st p -> r_made st' p;
  to_asked_mono : forall t c y, r_asked st t c y -> r_asked st' t c y;
  to_led_mono : forall t c y, r_led st t c y -> r_led st' t c y;
  to_acked_mono : forall v t q, r_acked st v t q -> r_acked st' v t q;
  to_committed_mono : forall t x, r_committed st t x -> r_committed st' t x
}.

#[global] Instance touches_preorder i : PreOrder (touches i).
Proof.
  split; [by split|]. intros s1 s2 s3 [A1 A2 A3 A4 A5 A6 A7 A8 A9 A10 A11] [B1 B2 B3 B4 B5 B6 B7 B8 B9 B10 B11].
  split; [intros k Hk; by rewrite B1, A1|intros k Hk; by rewrite B2, A2|intros k Hk; by rewrite B3, A3|intros k Hk; by rewrite B4, A4|auto..].
Qed.

Lemma touches_go_term st i t : touches i st (go_term st i t).
Proof. split; simpl; try done; intros k Hk; by rewrite ?upd_other. Qed.

Lemma touches_write st i l : touches i st (write_log st i l).
Proof. split; simpl; try done; intros k Hk; by rewrite ?upd_other. Qed.

Lemma touches_sync st i : touches i st (sync_log st i).
Proof. split; simpl; try done; intros k Hk; by rewrite ?upd_other. Qed.

Lemma touches_crash st i l : touches i st (crash_log st i l).
Proof. split; simpl; try done; intros k Hk; by rewrite ?upd_other. Qed.

Lemma touches_asked st i t y : touches i st (add_asked st t i y).
Proof. split; simpl; try done; [intros k t' y' Hk [?|(_ & ? & _)]; done|by left]. Qed.

Lemma touches_voted st i t c : touches i st (add_voted st i t c).
Proof. by split. Qed.

Lemma touches_led st i t y : touches i st (add_led st t i y).
Proof. split; simpl; try done; [intros k Hk; by rewrite upd_other|intros k t' y' Hk [?|(_ & ? & _)]; done|by left]. Qed.

Lemma touches_acked st i v t q : touches i st (add_acked st v t q).
Proof. split; simpl; try done. by left. Qed.

Lemma touches_committed st i t x : touches i st (add_committed st t x).
Proof. split; simpl; try done. by left. Qed.

Lemma touches_made st i p : touches i st (add_made st p).
Proof. split; simpl; try done. by left. Qed.

Lemma touches_chain i st st' t q : touches i st st' -> on_chain st t q -> on_chain st' t q.
Proof.
  intros [] (c & y & Hl & Hq). exists c, y. split; [auto|]. destruct Hq as [?|[? ?]]; auto.
Qed.

(** A prefix known to be committed, in a term of at most [t]. *)
Definition known (st : raft) (t : N) (p : log) : Prop :=
  p = [] \/ exists t' x, r_committed st t' x /\ (t' <= t)%N /\ p `prefix_of` x.

Lemma known_mono i st st' t t' p : touches i st st' -> (t <= t')%N -> known st t p -> known st' t' p.
Proof. intros [] Hle [->|(t1 & x & Hx & Ht & Hp)]; [by left|right]. exists t1, x. split; [auto|]. split; [lia|done]. Qed.

Lemma known_prefix st t p p' : known st t p -> p' `prefix_of` p -> known st t p'.
Proof.
  intros [->|(t1 & x & Hx & Ht & Hp)] Hpre; [left; by apply prefix_nil_inv|right]. exists t1, x. split; [done|]. split; [done|by etrans].
Qed.

Lemma known_chain st t t' p q : raft_inv st -> known st t p -> (t <= t')%N -> on_chain st t' q -> comparable p q.
Proof using Hquorum Hdec.
  intros Hi [->|(t1 & x & Hx & Ht & Hp)] Hle Hq; [left; apply prefix_nil|].
  destruct (committed_chain st Hi _ _ t' _ Hx ltac:(lia) Hq) as [H|H]; [left; by etrans|by eapply prefix_weak_total].
Qed.

Lemma known_kept st t v t' q l p :
  raft_inv st -> known st t p -> (t <= t')%N -> on_chain st t' q -> adopts (r_log st v) q l -> p `prefix_of` r_log st v -> p `prefix_of` l.
Proof using Hquorum Hdec.
  intros Hi [->|(t1 & x & Hx & Ht & Hp)] Hle Hq Had Hl; [apply prefix_nil|]. eapply committed_kept; [done|done|exact (N.le_trans _ _ _ Ht Hle)|done..].
Qed.

Lemma known_comparable st t p t' p' : raft_inv st -> known st t p -> known st t' p' -> comparable p p'.
Proof using Hquorum Hdec.
  intros Hi [->|(t1 & x & Hx & _ & Hp)] [->|(t2 & x' & Hx' & _ & Hp')]; [by left|left; apply prefix_nil|right; apply prefix_nil|].
  destruct (committed_comparable st Hi _ _ _ _ Hx Hx') as [H|H].
  - eapply prefix_weak_total; [by etrans|exact Hp'].
  - eapply prefix_weak_total; [exact Hp|by etrans].
Qed.

(** Log matching: logs with entries of the same term at an index agree up to it. *)
Lemma log_matching st p q i :
  raft_inv st -> p = [] \/ r_made st p -> q = [] \/ r_made st q -> 0 < i -> i <= length p -> i <= length q ->
  last_term (take i p) = last_term (take i q) -> take i p = take i q.
Proof.
  intros Hi Hp Hq H0 Hip Hiq Ht.
  assert (forall l, l = [] \/ r_made st l -> i <= length l -> r_made st (take i l) /\ length (take i l) = i) as Hm.
  { intros l [->|Hl] Hil; [simpl in Hil; lia|]. rewrite length_take. split; [|lia]. eapply (iv_prefix _ Hi); [exact Hl|apply prefix_take|].
    destruct l as [|e l]; [simpl in Hil; lia|]. by destruct i; [lia|]. }
  destruct (Hm p Hp Hip) as [Hp' Elp], (Hm q Hq Hiq) as [Hq' Elq].
  destruct (iv_same _ Hi _ _ Hp' Hq' Ht) as [H|H]; [|symmetry]; apply prefix_length_eq; (done || lia).
Qed.

End raft.
