(* ===== verification/NodeEffects.v ===== *)
(** raft/node.go: what each critical section does to the log, the commit index, the
    leader's match indexes and the requests it sends, in terms of the whole log of
    the node: the entries it holds and those behind its snapshot. *)

From S2P Require Import Prelude Bytes GoIO Wal Messages ConfState DiskStorage StorageCorrect StorageMem LogFacts Node NodeWf NodeSteps NodeVotes NodeRoles NodeLog RaftSpec.

Abbreviation last_term := (RaftSpec.last_term en_Term).

(** ** The whole log *)

(** [L] continues the log of [s] back to index 1. *)
Record full (s : diskStorage) (L : list Entry) : Prop := {
  fl_index : contiguous 1 L;
  fl_snap : (ds_snapIndex s <= len L)%N;
  fl_log : ds_log s = drop (N.to_nat (ds_snapIndex s)) L;
  fl_term : ds_snapTerm s = last_term (take (N.to_nat (ds_snapIndex s)) L)
}.

Lemma take_next {A} (l : list A) (i : N) e :
  l !! N.to_nat (i - 1) = Some e -> (0 < i)%N -> take (N.to_nat i) l = take (N.to_nat (i - 1)) l ++ [e].
Proof. intros He Hi. replace (N.to_nat i) with (S (N.to_nat (i - 1))) by lia. by apply take_S_r. Qed.

Section full.
Context (s : diskStorage) (L : list Entry) (HL : full s L).

Lemma full_end : log_end s = (len L + 1)%N.
Proof using HL. destruct HL as [_ H1 H2 _]. unfold log_end. rewrite H2. unfold len in *. rewrite length_drop. lia. Qed.

Lemma full_term i : (ds_snapIndex s <= i <= len L)%N -> term_of s i = Some (last_term (take (N.to_nat i) L)).
Proof using HL.
  intros Hi. destruct HL as [_ H1 H2 H3]. unfold term_of. destruct (N.eqb_spec i (ds_snapIndex s)) as [->|Hne]; [by rewrite H3|].
  rewrite (proj2 (N.ltb_ge _ _)) by lia. rewrite H2, lookup_drop. replace (_ + _) with (N.to_nat (i - 1)) by lia.
  destruct (lookup_lt_is_Some_2 L (N.to_nat (i - 1))) as [e He]; [unfold len in *; lia|].
  rewrite He, (take_next _ _ _ He) by lia. unfold RaftSpec.last_term. by rewrite last_snoc.
Qed.

Lemma full_term_inv i t : term_of s i = Some t -> (ds_snapIndex s <= i <= len L)%N /\ t = last_term (take (N.to_nat i) L).
Proof using HL.
  intros Ht. assert (ds_snapIndex s <= i <= len L)%N as Hi.
  { revert Ht. unfold term_of. destruct (N.eqb_spec i (ds_snapIndex s)) as [->|]; [split; [done|apply HL]|].
    destruct (N.ltb_spec i (ds_snapIndex s)); [done|]. rewrite (fl_log _ _ HL), lookup_drop, fmap_Some.
    intros (e & He%lookup_lt_Some & _). unfold len. lia. }
  split; [done|]. rewrite full_term in Ht by done. by injection Ht.
Qed.

Lemma full_entry i : (ds_snapIndex s < i)%N -> entry_of s i = L !! N.to_nat (i - 1).
Proof using HL.
  intros Hi. unfold entry_of. rewrite (proj2 (N.leb_gt _ _)) by done. rewrite (fl_log _ _ HL), lookup_drop. f_equal. lia.
Qed.

End full.

Lemma full_same s s' L : full s L -> same_log s s' -> full s' L.
Proof. intros [H1 H2 H3 H4] [E1 E2 E3]. split; by rewrite ?E1, ?E2, ?E3. Qed.

Lemma contiguous_snoc L e : contiguous 1 L -> en_Index e = (len L + 1)%N -> contiguous 1 (L ++ [e]).
Proof. intros HL He. apply contiguous_app. split; [done|]. apply contiguous_cons. split; [lia|]. by intros i x Hx. Qed.

(** Compaction does not change the whole log. *)
Lemma full_compact s s' L index :
  log_wf s -> full s L -> (ds_snapIndex s < index <= len L)%N ->
  ds_log s' = filter (fun e => index < en_Index e)%N (ds_log s) -> ds_snapIndex s' = index ->
  ds_snapTerm s' = last_term (take (N.to_nat index) L) -> full s' L.
Proof.
  intros Hwf [H1 H2 H3 H4] Hi El Ei Et. split; rewrite ?Ei; [done|lia| |done].
  rewrite El, kept_drop, H3, drop_drop by (done || lia). f_equal. lia.
Qed.

Section effects.
Context (Marshal : Entry -> bytes).

(** Appending one entry behind the log. *)
Lemma append_one_full s L e err s' :
  log_wf s -> full s L -> en_Index e = log_end s -> appendEntries Marshal s [e] = Some (err, s') ->
  exists L', full s' L' /\ (L' = L /\ err <> None \/ L' = L ++ [e]).
Proof.
  intros Hwf HL He H. apply appendEntries_mem in H as (l & w & d & -> & _ & [[-> Hor]|(j & -> & Hj)]).
  { exists L. split; [by eapply full_same|]. left. split; [done|]. by destruct Hor. }
  rewrite after_truncate_wf by (done || (unfold log_end in *; lia)).
  assert (take (pos s (en_Index e)) (ds_log s) = ds_log s) as ->.
  { apply take_ge. rewrite He. unfold pos, log_end, len. lia. }
  pose proof (full_end _ _ HL) as Hend. pose proof HL as [H1 H2 H3 H4]. destruct j as [|j].
  - exists L. split; [split; simpl; rewrite ?app_nil_r; done|]. left. split; [done|]. intros Hn. apply Hj in Hn. simpl in Hn. lia.
  - exists (L ++ [e]). split; [|by right]. simpl. rewrite take_nil. unfold len in *. split; simpl.
    + apply contiguous_snoc; [done|]. unfold len. lia.
    + unfold len. rewrite length_app. lia.
    + rewrite drop_app_le by lia. by rewrite H3.
    + rewrite take_app_le by lia. done.
Qed.

(** ** Requests *)

(** [req] carries the tail of [q] behind PrevLogIndex. *)
Record carries (req : AppendEntriesRequest) (q : list Entry) : Prop := {
  ca_prev : (ae_PrevLogIndex req <= len q)%N;
  ca_term : ae_PrevLogTerm req = last_term (take (N.to_nat (ae_PrevLogIndex req)) q);
  ca_entries : ae_Entries req = drop (N.to_nat (ae_PrevLogIndex req)) q
}.

Lemma carries_last req q : carries req q -> (ae_PrevLogIndex req + len (ae_Entries req))%N = len q.
Proof. intros [H1 _ ->]. unfold len in *. rewrite length_drop. lia. Qed.

(** [req] offers a snapshot of the first entries of [L], at most the committed ones. *)
Record offers (n : Node) (L : list Entry) (req : InstallSnapshotRequest) : Prop := {
  of_term : is_Term req = n_term n;
  of_conf : is_ConfState req = encodeConfState (n_conf n);
  of_commit : (is_LastIncludedIndex req <= n_commitIndex n)%N;
  of_index : (is_LastIncludedIndex req <= len L)%N;
  of_bound : (is_LastIncludedIndex req + 1 < two64)%N;
  of_last : is_LastIncludedTerm req = last_term (take (N.to_nat (is_LastIncludedIndex req)) L)
}.

(** What the node sends: (a prefix of) its whole log or its snapshot to someone else,
    in its term. *)
Definition posted (n : Node) (L : list Entry) (r : rpc) : Prop :=
  match r with
  | RpcVote _ _ => True
  | RpcAppend p req =>
      p <> n_ID n /\ ae_Term req = n_term n /\ ae_LeaderCommit req = n_commitIndex n /\ exists q, q `prefix_of` L /\ carries req q
  | RpcSnapshot p req => p <> n_ID n /\ offers n L req
  end.
Definition sends (n : Node) (L : list Entry) (out : list rpc) : Prop := Forall (posted n L) out.

(** Everything but the bookkeeping of sending and fsyncing is as before. *)
Record idle (n n' : Node) : Prop := {
  id_log : same_log (n_store n) (n_store n');
  id_term : n_term n' = n_term n;
  id_cfg : n_cfg n' = n_cfg n;
  id_conf : n_conf n' = n_conf n;
  id_commit : n_commitIndex n' = n_commitIndex n;
  id_match : matched n' = matched n
}.

#[global] Instance idle_preorder : PreOrder idle.
Proof.
  split; [intros n; by split|]. intros n1 n2 n3 [[] ?????] [[] ?????]. split; [split; congruence|congruence..].
Qed.

(** They are the same requests afterwards. *)
Lemma sends_idle n n' L out : idle n n' -> sends n' L out <-> sends n L out.
Proof.
  intros [_ Ht Hc Hf Hm _]. unfold sends. rewrite !Forall_forall. assert (forall r, posted n' L r <-> posted n L r) as H; [|by setoid_rewrite H].
  intros [p req|p req|p req]; [done| |]; unfold posted, n_ID; rewrite Hc, ?Ht, ?Hm; [done|].
  split; intros [Hp [H1 H2 H3 H4 H5 H6]]; (split; [done|]); split; congruence.
Qed.

Lemma carried_prefix s L ni t term id commit :
  full s L -> log_wf s -> (ds_snapIndex s + 1 <= ni)%N -> term_of s (ni -64 1) = Some t ->
  exists q, q `prefix_of` L /\
    carries (mkAppendReq term id (ni -64 1) t (drop (N.to_nat (ni - ds_snapIndex s - 1)) (ds_log s)) commit) q.
Proof.
  intros HL Hwf Hge Et. destruct (full_term_inv _ _ HL _ _ Et) as [Hi ->]. pose proof (lw_bound _ Hwf) as Hb. pose proof (full_end _ _ HL) as Hend.
  unfold log_end in Hend. rewrite (fl_log _ _ HL), drop_drop. replace (_ + _) with (N.to_nat (ni - 1)) by lia.
  destruct (N.lt_ge_cases ni two64) as [Hlt|Hbig].
  - exists L. split; [done|]. rewrite sub64_small in Hi |- * by lia. split; simpl; [apply Hi|done|done].
  - exists (take (N.to_nat (ni -64 1)) L). split; [apply prefix_take|]. split; simpl.
    + unfold len in *. rewrite length_take. lia.
    + by rewrite take_take, Nat.min_id.
    + rewrite !drop_ge; [done| |]; [rewrite length_take; lia|unfold len in *; lia].
Qed.

Lemma sendAppend_effect now n peer out n' L :
  node_wf n -> full (n_store n) L -> peer <> n_ID n -> sendAppendLocked now n peer = Some (out, n') -> idle n n' /\ sends n L out.
Proof.
  intros Hwf HL Hpeer. unfold sendAppendLocked. intros E.
  destruct (_ && _); [injection E as <- <-; split; [done|constructor]|].
  destruct (n_progress n) as [p|] eqn:Ep; [|done]. cbn [mbind option_bind] in E.
  assert (forall q, matchIndex q = matchIndex p -> idle n (set_progress n (Some q))) as Hidle.
  { intros q Hq. split; try done. unfold matched. simpl. by rewrite Ep. }
  rewrite firstIndex_wf in E by apply Hwf. destruct (N.ltb_spec (next_of n peer) (ds_snapIndex (n_store n) + 1)) as [|Hge].
  { case_decide; injection E as <- <-; (split; [by apply Hidle|]); constructor; [|constructor]. split; [done|].
    pose proof (nw_snap _ Hwf). pose proof (nw_applied _ Hwf). pose proof (lw_bound _ (nw_log _ Hwf)). destruct HL as [_ F2 _ F4]. by split; simpl; try lia. }
  rewrite termAt_wf in E by apply Hwf. cbn [mbind option_bind] in E.
  destruct (term_of _ _) as [t|] eqn:Et; simpl in E; [|injection E as <- <-; split; [by apply Hidle|constructor]].
  rewrite entriesFrom_wf in E by apply Hwf. cbn [mbind option_bind] in E. rewrite (proj2 (N.leb_gt _ _)) in E by lia.
  case_decide; injection E as <- <-; (split; [by apply Hidle|]); constructor; [|constructor]. split; [done|]. split; [done|]. split; [done|].
  by apply carried_prefix; [|apply Hwf|..].
Qed.

Lemma send_all_effect now peers n out n' L :
  node_ok n -> is_Some (n_progress n) -> full (n_store n) L -> send_all now n peers = Some (out, n') -> idle n n' /\ sends n L out.
Proof.
  revert n out n'. induction peers as [|p peers IH]; intros n out n' Hok Hp HL E; cbn [send_all] in E.
  { injection E as <- <-. split; [done|constructor]. }
  destruct (N.eqb_spec p (n_ID n)) as [|Hne]; [by apply IH|].
  destruct (sendAppend_ok now n p Hok Hp) as (o1 & n1 & E1 & Hok1 & Hp1 & Hs1 & _). rewrite E1 in E. cbn [mbind option_bind] in E. peel E.
  destruct r as [o2 n2]. injection E as <- <-. apply (sendAppend_effect _ _ _ _ _ L) in E1 as [Hi1 Ho1]; [|apply Hok|done|done].
  apply IH in Em as [Hi2 Ho2]; [|done|done|by rewrite Hs1]. split; [by etrans|].
  apply Forall_app. split; [done|]. by apply (sends_idle _ _ _ _ Hi1).
Qed.

Lemma broadcast_effect now n out n' L :
  node_ok n -> is_Some (n_progress n) -> full (n_store n) L -> broadcastAppendLocked now n = Some (out, n') -> idle n n' /\ sends n L out.
Proof.
  intros [Hwf Hw] Hp HL. unfold broadcastAppendLocked. intros E. peel E. destruct r as [err s]. apply sync_same_log in Em as (Hs & Hw' & Ht); [|done].
  assert (idle n (set_store n s)) as Hi by by split. destruct err; [injection E as <- <-; split; [done|constructor]|].
  apply (send_all_effect _ _ _ _ _ L) in E as [Hi2 Ho]; [|split; [by apply wf_set_store|done]|done|by eapply full_same].
  split; [by etrans|]. by apply (sends_idle _ _ _ _ Hi).
Qed.

(** ** The leader's log *)

(** [m] at [id] moves to [i]. *)
Definition matched_at (m : gmap N N) (id i : N) (m' : gmap N N) : Prop :=
  forall p, match_of m' p = if decide (p = id) then i else match_of m p.

Lemma match_insert m id i : matched_at m id i (<[id := i]> m).
Proof. intros p. unfold match_of. case_decide; [subst; by rewrite lookup_insert_eq|by rewrite lookup_insert_ne]. Qed.

(** The entry of a command that the leader adds, or not. *)
Definition grown (n : Node) (L : list Entry) (e : Entry) (n' : Node) (L' : list Entry) : Prop :=
  L' = L /\ matched n' = matched n \/
  L' = L ++ [e] /\ (matched n' = matched n \/ matched_at (matched n) (n_ID n) (len L') (matched n')).

Lemma Propose_effect n cmd r n' L :
  node_ok n -> room n -> full (n_store n) L -> Propose Marshal n cmd = Some (r, n') ->
  exists L', full (n_store n') L' /\ n_commitIndex n' = n_commitIndex n /\ grown n L (own_entry n cmd ENTRY_NORMAL None) n' L' /\
    (n_role n = leader \/ L' = L).
Proof.
  intros [Hwf Hw] Hroom HL. unfold Propose. case_decide as Hr; [|intros [= <- <-]; exists L; split_and!; [done|done|by left|by right]].
  change (mkLogEntry _ _ _ _ _) with (own_entry n cmd ENTRY_NORMAL None). unfold appendEntryLocked. set (e := own_entry n cmd ENTRY_NORMAL None). intros E. peel E. destruct r0 as [err s].
  assert (en_Index e = log_end (n_store n)) as He by (apply lastIndex_next; [apply Hwf|done]).
  apply (append_one_full _ L) in Em as (L' & HL' & Hcase); [|apply Hwf|done|done]. exists L'. destruct (nw_leader _ Hwf Hr) as [p Hp].
  destruct err as [er|].
  { injection E as <- <-. split_and!; [done|done| |by left]. destruct Hcase as [[-> _]| ->]; [by left|right; split; [done|by left]]. }
  change (n_progress (set_store n s)) with (n_progress n) in E. rewrite Hp in E. cbn [mbind option_bind] in E. injection E as <- <-.
  destruct Hcase as [[_ ?]| ->]; [done|]. split_and!; [done|done| |by left]. right. split; [done|right].
  unfold matched. simpl. rewrite Hp. change (n_ID _) with (n_ID n). replace (len (L ++ [e])) with (en_Index e); [apply match_insert|].
  rewrite He, (full_end _ _ HL), len_app. unfold len. simpl. lia.
Qed.

(** A new leader's match indexes: its own log, and nothing of the others'. *)
Definition fresh_match (n : Node) (L : list Entry) : Prop :=
  forall p, (match_of (matched n) p <= if decide (p = n_ID n) then len L else 0)%N.

Lemma zero_match (ids : list N) p : match_of (list_to_map ((fun id => (id, 0%N)) <$> ids)) p = 0%N.
Proof.
  unfold match_of. destruct (list_to_map _ !! p) as [i|] eqn:E; [|done]. apply elem_of_list_to_map_2 in E.
  by apply list_elem_of_fmap in E as (id & [= _ ->] & _).
Qed.

Lemma becomeLeader_effect now n out n' L :
  node_ok n -> room n -> full (n_store n) L -> n_role n <> leader -> becomeLeaderLocked Marshal now n = Some (out, n') ->
  exists L', full (n_store n') L' /\ n_commitIndex n' = n_commitIndex n /\ n_cfg n' = n_cfg n /\
    (L' = L \/ L' = L ++ [own_entry n [] ENTRY_NORMAL None]) /\ fresh_match n' L' /\ sends n' L' out.
Proof.
  intros Hok Hroom HL Hr. unfold becomeLeaderLocked. rewrite decide_False by done.
  set (p := mkProgress _ _ _ _). set (n1 := set_progress _ (Some p)). change (mkLogEntry _ _ _ _ _) with (own_entry n [] ENTRY_NORMAL None).
  set (e := own_entry _ _ _ _). destruct Hok as [Hwf Hw]. assert (node_wf n1) as Hwf1 by (destruct Hwf; split; simpl; try done).
  assert (en_Index e = log_end (n_store n)) as He by (apply lastIndex_next; [apply Hwf|done]).
  destruct (append_one Marshal (n_store n) e (nw_log n Hwf) Hw He Hroom) as (err & s & E & Hw' & Hwf' & Hl & Ht & Hi).
  change (n_store n1) with (n_store n). rewrite E. cbn [mbind option_bind]. pose proof (wf_grow n1 s Hwf1 Hwf' Hl Hi) as Hwf2.
  apply (append_one_full _ L) in E as (L' & HL' & Hcase); [|apply Hwf|done|done].
  set (n2 := match err with Some _ => _ | None => _ end).
  assert (node_ok n2 /\ is_Some (n_progress n2) /\ n_store n2 = s /\ n_commitIndex n2 = n_commitIndex n /\ n_cfg n2 = n_cfg n /\ fresh_match n2 L')
    as (Hok2 & Hp2 & Es & Ec & Ef & Hm).
  { assert (lastIndex (n_store n) <= len L)%N as Hlast by (rewrite lastIndex_wf, (full_end _ _ HL) by apply Hwf; lia).
    unfold n2. destruct err as [er|]; (split; [split; [|done]|]); [done| |by apply wf_set_progress|];
      (split_and!; [by eexists|done|done|done|]); intros q; unfold matched; simpl; change (n_ID n2) with (n_ID n).
    - rewrite match_insert. change (n_ID (set_store n1 s)) with (n_ID n). case_decide; [|by rewrite zero_match].
      etrans; [exact Hlast|]. destruct Hcase as [[-> _]| ->]; [done|rewrite len_app; lia].
    - change (n_ID (set_progress _ _)) with (n_ID n). change (n_ID (set_store n1 s)) with (n_ID n).
      rewrite match_insert, match_insert. destruct (decide (q = n_ID n)); [|by rewrite zero_match].
      destruct Hcase as [[_ ?]| ->]; [done|]. change (lastIndex (n_store n) +64 1) with (en_Index e). rewrite He, (full_end _ _ HL), len_app. unfold len. simpl. lia. }
  intros Hb. rewrite <-Es in HL'. apply (broadcast_effect _ _ _ _ L') in Hb as [Hid Ho]; [|done..].
  exists L'. split; [by eapply full_same; [|apply Hid]|]. split; [by rewrite (id_commit _ _ Hid)|]. split; [by rewrite (id_cfg _ _ Hid)|].
  split; [destruct Hcase as [[? _]|?]; by auto|]. split.
  - intros q. unfold n_ID. rewrite (id_match _ _ Hid), (id_cfg _ _ Hid). apply Hm.
  - by apply (sends_idle _ _ _ _ Hid).
Qed.

(** ** Sections that leave the log alone *)

Record still (n n' : Node) : Prop := {
  sl_same : same_log (n_store n) (n_store n');
  sl_commit : n_commitIndex n' = n_commitIndex n;
  sl_match : n_role n' = leader -> matched n' = matched n
}.

#[global] Instance still_refl : Reflexive still.
Proof. by split. Qed.

Lemma still_idle n n' : idle n n' -> still n n'.
Proof. intros [H1 _ _ H4 H5]. by split. Qed.

Lemma still_trans n n1 n2 : still n n1 -> still n1 n2 -> (n_role n2 = leader -> n_role n1 = leader) -> still n n2.
Proof. intros [[] H2 H3] [[] H5 H6] Hr. split; [split; congruence|congruence|]. intros Hl. rewrite H6, H3 by auto. done. Qed.

Lemma stepDown_still c n t n' : stepDownLocked c n t = Some n' -> still n n'.
Proof.
  unfold stepDownLocked. intros E. peel E. rewind E. destruct (_ <? _)%N; [|injection Em as <-; by split].
  peel Em. destruct r0 as [err s]. injection Em as <-. apply hard_same_log in Em0 as [Hs _]. by split.
Qed.

Lemma maybe_stepDown_still c n t (b : bool) n' : (if b then stepDownLocked c n t else Some n) = Some n' -> still n n'.
Proof. destruct b; [apply stepDown_still|by intros [= <-]]. Qed.

Lemma HandleReadIndex_still c n req resp n' : HandleReadIndex c n req = Some (resp, n') -> still n n'.
Proof.
  unfold HandleReadIndex. intros E. destruct (_ <? _)%N; [by injection E as <- <-|]. peel E. apply maybe_stepDown_still in Em.
  destruct (_ || _); [by injection E as <- <-|]. rewind E. injection E as <- <-. by eapply still_trans; [exact Em|split|].
Qed.

Lemma onReadResponse_still c n r resp r' n' : onReadResponse c n r resp = Some (r', n') -> still n n'.
Proof.
  unfold onReadResponse. intros E. destruct (_ <? _)%N; [peel E; injection E as <- <-; by eapply stepDown_still|].
  destruct (_ || _); [by injection E as <- <-|]. by destruct (rir_Ack resp); injection E as <- <-.
Qed.

Lemma clearInflight_still n peer : still n (clearInflight n peer).
Proof. split; try done. intros _. unfold matched. simpl. by destruct (n_progress n). Qed.

Lemma apply_still n msgs n' : Forall no_conf (ds_log (n_store n)) -> applier n = Some (msgs, n') -> still n n'.
Proof. intros Hl [i ->]%apply_loop_only; [|done]. by split. Qed.

(** A granted vote: the candidate's log is as good as the voter's. *)
Lemma HandleRequestVote_effect c n req resp n' L :
  node_ok n -> full (n_store n) L -> HandleRequestVote c n req = Some (resp, n') ->
  still n n' /\ (rvr_VoteGranted resp = true -> n_term n' = rv_Term req /\
    forall y, len y = rv_LastLogIndex req -> last_term y = rv_LastLogTerm req -> up_to_date en_Term L y).
Proof.
  intros Hok HL. unfold HandleRequestVote. intros E. peel E. rename r into n1.
  assert (node_ok n1 /\ still n n1 /\ (rv_Term req <= n_term n1)%N) as ([Hwf1 Hw1] & Hs1 & Ht1).
  { destruct (N.ltb_spec (n_term n) (rv_Term req)) as [Hlt|].
    - destruct (stepDown_ok c n (rv_Term req) Hok) as (n2 & E2 & Hok2 & _). rewrite E2 in Em. injection Em as <-. split; [done|].
      split; [by eapply stepDown_still|]. revert E2. unfold stepDownLocked. rewrite (proj2 (N.ltb_lt _ _)) by done.
      intros E2. peel E2. rewind E2. peel Em. destruct r0 as [err s]. injection Em as <-. apply setHardState_mem in Em0 as [w ->]. done.
    - injection Em as <-. split; [done|]. split; [done|lia]. }
  clear Em. destruct (N.ltb_spec (rv_Term req) (n_term n1)); [by injection E as <- <-|]. destruct (negb _); [by injection E as <- <-|].
  rewrite termAt_wf in E by apply Hwf1. cbn [mbind option_bind] in E. pose proof (full_same _ _ _ HL (sl_same _ _ Hs1)) as HL1.
  assert (lastIndex (n_store n1) = len L) as El by (rewrite lastIndex_wf, (full_end _ _ HL1) by apply Hwf1; lia).
  rewrite El, (full_term _ _ HL1) in E by (split; [apply HL1|done]). cbn [fst snd] in E.
  replace (take (N.to_nat (len L)) L) with L in E by (rewrite take_ge; [done|unfold len; lia]).
  destruct (_ && _) eqn:Eb; [|by injection E as <- <-]. peel E. destruct r as [err s]. pose proof (hard_same_log _ _ _ _ _ Em) as [Hs _].
  apply setHardState_mem in Em as [w Es].
  assert (still n (set_store n1 s)) as Hs2 by (eapply still_trans; [exact Hs1|by split|done]).
  destruct err; [by injection E as <- <-|]. rewind E. injection E as <- <-. split; [eapply still_trans; [exact Hs2|by split|done]|]. intros _. split.
  - unfold n_term in *. simpl. rewrite Es. simpl. lia.
  - intros y Hy Hyt. apply andb_true_iff in Eb as [_ Eb]. unfold up_to_date. rewrite Hyt.
    apply orb_true_iff in Eb as [Eb%N.ltb_lt|[Eb%N.eqb_eq Ec%N.leb_le]%andb_true_iff]; [by left|right]. split; [done|]. unfold len in *. lia.
Qed.

(** An election asks with the node's last index and term. *)
Lemma startElection_effect c n out n' L :
  node_ok n -> full (n_store n) L -> startElectionLocked c n = Some (out, n') ->
  still n n' /\ forall p req, RpcVote p req ∈ out -> rv_LastLogIndex req = len L /\ rv_LastLogTerm req = last_term L.
Proof.
  intros [Hwf Hw] HL. unfold startElectionLocked. intros E. assert (forall p req, RpcVote p req ∈ [] -> rv_LastLogIndex req = len L /\ rv_LastLogTerm req = last_term L)
    as Hnone by (by intros p req ?%not_elem_of_nil).
  destruct (negb _); [rewind E; by injection E as <- <-|]. destruct (_ && _); [rewind E; by injection E as <- <-|]. peel E. destruct r as [err s].
  apply hard_same_log in Em as [Hs _]. destruct err; [by injection E as <- <-|]. rewind E. pose proof (full_same _ _ _ HL Hs) as HL1.
  assert (log_wf s) as Hwf1 by by eapply same_log_wf; [|apply Hwf].
  rewrite termAt_wf in E by done. assert (lastIndex s = len L) as El by (rewrite lastIndex_wf, (full_end _ _ HL1) by done; lia).
  rewrite El, (full_term _ _ HL1) in E by (split; [apply HL1|done]). cbn [mbind option_bind] in E. injection E as <- <-.
  replace (take (N.to_nat (len L)) L) with L by (rewrite take_ge; [done|unfold len; lia]).
  split; [by split|]. intros p req (q & [= -> ->] & _)%list_elem_of_fmap. done.
Qed.

Definition only_votes (out : list rpc) : Prop := Forall (fun r => match r with RpcVote _ _ => True | _ => False end) out.

Lemma votes_sends n L out : only_votes out -> sends n L out.
Proof. intros H. eapply Forall_impl; [exact H|]. by intros []. Qed.

Lemma startElection_out c n out n' : startElectionLocked c n = Some (out, n') -> only_votes out.
Proof.
  unfold startElectionLocked. intros E. destruct (negb _); [rewind E; injection E as <- <-; constructor|].
  destruct (_ && _); [rewind E; injection E as <- <-; constructor|]. peel E. destruct r as [err s].
  destruct err; [injection E as <- <-; constructor|]. rewind E. peel E. destruct r as [t ok]. injection E as <- <-. by apply Forall_fmap, Forall_true.
Qed.

(** A turn of run. *)
Lemma run_step_effect c k n out n' L :
  node_ok n -> full (n_store n) L -> run_step c k n = Some (out, n') ->
  still n n' /\ (sends n L out /\ (n_role n = leader \/ only_votes out)) /\
  forall p req, RpcVote p req ∈ out -> rv_LastLogIndex req = len L /\ rv_LastLogTerm req = last_term L.
Proof.
  intros Hok HL. unfold run_step. set (n1 := if k then _ else n).
  assert (node_ok n1 /\ idle n n1 /\ n_role n1 = n_role n /\ n_progress n1 = n_progress n) as (Hok1 & Hi1 & Er1 & Ep1).
  { subst n1. destruct Hok. destruct k; [|by split_and!]. split_and!; [split; [by apply wf_kick|done]|by split|done|done]. }
  pose proof (full_same _ _ _ HL (id_log _ _ Hi1)) as HL1. clearbody n1. rewrite Er1.
  assert (n_role n <> leader -> (if (n_electionDeadline n1 <? c_now c)%Z then startElectionLocked c n1 else Some ([], n1)) = Some (out, n') ->
    still n n' /\ (sends n L out /\ (n_role n = leader \/ only_votes out)) /\
    forall p req, RpcVote p req ∈ out -> rv_LastLogIndex req = len L /\ rv_LastLogTerm req = last_term L) as Helect.
  { intros Hr E. destruct (_ <? _)%Z.
    - pose proof (startElection_out _ _ _ _ E) as Ho. destruct (startElection_effect _ _ _ _ _ Hok1 HL1 E) as [Hs Hv].
      split; [|split; [|done]]; [|split; [by apply votes_sends|by right]]. split; [|destruct Hs as [_ -> _]; apply Hi1|].
      + destruct Hs as [[] _ _], Hi1 as [[] _ _ _ _]. split; congruence.
      + intros Hl. rewrite (sl_match _ _ Hs) by done. apply Hi1.
    - injection E as <- <-. split; [by apply still_idle|]. split; [split; [constructor|right; constructor]|by intros p req ?%not_elem_of_nil]. }
  destruct (n_role n) eqn:Er; [by apply Helect|by apply Helect|].
  intros E. destruct (broadcast_keeps _ _ _ _ E) as [_ Hnv].
  apply (broadcast_effect _ _ _ _ L) in E as [Hi Ho]; [|done|rewrite Ep1; by apply Hok|done].
  split; [apply still_idle; by etrans|]. split.
  - split; [by apply (sends_idle _ _ _ _ Hi1)|by left].
  - intros p req Hin. unfold no_votes in Hnv. eapply Forall_forall in Hnv; [|exact Hin]. done.
Qed.

(** The role is kept with its term, or the node follows. *)
Definition same_role (n n' : Node) : Prop := n_role n' = follower \/ n_role n' = n_role n /\ n_term n' = n_term n.

Lemma quiet_role n n' : quiet n n' -> same_role n n'.
Proof. intros [H|[H1 H2 _]]; [by left|by right]. Qed.

(** An answered vote: nothing, or a new leader. *)
Lemma onVoteResponse_effect c n t resp out n' L :
  node_ok n -> room n -> full (n_store n) L -> onVoteResponse Marshal c n t resp = Some (out, n') ->
  still n n' /\ out = [] /\ same_role n n' \/
  n_role n = candidate /\ n_term n = t /\ n_role n' = leader /\ exists L', full (n_store n') L' /\ n_commitIndex n' = n_commitIndex n /\ n_cfg n' = n_cfg n /\
    (L' = L \/ L' = L ++ [own_entry n [] ENTRY_NORMAL None]) /\ fresh_match n' L' /\ sends n' L' out.
Proof.
  intros Hok Hroom HL. unfold onVoteResponse. intros E. destruct (_ <? _)%N.
  { peel E. injection E as <- <-. left. split; [by eapply stepDown_still|]. split; [done|]. left. by eapply stepDown_follower. }
  destruct (bool_decide (n_role n = candidate)) eqn:Er; [|injection E as <- <-; left; by split_and!; [| |right]].
  apply bool_decide_eq_true in Er. destruct (N.eqb_spec (n_term n) t) as [Et|]; [|injection E as <- <-; left; by split_and!; [| |right]].
  destruct (rvr_VoteGranted resp); [|injection E as <- <-; left; by split_and!; [| |right]]. cbn [negb orb] in E.
  destruct (HasVoteQuorum _ _).
  - right. split; [done|]. split; [done|]. set (n1 := set_votes n _) in *. pose proof (becomeLeader_roles _ _ n1 _ _ Er E) as (Hr' & _ & _).
    split; [done|]. assert (node_ok n1) as Hok1 by (destruct Hok; split; [by apply wf_votes|done]).
    apply (becomeLeader_effect _ n1 _ _ L) in E as (L' & H1 & H2 & H3 & H4 & H5 & H6); [|done|done|done|by rewrite (Er : n_role n1 = candidate)].
    by exists L'.
  - injection E as <- <-. left. split; [by split|]. split; [done|]. by right.
Qed.

(** ** The leader's commit index *)

(** [n'] leads with the log of [n], and more may be committed. *)
Record acked (n : Node) (L : list Entry) (peer : N) (i : N) (n' : Node) : Prop := {
  ak_keeps : keeps n n';
  ak_log : same_log (n_store n) (n_store n');
  ak_match : forall p, (match_of (matched n') p <= match_of (matched n) p)%N \/ p = peer /\ match_of (matched n') p = i;
  ak_commit : n_commitIndex n' = n_commitIndex n \/
    (n_commitIndex n < n_commitIndex n' <= len L)%N /\ last_term (take (N.to_nat (n_commitIndex n')) L) = n_term n /\
    canCommit (n_conf n) (n_commitIndex n') (matched n') = true
}.

Lemma advance_effect n n' L :
  node_ok n -> full (n_store n) L -> advanceCommitLocked n = Some n' ->
  same_log (n_store n) (n_store n') /\ matched n' = matched n /\
  (n_commitIndex n' = n_commitIndex n \/
   (n_commitIndex n < n_commitIndex n' <= len L)%N /\ last_term (take (N.to_nat (n_commitIndex n')) L) = n_term n /\
   canCommit (n_conf n) (n_commitIndex n') (matched n') = true).
Proof.
  intros Hok HL E. assert (same_log (n_store n) (n_store n') /\ matched n' = matched n /\ n_conf n' = n_conf n) as (Hs & Hm & Hc).
  { revert E. destruct Hok as [Hwf Hw]. unfold advanceCommitLocked. destruct (_ <=? _)%N; [by intros [= <-]|]. intros E. peel E. destruct r as [err s].
    apply sync_same_log in Em as (Hs & _ & _); [|done]. destruct err; [by injection E as <-|]. peel E. destruct r as [t ok]. destruct (_ || _); by injection E as <-. }
  split; [done|]. split; [done|]. destruct (N.eq_dec (n_commitIndex n') (n_commitIndex n)) as [|Hne]; [by left|right].
  destruct (advanceCommit_rule _ _ Hok E Hne) as (H1 & H2 & H3 & _ & H5). rewrite Hc in H3. rewrite H5 in H2.
  apply (full_term_inv _ _ (full_same _ _ _ HL Hs)) in H2 as [H2 H2']. split; [lia|done].
Qed.

Lemma next_match (b : bool) p id i : matchIndex (if b then set_next p id i else p) = matchIndex p.
Proof. by destruct b. Qed.

Lemma onAppendResponse_effect c n peer req resp n' L :
  node_ok n -> full (n_store n) L -> onAppendResponse c n peer req resp = Some n' ->
  still n n' \/ n_role n = leader /\ n_term n = ae_Term req /\ aer_Success resp = true /\
    acked n L peer (ae_PrevLogIndex req +64 len (ae_Entries req)) n'.
Proof.
  intros Hok HL. unfold onAppendResponse. intros E. destruct (_ <? _)%N; [left; by eapply stepDown_still|].
  destruct (bool_decide (n_role n = leader)) eqn:Er; [|injection E as <-; by left]. apply bool_decide_eq_true in Er.
  destruct (N.eqb_spec (n_term n) (ae_Term req)) as [Et|]; [|injection E as <-; by left]. cbn [negb orb] in E.
  destruct (n_progress n) as [p|] eqn:Ep; [|done]. cbn [mbind option_bind] in E. assert (matched n = matchIndex p) as Hmp by (unfold matched; by rewrite Ep).
  destruct (aer_Success resp).
  2:{ left. peel E. injection E as <-. split; try done. intros _. rewrite Hmp. unfold matched. simpl.
      destruct (negb _); [peel Em; by injection Em as <-|]. destruct (_ <? _)%N; [by injection Em as <-|]. by destruct (_ <? _)%N; injection Em as <-. }
  right. split; [done|]. split; [done|]. split; [done|]. set (mi := ae_PrevLogIndex req +64 _) in *.
  set (p1 := if (match_of (matchIndex p) peer <? mi)%N then set_match p peer mi else p) in *.
  set (p2 := if (match_of (nextIndex p1) peer <? mi +64 1)%N then set_next p1 peer (mi +64 1) else p1) in *.
  pose proof (advanceCommit_keeps _ _ E) as [K1 K2 K3]. destruct (advance_effect (set_progress n (Some p2)) n' L) as (Hs & Hm & Hc); [destruct Hok; split; [by apply wf_set_progress|done]|done|done|].
  split; [by split|done| |done]. intros q. rewrite Hm, Hmp. unfold matched. simpl. unfold p2. rewrite next_match.
  unfold p1. destruct (match_of (matchIndex p) peer <? mi)%N; [|by left]. simpl. rewrite match_insert. case_decide; [by right|by left].
Qed.

(** ** Snapshots *)

Lemma Snapshot_effect n index data ts err n' L :
  node_ok n -> full (n_store n) L -> Snapshot Marshal n index data ts = Some (err, n') ->
  full (n_store n') L /\ n_commitIndex n' = n_commitIndex n /\ matched n' = matched n /\ (ds_snapIndex (n_store n) <= ds_snapIndex (n_store n'))%N.
Proof.
  intros [Hwf Hw] HL. unfold Snapshot. intros E. destruct (N.ltb_spec (n_lastApplied n) index) as [|Hle]; [by injection E as <- <-|].
  rewrite termAt_wf in E by apply Hwf. cbn [mbind option_bind] in E. destruct (term_of _ _) as [t|] eqn:Et; [|by injection E as <- <-].
  cbn [negb] in E. peel E. destruct r as [er s]. injection E as <- <-. apply (full_term_inv _ _ HL) in Et as [Hi Et].
  apply saveSnapshot_mem in Em as (_ & _ & _ & [(E1 & E2 & E3 & _)|(Hlt & E1 & E2 & E3 & _)]); simpl.
  - split_and!; [by eapply full_same; [exact HL|split]|done|done|by rewrite E2].
  - split_and!; [|done|done|lia]. eapply full_compact; [apply Hwf|exact HL|split; [exact Hlt|apply Hi]|done|done|congruence].
Qed.

(** A snapshot a follower is counted for. *)
Lemma onSnapshotResponse_effect c n peer req resp n' :
  onSnapshotResponse c n peer req resp = Some n' ->
  still n n' \/ n_role n = leader /\ n_term n = is_Term req /\ keeps n n' /\ n_store n' = n_store n /\ n_commitIndex n' = n_commitIndex n /\
    forall p, match_of (matched n') p = match_of (matched n) p \/ p = peer /\ match_of (matched n') p = is_LastIncludedIndex req.
Proof.
  unfold onSnapshotResponse. intros E. destruct (_ <? _)%N; [left; by eapply stepDown_still|].
  destruct (bool_decide (n_role n = leader)) eqn:Er; [|injection E as <-; by left]. apply bool_decide_eq_true in Er.
  destruct (N.eqb_spec (n_term n) (is_Term req)) as [Et|]; [|injection E as <-; by left]. cbn [negb orb] in E.
  destruct (n_progress n) as [p|] eqn:Ep; [|done]. cbn [mbind option_bind] in E. injection E as <-. right. split_and!; try done.
  assert (matched n = matchIndex p) as Hmp by (unfold matched; by rewrite Ep). intros q. rewrite Hmp. unfold matched. simpl. rewrite next_match.
  destruct (match_of (matchIndex p) peer <? is_LastIncludedIndex req)%N; [|by left]. simpl. rewrite match_insert. case_decide; [by right|by left].
Qed.

(** What a follower makes of a snapshot: the entries behind it stay. *)
Lemma HandleInstallSnapshot_effect c n req ts resp msg n' L :
  node_ok n -> full (n_store n) L -> HandleInstallSnapshot Marshal c n req ts = Some (resp, msg, true, n') ->
  n' = n \/ (n_term n <= is_Term req)%N /\ n_role n' = follower /\ n_term n' = is_Term req /\
    ((is_LastIncludedIndex req <= ds_snapIndex (n_store n))%N /\ still n n' \/
     (ds_snapIndex (n_store n) < is_LastIncludedIndex req)%N /\ n_commitIndex n' = is_LastIncludedIndex req /\
     ds_snapIndex (n_store n') = is_LastIncludedIndex req /\ ds_snapTerm (n_store n') = is_LastIncludedTerm req /\
     ds_log (n_store n') = drop (N.to_nat (is_LastIncludedIndex req)) L).
Proof.
  intros Hok HL. unfold HandleInstallSnapshot. intros E. destruct (N.ltb_spec (is_Term req) (n_term n)) as [|Hle]; [injection E as <- <- <-; by left|right].
  destruct (follow_leader_ok c n (is_Term req) (is_LeaderId req) Hok) as (n1 & E1 & [Hwf1 Hw1] & Hfo). rewrite E1 in E. cbn [mbind option_bind] in E.
  pose proof Hfo as [Hs Ec _ _ Er]. apply follow_leader_term in E1; [|done]. pose proof (full_same _ _ _ HL Hs) as HL1. split; [done|].
  rewrite <-(sl_index _ _ Hs). destruct (N.leb_spec (is_LastIncludedIndex req) (ds_snapIndex (n_store n1))) as [Hi|Hi].
  { injection E as <- <- <-. split; [done|]. split; [done|]. left. split; [done|]. split; [done|done|congruence]. }
  peel E. destruct r as [err s]. destruct err; [by injection E|]. injection E as <- <- <-. split; [done|].
  apply saveSnapshot_mem in Em as (Et & _ & _ & [(_ & _ & _ & _ & [?|?])|(_ & E1' & E2 & E3 & _)]); [done|lia|].
  split; [unfold n_term in *; simpl; congruence|]. right. simpl. split_and!; [done..|].
  rewrite E1', kept_drop, (fl_log _ _ HL1), drop_drop by (apply Hwf1 || done). f_equal. lia.
Qed.

Lemma HandleInstallSnapshot_conf c n req ts resp msg n' :
  conf_fits (n_conf n) -> is_ConfState req = encodeConfState (n_conf n) -> HandleInstallSnapshot Marshal c n req ts = Some (resp, msg, true, n') ->
  n_conf n' = n_conf n.
Proof.
  intros (Hv & Hj & _) Ecs. unfold HandleInstallSnapshot. intros E. destruct (_ <? _)%N; [by injection E as <- <- <-|]. peel E. rename r into n1.
  apply follow_leader_conf in Em. destruct (_ <=? _)%N; [by injection E as <- <- <-|]. peel E. destruct r as [err s].
  destruct err; [by injection E|]. injection E as <- <- <-. simpl. destruct (is_ConfState req) as [|b bs]; [done|].
  rewrite Ecs, decodeConfState_encode by done. done.
Qed.

(** The answer carries the term the node is left in. *)
Lemma HandleInstallSnapshot_term c n req ts resp msg n' :
  HandleInstallSnapshot Marshal c n req ts = Some (resp, msg, true, n') -> isr_Term resp = n_term n'.
Proof.
  unfold HandleInstallSnapshot. intros E. destruct (_ <? _)%N; [by injection E as <- <- <-|]. peel E. rename r into n1.
  destruct (_ <=? _)%N; [by injection E as <- <- <-|]. peel E. destruct r as [err s].
  destruct err; [by injection E|]. injection E as <- <- <-. apply saveSnapshot_mem in Em0 as (Et & _). unfold n_term. simpl. by rewrite Et.
Qed.

(** ** AppendEntries on a follower *)

(** Entries of the same term at the same index end the same prefix. *)
Definition matching (L q : list Entry) : Prop :=
  forall i, 0 < i -> i <= length L -> i <= length q -> last_term (take i L) = last_term (take i q) -> take i L = take i q.

(** The log [L] of [n], the request carrying [q]: nothing the follower knows to be
    committed disagrees with [q]. *)
Record receivable (n : Node) (L : list Entry) (req : AppendEntriesRequest) (q : list Entry) : Prop := {
  rc_carries : carries req q;
  rc_index : contiguous 1 q;
  rc_bound : (len q + 2 < two64)%N;
  rc_matching : matching L q;
  rc_committed : comparable (take (N.to_nat (n_commitIndex n)) L) q
}.

Lemma contiguous_drop q k : contiguous 1 q -> contiguous (N.of_nat k + 1) (drop k q).
Proof. intros H i e He. rewrite lookup_drop in He. apply H in He. lia. Qed.

(** The prefix at an index of which the term agrees. *)
Lemma agree_at s L q i :
  full s L -> matching L q -> term_of s i = Some (last_term (take (N.to_nat i) q)) -> (0 < i <= len q)%N ->
  take (N.to_nat i) L = take (N.to_nat i) q.
Proof. intros HL Hm Ht Hi. apply (full_term_inv _ _ HL) in Ht as [Hr Ht]. apply Hm; [lia|unfold len in *; lia..|done]. Qed.

Lemma take_comparable (L q : list Entry) c i :
  comparable (take c L) q -> i <= c -> i <= length L -> i <= length q -> take i L = take i q.
Proof.
  intros [[k Hk]|[k Hk]] Hc HL Hq.
  - rewrite Hk, take_app_le by (rewrite length_take; lia). rewrite take_take. f_equal. lia.
  - assert (take i (take c L) = take i L) as <- by (rewrite take_take; f_equal; lia). rewrite Hk, take_app_le by lia. done.
Qed.

Lemma receivable_ok n L req q : node_ok n -> full (n_store n) L -> receivable n L req q -> append_ok n req.
Proof.
  intros [Hwf _] HL [Hc Hi Hb Hm Hcom]. pose proof (carries_last _ _ Hc) as Hlast. pose proof Hc as [H1 H2 H3]. split.
  - rewrite H3. replace (ae_PrevLogIndex req) with (N.of_nat (N.to_nat (ae_PrevLogIndex req))) at 1 by lia. by apply contiguous_drop.
  - lia.
  - intros e He Hei. pose proof (nw_commit _ Hwf) as Hcm. rewrite (full_end _ _ HL) in Hcm.
    rewrite H3 in He. apply list_elem_of_lookup in He as [k Hk]. rewrite lookup_drop in Hk. pose proof (Hi _ _ Hk) as Ek. pose proof (lookup_lt_Some _ _ _ Hk).
    rewrite (full_term _ _ HL) by (unfold len in *; lia).
    rewrite (take_comparable L q (N.to_nat (n_commitIndex n)) (N.to_nat (en_Index e))) by (done || unfold len in *; lia).
    rewrite (take_next q (en_Index e) e) by (lia || (rewrite <-Hk; f_equal; lia)). unfold RaftSpec.last_term. by rewrite last_snoc.
Qed.

(** What storing [new] makes of the whole log. *)
Inductive stored (L new : list Entry) (err : option error) : list Entry -> Prop :=
  | so_same : err <> None \/ new = [] -> stored L new err L
  | so_new e0 new' j :
      new = e0 :: new' -> (err = None -> length new <= j) -> stored L new err (take (N.to_nat (en_Index e0 - 1)) L ++ take j new).

Lemma full_overwrite s s' L e0 new j :
  full s L -> (ds_snapIndex s < en_Index e0 <= log_end s)%N -> contiguous (en_Index e0) (e0 :: new) ->
  ds_snapIndex s' = ds_snapIndex s -> ds_snapTerm s' = ds_snapTerm s -> ds_log s' = take (pos s (en_Index e0)) (ds_log s) ++ take j (e0 :: new) ->
  full s' (take (N.to_nat (en_Index e0 - 1)) L ++ take j (e0 :: new)).
Proof.
  intros HL Hin Hc E1 E2 E3. rewrite (full_end _ _ HL) in Hin. pose proof HL as [H1 H2 H3 H4]. unfold len in *.
  assert (length (take (N.to_nat (en_Index e0 - 1)) L) = N.to_nat (en_Index e0 - 1)) as Hlen by (rewrite length_take; lia).
  split; rewrite ?E1, ?E2, ?E3.
  - apply contiguous_app. split; [by apply contiguous_take|]. apply contiguous_take. unfold len. rewrite Hlen.
    replace (1 + _)%N with (en_Index e0) by lia. done.
  - unfold len. rewrite length_app. lia.
  - rewrite drop_app_le by lia. f_equal. rewrite H3, skipn_firstn_comm. f_equal. unfold pos. lia.
  - rewrite take_app_le by lia. rewrite take_take, H4. do 2 f_equal. lia.
Qed.

Lemma store_entries_full n new err n' L :
  node_ok n -> new_ok n new -> full (n_store n) L -> store_entries Marshal n new = Some (err, n') ->
  exists L', full (n_store n') L' /\ stored L new err L' /\ ds_snapIndex (n_store n') = ds_snapIndex (n_store n).
Proof.
  intros [Hwf Hw] Hn HL. unfold store_entries. destruct new as [|e0 new]; [intros [= <- <-]; exists L; split; [done|split; [apply so_same; by right|done]]|].
  destruct Hn as (Hin & Hc & _). intros E. peel E. destruct r as [err1 s1]. apply appendEntries_mem in Em as (l & w & d & Es & Ho & Hl).
  assert (ds_snapIndex s1 = ds_snapIndex (n_store n)) as Hsi by by subst s1.
  assert (exists L', full s1 L' /\ stored L (e0 :: new) err1 L') as (L' & HL' & Hst).
  { destruct Hl as [[-> Hor]|(j & -> & Hj)].
    - exists L. split; [subst s1; by eapply full_same|]. by apply so_same.
    - eexists. split; [|eapply so_new; [reflexivity|exact Hj]]. rewrite after_truncate_wf in Es by (done || apply Hwf).
      eapply full_overwrite; [exact HL|exact Hin|exact Hc|by subst s1..]. }
  destruct err1 as [er|]; [injection E as <- <-; by exists L'|]. peel E. destruct r as [err2 s2]. injection E as <- <-.
  apply sync_same_log in Em as (Hs & _); [|subst s1; by apply Ho]. exists L'. split; [by eapply full_same|]. split; [|by rewrite <-Hsi; apply Hs].
  destruct Hst as [[?|?]|]; [done|done|]. eapply so_new; [done|]. intros _. auto.
Qed.

(** Where the log and the request agree. *)
Lemma agreed s L q c i :
  full s L -> matching L q -> comparable (take (N.to_nat c) L) q -> (ds_snapIndex s <= c <= len L)%N -> (i <= len q)%N ->
  (i <= ds_snapIndex s)%N \/ term_of s i = Some (last_term (take (N.to_nat i) q)) ->
  (i <= len L)%N /\ take (N.to_nat i) L = take (N.to_nat i) q.
Proof.
  intros HL Hm Hcom Hc Hi [Hle|Ht].
  - split; [lia|]. apply (take_comparable L q (N.to_nat c)); [done|unfold len in *; lia..].
  - pose proof (full_term_inv _ _ HL _ _ Ht) as [Hr _]. split; [lia|]. destruct (N.eq_dec i 0%N) as [->|]; [done|]. apply (agree_at s); [done|done|done|lia].
Qed.

Lemma drop_split {A} (q old new : list A) k :
  drop k q = old ++ new -> take (k + length old) q = take k q ++ old /\ drop (k + length old) q = new.
Proof.
  intros H. split; [by rewrite <-take_take_drop, H, take_app_length|]. by rewrite <-drop_drop, H, drop_app_length.
Qed.

(** The entries of an accepted request that the log has already. *)
Lemma agreed_old s L req q c old new :
  full s L -> matching L q -> comparable (take (N.to_nat c) L) q -> (ds_snapIndex s <= c <= len L)%N -> contiguous 1 q -> carries req q ->
  ae_Entries req = old ++ new ->
  (ae_PrevLogIndex req < ds_snapIndex s)%N \/ term_of s (ae_PrevLogIndex req) = Some (ae_PrevLogTerm req) ->
  (forall e, e ∈ old -> (en_Index e <= ds_snapIndex s)%N \/ term_of s (en_Index e) = Some (en_Term e)) ->
  let k := (ae_PrevLogIndex req + len old)%N in
  (k <= len L)%N /\ take (N.to_nat k) L = take (N.to_nat k) q /\ q = take (N.to_nat k) q ++ new.
Proof.
  intros HL Hm Hcom Hc Hi Hca Hes Hprev Hold k. destruct Hca as [H1 H2 H3]. rewrite H3 in Hes.
  destruct (drop_split _ _ _ _ Hes) as [Ht Hd]. replace (_ + length old) with (N.to_nat k) in Ht, Hd by (unfold k, len; lia).
  assert (k <= len q)%N as Hk. { apply (f_equal length) in Hes. rewrite length_drop, length_app in Hes. unfold k, len in *. lia. }
  assert ((k <= len L)%N /\ take (N.to_nat k) L = take (N.to_nat k) q) as [? ?].
  2:{ split_and!; [done|done|]. rewrite <-Hd. by rewrite take_drop. }
  apply (agreed s L q c k); [done..|]. destruct old as [|e old _] using rev_ind.
  - assert (k = ae_PrevLogIndex req) as -> by (unfold k, len; simpl; lia). destruct Hprev as [?|Hp]; [left; lia|right]. by rewrite <-H2.
  - rewrite (assoc_L (++)) in Ht. assert (en_Index e = k) as Ei.
    { pose proof (contiguous_take _ _ (N.to_nat k) Hi) as Hct. rewrite Ht in Hct. apply contiguous_last in Hct. rewrite <-Ht in Hct.
      unfold len in Hct, Hk. rewrite length_take in Hct. lia. }
    rewrite Ht. unfold RaftSpec.last_term. rewrite last_snoc. simpl. rewrite <-Ei. apply Hold. apply elem_of_app. right. by left.
Qed.

(** Taking over what an accepted request adds. *)
Lemma stored_adopts s L q k new err L' :
  full s L -> (k <= len L)%N -> take (N.to_nat k) L = take (N.to_nat k) q -> q = take (N.to_nat k) q ++ new ->
  (forall e0 new', new = e0 :: new' -> en_Index e0 = (k + 1)%N /\ (ds_snapIndex s < en_Index e0)%N /\ term_of s (en_Index e0) <> Some (en_Term e0)) ->
  stored L new err L' -> adopts L q L' /\ (err = None -> q `prefix_of` L').
Proof.
  intros HL Hk Heq Hq Hnew [Hor|e0 new' j -> Hj].
  - split; [by left|]. intros ->. destruct Hor as [?| ->]; [done|]. rewrite app_nil_r in Hq. rewrite Hq, <-Heq. apply prefix_take.
  - destruct (Hnew e0 new' eq_refl) as (Ei & Hs & Hd). rewrite Ei. replace (k + 1 - 1)%N with k by lia.
    assert (L !! N.to_nat k <> q !! N.to_nat k) as Hne.
    { intros Hl. apply Hd. assert (q !! N.to_nat k = Some e0) as He.
      { rewrite Hq, lookup_app_r, length_take by (rewrite length_take; lia). apply (f_equal length) in Hq. rewrite length_app, length_take in Hq. simpl in Hq.
        by replace (N.to_nat k - _) with 0 by lia. }
      rewrite He in Hl. pose proof (lookup_lt_Some _ _ _ Hl). rewrite (full_term _ _ HL) by (unfold len; lia).
      rewrite (take_next L (en_Index e0) e0) by (lia || (rewrite Ei, <-Hl; f_equal; lia)). unfold RaftSpec.last_term. by rewrite last_snoc. }
    split.
    + right. split; [|split].
      * intros [k' ->]. apply Hne. rewrite lookup_app_l; [done|]. rewrite Hq, length_app. rewrite <-Heq, length_take. unfold len in Hk. simpl. lia.
      * rewrite Heq. rewrite Hq at 2. apply prefix_app. apply prefix_take.
      * intros p [k1 Hp1] [k2 Hp2]. apply prefix_app_r. destruct (decide (length p <= N.to_nat k)) as [Hle|Hgt].
        -- exists (take (N.to_nat k - length p) k1). rewrite Hp1. rewrite take_app_ge by done. done.
        -- destruct Hne. rewrite Hp1, Hp2, !lookup_app_l by lia. done.
    + intros He. rewrite (take_ge (e0 :: new')) by auto. by rewrite Heq, <-Hq.
Qed.

Lemma store_entries_role n new err n' : store_entries Marshal n new = Some (err, n') -> n_role n' = n_role n.
Proof.
  unfold store_entries. destruct new; [by intros [= <- <-]|]. intros E. peel E. destruct r as [[er|] s1]; [by injection E as <- <-|].
  peel E. destruct r. by injection E as <- <-.
Qed.

(** What a follower makes of a request. *)
Record received (n : Node) (L : list Entry) (req : AppendEntriesRequest) (q : list Entry) (resp : AppendEntriesResponse) (n' : Node)
    (L' : list Entry) : Prop := {
  rv_role : n_role n' = follower;
  rv_term : n_term n' = ae_Term req;
  rv_full : full (n_store n') L';
  rv_snap : ds_snapIndex (n_store n') = ds_snapIndex (n_store n);
  rv_adopts : adopts L q L';
  rv_success : aer_Success resp = true -> q `prefix_of` L';
  rv_commit : n_commitIndex n' = n_commitIndex n \/ aer_Success resp = true /\
    n_commitIndex n' = N.max (n_commitIndex n) (N.min (ae_LeaderCommit req) (len q))
}.

Lemma HandleAppendEntries_effect c n req resp n' L q :
  node_ok n -> full (n_store n) L -> ((n_term n <= ae_Term req)%N -> receivable n L req q) ->
  HandleAppendEntries Marshal c n req = Some (resp, n') ->
  n' = n /\ aer_Success resp = false \/ (n_term n <= ae_Term req)%N /\ exists L', received n L req q resp n' L'.
Proof.
  intros Hok HL Hrc. unfold HandleAppendEntries. intros E.
  destruct (N.ltb_spec (ae_Term req) (n_term n)) as [|Hle]; [injection E as <- <-; by left|]. specialize (Hrc Hle). right. split; [done|].
  pose proof (receivable_ok _ _ _ _ Hok HL Hrc) as Hao. destruct Hrc as [Hc Hi Hb Hm Hcom].
  destruct (follow_leader_ok c n (ae_Term req) (ae_LeaderId req) Hok) as (n1 & E1 & [Hwf1 Hw1] & Hfo). rewrite E1 in E. cbn [mbind option_bind] in E.
  pose proof Hfo as [Hs Ec _ _ Er]. apply follow_leader_term in E1; [|done]. pose proof (full_same _ _ _ HL Hs) as HL1.
  destruct (check_prev_some (n_store n1) req (nw_log _ Hwf1)) as [r Hr]. rewrite Hr in E. cbn [mbind option_bind] in E. destruct r as [r|].
  { injection E as <- <-. exists L. split; [done|done|done|apply Hs|by left| |by left]. by rewrite (check_prev_rejects _ _ _ Hr). }
  pose proof (check_prev_term _ _ (nw_log _ Hwf1) Hr) as Hpt. apply check_prev_accept in Hr; [|apply Hwf1].
  destruct (toAppend_spec (n_store n1) (ae_Entries req) (ae_PrevLogIndex req + 1)) as (old & new & Eta & Hes & Hold & Hnew);
    [apply Hwf1|apply Hao|unfold log_end in *; lia|]. rewrite Eta in E. cbn [mbind option_bind] in E.
  assert (new_ok n1 new) as Hno by (by eapply (append_new_ok n)).
  destruct (store_entries_ok Marshal n1 new (conj Hwf1 Hw1) Hno) as (err & n2 & E2 & _ & Hc2 & _ & _ & Ht2 & _). rewrite E2 in E. cbn [mbind option_bind] in E.
  pose proof (store_entries_role _ _ _ _ E2) as Hr2. rewrite Er in Hr2.
  destruct (store_entries_full _ _ _ _ _ (conj Hwf1 Hw1) Hno HL1 E2) as (L' & HL' & Hst & Hsi). rewrite (sl_index _ _ Hs) in Hsi. exists L'.
  pose proof (nw_commit _ Hwf1) as Hcb. rewrite (full_end _ _ HL1), Ec in Hcb. pose proof (nw_snap _ Hwf1). pose proof (nw_applied _ Hwf1).
  destruct (agreed_old _ _ _ _ (n_commitIndex n) _ _ HL1 Hm Hcom ltac:(lia) Hi Hc Hes Hpt Hold) as (Hk & Heq & Hq).
  destruct (fun Hn => stored_adopts _ _ _ _ _ _ _ HL1 Hk Heq Hq Hn Hst) as [Had Hsucc].
  { intros e0 new' ->. destruct (Hnew e0 new' eq_refl) as [Hin Hd]. pose proof (ao_entries _ _ Hao) as Hct. rewrite Hes in Hct.
    apply contiguous_app in Hct as [_ [He _]%contiguous_cons]. split_and!; [lia|lia|]. destruct Hd as [Hd|]; [|done]. by rewrite term_of_None by lia. }
  destruct err as [er|]; injection E as <- <-; [split; [done|congruence|done|done|done|done|left; congruence]|].
  assert (n_store (follow_commit n2 req) = n_store n2 /\ n_role (follow_commit n2 req) = n_role n2) as [Est Ero] by (unfold follow_commit; by destruct (_ <? _)%N).
  split; [congruence|unfold n_term in *; congruence|by rewrite Est|by rewrite Est|done|by intros _; apply Hsucc|right]. split; [done|].
  pose proof (carries_last _ _ Hc) as Hlast. unfold follow_commit. rewrite Hc2, Ec, add64_small, Hlast by lia.
  destruct (N.ltb_spec (n_commitIndex n) (ae_LeaderCommit req)); simpl; lia.
Qed.

(** The answer carries the term the node is left in. *)
Lemma HandleAppendEntries_term c n req resp n' : HandleAppendEntries Marshal c n req = Some (resp, n') -> aer_Term resp = n_term n'.
Proof.
  unfold HandleAppendEntries. intros E. destruct (_ <? _)%N; [by injection E as <- <-|]. peel E. rename r into n1. peel E.
  destruct r as [r|].
  { injection E as <- <-. revert Em0. unfold check_prev. destruct (_ <? _)%N; [by intros [= <-]|]. destruct (_ || _); [|done].
    intros E. peel E. destruct r0 as [t ok]. destruct (_ && _); [peel E; by injection E as <-|]. destruct (negb ok); [by injection E as <-|done]. }
  peel E. peel E. destruct r0 as [err n2]. assert (n_term n2 = n_term n1) as Et.
  { revert Em2. unfold store_entries. destruct r; [by intros [= <- <-]|]. intros E2. peel E2. destruct r0 as [err1 s1]. apply appendEntries_term in Em2.
    destruct err1; [by injection E2 as <- <-|]. peel E2. destruct r0 as [err2 s2]. apply sync_term in Em3. injection E2 as <- <-. unfold n_term. simpl. congruence. }
  destruct err; injection E as <- <-; simpl; [done|]. unfold follow_commit. by destruct (_ <? _)%N.
Qed.

End effects.
