(* ===== verification/NodeDurable.v ===== *)
(** raft/node.go on a device that does not fail: which entries of a node's log a
    crash may lose. A follower or candidate has none, a leader at most those it
    proposed since its last fsync; and what a restart makes of the rest. *)

From S2P Require Import Prelude Bytes GoIO Wal Messages ConfState DiskStorage StorageCorrect StorageMem LogFacts DurableLog Node NodeWf NodeSteps NodeVotes NodeRoles NodeLog RaftSpec NodeEffects.
#[local] Open Scope nat_scope.

Section durable.
Context (Marshal : Entry -> bytes) (Unmarshal : bytes -> option Entry).
Context (Hproto : forall e, Unmarshal (Marshal e) = Some e).
Context (boot : list N).

Abbreviation disk := (disk Marshal boot).
Abbreviation sound_store := (sound_store Marshal boot).
Abbreviation entry_ok := (entry_ok Marshal).

(** At most the last [d] entries are not yet fsynced. *)
Definition durable (n : Node) (d : nat) : Prop := disk (n_store n) d /\ (n_role n <> leader -> d = 0).

(** A section after which a crash loses no more than before it. *)
Definition eases (n n' : Node) : Prop := forall d, durable n d -> exists d', d' <= d /\ durable n' d'.

#[global] Instance eases_preorder : PreOrder eases.
Proof.
  split; [intros n d H; by exists d|]. intros n1 n2 n3 H1 H2 d H. destruct (H1 d H) as (d1 & L1 & D1). destruct (H2 d1 D1) as (d2 & L2 & D2).
  exists d2. split; [lia|done].
Qed.

Lemma eases_same n n' : n_store n' = n_store n -> (n_role n = leader -> n_role n' = leader) -> eases n n'.
Proof. intros E Hr d [H1 H2]. exists d. split; [done|]. split; [by rewrite E|]. intros Hn. apply H2. intros H. by apply Hn, Hr. Qed.

Lemma eases_synced n n' : (sound_store (n_store n) -> disk (n_store n') 0) -> eases n n'.
Proof. intros H d [H1 _]. exists 0. split; [lia|]. split; [by eapply H, disk_sound|done]. Qed.

Lemma hard_eases n n' t v err s : (t < two64)%N -> (v < two64)%N -> setHardState (n_store n) t v = Some (err, s) -> n_store n' = s -> eases n n'.
Proof. intros Ht Hv E <-. apply eases_synced. intros Hs. by apply (setHardState_disk _ _ _ _ _ _ _ Hs Ht Hv) in E as [_ ?]. Qed.

Lemma sync_eases n n' err s : sync (n_store n) = Some (err, s) -> n_store n' = s -> eases n n'.
Proof. intros E <-. apply eases_synced. intros Hs. by apply (sync_disk _ _ _ _ _ Hs) in E as [_ ?]. Qed.

(** ** Sections that leave the log alone *)

Lemma stepDown_eases c n t n' : (t < two64)%N -> (n_role n = leader -> n_term n < t)%N -> stepDownLocked c n t = Some n' -> eases n n'.
Proof.
  intros Ht Hl. unfold stepDownLocked. intros E. peel E. rewind E. destruct (N.ltb_spec (n_term n) t) as [|Hge].
  - peel Em. destruct r0 as [err s]. injection Em as <-. eapply hard_eases; [exact Ht| |exact Em0|done]. done.
  - injection Em as <-. apply eases_same; [done|]. intros H%Hl. lia.
Qed.

Lemma HandleReadIndex_eases c n req resp n' : (ri_Term req < two64)%N -> HandleReadIndex c n req = Some (resp, n') -> eases n n'.
Proof.
  intros Ht. unfold HandleReadIndex. intros E. destruct (_ <? _)%N; [by injection E as <- <-|]. peel E. rename r into n1.
  assert (eases n n1) as H1 by (destruct (N.ltb_spec (n_term n) (ri_Term req)); [by eapply stepDown_eases|by injection Em as <-]).
  destruct (_ || _); [by injection E as <- <-|]. rewind E. injection E as <- <-. etrans; [exact H1|by apply eases_same].
Qed.

Lemma onReadResponse_eases c n r resp r' n' : (rir_Term resp < two64)%N -> onReadResponse c n r resp = Some (r', n') -> eases n n'.
Proof.
  intros Ht. unfold onReadResponse. intros E. destruct (N.ltb_spec (n_term n) (rir_Term resp)); [peel E; injection E as <- <-; by eapply stepDown_eases|].
  destruct (_ || _); [by injection E as <- <-|]. by destruct (rir_Ack resp); injection E as <- <-.
Qed.

Lemma clearInflight_eases n peer : eases n (clearInflight n peer).
Proof. by apply eases_same. Qed.

Lemma applier_eases n msgs n' : Forall no_conf (ds_log (n_store n)) -> applier n = Some (msgs, n') -> eases n n'.
Proof. intros Hl [i ->]%apply_loop_only; [|done]. by apply eases_same. Qed.

Lemma HandleRequestVote_eases c n req resp n' :
  (rv_Term req < two64)%N -> (rv_CandidateId req < two64)%N -> (n_term n < two64)%N -> HandleRequestVote c n req = Some (resp, n') -> eases n n'.
Proof.
  intros Ht Hc Hn. unfold HandleRequestVote. intros E. peel E. rename r into n1.
  assert (eases n n1 /\ (n_term n1 < two64)%N) as [H1 Hn1].
  { destruct (N.ltb_spec (n_term n) (rv_Term req)) as [Hlt|]; [|by injection Em as <-]. split; [exact (stepDown_eases _ _ _ _ Ht (fun _ => Hlt) Em)|].
    revert Em. unfold stepDownLocked. rewrite (proj2 (N.ltb_lt _ _)) by done. intros E1. peel E1. rewind E1. peel Em. destruct r0 as [err s].
    injection Em as <-. by apply setHardState_mem in Em0 as [w ->]. }
  clear Em. destruct (_ <? _)%N; [by injection E as <- <-|]. destruct (negb _); [by injection E as <- <-|]. peel E. destruct r as [t ok].
  destruct (_ && _); [|by injection E as <- <-]. peel E. destruct r as [err s].
  destruct err; [|rewind E]; injection E as <- <-; (etrans; [exact H1|]); (eapply hard_eases; [exact Hn1|exact Hc|exact Em0|done]).
Qed.

Lemma broadcast_synced now n out n' : sound_store (n_store n) -> broadcastAppendLocked now n = Some (out, n') -> disk (n_store n') 0.
Proof.
  intros Hs. unfold broadcastAppendLocked. intros E. peel E. destruct r as [err s]. apply (sync_disk _ _ _ _ _ Hs) in Em as [-> Hd].
  apply send_all_store in E as [Es _ _]. by rewrite Es.
Qed.

Lemma startElection_eases c n out n' :
  (n_term n + 1 < two64)%N -> (n_ID n < two64)%N -> n_role n <> leader -> startElectionLocked c n = Some (out, n') -> eases n n'.
Proof.
  intros Ht Hi Hr. unfold startElectionLocked. intros E. destruct (negb _); [rewind E; injection E as <- <-; by apply eases_same|].
  destruct (_ && _); [rewind E; injection E as <- <-; by apply eases_same|]. peel E. destruct r as [err s].
  assert (n_store n' = s) as Es by (destruct err; [by injection E as <- <-|]; rewind E; peel E; destruct r as [t ok]; by injection E as <- <-).
  eapply hard_eases; [|exact Hi|exact Em|done]. apply add64_lt.
Qed.

Lemma run_step_eases c k n out n' :
  (n_term n + 1 < two64)%N -> (n_ID n < two64)%N -> run_step c k n = Some (out, n') -> eases n n'.
Proof.
  intros Ht Hi. unfold run_step. set (n1 := if k then _ else n).
  assert (eases n n1 /\ n_term n1 = n_term n /\ n_ID n1 = n_ID n /\ n_role n1 = n_role n) as (H1 & E1 & E2 & E3).
  { subst n1. destruct k; [|done]. split_and!; [by apply eases_same|done..]. }
  clearbody n1. intros E. etrans; [exact H1|]. destruct (n_role n1) eqn:Er.
  1, 2: destruct (_ <? _)%Z; [|by injection E as <- <-]; eapply startElection_eases; [by rewrite E1|by rewrite E2|congruence|exact E].
  apply eases_synced. intros Hs. by eapply broadcast_synced.
Qed.

(** A commit index moves only after an fsync. *)
Lemma advanceCommit_eases n n' :
  advanceCommitLocked n = Some n' -> eases n n' /\ (n_commitIndex n' <> n_commitIndex n -> sound_store (n_store n) -> disk (n_store n') 0).
Proof.
  unfold advanceCommitLocked. intros E. destruct (_ <=? _)%N; [injection E as <-; split; [done|by intros []]|]. peel E. destruct r as [err s].
  assert (n_store n' = s) as Es.
  { destruct err; [by injection E as <-|]. peel E. destruct r as [t ok]. by destruct (_ || _); injection E as <-. }
  split; [by eapply sync_eases|]. intros _ Hs. rewrite Es. by apply (sync_disk _ _ _ _ _ Hs) in Em as [_ ?].
Qed.

Lemma onAppendResponse_eases c n peer req resp n' :
  (aer_Term resp < two64)%N -> onAppendResponse c n peer req resp = Some n' ->
  eases n n' /\ (n_commitIndex n' <> n_commitIndex n -> sound_store (n_store n) -> disk (n_store n') 0).
Proof.
  intros Ht. unfold onAppendResponse. intros E. destruct (N.ltb_spec (n_term n) (aer_Term resp)).
  { split; [by eapply stepDown_eases|]. pose proof (sl_commit _ _ (stepDown_still _ _ _ _ E)). congruence. }
  destruct (_ || _); [injection E as <-; split; [done|by intros []]|]. destruct (n_progress n) as [p|]; [|done]. cbn [mbind option_bind] in E.
  destruct (aer_Success resp).
  - apply advanceCommit_eases in E as [H1 H2]. split; [|done]. etrans; [|exact H1]. by apply eases_same.
  - peel E. injection E as <-. split; [by apply eases_same|by intros []].
Qed.

Lemma Snapshot_eases n index data err n' :
  node_ok n -> node_fits n -> (forall t, term_of (n_store n) index = Some t -> (t < two64)%N) ->
  Snapshot Marshal n index data [] = Some (err, n') -> eases n n'.
Proof.
  intros [Hwf Hw] Hf Ht. unfold Snapshot. intros E. destruct (N.ltb_spec (n_lastApplied n) index) as [|Hle]; [by injection E as <- <-|].
  rewrite termAt_wf in E by apply Hwf. cbn [mbind option_bind] in E. destruct (term_of _ _) as [t|] eqn:Et; [|by injection E as <- <-].
  cbn [negb] in E. peel E. destruct r as [er s]. injection E as <- <-. intros d [H1 H2]. exists d. split; [done|]. split; [|exact H2].
  eapply (saveSnapshot_disk _ _ _ _ _ _ _ _ _ _ H1); [apply Hf| |by apply Ht|exact Em].
  pose proof (lw_bound _ (nw_log _ Hwf)). pose proof (nw_applied _ Hwf). pose proof (nw_commit _ Hwf). unfold log_end in *. lia.
Qed.

(** ** The leader's log *)

Lemma Propose_durable n cmd r n' d L L' :
  node_ok n -> room n -> entry_ok (own_entry n cmd ENTRY_NORMAL None) -> full (n_store n) L -> full (n_store n') L' ->
  Propose Marshal n cmd = Some (r, n') -> durable n d -> exists d', d' <= d + (length L' - length L) /\ durable n' d'.
Proof.
  intros [Hwf Hw] Hroom He HL HL' E [Hd Hr]. revert E. unfold Propose. case_decide as Hl; [|intros [= <- <-]; exists d; split; [lia|done]].
  change (mkLogEntry _ _ _ _ _) with (own_entry n cmd ENTRY_NORMAL None). unfold appendEntryLocked. set (e := own_entry n cmd ENTRY_NORMAL None) in *.
  intros E. peel E. destruct r0 as [err s]. assert (en_Index e = log_end (n_store n)) as Hi by (apply lastIndex_next; [apply Hwf|done]).
  destruct (append_disk _ _ _ _ _ _ _ Hd He (nw_log _ Hwf) Hi Em) as (-> & El & Es & Hd').
  assert (n_store n' = s /\ n_role n' = leader) as [En Er]. { peel E. injection E as <- <-. by split. }
  exists (S d). split; [|split; [by rewrite En|congruence]]. rewrite En in HL'. pose proof (full_end _ _ HL') as H1. pose proof (full_end _ _ HL) as H2.
  unfold log_end, len in *. rewrite El, Es, length_app in H1. simpl in H1. lia.
Qed.

Lemma onVoteResponse_eases c n t resp out n' :
  node_ok n -> room n -> (rvr_Term resp < two64)%N -> entry_ok (own_entry n [] ENTRY_NORMAL None) ->
  onVoteResponse Marshal c n t resp = Some (out, n') -> eases n n'.
Proof.
  intros [Hwf Hw] Hroom Ht He. unfold onVoteResponse. intros E. destruct (N.ltb_spec (n_term n) (rvr_Term resp)).
  { peel E. injection E as <- <-. by eapply stepDown_eases. }
  destruct (_ || _); [by injection E as <- <-|]. destruct (HasVoteQuorum _ _); [|injection E as <- <-; by apply eases_same].
  revert E. unfold becomeLeaderLocked. case_decide; [intros [= <- <-]; by apply eases_same|]. intros E. peel E. destruct r as [err s].
  change (mkLogEntry _ _ _ _ _) with (own_entry n [] ENTRY_NORMAL None) in Em. set (e := own_entry n [] ENTRY_NORMAL None) in *.
  assert (en_Index e = log_end (n_store n)) as Hi by (apply lastIndex_next; [apply Hwf|done]).
  apply eases_synced. intros Hs. eapply broadcast_synced; [|exact E].
  change (n_store (set_votes n _)) with (n_store n) in Em.
  destruct (appendEntries_sound _ _ _ [e] err s Hs) as [-> Hs']; [by constructor| |exact Em|exact Hs'].
  constructor; [|constructor]. rewrite Hi. unfold log_end. lia.
Qed.

(** ** AppendEntries on a follower *)

Lemma follow_leader_synced c n t id n' d :
  (t < two64)%N -> (n_role n = leader -> n_term n < t)%N -> durable n d -> follow_leader c n t id = Some n' -> disk (n_store n') 0.
Proof.
  intros Ht Hl Hd. unfold follow_leader. intros E. peel E. rewind E. change (disk (n_store r) 0).
  assert (eases n r /\ n_role r = follower) as [He Hr].
  { destruct ((n_term n <? t)%N || negb (bool_decide (n_role n = follower))) eqn:Eb.
    - split; [exact (stepDown_eases _ _ _ _ Ht Hl Em)|by eapply stepDown_follower].
    - injection Em as <-. apply orb_false_iff in Eb as [_ Eb]. by destruct (bool_decide_reflect (n_role n = follower)). }
  destruct (He d Hd) as (d' & _ & Hd' & Hz). by rewrite <-(Hz ltac:(congruence)).
Qed.

Lemma new_entries_synced n new err n' :
  new_ok n new -> Forall entry_ok new -> disk (n_store n) 0 -> store_entries Marshal n new = Some (err, n') -> disk (n_store n') 0.
Proof.
  intros Hn He Hd. unfold store_entries. destruct new as [|e0 new]; [by intros [= <- <-]|]. destruct Hn as (Hin & Hc & _).
  intros E. peel E. destruct r as [err1 s1]. destruct (fun H => appendEntries_sound _ _ _ _ _ _ (disk_sound _ _ _ _ Hd) He H Em) as [-> Hs].
  - apply Forall_lookup_2. intros i e Hi. apply Hc in Hi. lia.
  - peel E. destruct r as [err2 s2]. injection E as <- <-. by apply (sync_disk _ _ _ _ _ Hs) in Em0 as [_ ?].
Qed.

(** A request is refused as stale, or everything is fsynced before the answer. *)
Lemma HandleAppendEntries_synced c n req resp n' d :
  node_ok n -> append_ok n req -> (ae_Term req < two64)%N -> Forall entry_ok (ae_Entries req) -> (n_role n = leader -> n_term n <> ae_Term req) ->
  durable n d -> HandleAppendEntries Marshal c n req = Some (resp, n') -> n' = n \/ disk (n_store n') 0.
Proof.
  intros Hok Hao Ht He Hl Hd. unfold HandleAppendEntries. intros E. destruct (N.ltb_spec (ae_Term req) (n_term n)) as [|Hge]; [injection E as <- <-; by left|right].
  destruct (follow_leader_ok c n (ae_Term req) (ae_LeaderId req) Hok) as (n1 & E1 & [Hwf1 Hw1] & Hfo). rewrite E1 in E. cbn [mbind option_bind] in E.
  assert (disk (n_store n1) 0) as Hd1 by (eapply follow_leader_synced; [exact Ht|intros Hr%Hl; lia|exact Hd|exact E1]).
  destruct (check_prev_some (n_store n1) req (nw_log _ Hwf1)) as [r Hr]. rewrite Hr in E. cbn [mbind option_bind] in E.
  destruct r as [r|]; [by injection E as <- <-|]. apply check_prev_accept in Hr; [|apply Hwf1].
  destruct (toAppend_spec (n_store n1) (ae_Entries req) (ae_PrevLogIndex req + 1)) as (old & new & Eta & Hes & Hold & Hnew);
    [apply Hwf1|apply Hao|unfold log_end in *; lia|]. rewrite Eta in E. cbn [mbind option_bind] in E.
  assert (new_ok n1 new) as Hno by (by eapply (append_new_ok n)).
  peel E. destruct r as [err n2]. apply new_entries_synced in Em; [|done|rewrite Hes in He; by apply Forall_app in He as [_ ?]|done].
  destruct err; injection E as <- <-; [done|]. unfold follow_commit. by destruct (_ <? _)%N.
Qed.

(** ** Snapshots of the leader *)

Lemma onSnapshotResponse_eases c n peer req resp n' : (isr_Term resp < two64)%N -> onSnapshotResponse c n peer req resp = Some n' -> eases n n'.
Proof.
  intros Ht. unfold onSnapshotResponse. intros E. destruct (N.ltb_spec (n_term n) (isr_Term resp)); [by eapply stepDown_eases|].
  destruct (_ || _); [by injection E as <-|]. destruct (n_progress n) as [p|]; [|done]. cbn [mbind option_bind] in E. injection E as <-. by apply eases_same.
Qed.

Lemma HandleInstallSnapshot_synced c n req resp msg n' d :
  node_ok n -> (is_Term req < two64)%N -> (is_LastIncludedIndex req < two64)%N -> (is_LastIncludedTerm req < two64)%N ->
  conf_fits (n_conf n) -> is_ConfState req = encodeConfState (n_conf n) -> (n_role n = leader -> n_term n <> is_Term req) ->
  durable n d -> HandleInstallSnapshot Marshal c n req [] = Some (resp, msg, true, n') -> n' = n \/ disk (n_store n') 0.
Proof.
  intros Hok Ht Hi Hlt Hc Ecs Hl Hd. unfold HandleInstallSnapshot. intros E. destruct (N.ltb_spec (is_Term req) (n_term n)) as [|Hge]; [injection E as <- <- <-; by left|right].
  peel E. rename r into n1. pose proof (follow_leader_conf _ _ _ _ _ Em) as Ec.
  assert (disk (n_store n1) 0) as Hd1 by (eapply follow_leader_synced; [exact Ht|intros Hr%Hl; lia|exact Hd|exact Em]).
  destruct (_ <=? _)%N; [by injection E as <- <- <-|]. peel E. destruct r as [err s]. destruct err; [by injection E|]. injection E as <- <- <-.
  eapply (saveSnapshot_disk _ _ _ _ _ _ _ _ _ _ Hd1); [|exact Hi|exact Hlt|exact Em0].
  destruct (is_ConfState req) as [|b bs]; [by rewrite Ec|]. rewrite Ecs, decodeConfState_encode by apply Hc. done.
Qed.

(** ** Restarting *)

(** What a restart makes of the directory after a crash: the term, the vote and the
    snapshot as they were, and the log without some of its last [d] entries. *)
Lemma restart_durable n d L w k c cfg n' :
  durable n d -> node_ok n -> full (n_store n) L -> ds_wal (n_store n) = Some w -> cfg_Peers cfg = boot -> Voters (n_conf n') <> ∅ ->
  NewNode Unmarshal c cfg (ds_files (n_store n)) (Some (crash (wal_file w) k)) = Ok n' ->
  node_ok n' /\ n_role n' = follower /\ n_term n' = n_term n /\ n_commitIndex n' = ds_snapIndex (n_store n) /\
  ds_snapIndex (n_store n') = ds_snapIndex (n_store n) /\ exists m, length L - d <= m /\ full (n_store n') (take m L).
Proof using Hproto.
  intros [Hd _] [Hwf _] HL Hw Hp Hv. unfold NewNode. change (cfg_Peers (fill cfg)) with (cfg_Peers cfg). rewrite Hp.
  destruct (disk_recovers _ _ Hproto _ _ _ _ k Hd Hw) as (s & m & -> & Hst & Hwal & El & Hm). cbn [rbind].
  destruct (resetElectionTimerLocked c _) as [nr|] eqn:Er; [|done]. intros [= <-]. apply reset_inv in Er as [Htm [dl ->]].
  unfold stable in Hst. injection Hst as E1 E2 E3 E4 E5 E6. pose proof HL as [H1 H2 H3 H4].
  assert (length L = N.to_nat (ds_snapIndex (n_store n)) + length (ds_log (n_store n))) as HlL by (rewrite H3, length_drop; unfold len in H2; lia).
  assert (full s (take (N.to_nat (ds_snapIndex (n_store n)) + m) L)) as Hf.
  { split; rewrite ?E4, ?E5.
    - by apply contiguous_take.
    - unfold len in *. rewrite length_take. lia.
    - by rewrite El, H3, skipn_firstn_comm, Nat.add_comm, Nat.add_sub.
    - rewrite take_take, Nat.min_l by lia. done. }
  assert ((if (0 <? ds_snapIndex s)%N then ds_snapIndex s else 0%N) = ds_snapIndex (n_store n)) as Ea.
  { rewrite E4. destruct (N.ltb_spec 0 (ds_snapIndex (n_store n))); lia. }
  assert (log_wf s) as Hls.
  { pose proof (nw_log _ Hwf) as [Hc Hb]%log_wf_contiguous. apply log_wf_contiguous. rewrite E4, El. split; [by apply contiguous_take|].
    unfold len in *. rewrite length_take. lia. }
  split; [split; [split; simpl; rewrite ?Ea, ?E4; try done; [unfold log_end; rewrite E4; lia]|exact Hwal]|].
  split; [done|]. split; [done|]. split; [exact Ea|]. split; [exact E4|]. eexists. split; [|exact Hf]. lia.
Qed.

(** Stop on a device that does not fail closes the storage without an error. *)
Lemma Stop_clean n d n1 : durable n d -> Stop n = Some n1 -> exists s1, ds_close (n_store n) = Some (None, s1) /\ n1 = set_store n s1 /\ ds_files s1 = ds_files (n_store n).
Proof.
  intros [([_ (w0 & Ew & Hh & He)] & _) _]. unfold Stop, ds_close. rewrite Ew. cbn [mbind option_bind]. destruct (Close_no_fault w0 He Hh) as (w1 & -> & _).
  intros [= <-]. by eexists.
Qed.

(** Stop, and a new start on the directory it leaves: the term, the vote, the
    snapshot and the log are as they were, and all of it is on disk. *)
Lemma restart_clean n d L n1 w c cfg n' :
  durable n d -> node_ok n -> full (n_store n) L -> Stop n = Some n1 -> ds_wal (n_store n1) = Some w -> cfg_Peers cfg = boot -> Voters (n_conf n') <> ∅ ->
  NewNode Unmarshal c cfg (ds_files (n_store n1)) (Some (reopen (wal_file w))) = Ok n' ->
  durable n' 0 /\ node_ok n' /\ n_role n' = follower /\ n_term n' = n_term n /\ n_commitIndex n' = ds_snapIndex (n_store n) /\
  ds_snapIndex (n_store n') = ds_snapIndex (n_store n) /\ full (n_store n') L.
Proof using Hproto.
  intros Hd [Hwf _] HL Hst Hw Hp Hv. destruct (Stop_clean _ _ _ Hd Hst) as (s1 & Hc & -> & Ef). simpl in *. rewrite Ef.
  unfold NewNode. change (cfg_Peers (fill cfg)) with (cfg_Peers cfg). rewrite Hp.
  destruct (openDiskStorage _ _ _ _) as [s| |] eqn:Eo; [|done..]. cbn [rbind].
  destruct (resetElectionTimerLocked c _) as [nr|] eqn:Er; [|done]. intros [= <-]. apply reset_inv in Er as [Htm [dl ->]].
  destruct (disk_reopen _ _ Hproto _ _ _ _ _ _ (proj1 Hd) Hc Hw Eo) as (Hd' & Ec & Hwal). unfold core, stable in Ec. injection Ec as E1 E2 E3 E4 E5 E6 El.
  assert ((if (0 <? ds_snapIndex s)%N then ds_snapIndex s else 0%N) = ds_snapIndex (n_store n)) as Ea.
  { rewrite E4. destruct (N.ltb_spec 0 (ds_snapIndex (n_store n))); lia. }
  assert (log_wf s) as Hls by (apply log_wf_contiguous; rewrite E4, El; apply log_wf_contiguous, (nw_log _ Hwf)).
  split; [by split|]. split; [split; [split; simpl; rewrite ?Ea, ?E4; try done; [unfold log_end; rewrite E4; lia]|exact Hwal]|].
  split_and!; [done|done|exact Ea|exact E4|]. destruct HL as [H1 H2 H3 H4]. split; simpl; rewrite ?E4, ?E5, ?El; done.
Qed.

End durable.
