(* ===== verification/LogView.v ===== *)
(** raft/node.go: the log a node shows and the log of the protocol. They are the same,
    but for one case: HandleInstallSnapshot keeps the entries behind a snapshot
    even when the log disagrees with the snapshot before them. The node then shows
    the snapshot's entries followed by those it kept, while for the protocol it
    still has the log it had. *)

From S2P Require Import Prelude Bytes GoIO Wal Messages ConfState DiskStorage StorageCorrect StorageMem LogFacts Node NodeWf RaftSpec NodeEffects.
#[local] Open Scope nat_scope.

Abbreviation snap_len n := (N.to_nat (ds_snapIndex (n_store n))).

(** [V] is what [n] shows; up to its snapshot it disagrees with the log [L]. *)
Record behind (L V : list Entry) (n : Node) : Prop := {
  bh_tail : V = take (snap_len n) V ++ drop (snap_len n) L;
  bh_long : snap_len n < length L;
  bh_off : ~ take (snap_len n) V `prefix_of` L;
  bh_commit : n_commitIndex n = ds_snapIndex (n_store n);
  bh_role : n_role n <> leader
}.

Definition shows (L V : list Entry) (n : Node) : Prop := V = L \/ behind L V n.

Lemma shows_same L V n n' :
  shows L V n -> ds_snapIndex (n_store n') = ds_snapIndex (n_store n) -> n_commitIndex n' = n_commitIndex n ->
  (n_role n' = leader -> n_role n = leader) -> shows L V n'.
Proof. intros [->|[H1 H2 H3 H4 H5]] Es Ec Hr; [by left|right]. split; rewrite ?Es; [done..|congruence|auto]. Qed.

Lemma shows_leader L V n : shows L V n -> n_role n = leader -> V = L.
Proof. intros [->|[_ _ _ _ H]] Hr; done. Qed.

Lemma last_term_lookup (X Y : list Entry) i : 0 < i -> X !! (i - 1) = Y !! (i - 1) -> i <= length X -> i <= length Y -> last_term (take i X) = last_term (take i Y).
Proof.
  intros Hi He HX HY. destruct (lookup_lt_is_Some_2 X (i - 1)) as [e Hx]; [lia|]. pose proof Hx as Hy. rewrite He in Hy.
  replace i with (S (i - 1)) by lia. rewrite (take_S_r _ _ _ Hx), (take_S_r _ _ _ Hy). unfold RaftSpec.last_term. by rewrite !last_snoc.
Qed.

Section view.
Context (L V : list Entry) (n : Node) (HV : full (n_store n) V).

Lemma snap_len_le : snap_len n <= length V.
Proof using HV. pose proof (fl_snap _ _ HV). unfold len in *. lia. Qed.

Lemma view_entry i : shows L V n -> snap_len n <= i -> V !! i = L !! i.
Proof using HV.
  intros [->|Hb] Hi; [done|]. pose proof snap_len_le. rewrite (bh_tail _ _ _ Hb).
  rewrite lookup_app_r, length_take, Nat.min_l, lookup_drop by (rewrite ?length_take; lia). f_equal. lia.
Qed.

Lemma view_drop i : shows L V n -> snap_len n <= i -> drop i V = drop i L.
Proof using HV. intros Hs Hi. apply list_eq. intros j. rewrite !lookup_drop. apply view_entry; [done|lia]. Qed.

Lemma view_length : shows L V n -> length V = length L.
Proof using HV.
  intros [->|Hb]; [done|]. pose proof snap_len_le. pose proof (bh_long _ _ _ Hb). rewrite (bh_tail _ _ _ Hb), length_app, length_take, length_drop. lia.
Qed.

Lemma view_last : shows L V n -> last_term V = last_term L.
Proof using HV.
  intros Hs. pose proof (view_length Hs) as Hl. destruct Hs as [->|Hb]; [done|]. pose proof (bh_long _ _ _ Hb).
  rewrite <-(take_ge V (length V)), <-(take_ge L (length V)) by lia. apply last_term_lookup; [lia| |lia|lia]. apply view_entry; [by right|lia].
Qed.

End view.

(** ** Requests *)

Section spec.
Context (quorum : gset N -> Prop).
Context (Hquorum : forall S1 S2, quorum S1 -> quorum S2 -> exists v, v ∈ S1 /\ v ∈ S2).
Abbreviation raft_inv := (raft_inv en_Term quorum).
Abbreviation on_chain := (on_chain en_Term).

(** What a message carries keeps what agrees with it. *)
Lemma adopts_keeps (V q V' p : list Entry) : adopts V q V' -> comparable p q -> p `prefix_of` V -> p `prefix_of` V'.
Proof. intros [->|(Hn & _ & Hk)] [Hp|Hp] Hv; [done..|by apply Hk|]. destruct Hn. by etrans. Qed.

Context (st : @raft Entry) (Hi : raft_inv st) (L V : list Entry) (n : Node) (HV : full (n_store n) V).
Context (HL : L = [] \/ r_made st L) (t : N) (q : list Entry) (Hq : on_chain st t q).
Context (Hk : known st t (take (snap_len n) V)).

(** No leader's log has what such a node keeps. *)
Lemma behind_differs i :
  behind L V n -> snap_len n < i -> i <= length L -> i <= length q -> last_term (take i L) <> last_term (take i q).
Proof using Hi HV HL Hq Hk Hquorum.
  intros Hb Hsi Hil Hiq Ht. assert (take i L = take i q) as Heq.
  { eapply log_matching; [exact Hi|exact HL|by eapply chain_made|lia|done|done|exact Ht]. }
  assert (take (snap_len n) V `prefix_of` take i q) as Hp.
  { pose proof (snap_len_le _ _ HV) as Hsl. assert (length (take (snap_len n) V) = snap_len n) as Hlen by (rewrite length_take; lia).
    destruct (known_chain _ _ Hquorum st t t _ q Hi Hk ltac:(done) Hq) as [H|H]; [|apply prefix_length in H; lia].
    destruct (prefix_weak_total _ _ _ H (prefix_take q i)) as [Hp|Hp]; [done|]. apply prefix_length in Hp. rewrite length_take in Hp. lia. }
  apply (bh_off _ _ _ Hb). rewrite <-Heq in Hp. etrans; [exact Hp|apply prefix_take].
Qed.

Lemma view_matching : shows L V n -> matching V q.
Proof using Hi HV HL Hq Hk Hquorum.
  intros Hs i H0 Hiv Hiq Ht. destruct (decide (i <= snap_len n)) as [Hle|Hgt].
  { apply (take_comparable V q (snap_len n)); [|done..]. by eapply known_chain. }
  pose proof (view_length _ _ _ HV Hs) as Hl. destruct Hs as [->|Hb]; [eapply log_matching; [exact Hi|exact HL|by eapply chain_made|done..]|].
  destruct (behind_differs i Hb ltac:(lia) ltac:(lia) Hiq). rewrite <-Ht. symmetry. apply last_term_lookup; [done| |done|lia].
  apply (view_entry L V n HV); [by right|lia].
Qed.

(** A node that already shows all of [q] has it, or has a snapshot of it. *)
Lemma behind_prefix : behind L V n -> q `prefix_of` V -> length q <= snap_len n.
Proof using Hi HV HL Hq Hk Hquorum.
  intros Hb Hp. destruct (decide (length q <= snap_len n)) as [|Hgt]; [done|]. pose proof (prefix_length _ _ Hp) as Hlen.
  pose proof (view_length _ _ _ HV (or_intror Hb)) as Hl. destruct (behind_differs (length q) Hb ltac:(lia) ltac:(lia) ltac:(done)).
  destruct Hp as [k Hp]. assert (take (length q) q = take (length q) V) as -> by by rewrite Hp, take_app_length, take_ge.
  symmetry. apply last_term_lookup; [lia| |lia|lia]. apply (view_entry L V n HV); [by right|lia].
Qed.

(** Taking over [q] as [V'] is taking it over from the log of the protocol. *)
Lemma behind_adopts V' : behind L V n -> V' <> V -> adopts V q V' -> adopts L q V'.
Proof using Hi HV HL Hq Hk Hquorum.
  intros Hb Hne [?|(Hn & Hpre & Hkeep)]; [done|]. right.
  assert (take (snap_len n) V `prefix_of` q) as Hpq.
  { destruct (known_chain _ _ Hquorum st t t _ q Hi Hk ltac:(done) Hq) as [H|H]; [done|]. destruct Hn. etrans; [exact H|apply prefix_take]. }
  split; [|split; [done|]].
  - intros H. apply (bh_off _ _ _ Hb). by etrans.
  - intros p HpL Hp. destruct (prefix_weak_total _ _ _ Hp Hpq) as [H|H].
    + apply Hkeep; [|done]. etrans; [exact H|apply prefix_take].
    + destruct (bh_off _ _ _ Hb). by etrans.
Qed.

End spec.

(** ** A snapshot *)

Section installed.
Context (L V P : list Entry) (n n' : Node) (HV : full (n_store n) V) (Hsh : shows L V n).
Context (HP : contiguous 1 P) (Hlt : snap_len n < length P).
Context (Hsnap : ds_snapIndex (n_store n') = len P) (Hterm : ds_snapTerm (n_store n') = last_term P).
Context (Hlog : ds_log (n_store n') = drop (length P) V).

Lemma snap_drop : drop (length P) V = drop (length P) L.
Proof using HV Hsh Hlt. apply (view_drop L V n HV); [done|clear Hsnap Hterm; lia]. Qed.

Lemma installed_full : full (n_store n') (P ++ drop (length P) L).
Proof using HV Hsh HP Hlt Hsnap Hterm Hlog.
  assert (N.to_nat (len P) = length P) as HlP by (unfold len; lia). split; rewrite ?Hsnap, ?HlP.
  - rewrite <-snap_drop. apply contiguous_app. split; [done|]. replace (1 + len P)%N with (N.of_nat (length P) + 1)%N by (unfold len; lia).
    apply contiguous_drop, HV.
  - unfold len. rewrite length_app. lia.
  - by rewrite drop_app_length, Hlog, snap_drop.
  - by rewrite take_app_length.
Qed.

Lemma installed_view :
  n_commitIndex n' = len P -> n_role n' = follower -> exists l, adopts L P l /\ shows l (P ++ drop (length P) L) n'.
Proof using HV Hsh HP Hlt Hsnap Hterm Hlog.
  intros Hc Hr. assert (snap_len n' = length P) as Hs by (rewrite Hsnap; unfold len; lia). destruct (decide (P `prefix_of` L)) as [[k ->]|Hoff].
  { exists (P ++ k). split; [by left|left]. by rewrite drop_app_length. }
  destruct (decide (length L <= length P)) as [Hle|Hgt].
  { exists P. split; [|left; by rewrite drop_ge, app_nil_r]. right. by split. }
  exists L. split; [by left|right]. split; rewrite ?Hs, ?take_app_length; [done|lia|done|congruence|congruence].
Qed.

End installed.

(** ** A restart *)

(** A node behind a snapshot restarts as it was, when all of its log is on the device. *)
Lemma restarted_view L V n n' d m :
  full (n_store n) V -> shows L V n -> (V <> L -> d = 0) -> length V - d <= m -> ds_snapIndex (n_store n') = ds_snapIndex (n_store n) ->
  n_commitIndex n' = ds_snapIndex (n_store n) -> n_role n' = follower -> shows (take m L) (take m V) n'.
Proof.
  intros HV Hs Hd Hm Es Ec Hr. pose proof (view_length _ _ _ HV Hs) as Hl. destruct (decide (V = L)) as [->|Hne]; [by left|].
  rewrite (Hd Hne) in Hm. rewrite !take_ge by lia. destruct Hs as [?|[H1 H2 H3 H4 H5]]; [done|right]. split; rewrite ?Es; [done..|congruence|congruence].
Qed.
