(* ===== verification/Replication.v ===== *)
(** raft/node.go: replication in a cluster. On top of Cluster's elections, the
    requests that replicate the log are in a network that delivers each of them
    any number of times, late, out of order or never, and so are the answers. A
    node whose device does not fail may be stopped and restarted any number of
    times, and crash once, losing what was not fsynced, and restart. Nodes compact their logs and send their snapshots to nodes that
    lag. The membership is the bootstrap one. The cluster implements the protocol of
    RaftSpec. *)

From S2P Require Import Prelude Bytes GoIO Wal Messages ConfState DiskStorage StorageCorrect StorageMem LogFacts Node NodeWf NodeSteps NodeVotes NodeRoles NodeLog Cluster RaftSpec NodeEffects LogView DurableLog NodeDurable.

(** ** The cluster *)

(** The requests that carry the log. *)
Inductive message :=
  | MsgAppend (req : AppendEntriesRequest)
  | MsgInstall (req : InstallSnapshotRequest).

(** A request and its answer. *)
Inductive answer :=
  | AnsAppend (req : AppendEntriesRequest) (resp : AppendEntriesResponse)
  | AnsInstall (req : InstallSnapshotRequest) (resp : InstallSnapshotResponse).

(** [rc_sent] and [rc_answers] hold what was ever sent, with the sender of the request
    and the peer. *)
Record replication := mkReplication {
  rc_cluster : cluster;
  rc_sent : list (N * N * message);
  rc_answers : list (N * N * answer)
}.

(** The requests among the calls a section of [i] starts. *)
Definition message_of (i : N) (r : rpc) : option (N * N * message) :=
  match r with RpcAppend p req => Some (i, p, MsgAppend req) | RpcSnapshot p req => Some (i, p, MsgInstall req) | RpcVote _ _ => None end.
Definition messages (i : N) (out : list rpc) : list (N * N * message) := omap (message_of i) out.

Lemma messages_votes i out : only_votes out -> messages i out = [].
Proof. induction 1 as [|[] out Hr _ IH]; done. Qed.

(** The sections that need no message of another node. *)
Definition local (ev : event) : Prop :=
  match ev with EvSent _ | EvRead _ | EvReadResp _ _ | EvPropose _ | EvApply | EvSnapshot _ _ _ => True | _ => False end.

Section replication.
Context (Marshal : Entry -> bytes) (Unmarshal : bytes -> option Entry).
Context (Hproto : forall e, Unmarshal (Marshal e) = Some e).
Context (cfg : N -> Config) (boot : list N).
Context (Hcfg : forall i, cfg_ID (cfg i) = i /\ cfg_Peers (cfg i) = boot) (Hboot : boot <> []).

(** The nodes whose device does not fail: they may crash. *)
Context (reliable : N -> Prop).

Abbreviation C := (NewConfState boot).
Abbreviation cstep := (cstep Marshal Unmarshal cfg boot).
Abbreviation cluster_inv := (cluster_inv Marshal Unmarshal boot).
Abbreviation raft := (@raft Entry).
Abbreviation raft_inv := (raft_inv en_Term (ConfState.quorum C)).
Abbreviation raft_step := (raft_step en_Term (ConfState.quorum C)).
Abbreviation raft_steps := (raft_steps en_Term (ConfState.quorum C)).
Abbreviation on_chain := (on_chain en_Term).

(** Numbers of 64 bits, and room for one more entry. *)
Definition widths (n : Node) (ev : event) : Prop :=
  match ev with
  | EvRead req => (ri_Term req < two64)%N
  | EvReadResp _ resp => (rir_Term resp < two64)%N
  | EvPropose cmd => entry_ok Marshal (own_entry n cmd ENTRY_NORMAL None) /\ room n
  | _ => True
  end.

(** No call of a snapshot fails. *)
Definition no_fault (ev : event) : Prop := match ev with EvSnapshot _ _ ts => ts = [] | _ => True end.

Inductive rstep (rc : replication) : replication -> Prop :=
  | rs_local i r c ev out n' :
      cl_nodes (rc_cluster rc) !! i = Some r -> local ev -> widths (rp_node r) ev -> (reliable i -> no_fault ev) ->
      exec Marshal c ev (rp_node r) = Some (out, n') -> out <> OutFault ->
      rstep rc (mkReplication
        (mkCluster (with_node (rc_cluster rc) i n' (rp_restarted r)) (cl_calls (rc_cluster rc)) (cl_votes (rc_cluster rc)))
        (rc_sent rc) (rc_answers rc))
  | rs_run i r c k out n' :
      cl_nodes (rc_cluster rc) !! i = Some r -> (n_term (rp_node r) + 1 < two64)%N -> run_step c k (rp_node r) = Some (out, n') ->
      rstep rc (mkReplication
        (mkCluster (with_node (rc_cluster rc) i n' (rp_restarted r)) (add_calls i out (cl_calls (rc_cluster rc)))
           (own_votes i out (cl_votes (rc_cluster rc))))
        (messages i out ++ rc_sent rc) (rc_answers rc))
  | rs_request i j t req r c resp n' :
      cl_calls (rc_cluster rc) !! (i, j, t) = Some (req, None) -> cl_nodes (rc_cluster rc) !! j = Some r ->
      HandleRequestVote c (rp_node r) req = Some (resp, n') ->
      rstep rc (mkReplication
        (mkCluster (with_node (rc_cluster rc) j n' (rp_restarted r)) (<[(i, j, t) := (req, Some resp)]> (cl_calls (rc_cluster rc)))
           (if rvr_VoteGranted resp then {[(j, rv_Term req, rv_CandidateId req)]} ∪ cl_votes (rc_cluster rc) else cl_votes (rc_cluster rc)))
        (rc_sent rc) (rc_answers rc))
  | rs_answer i j t req resp r c out n' :
      cl_calls (rc_cluster rc) !! (i, j, t) = Some (req, Some resp) -> cl_nodes (rc_cluster rc) !! i = Some r ->
      entry_ok Marshal (own_entry (rp_node r) [] ENTRY_NORMAL None) -> room (rp_node r) ->
      onVoteResponse Marshal c (rp_node r) (rv_Term req) resp = Some (out, n') ->
      rstep rc (mkReplication
        (mkCluster (with_node (rc_cluster rc) i n' (rp_restarted r)) (delete (i, j, t) (cl_calls (rc_cluster rc))) (cl_votes (rc_cluster rc)))
        (messages i out ++ rc_sent rc) (rc_answers rc))
  | rs_append i j req r c resp n' :
      (i, j, MsgAppend req) ∈ rc_sent rc -> cl_nodes (rc_cluster rc) !! j = Some r ->
      (ae_PrevLogIndex req + len (ae_Entries req) + 2 < two64)%N ->
      HandleAppendEntries Marshal c (rp_node r) req = Some (resp, n') ->
      rstep rc (mkReplication
        (mkCluster (with_node (rc_cluster rc) j n' (rp_restarted r)) (cl_calls (rc_cluster rc)) (cl_votes (rc_cluster rc)))
        (rc_sent rc) ((i, j, AnsAppend req resp) :: rc_answers rc))
  | rs_acked i j req resp r c n' :
      (i, j, AnsAppend req resp) ∈ rc_answers rc -> cl_nodes (rc_cluster rc) !! i = Some r ->
      onAppendResponse c (rp_node r) j req resp = Some n' ->
      rstep rc (mkReplication
        (mkCluster (with_node (rc_cluster rc) i n' (rp_restarted r)) (cl_calls (rc_cluster rc)) (cl_votes (rc_cluster rc)))
        (rc_sent rc) (rc_answers rc))
  | rs_install i j req r c ts resp msg n' :
      (i, j, MsgInstall req) ∈ rc_sent rc -> cl_nodes (rc_cluster rc) !! j = Some r -> (reliable j -> ts = []) ->
      HandleInstallSnapshot Marshal c (rp_node r) req ts = Some (resp, msg, true, n') ->
      rstep rc (mkReplication
        (mkCluster (with_node (rc_cluster rc) j n' (rp_restarted r)) (cl_calls (rc_cluster rc)) (cl_votes (rc_cluster rc)))
        (rc_sent rc) ((i, j, AnsInstall req resp) :: rc_answers rc))
  | rs_installed i j req resp r c n' :
      (i, j, AnsInstall req resp) ∈ rc_answers rc -> cl_nodes (rc_cluster rc) !! i = Some r ->
      onSnapshotResponse c (rp_node r) j req resp = Some n' ->
      rstep rc (mkReplication
        (mkCluster (with_node (rc_cluster rc) i n' (rp_restarted r)) (cl_calls (rc_cluster rc)) (cl_votes (rc_cluster rc)))
        (rc_sent rc) (rc_answers rc))
  | rs_crash i r w k c n' :
      cl_nodes (rc_cluster rc) !! i = Some r -> reliable i -> rp_restarted r = false -> ds_wal (n_store (rp_node r)) = Some w ->
      NewNode Unmarshal c (cfg i) (ds_files (n_store (rp_node r))) (Some (crash (wal_file w) k)) = Ok n' -> n_conf n' = C ->
      rstep rc (mkReplication
        (mkCluster (with_node (rc_cluster rc) i n' true) (cl_calls (rc_cluster rc)) (cl_votes (rc_cluster rc)))
        (rc_sent rc) (rc_answers rc))
  | rs_restart i r n1 w c n' :
      cl_nodes (rc_cluster rc) !! i = Some r -> reliable i -> rp_restarted r = false ->
      Stop (rp_node r) = Some n1 -> ds_wal (n_store n1) = Some w ->
      NewNode Unmarshal c (cfg i) (ds_files (n_store n1)) (Some (reopen (wal_file w))) = Ok n' -> n_conf n' = C ->
      rstep rc (mkReplication
        (mkCluster (with_node (rc_cluster rc) i n' false) (cl_calls (rc_cluster rc)) (cl_votes (rc_cluster rc)))
        (rc_sent rc) (rc_answers rc)).

Inductive rsteps (rc : replication) : replication -> Prop :=
  | rsteps_refl : rsteps rc rc
  | rsteps_step rc1 rc2 : rsteps rc rc1 -> rstep rc1 rc2 -> rsteps rc rc2.

Definition replication_start (rc : replication) : Prop :=
  cluster_start cfg (rc_cluster rc) /\ rc_sent rc = [] /\ rc_answers rc = [] /\
  forall i r, cl_nodes (rc_cluster rc) !! i = Some r -> reliable i -> exists c, rp_node r = fresh_node c (cfg i) [] [].

(** ** The simulation *)

(** [p] has the first [k] entries of the log of term [t]: it acknowledged them in that
    term, or they are committed (and [p] was sent a snapshot of them). *)
Definition has_upto (st : raft) (p t k : N) : Prop :=
  (exists q, r_acked st p t q /\ (k <= len q)%N) \/ exists x, known st t x /\ (k <= len x)%N.

(** The nodes a leader counts: itself up to its log, others up to what they have. *)
Definition counted (st : raft) (i : N) (n : Node) : Prop :=
  forall p, if decide (p = i) then (match_of (matched n) p <= len (r_log st i))%N else has_upto st p (n_term n) (match_of (matched n) p).

Record node_sim (st : raft) (i : N) (n : Node) (V : list Entry) : Prop := {
  ns_ok : node_ok n;
  ns_term : r_term st i = n_term n;
  ns_full : full (n_store n) V;
  ns_view : shows (r_log st i) V n;
  ns_known : known st (n_term n) (take (N.to_nat (n_commitIndex n)) V);
  ns_cand : n_role n = candidate ->
    (forall y, r_asked st (n_term n) i y -> y = r_log st i) /\ forall y, ~ r_led st (n_term n) i y;
  ns_lead : n_role n = leader -> r_active st i = true /\ (exists y, r_led st (n_term n) i y) /\ counted st i n
}.

Definition sound (e : Entry) : Prop := no_conf e /\ entry_ok Marshal e.

Definition sent_ok (st : raft) (x : N * N * message) : Prop :=
  let '(i, j, m) := x in
  i <> j /\ match m with
  | MsgAppend req =>
      (ae_Term req < two64)%N /\ (exists y, r_led st (ae_Term req) i y) /\
      exists q, carries req q /\ on_chain st (ae_Term req) q /\ known st (ae_Term req) (take (N.to_nat (ae_LeaderCommit req)) q)
  | MsgInstall req =>
      (is_Term req < two64)%N /\ (is_LastIncludedIndex req + 1 < two64)%N /\ is_ConfState req = encodeConfState C /\ (exists y, r_led st (is_Term req) i y) /\
      exists P, len P = is_LastIncludedIndex req /\ last_term P = is_LastIncludedTerm req /\ on_chain st (is_Term req) P /\ known st (is_Term req) P
  end.

Definition answer_ok (st : raft) (x : N * N * answer) : Prop :=
  let '(i, j, a) := x in
  i <> j /\ match a with
  | AnsAppend req resp =>
      (aer_Term resp < two64)%N /\ (aer_Success resp = true -> has_upto st j (ae_Term req) (ae_PrevLogIndex req +64 len (ae_Entries req)))
  | AnsInstall req resp => (isr_Term resp < two64)%N /\ has_upto st j (is_Term req) (is_LastIncludedIndex req)
  end.

Definition call_sim (st : raft) (i t : N) (req : RequestVoteRequest) : Prop :=
  exists y, r_asked st t i y /\ len y = rv_LastLogIndex req /\ last_term y = rv_LastLogTerm req.

(** The logs a crash of [n] may bring back are those the protocol expects. *)
Definition disk_sim (st : raft) (i : N) (n : Node) : Prop :=
  exists d, durable Marshal boot n d /\ forall m, length (r_log st i) - d <= m -> r_disk st i (take m (r_log st i)).

Record sim (rc : replication) (st : raft) : Prop := {
  si_inv : raft_inv st;
  si_nodes : forall i r, cl_nodes (rc_cluster rc) !! i = Some r -> exists V, node_sim st i (rp_node r) V;
  si_disk : forall i r, cl_nodes (rc_cluster rc) !! i = Some r -> rp_restarted r = false -> reliable i -> disk_sim st i (rp_node r);
  si_made : forall p, r_made st p -> contiguous 1 p /\ Forall sound p;
  si_votes : forall v t c, r_voted st v t c <-> (v, t, c) ∈ cl_votes (rc_cluster rc);
  si_calls : forall i j t x, cl_calls (rc_cluster rc) !! (i, j, t) = Some x -> call_sim st i t x.1;
  si_sent : Forall (sent_ok st) (rc_sent rc);
  si_answers : Forall (answer_ok st) (rc_answers rc)
}.

Lemma has_upto_mono i st st' p t k : touches i st st' -> has_upto st p t k -> has_upto st' p t k.
Proof.
  intros Ht [(q & Hq & Hle)|(x & Hx & Hle)]; [left; exists q; split; [by apply (to_acked_mono _ _ _ Ht)|done]|right].
  exists x. split; [by eapply known_mono|done].
Qed.

Lemma has_upto_le st p t k k' : (k' <= k)%N -> has_upto st p t k -> has_upto st p t k'.
Proof. intros Hle [(q & Hq & Hk)|(x & Hx & Hk)]; [left; exists q|right; exists x]; (split; [done|lia]). Qed.

Lemma counted_mono i st st' k n : touches i st st' -> k <> i -> counted st k n -> counted st' k n.
Proof. intros Ht Hk Hc p. specialize (Hc p). destruct (decide (p = k)); [by rewrite (to_log _ _ _ Ht)|by eapply has_upto_mono]. Qed.

Lemma node_sim_mono i st st' k n V : touches i st st' -> k <> i -> node_sim st k n V -> node_sim st' k n V.
Proof.
  intros Ht Hk [H1 H2 H3 HV H4 H5 H6]. split; rewrite ?(to_log _ _ _ Ht) by done.
  - done.
  - by rewrite (to_term _ _ _ Ht).
  - done.
  - done.
  - eapply known_mono; [exact Ht|done|done].
  - intros [Ha Hl]%H5. split; [intros y Hy; apply Ha; by eapply (to_asked _ _ _ Ht)|]. intros y Hy. eapply Hl. by eapply (to_led _ _ _ Ht).
  - intros (Ha & [y Hl] & Hc)%H6. split; [by rewrite (to_active _ _ _ Ht)|]. split; [exists y; by apply (to_led_mono _ _ _ Ht)|].
    by eapply counted_mono.
Qed.

Lemma sent_ok_mono i st st' x : touches i st st' -> sent_ok st x -> sent_ok st' x.
Proof.
  intros Ht. destruct x as [[a b] [req|req]].
  - intros (H1 & H2 & [y H3] & q & H4 & H5 & H6). split; [done|]. split; [done|].
    split; [exists y; by apply (to_led_mono _ _ _ Ht)|]. exists q. split; [done|]. split; [by eapply touches_chain|by eapply known_mono].
  - intros (H1 & H2 & H3 & H4 & [y H5] & P & H6 & H7 & H8 & H9). split_and!; [done..|exists y; by apply (to_led_mono _ _ _ Ht)|].
    exists P. split_and!; [done|done|by eapply touches_chain|by eapply known_mono].
Qed.

Lemma answer_ok_mono i st st' x : touches i st st' -> answer_ok st x -> answer_ok st' x.
Proof.
  intros Ht. destruct x as [[a b] [req resp|req resp]]; intros (H1 & H2 & H3); (split; [done|]); (split; [done|]); [intros Hs|]; eapply has_upto_mono; eauto.
Qed.

Lemma disk_sim_synced st i n : raft_inv st -> durable Marshal boot n 0 -> disk_sim st i n.
Proof. intros Hi Hd. exists 0. split; [done|]. intros m Hm. rewrite take_ge by lia. apply (iv_log _ _ _ Hi). Qed.

Lemma disk_sim_eases st st' i n n' :
  disk_sim st i n -> eases Marshal boot n n' -> r_log st' i = r_log st i -> r_disk st' i = r_disk st i -> disk_sim st' i n'.
Proof.
  intros (d & Hd & Hm) He El Ed. destruct (He d Hd) as (d' & Hle & Hd'). exists d'. split; [done|]. rewrite El, Ed. intros m Hlt. apply Hm. lia.
Qed.

(** A step of node [i]. *)
Lemma sim_update rc st i n' b calls' votes' sent' answers' st' :
  sim rc st -> raft_inv st' -> touches i st st' -> (exists V, node_sim st' i n' V) -> (b = false -> reliable i -> disk_sim st' i n') ->
  (forall p, r_made st' p -> r_made st p \/ contiguous 1 p /\ Forall sound p) ->
  (forall v t c, r_voted st' v t c <-> (v, t, c) ∈ votes') ->
  (forall k j t x, calls' !! (k, j, t) = Some x -> call_sim st k t x.1 \/ call_sim st' k t x.1) ->
  Forall (fun x => x ∈ rc_sent rc \/ sent_ok st' x) sent' -> Forall (fun x => x ∈ rc_answers rc \/ answer_ok st' x) answers' ->
  sim (mkReplication (mkCluster (with_node (rc_cluster rc) i n' b) calls' votes') sent' answers') st'.
Proof.
  intros [S1 S2 SD S3 S4 S5 S6 S7] Hi Ht Hn Hd Hm Hv Hc Hs Ha. split; simpl; try done.
  - intros k r. unfold with_node. intros [[<- <-]|[Hne Hk]]%lookup_insert_Some; [done|]. destruct (S2 k r Hk) as [V HV]. exists V. eapply node_sim_mono; [exact Ht|done|done].
  - intros k r. unfold with_node. intros [[<- <-]|[Hne Hk]]%lookup_insert_Some; [done|]. intros Hb Hre.
    destruct (SD k r Hk Hb Hre) as (d & H1 & H2). exists d. split; [done|]. by rewrite (to_log _ _ _ Ht), (to_disk _ _ _ Ht).
  - intros p [Hp|Hp]%Hm; [by apply S3|done].
  - intros k j t x [(y & Hy & ?)|?]%Hc; [|done]. exists y. split; [by apply (to_asked_mono _ _ _ Ht)|done].
  - eapply Forall_impl; [exact Hs|]. intros x [Hx|Hx]; [|done]. eapply sent_ok_mono; [exact Ht|]. by eapply Forall_forall in S6.
  - eapply Forall_impl; [exact Ha|]. intros x [Hx|Hx]; [|done]. eapply answer_ok_mono; [exact Ht|]. by eapply Forall_forall in S7.
Qed.

Lemma Forall_old {A} (P : A -> Prop) (l : list A) : Forall (fun x => x ∈ l \/ P x) l.
Proof. apply Forall_forall. intros x Hx. by left. Qed.

Lemma quorums S1 S2 : ConfState.quorum C S1 -> ConfState.quorum C S2 -> exists v, v ∈ S1 /\ v ∈ S2.
Proof. apply quorums_intersect, grows_refl. Qed.

Lemma raft_one st st' : raft_step st st' -> raft_steps st st'.
Proof. intros H. eapply raft_more; [constructor|done]. Qed.

(** ** Sections that leave the log alone *)

Lemma still_node st i n n' V :
  node_sim st i n V -> node_ok n' -> full (n_store n') V -> shows (r_log st i) V n' -> n_commitIndex n' = n_commitIndex n ->
  (n_role n' = leader -> matched n' = matched n) -> same_role n n' -> (n_term n <= n_term n')%N ->
  node_sim (go_term st i (n_term n')) i n' V.
Proof.
  intros [H1 H2 H3 HV H4 H5 H6] Hok Hf Hsh Hc Hm Hr Hle. split; simpl; try done.
  - by rewrite upd_same.
  - rewrite Hc. eapply (known_mono i st); [apply touches_go_term|exact Hle|done].
  - intros Hr'. destruct Hr as [?|[Er Et]]; [congruence|]. rewrite Et. apply H5. congruence.
  - intros Hr'. destruct Hr as [?|[Er Et]]; [congruence|]. rewrite Er in Hr'. destruct (H6 Hr') as (Ha & Hl & Hcn).
    rewrite upd_same, Ha, H2, Et, bool_decide_true by done. split; [done|]. split; [done|].
    intros p. specialize (Hcn p). rewrite Hm by congruence. by rewrite Et.
Qed.

Lemma still_sim rc st i r n' V calls' sent' answers' :
  sim rc st -> cl_nodes (rc_cluster rc) !! i = Some r -> node_sim st i (rp_node r) V -> node_ok n' -> full (n_store n') V -> shows (r_log st i) V n' ->
  n_commitIndex n' = n_commitIndex (rp_node r) -> (n_role n' = leader -> matched n' = matched (rp_node r)) ->
  same_role (rp_node r) n' -> (n_term (rp_node r) <= n_term n')%N -> (reliable i -> eases Marshal boot (rp_node r) n') ->
  (forall k j t x, calls' !! (k, j, t) = Some x -> call_sim st k t x.1) ->
  Forall (fun x => x ∈ rc_sent rc \/ sent_ok st x) sent' -> Forall (fun x => x ∈ rc_answers rc \/ answer_ok st x) answers' ->
  exists st', raft_steps st st' /\
    sim (mkReplication (mkCluster (with_node (rc_cluster rc) i n' (rp_restarted r)) calls' (cl_votes (rc_cluster rc))) sent' answers') st'.
Proof.
  intros Hs Hr Hn Hok Hf Hsh Hc Hm Hro Hle Hea Hca Hse Han. exists (go_term st i (n_term n')).
  assert (r_term st i <= n_term n')%N as Hle' by by rewrite (ns_term _ _ _ _ Hn). pose proof (touches_go_term st i (n_term n')) as Ht.
  split; [by apply raft_one, rf_term|]. apply (sim_update _ st); try done.
  - apply term_inv; [apply Hs|done].
  - exists V. by eapply still_node.
  - intros Hb Hre. eapply disk_sim_eases; [by eapply si_disk|by apply Hea|done|done].
  - by left.
  - apply Hs.
  - intros k j t x Hx. left. by eapply Hca.
Qed.

Lemma still_shows L V n n' : shows L V n -> still n n' -> same_role n n' -> shows L V n'.
Proof. intros Hs Hst [Hr|[Hr _]]; (eapply shows_same; [exact Hs|apply Hst|apply Hst|congruence]). Qed.

(** The same, for a section that is not followed by messages. *)
Lemma still_sim0 rc st i r n' :
  sim rc st -> cl_nodes (rc_cluster rc) !! i = Some r -> node_ok n' -> still (rp_node r) n' -> same_role (rp_node r) n' -> (n_term (rp_node r) <= n_term n')%N ->
  (reliable i -> eases Marshal boot (rp_node r) n') ->
  exists st', raft_steps st st' /\
    sim (mkReplication (mkCluster (with_node (rc_cluster rc) i n' (rp_restarted r)) (cl_calls (rc_cluster rc)) (cl_votes (rc_cluster rc))) (rc_sent rc) (rc_answers rc)) st'.
Proof.
  intros Hs Hr Hok Hst Hro Hle Hea. destruct (si_nodes _ _ Hs _ _ Hr) as [V Hn].
  eapply still_sim; [done|done|exact Hn|done| | |apply Hst|apply Hst|done|done|done|by eapply si_calls|apply Forall_old|apply Forall_old].
  - eapply full_same; [apply Hn|apply Hst].
  - eapply still_shows; [apply Hn|done|done].
Qed.

(** ** The leader adds an entry *)

Record grows_to (i : N) (st : raft) (e : Entry) (L' : list Entry) (st' : raft) : Prop := {
  gt_steps : raft_steps st st';
  gt_inv : raft_inv st';
  gt_touches : touches i st st';
  gt_log : r_log st' i = L';
  gt_disk : forall l, r_disk st i l -> r_disk st' i l;
  gt_term : r_term st' i = r_term st i;
  gt_active : r_active st' i = r_active st i;
  gt_voted : r_voted st' = r_voted st;
  gt_made : forall p, r_made st' p -> r_made st p \/ p = r_log st i ++ [e]
}.

Lemma leader_grows st i y e L' :
  raft_inv st -> r_led st (r_term st i) i y -> r_active st i = true -> en_Term e = r_term st i ->
  L' = r_log st i \/ L' = r_log st i ++ [e] -> exists st', grows_to i st e L' st'.
Proof.
  intros Hi Hl Ha He [->| ->].
  - exists st. split; try done; [constructor|by left].
  - exists (write_log (add_made st (r_log st i ++ [e])) i (r_log st i ++ [e])). split; simpl; try done.
    + apply raft_one. by eapply rf_append.
    + eapply append_inv; [apply quorums|done..].
    + etrans; [apply touches_made|apply touches_write].
    + by rewrite upd_same.
    + intros l Hd. rewrite upd_same. by left.
Qed.

(** An entry more may await its fsync. *)
Lemma disk_sim_grow st st' i n n' e L' :
  disk_sim st i n -> grows_to i st e L' st' -> L' = r_log st i \/ L' = r_log st i ++ [e] ->
  (forall d, durable Marshal boot n d -> exists d', d' <= d + (length L' - length (r_log st i)) /\ durable Marshal boot n' d') -> disk_sim st' i n'.
Proof.
  intros (d & Hd & Hm) Hg HL Hdur. destruct (Hdur d Hd) as (d' & Hle & Hd'). exists d'. split; [done|]. rewrite (gt_log _ _ _ _ _ Hg). intros m Hlt.
  destruct (decide (length L' <= m)) as [Hge|Hlm].
  { rewrite take_ge by done. rewrite <-(gt_log _ _ _ _ _ Hg). apply (iv_log _ _ _ (gt_inv _ _ _ _ _ Hg)). }
  apply (gt_disk _ _ _ _ _ Hg). destruct HL as [-> | ->]; [apply Hm; lia|]. rewrite length_app in *. simpl in *. rewrite take_app_le by lia. apply Hm. lia.
Qed.

Lemma log_sound rc st i : sim rc st -> Forall sound (r_log st i).
Proof.
  intros Hs. destruct (iv_disk _ _ _ (si_inv _ _ Hs) i _ (iv_log _ _ _ (si_inv _ _ Hs) i)) as [[->|Hm] _]; [constructor|]. by apply (si_made _ _ Hs).
Qed.

Lemma known_sound rc st t x : sim rc st -> known st t x -> contiguous 1 x /\ Forall sound x.
Proof.
  intros Hs [->|(t' & y & Hy & _ & [k ->])]; [split; [by intros i e|constructor]|]. apply (iv_committed _ _ _ (si_inv _ _ Hs)) in Hy as (Hm & _).
  apply (si_made _ _ Hs) in Hm as [Hc Hf]. apply contiguous_app in Hc as [Hc _]. by apply Forall_app in Hf as [Hf _].
Qed.

(** What a node shows. *)
Lemma view_sound rc st i n V : sim rc st -> node_sim st i n V -> Forall sound V.
Proof.
  intros Hs Hn. destruct (ns_view _ _ _ _ Hn) as [->|Hb]; [by eapply log_sound|]. rewrite (bh_tail _ _ _ Hb). apply Forall_app. split.
  - rewrite <-(bh_commit _ _ _ Hb). eapply known_sound; [exact Hs|apply Hn].
  - apply Forall_drop. by eapply log_sound.
Qed.

Lemma full_no_conf s L : full s L -> Forall sound L -> Forall no_conf (ds_log s).
Proof. intros HL H. rewrite (fl_log _ _ HL). apply Forall_drop. eapply Forall_impl; [exact H|]. by intros e []. Qed.

Lemma last_term_fits L i : Forall sound L -> (last_term (take i L) < two64)%N.
Proof.
  intros H. apply (Forall_take _ i) in H. unfold RaftSpec.last_term. destruct (last _) as [e|] eqn:E; [|done].
  apply last_Some_elem_of in E. eapply Forall_forall in H; [|exact E]. apply H.
Qed.

(** An entry of the node's own fits behind its log. *)
Lemma own_sound st i n cmd :
  node_sim st i n (r_log st i) -> room n -> entry_ok Marshal (own_entry n cmd ENTRY_NORMAL None) -> Forall sound (r_log st i) ->
  contiguous 1 (r_log st i ++ [own_entry n cmd ENTRY_NORMAL None]) /\ Forall sound (r_log st i ++ [own_entry n cmd ENTRY_NORMAL None]).
Proof.
  intros Hn Hroom He HL. pose proof (ns_ok _ _ _ _ Hn) as [Hwf _]. pose proof (ns_full _ _ _ _ Hn) as Hf. split.
  - apply contiguous_snoc; [apply Hf|]. simpl. rewrite lastIndex_next by (apply Hwf || done). by apply full_end.
  - apply Forall_app. split; [done|]. constructor; [|constructor]. split; [by left|done].
Qed.

Lemma known_grow st st' i n n' L' :
  node_sim st i n (r_log st i) -> touches i st st' -> r_log st i `prefix_of` L' -> n_commitIndex n' = n_commitIndex n -> n_term n' = n_term n ->
  known st' (n_term n') (take (N.to_nat (n_commitIndex n')) L').
Proof.
  intros Hn Ht [k ->] -> ->. pose proof (ns_ok _ _ _ _ Hn) as [Hwf _]. pose proof (nw_commit _ Hwf) as Hc. rewrite (full_end _ _ (ns_full _ _ _ _ Hn)) in Hc.
  rewrite take_app_le by (unfold len in *; lia). eapply known_mono; [exact Ht|done|apply Hn].
Qed.

Lemma propose_sim rc st i r cmd res n' :
  sim rc st -> cluster_inv (rc_cluster rc) -> cl_nodes (rc_cluster rc) !! i = Some r -> node_ok n' ->
  entry_ok Marshal (own_entry (rp_node r) cmd ENTRY_NORMAL None) -> room (rp_node r) -> Propose Marshal (rp_node r) cmd = Some (res, n') ->
  exists st', raft_steps st st' /\
    sim (mkReplication (mkCluster (with_node (rc_cluster rc) i n' (rp_restarted r)) (cl_calls (rc_cluster rc)) (cl_votes (rc_cluster rc))) (rc_sent rc) (rc_answers rc)) st'.
Proof.
  intros Hs Hci Hr Hok He Hroom Hp. destruct (si_nodes _ _ Hs _ _ Hr) as [V Hn]. pose proof (ri_id _ _ _ _ _ _ _ (ci_nodes _ _ _ _ Hci _ _ Hr)) as Hid.
  pose proof (Propose_keeps _ _ _ _ _ Hp) as [Er Et _].
  destruct (Propose_effect _ _ _ _ _ _ (ns_ok _ _ _ _ Hn) Hroom (ns_full _ _ _ _ Hn) Hp) as (L' & Hf & Hc & Hg & Hor).
  destruct (role_eq_dec (n_role (rp_node r)) leader) as [Hl|Hnl].
  2:{ revert Hp. unfold Propose. rewrite decide_False by done. intros [= _ <-]. apply (still_sim0 _ _ _ _ _ Hs Hr); [apply Hn|done|by right|done|by intros _]. }
  pose proof (shows_leader _ _ _ (ns_view _ _ _ _ Hn) Hl) as ->. destruct (ns_lead _ _ _ _ Hn Hl) as (Ha & [y Hy] & Hcn). rewrite <-(ns_term _ _ _ _ Hn) in Hy.
  destruct (leader_grows st i y (own_entry (rp_node r) cmd ENTRY_NORMAL None) L') as [st' Hgt]; [apply Hs|done|done|by rewrite (ns_term _ _ _ _ Hn)| |].
  { destruct Hg as [[-> _]|[-> _]]; [by left|by right]. }
  pose proof Hgt as [G1 G2 G3 G4 _ G5 G6 G7 G8].
  exists st'. split; [done|]. assert (r_log st i `prefix_of` L') as Hpre by (destruct Hg as [[-> _]|[-> _]]; [done|by eexists]).
  apply (sim_update _ st); try done; [| |intros p [?| ->]%G8; [by left|right; by eapply own_sound; [exact Hn| | |eapply log_sound]]|by rewrite G7; apply Hs|by intros k j t x Hx; left; eapply si_calls|apply Forall_old..].
  2:{ intros Hb Hre. eapply disk_sim_grow; [by eapply si_disk|exact Hgt|destruct Hg as [[-> _]|[-> _]]; [by left|by right]|]. intros d Hd.
      exact (Propose_durable _ _ _ _ _ _ _ _ _ (ns_ok _ _ _ _ Hn) Hroom He (ns_full _ _ _ _ Hn) Hf Hp Hd). }
  exists L'. split.
  - done.
  - by rewrite G5, Et, (ns_term _ _ _ _ Hn).
  - done.
  - by left.
  - by eapply known_grow.
  - congruence.
  - intros _. rewrite G6. split; [done|]. rewrite Et. split; [exists y; rewrite <-(ns_term _ _ _ _ Hn); by apply (to_led_mono _ _ _ G3)|].
    intros p. specialize (Hcn p). rewrite G4, Et. apply prefix_length in Hpre.
    assert (matched n' = matched (rp_node r) \/ matched_at (matched (rp_node r)) i (len L') (matched n')) as [->|Hat]
      by (rewrite <-Hid; destruct Hg as [[_ ?]|[_ ?]]; by auto); [|rewrite Hat]; case_decide; unfold len in *; try lia.
    all: by eapply has_upto_mono.
Qed.

(** ** Every step is one of Cluster's *)

Lemma no_conf_fits c es : Forall no_conf es -> conf_fits c -> confs_fit c es.
Proof.
  intros Hes Hc k. replace (foldl conf_after c (take k es)) with c; [done|]. revert k. induction Hes as [|e es He _ IH]; intros [|k]; [done..|].
  cbn [take foldl]. replace (conf_after c e) with c; [done|]. unfold conf_after. destruct (en_ConfChange e) as [cc|] eqn:E; [|done].
  destruct He as [?|He]; [congruence|]. by rewrite (proj2 (Z.eqb_neq _ _) He).
Qed.

Lemma local_fits n ev :
  local ev -> widths n ev -> node_fits n -> Forall no_conf (ds_log (n_store n)) -> ordinary n ev /\ ev_fits Marshal n ev.
Proof.
  intros Hl Hw Hf Hn. destruct ev; try done; simpl in *; [by destruct Hw|]. split; [done|]. apply no_conf_fits; [|apply Hf].
  unfold entries_between. by apply Forall_take, Forall_drop.
Qed.

Lemma local_conf c ev n out n' :
  local ev -> widths n ev -> node_fits n -> Forall no_conf (ds_log (n_store n)) -> exec Marshal c ev n = Some (out, n') -> n_conf n' = n_conf n.
Proof.
  intros Hl Hw Hf Hn H. destruct ev as [k|req|t resp|req|peer req resp|req ts|peer req resp|peer|req|r resp|cmd|cc| |index data ts];
    cbn [local widths exec] in *; try done.
  - by injection H as <- <-.
  - peel H. destruct r as [resp n1]. injection H as <- <-. by apply (HandleReadIndex_path Marshal) in Em as [_ ?].
  - peel H. destruct r0 as [r1 n1]. injection H as <- <-. by apply (onReadResponse_path Marshal) in Em as [_ ?].
  - peel H. destruct r as [r1 n1]. injection H as <- <-. destruct Hw. by apply Propose_path in Em as [_ ?].
  - peel H. destruct r as [ms n1]. injection H as <- <-. by apply apply_loop_only in Em as [i ->].
  - peel H. destruct r as [err n1]. injection H as <- <-. revert Em. unfold Snapshot. destruct (_ <? _)%N; [by intros [= <- <-]|].
    intros E. peel E. destruct r as [t ok]. destruct (negb ok); [by injection E as <- <-|]. peel E. destruct r. by injection E as <- <-.
Qed.

(** ** Local sections *)

Lemma local_sim rc st i r c ev out n' :
  sim rc st -> cluster_inv (rc_cluster rc) -> cl_nodes (rc_cluster rc) !! i = Some r -> local ev -> widths (rp_node r) ev -> (reliable i -> no_fault ev) ->
  exec Marshal c ev (rp_node r) = Some (out, n') -> out <> OutFault ->
  exists st', raft_steps st st' /\
    sim (mkReplication (mkCluster (with_node (rc_cluster rc) i n' (rp_restarted r)) (cl_calls (rc_cluster rc)) (cl_votes (rc_cluster rc))) (rc_sent rc) (rc_answers rc)) st'.
Proof.
  intros Hs Hci Hr Hl Hw Hcalm Hx Hout. destruct (si_nodes _ _ Hs _ _ Hr) as [V Hn]. pose proof (ri_fits _ _ _ _ _ _ _ (ci_nodes _ _ _ _ Hci _ _ Hr)) as Hfits.
  pose proof (full_no_conf _ _ (ns_full _ _ _ _ Hn) (view_sound _ _ _ _ _ Hs Hn)) as Hnc.
  assert (node_ok n') as Hok.
  { destruct (exec_ok Marshal c ev (rp_node r) (ns_ok _ _ _ _ Hn)) as (o1 & n1 & E1 & Hok1); [destruct ev; try done; apply Hw|].
    rewrite Hx in E1. injection E1 as <- <-. by apply Hok1. }
  destruct (local_fits _ _ Hl Hw Hfits Hnc) as [Ho He]. destruct (exec_quiet _ _ _ _ _ _ Ho Hx) as [Hq%quiet_role _].
  destruct (exec_ordinary_path _ _ _ _ _ _ Ho Hfits He Hx) as [Hle%spath_term _].
  assert (still (rp_node r) n' -> eases Marshal boot (rp_node r) n' -> exists st', raft_steps st st' /\
    sim (mkReplication (mkCluster (with_node (rc_cluster rc) i n' (rp_restarted r)) (cl_calls (rc_cluster rc)) (cl_votes (rc_cluster rc))) (rc_sent rc) (rc_answers rc)) st') as Hstill
    by (intros; by eapply still_sim0).
  destruct ev as [k|req|t resp|req|peer req resp|req ts|peer req resp|peer|req|r1 resp|cmd|cc| |index data ts]; cbn [local widths exec] in *; try done.
  - injection Hx as <- <-. apply Hstill; [apply clearInflight_still|apply clearInflight_eases].
  - peel Hx. destruct r0 as [resp n1]. injection Hx as <- <-. apply Hstill; [by eapply HandleReadIndex_still|by eapply HandleReadIndex_eases].
  - peel Hx. destruct r0 as [r2 n1]. injection Hx as <- <-. apply Hstill; [by eapply onReadResponse_still|by eapply onReadResponse_eases].
  - peel Hx. destruct r0 as [r2 n1]. injection Hx as <- <-. destruct Hw as [Hw1 Hw2]. exact (propose_sim _ _ _ _ _ _ _ Hs Hci Hr Hok Hw1 Hw2 Em).
  - peel Hx. destruct r0 as [ms n1]. injection Hx as <- <-. apply Hstill; [by eapply apply_still|by eapply applier_eases].
  - peel Hx. destruct r0 as [err n1]. injection Hx as <- <-.
    destruct (Snapshot_effect _ _ _ _ _ _ _ _ (ns_ok _ _ _ _ Hn) (ns_full _ _ _ _ Hn) Em) as (H1 & H2 & H3 & H4).
    eapply still_sim; [exact Hs|exact Hr|exact Hn|done|done| |done|done|done|done| |by eapply si_calls|apply Forall_old|apply Forall_old].
    + destruct (ns_view _ _ _ _ Hn) as [->|Hb]; [by left|]. eapply shows_same; [by right| |done|].
      * pose proof (bh_commit _ _ _ Hb). destruct Hok as [Hwf _]. pose proof (nw_snap _ Hwf). pose proof (nw_applied _ Hwf). lia.
      * destruct Hq as [Hf|[Hf _]]; [by rewrite Hf|congruence].
    + intros Hre. specialize (Hcalm Hre). simpl in Hcalm. subst ts. eapply Snapshot_eases; [apply Hn|exact Hfits| |exact Em].
      intros t [_ ->]%(full_term_inv _ _ (ns_full _ _ _ _ Hn)). eapply last_term_fits, view_sound; [exact Hs|exact Hn].
Qed.

(** ** Elections *)

Lemma take_prefix (p l : list Entry) k : p `prefix_of` l -> take k p `prefix_of` take k l.
Proof. intros [m ->]. rewrite take_app. by eexists. Qed.

(** A leader's log is on its chain. *)
Lemma leader_chain st i t y :
  raft_inv st -> r_active st i = true -> r_led st t i y -> r_term st i = t -> on_chain st t (r_log st i).
Proof.
  intros Hi Ha Hl Ht. exists i, y. split; [done|]. subst t. destruct (iv_active _ _ _ Hi _ _ Ha Hl) as (_ & [->|Htl] & _); [by left|].
  destruct (iv_disk _ _ _ Hi i _ (iv_log _ _ _ Hi i)) as [[->|Hm] _]; [left; apply prefix_nil|by right].
Qed.

Lemma sends_ok st i n out :
  raft_inv st -> node_sim st i n (r_log st i) -> n_role n = leader -> n_ID n = i -> n_conf n = C -> (n_term n < two64)%N -> sends n (r_log st i) out ->
  Forall (sent_ok st) (messages i out).
Proof.
  intros Hi Hn Hr Hid Hcf Hw Hs. apply Forall_forall. intros x (r & Hin & Hx)%list_elem_of_omap. eapply Forall_forall in Hs; [|exact Hin].
  destruct (ns_lead _ _ _ _ Hn Hr) as (Ha & [y Hl] & _). pose proof (leader_chain _ _ _ _ Hi Ha Hl (ns_term _ _ _ _ Hn)) as Hch.
  destruct r as [p req|p req|p req]; [done| |]; injection Hx as <-; simpl in Hs.
  - destruct Hs as (Hne & Ht & Hc & q & Hq & Hca). rewrite <-Ht in Hch, Hl, Hw. split; [congruence|]. split; [exact Hw|]. split; [by exists y|].
    exists q. split; [done|]. split; [eapply chain_prefix; [apply quorums|done..]|].
    rewrite Ht, Hc. eapply known_prefix; [apply Hn|by apply take_prefix].
  - destruct Hs as (Hne & [O1 O2 O3 O4 O5 O6]). split; [congruence|]. rewrite O1. split_and!; [done|done|congruence|by exists y|].
    exists (take (N.to_nat (is_LastIncludedIndex req)) (r_log st i)). split_and!; [unfold len in *; rewrite length_take; lia|done| |].
    + eapply chain_prefix; [apply quorums|done|done|apply prefix_take].
    + eapply known_prefix; [apply Hn|]. replace (N.to_nat (is_LastIncludedIndex req)) with (N.to_nat (is_LastIncludedIndex req) `min` N.to_nat (n_commitIndex n)) by lia.
      rewrite <-take_take. apply prefix_take.
Qed.

Lemma cand_node st st' i n n' V :
  node_sim st i n V -> node_ok n' -> still n n' -> n_role n' = candidate -> touches i st st' -> r_term st' i = n_term n' -> r_log st' i = r_log st i ->
  (n_term n <= n_term n')%N -> (forall y, r_asked st' (n_term n') i y -> y = r_log st i) -> (forall y, ~ r_led st' (n_term n') i y) -> node_sim st' i n' V.
Proof.
  intros Hn Hok [H1 H2 _] Hr Ht Et El Hle Ha Hl. split; rewrite ?El; try done.
  - eapply full_same; [apply Hn|done].
  - eapply shows_same; [apply Hn|apply H1|done|congruence].
  - rewrite H2. eapply known_mono; [exact Ht|exact Hle|apply Hn].
  - congruence.
Qed.

(** No one asked for votes, or led, in a term the node has not reached. *)
Lemma not_yet st i t : raft_inv st -> (r_term st i < t)%N -> (forall y, ~ r_asked st t i y) /\ forall y, ~ r_led st t i y.
Proof.
  intros Hi Hlt. assert (forall y, ~ r_asked st t i y) as Ha by (intros y [H _]%(iv_asked _ _ _ Hi); lia).
  split; [done|]. intros y [H _]%(iv_led _ _ _ Hi). by eapply Ha.
Qed.

Lemma failed_sim rc st i r n' :
  sim rc st -> cl_nodes (rc_cluster rc) !! i = Some r -> node_ok n' -> still (rp_node r) n' -> n_role n' = candidate -> n_term n' = (n_term (rp_node r) + 1)%N ->
  eases Marshal boot (rp_node r) n' ->
  exists st', raft_steps st st' /\
    sim (mkReplication (mkCluster (with_node (rc_cluster rc) i n' (rp_restarted r)) (cl_calls (rc_cluster rc)) (cl_votes (rc_cluster rc))) (rc_sent rc) (rc_answers rc)) st'.
Proof.
  intros Hs Hr Hok Hst Hro Et Hea. destruct (si_nodes _ _ Hs _ _ Hr) as [V Hn]. pose proof (ns_term _ _ _ _ Hn) as Ent.
  destruct (not_yet st i (n_term n') (si_inv _ _ Hs)) as [Ha Hl]; [lia|]. exists (go_term st i (n_term n')).
  split; [apply raft_one, rf_term; lia|]. apply (sim_update _ st); try done.
  - apply term_inv; [apply Hs|lia].
  - apply touches_go_term.
  - exists V. eapply cand_node; [exact Hn|done..|apply touches_go_term|by simpl; rewrite upd_same|done|lia|intros y Hy; by apply Ha in Hy|done].
  - intros Hb Hre. eapply disk_sim_eases; [by eapply si_disk|exact Hea|done|done].
  - by left.
  - apply Hs.
  - intros k j t x Hx. left. by eapply si_calls.
  - apply Forall_old.
  - apply Forall_old.
Qed.

Lemma asked_sim rc st i r n' req ps :
  sim rc st -> cl_nodes (rc_cluster rc) !! i = Some r -> node_ok n' -> still (rp_node r) n' -> n_role n' = candidate -> n_term n' = rv_Term req ->
  rv_Term req = (n_term (rp_node r) + 1)%N -> ps <> [] -> eases Marshal boot (rp_node r) n' ->
  rv_LastLogIndex req = len (r_log st i) -> rv_LastLogTerm req = last_term (r_log st i) ->
  exists st', raft_steps st st' /\
    sim (mkReplication (mkCluster (with_node (rc_cluster rc) i n' (rp_restarted r)) (add_calls i ((fun p => RpcVote p req) <$> ps) (cl_calls (rc_cluster rc)))
      (own_votes i ((fun p => RpcVote p req) <$> ps) (cl_votes (rc_cluster rc)))) (rc_sent rc) (rc_answers rc)) st'.
Proof.
  intros Hs Hr Hok Hst Hro Et Et' Hps Hea Hli Hlt. destruct (si_nodes _ _ Hs _ _ Hr) as [V Hn]. pose proof (ns_term _ _ _ _ Hn) as Ent.
  destruct (not_yet st i (n_term n') (si_inv _ _ Hs)) as [Ha Hl]; [lia|]. set (t := n_term n') in *.
  assert (touches i st (add_voted (add_asked (go_term st i t) t i (r_log st i)) i t i)) as Hto
    by (etrans; [apply touches_go_term|]; etrans; [apply touches_asked|apply touches_voted]).
  exists (add_voted (add_asked (go_term st i t) t i (r_log st i)) i t i). split; [apply raft_one, rf_elect; lia|].
  apply (sim_update _ st); [done|apply elect_inv; [apply Hs|lia]|done| | |by left| | |apply Forall_old|apply Forall_old].
  - exists V. eapply cand_node; [exact Hn|done|exact Hst|done|exact Hto|simpl; by rewrite upd_same|done|lia| |done].
    intros y [Hy|(_ & _ & ->)]; [by apply Ha in Hy|done].
  - intros Hb Hre. eapply disk_sim_eases; [by eapply si_disk|exact Hea|done|done].
  - intros v t' c. simpl. rewrite own_votes_asks, elem_of_union, elem_of_singleton, (si_votes _ _ Hs) by done. rewrite <-Et.
    split; [intros [?|(-> & -> & ->)]; [by right|by left]|intros [[= -> -> ->]|?]; [by right|by left]].
  - intros k j t' x. rewrite add_calls_lookup. case_decide as Hd; [|intros Hx; left; by eapply si_calls]. destruct Hd as (-> & _ & ->).
    intros [= <-]. right. exists (r_log st i). split; [right; by rewrite Et|done].
Qed.

Lemma run_sim rc st i r c k out n' :
  sim rc st -> cluster_inv (rc_cluster rc) -> cl_nodes (rc_cluster rc) !! i = Some r -> (n_term (rp_node r) + 1 < two64)%N ->
  run_step c k (rp_node r) = Some (out, n') ->
  exists st', raft_steps st st' /\
    sim (mkReplication (mkCluster (with_node (rc_cluster rc) i n' (rp_restarted r)) (add_calls i out (cl_calls (rc_cluster rc))) (own_votes i out (cl_votes (rc_cluster rc))))
      (messages i out ++ rc_sent rc) (rc_answers rc)) st'.
Proof.
  intros Hs Hci Hr Hw Hx. destruct (si_nodes _ _ Hs _ _ Hr) as [V Hn]. destruct (ci_nodes _ _ _ _ Hci _ _ Hr) as [_ Hid Hcf Hfits _ _].
  destruct (run_step_ok c k _ (ns_ok _ _ _ _ Hn)) as (o1 & n1 & E1 & Hok). rewrite Hx in E1. injection E1 as <- <-.
  destruct (run_step_effect _ _ _ _ _ _ (ns_ok _ _ _ _ Hn) (ns_full _ _ _ _ Hn) Hx) as (Hst & Hsends & Hasks).
  assert (eases Marshal boot (rp_node r) n') as Hea by (eapply run_step_eases; [exact Hw|apply Hfits|exact Hx]).
  destruct (run_step_roles _ _ _ _ _ Hw Hx) as [Hk Hnv|Hro Et ->|req Et _ _ -> Hro Et' _ _].
  - rewrite add_calls_none, own_votes_none by done. assert (same_role (rp_node r) n') as Hsr by (by apply quiet_role; right).
    eapply still_sim; [exact Hs|exact Hr|exact Hn|done|by eapply full_same; [apply Hn|apply Hst]|by eapply still_shows; [apply Hn|..]|apply Hst|apply Hst|done
      |by rewrite (kp_term _ _ Hk)|done|by eapply si_calls| |apply Forall_old].
    apply Forall_app. split; [|apply Forall_old]. destruct Hsends as [Hse [Hl|Hv]]; [|rewrite messages_votes by done; constructor].
    pose proof (shows_leader _ _ _ (ns_view _ _ _ _ Hn) Hl) as ->. eapply Forall_impl; [|intros x Hx'; right; exact Hx'].
    exact (sends_ok st i _ out (si_inv _ _ Hs) Hn Hl Hid Hcf (nf_term _ Hfits) Hse).
  - exact (failed_sim _ _ _ _ _ Hs Hr Hok Hst Hro Et Hea).
  - set (ps := filter _ _) in *. rewrite (messages_votes i ((fun p => RpcVote p req) <$> ps)) by by apply Forall_fmap, Forall_true.
    destruct (decide (ps = [])) as [->|Hne]; [apply (failed_sim rc st i r n' Hs Hr Hok Hst Hro); [congruence|exact Hea]|].
    destruct (Hasks (hd 0%N ps) req) as [H1 H2]; [apply list_elem_of_fmap; exists (hd 0%N ps); split; [done|]; destruct ps; [done|by left]|].
    unfold len in H1. rewrite (view_length _ _ _ (ns_full _ _ _ _ Hn) (ns_view _ _ _ _ Hn)) in H1. rewrite (view_last _ _ _ (ns_full _ _ _ _ Hn) (ns_view _ _ _ _ Hn)) in H2.
    exact (asked_sim _ _ _ _ _ _ _ Hs Hr Hok Hst Hro Et' Et Hne Hea H1 H2).
Qed.

Lemma request_sim rc st i j t req r c resp n' calls' votes' :
  sim rc st -> cluster_inv (rc_cluster rc) -> cl_calls (rc_cluster rc) !! (i, j, t) = Some (req, None) ->
  cl_nodes (rc_cluster rc) !! j = Some r -> HandleRequestVote c (rp_node r) req = Some (resp, n') ->
  calls' = <[(i, j, t) := (req, Some resp)]> (cl_calls (rc_cluster rc)) ->
  votes' = (if rvr_VoteGranted resp then {[(j, rv_Term req, rv_CandidateId req)]} ∪ cl_votes (rc_cluster rc) else cl_votes (rc_cluster rc)) ->
  cluster_inv (mkCluster (with_node (rc_cluster rc) j n' (rp_restarted r)) calls' votes') ->
  exists st', raft_steps st st' /\
    sim (mkReplication (mkCluster (with_node (rc_cluster rc) j n' (rp_restarted r)) calls' votes') (rc_sent rc) (rc_answers rc)) st'.
Proof.
  intros Hs Hci Hc Hr Hx Ecalls Evotes Hci'. destruct (si_nodes _ _ Hs _ _ Hr) as [V Hn]. pose proof (ri_fits _ _ _ _ _ _ _ (ci_nodes _ _ _ _ Hci _ _ Hr)) as Hfits.
  destruct (ci_calls _ _ _ _ Hci _ _ _ _ Hc) as [Et Ei _ W1 W2 _ _ _]. simpl in *. rewrite Ei, Et in *.
  destruct (HandleRequestVote_ok c _ req (ns_ok _ _ _ _ Hn)) as (o1 & n1 & E1 & Hok). rewrite Hx in E1. injection E1 as <- <-.
  destruct (HandleRequestVote_effect _ _ _ _ _ _ (ns_ok _ _ _ _ Hn) (ns_full _ _ _ _ Hn) Hx) as [Hst Hg].
  assert (n_term (rp_node r) <= n_term n')%N as Hle.
  { apply (spath_term Marshal). refine (np_spath _ _ _ (HandleRequestVote_path Marshal _ _ _ _ _ _ _ _ Hx)); [by rewrite Et|by rewrite Ei|apply Hfits]. }
  assert (forall k j' t' x, calls' !! (k, j', t') = Some x -> call_sim st k t' x.1) as Hcalls.
  { intros k j' t' x. rewrite Ecalls. intros [[[= <- <- <-] <-]|[_ Hx']]%lookup_insert_Some; [apply (si_calls _ _ Hs _ _ _ _ Hc)|by eapply si_calls]. }
  pose proof (quiet_role _ _ (HandleRequestVote_quiet _ _ _ _ _ Hx)) as Hro. pose proof (full_same _ _ _ (ns_full _ _ _ _ Hn) (sl_same _ _ Hst)) as Hf.
  assert (eases Marshal boot (rp_node r) n') as Hea by (eapply HandleRequestVote_eases; [by rewrite Et|by rewrite Ei|apply Hfits|exact Hx]).
  pose proof (still_shows _ _ _ _ (ns_view _ _ _ _ Hn) Hst Hro) as Hsh. destruct (rvr_VoteGranted resp).
  2:{ rewrite Evotes. eapply still_sim; [exact Hs|exact Hr|exact Hn|done|done|done|apply Hst|apply Hst|done|done|done|done|apply Forall_old|apply Forall_old]. }
  destruct (Hg eq_refl) as [Et' Hup]. destruct (si_calls _ _ Hs _ _ _ _ Hc) as (y & Hy & Hyl & Hyt). specialize (Hup y Hyl Hyt). unfold up_to_date in Hup.
  rewrite (view_length _ _ _ (ns_full _ _ _ _ Hn) (ns_view _ _ _ _ Hn)), (view_last _ _ _ (ns_full _ _ _ _ Hn) (ns_view _ _ _ _ Hn)) in Hup.
  rewrite Et in Et'. set (st1 := go_term st j (n_term n')). assert (r_term st j <= n_term n')%N as Hle' by by rewrite (ns_term _ _ _ _ Hn).
  pose proof (term_inv _ _ _ _ _ (si_inv _ _ Hs) Hle') as Hi1. fold st1 in Hi1.
  assert (forall c', r_voted st1 j t c' -> c' = i) as Honce.
  { intros c' Hv. apply (si_votes _ _ Hs) in Hv. apply (ci_once _ _ _ _ Hci' j t); simpl; rewrite Evotes; set_solver. }
  assert (r_term st1 j = t) as Ht1 by (simpl; rewrite upd_same; exact Et').
  pose proof (still_node _ _ _ _ _ Hn Hok Hf Hsh (sl_commit _ _ Hst) (sl_match _ _ Hst) Hro Hle) as Hn1. fold st1 in Hn1.
  exists (add_voted st1 j t i). split; [|apply (sim_update _ st)].
  - eapply raft_more; [apply raft_one, rf_term; exact Hle'|]. by eapply rf_vote.
  - done.
  - eapply vote_inv; [apply quorums|done..].
  - etrans; [apply touches_go_term|apply touches_voted].
  - exists V. destruct Hn1. by split.
  - intros Hb Hre. eapply disk_sim_eases; [by eapply si_disk|exact Hea|done|done].
  - by left.
  - intros v t' c'. simpl. rewrite Evotes, elem_of_union, elem_of_singleton, (si_votes _ _ Hs).
    split; [intros [?|(-> & -> & ->)]; [by right|by left]|intros [[= -> -> ->]|?]; [by right|by left]].
  - intros k j' t' x Hx'. left. by eapply Hcalls.
  - apply Forall_old.
  - apply Forall_old.
Qed.

(** A node behind a snapshot is not elected. *)
Lemma winner_view rc st i n V t y S :
  sim rc st -> node_sim st i n V -> n_role n = candidate -> n_term n = t -> r_asked st t i y -> ConfState.quorum C S ->
  (forall p, p ∈ S -> (p, t, i) ∈ cl_votes (rc_cluster rc)) -> V = r_log st i.
Proof.
  intros Hs Hn Hro Ht Hy HS Hv. destruct (ns_view _ _ _ _ Hn) as [?|Hb]; [done|exfalso]. destruct (ns_cand _ _ _ _ Hn Hro) as [Hcand Hnl].
  pose proof (ns_term _ _ _ _ Hn) as Ent. rewrite Ht in *. pose proof (Hcand _ Hy) as ->. set (st1 := add_led st t i (r_log st i)).
  assert (raft_step st st1) as Hst1 by (eapply rf_lead; [done|done|exact HS|intros p Hp; apply (si_votes _ _ Hs); by apply Hv|done]).
  assert (raft_inv st1) as Hi1 by (eapply raft_step_inv; [apply quorums|apply Hs|exact Hst1]).
  pose proof (ns_known _ _ _ _ Hn) as Hk. rewrite (bh_commit _ _ _ Hb) in Hk. apply (bh_off _ _ _ Hb).
  destruct Hk as [->|(t' & x & Hx & Hle & Hp)]; [apply prefix_nil|]. etrans; [exact Hp|]. destruct (decide (t' = t)) as [->|Hne].
  - destruct (iv_committed _ _ _ (si_inv _ _ Hs) _ _ Hx) as (Hm & Hlt & _). destruct (made_term _ _ _ (si_inv _ _ Hs) _ Hm) as (_ & c' & y' & Hl).
    rewrite Hlt in Hl. destruct (led_unique _ _ (quorums) _ Hi1 t c' i y' (r_log st i)) as [-> _]; [by left|by right|]. by apply Hnl in Hl.
  - eapply (leader_complete _ _ (quorums) _ Hi1 t' x t i); [exact Hx|by right|lia].
Qed.

Lemma won_sim rc st i r n' calls' out L' t :
  sim rc st -> cluster_inv (rc_cluster rc) -> cl_nodes (rc_cluster rc) !! i = Some r -> node_ok n' ->
  entry_ok Marshal (own_entry (rp_node r) [] ENTRY_NORMAL None) -> room (rp_node r) ->
  n_role (rp_node r) = candidate -> n_term (rp_node r) = t -> n_role n' = leader -> n_term n' = t -> n_ID n' = i -> n_conf n' = C -> (t < two64)%N ->
  node_sim st i (rp_node r) (r_log st i) -> full (n_store n') L' -> n_commitIndex n' = n_commitIndex (rp_node r) ->
  L' = r_log st i \/ L' = r_log st i ++ [own_entry (rp_node r) [] ENTRY_NORMAL None] -> fresh_match n' L' -> sends n' L' out ->
  (exists y, r_asked st t i y) -> (exists S, ConfState.quorum C S /\ forall p, p ∈ S -> (p, t, i) ∈ cl_votes (rc_cluster rc)) ->
  (forall k j t x, calls' !! (k, j, t) = Some x -> call_sim st k t x.1) -> eases Marshal boot (rp_node r) n' ->
  exists st', raft_steps st st' /\
    sim (mkReplication (mkCluster (with_node (rc_cluster rc) i n' (rp_restarted r)) calls' (cl_votes (rc_cluster rc))) (messages i out ++ rc_sent rc) (rc_answers rc)) st'.
Proof.
  intros Hs Hci Hr Hok He Hroom Hro Ht Hro' Ht' Hid Hcf Hw Hn Hf Hcm HL' Hfm Hse [y Hy] (S & HS & Hv) Hcalls Hea.
  pose proof (ns_term _ _ _ _ Hn) as Ent. rewrite Ht in Ent. destruct (ns_cand _ _ _ _ Hn Hro) as [Hcand Hnl]. rewrite Ht in Hcand, Hnl. pose proof (Hcand _ Hy) as ->.
  set (st1 := add_led st t i (r_log st i)). assert (raft_step st st1) as Hst1.
  { eapply rf_lead; [done|done|exact HS| |done]. intros p Hp. apply (si_votes _ _ Hs). by apply Hv. }
  assert (raft_inv st1) as Hi1 by (eapply raft_step_inv; [apply quorums|apply Hs|exact Hst1]).
  destruct (leader_grows st1 i (r_log st i) (own_entry (rp_node r) [] ENTRY_NORMAL None) L') as [st' Hgt];
    [done|rewrite (Ent : r_term st1 i = t); by right|simpl; by rewrite upd_same|rewrite (Ent : r_term st1 i = t); exact Ht|done|]. pose proof Hgt as [G1 G2 G3 G4 _ G5 G6 G7 G8].
  assert (touches i st st') as Hto by (etrans; [apply touches_led|exact G3]).
  assert (r_active st' i = true) as Ha by (rewrite G6; simpl; by rewrite upd_same).
  assert (r_led st' t i (r_log st i)) as Hl by (apply (to_led_mono _ _ _ G3); by right).
  assert (node_sim st' i n' L') as Hn'.
  { split; rewrite ?G4; try done.
    - by rewrite G5, Ht'.
    - by left.
    - eapply known_grow; [exact Hn|exact Hto| |done|congruence]. destruct HL' as [-> | ->]; [done|by eexists].
    - congruence.
    - intros _. rewrite Ht'. split; [done|]. split; [by eexists|]. intros p. rewrite G4. specialize (Hfm p). rewrite Hid in Hfm. case_decide; [done|right]. exists []. split; [by left|unfold len; simpl; lia]. }
  exists st'. split.
  { clear -G1 Hst1. induction G1; [by apply raft_one|by eapply raft_more]. }
  apply (sim_update _ st); [done|done|exact Hto|by exists L'| | |by rewrite G7; apply Hs|by intros k j t' x Hx; left; eapply Hcalls| |apply Forall_old].
  - intros Hb Hre. apply disk_sim_synced; [done|]. destruct (si_disk _ _ Hs _ _ Hr Hb Hre) as (d & Hd & _).
    pose proof (proj2 Hd ltac:(congruence)) as ->. destruct (Hea 0 Hd) as (d' & Hle & Hd'). by replace 0 with d' by lia.
  - intros p [?| ->]%G8; [by left|right]. apply (own_sound st i _ []); [exact Hn|exact Hroom|exact He|by eapply log_sound].
  - apply Forall_app. split; [|apply Forall_old]. eapply Forall_impl; [|intros x Hx; right; exact Hx].
    eapply sends_ok; [done|by rewrite G4|done|done|done|by rewrite Ht'|by rewrite G4].
Qed.

Lemma answer_sim rc st i j t req resp r c out n' calls' :
  sim rc st -> cluster_inv (rc_cluster rc) -> cl_calls (rc_cluster rc) !! (i, j, t) = Some (req, Some resp) ->
  cl_nodes (rc_cluster rc) !! i = Some r -> entry_ok Marshal (own_entry (rp_node r) [] ENTRY_NORMAL None) -> room (rp_node r) ->
  onVoteResponse Marshal c (rp_node r) (rv_Term req) resp = Some (out, n') -> calls' = delete (i, j, t) (cl_calls (rc_cluster rc)) ->
  cluster_inv (mkCluster (with_node (rc_cluster rc) i n' (rp_restarted r)) calls' (cl_votes (rc_cluster rc))) ->
  exists st', raft_steps st st' /\
    sim (mkReplication (mkCluster (with_node (rc_cluster rc) i n' (rp_restarted r)) calls' (cl_votes (rc_cluster rc))) (messages i out ++ rc_sent rc) (rc_answers rc)) st'.
Proof using Hboot.
  intros Hs Hci Hc Hr He Hroom Hx Ecalls Hci'. destruct (si_nodes _ _ Hs _ _ Hr) as [V Hn]. destruct (ci_nodes _ _ _ _ Hci _ _ Hr) as [_ Hid _ Hfits _ _].
  destruct (ci_calls _ _ _ _ Hci _ _ _ _ Hc) as [Et _ _ _ W2 _ _ Hans]. simpl in *. destruct (Hans resp eq_refl) as [Wr _].
  destruct (onVoteResponse_ok Marshal c _ (rv_Term req) resp (ns_ok _ _ _ _ Hn) Hroom) as (o1 & n1 & E1 & Hok). rewrite Hx in E1. injection E1 as <- <-.
  pose proof (np_spath _ _ _ (onVoteResponse_path _ _ _ _ _ _ _ Wr He Hx)) as Hsp.
  pose proof (onVoteResponse_eases _ boot _ _ _ _ _ _ (ns_ok _ _ _ _ Hn) Hroom Wr He Hx) as Hea.
  assert (forall k j' t' x, calls' !! (k, j', t') = Some x -> call_sim st k t' x.1) as Hcalls.
  { intros k j' t' x. rewrite Ecalls. intros [_ Hx']%lookup_delete_Some. by eapply si_calls. }
  destruct (onVoteResponse_effect _ _ _ _ _ _ _ _ (ns_ok _ _ _ _ Hn) Hroom (ns_full _ _ _ _ Hn) Hx) as [(Hst & -> & Hro)|(Hro & Ht & Hro' & L' & Hf & Hcm & Hcf & HL' & Hfm & Hse)].
  { eapply still_sim; [exact Hs|exact Hr|exact Hn|done|by eapply full_same; [apply Hn|apply Hst]|by eapply still_shows; [apply Hn|..]|apply Hst|apply Hst|done|by eapply spath_term|done|done|apply Forall_old|apply Forall_old]. }
  rewrite Et in Ht. assert (n_term n' = t) as Ht'.
  { destruct (onVoteResponse_roles _ _ _ _ _ _ _ Hx) as [[[?|[? _]]|v _ _ _ _ E _] _]; [congruence|congruence|by rewrite E]. }
  assert (cl_nodes (mkCluster (with_node (rc_cluster rc) i n' (rp_restarted r)) calls' (cl_votes (rc_cluster rc))) !! i = Some (mkReplica n' (rp_restarted r))) as Hr'
    by (simpl; unfold with_node; by rewrite lookup_insert_eq).
  pose proof (ci_nodes _ _ _ _ Hci' _ _ Hr') as [_ _ Hcf' _ _ Hri']. destruct (ro_leader _ _ _ _ _ Hri' Hro') as (S & HS & Hv). simpl in Hv, Hcf'. rewrite Ht' in Hv.
  assert (ConfState.quorum C S) as HQ by (apply elects_quorum; [eapply conf_reach_ok; [exact Hboot|constructor]|done]).
  destruct (si_calls _ _ Hs _ _ _ _ Hc) as (y & Hy & _). pose proof (winner_view _ _ _ _ _ _ _ _ Hs Hn Hro Ht Hy HQ Hv) as ->.
  eapply won_sim; [exact Hs|exact Hci|exact Hr|exact Hok|exact He|exact Hroom|exact Hro|exact Ht|exact Hro'|exact Ht'| |exact Hcf'|exact W2|exact Hn|exact Hf|exact Hcm|exact HL'|exact Hfm|exact Hse|by exists y|by exists S|exact Hcalls|exact Hea].
  unfold n_ID in *. by rewrite Hcf.
Qed.

(** ** Replication *)

Lemma raft_trans st st1 st2 : raft_steps st st1 -> raft_steps st1 st2 -> raft_steps st st2.
Proof. intros H. induction 1; [done|by eapply raft_more]. Qed.

(** A follower of term [t] takes [q] over as [l], and acknowledges it when it has it all. *)
Lemma receive_steps st v t q l (ack : bool) :
  raft_inv st -> (r_term st v <= t)%N -> on_chain st t q -> (forall y, ~ r_led st t v y) -> adopts (r_log st v) q l ->
  (ack = true -> q `prefix_of` l) ->
  exists st', raft_steps st st' /\ raft_inv st' /\ touches v st st' /\ r_term st' v = t /\ r_log st' v = l /\
    r_made st' = r_made st /\ r_voted st' = r_voted st /\ (ack = true -> r_acked st' v t q).
Proof.
  intros Hi Hle Hq Hnl Had Hack. set (st1 := go_term st v t). set (st2 := write_log st1 v l).
  assert (raft_step st st1) as S1 by by apply rf_term. assert (raft_inv st1) as I1 by (eapply raft_step_inv; [apply quorums|done..]).
  assert (r_term st1 v = t) as T1 by (simpl; by rewrite upd_same).
  assert (raft_step st1 st2) as S2 by by eapply rf_receive. assert (raft_inv st2) as I2 by (eapply raft_step_inv; [apply quorums|done..]).
  assert (touches v st st2) as Hto by (etrans; [apply touches_go_term|apply touches_write]).
  assert (r_log st2 v = l) as L2 by (simpl; by rewrite upd_same).
  destruct ack.
  2:{ exists st2. split_and!; try done. eapply raft_more; [by apply raft_one|done]. }
  set (st3 := sync_log st2 v). assert (raft_step st2 st3) as S3 by apply rf_sync. assert (raft_inv st3) as I3 by (eapply raft_step_inv; [apply quorums|done..]).
  set (st4 := add_acked st3 v t q). assert (raft_step st3 st4) as S4.
  { apply rf_ack; [exact T1|eapply touches_chain; [etrans; [exact Hto|apply touches_sync]|exact Hq]|]. intros l'. simpl. rewrite !upd_same. intros ->. by apply Hack. }
  exists st4. split_and!; try done.
  - eapply raft_more; [|exact S4]. eapply raft_more; [|exact S3]. eapply raft_more; [by apply raft_one|done].
  - eapply raft_step_inv; [apply quorums|exact I3|exact S4].
  - etrans; [exact Hto|]. etrans; [apply touches_sync|apply touches_acked].
  - intros _. by right.
Qed.

Lemma chain_sound rc st t q : sim rc st -> on_chain st t q -> contiguous 1 q /\ Forall sound q.
Proof.
  intros Hs Hq. destruct (chain_made _ _ _ (si_inv _ _ Hs) _ _ Hq) as [->|Hm]; [|by apply (si_made _ _ Hs)]. split; [by intros i e|constructor].
Qed.

Lemma log_made st i : raft_inv st -> r_log st i = [] \/ r_made st (r_log st i).
Proof. intros Hi. apply (iv_disk _ _ _ Hi i), Hi. Qed.

(** The entries of a node's snapshot are committed. *)
Lemma snap_known st i n V t : node_sim st i n V -> (n_term n <= t)%N -> known st t (take (snap_len n) V).
Proof.
  intros Hn Hle. eapply (known_mono i st st); [reflexivity|exact Hle|]. eapply known_prefix; [apply Hn|].
  destruct (ns_ok _ _ _ _ Hn) as [Hwf _]. pose proof (nw_snap _ Hwf). pose proof (nw_applied _ Hwf).
  replace (snap_len n) with (snap_len n `min` N.to_nat (n_commitIndex n)) by lia. rewrite <-take_take. apply prefix_take.
Qed.

(** What the leader of [t] sent may be received in that term. *)
Lemma sim_receivable rc st j n V req q :
  sim rc st -> node_sim st j n V -> carries req q -> on_chain st (ae_Term req) q ->
  (ae_PrevLogIndex req + len (ae_Entries req) + 2 < two64)%N -> (n_term n <= ae_Term req)%N -> receivable n V req q.
Proof.
  intros Hs Hn Hc Hq Hw Hle. pose proof (si_inv _ _ Hs) as Hi. rewrite (carries_last _ _ Hc) in Hw. split; [done|by eapply chain_sound|exact Hw| |].
  - eapply view_matching; [apply quorums|exact Hi|apply Hn|by apply (log_made _ j)|exact Hq|by eapply snap_known|apply Hn].
  - eapply known_chain; [apply quorums|exact Hi|apply Hn|exact Hle|exact Hq].
Qed.

(** The commit index of a follower stays at a committed prefix. *)
Lemma received_known st st' j n V V' req q resp n' :
  raft_inv st -> node_sim st j n V -> touches j st st' -> (n_term n <= ae_Term req)%N -> on_chain st (ae_Term req) q ->
  known st (ae_Term req) (take (N.to_nat (ae_LeaderCommit req)) q) -> received n V req q resp n' V' ->
  known st' (n_term n') (take (N.to_nat (n_commitIndex n')) V').
Proof.
  intros Hi Hn Ht Hle Hq Hk [_ Et _ _ Had Hsucc Hc]. rewrite Et. eapply (known_mono j st); [exact Ht|reflexivity|].
  pose proof (ns_ok _ _ _ _ Hn) as [Hwf _]. pose proof (nw_commit _ Hwf) as Hcm. rewrite (full_end _ _ (ns_full _ _ _ _ Hn)) in Hcm.
  assert (known st (ae_Term req) (take (N.to_nat (n_commitIndex n)) V')) as Hold.
  { pose proof (ns_known _ _ _ _ Hn) as Hkn. assert (take (N.to_nat (n_commitIndex n)) V `prefix_of` V') as [k Hk'].
    { eapply adopts_keeps; [exact Had| |apply prefix_take]. by eapply known_chain; [apply quorums|..]. }
    rewrite Hk', take_app_le by (rewrite length_take; unfold len in *; lia). rewrite take_take, Nat.min_id.
    eapply (known_mono j st st); [reflexivity|exact Hle|exact Hkn]. }
  destruct Hc as [->|[Hs Hc]]; [done|]. destruct (N.max_spec (n_commitIndex n) (N.min (ae_LeaderCommit req) (len q))) as [[Hlt Hm]|[_ Hm]]; [|by rewrite Hc, Hm].
  rewrite Hc, Hm. destruct (Hsucc Hs) as [k ->]. rewrite take_app_le by (unfold len; lia). eapply known_prefix; [exact Hk|].
  replace (N.to_nat (N.min (ae_LeaderCommit req) (len q))) with (N.to_nat (N.min (ae_LeaderCommit req) (len q)) `min` N.to_nat (ae_LeaderCommit req)) by lia.
  rewrite <-take_take. apply prefix_take.
Qed.

Lemma carried_sound rc st req q : sim rc st -> carries req q -> on_chain st (ae_Term req) q -> Forall (entry_ok Marshal) (ae_Entries req).
Proof. intros Hs Hca Hq. rewrite (ca_entries _ _ Hca). apply Forall_drop. eapply Forall_impl; [apply (chain_sound _ _ _ _ Hs Hq)|]. by intros e []. Qed.

(** A leader gets no request of its own term from another node. *)
Lemma other_leader st i j y n V t : raft_inv st -> i <> j -> r_led st t i y -> node_sim st j n V -> n_role n = leader -> n_term n <> t.
Proof.
  intros Hi Hij Hl Hn Hlead Et. destruct (ns_lead _ _ _ _ Hn Hlead) as (_ & [y' Hl'] & _). rewrite Et in Hl'.
  by destruct (led_unique _ _ (quorums) _ Hi _ _ _ _ _ Hl Hl') as [? _].
Qed.

Lemma not_led st i j y t : raft_inv st -> i <> j -> r_led st t i y -> forall y', ~ r_led st t j y'.
Proof. intros Hi Hij Hl y' Hl'. by destruct (led_unique _ _ (quorums) _ Hi _ _ _ _ _ Hl Hl') as [? _]. Qed.

(** A follower on a device that does not fail has fsynced what it answers. *)
Lemma follower_synced rc st i y j n V req q c resp n' d :
  sim rc st -> i <> j -> r_led st (ae_Term req) i y -> node_sim st j n V -> (ae_Term req < two64)%N -> carries req q ->
  on_chain st (ae_Term req) q -> (ae_PrevLogIndex req + len (ae_Entries req) + 2 < two64)%N -> (n_term n <= ae_Term req)%N ->
  durable Marshal boot n d -> HandleAppendEntries Marshal c n req = Some (resp, n') -> n_role n' = follower -> durable Marshal boot n' 0.
Proof.
  intros Hs Hij Hl Hn Hwt Hca Hq Hw Hle Hd Hx Hro.
  destruct (HandleAppendEntries_synced Marshal boot c _ req resp n' d (ns_ok _ _ _ _ Hn)) as [->|Hd']; [|done|by eapply carried_sound| |done|done| |by split].
  - eapply receivable_ok; [apply Hn|apply Hn|by eapply sim_receivable].
  - intros Hlead. by eapply other_leader; [apply Hs|..].
  - destruct Hd as [Hd Hz]. rewrite <-(Hz ltac:(congruence)). by split.
Qed.

(** The log of the protocol after a request: a node behind a snapshot that keeps its
    log has nothing to acknowledge but the snapshot. *)
Lemma received_view st j n V V' req q resp n' :
  raft_inv st -> node_sim st j n V -> (n_term n <= ae_Term req)%N -> on_chain st (ae_Term req) q -> received n V req q resp n' V' ->
  exists l ack, adopts (r_log st j) q l /\ (ack = true -> q `prefix_of` l) /\ shows l V' n' /\
    (aer_Success resp = true -> ack = true \/ exists x, known st (ae_Term req) x /\ (len q <= len x)%N).
Proof.
  intros Hi Hn Hle Hq [Hro _ _ Hsn Had Hsucc Hc]. destruct (ns_view _ _ _ _ Hn) as [->|Hb].
  { exists V', (aer_Success resp). split_and!; [done|done|by left|by left]. }
  pose proof (snap_known _ _ _ _ _ Hn Hle) as Hk. destruct (decide (V' = V)) as [->|Hne].
  2:{ exists V', (aer_Success resp). split_and!; [|done|by left|by left].
      eapply behind_adopts; [apply quorums|exact Hi|apply Hn|by apply (log_made _ j)|exact Hq|exact Hk|exact Hb|done|done]. }
  assert (aer_Success resp = true -> length q <= snap_len n) as Hlq.
  { intros Hs. eapply behind_prefix; [apply quorums|exact Hi|apply Hn|by apply (log_made _ j)|exact Hq|exact Hk|exact Hb|by apply Hsucc]. }
  exists (r_log st j), false. split; [by left|]. split; [done|]. split.
  - eapply shows_same; [by right|done| |congruence]. destruct Hc as [?|[Hs Hc]]; [done|]. rewrite Hc, (bh_commit _ _ _ Hb).
    specialize (Hlq Hs). unfold len. lia.
  - intros Hs. right. exists (take (snap_len n) V). split; [done|]. specialize (Hlq Hs). pose proof (snap_len_le _ _ (ns_full _ _ _ _ Hn)).
    unfold len. rewrite length_take. lia.
Qed.

Lemma append_sim rc st i j req r c resp n' :
  sim rc st -> cluster_inv (rc_cluster rc) -> (i, j, MsgAppend req) ∈ rc_sent rc -> cl_nodes (rc_cluster rc) !! j = Some r ->
  (ae_PrevLogIndex req + len (ae_Entries req) + 2 < two64)%N -> HandleAppendEntries Marshal c (rp_node r) req = Some (resp, n') -> (n_term n' < two64)%N ->
  exists st', raft_steps st st' /\
    sim (mkReplication (mkCluster (with_node (rc_cluster rc) j n' (rp_restarted r)) (cl_calls (rc_cluster rc)) (cl_votes (rc_cluster rc))) (rc_sent rc)
      ((i, j, AnsAppend req resp) :: rc_answers rc)) st'.
Proof.
  intros Hs Hci Hin Hr Hw Hx Hw'. destruct (si_nodes _ _ Hs _ _ Hr) as [V Hn]. pose proof (si_inv _ _ Hs) as Hi. pose proof (si_sent _ _ Hs) as Hse.
  eapply Forall_forall in Hse; [|exact Hin]. destruct Hse as (Hij & Hwt & [y Hl] & q & Hca & Hq & Hk).
  pose proof (HandleAppendEntries_term _ _ _ _ _ _ Hx) as Ert. rewrite <-Ert in Hw'.
  destruct (HandleAppendEntries_effect _ _ _ _ _ _ _ q (ns_ok _ _ _ _ Hn) (ns_full _ _ _ _ Hn) (fun Hle => sim_receivable _ _ _ _ _ _ _ Hs Hn Hca Hq Hw Hle) Hx)
    as [[-> Hf]|(Hle & V' & Hrv)].
  { eapply still_sim; [exact Hs|exact Hr|exact Hn|apply Hn|apply Hn|apply Hn|done|done|by right|done|by intros _|by eapply si_calls|apply Forall_old|].
    constructor; [right|apply Forall_old]. split; [done|]. split; [exact Hw'|]. by rewrite Hf. }
  assert (node_ok n') as Hok.
  { destruct (HandleAppendEntries_ok Marshal c (rp_node r) req (ns_ok _ _ _ _ Hn)) as (r1 & n1 & E1 & Hok1); [|rewrite Hx in E1; by injection E1 as <- <-].
    eapply receivable_ok; [apply Hn|apply Hn|by eapply sim_receivable]. }
  destruct (received_view _ _ _ _ _ _ _ _ _ Hi Hn Hle Hq Hrv) as (l & ack & Had & Hack & Hsh & Hans).
  destruct (receive_steps st j (ae_Term req) q l ack) as (st' & H1 & H2 & H3 & H4 & H5 & H6 & H7 & H8);
    [done|by rewrite (ns_term _ _ _ _ Hn)|done|by eapply not_led|done|done|].
  exists st'. split; [done|]. apply (sim_update _ st); try done.
  - exists V'. split; rewrite ?H5; [done|by rewrite H4, (rv_term _ _ _ _ _ _ _ Hrv)|apply Hrv|done|exact (received_known _ _ _ _ _ _ _ _ _ _ Hi Hn H3 Hle Hq Hk Hrv)|intros Er..];
      rewrite (rv_role _ _ _ _ _ _ _ Hrv) in Er; discriminate.
  - intros Hb Hre. apply disk_sim_synced; [done|]. destruct (si_disk _ _ Hs _ _ Hr Hb Hre) as (d & Hd & _).
    exact (follower_synced _ _ _ _ _ _ _ _ _ _ _ _ _ Hs Hij Hl Hn Hwt Hca Hq Hw Hle Hd Hx (rv_role _ _ _ _ _ _ _ Hrv)).
  - rewrite H6. by left.
  - rewrite H7. apply Hs.
  - intros k j' t' x Hx'. left. by eapply si_calls.
  - apply Forall_old.
  - constructor; [right|apply Forall_old]. split; [done|]. split; [exact Hw'|]. intros Hsc.
    assert (ae_PrevLogIndex req +64 len (ae_Entries req) = len q) as -> by (rewrite <-(carries_last _ _ Hca), add64_small; [done|lia]).
    destruct (Hans Hsc) as [Ha|(x & Hx' & Hlx)]; [left; exists q; by split; [apply H8|]|right].
    exists x. split; [eapply known_mono; [exact H3|reflexivity|exact Hx']|done].
Qed.

(** ** Committing *)

Lemma quorum_replicated m k : canCommit C k m = true -> ConfState.quorum C (replicated C m k).
Proof using Hboot. intros H. apply commits_quorum; [eapply conf_reach_ok; [exact Hboot|constructor]|]. by exists m, k. Qed.

Lemma forall_or {A} (P : A -> Prop) (Q : Prop) (l : list A) : (forall p, p ∈ l -> P p \/ Q) -> (forall p, p ∈ l -> P p) \/ Q.
Proof.
  induction l as [|a l IH]; intros H; [left; by intros p ?%not_elem_of_nil|]. destruct (H a ltac:(by left)) as [Ha|]; [|by right].
  destruct IH as [IH|]; [intros p Hp; apply H; by right| |by right]. left. intros p [->|Hp]%elem_of_cons; [done|by apply IH].
Qed.

(** What a quorum has, a quorum acknowledged: where a node was sent a snapshot of it,
    a quorum had acknowledged it before. *)
Lemma quorum_acked st t x S :
  raft_inv st -> on_chain st t x -> x <> [] -> last_term x = t -> ConfState.quorum C S -> (forall p, p ∈ S -> has_upto st p t (len x)) ->
  exists S', ConfState.quorum C S' /\ forall p, p ∈ S' -> exists q, r_acked st p t q /\ x `prefix_of` q.
Proof.
  intros Hi Hch Hne Hlt HS Hall.
  destruct (forall_or (fun p => exists q, r_acked st p t q /\ x `prefix_of` q) (exists z, known st t z /\ (len x <= len z)%N) (elements S)) as [H|(z & Hz & Hle)].
  - intros p [Hp|Hp]%elem_of_elements%Hall; [left|by right]. destruct Hp as (q & Hq & Hle). exists q. split; [done|].
    destruct (iv_acked _ _ _ Hi _ _ _ Hq) as (_ & Hqc & _). destruct (chain_total _ _ (quorums) _ Hi _ _ _ Hch Hqc) as [H|H]; [done|].
    assert (q = x) as ->; [|done]. apply prefix_length_eq; [done|]. unfold len in *. lia.
  - exists S. split; [done|]. intros p Hp. by apply H, elem_of_elements.
  - destruct Hz as [->|(t' & x' & Hx' & Ht' & Hp)]; [destruct x; [done|unfold len in Hle; simpl in Hle; lia]|]. apply prefix_length in Hp.
    destruct (iv_committed _ _ _ Hi _ _ Hx') as (Hm & Hlt' & S' & HS' & Hack). assert (x `prefix_of` x') as Hxx.
    { destruct (committed_chain _ _ (quorums) _ Hi _ _ _ _ Hx' Ht' Hch) as [H|H]; [|done].
      assert (x' = x) as ->; [|done]. apply prefix_length_eq; [done|]. unfold len in *. lia. }
    pose proof (terms_grow _ _ _ Hi _ _ (or_intror Hm) Hxx). assert (t' = t) as -> by lia. exists S'. split; [done|].
    intros p (q & Hq & Hpq)%Hack. exists q. split; [done|by etrans].
Qed.

(** The leader commits the prefix a quorum has. *)
Lemma commit_steps st i n t y k :
  raft_inv st -> r_active st i = true -> r_led st t i y -> r_term st i = t -> n_term n = t -> counted st i n ->
  (0 < k <= len (r_log st i))%N -> last_term (take (N.to_nat k) (r_log st i)) = t -> canCommit C k (matched n) = true ->
  exists st', raft_steps st st' /\ raft_inv st' /\ touches i st st' /\ r_term st' i = t /\ r_log st' i = r_log st i /\ r_active st' i = true /\
    r_made st' = r_made st /\ r_voted st' = r_voted st /\ r_led st' = r_led st /\ r_committed st' t (take (N.to_nat k) (r_log st i)).
Proof using Hboot.
  intros Hi Ha Hl Ht Hnt Hc Hk Hlt Hcc. pose proof (leader_chain _ _ _ _ Hi Ha Hl Ht) as Hch. set (x := take (N.to_nat k) (r_log st i)) in *.
  set (st1 := sync_log st i). assert (raft_step st st1) as S1 by apply rf_sync. assert (raft_inv st1) as I1 by (eapply raft_step_inv; [apply quorums|done..]).
  set (st2 := add_acked st1 i t (r_log st i)). assert (raft_step st1 st2) as S2.
  { apply rf_ack; [done|exact Hch|]. intros l. simpl. rewrite upd_same. by intros ->. }
  assert (raft_inv st2) as I2 by (eapply raft_step_inv; [apply quorums|done..]).
  assert (on_chain st2 t (r_log st i)) as Hch2 by exact Hch. assert (touches i st st2) as T2 by (etrans; [apply touches_sync|apply touches_acked]).
  assert (x `prefix_of` r_log st i) as Hx by apply prefix_take. assert (len x = k) as Hxl by (unfold x, len in *; rewrite length_take; lia).
  assert (x <> []) as Hne by (intros E; rewrite E in Hxl; unfold len in Hxl; simpl in Hxl; lia). pose proof (chain_prefix _ _ (quorums) _ I2 _ _ _ Hch2 Hx) as Hxc.
  assert (r_made st x) as Hm by by destruct (chain_made _ _ _ I2 _ _ Hxc).
  destruct (quorum_acked st2 t x (replicated C (matched n) k)) as (S & HS & Hall); [done|done|done|done|by apply quorum_replicated| |].
  { intros p [Hpk _]%elem_of_filter. specialize (Hc p). rewrite Hxl. destruct (decide (p = i)) as [->|Hpi]; [left; exists (r_log st i); split; [by right|lia]|].
    rewrite Hnt in Hc. eapply has_upto_le; [exact Hpk|]. by eapply has_upto_mono. }
  set (st3 := add_committed st2 t x). assert (raft_step st2 st3) as S3 by (by eapply rf_commit).
  exists st3. split_and!; try done.
  - eapply raft_more; [|exact S3]. eapply raft_more; [by apply raft_one|exact S2].
  - eapply raft_step_inv; [apply quorums|exact I2|exact S3].
  - etrans; [exact T2|apply touches_committed].
  - by right.
Qed.

Lemma counted_more st i n n' j v :
  counted st i n -> i <> j -> n_term n' = n_term n -> has_upto st j (n_term n) v ->
  (forall p, (match_of (matched n') p <= match_of (matched n) p)%N \/ p = j /\ (match_of (matched n') p <= v)%N) -> counted st i n'.
Proof.
  intros Hc Hij Ht Hv Hm p. specialize (Hc p). rewrite Ht. destruct (Hm p) as [Hp|[-> Hp]].
  - case_decide; [lia|]. by eapply has_upto_le.
  - case_decide; [congruence|]. by eapply has_upto_le.
Qed.

Lemma acked_sim rc st i j req resp r c n' :
  sim rc st -> cluster_inv (rc_cluster rc) -> (i, j, AnsAppend req resp) ∈ rc_answers rc -> cl_nodes (rc_cluster rc) !! i = Some r ->
  onAppendResponse c (rp_node r) j req resp = Some n' ->
  exists st', raft_steps st st' /\
    sim (mkReplication (mkCluster (with_node (rc_cluster rc) i n' (rp_restarted r)) (cl_calls (rc_cluster rc)) (cl_votes (rc_cluster rc))) (rc_sent rc) (rc_answers rc)) st'.
Proof using Hboot.
  intros Hs Hci Hin Hr Hx. destruct (si_nodes _ _ Hs _ _ Hr) as [V Hn]. pose proof (si_inv _ _ Hs) as Hi. pose proof (si_answers _ _ Hs) as Han.
  eapply Forall_forall in Han; [|exact Hin]. destruct Han as (Hij & Hw & Hack). pose proof (ri_conf _ _ _ _ _ _ _ (ci_nodes _ _ _ _ Hci _ _ Hr)) as Hcf.
  destruct (onAppendResponse_ok c (rp_node r) j req resp (ns_ok _ _ _ _ Hn)) as (n1 & E1 & Hok). rewrite Hx in E1. injection E1 as <-.
  destruct (onAppendResponse_eases Marshal boot _ _ _ _ _ _ Hw Hx) as [Hea Hsy]. pose proof (onAppendResponse_quiet _ _ _ _ _ _ Hx) as Hq. pose proof (spath_term _ _ _ (np_spath _ _ _ (onAppendResponse_path Marshal _ _ _ _ _ _ Hw Hx))) as Hle.
  destruct (onAppendResponse_effect _ _ _ _ _ _ _ (ns_ok _ _ _ _ Hn) (ns_full _ _ _ _ Hn) Hx) as [Hst|(Hro & Et & Hsc & Hak)];
    [apply quiet_role in Hq; by eapply still_sim0|].
  pose proof (shows_leader _ _ _ (ns_view _ _ _ _ Hn) Hro) as ->.
  destruct (ns_lead _ _ _ _ Hn Hro) as (Ha & [y Hl] & Hcn). rewrite <-Et in Hack. pose proof Hak as [[Ero Et' _] Hlog Hmt Hcm].
  assert (counted st i n') as Hcn' by (eapply counted_more; [exact Hcn|exact Hij|exact Et'|by apply Hack|intros p; destruct (Hmt p) as [?|[? ->]]; [by left|by right]]).
  pose proof (full_same _ _ _ (ns_full _ _ _ _ Hn) Hlog) as Hf'.
  assert (exists st', raft_steps st st' /\ raft_inv st' /\ touches i st st' /\ r_term st' i = r_term st i /\ r_log st' i = r_log st i /\ r_active st' i = true /\
    r_made st' = r_made st /\ r_voted st' = r_voted st /\ r_led st' = r_led st /\ known st' (n_term n') (take (N.to_nat (n_commitIndex n')) (r_log st i)) /\
    (r_disk st' i = r_disk st i \/ n_commitIndex n' <> n_commitIndex (rp_node r)))
    as (st' & H1 & H2 & H3 & H4 & H5 & H6 & H7 & H8 & H9 & H10 & H11).
  { destruct Hcm as [Hcm|(Hck & Hlt & Hcc)].
    - exists st. split_and!; try done; [constructor| |by left]. rewrite Hcm, Et'. apply Hn.
    - rewrite Hcf in Hcc. destruct (commit_steps st i n' (n_term (rp_node r)) y (n_commitIndex n')) as (st' & H1 & H2 & H3 & H4 & H5 & H6 & H7 & H8 & H9 & H10);
        [done|done|done|apply Hn|done|done|lia|done|done|].
      exists st'. split_and!; try done; [by rewrite (ns_term _ _ _ _ Hn)| |right; lia]. right. exists (n_term (rp_node r)), (take (N.to_nat (n_commitIndex n')) (r_log st i)).
      split_and!; [done|lia|done]. }
  exists st'. split; [done|]. apply (sim_update _ st); try done.
  - exists (r_log st i). split; rewrite ?H5; [done|by rewrite H4, Et', (ns_term _ _ _ _ Hn)|done|by left|done|congruence|]. intros _. split; [done|].
    rewrite H9, Et'. split; [by exists y|]. intros p. specialize (Hcn' p). rewrite H5. case_decide; [done|]. by eapply has_upto_mono.
  - intros Hb Hre. pose proof (si_disk _ _ Hs _ _ Hr Hb Hre) as Hds. destruct H11 as [Ed|Hne]; [by eapply disk_sim_eases|].
    apply disk_sim_synced; [done|]. destruct Hds as (d & [Hd _] & _). split; [|done]. eapply Hsy; [exact Hne|by eapply disk_sound].
  - rewrite H7. by left.
  - rewrite H8. apply Hs.
  - intros k j' t x Hx'. left. by eapply si_calls.
  - apply Forall_old.
  - apply Forall_old.
Qed.

(** ** Snapshots *)

Lemma sent_snap req : (is_LastIncludedIndex req + 1 < two64)%N -> is_ConfState req = encodeConfState C -> conf_fits C -> snap_ok req /\ snap_fits req.
Proof using Hboot.
  intros Hb Ecs Hc. assert (forall cs, decodeConfState (is_ConfState req) = Ok cs -> cs = C) as Hcs.
  { intros cs. rewrite Ecs, decodeConfState_encode by apply Hc. by intros [= <-]. }
  split; [split; [done|]|]; intros cs; [intros -> %Hcs _|intros _ -> %Hcs; done]. eapply conf_reach_ok; [exact Hboot|constructor].
Qed.

(** A follower takes over a snapshot. *)
Lemma installed_sim0 rc st i j y req r n' V P calls' answers' :
  sim rc st -> cl_nodes (rc_cluster rc) !! j = Some r -> node_sim st j (rp_node r) V -> i <> j -> r_led st (is_Term req) i y -> node_ok n' ->
  len P = is_LastIncludedIndex req -> last_term P = is_LastIncludedTerm req -> on_chain st (is_Term req) P -> known st (is_Term req) P ->
  (n_term (rp_node r) <= is_Term req)%N -> n_role n' = follower -> n_term n' = is_Term req ->
  (ds_snapIndex (n_store (rp_node r)) < is_LastIncludedIndex req)%N -> n_commitIndex n' = is_LastIncludedIndex req ->
  ds_snapIndex (n_store n') = is_LastIncludedIndex req -> ds_snapTerm (n_store n') = is_LastIncludedTerm req ->
  ds_log (n_store n') = drop (N.to_nat (is_LastIncludedIndex req)) V -> (rp_restarted r = false -> reliable j -> durable Marshal boot n' 0) ->
  (forall k j t x, calls' !! (k, j, t) = Some x -> call_sim st k t x.1) -> Forall (fun x => x ∈ rc_answers rc \/ answer_ok st x) answers' ->
  exists st', raft_steps st st' /\
    sim (mkReplication (mkCluster (with_node (rc_cluster rc) j n' (rp_restarted r)) calls' (cl_votes (rc_cluster rc))) (rc_sent rc) answers') st'.
Proof.
  intros Hs Hr Hn Hij Hl Hok HlP HtP Hch Hk Hle Hro Et Hlt Hcm Esi Est Elog Hdu Hcalls Han. pose proof (si_inv _ _ Hs) as Hi.
  destruct (known_sound _ _ _ _ Hs Hk) as [HcP _]. rewrite <-HlP in *. rewrite <-HtP in Est. replace (N.to_nat (len P)) with (length P) in Elog by (unfold len; lia).
  assert (snap_len (rp_node r) < length P) as Hlt' by (unfold len in Hlt; lia).
  pose proof (installed_full _ _ _ _ _ (ns_full _ _ _ _ Hn) (ns_view _ _ _ _ Hn) HcP Hlt' Esi Est Elog) as Hf.
  destruct (installed_view _ _ _ _ _ (ns_full _ _ _ _ Hn) (ns_view _ _ _ _ Hn) HcP Hlt' Esi Est Elog Hcm Hro) as (l & Had & Hsh).
  destruct (receive_steps st j (is_Term req) P l false) as (st' & H1 & H2 & H3 & H4 & H5 & H6 & H7 & _); [done|by rewrite (ns_term _ _ _ _ Hn)|done|by eapply not_led|done|done|].
  exists st'. split; [done|]. apply (sim_update _ st); try done.
  - exists (P ++ drop (length P) (r_log st j)). split; rewrite ?H5; [done|by rewrite H4|done|done| |congruence|congruence].
    rewrite Hcm, Et. replace (N.to_nat (len P)) with (length P) by (unfold len; lia). rewrite take_app_length. eapply known_mono; [exact H3|reflexivity|exact Hk].
  - intros Hb Hre. apply disk_sim_synced; [done|by apply Hdu].
  - rewrite H6. by left.
  - rewrite H7. apply Hs.
  - intros k j' t' x Hx'. left. by eapply Hcalls.
  - apply Forall_old.
  - eapply Forall_impl; [exact Han|]. intros x [Hx|Hx]; [by left|right]. by eapply answer_ok_mono.
Qed.

Lemma install_sim rc st i j req r c ts resp msg n' :
  sim rc st -> cluster_inv (rc_cluster rc) -> (i, j, MsgInstall req) ∈ rc_sent rc -> cl_nodes (rc_cluster rc) !! j = Some r -> (reliable j -> ts = []) ->
  HandleInstallSnapshot Marshal c (rp_node r) req ts = Some (resp, msg, true, n') -> (n_term n' < two64)%N ->
  exists st', raft_steps st st' /\
    sim (mkReplication (mkCluster (with_node (rc_cluster rc) j n' (rp_restarted r)) (cl_calls (rc_cluster rc)) (cl_votes (rc_cluster rc))) (rc_sent rc)
      ((i, j, AnsInstall req resp) :: rc_answers rc)) st'.
Proof using Hboot.
  intros Hs Hci Hin Hr Hts Hx Hw'. destruct (si_nodes _ _ Hs _ _ Hr) as [V Hn]. pose proof (si_inv _ _ Hs) as Hi. pose proof (si_sent _ _ Hs) as Hse.
  eapply Forall_forall in Hse; [|exact Hin]. destruct Hse as (Hij & Hwt & Hb & Ecs & [y Hl] & P & HlP & HtP & Hch & Hk).
  destruct (ci_nodes _ _ _ _ Hci _ _ Hr) as [_ _ Hcf Hfits _ _]. pose proof (nf_conf _ Hfits) as Hcfits. rewrite Hcf in Hcfits.
  destruct (sent_snap req Hb Ecs Hcfits) as [Hsok Hsfit]. rewrite <-(HandleInstallSnapshot_term _ _ _ _ _ _ _ _ Hx) in Hw'.
  assert (node_ok n') as Hok.
  { destruct (HandleInstallSnapshot_ok Marshal c (rp_node r) req ts (ns_ok _ _ _ _ Hn) Hsok) as (r1 & m1 & u1 & n1 & E1 & Hok1). rewrite Hx in E1. injection E1 as <- <- <- <-. by apply Hok1. }
  assert (Forall (fun x => x ∈ rc_answers rc \/ answer_ok st x) ((i, j, AnsInstall req resp) :: rc_answers rc)) as Han.
  { constructor; [right|apply Forall_old]. split; [done|]. split; [exact Hw'|]. right. exists P. split; [done|lia]. }
  assert (forall d, reliable j -> durable Marshal boot (rp_node r) d -> n' = rp_node r \/ durable Marshal boot n' 0) as Hsync.
  { intros d Hre Hd. pose proof (Hts Hre) as ->. enough (n' = rp_node r \/ disk Marshal boot (n_store n') 0) as [?|?]; [by left|by right|].
    eapply HandleInstallSnapshot_synced; [apply Hn|done|lia| |by rewrite Hcf|by rewrite Hcf| |exact Hd|exact Hx].
    - rewrite <-HtP. destruct (known_sound _ _ _ _ Hs Hk) as [_ HsP]. rewrite <-(take_ge P (length P)) by done. by apply last_term_fits.
    - intros Hlead. by eapply other_leader. }
  destruct (HandleInstallSnapshot_effect _ _ _ _ _ _ _ _ _ (ns_ok _ _ _ _ Hn) (ns_full _ _ _ _ Hn) Hx) as [->|(Hle & Hro & Et & [[_ Hst]|(Hlt & Hcm & Esi & Est & Elog)])].
  - eapply still_sim; [exact Hs|exact Hr|exact Hn|apply Hn|apply Hn|apply Hn|done|done|by right|done|by intros _|by eapply si_calls|apply Forall_old|done].
  - eapply still_sim; [exact Hs|exact Hr|exact Hn|done|by eapply full_same; [apply Hn|apply Hst]|by eapply still_shows; [apply Hn|done|left]|apply Hst|apply Hst|by left|by rewrite Et
      | |by eapply si_calls|apply Forall_old|exact Han].
    intros Hre d Hd. destruct (Hsync d Hre Hd) as [->|Hd']; [by exists d|exists 0; split; [lia|done]].
  - eapply installed_sim0; [exact Hs|exact Hr|exact Hn|exact Hij|exact Hl|exact Hok|exact HlP|exact HtP|exact Hch|exact Hk|exact Hle|exact Hro|exact Et|exact Hlt|exact Hcm|exact Esi|exact Est|exact Elog| |by eapply si_calls|exact Han].
    intros Hbf Hre. destruct (si_disk _ _ Hs _ _ Hr Hbf Hre) as (d & Hd & _). destruct (Hsync d Hre Hd) as [->|?]; [lia|done].
Qed.

(** The leader counts a peer that has a snapshot. *)
Lemma installed_sim rc st i j req resp r c n' :
  sim rc st -> cluster_inv (rc_cluster rc) -> (i, j, AnsInstall req resp) ∈ rc_answers rc -> cl_nodes (rc_cluster rc) !! i = Some r ->
  onSnapshotResponse c (rp_node r) j req resp = Some n' ->
  exists st', raft_steps st st' /\
    sim (mkReplication (mkCluster (with_node (rc_cluster rc) i n' (rp_restarted r)) (cl_calls (rc_cluster rc)) (cl_votes (rc_cluster rc))) (rc_sent rc) (rc_answers rc)) st'.
Proof.
  intros Hs Hci Hin Hr Hx. destruct (si_nodes _ _ Hs _ _ Hr) as [V Hn]. pose proof (si_answers _ _ Hs) as Han.
  eapply Forall_forall in Han; [|exact Hin]. destruct Han as (Hij & Hw & Hup).
  destruct (onSnapshotResponse_ok c (rp_node r) j req resp (ns_ok _ _ _ _ Hn)) as (n1 & E1 & Hok). rewrite Hx in E1. injection E1 as <-.
  pose proof (onSnapshotResponse_eases Marshal boot _ _ _ _ _ _ Hw Hx) as Hea.
  pose proof (spath_term _ _ _ (np_spath _ _ _ (onSnapshotResponse_path Marshal _ _ _ _ _ _ Hw Hx))) as Hle.
  pose proof (quiet_role _ _ (onSnapshotResponse_quiet _ _ _ _ _ _ Hx)) as Hq.
  destruct (onSnapshotResponse_effect _ _ _ _ _ _ Hx) as [Hst|(Hro & Et & [Ero Et' _] & Est & Hcm & Hm)]; [by eapply still_sim0|].
  destruct (ns_lead _ _ _ _ Hn Hro) as (Ha & Hl & Hcn). rewrite <-Et in Hup.
  exists st. split; [constructor|]. apply (sim_update _ st); try done.
  - apply Hs.
  - exists V. destruct Hn as [H1 H2 H3 HV H4 H5 H6]. split; rewrite ?Et', ?Hcm, ?Est; try done.
    + eapply shows_same; [exact HV|by rewrite Est|done|congruence].
    + congruence.
    + intros _. split; [done|]. split; [done|]. eapply counted_more; [exact Hcn|exact Hij|exact Et'|exact Hup|].
      intros p. destruct (Hm p) as [->|[-> ->]]; [by left|by right].
  - intros Hb Hre. by eapply disk_sim_eases; [eapply si_disk|..].
  - by left.
  - apply Hs.
  - intros k j' t x Hx'. left. by eapply si_calls.
  - apply Forall_old.
  - apply Forall_old.
Qed.

(** ** Crashes and restarts *)

(** A new process that finds the first [m] entries of its log. *)
Lemma reborn_sim rc st i r d m b n' V :
  sim rc st -> cl_nodes (rc_cluster rc) !! i = Some r -> node_sim st i (rp_node r) V -> durable Marshal boot (rp_node r) d ->
  r_disk st i (take m (r_log st i)) -> length V - d <= m ->
  node_ok n' -> n_role n' = follower -> n_term n' = n_term (rp_node r) -> n_commitIndex n' = ds_snapIndex (n_store (rp_node r)) ->
  ds_snapIndex (n_store n') = ds_snapIndex (n_store (rp_node r)) -> full (n_store n') (take m V) -> (b = false -> durable Marshal boot n' 0) ->
  exists st', raft_steps st st' /\
    sim (mkReplication (mkCluster (with_node (rc_cluster rc) i n' b) (cl_calls (rc_cluster rc)) (cl_votes (rc_cluster rc)))
      (rc_sent rc) (rc_answers rc)) st'.
Proof.
  intros Hs Hr Hn Hd Hdm Hm Hok Hro Ht Hcm Hsn Hf Hb. pose proof (ns_ok _ _ _ _ Hn) as [Hwf _].
  exists (crash_log st i (take m (r_log st i))). split; [by apply raft_one, rf_crash|].
  assert (raft_inv (crash_log st i (take m (r_log st i)))) as Hinv by (apply lost_inv; [apply Hs|done]).
  apply (sim_update _ st); try done.
  - apply touches_crash.
  - exists (take m V). split; simpl; rewrite ?upd_same; [done|by rewrite (ns_term _ _ _ _ Hn)|done| | |congruence|congruence].
    + eapply restarted_view; [apply Hn|apply Hn| |exact Hm|exact Hsn|exact Hcm|exact Hro].
      intros Hne. destruct (ns_view _ _ _ _ Hn) as [?|Hb']; [done|]. apply Hd, Hb'.
    + rewrite Hcm, Ht, take_take. eapply known_mono; [apply touches_crash|done|]. eapply known_prefix; [by eapply snap_known|].
      rewrite <-(Nat.min_l (snap_len (rp_node r) `min` m) (snap_len (rp_node r))), <-take_take by lia. apply prefix_take.
  - intros Eb _. apply disk_sim_synced; [done|by apply Hb].
  - by left.
  - apply Hs.
  - intros a j t x Hx'. left. by eapply si_calls.
  - apply Forall_old.
  - apply Forall_old.
Qed.

Lemma crash_sim rc st i r w k c n' :
  sim rc st -> cluster_inv (rc_cluster rc) -> cl_nodes (rc_cluster rc) !! i = Some r -> reliable i -> rp_restarted r = false ->
  ds_wal (n_store (rp_node r)) = Some w ->
  NewNode Unmarshal c (cfg i) (ds_files (n_store (rp_node r))) (Some (crash (wal_file w) k)) = Ok n' -> n_conf n' = C ->
  exists st', raft_steps st st' /\
    sim (mkReplication (mkCluster (with_node (rc_cluster rc) i n' true) (cl_calls (rc_cluster rc)) (cl_votes (rc_cluster rc)))
      (rc_sent rc) (rc_answers rc)) st'.
Proof using Hproto Hcfg.
  intros Hs Hci Hr Hre Hb Hw Hx Hc. destruct (si_nodes _ _ Hs _ _ Hr) as [V Hn]. pose proof (ns_ok _ _ _ _ Hn) as [Hwf _].
  destruct (si_disk _ _ Hs _ _ Hr Hb Hre) as (d & Hd & Hdisk).
  pose proof (view_length _ _ _ (ns_full _ _ _ _ Hn) (ns_view _ _ _ _ Hn)) as HlV.
  destruct (restart_durable _ _ Hproto boot _ d _ w k c (cfg i) n' Hd (ns_ok _ _ _ _ Hn) (ns_full _ _ _ _ Hn) Hw) as (Hok & Hro & Ht & Hcm & Hsn & m & Hm & Hf);
    [apply Hcfg|rewrite Hc, <-(ri_conf _ _ _ _ _ _ _ (ci_nodes _ _ _ _ Hci _ _ Hr)); apply Hwf|exact Hx|].
  eapply (reborn_sim rc st i r d m); [exact Hs|exact Hr|exact Hn|exact Hd|apply Hdisk; lia|done..].
Qed.

Lemma restart_sim rc st i r n1 w c n' :
  sim rc st -> cluster_inv (rc_cluster rc) -> cl_nodes (rc_cluster rc) !! i = Some r -> reliable i -> rp_restarted r = false ->
  Stop (rp_node r) = Some n1 -> ds_wal (n_store n1) = Some w ->
  NewNode Unmarshal c (cfg i) (ds_files (n_store n1)) (Some (reopen (wal_file w))) = Ok n' -> n_conf n' = C ->
  exists st', raft_steps st st' /\
    sim (mkReplication (mkCluster (with_node (rc_cluster rc) i n' false) (cl_calls (rc_cluster rc)) (cl_votes (rc_cluster rc)))
      (rc_sent rc) (rc_answers rc)) st'.
Proof using Hproto Hcfg.
  intros Hs Hci Hr Hre Hb Hst Hw Hx Hc. destruct (si_nodes _ _ Hs _ _ Hr) as [V Hn]. pose proof (ns_ok _ _ _ _ Hn) as [Hwf _].
  destruct (si_disk _ _ Hs _ _ Hr Hb Hre) as (d & Hd & _).
  pose proof (view_length _ _ _ (ns_full _ _ _ _ Hn) (ns_view _ _ _ _ Hn)) as HlV.
  destruct (restart_clean _ _ Hproto boot _ d _ n1 w c (cfg i) n' Hd (ns_ok _ _ _ _ Hn) (ns_full _ _ _ _ Hn) Hst Hw) as (Hd' & Hok & Hro & Ht & Hcm & Hsn & Hf);
    [apply Hcfg|rewrite Hc, <-(ri_conf _ _ _ _ _ _ _ (ci_nodes _ _ _ _ Hci _ _ Hr)); apply Hwf|exact Hx|].
  eapply (reborn_sim rc st i r d (length V)); [exact Hs|exact Hr|exact Hn|exact Hd|rewrite take_ge by lia; apply (iv_log _ _ _ (si_inv _ _ Hs))|lia|done..| |done].
  by rewrite take_ge.
Qed.

(** ** The cluster implements the protocol *)

Lemma rstep_cstep rc st rc' : sim rc st -> cluster_inv (rc_cluster rc) -> rstep rc rc' -> cstep (rc_cluster rc) (rc_cluster rc').
Proof.
  intros Hs Hci H. pose proof (si_nodes _ _ Hs) as Hn. pose proof (fun i r Hr => ci_nodes _ _ _ _ Hci i r Hr) as Hri.
  destruct H as [i r c ev out n' Hr Hl Hw Hcalm Hx Ho|i r c k out n' Hr Hw Hx|i j t req r c resp n' Hc Hr Hx|i j t req resp r c out n' Hc Hr He Hroom Hx|
    i j req r c resp n' Hin Hr Hw Hx|i j req resp r c n' Hin Hr Hx|
    i j req r c ts resp msg n' Hin Hr Hts Hx|i j req resp r c n' Hin Hr Hx|i r w k c n' Hr Hre Hb Hw Hx Hcf|i r n1 w c n' Hr Hre Hb Hst Hw Hx Hcf]; simpl.
  - destruct (Hn _ _ Hr) as [V HV]. pose proof (full_no_conf _ _ (ns_full _ _ _ _ HV) (view_sound _ _ _ _ _ Hs HV)) as Hnc. destruct (Hri _ _ Hr) as [_ _ Hcf Hfits _ _].
    destruct (local_fits _ _ Hl Hw Hfits Hnc) as [Hor Hef]. eapply cs_event; [exact Hr|exact Hor|exact Hef|exact Hx|exact Ho|].
    by rewrite (local_conf _ _ _ _ _ Hl Hw Hfits Hnc Hx).
  - exact (cs_run _ _ _ _ _ _ _ _ _ _ _ Hr Hw Hx).
  - exact (cs_request _ _ _ _ _ _ _ _ _ _ _ _ _ Hc Hr Hx).
  - exact (cs_answer _ _ _ _ _ _ _ _ _ _ _ _ _ _ Hc Hr He Hx).
  - pose proof (si_sent _ _ Hs) as Hse. eapply Forall_forall in Hse; [|exact Hin]. destruct Hse as (_ & Hwt & _ & q & Hca & Hq & _).
    pose proof (carried_sound _ _ _ _ Hs Hca Hq) as Hent.
    eapply (cs_event _ _ _ _ _ j r c (EvAppend req) (OutAppend resp)); [exact Hr|done|by split|simpl; by rewrite Hx|done|].
    rewrite (np_conf _ _ _ (HandleAppendEntries_path Marshal _ _ _ _ _ Hwt Hent Hx)). apply (Hri _ _ Hr).
  - pose proof (si_answers _ _ Hs) as Han. eapply Forall_forall in Han; [|exact Hin]. destruct Han as (_ & Hwt & _).
    eapply (cs_event _ _ _ _ _ i r c (EvAppendResp j req resp) OutNone); [exact Hr|done|exact Hwt|simpl; by rewrite Hx|done|].
    rewrite (np_conf _ _ _ (onAppendResponse_path Marshal _ _ _ _ _ _ Hwt Hx)). apply (Hri _ _ Hr).
  - pose proof (si_sent _ _ Hs) as Hse. eapply Forall_forall in Hse; [|exact Hin]. destruct Hse as (_ & Hwt & Hb & Ecs & _).
    destruct (Hri _ _ Hr) as [_ _ Hcf Hfits _ _]. pose proof (nf_conf _ Hfits) as Hcfits. pose proof Hcfits as HC. rewrite Hcf in HC.
    destruct (sent_snap req Hb Ecs HC) as [_ Hsf]. eapply (cs_event _ _ _ _ _ j r c (EvInstall req ts) (OutInstall resp msg)); [exact Hr|done|by split|simpl; by rewrite Hx|done|].
    rewrite <-Hcf in Ecs. by rewrite (HandleInstallSnapshot_conf _ _ _ _ _ _ _ _ Hcfits Ecs Hx).
  - pose proof (si_answers _ _ Hs) as Han. eapply Forall_forall in Han; [|exact Hin]. destruct Han as (_ & Hwt & _).
    eapply (cs_event _ _ _ _ _ i r c (EvSnapResp j req resp) OutNone); [exact Hr|done|exact Hwt|simpl; by rewrite Hx|done|].
    rewrite (np_conf _ _ _ (onSnapshotResponse_path Marshal _ _ _ _ _ _ Hwt Hx)). apply (Hri _ _ Hr).
  - exact (cs_crash _ _ _ _ _ _ _ _ _ _ _ Hr Hb Hw Hx Hcf).
  - destruct (si_disk _ _ Hs _ _ Hr Hb Hre) as (d & Hd & _). destruct (Stop_clean _ _ _ _ _ Hd Hst) as (s1 & Hc & -> & Ef). simpl in *. rewrite Ef in Hx.
    exact (cs_restart _ _ _ _ _ _ _ _ _ _ _ Hr Hb Hc Hw Hx Hcf).
Qed.

Lemma rstep_sim rc st rc' :
  sim rc st -> cluster_inv (rc_cluster rc) -> rstep rc rc' ->
  cluster_inv (rc_cluster rc') /\ exists st', raft_steps st st' /\ sim rc' st'.
Proof using Hproto Hcfg Hboot.
  intros Hs Hci H. pose proof (cstep_inv _ _ Hproto _ _ Hcfg Hboot _ _ Hci (rstep_cstep _ _ _ Hs Hci H)) as Hci'. split; [done|].
  destruct H as [i r c ev out n' Hr Hl Hw Hcalm Hx Ho|i r c k out n' Hr Hw Hx|i j t req r c resp n' Hc Hr Hx|i j t req resp r c out n' Hc Hr He Hroom Hx|
    i j req r c resp n' Hin Hr Hw Hx|i j req resp r c n' Hin Hr Hx|
    i j req r c ts resp msg n' Hin Hr Hts Hx|i j req resp r c n' Hin Hr Hx|i r w k c n' Hr Hre Hb Hw Hx Hcf|i r n1 w c n' Hr Hre Hb Hst Hw Hx Hcf].
  - exact (local_sim _ _ _ _ _ _ _ _ Hs Hci Hr Hl Hw Hcalm Hx Ho).
  - exact (run_sim _ _ _ _ _ _ _ _ Hs Hci Hr Hw Hx).
  - exact (request_sim _ _ _ _ _ _ _ _ _ _ _ _ Hs Hci Hc Hr Hx eq_refl eq_refl Hci').
  - exact (answer_sim _ _ _ _ _ _ _ _ _ _ _ _ Hs Hci Hc Hr He Hroom Hx eq_refl Hci').
  - eapply append_sim; [exact Hs|exact Hci|exact Hin|exact Hr|exact Hw|exact Hx|].
    apply (nf_term n'). apply (ri_fits _ _ _ _ _ _ _ (ci_nodes _ _ _ _ Hci' j (mkReplica n' (rp_restarted r)) (lookup_insert_eq _ _ _))).
  - exact (acked_sim _ _ _ _ _ _ _ _ _ Hs Hci Hin Hr Hx).
  - eapply install_sim; [exact Hs|exact Hci|exact Hin|exact Hr|exact Hts|exact Hx|].
    apply (nf_term n'). apply (ri_fits _ _ _ _ _ _ _ (ci_nodes _ _ _ _ Hci' j (mkReplica n' (rp_restarted r)) (lookup_insert_eq _ _ _))).
  - exact (installed_sim _ _ _ _ _ _ _ _ _ Hs Hci Hin Hr Hx).
  - exact (crash_sim _ _ _ _ _ _ _ _ Hs Hci Hr Hre Hb Hw Hx Hcf).
  - exact (restart_sim _ _ _ _ _ _ _ _ Hs Hci Hr Hre Hb Hst Hw Hx Hcf).
Qed.

Definition raft0 : raft :=
  mkRaft (fun _ => 0%N) (fun _ => []) (fun _ l => l = []) (fun _ => false) (fun _ => False) (fun _ _ _ => False) (fun _ _ _ => False)
    (fun _ _ _ => False) (fun _ _ _ => False) (fun _ _ => False).

Lemma raft0_start : raft_start raft0.
Proof. unfold raft_start. simpl. split_and!; tauto. Qed.

Lemma start_sim rc : replication_start rc -> sim rc raft0.
Proof using Hcfg.
  intros ((Ec & Ev & Hn) & Es & Ea & Hre). split; rewrite ?Es, ?Ea; try done.
  - apply raft_start_inv, raft0_start.
  - intros i r Hr. destruct (Hn i r Hr) as (_ & _ & Hf & c & ds & ws & En). pose proof (fresh_node_ok c (cfg i) ds ws) as Hok. rewrite <-En in Hok.
    specialize (Hok Hf). destruct (fresh_node_eq c (cfg i) ds ws) as [d Ed]. rewrite Ed in En.
    exists []. split; [exact Hok|by rewrite En| |by left|left; by destruct (N.to_nat _)|by rewrite En|by rewrite En]. rewrite En. by split.
  - intros i r Hr _ Hi. destruct (Hre i r Hr Hi) as [c ->]. destruct (fresh_node_eq c (cfg i) [] []) as [d ->]. apply disk_sim_synced; [apply raft_start_inv, raft0_start|]. split; [|done].
    rewrite <-(proj2 (Hcfg i)). by apply fresh_disk.
  - intros v t c. rewrite Ev. split; [done|]. by intros ?%not_elem_of_empty.
  - intros i j t x. by rewrite Ec, lookup_empty.
Qed.

Lemma rsteps_sim rc0 st0 rc :
  sim rc0 st0 -> cluster_inv (rc_cluster rc0) -> rsteps rc0 rc -> cluster_inv (rc_cluster rc) /\ exists st, raft_steps st0 st /\ sim rc st.
Proof using Hproto Hcfg Hboot.
  intros Hs Hci. induction 1 as [|rc1 rc2 _ [Hci1 (st1 & H1 & Hs1)] Hst]; [split; [done|]; exists st0; split; [constructor|done]|].
  destruct (rstep_sim _ _ _ Hs1 Hci1 Hst) as [Hci2 (st2 & H2 & Hs2)]. split; [done|]. exists st2. split; [by eapply raft_trans|done].
Qed.

Lemma reach_sim rc0 rc : replication_start rc0 -> rsteps rc0 rc -> cluster_inv (rc_cluster rc) /\ exists st, raft_steps raft0 st /\ sim rc st.
Proof using Hproto Hcfg Hboot.
  intros H0 H. apply (rsteps_sim rc0 raft0); [by apply start_sim| |done]. eapply start_inv; [exact Hcfg|apply H0].
Qed.

(** C3. The cluster implements the protocol: every run of the nodes' critical
    sections from empty directories, with messages delivered in any order, any
    number of times or never, with snapshots sent to nodes that lag, with any device
    failures outside snapshots, and with clean restarts and then a crash of each node
    whose device does not fail, in a fixed membership, is matched by a run of the abstract protocol. In it every node has the
    same term and the same entries behind its snapshot, and everything up to its
    commit index is committed; what it shows, [V], is the protocol's log, but for the
    entries that a snapshot from another node replaced. A leader has the protocol's
    log in full. *)
Theorem replication_refines_raft rc0 rc :
  replication_start rc0 -> rsteps rc0 rc ->
  exists st0 st, raft_start st0 /\ raft_steps st0 st /\
    forall i r, cl_nodes (rc_cluster rc) !! i = Some r ->
      r_term st i = n_term (rp_node r) /\
      exists V, full (n_store (rp_node r)) V /\ length V = length (r_log st i) /\ last_term V = last_term (r_log st i) /\
        ds_log (n_store (rp_node r)) = drop (snap_len (rp_node r)) (r_log st i) /\ (n_role (rp_node r) = leader -> V = r_log st i) /\
        known st (n_term (rp_node r)) (take (N.to_nat (n_commitIndex (rp_node r))) V).
Proof using Hproto Hcfg Hboot.
  intros H0 H. destruct (reach_sim _ _ H0 H) as [_ (st & Hst & Hs)]. exists raft0, st. split; [apply raft0_start|]. split; [done|].
  intros i r Hr. destruct (si_nodes _ _ Hs _ _ Hr) as [V [_ Ht Hf Hsh Hk _ _]]. split; [done|]. exists V. split_and!; try done.
  - by eapply view_length.
  - by eapply view_last.
  - rewrite (fl_log _ _ Hf). by eapply view_drop.
  - by apply shows_leader.
Qed.

End replication.
