(* ===== verification/ReplicationSafety.v ===== *)
(** raft/node.go: what replication guarantees in a cluster, whatever its network
    does: no two nodes apply different commands at one index, leaders have what is
    committed, logs match, snapshots stand for committed entries, and a leader's
    requests never make a node panic. *)

From S2P Require Import Prelude Bytes GoIO Wal Messages ConfState DiskStorage StorageCorrect StorageMem LogFacts Node NodeWf NodeSteps NodeVotes NodeRoles NodeLog NodeHazards Cluster RaftSpec NodeEffects LogView DurableLog NodeDurable Replication.

Section safety.
Context (Marshal : Entry -> bytes) (Unmarshal : bytes -> option Entry).
Context (Hproto : forall e, Unmarshal (Marshal e) = Some e).
Context (cfg : N -> Config) (boot : list N).
Context (Hcfg : forall i, cfg_ID (cfg i) = i /\ cfg_Peers (cfg i) = boot) (Hboot : boot <> []).
Context (reliable : N -> Prop).

Abbreviation raft := (@raft Entry).
Abbreviation rsteps := (rsteps Marshal Unmarshal cfg boot reliable).
Abbreviation replication_start := (replication_start cfg reliable).
Abbreviation sim := (sim Marshal boot reliable).

Lemma reach rc0 rc : replication_start rc0 -> rsteps rc0 rc -> cluster_inv Marshal Unmarshal boot (rc_cluster rc) /\ exists st, sim rc st.
Proof using Hproto Hcfg Hboot.
  intros H0 H. destruct (reach_sim _ _ Hproto _ _ Hcfg Hboot _ _ _ H0 H) as [Hci (st & _ & Hs)]. split; [done|by exists st].
Qed.

Lemma reach_more rc1 st1 rc2 :
  cluster_inv Marshal Unmarshal boot (rc_cluster rc1) -> sim rc1 st1 -> rsteps rc1 rc2 ->
  exists st2, raft_steps en_Term (ConfState.quorum (NewConfState boot)) st1 st2 /\ sim rc2 st2.
Proof using Hproto Hcfg Hboot. intros Hci Hs H. by destruct (rsteps_sim _ _ Hproto _ _ Hcfg Hboot _ _ _ _ Hs Hci H) as [_ ?]. Qed.

(** ** Safety of the cluster *)

Lemma entry_of_gt s k e : entry_of s k = Some e -> (ds_snapIndex s < k)%N.
Proof. unfold entry_of. destruct (N.leb_spec k (ds_snapIndex s)); [done|]. by intros _. Qed.

(** The entries of a node up to its commit index. *)
Lemma known_entry (st : raft) t L k (e : Entry) : known st t (take k L) -> forall i, i < k -> L !! i = Some e -> exists x, (exists t', r_committed st t' x) /\ x !! i = Some e.
Proof.
  intros [Hk|(t' & x & Hx & _ & Hk)] i Hi He.
  - apply (f_equal length) in Hk. rewrite length_take in Hk. apply lookup_lt_Some in He. simpl in Hk. lia.
  - exists x. split; [by eexists|]. eapply prefix_lookup_Some; [|exact Hk]. by rewrite lookup_take_lt.
Qed.

Lemma comparable_entry (x x' : list Entry) i e e' : comparable x x' -> x !! i = Some e -> x' !! i = Some e' -> e = e'.
Proof.
  intros [H|H] He He'; [pose proof (prefix_lookup_Some _ _ _ _ He H)|pose proof (prefix_lookup_Some _ _ _ _ He' H)]; congruence.
Qed.

(** Committed entries of two nodes, at two times. *)
Lemma committed_agree rc0 rc1 rc2 i j ri rj k e e' :
  replication_start rc0 -> rsteps rc0 rc1 -> rsteps rc1 rc2 ->
  cl_nodes (rc_cluster rc1) !! i = Some ri -> cl_nodes (rc_cluster rc2) !! j = Some rj ->
  (k <= n_commitIndex (rp_node ri))%N -> (k <= n_commitIndex (rp_node rj))%N ->
  entry_of (n_store (rp_node ri)) k = Some e -> entry_of (n_store (rp_node rj)) k = Some e' -> e = e'.
Proof using Hproto Hcfg Hboot.
  intros H0 H1 H2 Hi Hj Hki Hkj He He'. destruct (reach _ _ H0 H1) as [Hci (st1 & Hs1)].
  destruct (reach_more _ _ _ Hci Hs1 H2) as (st2 & Hst & Hs2).
  pose proof (entry_of_gt _ _ _ He) as Gi. pose proof (entry_of_gt _ _ _ He') as Gj. destruct (si_nodes _ _ _ _ _ Hs1 _ _ Hi) as [Vi Ni], (si_nodes _ _ _ _ _ Hs2 _ _ Hj) as [Vj Nj].
  rewrite (full_entry _ _ (ns_full _ _ _ _ Ni)) in He by done. rewrite (full_entry _ _ (ns_full _ _ _ _ Nj)) in He' by done.
  destruct (known_entry _ _ _ _ _ (ns_known _ _ _ _ Ni) (N.to_nat (k - 1)) ltac:(lia) He) as (x & [t Hx] & Hxe).
  destruct (known_entry _ _ _ _ _ (ns_known _ _ _ _ Nj) (N.to_nat (k - 1)) ltac:(lia) He') as (x' & [t' Hx'] & Hxe').
  apply (raft_steps_committed _ _ _ _ _ _ Hst) in Hx. eapply comparable_entry; [|exact Hxe|exact Hxe'].
  eapply committed_comparable; [apply (quorums boot)|apply Hs2|exact Hx|exact Hx'].
Qed.

(** The index of a message. *)
Definition msg_index (m : ApplyMsg) : N :=
  match m with CommandMsg _ i _ => i | ConfChangeMsg _ i _ => i | SnapshotMsg _ i _ => i end.

Lemma msg_of_index e : msg_index (msg_of e) = en_Index e.
Proof. unfold msg_of. destruct (en_ConfChange e); [destruct (_ =? _)%Z|]; done. Qed.

Lemma applied_msg n msgs n' m :
  node_ok n -> applier n = Some (msgs, n') -> m ∈ msgs ->
  exists e, m = msg_of e /\ (msg_index m <= n_commitIndex n)%N /\ entry_of (n_store n) (msg_index m) = Some e.
Proof.
  intros Hok Ha [k Hk]%list_elem_of_lookup. destruct (applier_in_order n Hok) as (ms & n1 & E & _ & _ & Hl & Hall).
  rewrite Ha in E. injection E as <- <-. pose proof (lookup_lt_Some _ _ _ Hk) as Hlt. destruct (Hall k Hlt) as (e & He & Hi & Hm).
  rewrite Hk in Hm. injection Hm as ->. exists e. rewrite msg_of_index, Hi. split; [done|]. split; [lia|done].
Qed.

(** Messages at one index, handed over by two nodes at two times. *)
Lemma messages_agree rc0 rc1 rc2 i j ri rj msgs ni msgs' nj m m' :
  replication_start rc0 -> rsteps rc0 rc1 -> rsteps rc1 rc2 ->
  cl_nodes (rc_cluster rc1) !! i = Some ri -> applier (rp_node ri) = Some (msgs, ni) ->
  cl_nodes (rc_cluster rc2) !! j = Some rj -> applier (rp_node rj) = Some (msgs', nj) ->
  m ∈ msgs -> m' ∈ msgs' -> msg_index m = msg_index m' -> m = m'.
Proof using Hproto Hcfg Hboot.
  intros H0 H1 H2 Hi Ha Hj Ha' Hm Hm' Heq. destruct (reach _ _ H0 H1) as [Hci (st1 & Hs1)].
  destruct (reach_more _ _ _ Hci Hs1 H2) as (st2 & _ & Hs2).
  destruct (si_nodes _ _ _ _ _ Hs1 _ _ Hi) as [Vi Ni], (si_nodes _ _ _ _ _ Hs2 _ _ Hj) as [Vj Nj].
  destruct (applied_msg _ _ _ _ (ns_ok _ _ _ _ Ni) Ha Hm) as (e & -> & Hle & He).
  destruct (applied_msg _ _ _ _ (ns_ok _ _ _ _ Nj) Ha' Hm') as (e' & -> & Hle' & He'). rewrite <-Heq in Hle', He'.
  by rewrite (committed_agree _ _ _ _ _ _ _ _ _ _ H0 H1 H2 Hi Hj Hle Hle' He He').
Qed.

(** C1. State-machine safety: no two nodes of a cluster ever hand different commands
    to their state machines at the same log index, whenever they apply them: in
    every run of the nodes' critical sections from empty directories, with any
    interleaving, requests and answers lost, delayed, reordered and repeated, any
    number of elections, compaction, snapshots sent to nodes that lag, any device
    failures outside snapshots, and, for nodes whose device does not fail, any number
    of clean stops and restarts and then a crash at any point. The membership is
    fixed. *)
Theorem state_machine_safety rc0 rc1 rc2 i j ri rj msgs ni msgs' nj m m' :
  replication_start rc0 -> rsteps rc0 rc1 -> rsteps rc1 rc2 ->
  cl_nodes (rc_cluster rc1) !! i = Some ri -> applier (rp_node ri) = Some (msgs, ni) ->
  cl_nodes (rc_cluster rc2) !! j = Some rj -> applier (rp_node rj) = Some (msgs', nj) ->
  m ∈ msgs -> m' ∈ msgs' -> msg_index m = msg_index m' -> m = m'.
Proof using Hproto Hcfg Hboot. apply messages_agree. Qed.

(** C10. Leader completeness: what a node knows to be committed is in the log of every
    leader of a later term, then or at any later time, at the same index (unless
    the leader has compacted it). *)
Theorem leader_completeness rc0 rc1 rc2 i j ri rj k e :
  replication_start rc0 -> rsteps rc0 rc1 -> rsteps rc1 rc2 ->
  cl_nodes (rc_cluster rc1) !! i = Some ri -> (k <= n_commitIndex (rp_node ri))%N -> entry_of (n_store (rp_node ri)) k = Some e ->
  cl_nodes (rc_cluster rc2) !! j = Some rj -> n_role (rp_node rj) = leader -> (n_term (rp_node ri) < n_term (rp_node rj))%N ->
  (k <= ds_snapIndex (n_store (rp_node rj)))%N \/ entry_of (n_store (rp_node rj)) k = Some e.
Proof using Hproto Hcfg Hboot.
  intros H0 H1 H2 Hi Hk He Hj Hl Hlt. destruct (reach _ _ H0 H1) as [Hci (st1 & Hs1)].
  destruct (reach_more _ _ _ Hci Hs1 H2) as (st2 & Hst & Hs2).
  destruct (si_nodes _ _ _ _ _ Hs1 _ _ Hi) as [Vi Ni], (si_nodes _ _ _ _ _ Hs2 _ _ Hj) as [Vj Nj].
  pose proof (shows_leader _ _ _ (ns_view _ _ _ _ Nj) Hl) as ->.
  destruct (N.le_gt_cases k (ds_snapIndex (n_store (rp_node rj)))) as [|Hgt]; [by left|right].
  pose proof (entry_of_gt _ _ _ He) as Gi.
  rewrite (full_entry _ _ (ns_full _ _ _ _ Ni)) in He by done. rewrite (full_entry _ _ (ns_full _ _ _ _ Nj)) by done.
  destruct (ns_known _ _ _ _ Ni) as [Hnil|(t & x & Hx & Ht & Hpre)].
  { apply (f_equal length) in Hnil. rewrite length_take in Hnil. apply lookup_lt_Some in He. simpl in Hnil. lia. }
  apply (raft_steps_committed _ _ _ _ _ _ Hst) in Hx. destruct (ns_lead _ _ _ _ Nj Hl) as (Ha & [y Hy] & _).
  assert (x `prefix_of` y) as Hxy by (eapply leader_complete; [apply (quorums boot)|apply Hs2|exact Hx|exact Hy|lia]).
  rewrite <-(ns_term _ _ _ _ Nj) in Hy. destruct (iv_active _ _ _ (si_inv _ _ _ _ _ Hs2) _ _ Ha Hy) as (Hyl & _).
  eapply prefix_lookup_Some; [|exact Hyl]. eapply prefix_lookup_Some; [|exact Hxy]. eapply prefix_lookup_Some; [|exact Hpre].
  rewrite lookup_take_lt; [done|lia].
Qed.

(** The entries a node has are the protocol's. *)
Lemma log_entry rc st i r k :
  sim rc st -> cl_nodes (rc_cluster rc) !! i = Some r -> (ds_snapIndex (n_store (rp_node r)) < k)%N ->
  entry_of (n_store (rp_node r)) k = r_log st i !! N.to_nat (k - 1).
Proof.
  intros Hs Hr Hk. destruct (si_nodes _ _ _ _ _ Hs _ _ Hr) as [V Hn]. rewrite (full_entry _ _ (ns_full _ _ _ _ Hn)) by done.
  eapply view_entry; [apply Hn|apply Hn|lia].
Qed.

(** C11. Log matching: when the logs of two nodes of a reachable cluster have entries of
    the same term at some index, they hold the same entries at that index and at
    every earlier one they both still have. *)
Theorem replication_log_matching rc0 rc i j ri rj k e e' :
  replication_start rc0 -> rsteps rc0 rc ->
  cl_nodes (rc_cluster rc) !! i = Some ri -> cl_nodes (rc_cluster rc) !! j = Some rj ->
  entry_of (n_store (rp_node ri)) k = Some e -> entry_of (n_store (rp_node rj)) k = Some e' -> en_Term e = en_Term e' ->
  e = e' /\ forall l, (ds_snapIndex (n_store (rp_node ri)) < l <= k)%N -> (ds_snapIndex (n_store (rp_node rj)) < l)%N ->
    entry_of (n_store (rp_node ri)) l = entry_of (n_store (rp_node rj)) l.
Proof using Hproto Hcfg Hboot.
  intros H0 H Hi Hj He He' Ht. destruct (reach _ _ H0 H) as [_ (st & Hs)]. pose proof (si_inv _ _ _ _ _ Hs) as Hinv.
  pose proof (entry_of_gt _ _ _ He) as Gi. pose proof (entry_of_gt _ _ _ He') as Gj.
  rewrite (log_entry _ _ _ _ _ Hs Hi) in He by done. rewrite (log_entry _ _ _ _ _ Hs Hj) in He' by done.
  assert (take (N.to_nat k) (r_log st i) = take (N.to_nat k) (r_log st j)) as Heq.
  { pose proof (lookup_lt_Some _ _ _ He). pose proof (lookup_lt_Some _ _ _ He').
    eapply log_matching; [exact Hinv|apply (iv_disk _ _ _ Hinv i), Hinv|apply (iv_disk _ _ _ Hinv j), Hinv|lia..|].
    rewrite (take_next _ _ _ He), (take_next _ _ _ He') by lia. unfold RaftSpec.last_term. rewrite !last_snoc. simpl. congruence. }
  assert (forall l, (0 < l <= k)%N -> r_log st i !! N.to_nat (l - 1) = r_log st j !! N.to_nat (l - 1)) as Hsame.
  { intros l Hl. rewrite <-(lookup_take_lt _ (N.to_nat k)), Heq, lookup_take_lt by lia. done. }
  split; [|intros l Hl Hl'; rewrite (log_entry _ _ _ _ _ Hs Hi), (log_entry _ _ _ _ _ Hs Hj) by lia; apply Hsame; lia].
  rewrite Hsame in He by lia. congruence.
Qed.

(** What a follower hands over with a snapshot. *)
Lemma HandleInstallSnapshot_msg c n req ts resp msg u n' :
  HandleInstallSnapshot Marshal c n req ts = Some (resp, Some msg, u, n') ->
  u = true /\ msg = SnapshotMsg (is_Data req) (is_LastIncludedIndex req) (is_LastIncludedTerm req).
Proof.
  unfold HandleInstallSnapshot. intros E. destruct (_ <? _)%N; [done|]. peel E. destruct (_ <=? _)%N; [done|]. peel E. destruct r0 as [err s].
  destruct err; [done|]. by injection E as <- <- <- <-.
Qed.

(** C34. A snapshot stands for committed entries: when a node takes over a snapshot that
    was ever sent to it, however late, what it hands to its state machine carries the
    request's data and the index and term of an entry every node agrees on: a
    node that has committed the entry at that index, then or at any later time, and
    still has it, has it in that term. *)
Theorem snapshot_safety rc0 rc1 rc2 i j k req rj rk c ts resp data idx t u n' e :
  replication_start rc0 -> rsteps rc0 rc1 -> rsteps rc1 rc2 -> (i, j, MsgInstall req) ∈ rc_sent rc1 -> cl_nodes (rc_cluster rc1) !! j = Some rj ->
  HandleInstallSnapshot Marshal c (rp_node rj) req ts = Some (resp, Some (SnapshotMsg data idx t), u, n') ->
  cl_nodes (rc_cluster rc2) !! k = Some rk -> (idx <= n_commitIndex (rp_node rk))%N -> entry_of (n_store (rp_node rk)) idx = Some e ->
  u = true /\ data = is_Data req /\ idx = is_LastIncludedIndex req /\ t = en_Term e.
Proof using Hproto Hcfg Hboot.
  intros H0 H1 H2 Hin _ Hx Hk Hle He. destruct (reach _ _ H0 H1) as [Hci (st1 & Hs1)]. destruct (reach_more _ _ _ Hci Hs1 H2) as (st2 & Hst & Hs2).
  apply HandleInstallSnapshot_msg in Hx as [-> [= -> -> ->]]. split_and!; [done..|]. destruct (si_nodes _ _ _ _ _ Hs2 _ _ Hk) as [V Hn].
  pose proof (si_sent _ _ _ _ _ Hs1) as Hse. eapply Forall_forall in Hse; [|exact Hin]. destruct Hse as (_ & _ & _ & _ & _ & P & HlP & <- & _ & HkP).
  pose proof (entry_of_gt _ _ _ He) as Gk. rewrite (full_entry _ _ (ns_full _ _ _ _ Hn)) in He by done. rewrite <-HlP in *.
  destruct (known_entry _ _ _ _ _ (ns_known _ _ _ _ Hn) (N.to_nat (len P - 1)) ltac:(lia) He) as (x & [t Hx] & Hxe).
  destruct (last P) as [e'|] eqn:El; [|apply last_None in El as ->; unfold len in Gk; simpl in Gk; lia]. unfold RaftSpec.last_term. rewrite El. simpl. f_equal.
  assert (P !! N.to_nat (len P - 1) = Some e') as HP by (rewrite <-El, last_lookup; f_equal; unfold len; lia).
  destruct HkP as [->|(t' & x' & Hx' & _ & Hpre)]; [done|]. apply (raft_steps_committed _ _ _ _ _ _ Hst) in Hx'.
  eapply comparable_entry; [|by eapply prefix_lookup_Some|exact Hxe]. eapply committed_comparable; [apply (quorums boot)|apply Hs2|exact Hx'|exact Hx].
Qed.

(** C38. Every request a leader ever sent is one its receiver can take: in every run
    of the cluster, whenever an AppendEntries request sent before is delivered (late,
    again, or to a node that restarted), the handler returns and keeps the node's
    invariant, given that the indexes of the request are below 2^64. *)
Theorem sent_requests_handled rc0 rc i j req r c :
  replication_start rc0 -> rsteps rc0 rc -> (i, j, MsgAppend req) ∈ rc_sent rc -> cl_nodes (rc_cluster rc) !! j = Some r ->
  (ae_PrevLogIndex req + len (ae_Entries req) + 2 < two64)%N ->
  exists resp n', HandleAppendEntries Marshal c (rp_node r) req = Some (resp, n') /\ node_ok n'.
Proof using Hproto Hcfg Hboot.
  intros H0 H Hin Hr Hw. destruct (reach _ _ H0 H) as [_ (st & Hs)]. destruct (si_nodes _ _ _ _ _ Hs _ _ Hr) as [V Hn].
  pose proof (si_sent _ _ _ _ _ Hs) as Hse. eapply Forall_forall in Hse; [|exact Hin]. destruct Hse as (_ & _ & _ & q & Hca & Hq & _).
  destruct (N.le_gt_cases (n_term (rp_node r)) (ae_Term req)) as [Hle|Hgt].
  - apply HandleAppendEntries_ok; [apply Hn|]. eapply receivable_ok; [apply Hn|apply Hn|by eapply sim_receivable].
  - unfold HandleAppendEntries. rewrite (proj2 (N.ltb_lt _ _) Hgt). do 2 eexists. split; [done|apply Hn].
Qed.

End safety.

(** ** Witness: node 1 of three is elected and commits its first entry with node 2; both
    apply it; node 2 crashes, restarts, applies it again and is elected *)

(** Every device works. *)
Definition any_node (i : N) : Prop := True.
Abbreviation runs := (rsteps sample_Marshal sample_Unmarshal three_cfg [1; 2; 3]%N any_node).

Definition out_of {A} (m : option (list rpc * A)) : list rpc := match m with Some (out, _) => out | None => [] end.

Definition rep0 : replication := mkReplication three0 [] [].
Definition rep1 : replication := mkReplication three1 (messages 1 asked.1 ++ rc_sent rep0) [].
Definition rep2 : replication := mkReplication three2 (rc_sent rep1) [].
Definition won_out : list rpc := out_of (onVoteResponse sample_Marshal late asked.2 1 yes2).
Definition rep3 : replication := mkReplication three3 (messages 1 won_out ++ rc_sent rep2) [].

(** The first request to node 2, its answer, and the commit. *)
Definition first_req : AppendEntriesRequest := mkAppendReq 1 1 0 0 [mkLogEntry 1 1 [] ENTRY_NORMAL None] 0.
Definition first_resp : AppendEntriesResponse := mkAppendResp 1 true 0 0.
Definition stored2 : Node := node_of voted2 (HandleAppendEntries sample_Marshal clock0 voted2 first_req).
Definition next_rep (rc : replication) (i : N) (n : Node) (sent : list (N * N * message))
    (answers : list (N * N * answer)) : replication :=
  mkReplication (mkCluster (with_node (rc_cluster rc) i n false) (cl_calls (rc_cluster rc)) (cl_votes (rc_cluster rc))) sent answers.
Definition rep4 : replication := next_rep rep3 2 stored2 (rc_sent rep3) ((1%N, 2%N, AnsAppend first_req first_resp) :: rc_answers rep3).
Definition committed1 : Node := default elected (onAppendResponse late elected 2 first_req first_resp).
Definition rep5 : replication := next_rep rep4 1 committed1 (rc_sent rep4) (rc_answers rep4).

(** The next heartbeat tells node 2. *)
Definition sent1 : Node := clearInflight committed1 2.
Definition rep6 : replication := next_rep rep5 1 sent1 (rc_sent rep5) (rc_answers rep5).
Definition later : clock := mkClock (3000 * Millisecond) 0.
Definition beat : list rpc * Node := default ([], sent1) (run_step later false sent1).
Definition rep7 : replication :=
  mkReplication (mkCluster (with_node (rc_cluster rep6) 1 beat.2 false) (add_calls 1 beat.1 (cl_calls (rc_cluster rep6)))
    (own_votes 1 beat.1 (cl_votes (rc_cluster rep6)))) (messages 1 beat.1 ++ rc_sent rep6) (rc_answers rep6).
Definition beat_req : AppendEntriesRequest := mkAppendReq 1 1 1 1 [] 1.
Definition applied2 : Node := node_of stored2 (HandleAppendEntries sample_Marshal clock0 stored2 beat_req).
Definition rep8 : replication := next_rep rep7 2 applied2 (rc_sent rep7) ((1%N, 2%N, AnsAppend beat_req first_resp) :: rc_answers rep7).

Lemma rep_start : replication_start three_cfg any_node rep0.
Proof.
  split; [apply three_start|]. split; [done|]. split; [done|]. intros i r Hr _. exists clock0. revert Hr. simpl.
  intros [[<- <-]|[_ [[<- <-]|[_ [<- <-]%lookup_singleton_Some]]%lookup_insert_Some]]%lookup_insert_Some; done.
Qed.

Lemma rsteps_trans rc1 rc2 rc3 : runs rc1 rc2 -> runs rc2 rc3 -> runs rc1 rc3.
Proof. intros H. induction 1; [done|by eapply rsteps_step]. Qed.

Lemma rep_run5 : runs rep0 rep5.
Proof.
  eapply rsteps_step; [eapply rsteps_step; [eapply rsteps_step; [eapply rsteps_step; [eapply rsteps_step; [constructor|]|]|]|]|].
  - apply (rs_run _ _ _ _ _ rep0 1 (three_node 1) late false asked.1 asked.2); vm_compute; reflexivity.
  - apply (rs_request _ _ _ _ _ rep1 1 2 1 ask2 (three_node 2) clock0 yes2 voted2); vm_compute; reflexivity.
  - apply (rs_answer _ _ _ _ _ rep2 1 2 1 ask2 yes2 (mkReplica asked.2 false) late won_out elected).
    + vm_compute; reflexivity.
    + vm_compute; reflexivity.
    + repeat split; vm_compute; reflexivity.
    + vm_compute; reflexivity.
    + vm_compute; reflexivity.
  - apply (rs_append _ _ _ _ _ rep3 1 2 first_req (mkReplica voted2 false) clock0 first_resp stored2).
    + replace (rc_sent rep3) with [(1%N, 2%N, MsgAppend first_req); (1%N, 3%N, MsgAppend first_req)] by (vm_compute; reflexivity). by left.
    + vm_compute; reflexivity.
    + vm_compute; reflexivity.
    + vm_compute; reflexivity.
  - apply (rs_acked _ _ _ _ _ rep4 1 2 first_req first_resp (mkReplica elected false) late committed1).
    + by left.
    + vm_compute; reflexivity.
    + vm_compute; reflexivity.
Qed.

Lemma rep_run8 : runs rep5 rep8.
Proof.
  eapply rsteps_step; [eapply rsteps_step; [eapply rsteps_step; [constructor|]|]|].
  - apply (rs_local _ _ _ _ _ rep5 1 (mkReplica committed1 false) clock0 (EvSent 2) OutNone sent1); [vm_compute; reflexivity|done|done|done|reflexivity|done].
  - apply (rs_run _ _ _ _ _ rep6 1 (mkReplica sent1 false) later false beat.1 beat.2); vm_compute; reflexivity.
  - apply (rs_append _ _ _ _ _ rep7 1 2 beat_req (mkReplica stored2 false) clock0 first_resp applied2).
    + replace (rc_sent rep7) with [(1%N, 2%N, MsgAppend beat_req); (1%N, 2%N, MsgAppend first_req); (1%N, 3%N, MsgAppend first_req)] by (vm_compute; reflexivity). by left.
    + vm_compute; reflexivity.
    + vm_compute; reflexivity.
    + vm_compute; reflexivity.
Qed.

(** Node 2 loses what it has not fsynced, and hears of the commit again. *)
Definition crashed2 : Node := started (NewNode sample_Unmarshal clock0 (three_cfg 2) (ds_files (n_store applied2)) (Some (crash (wal_of applied2) 0))).
Definition rep_crash : replication :=
  mkReplication (mkCluster (with_node (rc_cluster rep8) 2 crashed2 true) (cl_calls (rc_cluster rep8))
    (cl_votes (rc_cluster rep8))) (rc_sent rep8) (rc_answers rep8).
Definition again2 : Node := node_of crashed2 (HandleAppendEntries sample_Marshal clock0 crashed2 beat_req).
Definition rep_again : replication :=
  mkReplication (mkCluster (with_node (rc_cluster rep_crash) 2 again2 true) (cl_calls (rc_cluster rep_crash)) (cl_votes (rc_cluster rep_crash)))
    (rc_sent rep_crash) ((1%N, 2%N, AnsAppend beat_req first_resp) :: rc_answers rep_crash).

Lemma rep_run_again : runs rep8 rep_again.
Proof.
  eapply rsteps_step; [eapply rsteps_step; [constructor|]|].
  - apply (rs_crash _ _ _ _ _ rep8 2 (mkReplica applied2 false) (default (mkWAL (Bufio.NewWriter empty_file) 0) (ds_wal (n_store applied2))) 0 clock0 crashed2);
      [vm_compute; reflexivity|done|reflexivity|vm_compute; reflexivity..].
  - apply (rs_append _ _ _ _ _ rep_crash 1 2 beat_req (mkReplica crashed2 true) clock0 first_resp again2).
    + replace (rc_sent rep_crash) with [(1%N, 2%N, MsgAppend beat_req); (1%N, 2%N, MsgAppend first_req); (1%N, 3%N, MsgAppend first_req)] by (vm_compute; reflexivity). by left.
    + vm_compute; reflexivity.
    + vm_compute; reflexivity.
    + vm_compute; reflexivity.
Qed.

Lemma state_machine_safety_witness :
  exists msgs n1 msgs' n2, applier committed1 = Some (msgs, n1) /\ applier again2 = Some (msgs', n2) /\
    msgs = [CommandMsg [] 1 1] /\ msgs' = [CommandMsg [] 1 1] /\
    forall m m', m ∈ msgs -> m' ∈ msgs' -> msg_index m = msg_index m' -> m = m'.
Proof.
  do 4 eexists. split; [vm_compute; reflexivity|]. split; [vm_compute; reflexivity|]. split; [reflexivity|]. split; [reflexivity|]. intros m m' Hm Hm' Heq.
  refine (state_machine_safety sample_Marshal sample_Unmarshal sample_roundtrip three_cfg [1; 2; 3]%N (fun i => conj eq_refl eq_refl)
           ltac:(discriminate) any_node rep0 rep5 rep_again 1 2 (mkReplica committed1 false) (mkReplica again2 true) _ _ _ _ m m'
           rep_start rep_run5 (rsteps_trans _ _ _ rep_run8 rep_run_again) _ _ _ _ Hm Hm' Heq); vm_compute; reflexivity.
Defined.

(** Node 2 is elected in term 2 by the vote of node 3. *)
Definition asked2 : list rpc * Node := default ([], again2) (run_step later false again2).
Definition rep9 : replication :=
  mkReplication (mkCluster (with_node (rc_cluster rep_again) 2 asked2.2 true) (add_calls 2 asked2.1 (cl_calls (rc_cluster rep_again)))
    (own_votes 2 asked2.1 (cl_votes (rc_cluster rep_again)))) (messages 2 asked2.1 ++ rc_sent rep_again) (rc_answers rep_again).
Definition ask3 : RequestVoteRequest := mkVoteReq 2 2 1 1.
Definition yes3 : RequestVoteResponse := mkVoteResp 2 true.
Definition voted3 : Node := node_of (rp_node (three_node 3)) (HandleRequestVote clock0 (rp_node (three_node 3)) ask3).
Definition rep10 : replication :=
  mkReplication (mkCluster (with_node (rc_cluster rep9) 3 voted3 false) (<[(2, 3, 2)%N := (ask3, Some yes3)]> (cl_calls (rc_cluster rep9)))
    ({[(3, 2, 2)%N]} ∪ cl_votes (rc_cluster rep9))) (rc_sent rep9) (rc_answers rep9).
Definition won2 : option (list rpc * Node) := onVoteResponse sample_Marshal later asked2.2 2 yes3.
Definition elected2 : Node := node_of asked2.2 won2.
Definition rep11 : replication :=
  mkReplication (mkCluster (with_node (rc_cluster rep10) 2 elected2 true) (delete (2, 3, 2)%N (cl_calls (rc_cluster rep10))) (cl_votes (rc_cluster rep10)))
    (messages 2 (out_of won2) ++ rc_sent rep10) (rc_answers rep10).

Lemma rep_run11 : runs rep_again rep11.
Proof.
  eapply rsteps_step; [eapply rsteps_step; [eapply rsteps_step; [constructor|]|]|].
  - apply (rs_run _ _ _ _ _ rep_again 2 (mkReplica again2 true) later false asked2.1 asked2.2); vm_compute; reflexivity.
  - apply (rs_request _ _ _ _ _ rep9 2 3 2 ask3 (three_node 3) clock0 yes3 voted3); vm_compute; reflexivity.
  - apply (rs_answer _ _ _ _ _ rep10 2 3 2 ask3 yes3 (mkReplica asked2.2 true) later (out_of won2) elected2).
    + vm_compute; reflexivity.
    + vm_compute; reflexivity.
    + repeat split; vm_compute; reflexivity.
    + vm_compute; reflexivity.
    + vm_compute; reflexivity.
Qed.

(** The new leader. *)
Definition second : replica := mkReplica elected2 true.

Lemma leader_completeness_witness :
  n_commitIndex committed1 = 1%N /\ n_role (rp_node second) = leader /\ n_term (rp_node second) = 2%N /\
  entry_of (n_store (rp_node second)) 1 = Some (mkLogEntry 1 1 [] ENTRY_NORMAL None).
Proof.
  split; [vm_compute; reflexivity|]. split; [vm_compute; reflexivity|]. split; [vm_compute; reflexivity|].
  destruct (leader_completeness sample_Marshal sample_Unmarshal sample_roundtrip three_cfg [1; 2; 3]%N (fun i => conj eq_refl eq_refl)
           ltac:(discriminate) any_node rep0 rep5 rep11 1 2 (mkReplica committed1 false) second 1 (mkLogEntry 1 1 [] ENTRY_NORMAL None)
           rep_start rep_run5 (rsteps_trans _ _ _ rep_run8 (rsteps_trans _ _ _ rep_run_again rep_run11))) as [H|H].
  - vm_compute; reflexivity.
  - vm_compute; discriminate.
  - vm_compute; reflexivity.
  - vm_compute; reflexivity.
  - vm_compute; reflexivity.
  - vm_compute; reflexivity.
  - exfalso. assert (ds_snapIndex (n_store (rp_node second)) = 0%N) as E by (vm_compute; reflexivity). rewrite E in H. lia.
  - exact H.
Defined.

Lemma replication_log_matching_witness :
  entry_of (n_store committed1) 1 = Some (mkLogEntry 1 1 [] ENTRY_NORMAL None) /\
  forall e', entry_of (n_store applied2) 1 = Some e' -> en_Term e' = 1%N -> e' = mkLogEntry 1 1 [] ENTRY_NORMAL None.
Proof.
  split; [vm_compute; reflexivity|]. intros e' He' Ht. symmetry.
  refine (proj1 (replication_log_matching sample_Marshal sample_Unmarshal sample_roundtrip three_cfg [1; 2; 3]%N (fun i => conj eq_refl eq_refl)
           ltac:(discriminate) any_node rep0 rep8 1 2 (mkReplica beat.2 false) (mkReplica applied2 false) 1 _ _
           rep_start (rsteps_trans _ _ _ rep_run5 rep_run8) _ _ _ He' _)).
  - vm_compute; reflexivity.
  - vm_compute; reflexivity.
  - vm_compute; reflexivity.
  - rewrite Ht. reflexivity.
Defined.

Lemma sent_requests_handled_witness :
  exists resp n', HandleAppendEntries sample_Marshal clock0 (rp_node (three_node 3)) first_req = Some (resp, n') /\ node_ok n'.
Proof.
  refine (sent_requests_handled sample_Marshal sample_Unmarshal sample_roundtrip three_cfg [1; 2; 3]%N (fun i => conj eq_refl eq_refl)
           ltac:(discriminate) any_node rep0 rep8 1 3 first_req (three_node 3) clock0 rep_start (rsteps_trans _ _ _ rep_run5 rep_run8) _ _ _).
  - replace (rc_sent rep8) with [(1%N, 2%N, MsgAppend beat_req); (1%N, 2%N, MsgAppend first_req); (1%N, 3%N, MsgAppend first_req)] by (vm_compute; reflexivity). right. right. by left.
  - vm_compute; reflexivity.
  - vm_compute; reflexivity.
Defined.

(** Node 1 compacts its log; node 3 has missed it all and is sent the snapshot. *)
Definition ran (ev : event) (n : Node) : Node := node_of n (exec sample_Marshal clock0 ev n).
Definition step1 (ev : event) (n : Node) (rc : replication) : replication := next_rep rc 1 (ran ev n) (rc_sent rc) (rc_answers rc).
Definition done1 : Node := ran EvApply beat.2.
Definition rep_done1 : replication := step1 EvApply beat.2 rep8.
Definition snap1 : Node := ran (EvSnapshot 1 (str "s") []) done1.
Definition rep_snap1 : replication := step1 (EvSnapshot 1 (str "s") []) done1 rep_done1.
Definition free3 : Node := ran (EvSent 3) snap1.
Definition rep_free3 : replication := step1 (EvSent 3) snap1 rep_snap1.
Definition latest : clock := mkClock (4000 * Millisecond) 0.
Definition offer : list rpc * Node := default ([], free3) (run_step latest false free3).
Definition rep_offer : replication :=
  mkReplication (mkCluster (with_node (rc_cluster rep_free3) 1 offer.2 false) (add_calls 1 offer.1 (cl_calls (rc_cluster rep_free3)))
    (own_votes 1 offer.1 (cl_votes (rc_cluster rep_free3)))) (messages 1 offer.1 ++ rc_sent rep_free3) (rc_answers rep_free3).
Definition offer_req : InstallSnapshotRequest := mkSnapReq 1 1 1 1 (str "s") (encodeConfState (NewConfState [1; 2; 3]%N)).
Definition snap3 : Node := node_of (rp_node (three_node 3)) (HandleInstallSnapshot sample_Marshal clock0 (rp_node (three_node 3)) offer_req []).
Definition rep_snap3 : replication := next_rep rep_offer 3 snap3 (rc_sent rep_offer) ((1%N, 3%N, AnsInstall offer_req (mkSnapResp 1)) :: rc_answers rep_offer).
Definition counts3 : Node := default offer.2 (onSnapshotResponse latest offer.2 3 offer_req (mkSnapResp 1)).
Definition rep_counts3 : replication := next_rep rep_snap3 1 counts3 (rc_sent rep_snap3) (rc_answers rep_snap3).

Lemma rep_run_offer : runs rep8 rep_offer.
Proof.
  eapply rsteps_step; [eapply rsteps_step; [eapply rsteps_step; [eapply rsteps_step; [constructor|]|]|]|].
  - apply (rs_local _ _ _ _ _ rep8 1 (mkReplica beat.2 false) clock0 EvApply (OutApply [CommandMsg [] 1 1]) done1); [vm_compute; reflexivity|done|done|done|vm_compute; reflexivity|done].
  - apply (rs_local _ _ _ _ _ rep_done1 1 (mkReplica done1 false) clock0 (EvSnapshot 1 (str "s") []) OutNone snap1); [vm_compute; reflexivity|done|done|done|vm_compute; reflexivity|done].
  - apply (rs_local _ _ _ _ _ rep_snap1 1 (mkReplica snap1 false) clock0 (EvSent 3) OutNone free3); [vm_compute; reflexivity|done|done|done|vm_compute; reflexivity|done].
  - apply (rs_run _ _ _ _ _ rep_free3 1 (mkReplica free3 false) latest false offer.1 offer.2); vm_compute; reflexivity.
Qed.

Lemma offer_sent : (1%N, 3%N, MsgInstall offer_req) ∈ rc_sent rep_offer.
Proof. replace (rc_sent rep_offer) with ((1%N, 3%N, MsgInstall offer_req) :: rc_sent rep8) by (vm_compute; reflexivity). by left. Qed.

Lemma offer_there : cl_nodes (rc_cluster rep_offer) !! 3%N = Some (three_node 3).
Proof. vm_compute. reflexivity. Qed.

Lemma offer_taken :
  HandleInstallSnapshot sample_Marshal clock0 (rp_node (three_node 3)) offer_req [] = Some (mkSnapResp 1, Some (SnapshotMsg (str "s") 1 1), true, snap3).
Proof. vm_compute. reflexivity. Qed.

Lemma rep_run_installed : runs rep_offer rep_counts3.
Proof.
  eapply rsteps_step; [eapply rsteps_step; [constructor|]|].
  - apply (rs_install _ _ _ _ _ rep_offer 1 3 offer_req (three_node 3) clock0 [] (mkSnapResp 1) (Some (SnapshotMsg (str "s") 1 1)) snap3).
    + exact offer_sent.
    + exact offer_there.
    + done.
    + exact offer_taken.
  - apply (rs_installed _ _ _ _ _ rep_snap3 1 3 offer_req (mkSnapResp 1) (mkReplica offer.2 false) latest counts3); [by left|vm_compute; reflexivity|vm_compute; reflexivity].
Qed.

(** The node that was sent the snapshot. *)
Definition third : replica := mkReplica snap3 false.

Lemma third_there : cl_nodes (rc_cluster rep_counts3) !! 3%N = Some third.
Proof. vm_compute. reflexivity. Qed.

Lemma third_state : n_term (rp_node third) = 1%N /\ n_commitIndex (rp_node third) = 1%N /\ ds_snapIndex (n_store (rp_node third)) = 1%N.
Proof. vm_compute. done. Qed.

Lemma replication_refines_raft_witness :
  ds_snapIndex (n_store (rp_node third)) = 1%N /\
  exists st0 st, raft_start st0 /\ raft_steps en_Term (ConfState.quorum (NewConfState [1; 2; 3]%N)) st0 st /\
    r_term st 3%N = 1%N /\ exists V, full (n_store (rp_node third)) V /\ length V = length (r_log st 3%N) /\ known st 1 (take 1 V).
Proof.
  destruct third_state as (Et & Ec & Es). split; [exact Es|].
  destruct (replication_refines_raft sample_Marshal sample_Unmarshal sample_roundtrip three_cfg [1; 2; 3]%N (fun i => conj eq_refl eq_refl)
           ltac:(discriminate) any_node rep0 rep_counts3 rep_start (rsteps_trans _ _ _ rep_run5 (rsteps_trans _ _ _ rep_run8 (rsteps_trans _ _ _ rep_run_offer rep_run_installed)))) as (st0 & st & H0 & H & Hn).
  exists st0, st. split; [exact H0|]. split; [exact H|]. destruct (Hn 3%N third third_there) as (H1 & V & H2 & H3 & _ & _ & _ & H4).
  rewrite Et in H1, H4. rewrite Ec in H4. split; [exact H1|]. exists V. split; [exact H2|]. split; [exact H3|exact H4].
Defined.

(** Node 3 hands over the snapshot; node 2 has the entry it ends with. *)
Definition holder : replica := mkReplica applied2 false.

Lemma holder_state :
  cl_nodes (rc_cluster rep_counts3) !! 2%N = Some holder /\ n_commitIndex (rp_node holder) = 1%N /\
  entry_of (n_store (rp_node holder)) 1 = Some (mkLogEntry 1 1 [] ENTRY_NORMAL None).
Proof. split; [vm_compute; reflexivity|]. split; vm_compute; reflexivity. Qed.

Lemma snapshot_safety_witness :
  exists idx t e, entry_of (n_store (rp_node holder)) idx = Some e /\ t = en_Term e /\
    HandleInstallSnapshot sample_Marshal clock0 (rp_node (three_node 3)) offer_req [] = Some (mkSnapResp 1, Some (SnapshotMsg (str "s") idx t), true, snap3).
Proof.
  destruct holder_state as (Hh & Hc & He). exists 1%N, 1%N, (mkLogEntry 1 1 [] ENTRY_NORMAL None). split; [exact He|]. split; [|exact offer_taken].
  refine (proj2 (proj2 (proj2 (snapshot_safety sample_Marshal sample_Unmarshal sample_roundtrip three_cfg [1; 2; 3]%N (fun i => conj eq_refl eq_refl)
           ltac:(discriminate) any_node rep0 rep_offer rep_counts3 1 3 2 offer_req (three_node 3) holder clock0 [] (mkSnapResp 1) (str "s") 1%N 1%N true snap3 _
           rep_start (rsteps_trans _ _ _ rep_run5 (rsteps_trans _ _ _ rep_run8 rep_run_offer)) rep_run_installed offer_sent offer_there offer_taken Hh _ He)))).
  rewrite Hc. reflexivity.
Defined.
