(* ===== verification/Network.v ===== *)
(** harness/network.go: the simulated network the cluster tests run on, which routes
    the RPCs of one node to the handlers of another and injects faults. *)

From S2P Require Import Prelude Bytes GoIO Wal Messages ConfState DiskStorage Node.
From Stdlib Require Import QArith.
#[local] Open Scope nat_scope.

(** ** State *)

Definition errUnreachable : error := Errorf (str "simnet: peer unreachable").

(** [net_cut] holds the directed links whose entry in cutLinks is true; dropRate
    is a rational, delays are nanoseconds. *)
Record SimNetwork := mkNetwork {
  net_nodes : gmap N Node;
  net_discon : gmap N bool;
  net_cut : gset (N * N);
  net_dropRate : Q;
  net_maxDelay : Z
}.

Definition NewSimNetwork : SimNetwork := mkNetwork ∅ ∅ ∅ 0 0.

Definition set_nodes (s : SimNetwork) (m : gmap N Node) : SimNetwork :=
  mkNetwork m (net_discon s) (net_cut s) (net_dropRate s) (net_maxDelay s).
Definition set_discon (s : SimNetwork) (m : gmap N bool) : SimNetwork :=
  mkNetwork (net_nodes s) m (net_cut s) (net_dropRate s) (net_maxDelay s).
Definition set_cut (s : SimNetwork) (c : gset (N * N)) : SimNetwork :=
  mkNetwork (net_nodes s) (net_discon s) c (net_dropRate s) (net_maxDelay s).

Definition Register (s : SimNetwork) (id : N) (n : Node) : SimNetwork := set_nodes s (<[id := n]> (net_nodes s)).
Definition Unregister (s : SimNetwork) (id : N) : SimNetwork := set_nodes s (delete id (net_nodes s)).
Definition Disconnect (s : SimNetwork) (id : N) : SimNetwork := set_discon s (<[id := true]> (net_discon s)).
Definition Reconnect (s : SimNetwork) (id : N) : SimNetwork := set_discon s (<[id := false]> (net_discon s)).

(** group[id] = gi for every id of every group; a later group wins. *)
Fixpoint group_of (gi : nat) (groups : list (list N)) : gmap N nat :=
  match groups with
  | [] => ∅
  | g :: gs => group_of (S gi) gs ∪ list_to_map ((fun id => (id, gi)) <$> g)
  end.

Definition Partition (s : SimNetwork) (groups : list (list N)) : SimNetwork :=
  let group := group_of 0 groups in
  let all := mjoin groups in
  set_cut s (list_to_set (filter (fun ab => ab.1 <> ab.2 /\ group !! ab.1 <> group !! ab.2) (a ← all; b ← all; [(a, b)]))).

Definition Heal (s : SimNetwork) : SimNetwork :=
  set_discon (set_cut s ∅) ((fun _ => false) <$> net_discon s).

Definition SetDropRate (s : SimNetwork) (p : Q) : SimNetwork :=
  mkNetwork (net_nodes s) (net_discon s) (net_cut s) p (net_maxDelay s).
Definition SetMaxDelay (s : SimNetwork) (d : Z) : SimNetwork :=
  mkNetwork (net_nodes s) (net_discon s) (net_cut s) (net_dropRate s) d.

Definition disconnected (s : SimNetwork) (id : N) : bool := default false (net_discon s !! id).
Definition IsConnected (s : SimNetwork) (id : N) : bool := negb (disconnected s id).

(** route; [rnd] is what rand.Float64 answers, [delay] what rand.Int63n does. *)
Definition route (s : SimNetwork) (from to : N) (rnd : Q) (delay : Z) : sum error (Node * Z) :=
  if disconnected s from || disconnected s to || bool_decide ((from, to) ∈ net_cut s) then inl errUnreachable
  else if negb (Qle_bool (net_dropRate s) 0) && negb (Qle_bool (net_dropRate s) rnd) then inl errUnreachable
  else match net_nodes s !! to with
       | None => inl errUnreachable
       | Some n => inr (n, if (0 <? net_maxDelay s)%Z then delay else 0%Z)
       end.

(** ** RPCs *)

Section transport.
Context {Req Resp : Type} (handler : Node -> Req -> option (Resp * Node)).

(** simTransport: a request goes through if the route is open, and its handler
    runs on the shared node (nothing else happens while it is delayed) ... *)
Definition send (s : SimNetwork) (from peer : N) (req : Req) (rnd : Q) (delay : Z) : option (sum error Resp * SimNetwork) :=
  match route s from peer rnd delay with
  | inl er => Some (inl er, s)
  | inr (n, _) => '(resp, n) ← handler n req; Some (inr resp, set_nodes s (<[peer := n]> (net_nodes s)))
  end.

(** ... and the answer needs the way back, in the network as it then is. *)
Definition receive (s : SimNetwork) (from peer : N) (resp : Resp) (rnd : Q) (delay : Z) : sum error Resp :=
  match route s peer from rnd delay with inl er => inl er | inr _ => inr resp end.

End transport.

Definition RequestVote (c : clock) := send (HandleRequestVote c).
Definition AppendEntries (Marshal : Entry -> bytes) (c : clock) := send (HandleAppendEntries Marshal c).
Definition ReadIndex (c : clock) := send (HandleReadIndex c).

(** The handler of InstallSnapshot; an answer without the mutex released leaves
    the node locked. *)
Definition InstallSnapshot (Marshal : Entry -> bytes) (c : clock) (tscript : list outcome) :=
  send (fun n req => '(resp, _, _, n) ← HandleInstallSnapshot Marshal c n req tscript; Some (resp, n)).

(** ** Partitions *)

(** [id] is a member of the [gi]-th group. *)
Definition in_group (groups : list (list N)) (gi : nat) (id : N) : Prop := exists g, groups !! gi = Some g /\ id ∈ g.

Definition groups_disjoint (groups : list (list N)) : Prop :=
  forall i j id, in_group groups i id -> in_group groups j id -> i = j.

Lemma constant_map_lookup {A} (g : list N) (x : A) id :
  (list_to_map ((fun i => (i, x)) <$> g) : gmap N A) !! id = if decide (id ∈ g) then Some x else None.
Proof.
  induction g as [|y g IH]; [done|]. rewrite fmap_cons. cbn [list_to_map foldr uncurry]. destruct (decide (y = id)) as [->|Hne].
  - rewrite lookup_insert_eq. by rewrite decide_True by by left.
  - rewrite lookup_insert_ne, IH by done. apply decide_ext. rewrite elem_of_cons. naive_solver.
Qed.

Lemma group_of_cons k g gs id :
  group_of k (g :: gs) !! id = match group_of (S k) gs !! id with Some x => Some x | None => if decide (id ∈ g) then Some k else None end.
Proof.
  cbn [group_of]. rewrite lookup_union, constant_map_lookup. destruct (group_of (S k) gs !! id), (decide (id ∈ g)); done.
Qed.

Lemma group_of_none k groups id : (forall i, ~ in_group groups i id) -> group_of k groups !! id = None.
Proof.
  revert k. induction groups as [|g gs IH]; intros k H; [done|]. rewrite group_of_cons, IH.
  - rewrite decide_False; [done|]. intros Hin. apply (H 0). by exists g.
  - intros i (g' & Hg & Hid). apply (H (S i)). by exists g'.
Qed.

Lemma groups_disjoint_tail g gs : groups_disjoint (g :: gs) -> groups_disjoint gs.
Proof. intros Hd i j id (g1 & ? & ?) (g2 & ? & ?). apply (inj S). apply (Hd (S i) (S j) id); [by exists g1|by exists g2]. Qed.

Lemma group_of_some k groups i id : groups_disjoint groups -> in_group groups i id -> group_of k groups !! id = Some (k + i).
Proof.
  revert k i. induction groups as [|g gs IH]; intros k i Hd Hin; [by destruct Hin as (x & ? & _)|]. rewrite group_of_cons. destruct i as [|i].
  - destruct Hin as (g' & [= <-] & Hid). rewrite group_of_none.
    + rewrite decide_True by done. f_equal. lia.
    + intros j (g2 & Hg2 & Hid2). assert (0 = S j) as E; [|lia]. apply (Hd 0 (S j) id); [by exists g|by exists g2].
  - rewrite (IH (S k) i); [f_equal; lia|by eapply groups_disjoint_tail|exact Hin].
Qed.

Lemma in_group_all groups i id : in_group groups i id -> id ∈ mjoin groups.
Proof. intros (g & Hg & Hid). apply list_elem_of_join. exists g. split; [done|]. by eapply list_elem_of_lookup_2. Qed.

(** The links a partition cuts. *)
Lemma Partition_cut s groups a b i j :
  groups_disjoint groups -> in_group groups i a -> in_group groups j b ->
  (a, b) ∈ net_cut (Partition s groups) <-> i <> j.
Proof.
  intros Hd Ha Hb. unfold Partition. cbn [net_cut set_cut]. rewrite elem_of_list_to_set, list_elem_of_filter. cbn [fst snd].
  rewrite (group_of_some 0 _ _ _ Hd Ha), (group_of_some 0 _ _ _ Hd Hb). split.
  - intros [[_ Hne] _] ->. done.
  - intros Hne. split; [|].
    + split; [|intros [= ?]; lia]. intros ->. apply Hne. by apply (Hd _ _ b).
    + apply list_elem_of_bind. exists a. split; [|by eapply in_group_all]. apply list_elem_of_bind. exists b. split; [by left|by eapply in_group_all].
Qed.

(** Everything the tests do to a partitioned network, other than healing it. *)
Inductive net_op :=
  | NetRegister (id : N) (n : Node)
  | NetUnregister (id : N)
  | NetDisconnect (id : N)
  | NetReconnect (id : N)
  | NetDropRate (p : Q)
  | NetMaxDelay (d : Z).

Definition net_step (s : SimNetwork) (op : net_op) : SimNetwork :=
  match op with
  | NetRegister id n => Register s id n
  | NetUnregister id => Unregister s id
  | NetDisconnect id => Disconnect s id
  | NetReconnect id => Reconnect s id
  | NetDropRate p => SetDropRate s p
  | NetMaxDelay d => SetMaxDelay s d
  end.

Lemma net_steps_cut s ops : net_cut (foldl net_step s ops) = net_cut s.
Proof. revert s. induction ops as [|op ops IH]; intros s; [done|]. cbn [foldl]. rewrite IH. by destruct op. Qed.

(** A partition isolates its groups and nothing else: whatever is then done to the
    network short of healing it, no message goes from one group to another; inside
    a group a message reaches a registered peer unless one end is disconnected or
    the message is dropped; and healing opens every link again. *)
Theorem partition_isolates s groups ops a b i j rnd delay :
  groups_disjoint groups -> in_group groups i a -> in_group groups j b ->
  let s1 := foldl net_step (Partition s groups) ops in
  (i <> j -> route s1 a b rnd delay = inl errUnreachable) /\
  (i = j -> disconnected s1 a = false -> disconnected s1 b = false -> Qle_bool (net_dropRate s1) 0 = true ->
     forall n, net_nodes s1 !! b = Some n -> exists d, route s1 a b rnd delay = inr (n, d)) /\
  (Qle_bool (net_dropRate s1) 0 = true ->
     forall n, net_nodes s1 !! b = Some n -> exists d, route (Heal s1) a b rnd delay = inr (n, d)).
Proof.
  intros Hd Ha Hb s1. assert ((a, b) ∈ net_cut s1 <-> i <> j) as Hcut by (unfold s1; rewrite net_steps_cut; by apply Partition_cut).
  unfold route. split_and!.
  - intros Hne. rewrite (bool_decide_true _ (proj2 Hcut Hne)). by rewrite orb_true_r.
  - intros Heq Da Db Hdrop n Hn. rewrite Da, Db, bool_decide_false by tauto. cbn [orb]. rewrite Hdrop. cbn [negb andb]. rewrite Hn. by eexists.
  - intros Hdrop n Hn. assert (forall id, disconnected (Heal s1) id = false) as Dh.
    { intros id. unfold disconnected, Heal. cbn [net_discon set_discon]. rewrite lookup_fmap. by destruct (net_discon _ !! id). }
    rewrite !Dh, bool_decide_false by (cbn; set_solver). cbn [orb]. cbn [Heal set_discon set_cut net_dropRate net_nodes net_maxDelay].
    rewrite Hdrop. cbn [negb andb]. rewrite Hn. by eexists.
Qed.

(** An answer may be lost although the request was executed: the node that handled
    it keeps its new state. *)
Lemma lost_answer_executed {Req Resp} (handler : Node -> Req -> option (Resp * Node)) s from peer req rnd delay resp n n' :
  route s from peer rnd delay = inr (n, 0%Z) -> handler n req = Some (resp, n') ->
  exists s', send handler s from peer req rnd delay = Some (inr resp, s') /\ net_nodes s' !! peer = Some n' /\
    forall rnd' delay', receive (Disconnect s' from) from peer resp rnd' delay' = inl errUnreachable.
Proof.
  intros Hr Hh. unfold send. rewrite Hr. cbn. rewrite Hh. eexists. split; [reflexivity|]. split; [apply lookup_insert_eq|].
  intros rnd' delay'. unfold receive, route, disconnected, Disconnect. cbn [net_discon set_discon]. rewrite lookup_insert_eq. by rewrite orb_true_r.
Qed.

(** ** Witness: two groups of a network of three *)

Definition two_groups : list (list N) := [[1; 2]; [3]]%N.

Lemma two_groups_in gi id : in_group two_groups gi id -> (gi = 0 /\ (id = 1 \/ id = 2)%N) \/ (gi = 1 /\ id = 3%N).
Proof.
  intros (g & Hg & Hid). destruct gi as [|[|gi]]; cbn in Hg; [injection Hg as <-|injection Hg as <-|done]; set_solver.
Qed.

Lemma partition_isolates_witness :
  route (foldl net_step (Partition NewSimNetwork two_groups) [NetDisconnect 2; NetReconnect 2]) 1 3 0 0 = inl errUnreachable.
Proof.
  apply (partition_isolates NewSimNetwork two_groups [NetDisconnect 2; NetReconnect 2] 1 3 0 1 0 0).
  - intros i j id Hi%two_groups_in Hj%two_groups_in. lia.
  - exists [1; 2]%N. split; [reflexivity|by left].
  - exists [3]%N. split; [reflexivity|by left].
  - discriminate.
Defined.
