(* ===== verification/Harness.v ===== *)
(** harness/cluster.go: the test cluster. It starts, stops and restarts nodes on the
    simulated network, records the commands each node hands over, finds the leader
    among the live nodes, keeps the list of members, and checks that no two nodes
    applied different commands at an index. [harness_run] has the runs of a test
    cluster, on Replication's model of the nodes. *)

From S2P Require Import Prelude Bytes GoIO Wal Messages ConfState DiskStorage StorageCorrect StorageMem LogFacts Node NodeWf NodeSteps NodeVotes NodeRoles NodeLog Cluster RaftSpec NodeEffects LogView DurableLog NodeDurable Replication ReplicationSafety Network.
#[local] Open Scope nat_scope.

(** ** State *)

Record appliedEntry := mkApplied { ap_Index : N; ap_Data : bytes }.

(** [tc_nodes] and the network hold pointers to the same nodes: [set_node] writes a
    node where both see it. The apply channels are drained as messages come. *)
Record TestCluster := mkTestCluster {
  tc_Net : SimNetwork;
  tc_IDs : list N;
  tc_nodes : gmap N Node;
  tc_applied : gmap N (list appliedEntry);
  tc_stopped : gmap N bool
}.

Definition set_ids (c : TestCluster) (ids : list N) : TestCluster :=
  mkTestCluster (tc_Net c) ids (tc_nodes c) (tc_applied c) (tc_stopped c).
Definition set_applied (c : TestCluster) (a : gmap N (list appliedEntry)) : TestCluster :=
  mkTestCluster (tc_Net c) (tc_IDs c) (tc_nodes c) a (tc_stopped c).
Definition set_node (c : TestCluster) (id : N) (n : Node) : TestCluster :=
  mkTestCluster (match net_nodes (tc_Net c) !! id with Some _ => Register (tc_Net c) id n | None => tc_Net c end)
    (tc_IDs c) (<[id := n]> (tc_nodes c)) (tc_applied c) (tc_stopped c).

Definition applied_of (applied : gmap N (list appliedEntry)) (id : N) : list appliedEntry := default [] (applied !! id).
Definition stopped (c : TestCluster) (id : N) : bool := default false (tc_stopped c !! id).

(** ** Starting and stopping *)

Section start.
Context (Unmarshal : bytes -> option Entry).

(** startNode on the directory with these files; Fatalf ends the test. *)
Definition startNode (ck : clock) (c : TestCluster) (id : N) (peers : list N) (files : snap_files) (wal : option file) : result TestCluster :=
  let* node := NewNode Unmarshal ck (mkConfig id peers ∅ 0 0 0) files wal in
  Ok (mkTestCluster (Register (tc_Net c) id node) (tc_IDs c) (<[id := node]> (tc_nodes c)) (tc_applied c) (<[id := false]> (tc_stopped c))).

Fixpoint startAll (ck : clock) (c : TestCluster) (ids peers : list N) : result TestCluster :=
  match ids with
  | [] => Ok c
  | id :: ids => let* c := startNode ck c id peers (mkSnapFiles None None None) None in startAll ck c ids peers
  end.

Definition NewCluster (ck : clock) (n : nat) : result TestCluster :=
  let ids := N.of_nat <$> seq 1 n in
  startAll ck (mkTestCluster NewSimNetwork ids ∅ ∅ ∅) ids ids.

(** StopNode; a node that was never started, or is stopped already, makes it panic
    (nil pointer, close of a closed channel). *)
Definition StopNode (c : TestCluster) (id : N) : option TestCluster :=
  node ← tc_nodes c !! id;
  if stopped c id then None
  else
    node ← Stop node;
    Some (mkTestCluster (Unregister (tc_Net c) id) (tc_IDs c) (<[id := node]> (tc_nodes c)) (tc_applied c) (<[id := true]> (tc_stopped c))).

(** RestartNode resets the record: the state machine restarts too. *)
Definition RestartNode (ck : clock) (c : TestCluster) (id : N) (files : snap_files) (wal : option file) : result TestCluster :=
  startNode ck (set_applied c (<[id := []]> (tc_applied c))) id (tc_IDs c) files wal.

(** Shutdown, the nodes in the order of the map's iteration. *)
Fixpoint stopAll (c : TestCluster) (ids : list N) : option TestCluster :=
  match ids with
  | [] => Some c
  | id :: ids => c ← StopNode c id; stopAll c ids
  end.
Definition Shutdown (order : list N) (c : TestCluster) : option TestCluster :=
  stopAll c (filter (fun id => stopped c id = false) order).

End start.

(** ** The record *)

(** The goroutine of startNode: commands are recorded, no-ops are not. *)
Definition record_msg (id : N) (applied : gmap N (list appliedEntry)) (msg : ApplyMsg) : gmap N (list appliedEntry) :=
  match msg with
  | CommandMsg [] _ _ => applied
  | CommandMsg command index _ => <[id := applied_of applied id ++ [mkApplied index command]]> applied
  | _ => applied
  end.
Definition drain (id : N) (applied : gmap N (list appliedEntry)) (msgs : list ApplyMsg) : gmap N (list appliedEntry) :=
  foldl (record_msg id) applied msgs.

Definition Applied (c : TestCluster) (id : N) : list appliedEntry := applied_of (tc_applied c) id.

(** ** Polling *)

(** What a turn of a polling loop finds: the order of the map's iteration, and what
    each node did since the last turn and handed over. *)
Record poll := mkPoll {
  po_order : list N;
  po_node : N -> Node -> Node;
  po_msgs : list (N * list ApplyMsg)
}.

Definition elapse (p : poll) (c : TestCluster) : TestCluster :=
  let run (m : gmap N Node) := map_imap (fun id n => Some (po_node p id n)) m in
  mkTestCluster (set_nodes (tc_Net c) (run (net_nodes (tc_Net c)))) (tc_IDs c) (run (tc_nodes c))
    (foldl (fun a im => drain im.1 a im.2) (tc_applied c) (po_msgs p)) (tc_stopped c).

(** A value, or the panic of a nil pointer. *)
Definition checked {A} (o : option A) : result A := match o with Some a => Ok a | None => Panic end.

(** WaitApplied, with the turns before its deadline. *)
Fixpoint WaitApplied (polls : list poll) (c : TestCluster) (id : N) (count : nat) : result (list appliedEntry * TestCluster) :=
  match polls with
  | [] => Err (Errorf (str "node applied too few entries"))
  | p :: polls =>
      let c := elapse p c in
      if bool_decide (count <= length (Applied c id)) then Ok (Applied c id, c) else WaitApplied polls c id count
  end.

(** *** The leader *)

Definition is_leader (n : Node) : bool := (Status n).1.2.

(** One turn of Leader. *)
Definition live_leaders (order : list N) (c : TestCluster) : list N :=
  filter (fun id => stopped c id = false /\ IsConnected (tc_Net c) id = true /\ (is_leader <$> tc_nodes c !! id) = Some true) order.
Definition single (leaders : list N) : option N := match leaders with [id] => Some id | _ => None end.
Definition leader_turn (p : poll) (c : TestCluster) : result (option N) := Ok (single (live_leaders (po_order p) c)).

(** One turn of LeaderAmong: a nil node that is not stopped makes it panic. *)
Fixpoint leaders_among (c : TestCluster) (ids : list N) : result (list N) :=
  match ids with
  | [] => Ok []
  | id :: ids =>
      if stopped c id then leaders_among c ids
      else
        let* n := checked (tc_nodes c !! id) in
        let* rest := leaders_among c ids in
        Ok (if is_leader n then id :: rest else rest)
  end.
Definition among_turn (ids : list N) (_ : poll) (c : TestCluster) : result (option N) :=
  let* leaders := leaders_among c ids in Ok (single leaders).

(** The loop of Leader, and of the callers that ask it for a leader, act on that node
    and start again when the act failed. Both loops of such a caller run to one
    deadline; [None] is its error behind it. *)
Fixpoint until_leader {A} (turn : poll -> TestCluster -> result (option N)) (act : TestCluster -> N -> result (option A * TestCluster))
    (polls : list poll) (c : TestCluster) : result (option A * TestCluster) :=
  match polls with
  | [] => Ok (None, c)
  | p :: polls =>
      let c := elapse p c in
      let* found := turn p c in
      match found with
      | None => until_leader turn act polls c
      | Some id =>
          let* r := act c id in
          match r with
          | (Some a, c) => Ok (Some a, c)
          | (None, c) => until_leader turn act polls c
          end
      end
  end.

Definition Leader (polls : list poll) (c : TestCluster) : result (option N * TestCluster) :=
  until_leader leader_turn (fun c id => Ok (Some id, c)) polls c.
Definition LeaderAmong (polls : list poll) (c : TestCluster) (ids : list N) : result (option N * TestCluster) :=
  until_leader (among_turn ids) (fun c id => Ok (Some id, c)) polls c.

(** *** Commands and membership changes *)

Section driver.
Context (Marshal : Entry -> bytes) (Unmarshal : bytes -> option Entry).

Definition propose_on (cmd : bytes) (c : TestCluster) (id : N) : result (option N * TestCluster) :=
  let* n := checked (tc_nodes c !! id) in
  let* rn := checked (Node.Propose Marshal n cmd) in
  Ok (match rn.1 with inr (idx, _) => Some idx | inl _ => None end, set_node c id rn.2).

Definition Propose (polls : list poll) (c : TestCluster) (cmd : bytes) : result (option N * TestCluster) :=
  until_leader leader_turn (propose_on cmd) polls c.
Definition ProposeVia (polls : list poll) (c : TestCluster) (ids : list N) (cmd : bytes) : result (option N * TestCluster) :=
  until_leader (among_turn ids) (propose_on cmd) polls c.

Definition conf_change_on (cc : ConfChange) (c : TestCluster) (id : N) : result (option unit * TestCluster) :=
  let* n := checked (tc_nodes c !! id) in
  let* rn := checked (ProposeConfChange Marshal n cc) in
  Ok (match rn.1 with inr _ => Some tt | inl _ => None end, set_node c id rn.2).
Definition proposeConfChange (polls : list poll) (c : TestCluster) (cc : ConfChange) : result TestCluster :=
  let* r := until_leader leader_turn (conf_change_on cc) polls c in
  match r with
  | (Some _, c) => Ok c
  | (None, _) => Err (Errorf (str "propose conf change timed out"))
  end.

Definition conf_on (ok : ConfState -> bool) (c : TestCluster) (id : N) : result (option unit * TestCluster) :=
  let* n := checked (tc_nodes c !! id) in
  Ok (if ok (n_conf n) then Some tt else None, c).
Definition waitLeaderConf (polls : list poll) (c : TestCluster) (ok : ConfState -> bool) : result TestCluster :=
  let* r := until_leader leader_turn (conf_on ok) polls c in
  match r with
  | (Some _, c) => Ok c
  | (None, _) => Err (Errorf (str "timed out waiting for config state on leader"))
  end.

(** The turns of the loops of one change, in order. *)
Record change_polls := mkChangePolls { ch_enter : list poll; ch_joint : list poll; ch_leave : list poll; ch_left : list poll }.

Definition changeMembership (ps : change_polls) (c : TestCluster) (cc : ConfChange) : result TestCluster :=
  let* c := proposeConfChange (ch_enter ps) c cc in
  let* c := (if (cc_Type cc =? CONF_CHANGE_ADD_NODE)%Z || (cc_Type cc =? CONF_CHANGE_REMOVE_NODE)%Z
             then waitLeaderConf (ch_joint ps) c InJoint else Ok c) in
  if negb (cc_Type cc =? CONF_CHANGE_LEAVE_JOINT)%Z then
    let* c := proposeConfChange (ch_leave ps) c (mkConfChange CONF_CHANGE_LEAVE_JOINT 0 []) in
    waitLeaderConf (ch_left ps) c (fun conf => negb (InJoint conf))
  else Ok c.

Fixpoint waitConf (polls : list poll) (c : TestCluster) (id : N) (voters : nat) : result TestCluster :=
  match polls with
  | [] => Err (Errorf (str "conf not ready"))
  | p :: polls =>
      let c := elapse p c in
      let* n := checked (tc_nodes c !! id) in
      if bool_decide (voters <= length (VoterIDs (n_conf n))) && negb (InJoint (n_conf n)) then Ok c
      else waitConf polls c id voters
  end.

(** AddMember: the new node starts with the others as its members. *)
Definition AddMember (ck : clock) (ps : change_polls) (polls : list poll) (c : TestCluster) (id : N) : result TestCluster :=
  if decide (id ∈ tc_IDs c) then Err (Errorf (str "already in cluster"))
  else
    let c := set_ids c (tc_IDs c ++ [id]) in
    let* c := startNode Unmarshal ck c id (filter (fun x => x <> id) (tc_IDs c)) (mkSnapFiles None None None) None in
    let* c := changeMembership ps c (mkConfChange CONF_CHANGE_ADD_NODE id []) in
    waitConf polls c id (length (tc_IDs c)).

Definition RemoveMember (ps : change_polls) (c : TestCluster) (id : N) : result TestCluster :=
  let* c := changeMembership ps c (mkConfChange CONF_CHANGE_REMOVE_NODE id []) in
  let* c := checked (StopNode c id) in
  Ok (set_ids c (filter (fun x => x <> id) (tc_IDs c))).

End driver.

(** ** The check *)

(** What Fatalf reports: the index, and two nodes with their commands. *)
Record divergence := mkDivergence { dv_Index : N; dv_id : N; dv_Data : bytes; dv_owner : N; dv_prev : bytes }.

(** The inner loop of CheckConsistency, over one node's record. *)
Fixpoint check_entries (id : N) (es : list appliedEntry) (seen : gmap N bytes) (owner : gmap N N) : divergence + gmap N bytes * gmap N N :=
  match es with
  | [] => inr (seen, owner)
  | e :: es =>
      match seen !! ap_Index e with
      | Some prev =>
          if decide (prev = ap_Data e) then check_entries id es seen owner
          else inl (mkDivergence (ap_Index e) id (ap_Data e) (default 0%N (owner !! ap_Index e)) prev)
      | None => check_entries id es (<[ap_Index e := ap_Data e]> seen) (<[ap_Index e := id]> owner)
      end
  end.

(** The outer loop, over the nodes in the order of the map's iteration. *)
Fixpoint check_nodes (ids : list N) (applied : gmap N (list appliedEntry)) (seen : gmap N bytes) (owner : gmap N N) : option divergence :=
  match ids with
  | [] => None
  | id :: ids =>
      match check_entries id (applied_of applied id) seen owner with
      | inl d => Some d
      | inr (seen, owner) => check_nodes ids applied seen owner
      end
  end.

Definition CheckConsistency (order : list N) (c : TestCluster) : option divergence := check_nodes order (tc_applied c) ∅ ∅.

(** ** The check is exact *)

(** All the records together, in the order they are visited. *)
Definition all_applied (ids : list N) (applied : gmap N (list appliedEntry)) : list appliedEntry := ids ≫= applied_of applied.

Definition agrees (es : list appliedEntry) : Prop :=
  forall e e', e ∈ es -> e' ∈ es -> ap_Index e = ap_Index e' -> ap_Data e = ap_Data e'.

(** [seen] has the entries visited so far. *)
Definition seen_ok (seen : gmap N bytes) (es : list appliedEntry) : Prop :=
  forall i d, seen !! i = Some d <-> mkApplied i d ∈ es.

Lemma seen_agrees seen es : seen_ok seen es -> agrees es.
Proof.
  intros Hs [i d] [i' d'] He He' Hi. simpl in Hi. subst i'. apply Hs in He, He'. simpl. congruence.
Qed.

Lemma check_entries_spec id es seen owner past :
  seen_ok seen past ->
  match check_entries id es seen owner with
  | inl d => ~ agrees (past ++ es)
  | inr (seen', _) => exists past', seen_ok seen' past' /\ forall e, e ∈ past' <-> e ∈ past ++ es
  end.
Proof.
  revert seen owner past. induction es as [|e es IH]; intros seen owner past Hs; cbn [check_entries].
  { exists past. split; [done|]. intros e. by rewrite app_nil_r. }
  destruct (seen !! ap_Index e) as [prev|] eqn:Es.
  - destruct (decide (prev = ap_Data e)) as [->|Hne].
    + specialize (IH seen owner past Hs). assert (e ∈ past) as He by (apply Hs in Es; by destruct e).
      destruct (check_entries id es seen owner) as [d|[seen' owner']].
      * intros Ha. apply IH. intros x y Hx Hy. apply Ha; set_solver.
      * destruct IH as (past' & H1 & H2). exists past'. split; [done|]. intros x. rewrite H2. set_solver.
    + intros Ha. apply Hne. apply Hs in Es. apply (Ha (mkApplied (ap_Index e) prev) e); [set_solver|set_solver|done].
  - assert (seen_ok (<[ap_Index e := ap_Data e]> seen) (e :: past)) as Hs'.
    { intros i d. rewrite lookup_insert_Some, elem_of_cons, (Hs i d). split.
      - intros [[<- <-]|[_ H]]; [left; by destruct e|by right].
      - intros [<-|H]; [by left|right]. split; [|done]. intros <-. apply Hs in H. congruence. }
    specialize (IH _ (<[ap_Index e := id]> owner) _ Hs'). destruct (check_entries id es _ _) as [d|[seen' owner']].
    + intros Ha. apply IH. intros x y Hx Hy. apply Ha; set_solver.
    + destruct IH as (past' & H1 & H2). exists past'. split; [done|]. intros x. rewrite H2. set_solver.
Qed.

Lemma check_nodes_spec ids applied seen owner past :
  seen_ok seen past -> (check_nodes ids applied seen owner = None <-> agrees (past ++ all_applied ids applied)).
Proof.
  revert seen owner past. induction ids as [|id ids IH]; intros seen owner past Hs; cbn [check_nodes].
  { unfold all_applied. simpl. rewrite app_nil_r. split; [|done]. intros _. by eapply seen_agrees. }
  assert (past ++ all_applied (id :: ids) applied = (past ++ applied_of applied id) ++ all_applied ids applied) as -> by apply (assoc_L (++)).
  pose proof (check_entries_spec id (applied_of applied id) seen owner past Hs) as Hc.
  destruct (check_entries id _ seen owner) as [d|[seen' owner']].
  - split; [done|]. intros Ha. destruct Hc. intros x y Hx Hy. apply Ha; set_solver.
  - destruct Hc as (past' & H1 & H2). rewrite (IH seen' owner' past' H1).
    split; intros Ha x y Hx Hy; apply Ha; apply elem_of_app in Hx as [Hx|Hx], Hy as [Hy|Hy]; apply elem_of_app; rewrite ?H2 in *; auto; left; by apply H2.
Qed.

(** C18. CheckConsistency is exact: whatever order the nodes are visited in, it reports a
    divergence if and only if two of them (or one, twice) recorded different
    commands at the same index. *)
Theorem check_consistency_exact order c :
  CheckConsistency order c = None <->
  forall id id' e e', id ∈ order -> id' ∈ order -> e ∈ Applied c id -> e' ∈ Applied c id' -> ap_Index e = ap_Index e' -> ap_Data e = ap_Data e'.
Proof.
  unfold CheckConsistency. rewrite (check_nodes_spec _ _ _ _ []) by (intros i d; rewrite lookup_empty; split; [done|by intros ?%not_elem_of_nil]). simpl.
  assert (forall e, e ∈ all_applied order (tc_applied c) <-> exists id, id ∈ order /\ e ∈ Applied c id) as Hall.
  { intros e. unfold all_applied. rewrite list_elem_of_bind. unfold Applied. naive_solver. }
  split.
  - intros Ha id id' e e' H1 H2 H3 H4. apply Ha; apply Hall; [by exists id|by exists id'].
  - intros H e e' (id & H1 & H2)%Hall (id' & H3 & H4)%Hall. exact (H id id' e e' H1 H3 H2 H4).
Qed.

(** ** The check passes in a run of the harness *)

Lemma record_elem i a m id e :
  e ∈ applied_of (record_msg i a m) id -> e ∈ applied_of a id \/ id = i /\ exists t, m = CommandMsg (ap_Data e) (ap_Index e) t.
Proof.
  destruct m as [[|b cmd] index t|cc index t|d index t]; simpl; try (by left). unfold applied_of at 1. destruct (decide (id = i)) as [->|Hne].
  - rewrite lookup_insert_eq. simpl. intros [He| ->%list_elem_of_singleton]%elem_of_app; [by left|right]. split; [done|]. by exists t.
  - rewrite lookup_insert_ne by done. by left.
Qed.

(** The nodes as startNode makes them over empty directories. *)
Lemma NewNode_empty Unmarshal ck cfg :
  timer_ok (fill cfg) -> NewNode Unmarshal ck cfg (mkSnapFiles None None None) None = Ok (fresh_node ck cfg [] []).
Proof. exact (NewNode_fresh Unmarshal ck cfg []). Qed.

Definition node_cfg (peers : list N) (id : N) : Config := mkConfig id peers ∅ 0 0 0.

Lemma startAll_nodes Unmarshal ck peers ids c c' :
  startAll Unmarshal ck c ids peers = Ok c' ->
  tc_IDs c' = tc_IDs c /\ tc_applied c' = tc_applied c /\
  (forall id, tc_nodes c' !! id = if decide (id ∈ ids) then Some (fresh_node ck (node_cfg peers id) [] []) else tc_nodes c !! id) /\
  forall id, stopped c' id = if decide (id ∈ ids) then false else stopped c id.
Proof.
  revert c. induction ids as [|i ids IH]; intros c; cbn [startAll]; [intros [= <-]; split_and!; [done|done|..]; by intros id; rewrite decide_False by apply not_elem_of_nil|].
  unfold startNode. fold (node_cfg peers i). rewrite NewNode_empty by reflexivity. cbn [rbind]. intros (E1 & E2 & E3 & E4)%IH. simpl in E1, E2.
  split_and!; [done|done|intros id; rewrite E3|intros id; rewrite E4]; destruct (decide (id ∈ ids)) as [Hin|Hin];
    destruct (decide (id ∈ i :: ids)) as [Hin'|Hin']; rewrite elem_of_cons in Hin'; try done; try tauto.
  - destruct Hin' as [->|?]; [|done]. simpl. by rewrite lookup_insert_eq.
  - simpl. rewrite lookup_insert_ne; [done|]. intros ->. tauto.
  - destruct Hin' as [->|?]; [|done]. unfold stopped. simpl. by rewrite lookup_insert_eq.
  - unfold stopped. simpl. rewrite lookup_insert_ne; [done|]. intros ->. tauto.
Qed.

Section runs.
Context (Marshal : Entry -> bytes) (Unmarshal : bytes -> option Entry).
Context (Hproto : forall e, Unmarshal (Marshal e) = Some e).
(** The number of nodes, which the ids and the membership record have room for. *)
Context (size : nat).
Abbreviation boot := (N.of_nat <$> seq 1 size).
Context (Hfits : conf_fits (NewConfState boot)).

(** The disk of the test does not fail. *)
Definition on_disk (i : N) : Prop := True.

Abbreviation rstep := (rstep Marshal Unmarshal (node_cfg boot) boot on_disk).
Abbreviation rsteps := (rsteps Marshal Unmarshal (node_cfg boot) boot on_disk).
Abbreviation replication_start := (replication_start (node_cfg boot) on_disk).

(** The harness's nodes with the messages between them: none at first. *)
Definition rep_of (c : TestCluster) : replication :=
  mkReplication (mkCluster ((fun n => mkReplica n false) <$> tc_nodes c) ∅ ∅) [] [].

(** The harness after the running nodes have come to [rc]. *)
Definition observe (c : TestCluster) (rc : replication) : TestCluster :=
  let now (id : N) (n : Node) := Some (if stopped c id then n else default n (rp_node <$> cl_nodes (rc_cluster rc) !! id)) in
  mkTestCluster (set_nodes (tc_Net c) (map_imap now (net_nodes (tc_Net c)))) (tc_IDs c) (map_imap now (tc_nodes c)) (tc_applied c) (tc_stopped c).

Definition next_node (rc : replication) (id : N) (n : Node) : replication :=
  mkReplication (mkCluster (with_node (rc_cluster rc) id n false) (cl_calls (rc_cluster rc)) (cl_votes (rc_cluster rc))) (rc_sent rc) (rc_answers rc).

(** Runs of the harness over a fixed membership: NewCluster; then, in any order, the
    nodes that are not stopped run their critical sections and exchange messages,
    hand commands to their apply channels, the goroutines of startNode record what
    is in the channels, and the test calls StopNode and RestartNode. [rc] has the
    messages between the nodes (and of a stopped node, the state Stop found), [q]
    what is in the channels. *)
Inductive harness_run : TestCluster -> replication -> list (N * ApplyMsg) -> Prop :=
  | hr_new ck c : NewCluster Unmarshal ck size = Ok c -> harness_run c (rep_of c) []
  | hr_step c rc q rc' :
      harness_run c rc q -> rstep rc rc' ->
      (forall id, stopped c id = true -> cl_nodes (rc_cluster rc') !! id = cl_nodes (rc_cluster rc) !! id) ->
      (forall id r, cl_nodes (rc_cluster rc') !! id = Some r -> rp_restarted r = false) ->
      harness_run (observe c rc') rc' q
  | hr_apply c rc q id n msgs n' :
      harness_run c rc q -> stopped c id = false -> tc_nodes c !! id = Some n -> applier n = Some (msgs, n') ->
      harness_run (observe c (next_node rc id n')) (next_node rc id n') (q ++ (pair id <$> msgs))
  | hr_drain c rc q1 id m q2 :
      harness_run c rc (q1 ++ (id, m) :: q2) -> harness_run (set_applied c (record_msg id (tc_applied c) m)) rc (q1 ++ q2)
  | hr_stop c rc q id c' : harness_run c rc q -> StopNode c id = Some c' -> harness_run c' rc q
  | hr_restart c rc q id n1 w ck c' n' :
      harness_run c rc q -> stopped c id = true -> tc_nodes c !! id = Some n1 -> ds_wal (n_store n1) = Some w ->
      RestartNode Unmarshal ck c id (ds_files (n_store n1)) (Some (reopen (wal_file w))) = Ok c' ->
      tc_nodes c' !! id = Some n' -> n_conf n' = NewConfState boot -> harness_run c' (next_node rc id n') q.

(** What the harness holds of each node. *)
Definition coupled (c : TestCluster) (rc : replication) : Prop :=
  tc_IDs c = boot /\ forall id,
    match tc_nodes c !! id with
    | None => cl_nodes (rc_cluster rc) !! id = None
    | Some n => exists n0, cl_nodes (rc_cluster rc) !! id = Some (mkReplica n0 false) /\ if stopped c id then Stop n0 = Some n else n0 = n
    end.

(** [e] was handed over by node [id] at a point of the run. *)
Definition handed (rc0 rc : replication) (id : N) (e : appliedEntry) : Prop :=
  exists rc1 r msgs n' t, rsteps rc0 rc1 /\ rsteps rc1 rc /\ cl_nodes (rc_cluster rc1) !! id = Some r /\
    applier (rp_node r) = Some (msgs, n') /\ CommandMsg (ap_Data e) (ap_Index e) t ∈ msgs.

(** [e] is in the record of [id], or on its way there. *)
Definition reported (c : TestCluster) (q : list (N * ApplyMsg)) (id : N) (e : appliedEntry) : Prop :=
  e ∈ Applied c id \/ exists t, (id, CommandMsg (ap_Data e) (ap_Index e) t) ∈ q.

Definition record_inv (rc0 rc : replication) (c : TestCluster) (q : list (N * ApplyMsg)) : Prop :=
  (forall id e, reported c q id e -> handed rc0 rc id e) /\
  forall id id' e e', reported c q id e -> reported c q id' e' -> ap_Index e = ap_Index e' -> ap_Data e = ap_Data e'.

Lemma handed_more rc0 rc rc' id e : rstep rc rc' -> handed rc0 rc id e -> handed rc0 rc' id e.
Proof.
  intros Hs (rc1 & r & msgs & n' & t & H1 & H2 & H3 & H4 & H5). exists rc1, r, msgs, n', t. split_and!; try done. by eapply rsteps_step.
Qed.

Lemma boot_nonempty : boot <> [].
Proof using Hfits. intros E. destruct Hfits as (_ & _ & Hne & _). rewrite E in Hne. by apply Hne. Qed.

(** What was handed over before agrees with what a node hands over now. *)
Lemma handed_agree rc0 rc id e j r msgs n' e' t :
  replication_start rc0 -> rsteps rc0 rc -> handed rc0 rc id e -> cl_nodes (rc_cluster rc) !! j = Some r ->
  applier (rp_node r) = Some (msgs, n') -> CommandMsg (ap_Data e') (ap_Index e') t ∈ msgs -> ap_Index e = ap_Index e' -> ap_Data e = ap_Data e'.
Proof using Hproto Hfits.
  intros H0 Hr (rc1 & r1 & msgs1 & n1 & t1 & H1 & H2 & H3 & H4 & H5) Hj Ha Hm Hi.
  assert (CommandMsg (ap_Data e) (ap_Index e) t1 = CommandMsg (ap_Data e') (ap_Index e') t) as Heq; [|by injection Heq].
  exact (messages_agree Marshal Unmarshal Hproto (node_cfg boot) boot (fun i => conj eq_refl eq_refl) boot_nonempty _ _ _ _ _ _ _ _ _ _ _ _ _ _ H0 H1 H2 H3 H4 Hj Ha H5 Hm Hi).
Qed.

(** *** Nodes *)

Lemma rstep_dom rc rc' id : rstep rc rc' -> cl_nodes (rc_cluster rc) !! id = None <-> cl_nodes (rc_cluster rc') !! id = None.
Proof.
  assert (forall i r (x : replica), cl_nodes (rc_cluster rc) !! i = Some r -> cl_nodes (rc_cluster rc) !! id = None <-> <[i := x]> (cl_nodes (rc_cluster rc)) !! id = None) as H.
  { intros i r x Hr. destruct (decide (id = i)) as [->|Hne]; [|by rewrite lookup_insert_ne]. rewrite lookup_insert_eq, Hr. by split. }
  destruct 1; simpl; by eapply H.
Qed.

Lemma observe_coupled c rc rc' :
  coupled c rc -> (forall id, cl_nodes (rc_cluster rc) !! id = None <-> cl_nodes (rc_cluster rc') !! id = None) ->
  (forall id, stopped c id = true -> cl_nodes (rc_cluster rc') !! id = cl_nodes (rc_cluster rc) !! id) ->
  (forall id r, cl_nodes (rc_cluster rc') !! id = Some r -> rp_restarted r = false) -> coupled (observe c rc') rc'.
Proof.
  intros [Eids Hc] Hdom Hst Hb. split; [done|]. intros id. specialize (Hc id). specialize (Hdom id). specialize (Hst id). specialize (Hb id).
  unfold observe, stopped in *. simpl. rewrite map_lookup_imap. destruct (tc_nodes c !! id) as [n|]; simpl; [|by apply Hdom].
  destruct Hc as (n0 & Hn & Hs). destruct (default false (tc_stopped c !! id)).
  - exists n0. by rewrite Hst.
  - destruct (cl_nodes (rc_cluster rc') !! id) as [[n' b]|]; [|by rewrite (proj2 Hdom) in Hn]. simpl. specialize (Hb _ eq_refl). simpl in Hb. subst b. by exists n'.
Qed.

(** A node is replaced by its state after a step. *)
Lemma coupled_running c rc id n : coupled c rc -> stopped c id = false -> tc_nodes c !! id = Some n -> cl_nodes (rc_cluster rc) !! id = Some (mkReplica n false).
Proof. intros [_ H] Hs Hn. specialize (H id). rewrite Hn, Hs in H. by destruct H as (n0 & Hr & ->). Qed.

Lemma coupled_fresh c rc id r : coupled c rc -> cl_nodes (rc_cluster rc) !! id = Some r -> rp_restarted r = false.
Proof. intros [_ H] Hr. specialize (H id). destruct (tc_nodes c !! id); [|congruence]. destruct H as (n0 & Hn & _). rewrite Hn in Hr. by injection Hr as <-. Qed.

Lemma apply_coupled c rc id n n' :
  coupled c rc -> stopped c id = false -> tc_nodes c !! id = Some n -> coupled (observe c (next_node rc id n')) (next_node rc id n').
Proof.
  intros Hc Hs Hn. pose proof (coupled_running _ _ _ _ Hc Hs Hn) as Hr. apply (observe_coupled _ rc); [done|..]; intros k; simpl; unfold with_node.
  - destruct (decide (k = id)) as [->|Hne]; [|by rewrite lookup_insert_ne]. rewrite lookup_insert_eq, Hr. by split.
  - intros Hk. rewrite lookup_insert_ne; [done|]. congruence.
  - intros r [[<- <-]|[_ Hk]]%lookup_insert_Some; [done|]. by eapply coupled_fresh.
Qed.

Lemma stop_coupled c rc id c' : coupled c rc -> StopNode c id = Some c' -> coupled c' rc /\ tc_applied c' = tc_applied c.
Proof.
  intros Hc. unfold StopNode. destruct (tc_nodes c !! id) as [n|] eqn:En; [|done]. simpl. destruct (stopped c id) eqn:Es; [done|].
  destruct (Stop n) as [n'|] eqn:Est; [|done]. simpl. intros [= <-]. pose proof (coupled_running _ _ _ _ Hc Es En) as Hr. destruct Hc as [Eids Hc]. split; [|done].
  split; [done|]. intros k. unfold stopped. simpl. destruct (decide (k = id)) as [->|Hne].
  - rewrite !lookup_insert_eq. by exists n.
  - rewrite !lookup_insert_ne by done. apply Hc.
Qed.

(** RestartNode is a restart of the cluster's node. *)
Lemma restart_coupled c rc id n1 w ck c' n' :
  coupled c rc -> stopped c id = true -> tc_nodes c !! id = Some n1 -> ds_wal (n_store n1) = Some w ->
  RestartNode Unmarshal ck c id (ds_files (n_store n1)) (Some (reopen (wal_file w))) = Ok c' -> tc_nodes c' !! id = Some n' -> n_conf n' = NewConfState boot ->
  rstep rc (next_node rc id n') /\ coupled c' (next_node rc id n') /\ tc_applied c' = <[id := []]> (tc_applied c).
Proof.
  intros [Eids Hc] Hs Hn Hw. pose proof (Hc id) as Hi. rewrite Hn, Hs in Hi. destruct Hi as (n0 & Hr & Hst). unfold RestartNode, startNode. rewrite Eids.
  fold (node_cfg boot id). destruct (NewNode _ _ _ _ _) as [n2| |] eqn:Enew; [|done..]. cbn [rbind]. intros [= <-]. simpl. rewrite lookup_insert_eq. intros [= ->] Hcf.
  split; [exact (rs_restart _ _ _ _ _ rc id (mkReplica n0 false) n1 w ck n' Hr I eq_refl Hst Hw Enew Hcf)|]. split; [|done]. split; [done|].
  intros k. unfold stopped. simpl. unfold with_node. destruct (decide (k = id)) as [->|Hne].
  - rewrite !lookup_insert_eq. by exists n'.
  - rewrite !lookup_insert_ne by done. apply Hc.
Qed.

Lemma harness_start ck c : NewCluster Unmarshal ck size = Ok c -> replication_start (rep_of c) /\ coupled c (rep_of c) /\ tc_applied c = ∅.
Proof using Hfits.
  intros (Eids & Eap & Hn & Hs)%startAll_nodes. simpl in Eids. simpl in Eap, Hn, Hs. unfold stopped in Hs; simpl in Hs.
  assert (forall id r, cl_nodes (rc_cluster (rep_of c)) !! id = Some r -> id ∈ boot /\ r = mkReplica (fresh_node ck (node_cfg boot id) [] []) false) as Hr.
  { intros id r. simpl. rewrite lookup_fmap, Hn. destruct (decide (id ∈ boot)); [|by rewrite lookup_empty]. by intros [= <-]. }
  split; [|split; [|done]].
  - split_and!; [|done|done|intros id r [_ ->]%Hr _; by exists ck]. split_and!; [done|done|]. intros id r [Hid ->]%Hr.
    assert (id <> 0%N /\ (id < two64)%N) as [Hz Hlt].
    { split; [apply list_elem_of_fmap in Hid as (k & -> & Hk%elem_of_seq); lia|]. destruct Hfits as ([Hv _] & _). apply Hv. simpl. by apply elem_of_list_to_set. }
    split; [done|]. split; [done|]. split; [|by exists ck, [], []].
    simpl. destruct (fresh_node_eq ck (node_cfg boot id) [] []) as [d ->]. by split.
  - split; [done|]. intros id. simpl. rewrite lookup_fmap, Hn. unfold stopped. rewrite Hs.
    destruct (decide (id ∈ boot)); simpl; [by eexists|by rewrite lookup_empty].
Qed.

(** *** Records *)

Lemma record_less rc0 rc c q c' q' :
  record_inv rc0 rc c q -> (forall id e, reported c' q' id e -> reported c q id e) -> record_inv rc0 rc c' q'.
Proof. intros [H1 H2] Hsub. split; [intros id e He%Hsub; by apply H1|]. intros id id' e e' He%Hsub He'%Hsub. by eapply H2. Qed.

Lemma record_step rc0 rc rc' c q : rstep rc rc' -> record_inv rc0 rc c q -> record_inv rc0 rc' c q.
Proof. intros Hs [H1 H2]. split; [|done]. intros id e He%H1. by eapply handed_more. Qed.

Lemma record_apply rc0 rc c q c' id r msgs n' :
  replication_start rc0 -> rsteps rc0 rc -> record_inv rc0 rc c q -> cl_nodes (rc_cluster rc) !! id = Some r -> applier (rp_node r) = Some (msgs, n') ->
  tc_applied c' = tc_applied c -> record_inv rc0 rc c' (q ++ (pair id <$> msgs)).
Proof using Hproto Hfits.
  intros H0 Hr [H1 H2] Hn Ha Ec.
  assert (forall k e, reported c' (q ++ (pair id <$> msgs)) k e -> reported c q k e \/ k = id /\ exists t, CommandMsg (ap_Data e) (ap_Index e) t ∈ msgs) as Hnew.
  { intros k e [He|[t Ht]]; [left; left; unfold Applied in *; by rewrite <-Ec|]. apply elem_of_app in Ht as [Ht|Ht]; [left; right; by exists t|right].
    apply list_elem_of_fmap in Ht as (m & [= -> <-] & Hm). split; [done|by exists t]. }
  assert (forall k e, reported c' (q ++ (pair id <$> msgs)) k e -> handed rc0 rc k e) as Hh.
  { intros k e [He|(-> & t & Ht)]%Hnew; [by apply H1|]. exists rc, r, msgs, n', t. split_and!; try done. constructor. }
  split; [done|]. intros k k' e e' He He' Hi. pose proof (Hnew _ _ He) as [Hold|(-> & t & Ht)].
  - pose proof (Hnew _ _ He') as [Hold'|(-> & t' & Ht')]; [by eapply H2|].
    exact (handed_agree _ _ _ _ _ _ _ _ _ _ H0 Hr (Hh _ _ He) Hn Ha Ht' Hi).
  - symmetry. exact (handed_agree _ _ _ _ _ _ _ _ _ _ H0 Hr (Hh _ _ He') Hn Ha Ht (eq_sym Hi)).
Qed.

Lemma harness_record c rc q :
  harness_run c rc q -> exists rc0, replication_start rc0 /\ rsteps rc0 rc /\ coupled c rc /\ record_inv rc0 rc c q.
Proof using Hproto Hfits.
  induction 1 as [ck c H|c rc q rc' _ (rc0 & H0 & Hr & Hc & Hrec) Hs Hst Hb|c rc q id n msgs n' _ (rc0 & H0 & Hr & Hc & Hrec) Hs Hn Ha
    |c rc q1 id m q2 _ (rc0 & H0 & Hr & Hc & Hrec)|c rc q id c' _ (rc0 & H0 & Hr & Hc & Hrec) H
    |c rc q id n1 w ck c' n' _ (rc0 & H0 & Hr & Hc & Hrec) Hs Hn Hw H Hn' Hcf].
  - destruct (harness_start _ _ H) as (H0 & Hc & Ea). exists (rep_of c). split; [done|]. split; [constructor|]. split; [done|].
    assert (forall id e, ~ reported c [] id e) as Hno.
    { intros id e [He|[t Ht]]; [|by apply not_elem_of_nil in Ht]. unfold Applied, applied_of in He. rewrite Ea, lookup_empty in He. by apply not_elem_of_nil in He. }
    split; [by intros id e He%Hno|by intros id id' e e' He%Hno].
  - exists rc0. split; [done|]. split; [by eapply rsteps_step|]. split; [by eapply observe_coupled; [exact Hc|intros id; by eapply rstep_dom|..]|].
    eapply record_less; [by eapply record_step|]. done.
  - pose proof (coupled_running _ _ _ _ Hc Hs Hn) as Hrn.
    assert (rstep rc (next_node rc id n')) as Hstep by (eapply (rs_local _ _ _ _ _ rc id (mkReplica n false) clock0 EvApply (OutApply msgs)); [exact Hrn|done|done|done|simpl; by rewrite Ha|done]).
    exists rc0. split; [done|]. split; [by eapply rsteps_step|]. split; [by eapply apply_coupled|].
    eapply record_step; [exact Hstep|]. exact (record_apply _ _ _ _ _ _ _ _ _ H0 Hr Hrec Hrn Ha eq_refl).
  - exists rc0. split; [done|]. split; [done|]. split; [exact Hc|]. eapply record_less; [exact Hrec|].
    intros k e [He|[t Ht]]; [|right; exists t; set_solver]. apply record_elem in He as [He|(-> & t & ->)]; [by left|right]. exists t. set_solver.
  - destruct (stop_coupled _ _ _ _ Hc H) as [Hc' Ea]. exists rc0. split; [done|]. split; [done|]. split; [done|]. eapply record_less; [exact Hrec|].
    intros k e [He|Ht]; [left; unfold Applied in *; by rewrite <-Ea|by right].
  - destruct (restart_coupled _ _ _ _ _ _ _ _ Hc Hs Hn Hw H Hn' Hcf) as (Hstep & Hc' & Ea). exists rc0. split; [done|]. split; [by eapply rsteps_step|].
    split; [done|]. eapply record_less; [by eapply record_step|]. intros k e [He|Ht]; [left|by right].
    unfold Applied, applied_of in *. rewrite Ea in He. destruct (decide (k = id)) as [->|]; [|by rewrite lookup_insert_ne in He].
    rewrite lookup_insert_eq in He. by apply not_elem_of_nil in He.
Qed.

(** Steps while no node is stopped. *)
Definition never_crashed (rc : replication) : Prop := forall id r, cl_nodes (rc_cluster rc) !! id = Some r -> rp_restarted r = false.

Lemma never_crashed_before rc rc' : rstep rc rc' -> never_crashed rc' -> never_crashed rc.
Proof.
  intros Hs Hf id r Hr. assert (forall i x, cl_nodes (rc_cluster rc') = <[i := x]> (cl_nodes (rc_cluster rc)) ->
    (i = id -> rp_restarted x = false -> rp_restarted r = false) -> rp_restarted r = false) as H.
  { intros i x E Hx. destruct (decide (i = id)) as [->|Hne]; [apply Hx; [done|]|]; eapply (Hf id); rewrite E; [apply lookup_insert_eq|by rewrite lookup_insert_ne]. }
  destruct Hs; (eapply H; [reflexivity|]); intros ->; simpl; congruence.
Qed.

Lemma observe_twice c rc rc' :
  (forall id, cl_nodes (rc_cluster rc) !! id = None <-> cl_nodes (rc_cluster rc') !! id = None) -> observe (observe c rc) rc' = observe c rc'.
Proof.
  intros Hdom. assert (forall m : gmap N Node,
    map_imap (fun id n => Some (if stopped c id then n else default n (rp_node <$> cl_nodes (rc_cluster rc') !! id)))
      (map_imap (fun id n => Some (if stopped c id then n else default n (rp_node <$> cl_nodes (rc_cluster rc) !! id))) m) =
    map_imap (fun id n => Some (if stopped c id then n else default n (rp_node <$> cl_nodes (rc_cluster rc') !! id))) m) as Hm.
  { intros m. apply map_eq. intros id. rewrite !map_lookup_imap. destruct (m !! id) as [n|]; [|done]. simpl. destruct (stopped c id); [done|]. specialize (Hdom id).
    destruct (cl_nodes (rc_cluster rc') !! id) as [r'|]; [done|]. simpl. by rewrite (proj2 Hdom). }
  unfold observe. simpl. f_equal; [unfold set_nodes; simpl; f_equal|]; apply Hm.
Qed.

Lemma observed_run c rc q rc' :
  (forall id, stopped c id = false) -> harness_run (observe c rc) rc q -> rsteps rc rc' -> never_crashed rc' -> harness_run (observe c rc') rc' q.
Proof.
  intros Hst H. induction 1 as [|rc1 rc2 _ IH Hs]; [done|]. intros Hf. pose proof (never_crashed_before _ _ Hs Hf) as Hf1.
  rewrite <-(observe_twice c rc1 rc2) by (intros id; by eapply rstep_dom).
  eapply hr_step; [by apply IH|exact Hs|intros id Hid; specialize (Hst id); unfold stopped in *; simpl in Hid; congruence|exact Hf].
Qed.

(** C17. The consistency check of the tests does not fail: start a cluster of any
    size with NewCluster on a disk that works, let its nodes run and exchange
    messages in any way, and call StopNode and RestartNode on any of them any
    number of times, without AddMember and RemoveMember: at every point and for
    every order of the nodes, CheckConsistency finds no divergence in what the
    harness has recorded. *)
Theorem consistency_check_passes c rc q order :
  harness_run c rc q -> CheckConsistency order c = None.
Proof using Hproto Hfits.
  intros H. destruct (harness_record _ _ _ H) as (_ & _ & _ & _ & _ & Hag). unfold CheckConsistency.
  apply (check_nodes_spec _ _ _ _ []); [intros i d; rewrite lookup_empty; split; [done|by intros ?%not_elem_of_nil]|].
  intros e e' He He'. unfold all_applied in *. apply list_elem_of_bind in He as (id & He & _), He' as (id' & He' & _). eapply (Hag id id'); by left.
Qed.

End runs.

(** ** Leaders and shutdown *)

(** A loop that returns a value acted on the leader it saw last. *)
Lemma until_leader_some {A} turn (act : TestCluster -> N -> result (option A * TestCluster)) polls c a c' :
  until_leader turn act polls c = Ok (Some a, c') ->
  exists p c1 id, p ∈ polls /\ turn p c1 = Ok (Some id) /\ act c1 id = Ok (Some a, c').
Proof.
  revert c. induction polls as [|p polls IH]; intros c; cbn [until_leader]; [done|].
  destruct (turn p (elapse p c)) as [[id|]| |] eqn:Et; simpl; try done.
  - destruct (act (elapse p c) id) as [[[x|] c2]| |] eqn:Ea; simpl; try done.
    + intros [= -> ->]. exists p, (elapse p c), id. split; [by left|done].
    + intros (q & c1 & j & ? & ?)%IH. exists q, c1, j. split; [by right|done].
  - intros (q & c1 & j & ? & ?)%IH. exists q, c1, j. split; [by right|done].
Qed.

(** [id] is live, connected, and leads. *)
Definition leads (c : TestCluster) (id : N) (n : Node) : Prop :=
  tc_nodes c !! id = Some n /\ n_role n = leader /\ stopped c id = false /\ IsConnected (tc_Net c) id = true.

Lemma leader_turn_some p c id : leader_turn p c = Ok (Some id) -> live_leaders (po_order p) c = [id] /\ exists n, leads c id n.
Proof.
  unfold leader_turn. destruct (live_leaders (po_order p) c) as [|x [|y l]] eqn:E; simpl; intros [= ->].
  split; [done|]. assert (id ∈ live_leaders (po_order p) c) as Hin by (rewrite E; by left). apply list_elem_of_filter in Hin as [(H1 & H2 & H3) _].
  apply fmap_Some in H3 as (n & Hn & Hl). exists n. split_and!; try done.
  unfold is_leader, Status in Hl. simpl in Hl. symmetry in Hl. by apply bool_decide_eq_true in Hl.
Qed.

(** Leader answers only with the one live, connected node that leads at the moment
    of the check. *)
Theorem leader_is_single polls c id c' :
  Leader polls c = Ok (Some id, c') -> exists p n, p ∈ polls /\ live_leaders (po_order p) c' = [id] /\ leads c' id n.
Proof.
  intros (p & c1 & j & Hp & Ht & Ha)%until_leader_some. injection Ha as -> ->.
  apply leader_turn_some in Ht as [Hl [n Hn]]. by exists p, n.
Qed.

Lemma until_leader_ids {A} turn (act : TestCluster -> N -> result (option A * TestCluster)) polls c r c' :
  (forall c id r c', act c id = Ok (r, c') -> tc_IDs c' = tc_IDs c) -> until_leader turn act polls c = Ok (r, c') -> tc_IDs c' = tc_IDs c.
Proof.
  intros Hact. revert c. induction polls as [|p polls IH]; intros c; cbn [until_leader]; [by intros [= <- <-]|].
  destruct (turn p (elapse p c)) as [[id|]| |]; simpl; try done; [|by intros ->%IH].
  destruct (act (elapse p c) id) as [[[x|] c2]| |] eqn:Ea; simpl; try done; apply Hact in Ea.
  - intros [= <- <-]. exact Ea.
  - intros H. apply IH in H. rewrite H. exact Ea.
Qed.

Section members.
Context (Marshal : Entry -> bytes) (Unmarshal : bytes -> option Entry).

Lemma proposeConfChange_ids polls c cc c' : proposeConfChange Marshal polls c cc = Ok c' -> tc_IDs c' = tc_IDs c.
Proof.
  unfold proposeConfChange. destruct (until_leader _ _ _ _) as [[[u|] c1]| |] eqn:E; simpl; try done. intros [= <-]. revert E.
  apply until_leader_ids. intros c0 id r c2. unfold conf_change_on. destruct (tc_nodes c0 !! id) as [n|]; simpl; [|done].
  destruct (ProposeConfChange Marshal n cc) as [[r1 n1]|]; simpl; [|done]. by intros [= <- <-].
Qed.

(** Behind waitLeaderConf one node leads, and its membership is as asked. *)
Lemma waitLeaderConf_ok polls c ok c' :
  waitLeaderConf polls c ok = Ok c' -> tc_IDs c' = tc_IDs c /\ exists id n, leads c' id n /\ ok (n_conf n) = true.
Proof.
  unfold waitLeaderConf. destruct (until_leader _ _ _ _) as [[[u|] c1]| |] eqn:E; simpl; try done. intros [= <-]. split.
  - revert E. apply until_leader_ids. intros c0 id r c2. unfold conf_on. destruct (tc_nodes c0 !! id); simpl; [|done]. by intros [= <- <-].
  - apply until_leader_some in E as (p & c0 & id & _ & Ht & Ha). apply leader_turn_some in Ht as [_ [n Hn]]. exists id, n.
    unfold conf_on in Ha. rewrite (proj1 Hn) in Ha. simpl in Ha. destruct (ok (n_conf n)) eqn:Eo; [|done]. injection Ha as _ <-. done.
Qed.

Lemma changeMembership_ok ps c cc c' :
  cc_Type cc = CONF_CHANGE_ADD_NODE \/ cc_Type cc = CONF_CHANGE_REMOVE_NODE -> changeMembership Marshal ps c cc = Ok c' ->
  tc_IDs c' = tc_IDs c /\ exists id n, leads c' id n /\ InJoint (n_conf n) = false.
Proof.
  intros Hcc. unfold changeMembership. destruct (proposeConfChange Marshal (ch_enter ps) c cc) as [c1| |] eqn:E1; simpl; try done.
  apply proposeConfChange_ids in E1.
  assert ((cc_Type cc =? CONF_CHANGE_ADD_NODE)%Z || (cc_Type cc =? CONF_CHANGE_REMOVE_NODE)%Z = true) as -> by (by destruct Hcc as [-> | ->]).
  assert (negb (cc_Type cc =? CONF_CHANGE_LEAVE_JOINT)%Z = true) as -> by (by destruct Hcc as [-> | ->]).
  destruct (waitLeaderConf (ch_joint ps) c1 InJoint) as [c2| |] eqn:E2; simpl; try done. apply waitLeaderConf_ok in E2 as [E2 _].
  destruct (proposeConfChange Marshal (ch_leave ps) c2 _) as [c3| |] eqn:E3; simpl; try done. apply proposeConfChange_ids in E3.
  intros (E4 & id & n & Hl & Hj)%waitLeaderConf_ok. split; [congruence|]. exists id, n. split; [done|]. by apply negb_true_iff in Hj.
Qed.

Lemma waitConf_ok polls c id voters c' :
  waitConf polls c id voters = Ok c' ->
  tc_IDs c' = tc_IDs c /\ exists n, tc_nodes c' !! id = Some n /\ voters <= length (VoterIDs (n_conf n)) /\ InJoint (n_conf n) = false.
Proof.
  revert c. induction polls as [|p polls IH]; intros c; cbn [waitConf]; [done|].
  destruct (tc_nodes (elapse p c) !! id) as [n|] eqn:En; simpl; [|done].
  case_bool_decide as Hv; simpl; [|exact (IH _)]. destruct (InJoint (n_conf n)) eqn:Ej; simpl; [exact (IH _)|].
  intros [= <-]. split; [done|]. by exists n.
Qed.

(** When AddMember returns, the node is on the list of members, it runs with a
    membership of at least as many voters that is not in transition, and it was
    not a member before. *)
Theorem add_member_joins ck ps polls c id c' :
  AddMember Marshal Unmarshal ck ps polls c id = Ok c' ->
  id ∉ tc_IDs c /\ tc_IDs c' = tc_IDs c ++ [id] /\
  exists n, tc_nodes c' !! id = Some n /\ length (tc_IDs c') <= length (VoterIDs (n_conf n)) /\ InJoint (n_conf n) = false.
Proof.
  unfold AddMember. case_decide as Hin; [done|]. destruct (startNode _ _ _ _ _ _ _) as [c1| |] eqn:E1; simpl; try done.
  assert (tc_IDs c1 = tc_IDs c ++ [id]) as H1 by (unfold startNode in E1; destruct (NewNode _ _ _ _ _); simpl in E1; by simplify_eq).
  destruct (changeMembership _ _ _ _) as [c2| |] eqn:E2; simpl; try done. apply changeMembership_ok in E2 as [H2 _]; [|by left].
  intros (H3 & n & Hn & Hv & Hj)%waitConf_ok. split; [done|]. split; [congruence|]. exists n. split_and!; [done|congruence|done].
Qed.

End members.

Lemma StopNode_stopped c id c' :
  StopNode c id = Some c' ->
  tc_IDs c' = tc_IDs c /\ tc_applied c' = tc_applied c /\ tc_stopped c' = <[id := true]> (tc_stopped c) /\ net_nodes (tc_Net c') = delete id (net_nodes (tc_Net c)).
Proof.
  unfold StopNode. destruct (tc_nodes c !! id) as [n|]; [|done]. simpl. destruct (stopped c id); [done|].
  destruct (Stop n) as [n'|]; [|done]. simpl. by intros [= <-].
Qed.

Lemma stopAll_stopped c ids c' :
  stopAll c ids = Some c' ->
  (forall id, id ∈ ids -> stopped c' id = true /\ net_nodes (tc_Net c') !! id = None) /\
  (forall id, stopped c id = true -> stopped c' id = true) /\ tc_applied c' = tc_applied c /\
  (forall id, net_nodes (tc_Net c) !! id = None -> net_nodes (tc_Net c') !! id = None).
Proof.
  revert c. induction ids as [|id ids IH]; intros c; cbn [stopAll]; [intros [= <-]; split_and!; try done; by intros id ?%not_elem_of_nil|].
  destruct (StopNode c id) as [c1|] eqn:E; [|done]. simpl. intros H. apply StopNode_stopped in E as (_ & E2 & E3 & E4).
  destruct (IH c1 H) as (H1 & H2 & H3 & H4). assert (forall k, stopped c1 k = if decide (k = id) then true else stopped c k) as Hst.
  { intros k. unfold stopped. rewrite E3. case_decide; [subst; by rewrite lookup_insert_eq|by rewrite lookup_insert_ne]. }
  split_and!.
  - intros k [->|Hk]%elem_of_cons; [|by apply H1]. split; [apply H2; rewrite Hst; by rewrite decide_True|]. apply H4. rewrite E4. apply lookup_delete_eq.
  - intros k Hk. apply H2. rewrite Hst. by case_decide.
  - congruence.
  - intros k Hk. apply H4. rewrite E4. apply lookup_delete_None. by right.
Qed.

(** Shutdown stops every node of the cluster that is still running and takes it off
    the network, and keeps what was recorded. *)
Theorem shutdown_stops order c c' :
  Shutdown order c = Some c' ->
  (forall id, id ∈ order -> stopped c' id = true) /\
  (forall id, id ∈ order -> stopped c id = false -> net_nodes (tc_Net c') !! id = None) /\
  forall id, Applied c' id = Applied c id.
Proof.
  unfold Shutdown. intros (H1 & H2 & H3 & _)%stopAll_stopped. split_and!.
  - intros id Hid. destruct (stopped c id) eqn:E; [by apply H2|]. apply H1, list_elem_of_filter. done.
  - intros id Hid E. apply H1, list_elem_of_filter. done.
  - intros id. unfold Applied. by rewrite H3.
Qed.

(** ** Witnesses *)

(** The leader of the run above takes a command, and commits it with node 2. *)
Definition free1 : Node := clearInflight beat.2 2.
Definition rep_free : replication := next_rep rep8 1 free1 (rc_sent rep8) (rc_answers rep8).
Definition with_x : Node := node_of free1 (Node.Propose sample_Marshal free1 (str "x")).
Definition rep_x : replication := next_rep rep_free 1 with_x (rc_sent rep_free) (rc_answers rep_free).
Definition beat2 : list rpc * Node := default ([], with_x) (run_step (mkClock (4000 * Millisecond) 0) false with_x).
Definition rep_beat2 : replication :=
  mkReplication (mkCluster (with_node (rc_cluster rep_x) 1 beat2.2 false) (add_calls 1 beat2.1 (cl_calls (rc_cluster rep_x)))
    (own_votes 1 beat2.1 (cl_votes (rc_cluster rep_x)))) (messages 1 beat2.1 ++ rc_sent rep_x) (rc_answers rep_x).
Definition req_x : AppendEntriesRequest := mkAppendReq 1 1 1 1 [mkLogEntry 1 2 (str "x") ENTRY_NORMAL None] 1.
Definition has_x : Node := node_of applied2 (HandleAppendEntries sample_Marshal clock0 applied2 req_x).
Definition rep_has : replication := next_rep rep_beat2 2 has_x (rc_sent rep_beat2) ((1%N, 2%N, AnsAppend req_x first_resp) :: rc_answers rep_beat2).
Definition commits_x : Node := default beat2.2 (onAppendResponse clock0 beat2.2 2 req_x first_resp).
Definition rep_commit : replication := next_rep rep_has 1 commits_x (rc_sent rep_has) (rc_answers rep_has).

Lemma rep_run_x : runs rep8 rep_commit.
Proof.
  eapply rsteps_step; [eapply rsteps_step; [eapply rsteps_step; [eapply rsteps_step; [eapply rsteps_step; [constructor|]|]|]|]|].
  - apply (rs_local _ _ _ _ _ rep8 1 (mkReplica beat.2 false) clock0 (EvSent 2) OutNone free1); [vm_compute; reflexivity|done|done|done|reflexivity|done].
  - apply (rs_local _ _ _ _ _ rep_free 1 (mkReplica free1 false) clock0 (EvPropose (str "x")) (OutPropose (inr (2%N, 1%N))) with_x);
      [vm_compute; reflexivity|done| |done|vm_compute; reflexivity|discriminate]. repeat split; vm_compute; reflexivity.
  - apply (rs_run _ _ _ _ _ rep_x 1 (mkReplica with_x false) (mkClock (4000 * Millisecond) 0) false beat2.1 beat2.2); vm_compute; reflexivity.
  - apply (rs_append _ _ _ _ _ rep_beat2 1 2 req_x (mkReplica applied2 false) clock0 first_resp has_x).
    + replace (rc_sent rep_beat2) with ((1%N, 2%N, MsgAppend req_x) :: rc_sent rep8) by (vm_compute; reflexivity). by left.
    + vm_compute; reflexivity.
    + vm_compute; reflexivity.
    + vm_compute; reflexivity.
  - apply (rs_acked _ _ _ _ _ rep_has 1 2 req_x first_resp (mkReplica beat2.2 false) clock0 commits_x); [by left|vm_compute; reflexivity|vm_compute; reflexivity].
Qed.

(** The harness runs these nodes: node 1 hands its two entries over, they are
    recorded, and node 2 is stopped and restarted. *)
Definition x_msgs : list ApplyMsg := [CommandMsg [] 1 1; CommandMsg (str "x") 2 1].
Definition a_harness : TestCluster := mkTestCluster NewSimNetwork [1; 2; 3]%N ∅ ∅ ∅.
Definition test0 : TestCluster := match NewCluster sample_Unmarshal clock0 3 with Ok c => c | _ => a_harness end.
Definition after_x : Node := match applier commits_x with Some (_, n) => n | None => commits_x end.
Definition test1 : TestCluster := observe (observe test0 rep_commit) (next_node rep_commit 1 after_x).
Definition test2 : TestCluster := set_applied test1 (record_msg 1 (tc_applied test1) (CommandMsg [] 1 1)).
Definition test3 : TestCluster := set_applied test2 (record_msg 1 (tc_applied test2) (CommandMsg (str "x") 2 1)).
Definition test4 : TestCluster := default test3 (StopNode test3 2).
Definition stopped2 : Node := default has_x (tc_nodes test4 !! 2%N).
Definition stopped2_wal : WAL := default (mkWAL (Bufio.NewWriter empty_file) 0) (ds_wal (n_store stopped2)).
Definition test5 : TestCluster :=
  match RestartNode sample_Unmarshal clock0 test4 2 (ds_files (n_store stopped2)) (Some (reopen (wal_file stopped2_wal))) with Ok c => c | _ => test4 end.
Definition restarted2 : Node := default stopped2 (tc_nodes test5 !! 2%N).

Abbreviation sample_harness := (harness_run sample_Marshal sample_Unmarshal 3).

Lemma three_fits : conf_fits (NewConfState (N.of_nat <$> seq 1 3)).
Proof. destruct voter0_fits as [_ _ H _]. exact H. Qed.

Lemma test1_run : sample_harness test1 (next_node rep_commit 1 after_x) (pair 1%N <$> x_msgs).
Proof.
  apply (hr_apply _ _ _ (observe test0 rep_commit) rep_commit [] 1 commits_x x_msgs after_x); [|vm_compute; reflexivity..].
  apply (observed_run _ _ _ test0 rep0); [intros id; unfold stopped; assert (tc_stopped test0 = <[1%N := false]> (<[2%N := false]> {[3%N := false]})) as -> by (vm_compute; reflexivity)| | |].
  - destruct (decide (id = 1%N)) as [->|]; [done|]. rewrite lookup_insert_ne by done. destruct (decide (id = 2%N)) as [->|]; [done|].
    rewrite lookup_insert_ne by done. destruct (decide (id = 3%N)) as [->|]; [done|]. by rewrite lookup_singleton_ne.
  - assert (observe test0 rep0 = test0) as -> by (vm_compute; reflexivity). assert (rep0 = rep_of test0) as -> by (vm_compute; reflexivity).
    apply (hr_new _ _ _ clock0). vm_compute; reflexivity.
  - eapply rsteps_trans; [apply rep_run5|]. eapply rsteps_trans; [apply rep_run8|apply rep_run_x].
  - intros id r Hr. assert (Forall (fun x => rp_restarted x.2 = false) (map_to_list (cl_nodes (rc_cluster rep_commit)))) as Hall.
    { apply (Forall_impl (fun x => Is_true (negb (rp_restarted x.2)))); [apply forallb_True; vm_compute; exact I|]. intros x Hx. by destruct (rp_restarted x.2). }
    eapply Forall_forall in Hall; [|by apply elem_of_map_to_list, Hr]. exact Hall.
Qed.

Lemma test5_run : sample_harness test5 (next_node (next_node rep_commit 1 after_x) 2 restarted2) [].
Proof.
  eapply (hr_restart _ _ _ test4 _ [] 2 stopped2 stopped2_wal clock0); [|vm_compute; reflexivity..].
  eapply (hr_stop _ _ _ test3 _ [] 2); [|vm_compute; reflexivity].
  apply (hr_drain _ _ _ test2 _ [] 1 (CommandMsg (str "x") 2 1) []). apply (hr_drain _ _ _ test1 _ [] 1 (CommandMsg [] 1 1) [(1%N, CommandMsg (str "x") 2 1)]).
  exact test1_run.
Qed.

Lemma consistency_check_passes_witness :
  Applied test5 1 = [mkApplied 2 (str "x")] /\ stopped test4 2 = true /\ stopped test5 2 = false /\ CheckConsistency [3; 1; 2]%N test5 = None.
Proof.
  split; [vm_compute; reflexivity|]. split; [vm_compute; reflexivity|]. split; [vm_compute; reflexivity|].
  exact (consistency_check_passes sample_Marshal sample_Unmarshal sample_roundtrip 3 three_fits test5 _ [] [3; 1; 2]%N test5_run).
Defined.

(** A cluster of two, one of them stopped. *)
Definition two_nodes : TestCluster :=
  match NewCluster sample_Unmarshal clock0 2 with Ok c => c | _ => a_harness end.
Definition half_stopped : TestCluster := default two_nodes (StopNode two_nodes 1).

Lemma shutdown_stops_witness :
  exists c', Shutdown [2; 1]%N half_stopped = Some c' /\ stopped c' 1 = true /\ stopped c' 2 = true /\ net_nodes (tc_Net c') !! 2%N = None.
Proof.
  destruct (Shutdown [2; 1]%N half_stopped) as [c'|] eqn:E.
  - exists c'. split; [reflexivity|]. destruct (shutdown_stops _ _ _ E) as (H1 & H2 & _).
    split; [apply H1; right; left|]. split; [apply H1; left|]. apply H2; [left|vm_compute; reflexivity].
  - exfalso. assert (Shutdown [2; 1]%N half_stopped <> None) as Hne; [|by apply Hne].
    vm_compute. discriminate.
Defined.
