(* ===== verification/StateMachine.v ===== *)
(** server/statemachine.go: the replicated state machine. It is written against
    the interface of the storage engine it calls, and its theorems are proved
    against that interface's laws. *)

From S2P Require Import Prelude Bytes GoIO Memtable Layers.

(** ** The engine, as the state machine sees it *)

(** The operations of storage.Engine that statemachine.go calls. [None] is a
    run-time panic; the list of numbers feeds the skiplist's random heights. *)
Class KVEngine (E : Type) := {
  kv_Put : E -> bytes -> bytes -> list N -> option (option error * E);
  kv_Delete : E -> bytes -> list N -> option (option error * E);
  kv_Get : E -> bytes -> result (option bytes);
  kv_SnapshotEntries : E -> result (gmap bytes bytes);
  kv_Reset : E -> list (bytes * bytes * list N) -> bool -> option (option error * E)
}.

(** What they promise: [kv_rep e m] says that a healthy engine [e] holds the map
    [m]; [kv_may] are the writes the engine's capacity is sized for. A call on a
    healthy engine returns, and without an error it has its effect. *)
Class KVSpec (E : Type) {KV : KVEngine E} := {
  kv_rep : E -> gmap bytes bytes -> Prop;
  kv_may : kvEntry -> Prop;
  kv_Put_spec e m k v rs : kv_rep e m -> kv_may (mkEntry k v false) ->
    exists err e', kv_Put e k v rs = Some (err, e') /\ (err = None -> kv_rep e' (<[k := v]> m));
  kv_Delete_spec e m k rs : kv_rep e m -> kv_may (mkEntry k [] true) ->
    exists err e', kv_Delete e k rs = Some (err, e') /\ (err = None -> kv_rep e' (delete k m));
  kv_Get_spec e m k : kv_rep e m -> kv_Get e k = Ok (m !! k);
  kv_SnapshotEntries_spec e m : kv_rep e m -> kv_SnapshotEntries e = Ok m;
  kv_Reset_spec e m m' xs absent : kv_rep e m -> fst <$> xs ≡ₚ map_to_list m' ->
    Forall (fun x => kv_may (mkEntry x.1.1 x.1.2 false)) xs ->
    exists err e', kv_Reset e xs absent = Some (err, e') /\ (err = None -> kv_rep e' m')
}.

(** ** encoding/gob *)

(** Encoding and decoding of one type: what is encoded is decoded to itself, and
    a stream is never empty (it starts with a type description). *)
Class Gob (A : Type) := {
  gob_Encode : A -> option bytes;
  gob_Decode : bytes -> option A;
  gob_roundtrip a b : gob_Encode a = Some b -> gob_Decode b = Some a;
  gob_nonempty a b : gob_Encode a = Some b -> b <> []
}.

(** ** Commands *)

Record Command := mkCommand {
  c_Op : bytes;
  c_Key : bytes;
  c_Value : bytes;
  c_ClientID : bytes;
  c_Seq : N
}.

(** What is serialized into a Raft snapshot; the map of sequence numbers can be
    nil after a decode. *)
Record snapshotState := mkSnapshotState {
  st_Data : gmap bytes bytes;
  st_LastSeq : option (gmap bytes N)
}.

Definition gobErr : error := Errorf (str "gob").

Section commands.
Context {GC : Gob Command}.

Definition encodeCommand (c : Command) : sum error bytes :=
  match gob_Encode c with Some b => inr b | None => inl gobErr end.

Definition decodeCommand (b : bytes) : sum error Command :=
  match gob_Decode b with Some c => inr c | None => inl gobErr end.

End commands.

(** ** The state machine *)

Section machine.
Context {E : Type} {KV : KVEngine E} {GS : Gob snapshotState}.

Record stateMachine := mkSM {
  sm_engine : E;
  sm_lastSeq : gmap bytes N
}.

Definition newStateMachine (engine : E) : stateMachine := mkSM engine ∅.

(** m[k] of a map to uint64. *)
Definition seq_of (m : gmap bytes N) (k : bytes) : N := default 0%N (m !! k).

(** The test for a retry that was applied already. *)
Definition duplicate (lastSeq : gmap bytes N) (c : Command) : bool :=
  negb (bytes_eqb (c_ClientID c) []) && (0 <? c_Seq c)%N && (c_Seq c <=? seq_of lastSeq (c_ClientID c))%N.

(** fmt.Errorf("unknown op %q", c.Op), for an op of printable characters other than
    quotes and backslashes, which %q would escape. *)
Definition unknownOp (op : bytes) : error := Errorf (str "unknown op " ++ [x22] ++ op ++ [x22]).

Definition apply (sm : stateMachine) (c : Command) (rs : list N) : option (option error * stateMachine) :=
  if duplicate (sm_lastSeq sm) c then Some (None, sm)
  else
    '(err, e) ←
      (if bytes_eqb (c_Op c) (str "put") then kv_Put (sm_engine sm) (c_Key c) (c_Value c) rs
       else if bytes_eqb (c_Op c) (str "delete") then kv_Delete (sm_engine sm) (c_Key c) rs
       else Some (Some (unknownOp (c_Op c)), sm_engine sm));
    match err with
    | Some er => Some (Some er, mkSM e (sm_lastSeq sm))
    | None =>
        Some (None, mkSM e (if bytes_eqb (c_ClientID c) [] then sm_lastSeq sm
                            else <[c_ClientID c := c_Seq c]> (sm_lastSeq sm)))
    end.

Definition get (sm : stateMachine) (key : bytes) : result (option bytes) := kv_Get (sm_engine sm) key.

Definition snapshot (sm : stateMachine) : result bytes :=
  let* data := kv_SnapshotEntries (sm_engine sm) in
  match gob_Encode (mkSnapshotState data (Some (sm_lastSeq sm))) with
  | Some b => Ok b
  | None => Err gobErr
  end.

(** restore; [order] is the order in which Reset's range visits the decoded map,
    with the random heights of each put. *)
Definition restore (sm : stateMachine) (snap : bytes) (order : gmap bytes bytes -> list (bytes * bytes * list N))
    (absent : bool) : option (option error * stateMachine) :=
  match gob_Decode snap with
  | None => Some (Some gobErr, sm)
  | Some st =>
      '(err, e) ← kv_Reset (sm_engine sm) (order (st_Data st)) absent;
      match err with
      | Some er => Some (Some er, mkSM e (sm_lastSeq sm))
      | None => Some (None, mkSM e (default ∅ (st_LastSeq st)))
      end
  end.

End machine.
Arguments stateMachine E : clear implicits.

(** ** Specification *)

(** The abstract state: the key-value map and the last sequence numbers. *)
Definition kvstate : Type := gmap bytes bytes * gmap bytes N.

Definition valid_op (c : Command) : Prop := c_Op c = str "put" \/ c_Op c = str "delete".

(** The write a command stands for. *)
Definition command_entry (c : Command) : kvEntry :=
  if bytes_eqb (c_Op c) (str "put") then mkEntry (c_Key c) (c_Value c) false else mkEntry (c_Key c) [] true.

Definition spec_apply (s : kvstate) (c : Command) : kvstate :=
  if duplicate s.2 c then s
  else (apply_entry (command_entry c) s.1,
        if bytes_eqb (c_ClientID c) [] then s.2 else <[c_ClientID c := c_Seq c]> s.2).

Section refinement.
Context {E : Type} {KV : KVEngine E} {KS : KVSpec E} {GS : Gob snapshotState}.

Definition sm_rep (sm : stateMachine E) (s : kvstate) : Prop := kv_rep (sm_engine sm) s.1 /\ sm_lastSeq sm = s.2.

Lemma apply_spec sm s c rs :
  sm_rep sm s -> valid_op c -> kv_may (command_entry c) ->
  exists err sm', apply sm c rs = Some (err, sm') /\ (err = None -> sm_rep sm' (spec_apply s c)).
Proof.
  intros [Hr Hs] Hv Hm. unfold apply, spec_apply. rewrite Hs. destruct (duplicate s.2 c).
  { do 2 eexists. split; [done|]. intros _. by split. }
  unfold command_entry in *. destruct Hv as [Hop|Hop]; rewrite Hop in *; simpl in *.
  - destruct (kv_Put_spec (sm_engine sm) s.1 (c_Key c) (c_Value c) rs Hr Hm) as (err & e' & -> & He). simpl.
    destruct err; do 2 eexists; (split; [done|]); [done|]. intros _. by split; [apply He|].
  - destruct (kv_Delete_spec (sm_engine sm) s.1 (c_Key c) rs Hr Hm) as (err & e' & -> & He). simpl.
    destruct err; do 2 eexists; (split; [done|]); [done|]. intros _. by split; [apply He|].
Qed.

(** Commands one after the other, each with the random heights of its put, as
    long as they return nil. *)
Fixpoint apply_all (sm : stateMachine E) (cs : list (Command * list N)) : option (option error * stateMachine E) :=
  match cs with
  | [] => Some (None, sm)
  | (c, rs) :: cs =>
      '(err, sm) ← apply sm c rs;
      match err with Some er => Some (Some er, sm) | None => apply_all sm cs end
  end.

Lemma apply_all_spec sm s cs :
  sm_rep sm s -> Forall (fun x => valid_op x.1 /\ kv_may (command_entry x.1)) cs ->
  exists err sm', apply_all sm cs = Some (err, sm') /\ (err = None -> sm_rep sm' (foldl spec_apply s (fst <$> cs))).
Proof.
  revert sm s. induction cs as [|[c rs] cs IH]; intros sm s Hr Hall; [by do 2 eexists|].
  apply Forall_cons in Hall as [[Hv Hm] Hall]. cbn [apply_all].
  destruct (apply_spec sm s c rs Hr Hv Hm) as (err & sm1 & -> & H1). cbn [mbind option_bind].
  destruct err; [by do 2 eexists|]. apply IH; [by apply H1|done].
Qed.

(** The state machine implements its specification on any engine that satisfies
    the interface: a sequence of put and delete commands either stops at an
    engine error or leaves the machine with exactly the map and the sequence
    numbers of the specification, and reads return the values of that map. *)
Theorem state_machine_refines sm s cs :
  sm_rep sm s -> Forall (fun x => valid_op x.1 /\ kv_may (command_entry x.1)) cs ->
  exists err sm', apply_all sm cs = Some (err, sm') /\
    (err = None -> sm_rep sm' (foldl spec_apply s (fst <$> cs)) /\
       forall k, get sm' k = Ok ((foldl spec_apply s (fst <$> cs)).1 !! k)).
Proof.
  intros Hr Hall. destruct (apply_all_spec sm s cs Hr Hall) as (err & sm' & E' & H). exists err, sm'. split; [done|].
  intros He. specialize (H He). split; [done|]. intros k. apply kv_Get_spec, H.
Qed.

(** [order] visits every pair of the map once. *)
Definition is_order (order : gmap bytes bytes -> list (bytes * bytes * list N)) : Prop :=
  forall m, fst <$> order m ≡ₚ map_to_list m.

(** C23. A snapshot carries the whole state: what one machine serializes, another
    restores (whatever it held before) to the same key-value map and the same
    sequence numbers, so later retries are recognised by the restored machine
    too. *)
Theorem snapshot_restore sm s b sm2 s2 order absent :
  sm_rep sm s -> sm_rep sm2 s2 -> is_order order -> (forall k v, s.1 !! k = Some v -> kv_may (mkEntry k v false)) ->
  snapshot sm = Ok b ->
  exists err sm', restore sm2 b order absent = Some (err, sm') /\ (err = None -> sm_rep sm' s).
Proof.
  intros [Hr Hs] [Hr2 _] Ho Hm. unfold snapshot, restore. rewrite (kv_SnapshotEntries_spec _ _ Hr). cbn [rbind].
  destruct (gob_Encode _) as [b'|] eqn:Eg; [|done]. intros [= <-]. rewrite (gob_roundtrip _ _ Eg). cbn [st_Data st_LastSeq default].
  destruct (kv_Reset_spec (sm_engine sm2) s2.1 s.1 (order s.1) absent Hr2 (Ho s.1)) as (err & e' & -> & He).
  - apply Forall_forall. intros [[k v] rs] Hx. simpl. apply Hm. apply elem_of_map_to_list. rewrite <-(Ho s.1).
    apply list_elem_of_fmap. by exists (k, v, rs).
  - simpl. destruct err; do 2 eexists; (split; [done|]); [done|]. intros _. split; [by apply He|done].
Qed.

End refinement.

(** ** At most once *)

(** A command of a client that numbers its requests. *)
Definition numbered (c : Command) : Prop := c_ClientID c <> [] /\ (0 < c_Seq c)%N.

Definition request_id (c : Command) : bytes * N := (c_ClientID c, c_Seq c).

(** The commands of a log that take effect. *)
Fixpoint executed (lastSeq : gmap bytes N) (cs : list Command) : list Command :=
  match cs with
  | [] => []
  | c :: cs =>
      if duplicate lastSeq c then executed lastSeq cs
      else c :: executed (if bytes_eqb (c_ClientID c) [] then lastSeq else <[c_ClientID c := c_Seq c]> lastSeq) cs
  end.

Lemma duplicate_numbered q c : numbered c -> duplicate q c = (c_Seq c <=? seq_of q (c_ClientID c))%N.
Proof.
  intros [Hc Hs]. unfold duplicate. destruct (bytes_eqb_spec (c_ClientID c) []); [done|].
  by rewrite (proj2 (N.ltb_lt _ _) Hs).
Qed.

Lemma seq_of_insert q k n k' : seq_of (<[k := n]> q) k' = if decide (k = k') then n else seq_of q k'.
Proof. unfold seq_of. case_decide as H; [subst; by rewrite lookup_insert_eq|by rewrite lookup_insert_ne]. Qed.

Lemma executed_numbered q c cs :
  numbered c -> executed q (c :: cs) =
    if (c_Seq c <=? seq_of q (c_ClientID c))%N then executed q cs else c :: executed (<[c_ClientID c := c_Seq c]> q) cs.
Proof.
  intros Hn. cbn [executed]. rewrite duplicate_numbered by done. destruct (bytes_eqb_spec (c_ClientID c) []) as [E|]; [by destruct Hn|done].
Qed.

Lemma spec_run_executed s cs :
  (foldl spec_apply s cs).1 = foldl (fun m c => apply_entry (command_entry c) m) s.1 (executed s.2 cs).
Proof.
  revert s. induction cs as [|c cs IH]; intros s; [done|]. cbn [foldl executed]. rewrite IH. unfold spec_apply.
  by destruct (duplicate s.2 c).
Qed.

(** Executed commands of a client are above its last sequence number. *)
Lemma executed_above q cs c : Forall numbered cs -> c ∈ executed q cs -> (seq_of q (c_ClientID c) < c_Seq c)%N.
Proof.
  intros Hall. revert q. induction Hall as [|x cs Hx _ IH]; intros q; [by intros ?%not_elem_of_nil|].
  rewrite executed_numbered by done. destruct (N.leb_spec (c_Seq x) (seq_of q (c_ClientID x))); [by apply IH|].
  rewrite elem_of_cons. intros [->|H1]; [done|]. apply IH in H1. rewrite seq_of_insert in H1. case_decide as Hd; [|done]. rewrite <-Hd. lia.
Qed.

(** Sequence numbers only grow. *)
Lemma spec_seq_mono s cs k : Forall numbered cs -> (seq_of s.2 k <= seq_of (foldl spec_apply s cs).2 k)%N.
Proof.
  intros Hall. revert s. induction Hall as [|x cs Hx _ IH]; intros s; [done|]. cbn [foldl]. etrans; [|apply IH].
  unfold spec_apply. rewrite duplicate_numbered by done. destruct (N.leb_spec (c_Seq x) (seq_of s.2 (c_ClientID x))); [done|].
  simpl. destruct (bytes_eqb _ _); [done|]. rewrite seq_of_insert. case_decide; [subst; lia|done].
Qed.

Lemma spec_seq_seen s cs c : Forall numbered cs -> c ∈ cs -> (c_Seq c <= seq_of (foldl spec_apply s cs).2 (c_ClientID c))%N.
Proof.
  intros Hall Hc. apply list_elem_of_split in Hc as (l1 & l2 & ->). apply Forall_app in Hall as [H1 H2]. apply Forall_cons in H2 as [Hc H2].
  rewrite foldl_app. cbn [foldl]. etrans; [|by apply spec_seq_mono]. set (s1 := foldl spec_apply s l1). unfold spec_apply.
  rewrite duplicate_numbered by done. destruct (N.leb_spec (c_Seq c) (seq_of s1.2 (c_ClientID c))); [done|]. simpl.
  destruct (bytes_eqb_spec (c_ClientID c) []); [by destruct Hc|]. rewrite seq_of_insert. by rewrite decide_True.
Qed.

(** The same of the specification alone. *)
Lemma spec_at_most_once s cs :
  Forall numbered cs ->
  (foldl spec_apply s cs).1 = foldl (fun m c => apply_entry (command_entry c) m) s.1 (executed s.2 cs) /\
  NoDup (request_id <$> executed s.2 cs) /\
  (forall pre c post, cs = pre ++ c :: post -> (seq_of s.2 (c_ClientID c) < c_Seq c)%N ->
     (forall c', c' ∈ pre -> c_ClientID c' = c_ClientID c -> (c_Seq c' < c_Seq c)%N) -> c ∈ executed s.2 cs) /\
  (forall c, c ∈ cs -> spec_apply (foldl spec_apply s cs) c = foldl spec_apply s cs).
Proof.
  intros Hall. split; [apply spec_run_executed|]. split; [|split].
  - revert s. induction Hall as [|x cs Hx Hcs IH]; intros s; [constructor|]. rewrite executed_numbered by done.
    destruct (N.leb_spec (c_Seq x) (seq_of s.2 (c_ClientID x))); [apply (IH s)|]. rewrite fmap_cons. constructor; [|apply (IH (s.1, _))].
    intros (y & Ey & Hy)%list_elem_of_fmap. apply executed_above in Hy; [|done]. unfold request_id in Ey. injection Ey as E1 E2.
    rewrite seq_of_insert, decide_True in Hy by done. lia.
  - intros pre c post -> Hlt Hpre. apply Forall_app in Hall as [Hp Hall]. apply Forall_cons in Hall as [Hc _].
    revert s Hlt Hpre. induction Hp as [|x pre Hx Hp IH]; intros s Hlt Hpre; cbn [app].
    + rewrite executed_numbered by done. rewrite (proj2 (N.leb_gt _ _)) by done. by left.
    + rewrite executed_numbered by done. destruct (N.leb_spec (c_Seq x) (seq_of s.2 (c_ClientID x))).
      * apply IH; [done|]. intros c' H1. apply Hpre. by right.
      * apply elem_of_cons. right. refine (IH (s.1, <[c_ClientID x := c_Seq x]> s.2) _ _).
        -- simpl. rewrite seq_of_insert. case_decide as Hd; [|done]. apply Hpre; [by left|done].
        -- intros c' H1. apply Hpre. by right.
  - intros c Hc. pose proof (spec_seq_seen s cs c Hall Hc) as Hle. assert (numbered c) as Hn by (by eapply Forall_forall in Hall).
    unfold spec_apply at 1. rewrite duplicate_numbered by done. by rewrite (proj2 (N.leb_le _ _)).
Qed.

Section machine_once.
Context {E : Type} {KV : KVEngine E} {KS : KVSpec E}.

(** C7. At most once: a machine that applies a log of numbered commands, retries
    included, without an engine error, holds the map of the commands that took
    effect, applied in log order; no request takes effect twice; applying any
    command of the log again answers nil and leaves the machine as it is. And a
    request takes effect when every earlier command of its client in the log has
    a smaller number: one that is overtaken by a later request of its client
    never does ([concurrent_write_lost]). *)
Theorem at_most_once (sm : stateMachine E) s (log : list (Command * list N)) :
  let cs := fst <$> log in
  sm_rep sm s -> Forall (fun x => valid_op x.1 /\ kv_may (command_entry x.1)) log -> Forall numbered cs ->
  exists err sm', apply_all sm log = Some (err, sm') /\ (err = None ->
    (forall k, get sm' k = Ok (foldl (fun m c => apply_entry (command_entry c) m) s.1 (executed s.2 cs) !! k)) /\
    NoDup (request_id <$> executed s.2 cs) /\
    (forall pre c post, cs = pre ++ c :: post -> (seq_of s.2 (c_ClientID c) < c_Seq c)%N ->
       (forall c', c' ∈ pre -> c_ClientID c' = c_ClientID c -> (c_Seq c' < c_Seq c)%N) -> c ∈ executed s.2 cs) /\
    (forall c rs, c ∈ cs -> apply sm' c rs = Some (None, sm'))).
Proof.
  intros cs Hr Hall Hn. destruct (apply_all_spec sm s log Hr Hall) as (err & sm' & Ha & H'). exists err, sm'. split; [done|].
  intros He. destruct (H' He) as [Hk Hq]. destruct (spec_at_most_once s cs Hn) as (Hm & Hnd & Hin & _).
  split_and!; [intros k; rewrite <-Hm; by apply kv_Get_spec|done|done|].
  intros c rs Hc. unfold apply. rewrite Hq, duplicate_numbered by (by eapply Forall_forall in Hn).
  by rewrite (proj2 (N.leb_le _ _)) by (by apply spec_seq_seen).
Qed.

End machine_once.

(** ** Two ways out of it *)

Definition put_cmd (k v client : bytes) (seq : N) : Command := mkCommand (str "put") k v client seq.

(** A write acknowledged and lost: when two requests of one client are in
    flight together and the later one is committed first, the earlier one is
    taken for a retry: it is answered as a success (nil) and never applied. *)
Theorem concurrent_write_lost {E} {KV : KVEngine E} (sm : stateMachine E) k v client n m rs :
  client <> [] -> (0 < n)%N -> (n < m)%N -> sm_lastSeq sm !! client = Some m ->
  apply sm (put_cmd k v client n) rs = Some (None, sm).
Proof.
  intros Hc Hn Hlt Hm. unfold apply. rewrite duplicate_numbered by done. simpl. unfold seq_of. rewrite Hm. simpl.
  by rewrite (proj2 (N.leb_le _ _)) by lia.
Qed.

(** A request without a number (Seq 0) from a named client forgets the client's
    history: a retry of an earlier request is then executed a second time, over
    the newer value. *)
Theorem unnumbered_request_forgets s client :
  client <> [] ->
  (foldl spec_apply s [put_cmd (str "x") (str "old") client (seq_of s.2 client + 1);
                       put_cmd (str "x") (str "new") client 0;
                       put_cmd (str "x") (str "old") client (seq_of s.2 client + 1)]).1 !! str "x" = Some (str "old").
Proof.
  intros Hc. cbn [foldl]. set (n := (seq_of s.2 client + 1)%N).
  assert (bytes_eqb client [] = false) as Eb by (by destruct (bytes_eqb_spec client [])).
  unfold spec_apply at 3. rewrite duplicate_numbered by (split; [done|simpl; unfold n; lia]). simpl.
  rewrite (proj2 (N.leb_gt _ _)) by (unfold n; lia). rewrite Eb. unfold spec_apply at 2, duplicate. simpl. rewrite Eb. simpl.
  unfold spec_apply. rewrite duplicate_numbered by (split; [done|simpl; unfold n; lia]). simpl.
  rewrite seq_of_insert, decide_True by done. rewrite (proj2 (N.leb_gt _ _)) by (unfold n; lia). exact (lookup_insert_eq _ (str "x") (str "old")).
Qed.
