(* ===== verification/EngineInstance.v ===== *)
(** The storage engine behind the state machine: the LSM engine satisfies the
    interface of StateMachine.v, so the state machine's theorems hold of the
    program's own engine. *)

From S2P Require Import Prelude Bytes GoIO Wal Memtable SSTable Engine Layers EngineCorrect StateMachine StorageCorrect.
Import Engine.

#[global] Instance engine_KV : KVEngine Engine := {|
  kv_Put := Put;
  kv_Delete := Delete;
  kv_Get := Get;
  kv_SnapshotEntries := SnapshotEntries;
  kv_Reset := Reset
|}.

(** ** The log stays open behind a call that returns nil *)

Lemma write_and_open_wal e es r e' : write_and_open e es = Some (r, e') -> e_wal e' = e_wal e.
Proof.
  unfold write_and_open. destruct (dir_call e) as [o1 e1] eqn:E1. apply dir_call_same in E1 as [[W1 _ _ _ _ _] _].
  destruct (dir_call e1) as [o2 e2] eqn:E2. apply dir_call_same in E2 as [[W2 _ _ _ _ _] _].
  destruct (writeSSTable o1 o2 es) as [err f]. set (e3 := match f with Some f => _ | None => e2 end).
  assert (e_wal e3 = e_wal e) as W3 by (subst e3; destruct f; simpl; congruence).
  destruct err as [er|]; [by intros [= <- <-]|]. destruct f as [f|]; [|by intros [= <- <-]].
  destruct (dir_call e3) as [o4 e4] eqn:E4. apply dir_call_same in E4 as [[W4 _ _ _ _ _] _].
  destruct o4; [|intros [= <- <-]; congruence]. destruct (openSSTable _ _); [| |done]; intros [= <- <-]; congruence.
Qed.

Lemma compact_wal e err e' : compactLocked e = Some (err, e') -> e_wal e' = e_wal e.
Proof.
  unfold compactLocked. destruct (merge_tables _) as [merged|er|]; [|by intros [= <- <-]|done].
  destruct (write_and_open _ _) as [[[er|t] e1]|] eqn:E; [| |done]; apply write_and_open_wal in E; intros [= <- <-]; [done|].
  rewrite (ss_wal _ _ (remove_tables_same _ _)). done.
Qed.

Lemma flush_wal e e' : e_wal e <> None -> flushLocked e = Some (None, e') -> e_wal e' <> None.
Proof.
  intros Hw. unfold flushLocked. destruct (Memtable.entries (e_mem e)) as [[|x es]|]; [by intros [= <-]| |done]. cbn [mbind option_bind].
  destruct (write_and_open _ _) as [[[er|t] e1]|]; [done| |done]. cbn [mbind option_bind].
  destruct (e_wal (set_tables _ _ _)) as [w|]; [|done]. cbn [mbind option_bind]. destruct (Close w) as [[er|] w1]; [done|].
  destruct (dir_call _) as [[|k] e3]; [|done]. destruct (OpenWAL _) as [[w2|er|] f2]; [|done|done].
  case_bool_decide; [intros Hc%compact_wal; by rewrite Hc|by intros [= <-]].
Qed.

Lemma write_wal e k v t rs e' : e_wal e <> None -> write e k v t rs = Some (None, e') -> e_wal e' <> None.
Proof.
  intros Hw. unfold write. destruct (e_wal e) as [w|]; [|done]. cbn [mbind option_bind].
  destruct (Append w _) as [[er|] w1]; [done|]. destruct (if e_syncWAL _ then _ else _) as [[er|] w2]; [done|].
  destruct (Memtable.put _ _ _ _ _) as [m|]; [|done]. cbn [mbind option_bind].
  destruct (_ <=? _)%Z; [by apply flush_wal|by intros [= <-]].
Qed.

Lemma Reset_wal e xs absent e' : Reset e xs absent = Some (None, e') -> e_wal e' <> None.
Proof.
  unfold Reset. destruct (e_wal _) as [w|]; [|done]. cbn [mbind option_bind]. destruct (Close w) as [[er|] w1]; [done|].
  destruct (dir_call _) as [o e3]. destruct (match o with Done => true | FailAfter _ => absent end); [|done].
  destruct (OpenWAL _) as [[w2|er|] f2]; [|done|done]. destruct (reset_loop _ _ _) as [[[er|] [w3 m]]|]; [done| |done]. cbn [mbind option_bind].
  destruct (Sync w3) as [err w4]. by intros [= -> <-].
Qed.

(** ** Contents of a Reset *)

Lemma reset_contents xs m0 :
  NoDup (fst <$> (fst <$> xs)) ->
  foldl (fun m x => apply_entry x m) m0 (reset_entry <$> xs) = list_to_map (fst <$> xs) ∪ m0.
Proof.
  revert m0. induction xs as [|[[k v] rs] xs IH]; intros m0 Hnd; [symmetry; apply map_empty_union|].
  cbn in Hnd. apply NoDup_cons in Hnd as [Hk Hnd]. change (reset_entry <$> (k, v, rs) :: xs) with (mkEntry k v false :: (reset_entry <$> xs)).
  cbn [foldl]. rewrite IH by done. unfold apply_entry. cbn. rewrite <-insert_union_l, insert_union_r; [done|].
  by apply not_elem_of_list_to_map_1.
Qed.

Section history.

(** [hs]: every entry the engine will be given. *)
Context (hs : list kvEntry) (Hfits : Forall fits_entry hs) (Hcost : (costs hs < budget)%Z).

Definition eng_rep (e : Engine) (m : gmap bytes bytes) : Prop :=
  e_wal e <> None /\ exists es ess, eng_inv hs e es ess /\ view (es :: ess) = m.

Lemma eng_write_rep e m k v t rs :
  eng_rep e m -> mkEntry k v t ∈ hs ->
  exists err e', write e k v t rs = Some (err, e') /\ (err = None -> eng_rep e' (apply_entry (mkEntry k v t) m)).
Proof using Hfits Hcost.
  intros (Hw & es & ess & Hi & <-) Hin.
  destruct (write_view hs Hfits Hcost e es ess k v t rs Hi Hw Hin) as (err & e' & es' & ess' & E & Hi' & Hv).
  exists err, e'. split; [done|]. intros ->. split; [by eapply write_wal|]. exists es', ess'. split; [done|].
  by destruct Hv as [|[]].
Qed.

Lemma eng_reset_rep e m m' xs absent :
  eng_rep e m -> fst <$> xs ≡ₚ map_to_list m' -> Forall (fun x => mkEntry x.1.1 x.1.2 false ∈ hs) xs ->
  exists err e', Reset e xs absent = Some (err, e') /\ (err = None -> eng_rep e' m').
Proof using Hfits.
  intros (Hw & es & ess & Hi & _) Hp Hin.
  destruct (Reset_view hs Hfits e es ess xs absent Hi Hw) as (err & e' & es' & ess' & E & Hi' & j & Hv & Hj).
  { apply Forall_fmap. exact Hin. }
  exists err, e'. split; [done|]. intros He. rewrite He in E. split; [by eapply Reset_wal|]. exists es', ess'. split; [done|].
  rewrite Hv, take_ge by (rewrite length_fmap; by apply Hj).
  assert (NoDup (fst <$> (fst <$> xs))) as Hnd by (rewrite Hp; apply NoDup_fst_map_to_list).
  rewrite reset_contents, (right_id_L ∅ _) by done. rewrite (list_to_map_proper _ _ Hnd Hp). apply list_to_map_to_list.
Qed.

(** The LSM engine satisfies the state machine's interface. *)
#[export] Program Instance engine_KVSpec : KVSpec Engine := {|
  kv_rep := eng_rep;
  kv_may := fun x => x ∈ hs
|}.
Next Obligation. intros e m k v rs Hr Hm. exact (eng_write_rep e m k v false rs Hr Hm). Qed.
Next Obligation. intros e m k rs Hr Hm. exact (eng_write_rep e m k [] true rs Hr Hm). Qed.
Next Obligation. intros e m k (_ & es & ess & Hi & <-). exact (Get_view hs Hfits e es ess k Hi). Qed.
Next Obligation. intros e m (_ & es & ess & Hi & <-). exact (SnapshotEntries_view hs Hfits e es ess Hi). Qed.
Next Obligation. intros e m m' xs absent Hr Hp Hm. exact (eng_reset_rep e m m' xs absent Hr Hp Hm). Qed.

End history.

(** ** Witnesses: a concrete serializer and a short log with a retry *)

Definition command_tuple (c : Command) : bytes * bytes * bytes * bytes * N :=
  (c_Op c, c_Key c, c_Value c, c_ClientID c, c_Seq c).
Definition tuple_command (t : bytes * bytes * bytes * bytes * N) : Command :=
  let '(op, k, v, id, n) := t in mkCommand op k v id n.

(** A stream for any countable type: a byte, then the digits of its code. *)
Definition code {A} `{Countable A} (a : A) : bytes := x00 :: pos_bytes (encode a).
Definition decoded {A} `{Countable A} (b : bytes) : option A := decode (bytes_pos (tail b)).

Lemma decoded_code {A} `{Countable A} (a : A) : decoded (code a) = Some a.
Proof. unfold decoded, code. simpl. rewrite bytes_pos_bytes. apply decode_encode. Qed.

#[export] Program Instance gob_Command : Gob Command := {|
  gob_Encode := fun c => Some (code (command_tuple c));
  gob_Decode := fun b => tuple_command <$> decoded b
|}.
Next Obligation. intros c b [= <-]. rewrite decoded_code. by destruct c. Qed.
Next Obligation. by intros c b [= <-]. Qed.

#[export] Program Instance gob_snapshotState : Gob snapshotState := {|
  gob_Encode := fun s => Some (code (st_Data s, st_LastSeq s));
  gob_Decode := fun b => (fun t => mkSnapshotState t.1 t.2) <$> decoded b
|}.
Next Obligation. intros s b [= <-]. rewrite decoded_code. by destruct s. Qed.
Next Obligation. by intros s b [= <-]. Qed.

Definition sample_cmds : list (Command * list N) :=
  [(put_cmd (str "a") (str "1") (str "c1") 1, [0%N]);
   (put_cmd (str "a") (str "1") (str "c1") 1, []);
   (put_cmd (str "b") (str "2") (str "c2") 1, []);
   (mkCommand (str "delete") (str "a") [] (str "c1") 2, [])].
Definition sample_entries : list kvEntry := command_entry <$> (fst <$> sample_cmds).
Definition sample_engine : Engine := fresh (mkOptions 0 false) [] [].

Lemma sample_fits : Forall fits_entry sample_entries.
Proof. repeat constructor; vm_compute; reflexivity. Qed.

Lemma sample_cost : (costs sample_entries < budget)%Z.
Proof. vm_compute; reflexivity. Qed.

#[local] Instance sample_KVSpec : KVSpec Engine := engine_KVSpec sample_entries sample_fits sample_cost.

Lemma sample_rep : sm_rep (newStateMachine sample_engine) (∅, ∅).
Proof.
  split; [|done]. split; [discriminate|]. exists [], []. split; [apply fresh_inv|]. by rewrite view_empty_layer, view_nil.
Qed.

Lemma sample_allowed : Forall (fun x => valid_op x.1 /\ kv_may (command_entry x.1)) sample_cmds.
Proof.
  repeat constructor; try (left; reflexivity); try (right; reflexivity); apply (bool_decide_unpack _); vm_compute; exact I.
Qed.

Lemma state_machine_refines_witness :
  exists err sm', apply_all (newStateMachine sample_engine) sample_cmds = Some (err, sm') /\
    (err = None -> sm_rep sm' (foldl spec_apply (∅, ∅) (fst <$> sample_cmds)) /\
       forall k, get sm' k = Ok ((foldl spec_apply (∅, ∅) (fst <$> sample_cmds)).1 !! k)).
Proof. apply (state_machine_refines (newStateMachine sample_engine) (∅, ∅) sample_cmds); [apply sample_rep|apply sample_allowed]. Defined.

(** A write the sample engine is sized for. *)
Ltac in_sample :=
  match goal with |- kv_may ?x => change (x ∈ sample_entries) end; apply (bool_decide_unpack _); vm_compute; exact I.

Lemma at_most_once_witness :
  length (executed ∅ (fst <$> sample_cmds)) = 3 /\
  exists err sm', apply_all (newStateMachine sample_engine) sample_cmds = Some (err, sm') /\ (err = None ->
    forall k, get sm' k = Ok (foldl (fun m c => apply_entry (command_entry c) m) ∅ (executed ∅ (fst <$> sample_cmds)) !! k)).
Proof.
  split; [vm_compute; reflexivity|].
  destruct (at_most_once (newStateMachine sample_engine) (∅, ∅) sample_cmds) as (err & sm' & Ea & H').
  - apply sample_rep.
  - apply sample_allowed.
  - repeat constructor; discriminate.
  - exists err, sm'. split; [exact Ea|]. intros He. apply (H' He).
Defined.

(** The order of map_to_list, and no random heights. *)
Definition plain_order (m : gmap bytes bytes) : list (bytes * bytes * list N) := (fun x => (x, [])) <$> map_to_list m.

Lemma plain_order_ok : is_order plain_order.
Proof. intros m. unfold plain_order. rewrite <-list_fmap_compose. by rewrite list_fmap_id. Qed.

(** A machine that holds one key, and its serialized state. *)
Definition one_key : kvstate := spec_apply (∅, ∅) (put_cmd (str "b") (str "2") (str "c2") 1).
Definition one_sm : stateMachine Engine :=
  match apply (newStateMachine sample_engine) (put_cmd (str "b") (str "2") (str "c2") 1) [] with
  | Some (_, sm) => sm
  | None => newStateMachine sample_engine
  end.

Lemma one_sm_rep : sm_rep one_sm one_key.
Proof.
  destruct (apply_spec (newStateMachine sample_engine) (∅, ∅) (put_cmd (str "b") (str "2") (str "c2") 1) [] sample_rep)
    as (err & sm' & E & H); [by left|in_sample|].
  unfold one_sm. rewrite E. apply H. assert (exists sm1, apply (newStateMachine sample_engine) (put_cmd (str "b") (str "2") (str "c2") 1) [] = Some (None, sm1))
    as [sm1 E1] by (eexists; vm_compute; reflexivity). rewrite E1 in E. by injection E as <- _.
Qed.

Lemma snapshot_restore_witness :
  exists b, snapshot one_sm = Ok b /\
    exists err sm', restore (newStateMachine sample_engine) b plain_order false = Some (err, sm') /\ (err = None -> sm_rep sm' one_key).
Proof.
  eexists. split; [vm_compute; reflexivity|].
  apply (snapshot_restore one_sm one_key _ (newStateMachine sample_engine) (∅, ∅) plain_order false).
  - apply one_sm_rep.
  - apply sample_rep.
  - apply plain_order_ok.
  - intros k v Hk. assert (one_key.1 = <[str "b" := str "2"]> ∅) as E by reflexivity. rewrite E in Hk.
    apply lookup_insert_Some in Hk as [[<- <-]|[_ Hk]]; [|by rewrite lookup_empty in Hk].
    in_sample.
  - vm_compute; reflexivity.
Defined.

(** The client's second request is applied; its first one arrives afterwards. *)
Definition overtaken : stateMachine Engine := mkSM sample_engine (<[str "c1" := 2%N]> ∅).

Lemma concurrent_write_lost_witness :
  apply overtaken (put_cmd (str "x") (str "1") (str "c1") 1) [] = Some (None, overtaken).
Proof.
  apply (concurrent_write_lost overtaken (str "x") (str "1") (str "c1") 1 2 []); [discriminate|reflexivity|reflexivity|].
  vm_compute; reflexivity.
Defined.
