(* ===== verification/Transport.v ===== *)
(** server/transport.go: the connections to the peers, cached by id. *)

From S2P Require Import Prelude Bytes GoIO Engine.

Section transport.

(** google.golang.org/grpc: a client connection, and NewClient for an address. *)
Context {conn : Type} (NewClient : bytes -> sum error conn).

Record grpcTransport := mkTransport {
  tr_addrs : gmap N bytes;
  tr_conns : gmap N conn
}.

Definition newGRPCTransport (addrs : gmap N bytes) : grpcTransport := mkTransport addrs ∅.

Definition SetPeer (t : grpcTransport) (id : N) (addr : bytes) : grpcTransport :=
  mkTransport (<[id := addr]> (tr_addrs t)) (delete id (tr_conns t)).

Definition RemovePeer (t : grpcTransport) (id : N) : grpcTransport :=
  mkTransport (delete id (tr_addrs t)) (delete id (tr_conns t)).

Definition Peers (t : grpcTransport) : gmap N bytes := tr_addrs t.

Definition unknownPeer (peer : N) : error := Errorf (str "unknown peer " ++ decimal peer).

Definition client (t : grpcTransport) (peer : N) : sum error conn * grpcTransport :=
  match tr_conns t !! peer with
  | Some c => (inr c, t)
  | None =>
      match tr_addrs t !! peer with
      | None => (inl (unknownPeer peer), t)
      | Some addr =>
          match NewClient addr with
          | inl er => (inl er, t)
          | inr c => (inr c, mkTransport (tr_addrs t) (<[peer := c]> (tr_conns t)))
          end
      end
  end.

(** RequestVote, AppendEntries, InstallSnapshot and ReadIndex: one RPC on the
    peer's client. *)
Definition call {Resp} (rpc : conn -> sum error Resp) (t : grpcTransport) (peer : N) : sum error Resp * grpcTransport :=
  match client t peer with
  | (inl er, t) => (inl er, t)
  | (inr c, t) => (rpc c, t)
  end.

(** ** Connections go to the current address *)

Inductive tr_op :=
  | TrSet (id : N) (addr : bytes)
  | TrRemove (id : N)
  | TrClient (peer : N).

Definition tr_step (t : grpcTransport) (op : tr_op) : grpcTransport :=
  match op with
  | TrSet id addr => SetPeer t id addr
  | TrRemove id => RemovePeer t id
  | TrClient p => (client t p).2
  end.

(** Every cached connection was dialled to the address its peer has now. *)
Definition conns_current (t : grpcTransport) : Prop :=
  forall id c, tr_conns t !! id = Some c -> exists addr, tr_addrs t !! id = Some addr /\ NewClient addr = inr c.

Lemma tr_step_current t op : conns_current t -> conns_current (tr_step t op).
Proof.
  intros H. destruct op as [id addr|id|p]; simpl.
  - intros i c Hc. simpl in *. apply lookup_delete_Some in Hc as [Hne Hc]. rewrite lookup_insert_ne by done. by apply H.
  - intros i c Hc. simpl in *. apply lookup_delete_Some in Hc as [Hne Hc]. rewrite lookup_delete_ne by done. by apply H.
  - unfold client. destruct (tr_conns t !! p) as [c0|] eqn:Ec; [done|].
    destruct (tr_addrs t !! p) as [addr|] eqn:Ea; [|done]. destruct (NewClient addr) as [er|c0] eqn:En; [done|].
    intros i c Hc. simpl in *. apply lookup_insert_Some in Hc as [[<- <-]|[Hne Hc]]; [by exists addr|by apply H].
Qed.

(** C32. An RPC goes to the address its peer has: whatever peers are set, removed and
    contacted before, an RPC to a peer is made on a connection to the address the
    peer has at that moment, or fails when it cannot be dialled; a peer that has
    none, because it was never known or was removed, is not contacted. *)
Theorem rpc_reaches_current_address addrs ops peer {Resp} (rpc : conn -> sum error Resp) :
  let t := foldl tr_step (newGRPCTransport addrs) ops in
  (call rpc t peer).1 =
    match Peers t !! peer with
    | None => inl (unknownPeer peer)
    | Some addr => match NewClient addr with inl er => inl er | inr c => rpc c end
    end.
Proof.
  intros t. assert (conns_current t) as H.
  { subst t. assert (conns_current (newGRPCTransport addrs)) as H0 by (by intros id c Hc).
    revert H0. generalize (newGRPCTransport addrs). induction ops as [|op ops IH]; intros t Ht; [done|].
    simpl. by apply IH, tr_step_current. }
  unfold call, client, Peers. destruct (tr_conns t !! peer) as [c|] eqn:Ec.
  - destruct (H peer c Ec) as (addr & -> & ->). done.
  - destruct (tr_addrs t !! peer) as [addr|]; [|done]. by destruct (NewClient addr).
Qed.

End transport.
Arguments grpcTransport conn : clear implicits.
