(* ===== verification/Server.v ===== *)
(** server/server.go and server/membership.go: the server that ties the Raft node,
    the state machine and the RPCs together. A turn of applyLoop is one function;
    an RPC that waits is split where it waits: what it does before, the
    registration of its waiter, and what it returns once it is woken. *)

From S2P Require Import Prelude Bytes GoIO Messages ConfState DiskStorage Engine Node StateMachine Transport.

(** ** State *)

Definition SnapshotThreshold : nat := Eval vm_compute in N.to_nat 10000.

Record waitResult := mkWait {
  wr_term : N;
  wr_err : option error
}.

(** google.golang.org/grpc/status: an error with its code. *)
Inductive Code := InvalidArgument | FailedPrecondition | Internal | DeadlineExceeded | Unavailable.
Record status := mkStatus {
  st_code : Code;
  st_msg : bytes
}.

Section server.

Context {E : Type} {KV : KVEngine E} {GC : Gob Command} {GS : Gob snapshotState} {conn : Type}.
Context (Marshal : Entry -> bytes).

(** type Server struct. A waiter's channel has a number; [sv_chans] holds what was
    sent on each: a channel leaves the map of waiters with the one result it
    gets, so its buffer of one never blocks. *)
Record Server := mkServer {
  sv_ID : N;
  sv_node : Node;
  sv_sm : stateMachine E;
  sv_waiters : gmap N nat;
  sv_chans : gmap nat waitResult;
  sv_applied : N;
  sv_sinceSnap : nat;
  sv_transport : grpcTransport conn
}.

Definition set_node (s : Server) (n : Node) : Server :=
  mkServer (sv_ID s) n (sv_sm s) (sv_waiters s) (sv_chans s) (sv_applied s) (sv_sinceSnap s) (sv_transport s).
Definition set_sm (s : Server) (sm : stateMachine E) : Server :=
  mkServer (sv_ID s) (sv_node s) sm (sv_waiters s) (sv_chans s) (sv_applied s) (sv_sinceSnap s) (sv_transport s).
Definition set_waiters (s : Server) (w : gmap N nat) : Server :=
  mkServer (sv_ID s) (sv_node s) (sv_sm s) w (sv_chans s) (sv_applied s) (sv_sinceSnap s) (sv_transport s).
Definition set_chans (s : Server) (c : gmap nat waitResult) : Server :=
  mkServer (sv_ID s) (sv_node s) (sv_sm s) (sv_waiters s) c (sv_applied s) (sv_sinceSnap s) (sv_transport s).
Definition set_applied (s : Server) (i : N) : Server :=
  mkServer (sv_ID s) (sv_node s) (sv_sm s) (sv_waiters s) (sv_chans s) i (sv_sinceSnap s) (sv_transport s).
Definition set_sinceSnap (s : Server) (k : nat) : Server :=
  mkServer (sv_ID s) (sv_node s) (sv_sm s) (sv_waiters s) (sv_chans s) (sv_applied s) k (sv_transport s).
Definition set_transport (s : Server) (t : grpcTransport conn) : Server :=
  mkServer (sv_ID s) (sv_node s) (sv_sm s) (sv_waiters s) (sv_chans s) (sv_applied s) (sv_sinceSnap s) t.

(** ** Applying *)

(** What the runtime and the device answer during one turn: the random heights of
    the memtable, the order of Reset's range, whether engine.wal is missing, and
    the outcomes of the calls on raft.wal.tmp. *)
Record turn_env := mkEnv {
  te_heights : list N;
  te_order : gmap bytes bytes -> list (bytes * bytes * list N);
  te_absent : bool;
  te_tscript : list outcome
}.

(** if ch, ok := s.waiters[index]; ok: send the result and forget the waiter. *)
Definition wake (s : Server) (index : N) (r : waitResult) : Server :=
  match sv_waiters s !! index with
  | Some ch => set_waiters (set_chans s (<[ch := r]> (sv_chans s))) (delete index (sv_waiters s))
  | None => s
  end.

Definition onConfChangeApplied (s : Server) (cc : ConfChange) : Server :=
  if (cc_Type cc =? CONF_CHANGE_ADD_NODE)%Z then
    match cc_Context cc with
    | [] => s
    | ctx => set_transport s (SetPeer (sv_transport s) (cc_NodeId cc) ctx)
    end
  else if (cc_Type cc =? CONF_CHANGE_REMOVE_NODE)%Z then
    set_transport s (RemovePeer (sv_transport s) (cc_NodeId cc))
  else s.

(** The command of a message: an empty one is the leader's no-op. *)
Definition apply_command (sm : stateMachine E) (command : bytes) (heights : list N) :
    option (option error * stateMachine E) :=
  match command with
  | [] => Some (None, sm)
  | _ =>
      match decodeCommand command with
      | inl er => Some (Some er, sm)
      | inr cmd => StateMachine.apply sm cmd heights
      end
  end.

(** One turn of applyLoop: the error of the state machine, and the server. *)
Definition applyTurn (s : Server) (msg : ApplyMsg) (env : turn_env) : option (option error * Server) :=
  match msg with
  | SnapshotMsg data index term =>
      '(err, sm) ← restore (sv_sm s) data (te_order env) (te_absent env);
      let s := set_sm s sm in
      Some (err, match err with Some _ => s | None => set_applied s index end)
  | ConfChangeMsg cc index term =>
      let s := onConfChangeApplied s cc in
      Some (None, wake (set_applied s index) index (mkWait term None))
  | CommandMsg command index term =>
      '(applyErr, sm) ← apply_command (sv_sm s) command (te_heights env);
      let s := set_applied (set_sm s sm) index in
      let since := S (sv_sinceSnap s) in
      let needSnap := bool_decide (SnapshotThreshold <= since) in
      let s := set_sinceSnap s (if needSnap then 0 else since) in
      let s := wake s index (mkWait term applyErr) in
      if needSnap then
        match StateMachine.snapshot (sv_sm s) with
        | Ok data =>
            '(_, n) ← Node.Snapshot Marshal (sv_node s) index data (te_tscript env);
            Some (applyErr, set_node s n)
        | Err _ => Some (applyErr, s)
        | Panic => None
        end
      else Some (applyErr, s)
  end.

(** ** Proposals *)

Definition notLeaderErr (s : Server) : status :=
  let '(_, _, leaderID) := Node.Status (sv_node s) in
  mkStatus FailedPrecondition (str "not leader; leader=" ++ decimal leaderID).

(** propose, up to the proposal. *)
Definition propose (s : Server) (cmd : Command) : option (sum status (N * N) * Server) :=
  match encodeCommand cmd with
  | inl er => Some (inl (mkStatus Internal (error_text er)), s)
  | inr data =>
      '(r, n) ← Node.Propose Marshal (sv_node s) data;
      let s := set_node s n in
      match r with
      | inl _ => Some (inl (notLeaderErr s), s)
      | inr it => Some (inr it, s)
      end
  end.

(** s.waiters[index] = ch, in a critical section of its own. *)
Definition register (s : Server) (index : N) (ch : nat) : Server :=
  set_waiters s (<[index := ch]> (sv_waiters s)).

(** The deferred delete(s.waiters, index). *)
Definition unregister (s : Server) (index : N) : Server := set_waiters s (delete index (sv_waiters s)).

(** How the select of a waiting RPC ends. *)
Inductive wakeup :=
  | Result (r : waitResult)
  | CtxDone (ctxErr : bytes)
  | Expired.

(** What propose returns ([None] is nil); [ctxMsg] and [lateMsg] are the texts of
    its two timeouts. *)
Definition wait_result (s : Server) (term : N) (ctxMsg lateMsg : bytes) (w : wakeup) : option status :=
  match w with
  | Result r =>
      if negb (wr_term r =? term)%N then Some (notLeaderErr s)
      else match wr_err r with
      | Some er => Some (mkStatus Internal (error_text er))
      | None => None
      end
  | CtxDone _ => Some (mkStatus DeadlineExceeded ctxMsg)
  | Expired => Some (mkStatus Unavailable lateMsg)
  end.

Definition propose_end (s : Server) (index term : N) (w : wakeup) : option status * Server :=
  (wait_result s term (str "commit timed out") (str "commit timed out (lost quorum or leadership?)") w, unregister s index).

(** Put and Delete: the command of the request. *)
Definition Put (s : Server) (key value clientId : bytes) (seq : N) : option (sum status (N * N) * Server) :=
  propose s (mkCommand (str "put") key value clientId seq).

Definition Delete (s : Server) (key clientId : bytes) (seq : N) : option (sum status (N * N) * Server) :=
  propose s (mkCommand (str "delete") key [] clientId seq).

(** ** Reads *)

(** The loop of Get that waits for the read index. Each turn sees a value of
    s.applied and, when it is too low, ends the loop or sleeps ([None]). The loop's
    outcome: ready ([Some None]), an error, or still waiting after these turns. *)
Fixpoint read_wait (readIdx : N) (turns : list (N * option wakeup)) : option (option status) :=
  match turns with
  | [] => None
  | (applied, w) :: turns =>
      if (readIdx <=? applied)%N then Some None
      else match w with
      | Some Expired => Some (Some (mkStatus Unavailable (str "apply lag on read")))
      | Some (CtxDone ctxErr) => Some (Some (mkStatus DeadlineExceeded ctxErr))
      | _ => read_wait readIdx turns
      end
  end.

(** Get, from the answer of ReadIndex on; [s] is the server at the lookup. *)
Definition Get (s : Server) (readIdx : sum error N) (turns : list (N * option wakeup)) (key : bytes) :
    option (result (sum status (option bytes))) :=
  match readIdx with
  | inl _ => Some (Ok (inl (notLeaderErr s)))
  | inr idx =>
      r ← read_wait idx turns;
      match r with
      | Some er => Some (Ok (inl er))
      | None =>
          Some match StateMachine.get (sv_sm s) key with
               | Ok v => Ok (inr v)
               | Err er => Ok (inl (mkStatus Internal (error_text er)))
               | Panic => Panic
               end
      end
  end.

Record StatusResponse := mkStatusResponse {
  sr_NodeId : N; sr_IsLeader : bool; sr_LeaderId : N; sr_Term : N; sr_CommitIndex : N; sr_AppliedIndex : N
}.

Definition Status (s : Server) : StatusResponse :=
  let '(term, isLeader, leaderID) := Node.Status (sv_node s) in
  mkStatusResponse (sv_ID s) isLeader leaderID term (Node.CommitIndex (sv_node s)) (sv_applied s).

(** ** Membership *)

Definition proposeConfChange (s : Server) (cc : ConfChange) : option (sum status (N * N) * Server) :=
  '(r, n) ← Node.ProposeConfChange Marshal (sv_node s) cc;
  let s := set_node s n in
  match r with
  | inl _ => Some (inl (notLeaderErr s), s)
  | inr it => Some (inr it, s)
  end.

Definition proposeConfChange_end (s : Server) (index term : N) (w : wakeup) : option status * Server :=
  (wait_result s term (str "config change timed out") (str "config change timed out") w, unregister s index).

(** What changeMembership proposes after a change that ended with nil. *)
Definition changeMembership_next (cc : ConfChange) : option ConfChange :=
  if (cc_Type cc =? CONF_CHANGE_LEAVE_JOINT)%Z then None
  else Some (mkConfChange CONF_CHANGE_LEAVE_JOINT 0 []).

(** AddMember and RemoveMember: the change they hand to changeMembership. *)
Definition AddMember (id : N) (raftAddr : bytes) : sum status ConfChange :=
  if (id =? 0)%N || bytes_eqb raftAddr [] then inl (mkStatus InvalidArgument (str "id and raft_addr required"))
  else inr (mkConfChange CONF_CHANGE_ADD_NODE id raftAddr).

Definition RemoveMember (s : Server) (id : N) : sum status ConfChange :=
  if (id =? 0)%N then inl (mkStatus InvalidArgument (str "id required"))
  else if (id =? sv_ID s)%N then inl (mkStatus InvalidArgument (str "cannot remove self via RPC"))
  else if bool_decide (size (Voters (n_conf (sv_node s))) <= 1)
  then inl (mkStatus FailedPrecondition (str "refusing to remove last voter"))
  else inr (mkConfChange CONF_CHANGE_REMOVE_NODE id []).

Record MemberInfo := mkMember { mi_Id : N; mi_RaftAddr : bytes; mi_Voting : bool }.

Definition ListMembers (s : Server) : bool * list MemberInfo :=
  let conf := n_conf (sv_node s) in
  let addrs := MemberAddrs (sv_node s) in
  (InJoint conf, (fun id => mkMember id (default [] (addrs !! id)) true) <$> VoterIDs conf).

(** ** Starting *)

(** New, once the engine and the node are open: the state is restored from the
    node's snapshot before anything is applied. *)
Definition New (id : N) (engine : E) (node : Node) (peers : gmap N bytes) (env : turn_env) :
    option (sum error Server) :=
  let s := mkServer id node (newStateMachine engine) ∅ ∅ 0 0 (newGRPCTransport peers) in
  let '(snap, idx, _) := ReadSnapshot node in
  if (0 <? idx)%N then
    '(err, sm) ← restore (sv_sm s) snap (te_order env) (te_absent env);
    match err with
    | Some er => Some (inl (Errorf (str "restore snapshot: " ++ error_text er)))
    | None => Some (inr (set_applied (set_sm s sm) idx))
    end
  else Some (inr s).

End server.
Arguments Server E conn : clear implicits.
