(* ===== verification/ServerCorrect.v ===== *)
(** server/server.go: the server holds the state of the applied log, and answers
    its clients accordingly. *)

From S2P Require Import Prelude Bytes GoIO Memtable Layers Messages ConfState DiskStorage StorageCorrect StorageMem LogFacts Node NodeWf StateMachine Transport Server.

(** ** Messages *)

(** The last of the entries to apply is at the commit index. *)
Lemma last_entry n :
  node_ok n -> (n_lastApplied n < n_commitIndex n)%N ->
  exists e, last (entries_between (n_store n) (n_lastApplied n) (n_commitIndex n)) = Some e /\ en_Index e = n_commitIndex n.
Proof.
  intros [[H1 H2 _ H4 _ _] _] Hlt. destruct (entry_of_Some _ H1 (n_commitIndex n)) as (e & He & Hi); [lia|]. exists e. split; [|done].
  rewrite last_lookup. unfold entries_between. rewrite length_take, length_drop. unfold log_end, len in H2.
  rewrite lookup_take_lt by lia. rewrite lookup_drop. revert He. unfold entry_of. destruct (N.leb_spec (n_commitIndex n) (ds_snapIndex (n_store n))); [lia|].
  intros <-. f_equal. lia.
Qed.


Definition msg_index (msg : ApplyMsg) : N :=
  match msg with CommandMsg _ i _ | ConfChangeMsg _ i _ | SnapshotMsg _ i _ => i end.
Definition msg_term (msg : ApplyMsg) : N :=
  match msg with CommandMsg _ _ t | ConfChangeMsg _ _ t | SnapshotMsg _ _ t => t end.

Section server.

Context {E : Type} {KV : KVEngine E} {KS : KVSpec E} {GC : Gob Command} {GS : Gob snapshotState} {conn : Type}.
Context (Marshal : Entry -> bytes).

Abbreviation Server := (Server E conn).
Abbreviation applyTurn := (applyTurn Marshal).

(** The effect of a message on the abstract state. *)
Definition spec_msg (st : kvstate) (msg : ApplyMsg) : kvstate :=
  match msg with
  | CommandMsg [] _ _ | ConfChangeMsg _ _ _ => st
  | CommandMsg b _ _ => match gob_Decode b with Some c => spec_apply st c | None => st end
  | SnapshotMsg b _ _ =>
      match gob_Decode b with Some d => (st_Data d, default ∅ (st_LastSeq d)) | None => st end
  end.

(** What the servers write: puts and deletes the engine is sized for. *)
Definition msg_may (msg : ApplyMsg) : Prop :=
  match msg with
  | CommandMsg b _ _ => forall c, gob_Decode b = Some c -> valid_op c /\ kv_may (command_entry c)
  | ConfChangeMsg _ _ _ => True
  | SnapshotMsg b _ _ => forall (d : snapshotState) k v, gob_Decode b = Some d -> st_Data d !! k = Some v -> kv_may (mkEntry k v false)
  end.

(** ** One turn *)

(** The part of a turn on the state machine. *)
Definition machine_turn (s : Server) (msg : ApplyMsg) (env : turn_env) : option (option error * stateMachine E) :=
  match msg with
  | CommandMsg b _ _ => apply_command (sv_sm s) b (te_heights env)
  | ConfChangeMsg _ _ _ => Some (None, sv_sm s)
  | SnapshotMsg b _ _ => restore (sv_sm s) b (te_order env) (te_absent env)
  end.

Lemma machine_turn_spec s msg env st :
  sm_rep (sv_sm s) st -> msg_may msg -> is_order (te_order env) ->
  exists err sm, machine_turn s msg env = Some (err, sm) /\ (err = None -> sm_rep sm (spec_msg st msg)).
Proof.
  intros Hr Hm Ho. destruct msg as [b i t|cc i t|b i t]; simpl in *.
  - destruct b as [|x b]; [by do 2 eexists|]. unfold apply_command, decodeCommand.
    destruct (gob_Decode (x :: b)) as [c|] eqn:Ed; [|by do 2 eexists]. destruct (Hm c) as [Hv Hk]; [done|]. by apply apply_spec.
  - by do 2 eexists.
  - unfold restore. destruct (gob_Decode b) as [d|] eqn:Ed; [|by do 2 eexists]. destruct Hr as [Hr _].
    destruct (kv_Reset_spec (sm_engine (sv_sm s)) st.1 (st_Data d) (te_order env (st_Data d)) (te_absent env) Hr (Ho _)) as (err & e' & -> & He).
    + apply Forall_forall. intros [[k v] rs] Hx. simpl. apply (Hm d); [done|]. apply elem_of_map_to_list. rewrite <-(Ho (st_Data d)).
      apply list_elem_of_fmap. by exists (k, v, rs).
    + simpl. destruct err; do 2 eexists; (split; [done|]); [done|]. intros _. by split; [apply He|].
Qed.

Lemma wake_same (s : Server) i r :
  sv_sm (wake s i r) = sv_sm s /\ sv_applied (wake s i r) = sv_applied s /\ sv_node (wake s i r) = sv_node s /\
  sv_sinceSnap (wake s i r) = sv_sinceSnap s.
Proof. unfold wake. by destruct (sv_waiters s !! i). Qed.

Lemma onConfChangeApplied_same (s : Server) cc :
  sv_sm (onConfChangeApplied s cc) = sv_sm s /\ sv_waiters (onConfChangeApplied s cc) = sv_waiters s /\
  sv_chans (onConfChangeApplied s cc) = sv_chans s /\ sv_sinceSnap (onConfChangeApplied s cc) = sv_sinceSnap s.
Proof. unfold onConfChangeApplied. destruct (_ =? _)%Z; [by destruct (cc_Context cc)|]. by destruct (_ =? _)%Z. Qed.

(** A turn that ends reports the machine's error and leaves its state. *)
Lemma applyTurn_machine s msg env err s' :
  applyTurn s msg env = Some (err, s') ->
  machine_turn s msg env = Some (err, sv_sm s') /\ (err = None -> sv_applied s' = msg_index msg) /\
  (sv_sinceSnap s < SnapshotThreshold -> sv_sinceSnap s' < SnapshotThreshold).
Proof.
  destruct msg as [b i t|cc i t|b i t]; cbn [Server.applyTurn machine_turn].
  - destruct (apply_command _ _ _) as [[err1 sm]|]; [|done]. cbn [mbind option_bind].
    match goal with |- context [wake ?a ?b ?c] => destruct (wake_same a b c) as (W1 & W2 & W3 & W4); set (s1 := wake a b c) in * end.
    assert (SnapshotThreshold <> 0) by done. case_bool_decide as Hn; simpl in *.
    + destruct (snapshot (sv_sm s1)) as [data|er|]; [| |done].
      * destruct (Node.Snapshot _ _ _ _ _) as [[e2 n]|]; [|done]. intros [= <- <-]. simpl. rewrite W1. split; [done|]. split; [done|lia].
      * intros [= <- <-]. rewrite W1. split; [done|]. split; [done|lia].
    + intros [= <- <-]. rewrite W1. split; [done|]. split; [done|lia].
  - intros [= <- <-]. destruct (wake_same (set_applied (onConfChangeApplied s cc) i) i (mkWait t None)) as (W1 & W2 & _ & W4).
    destruct (onConfChangeApplied_same s cc) as (C1 & _ & _ & C4). rewrite W1, W4. simpl. rewrite C1, C4. done.
  - destruct (restore _ _ _ _) as [[err1 sm]|]; [|done]. simpl. intros [= <- <-]. by destruct err1.
Qed.

(** On a sound node, a turn ends unless the engine failed. *)
Lemma applyTurn_ends s msg env st :
  node_ok (sv_node s) -> sm_rep (sv_sm s) st -> msg_may msg -> is_order (te_order env) ->
  (exists s', applyTurn s msg env = Some (None, s')) \/ exists er sm, machine_turn s msg env = Some (Some er, sm).
Proof.
  intros Hn Hr Hm Ho. destruct (machine_turn_spec s msg env st Hr Hm Ho) as (err & sm & Et & Hsm).
  destruct err as [er|]; [right; by do 2 eexists|left]. specialize (Hsm eq_refl).
  destruct msg as [b i t|cc i t|b i t]; cbn [Server.applyTurn machine_turn] in *; [|by eexists|rewrite Et; by eexists].
  rewrite Et. cbn [mbind option_bind].
  match goal with |- context [wake ?a ?b ?c] => destruct (wake_same a b c) as (W1 & _ & W3 & _); set (s1 := wake a b c) in * end.
  case_bool_decide; [|by eexists]. unfold snapshot. rewrite W1. simpl. rewrite (kv_SnapshotEntries_spec _ _ (proj1 Hsm)). cbn [rbind].
  destruct (gob_Encode _) as [data|]; [|by eexists]. rewrite W3.
  destruct (Snapshot_ok Marshal (sv_node s) i data (te_tscript env) Hn) as (e2 & n2 & E2 & _). simpl. rewrite E2. by eexists.
Qed.

(** ** Runs *)

(** Turns that report no error, and in between whatever other goroutines do to
    the node, the waiters and their channels. *)
Inductive server_run (s : Server) : list ApplyMsg -> Server -> Prop :=
  | run_nil : server_run s [] s
  | run_turn msgs s1 msg env s2 :
      server_run s msgs s1 -> is_order (te_order env) -> applyTurn s1 msg env = Some (None, s2) ->
      server_run s (msgs ++ [msg]) s2
  | run_other msgs s1 n w c :
      server_run s msgs s1 -> server_run s msgs (set_chans (set_waiters (set_node s1 n) w) c).

Lemma server_run_spec s msgs s' st :
  sm_rep (sv_sm s) st -> Forall msg_may msgs -> server_run s msgs s' ->
  sm_rep (sv_sm s') (foldl spec_msg st msgs) /\ (forall m, last msgs = Some m -> sv_applied s' = msg_index m) /\
  (sv_sinceSnap s < SnapshotThreshold -> sv_sinceSnap s' < SnapshotThreshold).
Proof.
  intros Hr Hall Hrun. induction Hrun as [|msgs s1 msg env s2 _ IH Ho Ht|msgs s1 n w c _ IH]; [done| |by apply IH].
  apply Forall_app in Hall as [Hall Hm]. apply Forall_cons in Hm as [Hm _]. destruct (IH Hall) as (Hr1 & _ & Hs1).
  destruct (applyTurn_machine _ _ _ _ _ Ht) as (Em & Ha & Hs2).
  destruct (machine_turn_spec s1 msg env _ Hr1 Hm Ho) as (err & sm & Et & Hsm). rewrite Et in Em. injection Em as -> ->.
  rewrite foldl_app. simpl. split; [by apply Hsm|]. split; [|by auto]. intros m. rewrite last_snoc. intros [= <-]. by apply Ha.
Qed.

(** The effect of a log entry. *)
Definition spec_entry (st : kvstate) (e : Entry) : kvstate := spec_msg st (msg_of e).

(** C6. The server's state is the applied log: when the node's applier hands over the
    committed entries it has not applied yet and the server takes them in (with
    anything happening in between to the node and to waiting clients), the state
    machine holds the fold of those entries over the state it had, reads return
    its values, and the applied index is the node's commit index. Two servers
    with the same log therefore answer alike, whatever their engines did. *)
Theorem server_state_is_log n msgs n' s st s' :
  node_ok n -> applier n = Some (msgs, n') -> (n_lastApplied n < n_commitIndex n)%N ->
  sm_rep (sv_sm s) st -> Forall msg_may msgs -> server_run s msgs s' ->
  let st' := foldl spec_entry st (entries_between (n_store n) (n_lastApplied n) (n_commitIndex n)) in
  sm_rep (sv_sm s') st' /\ (forall k, StateMachine.get (sv_sm s') k = Ok (st'.1 !! k)) /\ sv_applied s' = n_commitIndex n.
Proof.
  intros Hok Ha Hlt Hr Hall Hrun. destruct (apply_loop_spec _ n Hok (Nat.lt_succ_diag_r _)) as (n1 & El & _).
  unfold applier in Ha. rewrite El in Ha. clear El. injection Ha as <- <-.
  destruct (server_run_spec _ _ _ _ Hr Hall Hrun) as (Hr' & Hi & _). rewrite foldl_fmap in Hr'. split; [done|].
  split; [intros k; apply kv_Get_spec, Hr'|].
  destruct (last_entry n Hok Hlt) as (e & El & Ei). rewrite (Hi (msg_of e)); [|by rewrite fmap_last, El].
  rewrite <-Ei. unfold msg_of, msg_index. destruct (en_ConfChange e); [by destruct (_ =? _)%Z|done].
Qed.

(** ** Answers to clients *)

(** A turn sends at most one result, to the waiter of the message's index. *)
Lemma applyTurn_chans (s : Server) msg env err s' :
  applyTurn s msg env = Some (err, s') ->
  (sv_chans s' = sv_chans s /\ sv_waiters s' = sv_waiters s) \/
  exists ch, sv_waiters s !! msg_index msg = Some ch /\ sv_chans s' = <[ch := mkWait (msg_term msg) err]> (sv_chans s) /\
    sv_waiters s' = delete (msg_index msg) (sv_waiters s) /\ sv_applied s' = msg_index msg.
Proof.
  assert (Hw : forall (s1 : Server) i r, sv_chans s1 = sv_chans s -> sv_waiters s1 = sv_waiters s ->
    (sv_chans (wake s1 i r) = sv_chans s /\ sv_waiters (wake s1 i r) = sv_waiters s) \/
    exists ch, sv_waiters s !! i = Some ch /\ sv_chans (wake s1 i r) = <[ch := r]> (sv_chans s) /\
      sv_waiters (wake s1 i r) = delete i (sv_waiters s) /\ sv_applied (wake s1 i r) = sv_applied s1).
  { intros s1 i r E1 E2. unfold wake. rewrite E2. destruct (sv_waiters s !! i) as [ch|]; [right|by left].
    exists ch. simpl. by rewrite E1. }
  destruct msg as [b i t|cc i t|b i t]; cbn [Server.applyTurn msg_index msg_term].
  - destruct (apply_command _ _ _) as [[err1 sm]|]; [|done]. cbn [mbind option_bind].
    match goal with |- context [wake ?a ?b ?c] => specialize (Hw a b c eq_refl eq_refl); set (s1 := wake a b c) in * end. simpl in Hw.
    case_bool_decide.
    + destruct (snapshot (sv_sm s1)) as [data|er|]; [| |done]; [|by intros [= <- <-]].
      destruct (Node.Snapshot _ _ _ _ _) as [[e2 n]|]; [|done]. by intros [= <- <-].
    + by intros [= <- <-].
  - intros [= <- <-]. destruct (onConfChangeApplied_same s cc) as (_ & C2 & C3 & _). by apply (Hw (set_applied _ i)).
  - destruct (restore _ _ _ _) as [[err1 sm]|]; [|done]. simpl. intros [= <- <-]. left. by destruct err1.
Qed.

(** C24. An acknowledgement means applied: when the waiter of a proposal at (index,
    term) is woken by a turn and the RPC returns nil, that turn applied the
    entry at this very index and term, the state machine reported no error, and
    the server's applied index has reached it. *)
Theorem ack_means_applied (s : Server) msg env err s' ch index term r :
  sv_waiters s !! index = Some ch -> (forall j, sv_waiters s !! j = Some ch -> j = index) -> sv_chans s !! ch = None ->
  applyTurn s msg env = Some (err, s') -> sv_chans s' !! ch = Some r -> (propose_end s' index term (Result r)).1 = None ->
  msg_index msg = index /\ msg_term msg = term /\ err = None /\ sv_applied s' = index /\
  machine_turn s msg env = Some (None, sv_sm s').
Proof.
  intros Hw Hinj Hnone Ht Hr Hend. destruct (applyTurn_chans _ _ _ _ _ Ht) as [[Ec _]|(ch' & Hw' & Ec & _ & Ha)].
  { rewrite Ec in Hr. congruence. }
  rewrite Ec in Hr. apply lookup_insert_Some in Hr as [[-> <-]|[_ Hr]]; [|congruence].
  apply Hinj in Hw' as <-. simpl in Hend. destruct (N.eqb_spec (msg_term msg) term) as [Et|]; [|done]. simpl in Hend.
  destruct err; [done|]. split_and!; try done. by apply applyTurn_machine in Ht as [? _].
Qed.

(** applyLoop: the turns of a list of messages. *)
Fixpoint applyLoop (s : Server) (msgs : list (ApplyMsg * turn_env)) : option Server :=
  match msgs with
  | [] => Some s
  | (msg, env) :: msgs => '(_, s) ← applyTurn s msg env; applyLoop s msgs
  end.

Lemma applyLoop_silent (s : Server) msgs s' index ch :
  (forall j, sv_waiters s !! j = Some ch -> j = index) -> Forall (fun m => msg_index m.1 <> index) msgs ->
  applyLoop s msgs = Some s' -> sv_chans s' !! ch = sv_chans s !! ch.
Proof.
  revert s. induction msgs as [|[msg env] msgs IH]; intros s Hj Hall; [by intros [= <-]|]. apply Forall_cons in Hall as [Hm Hall].
  cbn [applyLoop]. destruct (applyTurn s msg env) as [[err s1]|] eqn:Et; [|done]. cbn [mbind option_bind]. intros H.
  destruct (applyTurn_chans _ _ _ _ _ Et) as [[Ec Ew]|(ch' & Hw & Ec & Ew & _)].
  - rewrite <-Ec. apply IH; [by rewrite Ew|done|done].
  - assert (ch' <> ch) by (intros ->; by apply Hj in Hw). rewrite (IH s1); [by rewrite Ec, lookup_insert_ne| |done|done].
    intros j. rewrite Ew. intros [_ Hd]%lookup_delete_Some. by apply Hj.
Qed.

(** A lost wake-up: propose registers its waiter only after the proposal. When a
    turn has applied the entry in between (the machine has executed it and the
    applied index is its index), the waiter gets no result from that turn, nor
    from later ones as long as no message of the same index follows: the client
    is told that the commit timed out although its command took effect. *)
Theorem late_waiter_never_woken (s : Server) msg env s1 ch msgs s2 :
  applyTurn s msg env = Some (None, s1) -> (forall j, sv_waiters s1 !! j <> Some ch) -> sv_chans s1 !! ch = None ->
  Forall (fun m => msg_index m.1 <> msg_index msg) msgs ->
  applyLoop (register s1 (msg_index msg) ch) msgs = Some s2 ->
  sv_applied s1 = msg_index msg /\ machine_turn s msg env = Some (None, sv_sm s1) /\ sv_chans s2 !! ch = None.
Proof.
  intros (Hm & Ha & _)%applyTurn_machine Hno Hc Hall H. split_and!; [by apply Ha|done|]. rewrite <-Hc. refine (applyLoop_silent _ _ _ (msg_index msg) ch _ Hall H).
  simpl. intros j [[<- _]|[_ Hj]]%lookup_insert_Some; [done|]. by apply Hno in Hj.
Qed.

(** Reads: once the wait for the read index is over, Get returns the value of the
    key in the state the server has applied; before that it answers an error or
    goes on waiting. *)
Theorem get_reads_applied (s : Server) st readIdx turns key v :
  sm_rep (sv_sm s) st -> Get s (inr readIdx) turns key = Some (Ok (inr v)) ->
  v = st.1 !! key /\ exists applied w, (applied, w) ∈ turns /\ (readIdx <= applied)%N.
Proof.
  intros [Hr _]. unfold Get. intros H.
  destruct (read_wait readIdx turns) as [[er|]|] eqn:Ew; [done| |done]. cbn [mbind option_bind] in H.
  unfold StateMachine.get in H. rewrite (kv_Get_spec _ _ _ Hr) in H. injection H as <-. split; [done|]. clear Hr.
  induction turns as [|[a w] turns IH]; [done|]. cbn [read_wait] in Ew. destruct (N.leb_spec readIdx a) as [Hle|].
  - exists a, w. split; [by left|done].
  - assert (read_wait readIdx turns = Some None) as Ew' by (by destruct w as [[| |]|]).
    destruct (IH Ew') as (a' & w' & Hin & Hle). exists a', w'. split; [by right|done].
Qed.

End server.

(** ** Restarting without a snapshot *)

(** The last write of a key among [es]. *)
Fixpoint last_write (k : bytes) (es : list kvEntry) : option kvEntry :=
  match es with
  | [] => None
  | e :: es => match last_write k es with Some e' => Some e' | None => if decide (ke_key e = k) then Some e else None end
  end.

Lemma apply_entries_lookup es m k :
  foldl (fun m e => apply_entry e m) m es !! k =
    match last_write k es with Some e => entry_value e | None => m !! k end.
Proof.
  revert m. induction es as [|e es IH]; intros m; [done|]. cbn [foldl last_write]. rewrite IH. destruct (last_write k es); [done|].
  unfold apply_entry, entry_value. case_decide as Hk; destruct (ke_tombstone e); subst;
    rewrite ?lookup_delete_eq, ?lookup_insert_eq, ?lookup_delete_ne, ?lookup_insert_ne by done; done.
Qed.

Lemma last_write_app k es fs :
  last_write k (es ++ fs) = match last_write k fs with Some e => Some e | None => last_write k es end.
Proof. induction es as [|e es IH]; simpl; [by destruct (last_write k fs)|]. rewrite IH. by destruct (last_write k fs). Qed.

Lemma executed_app q cs ds :
  exists q', executed q (cs ++ ds) = executed q cs ++ executed q' ds.
Proof.
  revert q. induction cs as [|c cs IH]; intros q; [by exists q|]. cbn [app executed].
  destruct (duplicate q c); [apply IH|]. destruct (IH (if bytes_eqb (c_ClientID c) [] then q else <[c_ClientID c := c_Seq c]> q)) as [q' E].
  exists q'. by rewrite E.
Qed.

(** The same of the specification alone. *)
Lemma spec_replay_converges cs k :
  (foldl spec_apply ((foldl spec_apply (∅, ∅) (take k cs)).1, ∅) cs).1 = (foldl spec_apply (∅, ∅) cs).1.
Proof.
  rewrite !spec_run_executed. cbn [fst snd].
  destruct (executed_app ∅ (take k cs) (drop k cs)) as [q E]. rewrite take_drop in E. rewrite E.
  set (L1 := executed ∅ (take k cs)). set (L2 := executed q (drop k cs)).
  assert (forall m L, foldl (fun m c => apply_entry (command_entry c) m) m L =
                      foldl (fun m e => apply_entry e m) m (command_entry <$> L)) as Hf by (intros; by rewrite foldl_fmap).
  rewrite !Hf. apply map_eq. intros x. rewrite !apply_entries_lookup. rewrite fmap_app, !last_write_app.
  destruct (last_write x (command_entry <$> L2)); [done|]. by destruct (last_write x (command_entry <$> L1)).
Qed.

(** C25. A restart without a snapshot converges: the engine still holds the effects of
    the first [k] commands, the node delivers the log again from its start, and
    the sequence numbers start empty; once the log is applied without an engine
    error, reads answer like a machine that applied it once. *)
Theorem replay_converges {E} {KV : KVEngine E} {KS : KVSpec E} (e : E) (log : list (Command * list N)) k :
  let cs := fst <$> log in
  kv_rep e (foldl spec_apply (∅, ∅) (take k cs)).1 ->
  Forall (fun x => valid_op x.1 /\ kv_may (command_entry x.1)) log ->
  exists err sm', apply_all (newStateMachine e) log = Some (err, sm') /\
    (err = None -> forall key, StateMachine.get sm' key = Ok ((foldl spec_apply (∅, ∅) cs).1 !! key)).
Proof.
  intros cs He Hall.
  destruct (apply_all_spec (newStateMachine e) ((foldl spec_apply (∅, ∅) (take k cs)).1, ∅) log) as (err & sm' & Ha & H'); [by split|done|].
  exists err, sm'. split; [done|]. intros Herr key. rewrite <-(spec_replay_converges cs k). apply kv_Get_spec, (H' Herr).
Qed.
