(* ===== verification/ServerEngine.v ===== *)
(** The server on the program's own engine: how it starts, the witnesses of its
    theorems, and a run in which a snapshot overtakes the entries being applied. *)

From S2P Require Import Prelude Bytes GoIO Wal Memtable SSTable Engine Layers EngineCorrect Messages ConfState DiskStorage StorageCorrect LogFacts Node NodeWf NodeSteps NodeLog StateMachine EngineInstance Transport Server ServerCorrect.
Import Engine.

(** ** Starting *)

(** type Options struct, without the listeners and the logger; the two directories
    are those of the engine and of the node. *)
Record Options := mkServerOptions {
  so_ID : N;
  so_Peers : gmap N bytes;
  so_BootstrapIDs : list N
}.

(** The initial voters: all the peers unless given. *)
Definition bootstrap_ids (o : Options) : list N :=
  match so_BootstrapIDs o with
  | [] => fst <$> map_to_list (so_Peers o)
  | ids => ids
  end.

(** New: the engine and the node are opened, then the state is restored. *)
Definition NewServer (Unmarshal : bytes -> option Entry) (c : clock) (o : Options)
    (edir : gmap bytes bytes) (ewal : option file) (rnd : bytes -> list N)
    (files : snap_files) (rwal : option file) (env : turn_env) : result (Server Engine unit) :=
  let* engine := OpenEngine edir ewal (mkOptions (4 * 2 ^ 20) false) rnd in
  let* node := NewNode Unmarshal c (mkConfig (so_ID o) (bootstrap_ids o) (so_Peers o) 0 0 0) files rwal in
  match New (so_ID o) engine node (so_Peers o) env with
  | Some (inr s) => Ok s
  | Some (inl er) => Err er
  | None => Panic
  end.

(** ** Witnesses: two entries to apply, the leader's no-op and a put *)

#[local] Instance sample_spec : KVSpec Engine := engine_KVSpec sample_entries sample_fits sample_cost.

Definition put_b : Command := put_cmd (str "b") (str "2") (str "c2") 1.
Definition cmd_bytes (c : Command) : bytes := match encodeCommand c with inr b => b | inl _ => [] end.
Definition two_entries : list Entry := [an_entry 1 1; mkLogEntry 1 2 (cmd_bytes put_b) ENTRY_NORMAL None].
Definition two_node : Node := a_node follower two_entries 1 2.
Definition two_msgs : list ApplyMsg := [CommandMsg [] 1 1; CommandMsg (cmd_bytes put_b) 2 1].
Definition plain_env : turn_env := mkEnv [] plain_order false [].
Definition server_with (n : Node) : Server Engine unit :=
  mkServer 1 n (newStateMachine sample_engine) ∅ ∅ 0 0 (newGRPCTransport ∅).
Definition turn (s : Server Engine unit) (m : ApplyMsg) : Server Engine unit :=
  match applyTurn sample_Marshal s m plain_env with Some (_, s) => s | None => s end.
Definition server1 : Server Engine unit := turn (server_with two_node) (CommandMsg [] 1 1).
Definition server2 : Server Engine unit := turn server1 (CommandMsg (cmd_bytes put_b) 2 1).

Definition two_node' : Node := match applier two_node with Some (_, n) => n | None => two_node end.

Lemma two_node_ok : node_ok two_node.
Proof. apply a_node_ok; [by apply contiguous_forallb|done|done]. Qed.

Lemma put_b_may : msg_may (CommandMsg (cmd_bytes put_b) 2 1).
Proof.
  intros c Hc. assert (gob_Decode (cmd_bytes put_b) = Some put_b) as E by (vm_compute; reflexivity).
  rewrite E in Hc. injection Hc as <-. split; [by left|in_sample].
Qed.

Lemma noop_may : msg_may (CommandMsg [] 1 1).
Proof. intros c Hc. assert (gob_Decode (A := Command) [] = None) as E by (vm_compute; reflexivity). congruence. Qed.

Lemma server_state_is_log_witness :
  applier two_node = Some (two_msgs, two_node') /\
    sv_applied server2 = n_commitIndex two_node /\ StateMachine.get (sv_sm server2) (str "b") = Ok (Some (str "2")).
Proof.
  split; [vm_compute; reflexivity|].
  destruct (server_state_is_log sample_Marshal two_node two_msgs two_node' (server_with two_node) (∅, ∅) server2 two_node_ok) as (_ & Hg & Ha).
  - vm_compute; reflexivity.
  - vm_compute; reflexivity.
  - apply sample_rep.
  - constructor; [apply noop_may|]. constructor; [apply put_b_may|constructor].
  - apply (run_turn sample_Marshal _ [CommandMsg [] 1 1] server1 _ plain_env); [|apply plain_order_ok|vm_compute; reflexivity].
    apply (run_turn sample_Marshal _ [] (server_with two_node) _ plain_env); [constructor|apply plain_order_ok|vm_compute; reflexivity].
  - split; [exact Ha|]. rewrite Hg. vm_compute; reflexivity.
Defined.

(** A proposal at index 2 waits on channel 7. *)
Definition waiting : Server Engine unit := register server1 2 7.
Definition answered : Server Engine unit := turn waiting (CommandMsg (cmd_bytes put_b) 2 1).

Lemma ack_means_applied_witness :
  sv_chans answered !! 7 = Some (mkWait 1 None) /\
  sv_applied answered = 2%N /\ machine_turn waiting (CommandMsg (cmd_bytes put_b) 2 1) plain_env = Some (None, sv_sm answered).
Proof.
  split; [vm_compute; reflexivity|].
  destruct (ack_means_applied sample_Marshal waiting (CommandMsg (cmd_bytes put_b) 2 1) plain_env None answered 7 2 1 (mkWait 1 None))
    as (_ & _ & _ & Ha & Hm).
  - vm_compute; reflexivity.
  - assert (sv_waiters waiting = {[2%N := 7]}) as -> by (vm_compute; reflexivity). by intros j [<- _]%lookup_singleton_Some.
  - vm_compute; reflexivity.
  - vm_compute; reflexivity.
  - vm_compute; reflexivity.
  - vm_compute; reflexivity.
  - split; [exact Ha|exact Hm].
Defined.

Lemma late_waiter_never_woken_witness :
  exists s3, applyLoop sample_Marshal (register server2 2 7) [(CommandMsg [] 3 1, plain_env)] = Some s3 /\
    sv_applied server2 = 2%N /\ machine_turn server1 (CommandMsg (cmd_bytes put_b) 2 1) plain_env = Some (None, sv_sm server2) /\
    sv_chans s3 !! 7 = None.
Proof.
  eexists. split; [vm_compute; reflexivity|].
  apply (late_waiter_never_woken sample_Marshal server1 (CommandMsg (cmd_bytes put_b) 2 1) plain_env server2 7
           [(CommandMsg [] 3 1, plain_env)]).
  - vm_compute; reflexivity.
  - intros j. assert (sv_waiters server2 = ∅) as -> by (vm_compute; reflexivity). by rewrite lookup_empty.
  - vm_compute; reflexivity.
  - constructor; [discriminate|constructor].
  - vm_compute; reflexivity.
Defined.

Lemma get_reads_applied_witness :
  Server.Get server2 (inr 2%N) [(1%N, None); (2%N, None)] (str "b") = Some (Ok (inr (Some (str "2")))) /\
  exists applied w, (applied, w) ∈ [(1%N, None : option wakeup); (2%N, None)] /\ (2 <= applied)%N.
Proof.
  split; [vm_compute; reflexivity|].
  apply (get_reads_applied server2 one_key 2 [(1%N, None); (2%N, None)] (str "b") (Some (str "2"))).
  - assert (sv_sm server2 = one_sm) as -> by (vm_compute; reflexivity). apply one_sm_rep.
  - vm_compute; reflexivity.
Defined.

Lemma replay_converges_witness :
  exists err sm', apply_all (newStateMachine (sm_engine one_sm)) ((put_b, []) :: sample_cmds) = Some (err, sm') /\
    (err = None -> forall key, StateMachine.get sm' key = Ok ((foldl spec_apply (∅, ∅) (put_b :: (fst <$> sample_cmds))).1 !! key)).
Proof.
  apply (replay_converges (sm_engine one_sm) ((put_b, []) :: sample_cmds) 1).
  - apply one_sm_rep.
  - constructor; [split; [by left|in_sample]|apply sample_allowed].
Defined.

(** ** A snapshot overtakes the entries being applied *)

(** A follower whose applier has taken two puts of the key x out of the log, when a
    snapshot of index 5, in which x is newer, is installed. The requests carry no
    client id, so the snapshot's table of sequence numbers is empty. *)
Definition put_x (v : bytes) : Command := put_cmd (str "x") v [] 0.
Definition race_entries : list Entry :=
  [mkLogEntry 1 1 (cmd_bytes (put_x (str "v1"))) ENTRY_NORMAL None; mkLogEntry 1 2 (cmd_bytes (put_x (str "v2"))) ENTRY_NORMAL None].
Definition race1 : Node := a_node follower race_entries 1 2.
Definition race2 : Node := match applier race1 with Some (_, n) => n | None => race1 end.
Definition new_state : bytes :=
  match gob_Encode (mkSnapshotState (<[str "x" := str "v5"]> ∅) (Some ∅)) with Some b => b | None => [] end.
Definition race_req : InstallSnapshotRequest := mkSnapReq 1 2 5 1 new_state [].
Definition race_m1 : ApplyMsg := CommandMsg (cmd_bytes (put_x (str "v1"))) 1 1.
Definition race_m2 : ApplyMsg := CommandMsg (cmd_bytes (put_x (str "v2"))) 2 1.
Definition race_snap : ApplyMsg := SnapshotMsg new_state 5 1.
Definition race_end : Server Engine unit := turn (turn (turn (server_with race2) race_m1) race_snap) race_m2.

(** A snapshot overtakes entries being applied, in a run: the applier takes a batch out of
    the log under the mutex and sends it after releasing it, while the handler of
    InstallSnapshot sends its message on the same channel without any order
    between the two. Here the snapshot of index 5 arrives between the two
    messages of the batch: afterwards the key has the value of index 2 again and
    the applied index is 2, although the node's is 5. *)
Theorem snapshot_overtakes_batch :
  applier race1 = Some ([race_m1; race_m2], race2) /\
  (exists n', HandleInstallSnapshot sample_Marshal clock0 race2 race_req [] = Some (mkSnapResp 1, Some race_snap, true, n') /\
     n_lastApplied n' = 5%N) /\
  applyLoop sample_Marshal (server_with race2) [(race_m1, plain_env); (race_snap, plain_env); (race_m2, plain_env)] = Some race_end /\
  StateMachine.get (sv_sm race_end) (str "x") = Ok (Some (str "v2")) /\ sv_applied race_end = 2%N.
Proof.
  split; [vm_compute; reflexivity|]. split; [eexists; split; vm_compute; reflexivity|]. split_and!; vm_compute; reflexivity.
Qed.
