(* ===== verification/Metrics.v ===== *)
(** server/metrics.go: the counters of the KV RPCs, with the places where
    server/server.go updates them, and the collector that publishes the state of the
    Raft node once a second. *)

From S2P Require Import Prelude Bytes GoIO Messages ConfState DiskStorage StorageCorrect Engine Node StateMachine EngineInstance Transport Server ServerEngine.
#[local] Open Scope N_scope.

(** ** State *)

(** The registered metrics. A vector maps the label op to its counter; of a
    histogram all observations are kept. A gauge holds the integer whose float64
    it is set to. *)
Record metrics := mkMetrics {
  kvRequests : gmap bytes N;
  kvErrors : gmap bytes N;
  kvLatency : gmap bytes (list Z);
  readIndexLatency : list Z;
  proposalsTotal : N;
  leaderElections : N;
  isLeader : N;
  raftTerm : N;
  commitIndex : N;
  appliedIndex : N;
  applyLag : N;
  leaderID : N
}.

Definition no_metrics : metrics := mkMetrics ∅ ∅ ∅ [] 0 0 0 0 0 0 0 0.

(** WithLabelValues(op).Inc() and Observe. *)
Definition inc (v : gmap bytes N) (op : bytes) : gmap bytes N := <[op := default 0 (v !! op) + 1]> v.
Definition observe (v : gmap bytes (list Z)) (op : bytes) (d : Z) : gmap bytes (list Z) := <[op := default [] (v !! op) ++ [d]]> v.
Definition count (v : gmap bytes N) (op : bytes) : N := default 0 (v !! op).

Definition with_kv (m : metrics) (req err : gmap bytes N) (lat : gmap bytes (list Z)) : metrics :=
  mkMetrics req err lat (readIndexLatency m) (proposalsTotal m) (leaderElections m) (isLeader m) (raftTerm m)
    (commitIndex m) (appliedIndex m) (applyLag m) (leaderID m).

(** observeKV; [since] is time.Since(start). *)
Definition observeKV {A} (m : metrics) (op : bytes) (since : Z) (err : option A) : metrics :=
  with_kv m (inc (kvRequests m) op) (match err with Some _ => inc (kvErrors m) op | None => kvErrors m end) (observe (kvLatency m) op since).

(** ** The RPCs *)

Definition proposalsTotal_Inc (m : metrics) : metrics :=
  mkMetrics (kvRequests m) (kvErrors m) (kvLatency m) (readIndexLatency m) (proposalsTotal m + 1) (leaderElections m) (isLeader m) (raftTerm m)
    (commitIndex m) (appliedIndex m) (applyLag m) (leaderID m).
Definition readIndexLatency_Observe (m : metrics) (d : Z) : metrics :=
  mkMetrics (kvRequests m) (kvErrors m) (kvLatency m) (readIndexLatency m ++ [d]) (proposalsTotal m) (leaderElections m) (isLeader m) (raftTerm m)
    (commitIndex m) (appliedIndex m) (applyLag m) (leaderID m).

(** ** The collector *)

Section collector.
Context {E conn : Type}.

(** One tick of runMetricsCollector. The server is read three times, without its
    lock in between: [s1] by Status, [s2] by CommitIndex, [s3] for s.applied. *)
Definition collect (m : metrics) (wasLeader : bool) (s1 s2 s3 : Server E conn) : metrics * bool :=
  let '(term, isL, lid) := Node.Status (sv_node s1) in
  let commit := Node.CommitIndex (sv_node s2) in
  let applied := sv_applied s3 in
  let elections := if isL && negb wasLeader then leaderElections m + 1 else leaderElections m in
  let lag := if (applied <=? commit) then (commit -64 applied) else 0 in
  (mkMetrics (kvRequests m) (kvErrors m) (kvLatency m) (readIndexLatency m) (proposalsTotal m) elections (if isL then 1 else 0) term
     commit applied lag lid, isL).

(** The loop, over the ticks before stop is closed. *)
Fixpoint runMetricsCollector (m : metrics) (wasLeader : bool) (ticks : list (Server E conn * Server E conn * Server E conn)) : metrics :=
  match ticks with
  | [] => m
  | (s1, s2, s3) :: ticks => let '(m, wasLeader) := collect m wasLeader s1 s2 s3 in runMetricsCollector m wasLeader ticks
  end.

(** ** Gauges *)

(** A tick publishes the node as it was read: its role, term, leader, commit and
    applied index; and the lag is commit minus applied, or 0 when the applied index,
    read last, has overtaken the commit index: it never wraps. *)
Theorem collect_publishes m wasLeader s1 s2 s3 m' isL :
  n_commitIndex (sv_node s2) < two64 -> collect m wasLeader s1 s2 s3 = (m', isL) ->
  (isLeader m' = 1 <-> n_role (sv_node s1) = leader) /\ raftTerm m' = n_term (sv_node s1) /\ leaderID m' = n_leaderID (sv_node s1) /\
  commitIndex m' = n_commitIndex (sv_node s2) /\ appliedIndex m' = sv_applied s3 /\
  Z.of_N (applyLag m') = Z.max 0 (Z.of_N (n_commitIndex (sv_node s2)) - Z.of_N (sv_applied s3)).
Proof.
  intros Hw. unfold collect, Node.Status, Node.CommitIndex. intros [= <- <-]. simpl. split_and!; try reflexivity.
  - case_bool_decide; by split.
  - destruct (N.leb_spec (sv_applied s3) (n_commitIndex (sv_node s2))) as [H|H]; [|lia]. rewrite sub64_small by lia. lia.
Qed.

(** ** Elections *)

(** How often a sequence of samples goes from false to true. *)
Fixpoint rising (prev : bool) (l : list bool) : N :=
  match l with
  | [] => 0
  | b :: l => (if b && negb prev then 1 else 0) + rising b l
  end.

Lemma rising_prev l : rising true l <= rising false l <= rising true l + 1.
Proof. destruct l as [|[] l]; simpl; lia. Qed.

Lemma rising_sublist prev l k : sublist l k -> rising prev l <= rising prev k.
Proof.
  intros H. revert prev. induction H as [|x l k _ IH|x l k _ IH]; intros prev; cbn [rising]; [lia|specialize (IH x); lia|].
  pose proof (rising_prev k). pose proof (rising_prev l). specialize (IH prev). destruct x, prev; simpl; lia.
Qed.

Definition leads (n : Node) : bool := (Node.Status n).1.2.

Lemma collector_elections m wasLeader ticks :
  leaderElections (runMetricsCollector m wasLeader ticks) = leaderElections m + rising wasLeader ((fun t => leads (sv_node t.1.1)) <$> ticks).
Proof.
  revert m wasLeader. induction ticks as [|[[s1 s2] s3] ticks IH]; intros m wasLeader; cbn [runMetricsCollector fmap list_fmap rising]; [lia|].
  unfold collect. destruct (Node.Status (sv_node s1)) as [[term isL] lid] eqn:Es. cbn beta iota zeta. rewrite IH. cbn [leaderElections].
  assert (leads (sv_node (s1, s2, s3).1.1) = isL) as -> by (unfold leads; cbn [fst snd]; by rewrite Es). destruct (isL && negb wasLeader); lia.
Qed.

(** The counter of elections never overstates: when the collector's ticks see some
    of the states [run] a node went through, in their order, leaderElections grows
    by at most the number of times the node became leader in that run. *)
Theorem elections_not_overcounted m ticks (run : list Node) :
  sublist ((fun t => sv_node t.1.1) <$> ticks) run ->
  leaderElections (runMetricsCollector m false ticks) <= leaderElections m + rising false (leads <$> run).
Proof.
  intros H. rewrite collector_elections. apply N.add_le_mono_l, rising_sublist.
  assert ((fun t : Server E conn * Server E conn * Server E conn => leads (sv_node t.1.1)) <$> ticks = leads <$> ((fun t => sv_node t.1.1) <$> ticks)) as ->
    by (by rewrite <-list_fmap_compose).
  induction H; simpl; by constructor.
Qed.

(** It can understate: a node that loses leadership and wins the next election
    between two ticks became leader twice, and the counter has one of them. *)
Theorem elections_undercounted (s : Server E conn) :
  n_role (sv_node s) = leader ->
  let run := [sv_node s; set_role (sv_node s) follower; sv_node s] in
  sublist ((fun t => sv_node t.1.1) <$> [(s, s, s); (s, s, s)]) run /\ rising false (leads <$> run) = 2 /\
  leaderElections (runMetricsCollector no_metrics false [(s, s, s); (s, s, s)]) = 1.
Proof.
  intros Hl run. assert (leads (sv_node s) = true) as Hln by (unfold leads, Node.Status; simpl; by rewrite bool_decide_true). split_and!.
  - cbn [fmap list_fmap]. unfold run. apply sublist_skip, sublist_cons, sublist_skip, sublist_nil.
  - unfold run. cbn [fmap list_fmap rising]. rewrite Hln. reflexivity.
  - rewrite collector_elections. cbn [fmap list_fmap rising]. simpl. rewrite Hln. reflexivity.
Qed.

End collector.

(** ** The RPCs, with their metrics *)

(** What the handlers of server.go answer. *)
Inductive response :=
  | Written
  | Found (v : option bytes)
  | Failed (er : status).

(** Where a call of propose stands: before the proposal, before it registers its
    waiter, and in its select. *)
Inductive propose_state :=
  | Proposing (cmd : Command)
  | Registering (index term : N)
  | Waiting (index term : N).

(** Where Get stands: in ReadIndex, in its loop, and before the lookup. *)
Inductive get_state :=
  | Reading (riStart : Z)
  | Looping (readIdx : N)
  | Looking.

(** What an RPC meets at its next step: the channel it makes, what its select
    yields, the answer of ReadIndex, and how a turn of Get's loop ends. *)
Inductive input :=
  | InRun
  | InChannel (ch : nat)
  | InSelect (w : wakeup)
  | InRead (r : sum error N)
  | InTurn (w : option wakeup).

Section rpcs.
Context {E : Type} {KV : KVEngine E} {GC : Gob Command} {GS : Gob snapshotState} {conn : Type}.
Context (Marshal : Entry -> bytes).
Abbreviation server := (Server E conn).

(** A step of propose: it returns, or goes on. *)
Definition propose_step (s : server) (p : propose_state) (i : input) : option (sum (option status) propose_state * server) :=
  match p, i with
  | Proposing cmd, InRun =>
      '(r, s) ← propose Marshal s cmd;
      Some (match r with inl er => inl (Some er) | inr (index, term) => inr (Registering index term) end, s)
  | Registering index term, InChannel ch => Some (inr (Waiting index term), register s index ch)
  | Waiting index term, InSelect w => let '(err, s) := propose_end s index term w in Some (inl err, s)
  | _, _ => None
  end.

Definition written (err : option status) : response := match err with Some er => Failed er | None => Written end.

(** Put and Delete: they count the proposal, call propose, and observe its error. *)
Definition Put_start (m : metrics) (key value clientId : bytes) (seq : N) : propose_state * metrics :=
  (Proposing (mkCommand (str "put") key value clientId seq), proposalsTotal_Inc m).
Definition Put_step (now start : Z) (p : propose_state) (i : input) (s : server) (m : metrics) :
    option (sum response propose_state * server * metrics) :=
  '(r, s) ← propose_step s p i;
  match r with
  | inr p => Some (inr p, s, m)
  | inl err => Some (inl (written err), s, observeKV m (str "put") (now - start)%Z err)
  end.

Definition Delete_start (m : metrics) (key clientId : bytes) (seq : N) : propose_state * metrics :=
  (Proposing (mkCommand (str "delete") key [] clientId seq), proposalsTotal_Inc m).
Definition Delete_step (now start : Z) (p : propose_state) (i : input) (s : server) (m : metrics) :
    option (sum response propose_state * server * metrics) :=
  '(r, s) ← propose_step s p i;
  match r with
  | inr p => Some (inr p, s, m)
  | inl err => Some (inl (written err), s, observeKV m (str "delete") (now - start)%Z err)
  end.

(** Get: every path out of it observes. *)
Definition Get_step (now start : Z) (key : bytes) (g : get_state) (i : input) (s : server) (m : metrics) :
    option (sum response get_state * server * metrics) :=
  match g, i with
  | Reading riStart, InRead r =>
      let m := readIndexLatency_Observe m (now - riStart)%Z in
      match r with
      | inl er => Some (inl (Failed (notLeaderErr s)), s, observeKV m (str "get") (now - start)%Z (Some er))
      | inr readIdx => Some (inr (Looping readIdx), s, m)
      end
  | Looping readIdx, InTurn w =>
      if readIdx <=? sv_applied s then Some (inr Looking, s, m)
      else
        match w with
        | Some Expired =>
            let er := mkStatus Unavailable (str "apply lag on read") in
            Some (inl (Failed er), s, observeKV m (str "get") (now - start)%Z (Some er))
        | Some (CtxDone ctxErr) =>
            let er := mkStatus DeadlineExceeded ctxErr in
            Some (inl (Failed er), s, observeKV m (str "get") (now - start)%Z (Some er))
        | _ => Some (inr (Looping readIdx), s, m)
        end
  | Looking, InRun =>
      match StateMachine.get (sv_sm s) key with
      | Err er => Some (inl (Failed (mkStatus Internal (error_text er))), s, observeKV m (str "get") (now - start)%Z (Some er))
      | Ok v => Some (inl (Found v), s, observeKV m (str "get") (now - start)%Z (@None error))
      | Panic => None
      end
  | _, _ => None
  end.

(** *** All of them at once *)

Inductive kv_op := OpPut | OpDelete | OpGet.
#[global] Instance kv_op_eq_dec : EqDecision kv_op.
Proof. solve_decision. Defined.
Definition label (o : kv_op) : bytes := match o with OpPut => str "put" | OpDelete => str "delete" | OpGet => str "get" end.

Inductive running :=
  | RunPut (start : Z) (p : propose_state)
  | RunDelete (start : Z) (p : propose_state)
  | RunGet (start : Z) (key : bytes) (g : get_state).

(** The server, the metrics, the RPCs that run, and those that were answered. *)
Record world := mkWorld {
  wo_server : server;
  wo_metrics : metrics;
  wo_running : gmap nat running;
  wo_answered : list (kv_op * response)
}.

(** A request arrives, an RPC takes a step, the collector ticks, or another part of
    the program changes the server. *)
Inductive action :=
  | ActPut (id : nat) (now : Z) (key value clientId : bytes) (seq : N)
  | ActDelete (id : nat) (now : Z) (key clientId : bytes) (seq : N)
  | ActGet (id : nat) (now : Z) (key : bytes)
  | ActStep (id : nat) (now : Z) (i : input)
  | ActCollect (wasLeader : bool) (s1 s2 s3 : server)
  | ActServer (s : server).

Definition arrive (w : world) (id : nat) (r : running) (m : metrics) : option world :=
  match wo_running w !! id with
  | Some _ => None
  | None => Some (mkWorld (wo_server w) m (<[id := r]> (wo_running w)) (wo_answered w))
  end.

(** What a step of an RPC makes of the world: it was answered, or it goes on. *)
Definition stepped {A} (w : world) (id : nat) (o : kv_op) (next : A -> running) (x : sum response A * server * metrics) : world :=
  let '(r, s, m) := x in
  match r with
  | inl resp => mkWorld s m (delete id (wo_running w)) (wo_answered w ++ [(o, resp)])
  | inr a => mkWorld s m (<[id := next a]> (wo_running w)) (wo_answered w)
  end.

Definition world_step (w : world) (a : action) : option world :=
  match a with
  | ActPut id now key value clientId seq =>
      let '(p, m) := Put_start (wo_metrics w) key value clientId seq in arrive w id (RunPut now p) m
  | ActDelete id now key clientId seq =>
      let '(p, m) := Delete_start (wo_metrics w) key clientId seq in arrive w id (RunDelete now p) m
  | ActGet id now key => arrive w id (RunGet now key (Reading now)) (wo_metrics w)
  | ActStep id now i =>
      r ← wo_running w !! id;
      match r with
      | RunPut start p => stepped w id OpPut (RunPut start) <$> Put_step now start p i (wo_server w) (wo_metrics w)
      | RunDelete start p => stepped w id OpDelete (RunDelete start) <$> Delete_step now start p i (wo_server w) (wo_metrics w)
      | RunGet start key g => stepped w id OpGet (RunGet start key) <$> Get_step now start key g i (wo_server w) (wo_metrics w)
      end
  | ActCollect wasLeader s1 s2 s3 =>
      Some (mkWorld (wo_server w) (collect (wo_metrics w) wasLeader s1 s2 s3).1 (wo_running w) (wo_answered w))
  | ActServer s => Some (mkWorld s (wo_metrics w) (wo_running w) (wo_answered w))
  end.

Fixpoint world_run (w : world) (actions : list action) : option world :=
  match actions with
  | [] => Some w
  | a :: actions => w ← world_step w a; world_run w actions
  end.

Definition start_world (s : server) : world := mkWorld s no_metrics ∅ [].

(** *** What the metrics count *)

Definition failed (resp : response) : Prop := match resp with Failed _ => True | _ => False end.
#[global] Instance failed_dec resp : Decision (failed resp).
Proof. destruct resp; simpl; apply _. Defined.

(** The number of running RPCs with a property. *)
Definition tally (P : running -> bool) (m : gmap nat running) : N := map_fold (fun _ r n => (if P r then 1 else 0) + n) 0 m.
Definition is_write (r : running) : bool := match r with RunGet _ _ _ => false | _ => true end.
Definition past_read (r : running) : bool := match r with RunGet _ _ (Looping _ | Looking) => true | _ => false end.

Lemma tally_new P m id r : m !! id = None -> tally P (<[id := r]> m) = (if P r then 1 else 0) + tally P m.
Proof. intros H. apply (map_fold_insert_L (fun (_ : nat) r n => (if P r then 1 else 0) + n)); [|done]. intros. lia. Qed.

Lemma tally_gone P m id r : m !! id = Some r -> tally P m = (if P r then 1 else 0) + tally P (delete id m).
Proof. intros H. apply (map_fold_delete_L (fun (_ : nat) r n => (if P r then 1 else 0) + n)); [|done]. intros. lia. Qed.

Lemma tally_moved P m id r r' : m !! id = Some r -> tally P (<[id := r']> m) + (if P r then 1 else 0) = tally P m + (if P r' then 1 else 0).
Proof.
  intros H. rewrite (tally_gone _ _ _ _ H), <-insert_delete_eq, tally_new by apply lookup_delete_eq. lia.
Qed.

Lemma count_inc v op op' : count (inc v op) op' = count v op' + (if decide (op = op') then 1 else 0).
Proof.
  unfold count, inc. case_decide as H; [subst; by rewrite lookup_insert_eq|]. rewrite lookup_insert_ne by done. lia.
Qed.

Definition observed (m : metrics) (op : bytes) : N := len (default [] (kvLatency m !! op)).
Lemma len_observe v op op' d :
  len (default [] (observe v op d !! op')) = len (default [] (v !! op')) + (if decide (op = op') then 1 else 0).
Proof.
  unfold observe. case_decide as H; [subst; rewrite lookup_insert_eq; simpl; rewrite len_app; unfold len; simpl; lia|].
  rewrite lookup_insert_ne by done. lia.
Qed.

Lemma observeKV_counts {A} m op since (err : option A) op' :
  count (kvRequests (observeKV m op since err)) op' = count (kvRequests m) op' + (if decide (op = op') then 1 else 0) /\
  count (kvErrors (observeKV m op since err)) op' = count (kvErrors m) op' + (if decide (op = op') then match err with Some _ => 1 | None => 0 end else 0) /\
  observed (observeKV m op since err) op' = observed m op' + (if decide (op = op') then 1 else 0).
Proof.
  unfold observed, observeKV. cbn [with_kv kvRequests kvErrors kvLatency]. rewrite count_inc, len_observe. split_and!; try done.
  destruct err; [apply count_inc|]. destruct (decide _); lia.
Qed.

Definition tried (answered : list (kv_op * response)) (o : kv_op) : N := len (filter (fun x => x.1 = o) answered).
Definition erred (answered : list (kv_op * response)) (o : kv_op) : N := len (filter (fun x => x.1 = o /\ failed x.2) answered).

Lemma tried_snoc l o resp o' : tried (l ++ [(o, resp)]) o' = tried l o' + (if decide (o = o') then 1 else 0).
Proof. unfold tried. rewrite filter_app, len_app, filter_cons, filter_nil. simpl. case_decide; unfold len; simpl; lia. Qed.

Lemma erred_snoc l o resp o' : erred (l ++ [(o, resp)]) o' = erred l o' + (if decide (o = o') then if decide (failed resp) then 1 else 0 else 0).
Proof. unfold erred. rewrite filter_app, len_app, filter_cons, filter_nil. simpl. repeat case_decide; unfold len; simpl; first [lia|tauto]. Qed.

Record counted (w : world) : Prop := {
  co_requests : forall o, count (kvRequests (wo_metrics w)) (label o) = tried (wo_answered w) o;
  co_latency : forall o, observed (wo_metrics w) (label o) = tried (wo_answered w) o;
  co_errors : forall o, count (kvErrors (wo_metrics w)) (label o) = erred (wo_answered w) o;
  co_proposals : proposalsTotal (wo_metrics w) = tried (wo_answered w) OpPut + tried (wo_answered w) OpDelete + tally is_write (wo_running w);
  co_reads : len (readIndexLatency (wo_metrics w)) = tried (wo_answered w) OpGet + tally past_read (wo_running w)
}.

Definition same_kv (m m' : metrics) : Prop :=
  kvRequests m' = kvRequests m /\ kvErrors m' = kvErrors m /\ kvLatency m' = kvLatency m /\ proposalsTotal m' = proposalsTotal m.

Definition op_of (r : running) : kv_op := match r with RunPut _ _ => OpPut | RunDelete _ _ => OpDelete | RunGet _ _ _ => OpGet end.

Lemma label_inj o o' : label o = label o' -> o = o'.
Proof. by destruct o, o'. Qed.

Lemma label_decide {A} o o' (x y : A) : (if decide (label o = label o') then x else y) = if decide (o = o') then x else y.
Proof. apply decide_ext. split; [apply label_inj|by intros ->]. Qed.

(** An RPC that is answered: it observed its own label once, with an error if and
    only if it answers one. *)
Lemma answered_counted {A} w s m id r resp since (err : option A) :
  counted w -> wo_running w !! id = Some r -> same_kv (wo_metrics w) m ->
  len (readIndexLatency m) + (if past_read r then 1 else 0) = len (readIndexLatency (wo_metrics w)) + (if is_write r then 0 else 1) ->
  (err = None <-> ~ failed resp) ->
  counted (mkWorld s (observeKV m (label (op_of r)) since err) (delete id (wo_running w)) (wo_answered w ++ [(op_of r, resp)])).
Proof.
  intros [H1 H2 H3 H4 H5] Hr (E1 & E2 & E3 & E4) Hread Herr. pose proof (tally_gone is_write _ _ _ Hr) as Tw. pose proof (tally_gone past_read _ _ _ Hr) as Tr.
  split; cbn [wo_metrics wo_answered wo_running]; try (intros o; destruct (observeKV_counts m (label (op_of r)) since err (label o)) as (C1 & C2 & C3); rewrite label_decide in C1, C2, C3).
  - by rewrite C1, E1, H1, tried_snoc.
  - rewrite C3, tried_snoc, <-H2. unfold observed. by rewrite E3.
  - rewrite C2, E2, H3, erred_snoc. destruct (decide (op_of r = o)); [|done]. destruct err as [x|]; case_decide as Hf; try done.
    + by apply Herr in Hf.
    + by destruct (proj1 Herr eq_refl).
  - change (proposalsTotal (observeKV _ _ _ _)) with (proposalsTotal m). rewrite E4, H4, Tw, !tried_snoc. destruct r; simpl; lia.
  - change (readIndexLatency (observeKV _ _ _ _)) with (readIndexLatency m). rewrite tried_snoc. destruct r; simpl in *; lia.
Qed.

(** One that goes on. *)
Lemma moved_counted w s m id r r' :
  counted w -> wo_running w !! id = Some r -> same_kv (wo_metrics w) m -> is_write r' = is_write r ->
  len (readIndexLatency m) + (if past_read r then 1 else 0) = len (readIndexLatency (wo_metrics w)) + (if past_read r' then 1 else 0) ->
  counted (mkWorld s m (<[id := r']> (wo_running w)) (wo_answered w)).
Proof.
  intros [H1 H2 H3 H4 H5] Hr (E1 & E2 & E3 & E4) Hw Hread. pose proof (tally_moved is_write _ _ _ r' Hr) as Tw. pose proof (tally_moved past_read _ _ _ r' Hr) as Tr.
  rewrite Hw in Tw. split; cbn [wo_metrics wo_answered wo_running]; [intros o; by rewrite E1|intros o; rewrite <-H2; unfold observed; by rewrite E3|intros o; by rewrite E2|rewrite E4, H4; lia|lia].
Qed.

Lemma arrive_counted w id r m w' :
  counted w -> arrive w id r m = Some w' -> kvRequests m = kvRequests (wo_metrics w) -> kvErrors m = kvErrors (wo_metrics w) ->
  kvLatency m = kvLatency (wo_metrics w) -> readIndexLatency m = readIndexLatency (wo_metrics w) -> past_read r = false ->
  proposalsTotal m = proposalsTotal (wo_metrics w) + (if is_write r then 1 else 0) -> counted w'.
Proof.
  intros [H1 H2 H3 H4 H5]. unfold arrive. destruct (wo_running w !! id) eqn:Er; [done|]. intros [= <-] E1 E2 E3 E4 Hp E5.
  split; cbn [wo_metrics wo_answered wo_running]; rewrite ?tally_new, ?Hp by done; [intros o; by rewrite E1|intros o; rewrite <-H2; unfold observed; by rewrite E3|intros o; by rewrite E2|rewrite E5, H4; lia|rewrite E4, H5; lia].
Qed.

Lemma write_failed err : err = None <-> ~ failed (written err).
Proof. destruct err; simpl; split; try done; tauto. Qed.

Lemma Get_counted w id now start key g i x :
  counted w -> wo_running w !! id = Some (RunGet start key g) -> Get_step now start key g i (wo_server w) (wo_metrics w) = Some x ->
  counted (stepped w id OpGet (RunGet start key) x).
Proof.
  intros Hc Hr. unfold Get_step. destruct g as [riStart|readIdx|], i as [|ch|wk|r|wk]; try done.
  - destruct r as [er|readIdx]; intros [= <-]; cbn [stepped].
    + refine (answered_counted w _ _ id _ _ _ _ Hc Hr _ _ _); [done|simpl; rewrite len_app; unfold len; simpl; lia|split; [done|simpl; tauto]].
    + refine (moved_counted w _ _ id _ _ Hc Hr _ _ _); [done|done|]. simpl. rewrite len_app. unfold len. simpl. lia.
  - destruct (_ <=? _); [intros [= <-]; by apply (moved_counted w _ _ id _ _ Hc Hr)|].
    destruct wk as [[r|ctxErr|]|]; intros [= <-]; cbn [stepped];
      first [by apply (moved_counted w _ _ id _ _ Hc Hr)
            |refine (answered_counted w _ _ id _ _ _ _ Hc Hr _ _ _); [done|done|split; [done|simpl; tauto]]].
  - destruct (StateMachine.get _ _) as [v|er|]; [| |done]; intros [= <-]; cbn [stepped];
      refine (answered_counted w _ _ id _ _ _ _ Hc Hr _ _ _); try done; simpl; split; try done; tauto.
Qed.

Lemma world_step_counted w a w' : counted w -> world_step w a = Some w' -> counted w'.
Proof.
  intros Hc. destruct a as [id now key value cid seq|id now key cid seq|id now key|id now i|wl s1 s2 s3|s]; cbn [world_step].
  - cbn [Put_start]. intros H. by eapply arrive_counted.
  - cbn [Delete_start]. intros H. by eapply arrive_counted.
  - intros H. eapply arrive_counted; try done. simpl. lia.
  - destruct (wo_running w !! id) as [[start p|start p|start key g]|] eqn:Er; [| | |done]; cbn [mbind option_bind].
    + unfold Put_step. destruct (propose_step _ _ _) as [[[err|p'] s]|]; [| |done]; intros [= <-]; cbn [stepped].
      * exact (answered_counted w _ _ id _ _ _ err Hc Er ltac:(done) eq_refl (write_failed err)).
      * by apply (moved_counted w _ _ id _ _ Hc Er).
    + unfold Delete_step. destruct (propose_step _ _ _) as [[[err|p'] s]|]; [| |done]; intros [= <-]; cbn [stepped].
      * exact (answered_counted w _ _ id _ _ _ err Hc Er ltac:(done) eq_refl (write_failed err)).
      * by apply (moved_counted w _ _ id _ _ Hc Er).
    + destruct (Get_step _ _ _ _ _ _ _) as [x|] eqn:Eg; [|done]. intros [= <-]. by eapply Get_counted.
  - intros [= <-]. destruct Hc as [H1 H2 H3 H4 H5]. unfold collect. destruct (Node.Status (sv_node s1)) as [[term isL] lid]. by split.
  - intros [= <-]. destruct Hc as [H1 H2 H3 H4 H5]. by split.
Qed.

(** C33. The metrics count the RPCs: in any interleaving of the handlers of Put, Delete
    and Get, on any of their paths, with the collector and the rest of the server,
    the counter of requests of an operation and the number of its observed latencies
    are the number of its RPCs that were answered; its counter of errors is the
    number of those answered with an error; the counter of proposals is the number
    of writes that arrived, and the latencies of ReadIndex are as many as the reads
    that came past it. *)
Theorem rpc_counters s actions w :
  world_run (start_world s) actions = Some w ->
  (forall o, count (kvRequests (wo_metrics w)) (label o) = tried (wo_answered w) o /\
             observed (wo_metrics w) (label o) = tried (wo_answered w) o /\
             count (kvErrors (wo_metrics w)) (label o) = erred (wo_answered w) o) /\
  proposalsTotal (wo_metrics w) = tried (wo_answered w) OpPut + tried (wo_answered w) OpDelete + tally is_write (wo_running w) /\
  len (readIndexLatency (wo_metrics w)) = tried (wo_answered w) OpGet + tally past_read (wo_running w).
Proof.
  assert (counted (start_world s)) as H0 by by split. revert H0. generalize (start_world s). clear s.
  induction actions as [|a actions IH]; intros w0 H0; cbn [world_run].
  - intros [= <-]. destruct H0 as [H1 H2 H3 H4 H5]. by split_and!.
  - destruct (world_step w0 a) as [w1|] eqn:Es; [|done]. cbn [mbind option_bind]. apply IH. by eapply world_step_counted.
Qed.

End rpcs.

(** ** Witness: on a follower a put fails, one read finds its key and another runs
    out of time, and a delete has just arrived *)

Definition sample_actions : list (action (E := Engine.Engine) (conn := unit)) :=
  [ActPut 1 0 (str "b") (str "3") (str "c2") 2; ActGet 2 0 (str "b"); ActGet 3 0 (str "b"); ActStep 1 5 InRun; ActStep 2 6 (InRead (inr 2));
   ActDelete 4 7 (str "b") (str "c2") 3; ActStep 3 8 (InRead (inr 9)); ActStep 2 9 (InTurn None); ActStep 3 9 (InTurn None); ActStep 2 9 InRun;
   ActCollect false server2 server2 server2; ActStep 3 3009 (InTurn (Some Expired))].

Lemma rpc_counters_witness :
  exists w, world_run sample_Marshal (start_world server2) sample_actions = Some w /\
    wo_answered w = [(OpPut, Failed (mkStatus FailedPrecondition (str "not leader; leader=0"))); (OpGet, Found (Some (str "2")));
                     (OpGet, Failed (mkStatus Unavailable (str "apply lag on read")))] /\
    count (kvRequests (wo_metrics w)) (str "get") = 2 /\ count (kvErrors (wo_metrics w)) (str "get") = 1 /\ proposalsTotal (wo_metrics w) = 2.
Proof.
  assert ((fun w => (wo_answered w, tally is_write (wo_running w))) <$> world_run sample_Marshal (start_world server2) sample_actions =
    Some ([(OpPut, Failed (mkStatus FailedPrecondition (str "not leader; leader=0"))); (OpGet, Found (Some (str "2")));
           (OpGet, Failed (mkStatus Unavailable (str "apply lag on read")))], 1)) as Hrun by (vm_compute; reflexivity).
  apply fmap_Some in Hrun as (w & Er & Hw). injection Hw as Ha Ht. exists w. split; [exact Er|]. split; [by rewrite Ha|].
  destruct (rpc_counters sample_Marshal server2 sample_actions w Er) as (Hc & Hp & _). destruct (Hc OpGet) as (H1 & _ & H2).
  cbn [label] in H1, H2. rewrite H1, H2, Hp, <-Ht, <-Ha. by split_and!.
Defined.
