(* ===== verification/Client.v ===== *)
(** client/client.go: the client's connections, the order in which it tries the nodes,
    its retry loop, and its operations: each is one RPC, retried. The operations are
    given for RPCs whose answers are a function of the call, and ([try_in], [Put_in],
    [Delete_in], [Get_in]) for RPCs that change the state of the cluster. *)

From S2P Require Import Prelude Bytes GoIO Memtable Engine Layers StateMachine EngineInstance Messages Transport Server.

(** ** State *)

Section client.

(** google.golang.org/grpc: a connection to a node. *)
Context {conn : Type} (NewClient : bytes -> sum error conn).

Record Client := mkClient {
  cl_addrs : list bytes;
  cl_conns : gmap bytes conn;
  cl_leader : bytes;
  cl_id : bytes;
  cl_seq : N
}.

Definition set_conns (c : Client) (m : gmap bytes conn) : Client :=
  mkClient (cl_addrs c) m (cl_leader c) (cl_id c) (cl_seq c).
Definition set_leader (c : Client) (a : bytes) : Client :=
  mkClient (cl_addrs c) (cl_conns c) a (cl_id c) (cl_seq c).
Definition set_seq (c : Client) (n : N) : Client :=
  mkClient (cl_addrs c) (cl_conns c) (cl_leader c) (cl_id c) n.

(** New; [now] and [rnd] are what time.Now().UnixNano and rand.Int63 answer. *)
Definition New (addrs : list bytes) (now rnd : N) : Client :=
  mkClient addrs ∅ [] (str "c" ++ decimal now ++ str "-" ++ decimal rnd) 0.

Definition conn_to (c : Client) (addr : bytes) : sum error conn * Client :=
  match cl_conns c !! addr with
  | Some cl => (inr cl, c)
  | None =>
      match NewClient addr with
      | inl er => (inl er, c)
      | inr cl => (inr cl, set_conns c (<[addr := cl]> (cl_conns c)))
      end
  end.

(** The last known leader first, then every other node. *)
Definition order (c : Client) : list bytes :=
  (if bytes_eqb (cl_leader c) [] then [] else [cl_leader c]) ++ filter (fun a => a <> cl_leader c) (cl_addrs c).

(** ** The retry loop *)

(** What the caller's context answers to an observation: ctx.Err, and whether select
    prefers a done context to the timer. *)
Record context := mkContext {
  cx_Err : nat -> option error;
  cx_pick : nat -> bool
}.

(** The end of try, or of a round in which every node failed. A function [fn] that
    returns nil has set the variables it shares with its caller: its result is
    the error or those values. *)
Inductive tried (A : Type) :=
  | Returned (r : sum error A) (c : Client) (now : nat)
  | Exhausted (c : Client) (now : nat) (lastErr : option error).
Arguments Returned {A} r c now.
Arguments Exhausted {A} c now lastErr.

(** fmt.Errorf("distkv: %w (last: %v)", ctx.Err(), lastErr) *)
Definition expired (ctxErr : error) (lastErr : option error) : error :=
  Errorf (str "distkv: " ++ error_text ctxErr ++ str " (last: " ++
          match lastErr with Some e => error_text e | None => str "<nil>" end ++ str ")").

(** The inner loop over the nodes; [fn] answers by the number of the observation. *)
Fixpoint try_nodes {A} (ctx : context) (fn : nat -> conn -> sum error A) (c : Client) (addrs : list bytes) (now : nat) (lastErr : option error) : tried A :=
  match addrs with
  | [] => Exhausted c now lastErr
  | addr :: addrs =>
      match cx_Err ctx now with
      | Some e => Returned (inl (expired e lastErr)) c now
      | None =>
          match conn_to c addr with
          | (inl er, c) => try_nodes ctx fn c addrs (S now) (Some er)
          | (inr cl, c) =>
              match fn now cl with
              | inl er =>
                  let c := if bytes_eqb (cl_leader c) addr then set_leader c [] else c in
                  try_nodes ctx fn c addrs (S now) (Some er)
              | inr a => Returned (inr a) (set_leader c addr) now
              end
          end
      end
  end.

Definition Millis : Z := 1000000.
Definition first_backoff : Z := 20 * Millis.
Definition next_backoff (b : Z) : Z := if (b <? 500 * Millis)%Z then (b * 2)%Z else b.

(** The outer loop: one round over the nodes, then the select. *)
Fixpoint try_loop {A} (fuel : nat) (ctx : context) (fn : nat -> conn -> sum error A) (c : Client) (now : nat) (lastErr : option error) (backoff : Z) :
    option (sum error A * Client) :=
  match fuel with
  | O => None
  | S fuel =>
      match try_nodes ctx fn c (order c) now lastErr with
      | Returned r c _ => Some (r, c)
      | Exhausted c now lastErr =>
          match cx_Err ctx now with
          | Some e => if cx_pick ctx now then Some (inl (expired e lastErr), c)
                      else try_loop fuel ctx fn c (S now) lastErr (next_backoff backoff)
          | None => try_loop fuel ctx fn c (S now) lastErr (next_backoff backoff)
          end
      end
  end.

Definition try {A} (fuel : nat) (ctx : context) (fn : nat -> conn -> sum error A) (c : Client) : option (sum error A * Client) :=
  try_loop fuel ctx fn c 0 None first_backoff.

(** ** Requests *)

(** kvpb.PutRequest and kvpb.DeleteRequest. *)
Record PutRequest := mkPutRequest { pr_Key : bytes; pr_Value : bytes; pr_ClientId : bytes; pr_Seq : N }.
Record DeleteRequest := mkDeleteRequest { dr_Key : bytes; dr_ClientId : bytes; dr_Seq : N }.

(** kvpb.KVClient: the answers of the RPCs on a connection, each within the timeout of
    its call, by the number of the observation. *)
Record KVClient := mkKVClient {
  rpc_Put : PutRequest -> nat -> conn -> sum error unit;
  rpc_Delete : DeleteRequest -> nat -> conn -> sum error unit;
  rpc_Get : bytes -> nat -> conn -> sum error (bytes * bool);
  rpc_Status : conn -> sum error StatusResponse;
  rpc_ListMembers : nat -> conn -> sum error (bool * list MemberInfo);
  rpc_AddMember : N -> bytes -> nat -> conn -> sum error unit;
  rpc_RemoveMember : N -> nat -> conn -> sum error unit
}.

(** The request all attempts of a write share; c.seq.Add(1) names it. *)
Definition put_request (c : Client) (key value : bytes) : PutRequest * Client :=
  let seq := (cl_seq c +64 1)%N in (mkPutRequest key value (cl_id c) seq, set_seq c seq).
Definition delete_request (c : Client) (key : bytes) : DeleteRequest * Client :=
  let seq := (cl_seq c +64 1)%N in (mkDeleteRequest key (cl_id c) seq, set_seq c seq).

Section operations.
Context (kv : KVClient) (fuel : nat) (ctx : context).

Definition Put (c : Client) (key value : bytes) : option (sum error unit * Client) :=
  let '(req, c) := put_request c key value in try fuel ctx (rpc_Put kv req) c.

Definition Delete (c : Client) (key : bytes) : option (sum error unit * Client) :=
  let '(req, c) := delete_request c key in try fuel ctx (rpc_Delete kv req) c.

Definition Get (c : Client) (key : bytes) : option (sum error (bytes * bool) * Client) := try fuel ctx (rpc_Get kv key) c.

(** Status asks one node, without a retry. *)
Definition Status (c : Client) (addr : bytes) : sum error StatusResponse * Client :=
  match conn_to c addr with
  | (inl er, c) => (inl er, c)
  | (inr cl, c) => (rpc_Status kv cl, c)
  end.

Definition Addrs (c : Client) : list bytes := cl_addrs c.

Definition ListMembers (c : Client) : option (sum error (bool * list MemberInfo) * Client) := try fuel ctx (rpc_ListMembers kv) c.
Definition AddMember (c : Client) (id : N) (raftAddr : bytes) : option (sum error unit * Client) := try fuel ctx (rpc_AddMember kv id raftAddr) c.
Definition RemoveMember (c : Client) (id : N) : option (sum error unit * Client) := try fuel ctx (rpc_RemoveMember kv id) c.

End operations.

(** What the servers make of them (server.go, Put and Delete). *)
Definition put_command (r : PutRequest) : Command := mkCommand (str "put") (pr_Key r) (pr_Value r) (pr_ClientId r) (pr_Seq r).
Definition delete_command (r : DeleteRequest) : Command := mkCommand (str "delete") (dr_Key r) [] (dr_ClientId r) (dr_Seq r).

(** ** The order of the nodes *)

Lemma order_perm c : NoDup (cl_addrs c) -> cl_leader c ∈ cl_addrs c -> cl_leader c <> [] -> order c ≡ₚ cl_addrs c.
Proof.
  intros Hnd Hin Hne. unfold order. destruct (bytes_eqb_spec (cl_leader c) []); [done|]. cbn [app].
  apply list_elem_of_split in Hin as (l1 & l2 & E). rewrite E in *. apply NoDup_app in Hnd as (H1 & H2 & H3).
  apply NoDup_cons in H3 as [H3 H4]. rewrite filter_app, filter_cons_False by (by intros ?). rewrite !filter_all.
  - by rewrite Permutation_middle.
  - apply Forall_forall. intros x Hx ->. done.
  - apply Forall_forall. intros x Hx ->. apply (H2 _ Hx). by left.
Qed.

Lemma order_nonempty c a : a ∈ cl_addrs c -> a <> [] -> order c <> [].
Proof.
  intros Ha Hne. unfold order. destruct (bytes_eqb_spec (cl_leader c) []) as [E|]; [|done]. cbn [app]. intros Hf.
  apply (not_elem_of_nil a). rewrite <-Hf. apply list_elem_of_filter. split; [congruence|done].
Qed.

(** ** One round *)

Lemma conn_to_cached c addr cl c' : conn_to c addr = (inr cl, c') -> cl_conns c' !! addr = Some cl.
Proof.
  unfold conn_to. destruct (cl_conns c !! addr) as [x|] eqn:E; [by intros [= <- <-]|].
  destruct (NewClient addr); [done|]. intros [= <- <-]. apply lookup_insert_eq.
Qed.

(** What the loops leave alone: the addresses, the name and the numbering. *)
Definition same_client (c c' : Client) : Prop := cl_addrs c' = cl_addrs c /\ cl_id c' = cl_id c /\ cl_seq c' = cl_seq c.

#[global] Instance same_client_preorder : PreOrder same_client.
Proof. split; [by intros c|]. intros c1 c2 c3 (? & ? & ?) (? & ? & ?). split_and!; congruence. Qed.

Lemma conn_to_same c addr r c' : conn_to c addr = (r, c') -> same_client c c'.
Proof. unfold conn_to. destruct (cl_conns c !! addr); [by intros [= <- <-]|]. by destruct (NewClient addr); intros [= <- <-]. Qed.

Section loops.
Context {A : Type} (ctx : context) (fn : nat -> conn -> sum error A).

(** A round that no node answered made one observation per node. *)
Lemma try_nodes_exhausted c addrs now lastErr c' now' lastErr' :
  try_nodes ctx fn c addrs now lastErr = Exhausted c' now' lastErr' ->
  same_client c c' /\ now' = now + length addrs /\ forall i, i < length addrs -> cx_Err ctx (now + i) = None.
Proof.
  revert c now lastErr. induction addrs as [|a addrs IH]; intros c now lastErr; cbn [try_nodes].
  { intros [= <- <- <-]. split_and!; [done|simpl; lia|simpl; lia]. }
  destruct (cx_Err ctx now) eqn:Ex; [done|]. destruct (conn_to c a) as [r c1] eqn:Ec. apply conn_to_same in Ec.
  assert (forall c2 er, same_client c1 c2 -> try_nodes ctx fn c2 addrs (S now) er = Exhausted c' now' lastErr' ->
    same_client c c' /\ now' = now + length (a :: addrs) /\ forall i, i < length (a :: addrs) -> cx_Err ctx (now + i) = None) as Hn.
  { intros c2 er E2 H. apply IH in H as (Ea & En & Hi). split_and!; [by do 2 (etrans; [eassumption|])|simpl; lia|]. intros [|i] Hlt; [by rewrite Nat.add_0_r|].
    rewrite <-Nat.add_succ_comm. apply Hi. simpl in Hlt. lia. }
  destruct r as [er|cl]; [by apply Hn|]. destruct (fn now cl) as [er|]; [|done]. apply Hn. by destruct (bytes_eqb _ _).
Qed.

(** A round that returns a value got it from a node it reached while the context was
    alive, and remembers that node. *)
Lemma try_nodes_returned c addrs now lastErr r c' now' :
  try_nodes ctx fn c addrs now lastErr = Returned r c' now' ->
  same_client c c' /\ forall a, r = inr a -> cl_leader c' ∈ addrs /\
    exists cl, cl_conns c' !! cl_leader c' = Some cl /\ fn now' cl = inr a /\ cx_Err ctx now' = None.
Proof.
  revert c now lastErr. induction addrs as [|x addrs IH]; intros c now lastErr; cbn [try_nodes]; [done|].
  destruct (cx_Err ctx now) eqn:Ex; [by intros [= <- <- <-]|]. destruct (conn_to c x) as [rc c1] eqn:Ec.
  assert (forall c2 er, same_client c1 c2 -> try_nodes ctx fn c2 addrs (S now) er = Returned r c' now' ->
    same_client c c' /\ forall a, r = inr a -> cl_leader c' ∈ x :: addrs /\
      exists cl, cl_conns c' !! cl_leader c' = Some cl /\ fn now' cl = inr a /\ cx_Err ctx now' = None) as Hn.
  { intros c2 er E2 [E3 H]%IH. split; [etrans; [by eapply conn_to_same|by etrans]|]. intros a Ha. destruct (H a Ha). split; [by right|done]. }
  destruct rc as [er|cl]; [by apply Hn|]. destruct (fn now cl) as [er|a] eqn:Ef; [apply Hn; by destruct (bytes_eqb _ _)|].
  intros [= <- <- <-]. split; [by apply conn_to_same in Ec|]. intros a' [= <-]. split; [by left|]. exists cl. simpl. by apply conn_to_cached in Ec.
Qed.

(** ** The loop *)

Lemma try_loop_ends fuel c now lastErr backoff K x :
  x ∈ cl_addrs c -> x <> [] -> (forall k, K <= k -> is_Some (cx_Err ctx k)) -> K - now < fuel ->
  exists r c', try_loop fuel ctx fn c now lastErr backoff = Some (r, c').
Proof.
  intros Ha Hne HK. revert c now lastErr backoff Ha. induction fuel as [|fuel IH]; intros c now lastErr backoff Ha Hlt; [lia|].
  cbn [try_loop]. destruct (try_nodes ctx fn c (order c) now lastErr) as [r c1 now1|c1 now1 last1] eqn:E; [by exists r, c1|].
  apply try_nodes_exhausted in E as ((Ea & _) & -> & Hi). assert (0 < length (order c)) as Hl.
  { pose proof (order_nonempty c x Ha Hne). destruct (order c); [done|simpl; lia]. }
  assert (now < K) as Hnk.
  { destruct (Nat.lt_ge_cases now K) as [|Hge]; [done|]. specialize (Hi 0 Hl). rewrite Nat.add_0_r in Hi. destruct (HK now Hge). congruence. }
  rewrite <-Ea in Ha. destruct (cx_Err ctx _); [destruct (cx_pick ctx _); [by do 2 eexists|]|]; (apply IH; [done|lia]).
Qed.

Lemma try_loop_returns fuel c now lastErr backoff r c' :
  try_loop fuel ctx fn c now lastErr backoff = Some (r, c') ->
  same_client c c' /\ forall a, r = inr a -> exists k cl, fn k cl = inr a /\ cx_Err ctx k = None /\ cl_conns c' !! cl_leader c' = Some cl.
Proof.
  revert c now lastErr backoff. induction fuel as [|fuel IH]; intros c now lastErr backoff; [done|].
  cbn [try_loop]. destruct (try_nodes ctx fn c (order c) now lastErr) as [r1 c1 now1|c1 now1 last1] eqn:E.
  - intros [= <- <-]. apply try_nodes_returned in E as [E H]. split; [done|]. intros a (_ & cl & ? & ? & ?)%H. by exists now1, cl.
  - apply try_nodes_exhausted in E as (E & _). assert (forall b, try_loop fuel ctx fn c1 (S now1) last1 b = Some (r, c') -> same_client c c' /\ forall a, r = inr a ->
      exists k cl, fn k cl = inr a /\ cx_Err ctx k = None /\ cl_conns c' !! cl_leader c' = Some cl) as Hn.
    { intros b [E2 H]%IH. split; [by etrans|done]. }
    destruct (cx_Err ctx now1); [destruct (cx_pick ctx now1)|]; [by intros [= <- <-]|apply Hn..].
Qed.

(** C30. The retry loop ends: if the context is done from the K-th observation on and
    some address is not empty, try returns after at most K+1 rounds over the
    nodes; it returns a value only when a node answered with it while the
    context was alive, and then it stays connected to that node as its leader; and
    it keeps the client's addresses, name and numbering. *)
Theorem try_terminates c K x :
  x ∈ cl_addrs c -> x <> [] -> (forall k, K <= k -> is_Some (cx_Err ctx k)) ->
  exists r c', try (S K) ctx fn c = Some (r, c') /\ same_client c c' /\
    forall a, r = inr a -> exists k cl, fn k cl = inr a /\ cx_Err ctx k = None /\ cl_conns c' !! cl_leader c' = Some cl.
Proof.
  intros Ha Hne HK. destruct (try_loop_ends (S K) c 0 None first_backoff K x) as (r & c' & E); [done|done|done|lia|].
  exists r, c'. split; [exact E|]. by eapply try_loop_returns.
Qed.

End loops.

End client.
Arguments Client conn : clear implicits.
Arguments Returned {conn A} r c now.
Arguments Exhausted {conn A} c now lastErr.

(** The backoff doubles from 20 ms and stops at 640 ms. *)
Theorem backoff_bounds n :
  Nat.iter n next_backoff first_backoff = Z.min (first_backoff * 2 ^ Z.of_nat n) (640 * Millis).
Proof.
  induction n as [|n IH]; [reflexivity|]. cbn [Nat.iter nat_rect]. change (nat_rect _ _ _ n) with (Nat.iter n next_backoff first_backoff).
  rewrite IH, Nat2Z.inj_succ, Z.pow_succ_r by lia. unfold next_backoff, first_backoff, Millis.
  destruct (decide (n <= 4)) as [Hle|Hgt].
  - do 5 (destruct n as [|n]; [reflexivity|]). lia.
  - assert (2 ^ 5 <= 2 ^ Z.of_nat n)%Z as Hp by (apply Z.pow_le_mono_r; lia). change (2 ^ 5)%Z with 32%Z in Hp.
    destruct (Z.ltb_spec (Z.min (20 * 1000000 * 2 ^ Z.of_nat n) (640 * 1000000)) (500 * 1000000)); lia.
Qed.

(** ** Retries take effect once *)

(** *** The loop with the effects of its calls *)

Section effects.
Context {conn : Type} (NewClient : bytes -> sum error conn) {W : Type}.

(** The retry loop over calls that change the world [W] (the cluster) while they
    answer; [try_in_pure] below: it is the loop above. *)
Fixpoint try_nodes_in {A} (ctx : context) (fn : nat -> conn -> W -> sum error A * W) (c : Client conn) (addrs : list bytes) (now : nat)
    (lastErr : option error) (w : W) : tried (conn := conn) A * W :=
  match addrs with
  | [] => (Exhausted c now lastErr, w)
  | addr :: addrs =>
      match cx_Err ctx now with
      | Some e => (Returned (inl (expired e lastErr)) c now, w)
      | None =>
          match conn_to NewClient c addr with
          | (inl er, c) => try_nodes_in ctx fn c addrs (S now) (Some er) w
          | (inr cl, c) =>
              match fn now cl w with
              | (inl er, w) =>
                  let c := if bytes_eqb (cl_leader c) addr then set_leader c [] else c in
                  try_nodes_in ctx fn c addrs (S now) (Some er) w
              | (inr a, w) => (Returned (inr a) (set_leader c addr) now, w)
              end
          end
      end
  end.

Fixpoint try_loop_in {A} (fuel : nat) (ctx : context) (fn : nat -> conn -> W -> sum error A * W) (c : Client conn) (now : nat)
    (lastErr : option error) (backoff : Z) (w : W) : option (sum error A * Client conn * W) :=
  match fuel with
  | O => None
  | S fuel =>
      match try_nodes_in ctx fn c (order c) now lastErr w with
      | (Returned r c _, w) => Some (r, c, w)
      | (Exhausted c now lastErr, w) =>
          match cx_Err ctx now with
          | Some e => if cx_pick ctx now then Some (inl (expired e lastErr), c, w)
                      else try_loop_in fuel ctx fn c (S now) lastErr (next_backoff backoff) w
          | None => try_loop_in fuel ctx fn c (S now) lastErr (next_backoff backoff) w
          end
      end
  end.

Definition try_in {A} (fuel : nat) (ctx : context) (fn : nat -> conn -> W -> sum error A * W) (c : Client conn) (w : W) :
    option (sum error A * Client conn * W) :=
  try_loop_in fuel ctx fn c 0 None first_backoff w.

Lemma try_nodes_in_pure {A} ctx (fn : nat -> conn -> sum error A) c addrs now lastErr w :
  try_nodes_in ctx (fun k cl w => (fn k cl, w)) c addrs now lastErr w = (try_nodes NewClient ctx fn c addrs now lastErr, w).
Proof.
  revert c now lastErr. induction addrs as [|a addrs IH]; intros c now lastErr; cbn [try_nodes_in try_nodes]; [done|].
  destruct (cx_Err ctx now); [done|]. destruct (conn_to NewClient c a) as [[er|cl] c1]; [apply IH|]. by destruct (fn now cl); [apply IH|].
Qed.

Lemma try_in_pure {A} fuel ctx (fn : nat -> conn -> sum error A) c w :
  try_in fuel ctx (fun k cl w => (fn k cl, w)) c w = (fun x => (x, w)) <$> try NewClient fuel ctx fn c.
Proof.
  unfold try_in, try. generalize 0, (@None error), first_backoff. intros now lastErr backoff.
  revert c now lastErr backoff. induction fuel as [|fuel IH]; intros c now lastErr backoff; cbn [try_loop_in try_loop]; [done|].
  rewrite try_nodes_in_pure. destruct (try_nodes _ _ _ _ _ _ _) as [r c1 now1|c1 now1 last1]; [done|].
  destruct (cx_Err ctx now1); [destruct (cx_pick ctx now1); [done|]|]; apply IH.
Qed.

(** What every call keeps, the loop keeps; a value comes from a call. *)
Section kept.
Context {A : Type} (ctx : context) (fn : nat -> conn -> W -> sum error A * W) (I : W -> Prop).
Context (Hkeep : forall k cl w r w', I w -> fn k cl w = (r, w') -> I w').
Definition from_call (r : sum error A) (w' : W) : Prop := forall a, r = inr a -> exists k cl w, I w /\ fn k cl w = (inr a, w').

Lemma try_nodes_in_kept c addrs now lastErr w x w' :
  I w -> try_nodes_in ctx fn c addrs now lastErr w = (x, w') ->
  I w' /\ match x with Returned r c' _ => same_client c c' /\ from_call r w' | Exhausted c' _ _ => same_client c c' end.
Proof using Hkeep.
  revert c now lastErr w. induction addrs as [|a addrs IH]; intros c now lastErr w Hw; cbn [try_nodes_in]; [by intros [= <- <-]|].
  destruct (cx_Err ctx now); [by intros [= <- <-]|]. destruct (conn_to NewClient c a) as [rc c1] eqn:Ec. apply conn_to_same in Ec.
  assert (forall c2 er w1, I w1 -> same_client c1 c2 -> try_nodes_in ctx fn c2 addrs (S now) er w1 = (x, w') ->
    I w' /\ match x with Returned r c' _ => same_client c c' /\ from_call r w' | Exhausted c' _ _ => same_client c c' end) as Hn.
  { intros c2 er w1 H1 E2 H. apply IH in H as [? H]; [|done]. split; [done|]. assert (same_client c c2) as Hc by by etrans.
    destruct x as [r c' n'|c' n' l']; [destruct H as [H ?]; split; [|done]|]; by etrans. }
  destruct rc as [er|cl]; [by apply Hn|]. destruct (fn now cl w) as [[er|v] w1] eqn:Ef.
  - apply Hn; [by eapply Hkeep|by destruct (bytes_eqb _ _)].
  - intros [= <- <-]. split; [by eapply Hkeep|]. split; [done|]. intros v' [= <-]. by exists now, cl, w.
Qed.

Lemma try_in_kept fuel c w r c' w' :
  I w -> try_in fuel ctx fn c w = Some (r, c', w') -> I w' /\ same_client c c' /\ from_call r w'.
Proof using Hkeep.
  unfold try_in. generalize 0, (@None error), first_backoff. revert c w. induction fuel as [|fuel IH]; intros c w now lastErr backoff Hw; cbn [try_loop_in]; [done|].
  destruct (try_nodes_in ctx fn c (order c) now lastErr w) as [x w1] eqn:E. apply try_nodes_in_kept in E as [H1 Hx]; [|done].
  destruct x as [r1 c1 n1|c1 n1 l1]; [by intros [= <- <- <-]|].
  assert (forall b, try_loop_in fuel ctx fn c1 (S n1) l1 b w1 = Some (r, c', w') -> I w' /\ same_client c c' /\ from_call r w') as Hn.
  { intros b (? & E2 & ?)%IH; [|done]. split_and!; [done|by etrans|done]. }
  destruct (cx_Err ctx n1); [destruct (cx_pick ctx n1)|]; [by intros [= <- <- <-]|apply Hn..].
Qed.

End kept.

(** *** A session *)

(** The RPCs of a client as calls that change the cluster. *)
Record KVWorld := mkKVWorld {
  in_Put : PutRequest -> nat -> conn -> W -> sum error unit * W;
  in_Delete : DeleteRequest -> nat -> conn -> W -> sum error unit * W;
  in_Get : bytes -> nat -> conn -> W -> sum error (bytes * bool) * W
}.

Definition Put_in (kv : KVWorld) (fuel : nat) (ctx : context) (c : Client conn) (key value : bytes) (w : W) : option (sum error unit * Client conn * W) :=
  let '(req, c) := put_request c key value in try_in fuel ctx (in_Put kv req) c w.
Definition Delete_in (kv : KVWorld) (fuel : nat) (ctx : context) (c : Client conn) (key : bytes) (w : W) : option (sum error unit * Client conn * W) :=
  let '(req, c) := delete_request c key in try_in fuel ctx (in_Delete kv req) c w.
Definition Get_in (kv : KVWorld) (fuel : nat) (ctx : context) (c : Client conn) (key : bytes) (w : W) : option (sum error (bytes * bool) * Client conn * W) :=
  try_in fuel ctx (in_Get kv key) c w.

(** Put, Delete and Get over answers that do not depend on the calls are those above. *)
Definition pure_world (kv : KVClient (conn := conn)) : KVWorld :=
  mkKVWorld (fun req k cl w => (rpc_Put kv req k cl, w)) (fun req k cl w => (rpc_Delete kv req k cl, w)) (fun key k cl w => (rpc_Get kv key k cl, w)).

Lemma operations_in_pure kv fuel ctx c key value w :
  Put_in (pure_world kv) fuel ctx c key value w = (fun x => (x, w)) <$> Put NewClient kv fuel ctx c key value /\
  Delete_in (pure_world kv) fuel ctx c key w = (fun x => (x, w)) <$> Delete NewClient kv fuel ctx c key /\
  Get_in (pure_world kv) fuel ctx c key w = (fun x => (x, w)) <$> Get NewClient kv fuel ctx c key.
Proof. unfold Put_in, Delete_in, Get_in. split_and!; apply try_in_pure. Qed.

Inductive client_op :=
  | DoPut (key value : bytes)
  | DoDelete (key : bytes)
  | DoGet (key : bytes).

(** Operations called one after the other, each with a context of its own; [None]
    unless they all return and every write returns nil. *)
Fixpoint session (kv : KVWorld) (c : Client conn) (w : W) (ops : list (client_op * nat * context)) : option (Client conn * W) :=
  match ops with
  | [] => Some (c, w)
  | (DoPut k v, fuel, ctx) :: ops =>
      match Put_in kv fuel ctx c k v w with Some (inr _, c, w) => session kv c w ops | _ => None end
  | (DoDelete k, fuel, ctx) :: ops =>
      match Delete_in kv fuel ctx c k w with Some (inr _, c, w) => session kv c w ops | _ => None end
  | (DoGet k, fuel, ctx) :: ops =>
      match Get_in kv fuel ctx c k w with Some (_, c, w) => session kv c w ops | None => None end
  end.

End effects.
Arguments KVWorld conn W : clear implicits.

#[global] Instance Command_eq_dec : EqDecision Command.
Proof. solve_decision. Defined.

Abbreviation of_client id := (fun c => c_ClientID c = id).

(** The writes of a session, numbered from [n] on. *)
Fixpoint writes (id : bytes) (n : N) (ops : list client_op) : list Command :=
  match ops with
  | [] => []
  | DoPut k v :: ops => mkCommand (str "put") k v id n :: writes id (n + 1) ops
  | DoDelete k :: ops => mkCommand (str "delete") k [] id n :: writes id (n + 1) ops
  | DoGet _ :: ops => writes id n ops
  end.

(** What the cluster does: it appends to its log ([wl_log]); an entry of this client
    is one of the requests sent so far, the one of this call included, with any
    delay and any repetition; and a write is answered with nil only when its
    command is in the log. *)
Section cluster.
Context {conn W : Type} (kv : KVWorld conn W) (wl_log wl_sent : W -> list Command) (id : bytes).

Definition log_grows (w w' : W) (sent : list Command) : Prop :=
  wl_sent w' = sent /\ exists more, wl_log w' = wl_log w ++ more /\ forall c, c ∈ more -> c_ClientID c = id -> c ∈ sent.

Record honest : Prop := {
  ho_put : forall req k cl w r w', in_Put kv req k cl w = (r, w') ->
    log_grows w w' (put_command req :: wl_sent w) /\ (r = inr tt -> put_command req ∈ wl_log w');
  ho_delete : forall req k cl w r w', in_Delete kv req k cl w = (r, w') ->
    log_grows w w' (delete_command req :: wl_sent w) /\ (r = inr tt -> delete_command req ∈ wl_log w');
  ho_get : forall key k cl w r w', in_Get kv key k cl w = (r, w') -> log_grows w w' (wl_sent w)
}.

End cluster.

(** *** The log of a session *)

(** The log without the repetitions of a command. *)
Fixpoint firsts (seen log : list Command) : list Command :=
  match log with
  | [] => []
  | c :: log => if decide (c ∈ seen) then firsts seen log else c :: firsts (c :: seen) log
  end.

Lemma firsts_app seen l k : firsts seen (l ++ k) = firsts seen l ++ firsts (reverse (firsts seen l) ++ seen) k.
Proof.
  revert seen. induction l as [|c l IH]; intros seen; [done|]. cbn [app firsts]. case_decide; [apply IH|].
  rewrite IH. cbn [app]. by rewrite reverse_cons, <-(assoc_L (++)).
Qed.

Lemma firsts_seen seen l c : c ∈ seen -> c ∉ firsts seen l.
Proof.
  revert seen. induction l as [|y l IH]; intros s0 Hs; cbn [firsts]; [by apply not_elem_of_nil|]. case_decide; [by apply IH|].
  intros [->|Hin]%elem_of_cons; [done|]. by eapply (IH (y :: s0)); [right|].
Qed.

Lemma firsts_none seen l : (forall x, x ∈ l -> x ∈ seen) -> firsts seen l = [].
Proof.
  induction l as [|x l IH]; intros Hl; [done|]. cbn [firsts]. rewrite decide_True by (apply Hl; by left). apply IH. intros y Hy. apply Hl. by right.
Qed.

(** Entries that are all [c] or known add at most [c]. *)
Lemma firsts_known seen c l :
  (forall x, x ∈ l -> x = c \/ x ∈ seen) -> firsts seen l = [] \/ firsts seen l = [c] /\ c ∈ l.
Proof.
  revert seen. induction l as [|x l IH]; intros seen Hl; [by left|]. cbn [firsts]. case_decide as Hx.
  - destruct (IH seen) as [E|[E Hin]]; [intros y Hy; apply Hl; by right|by left|right]. split; [done|by right].
  - destruct (Hl x ltac:(by left)) as [->|]; [|done]. right. split; [|by left]. f_equal.
    destruct (IH (c :: seen)) as [E|[E _]]; [|done|].
    + intros y Hy. destruct (Hl y ltac:(by right)) as [->|?]; right; [by left|by right].
    + destruct (firsts_seen (c :: seen) l c); [by left|]. rewrite E. by left.
Qed.

Lemma firsts_elem seen l c : c ∈ l -> c ∈ firsts seen l \/ c ∈ seen.
Proof.
  revert seen. induction l as [|x l IH]; intros seen; [by intros ?%not_elem_of_nil|]. cbn [firsts]. intros [->|Hin]%elem_of_cons.
  - case_decide; [by right|left; by left].
  - case_decide; [by apply IH|]. destruct (IH (x :: seen) Hin) as [?|[->|?]%elem_of_cons]; [left; by right|left; by left|by right].
Qed.

Section written.
Context {conn W : Type} (NewClient : bytes -> sum error conn) (kv : KVWorld conn W) (wl_log wl_sent : W -> list Command) (id : bytes).
Context (Hkv : honest kv wl_log wl_sent id).

(** [done] are the writes that returned, in order; [cur] the one that runs. *)
Definition logged (done cur : list Command) (w : W) : Prop :=
  (forall c, c ∈ wl_sent w -> c ∈ done ++ cur) /\
  (firsts [] (filter (of_client id) (wl_log w)) = done \/ firsts [] (filter (of_client id) (wl_log w)) = done ++ cur).

Lemma grows_logged done c w w' sent :
  logged done [c] w -> log_grows wl_log wl_sent id w w' sent -> (forall x, x ∈ sent -> x = c \/ x ∈ wl_sent w) -> logged done [c] w'.
Proof.
  intros [Hs Hf] (Es & more & El & Hm) Hsent. assert (forall x, x ∈ sent -> x ∈ done ++ [c]) as Hin.
  { intros x [->|Hx]%Hsent; [apply elem_of_app; right; by left|by apply Hs]. }
  split; [by rewrite Es|]. rewrite El, filter_app, firsts_app, app_nil_r.
  assert (forall x, x ∈ filter (of_client id) more -> x ∈ done ++ [c]) as Hmore by (intros x [Hx1 Hx2]%list_elem_of_filter; by apply Hin, Hm).
  destruct Hf as [->| ->].
  - destruct (firsts_known (reverse done) c (filter (of_client id) more)) as [->|[-> _]]; [|left; by rewrite app_nil_r|by right].
    intros x [Hx|Hx%list_elem_of_singleton]%Hmore%elem_of_app; [right; by apply elem_of_reverse|by left].
  - right. rewrite firsts_none, app_nil_r; [done|]. intros x Hx%Hmore. by apply elem_of_reverse.
Qed.

Lemma quiet_logged done w w' : logged done [] w -> log_grows wl_log wl_sent id w w' (wl_sent w) -> logged done [] w'.
Proof.
  intros [Hs Hf] (Es & more & El & Hm). split; [by rewrite Es|]. left. rewrite El, filter_app, firsts_app, app_nil_r.
  rewrite app_nil_r in Hs, Hf. assert (firsts [] (filter (of_client id) (wl_log w)) = done) as -> by tauto.
  rewrite firsts_none, app_nil_r; [done|]. intros x [Hx1 Hx2]%list_elem_of_filter. apply elem_of_reverse, Hs, Hm; done.
Qed.

(** A write that returns nil is the next one in the log. *)
Lemma write_logged (fn : nat -> conn -> W -> sum error unit * W) done cmd fuel ctx c w u c' w' :
  (forall k cl w r w', fn k cl w = (r, w') -> log_grows wl_log wl_sent id w w' (cmd :: wl_sent w) /\ (r = inr tt -> cmd ∈ wl_log w')) ->
  c_ClientID cmd = id -> cmd ∉ done -> logged done [] w -> try_in NewClient fuel ctx fn c w = Some (inr u, c', w') ->
  logged (done ++ [cmd]) [] w' /\ same_client c c'.
Proof.
  intros Hfn Hid Hnew [Hs Hf] H. rewrite app_nil_r in Hs, Hf.
  assert (forall k cl w1 r w2, logged done [cmd] w1 -> fn k cl w1 = (r, w2) -> logged done [cmd] w2) as Hk.
  { intros k cl w1 r w2 H1 [Hg _]%Hfn. eapply grows_logged; [exact H1|exact Hg|]. intros x [->|?]%elem_of_cons; [by left|by right]. }
  destruct (try_in_kept NewClient ctx fn (logged done [cmd]) Hk fuel c w (inr u) c' w') as (Hl & Hc & Hfrom); [|exact H|].
  - split; [intros x Hx; apply elem_of_app; left; by apply Hs|left; tauto].
  - split; [|done]. destruct (Hfrom u eq_refl) as (k & cl & w1 & _ & Hcall). destruct u. destruct (Hfn _ _ _ _ _ Hcall) as [_ Hin]. specialize (Hin eq_refl).
    destruct Hl as [Hs' Hf']. split; rewrite app_nil_r; [done|]. left. destruct Hf' as [E|E]; [|done].
    destruct (firsts_elem [] (filter (of_client id) (wl_log w')) cmd) as [Hx|Hx]; [by apply list_elem_of_filter|by rewrite E in Hx|by apply not_elem_of_nil in Hx].
Qed.

Lemma session_logged c w ops c' w' done :
  session NewClient kv c w ops = Some (c', w') -> cl_id c = id -> (forall x, x ∈ done -> c_Seq x <= cl_seq c)%N ->
  (cl_seq c + N.of_nat (length ops) < two64)%N -> logged done [] w -> logged (done ++ writes id (cl_seq c + 1) ((fun x => x.1.1) <$> ops)) [] w'.
Proof using Hkv.
  revert c w done. induction ops as [|[[op fuel] ctx] ops IH]; intros c w done; cbn [session]; [intros [= <- <-]; simpl; by rewrite app_nil_r|].
  intros H Hid Hseq Hlt Hl. cbn [length] in Hlt. assert (cl_seq c +64 1 = cl_seq c + 1)%N as Hadd by (apply add64_small; lia).
  assert (forall cmd c1 c2 w1, c_Seq cmd = (cl_seq c + 1)%N -> cl_id c1 = cl_id c -> cl_seq c1 = (cl_seq c + 1)%N -> same_client c1 c2 ->
    session NewClient kv c2 w1 ops = Some (c', w') -> logged (done ++ [cmd]) [] w1 ->
    logged (done ++ cmd :: writes id (cl_seq c + 1 + 1) ((fun x => x.1.1) <$> ops)) [] w') as Hnext.
  { intros cmd c1 c2 w1 Ec E1 E2 (_ & E3 & E4) Hse Hl1. rewrite cons_middle, (assoc_L (++)), <-E2, <-E4. apply (IH c2 w1); [done|congruence| |lia|done].
    intros x [Hx%Hseq| ->%list_elem_of_singleton]%elem_of_app; lia. }
  assert (forall cmd, c_Seq cmd = (cl_seq c + 1)%N -> cmd ∉ done) as Hfresh by (intros cmd Ec Hin%Hseq; lia).
  destruct op as [k v|k|k]; cbn [fmap list_fmap fst writes].
  - unfold Put_in in H. cbn [put_request] in H. rewrite Hadd in H.
    destruct (try_in NewClient fuel ctx _ _ w) as [[[[er|u] c1] w1]|] eqn:E; [done| |done].
    destruct (write_logged (in_Put kv (mkPutRequest k v (cl_id c) (cl_seq c + 1))) done (mkCommand (str "put") k v id (cl_seq c + 1)) fuel ctx (set_seq c (cl_seq c + 1)) w u c1 w1) as [Hl1 Hc];
      [|done|by apply Hfresh|done|exact E|by eapply (Hnext _ (set_seq c (cl_seq c + 1)) c1)].
    intros n cl w2 r w3 Hcall. pose proof (ho_put _ _ _ _ Hkv _ _ _ _ _ _ Hcall) as Hp. unfold put_command in Hp. simpl in Hp. by rewrite Hid in Hp.
  - unfold Delete_in in H. cbn [delete_request] in H. rewrite Hadd in H.
    destruct (try_in NewClient fuel ctx _ _ w) as [[[[er|u] c1] w1]|] eqn:E; [done| |done].
    destruct (write_logged (in_Delete kv (mkDeleteRequest k (cl_id c) (cl_seq c + 1))) done (mkCommand (str "delete") k [] id (cl_seq c + 1)) fuel ctx (set_seq c (cl_seq c + 1)) w u c1 w1) as [Hl1 Hc];
      [|done|by apply Hfresh|done|exact E|by eapply (Hnext _ (set_seq c (cl_seq c + 1)) c1)].
    intros n cl w2 r w3 Hcall. pose proof (ho_delete _ _ _ _ Hkv _ _ _ _ _ _ Hcall) as Hp. unfold delete_command in Hp. simpl in Hp. by rewrite Hid in Hp.
  - unfold Get_in in H. destruct (try_in NewClient fuel ctx _ c w) as [[[r c1] w1]|] eqn:E; [|done].
    destruct (try_in_kept NewClient ctx (in_Get kv k) (logged done [])) with (fuel := fuel) (c := c) (w := w) (r := r) (c' := c1) (w' := w1) as (Hl1 & (_ & E3 & E4) & _); [|done|exact E|].
    + intros n cl w2 r2 w3 H2 Hg%(ho_get _ _ _ _ Hkv). by eapply quiet_logged.
    + rewrite <-E4. apply (IH c1 w1); [done|congruence|by rewrite E4|lia|done].
Qed.

End written.

(** [cs]: requests of client [id] with growing numbers above [n]. *)
Fixpoint numbered_from (id : bytes) (n : N) (cs : list Command) : Prop :=
  match cs with
  | [] => True
  | c :: cs => c_ClientID c = id /\ (n < c_Seq c)%N /\ numbered_from id (c_Seq c) cs
  end.

Lemma writes_numbered id n ops : numbered_from id n (writes id (n + 1) ops).
Proof.
  revert n. induction ops as [|[k v|k|k] ops IH]; intros n; cbn [writes numbered_from]; [done|..]; [split_and!; [done|simpl; lia|apply IH]..|apply IH].
Qed.

Lemma executed_firsts q id n cs seen log :
  id <> [] -> seq_of q id = n -> (forall c, c ∈ seen -> c_ClientID c = id /\ (0 < c_Seq c <= n)%N) ->
  numbered_from id n cs -> firsts seen (filter (of_client id) log) = cs -> filter (of_client id) (executed q log) = cs.
Proof.
  intros Hid. revert q n cs seen. induction log as [|c log IH]; intros q n cs seen Hq Hseen Hcs Hf; [done|].
  rewrite filter_cons in Hf. destruct (decide (c_ClientID c = id)) as [Ec|Hne].
  - cbn [firsts] in Hf. case_decide as Hin.
    + destruct (Hseen c Hin) as [_ Hs]. cbn [executed]. rewrite duplicate_numbered by (split; [congruence|lia]).
      rewrite Ec, Hq, (proj2 (N.leb_le _ _)) by lia. by eapply IH.
    + destruct cs as [|c' cs]; [done|]. injection Hf as <- Hf. destruct Hcs as (_ & Es & Hcs).
      rewrite executed_numbered by (split; [congruence|lia]). rewrite Ec, Hq, (proj2 (N.leb_gt _ _)) by lia.
      rewrite filter_cons_True by done. f_equal. apply (IH _ (c_Seq c) cs (c :: seen)); [|intros x Hx|exact Hcs|exact Hf].
      * by rewrite seq_of_insert, decide_True.
      * apply elem_of_cons in Hx as [->|Hx]; [split; [done|lia]|]. destruct (Hseen x Hx). split; [done|lia].
  - cbn [executed]. destruct (duplicate q c); [by eapply IH|]. rewrite filter_cons_False by done. eapply IH; [|exact Hseen|exact Hcs|exact Hf].
    destruct (bytes_eqb _ _); [done|]. by rewrite seq_of_insert, decide_False.
Qed.

(** C8. A client's writes take effect exactly once and in order, end to end. A new
    client, whose name is not in the log yet, calls its operations one after the
    other, each retried over the nodes by its loop any number of times, and every
    write returns nil (reads may fail). The cluster may take a request at any time
    after it was sent and any number of times, among the entries of other clients,
    and answers nil only for a write that is in the log. Then a machine that applies
    the log without an engine error, late copies included, holds the effects of the
    commands that took effect, and this client's among them are the session's puts
    and deletes, once each, in the order of the calls. *)
Theorem client_writes_once {conn W E} (NewClient : bytes -> sum error conn) {KV : KVEngine E} {KS : KVSpec E} (kv : KVWorld conn W)
    (wl_log wl_sent : W -> list Command) (addrs : list bytes) (now rnd : N) (ops : list (client_op * nat * context)) w c' w'
    (late : list Command) (e : E) m (log : list (Command * list N)) :
  let c := New (conn := conn) addrs now rnd in
  honest kv wl_log wl_sent (cl_id c) -> (N.of_nat (length ops) < two64)%N ->
  wl_sent w = [] -> Forall (fun x => c_ClientID x <> cl_id c) (wl_log w) ->
  session NewClient kv c w ops = Some (c', w') -> Forall (fun x => c_ClientID x = cl_id c -> x ∈ wl_sent w') late ->
  fst <$> log = wl_log w' ++ late -> kv_rep e m -> Forall (fun x => valid_op x.1 /\ kv_may (command_entry x.1)) log ->
  exists err sm', apply_all (newStateMachine e) log = Some (err, sm') /\ (err = None ->
    let ran := executed ∅ (fst <$> log) in
    (forall k, StateMachine.get sm' k = Ok (foldl (fun m c => apply_entry (command_entry c) m) m ran !! k)) /\
    filter (of_client (cl_id c)) ran = writes (cl_id c) 1 ((fun x => x.1.1) <$> ops)).
Proof.
  intros c Hkv Hlen Hs0 Hl0 Hse Hlate Hlog He Hall. destruct (apply_all_spec (newStateMachine e) (m, ∅) log) as (err & sm' & Ha & H'); [by split|done|].
  exists err, sm'. split; [done|]. intros Herr. split.
  { intros k. pose proof (spec_run_executed (m, ∅) (fst <$> log)) as Er. cbn [fst snd] in Er. rewrite <-Er. apply kv_Get_spec, (H' Herr). }
  destruct (session_logged NewClient kv wl_log wl_sent (cl_id c) Hkv c w ops c' w' []) as [Hs Hf]; [done|done|by intros x ?%not_elem_of_nil|done|..].
  { split; [rewrite Hs0; by intros x ?%not_elem_of_nil|]. left. replace (filter _ (wl_log w)) with (@nil Command); [done|]. symmetry. clear -Hl0. induction Hl0; [done|]. by rewrite filter_cons_False. }
  rewrite app_nil_r in Hs, Hf. cbn [app] in Hs, Hf. assert (firsts [] (filter (of_client (cl_id c)) (wl_log w')) = writes (cl_id c) 1 ((fun x => x.1.1) <$> ops)) as Ef by (simpl in Hf; tauto).
  eapply (executed_firsts ∅ (cl_id c) 0); [done|done|by intros x ?%not_elem_of_nil|apply (writes_numbered _ 0)|].
  rewrite Hlog, filter_app, firsts_app, Ef, firsts_none, app_nil_r; [done|]. intros x [Hx1 Hx2]%list_elem_of_filter. rewrite app_nil_r. apply elem_of_reverse, Hs.
  by eapply Forall_forall in Hlate; [apply Hlate|].
Qed.

(** ** Witnesses *)

Definition two_nodes : Client unit := New [str "n1"; str "n2"] 1 2.
(** The context is done from the third observation on; the first node fails, the
    second answers. *)
Definition sample_ctx : context := mkContext (fun k => if decide (k < 2) then None else Some EIO) (fun _ => true).
Definition second_answers {A} (a : A) (k : nat) (_ : unit) : sum error A := if decide (k = 1) then inr a else inl EIO.
Definition dial_ok (_ : bytes) : sum error unit := inr tt.

Lemma try_terminates_witness :
  exists r c', try dial_ok 3 sample_ctx (second_answers (str "v", true)) two_nodes = Some (r, c') /\ same_client two_nodes c' /\
    forall a, r = inr a -> exists k cl, second_answers (str "v", true) k cl = inr a /\ cx_Err sample_ctx k = None /\ cl_conns c' !! cl_leader c' = Some cl.
Proof.
  apply (try_terminates dial_ok sample_ctx (second_answers (str "v", true)) two_nodes 2 (str "n1")).
  - by left.
  - discriminate.
  - intros k Hk. simpl. rewrite decide_False by lia. by eexists.
Defined.

#[local] Instance client_spec : KVSpec Engine.Engine := engine_KVSpec sample_entries sample_fits sample_cost.

(** A cluster whose nodes take the first attempt of a write but do not answer in
    time, and answer the second; reads fail. The client puts, reads and deletes a
    key; another client's put and a late copy of the put follow. *)
Definition take_write (cmd : Command) (k : nat) (w : list Command * list Command) : sum error unit * (list Command * list Command) :=
  (if decide (k = 0) then inl EIO else inr tt, (w.1 ++ [cmd], cmd :: w.2)).
Definition sample_world : KVWorld unit (list Command * list Command) :=
  mkKVWorld (fun req k _ w => take_write (put_command req) k w) (fun req k _ w => take_write (delete_command req) k w) (fun _ _ _ w => (inl EIO, w)).
Definition writer : Client unit := two_nodes.
Definition writer_ops : list (client_op * nat * context) :=
  [(DoPut (str "a") (str "1"), 3, sample_ctx); (DoGet (str "a"), 3, sample_ctx); (DoDelete (str "a"), 3, sample_ctx)].
Definition writer_put : Command := mkCommand (str "put") (str "a") (str "1") (cl_id writer) 1.
Definition writer_delete : Command := mkCommand (str "delete") (str "a") [] (cl_id writer) 2.
Definition late_copies : list Command := [put_cmd (str "b") (str "2") (str "c2") 1; writer_put].
Definition writer_log : list (Command * list N) :=
  (fun c => (c, [])) <$> [writer_put; writer_put; writer_delete; writer_delete] ++ late_copies.

Lemma take_write_honest id cmd k w r w' :
  take_write cmd k w = (r, w') -> log_grows fst snd id w w' (cmd :: w.2) /\ (r = inr tt -> cmd ∈ w'.1).
Proof.
  intros [= <- <-]. split; [split; [done|]|].
  - exists [cmd]. split; [done|]. intros x ->%list_elem_of_singleton _. by left.
  - intros _. apply elem_of_app. right. by left.
Qed.

Lemma sample_honest id : honest sample_world fst snd id.
Proof.
  split; simpl; [intros req k cl w r w'; apply take_write_honest|intros req k cl w r w'; apply take_write_honest|].
  intros key k cl w r w' [= <- <-]. split; [done|]. exists []. split; [by rewrite app_nil_r|]. by intros x ?%not_elem_of_nil.
Qed.

Lemma client_writes_once_witness :
  exists err sm', apply_all (newStateMachine sample_engine) writer_log = Some (err, sm') /\ (err = None ->
    let ran := executed ∅ (fst <$> writer_log) in
    (forall k, StateMachine.get sm' k = Ok (foldl (fun m c => apply_entry (command_entry c) m) ∅ ran !! k)) /\
    filter (of_client (cl_id writer)) ran = [writer_put; writer_delete]).
Proof.
  assert (snd <$> session dial_ok sample_world writer ([], []) writer_ops =
    Some ([writer_put; writer_put; writer_delete; writer_delete], [writer_delete; writer_delete; writer_put; writer_put])) as Hs by (vm_compute; reflexivity).
  apply fmap_Some in Hs as ([c' w'] & Es & Ew). cbn [snd] in Ew. subst w'.
  apply (client_writes_once dial_ok sample_world fst snd [str "n1"; str "n2"] 1 2 writer_ops ([], []) c'
           ([writer_put; writer_put; writer_delete; writer_delete], [writer_delete; writer_delete; writer_put; writer_put]) late_copies sample_engine ∅ writer_log).
  - apply sample_honest.
  - reflexivity.
  - reflexivity.
  - constructor.
  - exact Es.
  - constructor; [discriminate|]. constructor; [|constructor]. intros _. right. right. by left.
  - reflexivity.
  - apply sample_rep.
  - repeat constructor; try (left; reflexivity); try (right; reflexivity); in_sample.
Defined.
