(* ===== verification/Linearizability.v ===== *)
(** linearizability/model.go: the sequential specification the clients' histories are
    checked against, and its partition by key. porcupine, which searches for a
    linearization, is not part of the source; what it searches for is the
    definition [linearizable]. *)

From S2P Require Import Prelude Bytes GoIO Engine.
From Stdlib Require Import Sorting.Sorted.

(** ** The model *)

Record KVInput := mkInput { in_Op : bytes; in_Key : bytes; in_Value : bytes }.
Record KVOutput := mkOutput { out_Value : bytes; out_Found : bool }.
Record keyState := mkKeyState { present : bool; val : bytes }.

(** porcupine.Operation: one call of a client with the times it was made and answered. *)
Record Operation := mkOperation {
  op_ClientId : Z;
  op_Input : KVInput;
  op_Call : Z;
  op_Output : KVOutput;
  op_Return : Z
}.

Definition op_key (op : Operation) : bytes := in_Key (op_Input op).

Definition Init : keyState := mkKeyState false [].

Definition Step (st : keyState) (i : KVInput) (o : KVOutput) : bool * keyState :=
  if bytes_eqb (in_Op i) (str "put") then (true, mkKeyState true (in_Value i))
  else if bytes_eqb (in_Op i) (str "delete") then (true, mkKeyState false [])
  else if bytes_eqb (in_Op i) (str "get") then
    if negb (present st) then (negb (out_Found o), st)
    else (out_Found o && bytes_eqb (out_Value o) (val st), st)
  else (false, st).

Definition Equal (a b : keyState) : bool := Bool.eqb (present a) (present b) && bytes_eqb (val a) (val b).

(** hash/fnv: FNV-1a on 64 bits. *)
Definition fnv_offset : N := 14695981039346656037.
Definition fnv_prime : N := 1099511628211.
Definition fnv_write (h : N) (b : bytes) : N :=
  foldl (fun h x => (N.lxor h (Byte.to_N x) * fnv_prime) mod two64)%N h b.

Definition Hash (st : keyState) : N :=
  if present st then fnv_write (fnv_write fnv_offset [x01]) (val st) else fnv_offset.

(** m[key] = append(m[key], op) *)
Definition add_op (m : gmap bytes (list Operation)) (op : Operation) : gmap bytes (list Operation) :=
  <[op_key op := default [] (m !! op_key op) ++ [op]]> m.

Definition Partition (history : list Operation) : list (list Operation) :=
  let m := foldl add_op ∅ history in
  let keys := merge_sort Engine.bytes_le (fst <$> map_to_list m) in
  (fun k => default [] (m !! k)) <$> keys.

(** porcupine.Event: a call or its answer; both carry the id of the call. *)
Inductive EventKind := CallEvent | ReturnEvent.
#[global] Instance EventKind_eq_dec : EqDecision EventKind.
Proof. solve_decision. Defined.
Record Event := mkEvent { ev_ClientId : Z; ev_Kind : EventKind; ev_Value : sum KVInput KVOutput; ev_Id : Z }.

(** m[key] = append(m[key], ev) *)
Definition add_event (m : gmap bytes (list Event)) (key : bytes) (ev : Event) : gmap bytes (list Event) :=
  <[key := default [] (m !! key) ++ [ev]]> m.

(** The loop of PartitionEvent, with its two maps; a call whose value is not a
    KVInput makes it panic. *)
Definition event_step (st : gmap bytes (list Event) * gmap Z bytes) (ev : Event) : option (gmap bytes (list Event) * gmap Z bytes) :=
  let '(m, mtch) := st in
  match ev_Kind ev with
  | CallEvent =>
      match ev_Value ev with
      | inl input => Some (add_event m (in_Key input) ev, <[ev_Id ev := in_Key input]> mtch)
      | inr _ => None
      end
  | ReturnEvent => Some (add_event m (default [] (mtch !! ev_Id ev)) ev, mtch)
  end.
Fixpoint event_loop (st : gmap bytes (list Event) * gmap Z bytes) (history : list Event) : option (gmap bytes (list Event) * gmap Z bytes) :=
  match history with
  | [] => Some st
  | ev :: history => st ← event_step st ev; event_loop st history
  end.

(** PartitionEvent, its parts in the order [keys] of the map's iteration. *)
Definition PartitionEvent (keys : list bytes) (history : list Event) : option (list (list Event)) :=
  '(m, _) ← event_loop (∅, ∅) history; Some ((fun k => default [] (m !! k)) <$> keys).

(** ** What is checked *)

(** The model accepts the operations in this order. *)
Fixpoint accepts (st : keyState) (ops : list Operation) : bool :=
  match ops with
  | [] => true
  | op :: ops => let '(ok, st) := Step st (op_Input op) (op_Output op) in ok && accepts st ops
  end.

(** The same for the whole store: every answer is the one of a map. *)
Definition map_step (m : gmap bytes bytes) (i : KVInput) (o : KVOutput) : bool * gmap bytes bytes :=
  if bytes_eqb (in_Op i) (str "put") then (true, <[in_Key i := in_Value i]> m)
  else if bytes_eqb (in_Op i) (str "delete") then (true, delete (in_Key i) m)
  else if bytes_eqb (in_Op i) (str "get") then
    (match m !! in_Key i with Some v => out_Found o && bytes_eqb (out_Value o) v | None => negb (out_Found o) end, m)
  else (false, m).

Fixpoint map_accepts (m : gmap bytes bytes) (ops : list Operation) : bool :=
  match ops with
  | [] => true
  | op :: ops => let '(ok, m) := map_step m (op_Input op) (op_Output op) in ok && map_accepts m ops
  end.

(** [a] may be ordered before [b]: [b] was not answered before [a] was called. *)
Definition may_precede (a b : Operation) : Prop := (op_Call a <= op_Return b)%Z.

(** The operations have an order that respects real time and that [legal] accepts. *)
Definition linearizable (legal : list Operation -> bool) (history : list Operation) : Prop :=
  exists l, l ≡ₚ history /\ StronglySorted may_precede l /\ legal l = true.

Definition well_timed (history : list Operation) : Prop := Forall (fun op => op_Call op <= op_Return op)%Z history.

(** ** A map is its keys *)

Abbreviation of_key k := (fun op => op_key op = k).

Definition state_of (v : option bytes) : keyState :=
  match v with Some v => mkKeyState true v | None => Init end.

Lemma map_step_Step m i o :
  let '(ok, m') := map_step m i o in
  Step (state_of (m !! in_Key i)) i o = (ok, state_of (m' !! in_Key i)) /\ forall k, k <> in_Key i -> m' !! k = m !! k.
Proof.
  unfold map_step, Step. destruct (bytes_eqb _ _).
  { split; [by rewrite lookup_insert_eq|]. intros k Hk. by rewrite lookup_insert_ne. }
  destruct (bytes_eqb _ _).
  { split; [by rewrite lookup_delete_eq|]. intros k Hk. by rewrite lookup_delete_ne. }
  destruct (bytes_eqb _ _); [|done]. destruct (m !! in_Key i); done.
Qed.

Lemma map_accepts_keys m ops :
  map_accepts m ops = true <-> forall k, accepts (state_of (m !! k)) (filter (of_key k) ops) = true.
Proof.
  revert m. induction ops as [|op ops IH]; intros m; [done|]. cbn [map_accepts].
  pose proof (map_step_Step m (op_Input op) (op_Output op)) as Hs. destruct (map_step _ _ _) as [ok m'] eqn:Em. destruct Hs as [Hs Ho].
  fold (op_key op) in Hs, Ho.
  rewrite andb_true_iff, IH. split.
  - intros [-> H] k. destruct (decide (op_key op = k)) as [<-|Hne].
    + rewrite filter_cons_True by done. cbn [accepts]. rewrite Hs. apply H.
    + rewrite filter_cons_False by done. rewrite <-Ho by congruence. apply H.
  - intros H. pose proof (H (op_key op)) as H0. rewrite filter_cons_True in H0 by done. cbn [accepts] in H0. rewrite Hs in H0.
    apply andb_true_iff in H0 as [-> H0]. split; [done|]. intros k. destruct (decide (op_key op = k)) as [<-|Hne]; [done|].
    specialize (H k). rewrite filter_cons_False in H by done. by rewrite Ho by congruence.
Qed.

(** ** Partition collects the operations of each key *)

Lemma add_ops_lookup h k :
  foldl add_op ∅ h !! k = match filter (of_key k) h with [] => None | g => Some g end.
Proof.
  induction h as [|op h IH] using rev_ind; [done|]. rewrite foldl_app, filter_app. cbn [foldl]. unfold add_op at 1.
  destruct (decide (op_key op = k)) as [<-|Hne].
  - rewrite lookup_insert_eq, IH, (filter_cons_True _ op) by done. by destruct (filter _ h).
  - rewrite lookup_insert_ne, IH, (filter_cons_False _ op) by done. rewrite filter_nil, app_nil_r. done.
Qed.

Lemma Partition_groups h g : g ∈ Partition h <-> exists k, g = filter (of_key k) h /\ g <> [].
Proof.
  unfold Partition. rewrite list_elem_of_fmap. split.
  - intros (k & -> & Hk). rewrite merge_sort_Permutation in Hk. apply list_elem_of_fmap in Hk as ([k' g] & -> & Hg%elem_of_map_to_list).
    exists k'. cbn [fst]. rewrite Hg. rewrite add_ops_lookup in Hg. destruct (filter _ h) eqn:E; [done|]. by injection Hg as <-.
  - intros (k & -> & Hne). exists k. rewrite add_ops_lookup. split; [by destruct (filter _ h)|].
    rewrite merge_sort_Permutation. apply list_elem_of_fmap. exists (k, filter (of_key k) h). split; [done|].
    apply elem_of_map_to_list. rewrite add_ops_lookup. by destruct (filter _ h).
Qed.

(** ** A stable sort *)

Section sort.
Context {A : Type} (time : A -> Z).
Abbreviation earlier := (fun a b => (time a <= time b)%Z).

Fixpoint ins (x : A) (l : list A) : list A :=
  match l with
  | [] => [x]
  | y :: l => if (time x <=? time y)%Z then x :: y :: l else y :: ins x l
  end.

Definition isort (l : list A) : list A := foldr ins [] l.

Lemma ins_perm x l : ins x l ≡ₚ x :: l.
Proof. induction l as [|y l IH]; simpl; [done|]. destruct (_ <=? _)%Z; [done|]. rewrite IH. by constructor. Qed.

Lemma isort_perm l : isort l ≡ₚ l.
Proof. induction l as [|x l IH]; simpl; [done|]. by rewrite ins_perm, IH. Qed.

Lemma ins_sorted x l : StronglySorted earlier l -> StronglySorted earlier (ins x l).
Proof.
  induction 1 as [|y l Hs IH Hy]; simpl; [by repeat constructor|]. destruct (Z.leb_spec (time x) (time y)) as [Hle|Hlt].
  - constructor; [by constructor|]. constructor; [done|]. eapply Forall_impl; [exact Hy|]. simpl. lia.
  - constructor; [done|]. rewrite ins_perm. constructor; [lia|done].
Qed.

Lemma isort_sorted l : StronglySorted earlier (isort l).
Proof. induction l; simpl; [constructor|by apply ins_sorted]. Qed.

Lemma ins_first x l : Forall (earlier x) l -> ins x l = x :: l.
Proof. destruct 1 as [|y l Hy _]; simpl; [done|]. by rewrite (proj2 (Z.leb_le _ _)). Qed.

Lemma isort_id l : StronglySorted earlier l -> isort l = l.
Proof. induction 1 as [|x l _ IH Hx]; simpl; [done|]. rewrite IH. by apply ins_first. Qed.

Lemma filter_ins (P : A -> Prop) `{!forall x, Decision (P x)} x l :
  StronglySorted earlier l -> filter P (ins x l) = if decide (P x) then ins x (filter P l) else filter P l.
Proof.
  induction 1 as [|y l Hs IH Hy]; simpl; [by rewrite filter_cons|].
  destruct (Z.leb_spec (time x) (time y)) as [Hle|Hlt].
  - rewrite filter_cons. case_decide as Hx; [|done]. rewrite ins_first; [done|].
    apply Forall_forall. intros z [_ Hz]%list_elem_of_filter. apply elem_of_cons in Hz as [->|Hz]; [done|].
    eapply Forall_forall in Hy; [|exact Hz]. simpl in Hy. lia.
  - rewrite !filter_cons. case_decide as Hyp; rewrite IH; case_decide; [|done..].
    simpl. by rewrite (proj2 (Z.leb_gt _ _)).
Qed.

Lemma filter_isort (P : A -> Prop) `{!forall x, Decision (P x)} l : filter P (isort l) = isort (filter P l).
Proof.
  induction l as [|x l IH]; [done|]. cbn [isort foldr]. fold (isort l). rewrite filter_ins by apply isort_sorted. rewrite filter_cons, IH. by case_decide.
Qed.

End sort.

(** ** Linearization points *)

(** Each operation takes effect when all the ones up to it are called. *)
Fixpoint points (now : Z) (l : list Operation) : list (Z * Operation) :=
  match l with
  | [] => []
  | op :: l => let t := Z.max now (op_Call op) in (t, op) :: points t l
  end.

Definition linearization_points (l : list Operation) : list (Z * Operation) :=
  match l with [] => [] | op :: _ => points (op_Call op) l end.

Lemma points_ops now l : snd <$> points now l = l.
Proof. revert now. induction l as [|op l IH]; intros now; [done|]. cbn [points]. rewrite fmap_cons. by rewrite IH. Qed.

Lemma points_from now l : Forall (fun x => now <= x.1)%Z (points now l).
Proof.
  revert now. induction l as [|op l IH]; intros now; [constructor|]. cbn [points]. constructor; [simpl; lia|].
  eapply Forall_impl; [apply IH|]. intros x. simpl. lia.
Qed.

Lemma points_sorted now l : StronglySorted (fun a b => (a.1 <= b.1)%Z) (points now l).
Proof. revert now. induction l as [|op l IH]; intros now; [constructor|]. cbn [points]. constructor; [apply IH|]. apply points_from. Qed.

(** They lie between the call and the answer. *)
Lemma points_between now l :
  StronglySorted may_precede l -> well_timed l -> Forall (fun op => now <= op_Return op)%Z l ->
  Forall (fun x => op_Call x.2 <= x.1 <= op_Return x.2)%Z (points now l).
Proof.
  intros Hs. revert now. induction Hs as [|op l Hs IH Hop]; intros now Hw Hn; [constructor|].
  apply Forall_cons in Hw as [Hw1 Hw]. apply Forall_cons in Hn as [Hn1 Hn]. cbn [points]. constructor; [simpl; lia|]. apply IH; [done|].
  apply Forall_forall. intros x Hx. eapply Forall_forall in Hn; [|exact Hx]. eapply Forall_forall in Hop; [|exact Hx]. unfold may_precede in Hop. simpl in Hn. lia.
Qed.

Lemma linearization_points_ok l :
  StronglySorted may_precede l -> well_timed l ->
  snd <$> linearization_points l = l /\ StronglySorted (fun a b => (a.1 <= b.1)%Z) (linearization_points l) /\
  Forall (fun x => op_Call x.2 <= x.1 <= op_Return x.2)%Z (linearization_points l).
Proof.
  intros Hs Hw. destruct l as [|op l]; [split_and!; by constructor|]. split_and!; [apply points_ops|apply points_sorted|].
  apply points_between; [done|done|]. constructor; [by apply Forall_cons in Hw as [? _]|]. by apply StronglySorted_inv in Hs as [_ Hs].
Qed.

(** ** Putting the keys together *)

Section merge.
Context (h : list Operation) (lin : bytes -> list Operation).
Context (Hwt : well_timed h).
Context (Hlin : forall k, lin k ≡ₚ filter (of_key k) h /\ StronglySorted may_precede (lin k)).

Definition all_points (ks : list bytes) : list (Z * Operation) := mjoin ((fun k => linearization_points (lin k)) <$> ks).

Lemma all_points_cons k ks : all_points (k :: ks) = linearization_points (lin k) ++ all_points ks.
Proof. reflexivity. Qed.

Lemma lin_points k :
  snd <$> linearization_points (lin k) = lin k /\ StronglySorted (fun a b => (a.1 <= b.1)%Z) (linearization_points (lin k)) /\
  Forall (fun x => op_Call x.2 <= x.1 <= op_Return x.2)%Z (linearization_points (lin k)).
Proof using Hwt Hlin.
  destruct (Hlin k) as [Hp Hs]. apply linearization_points_ok; [done|]. unfold well_timed. rewrite Hp.
  apply Forall_forall. intros op [_ Hop]%list_elem_of_filter. by eapply Forall_forall in Hwt.
Qed.

Lemma lin_points_key k x : x ∈ linearization_points (lin k) -> op_key x.2 = k.
Proof using Hwt Hlin.
  intros Hx. apply (list_elem_of_fmap_2 snd) in Hx. rewrite (proj1 (lin_points k)) in Hx.
  rewrite (proj1 (Hlin k)) in Hx. by apply list_elem_of_filter in Hx as [? _].
Qed.

(** The merged points of a key are its own. *)
Lemma all_points_key ks k :
  NoDup ks -> filter (fun x => op_key x.2 = k) (all_points ks) = if decide (k ∈ ks) then linearization_points (lin k) else [].
Proof using Hwt Hlin.
  induction 1 as [|k' ks Hk' Hnd IH]; [done|]. rewrite all_points_cons, filter_app, IH.
  destruct (decide (k = k')) as [<-|Hne].
  - rewrite (filter_all _ (linearization_points _)) by (apply Forall_forall; intros x; apply lin_points_key).
    rewrite decide_False, app_nil_r by done. by rewrite decide_True by by left.
  - rewrite filter_none; [apply decide_ext; rewrite elem_of_cons; naive_solver|]. apply Forall_forall. intros x Hx%lin_points_key. congruence.
Qed.

Lemma all_points_perm ks : NoDup ks -> snd <$> all_points ks ≡ₚ filter (fun op => op_key op ∈ ks) h.
Proof using Hwt Hlin.
  induction 1 as [|k ks Hk Hnd IH].
  { rewrite filter_none; [done|]. apply Forall_forall. intros op _. apply not_elem_of_nil. }
  rewrite all_points_cons, fmap_app, (proj1 (lin_points k)), (proj1 (Hlin k)), IH. clear IH Hlin Hwt.
  induction h as [|op l IH]; [done|]. rewrite !filter_cons. destruct (decide (op_key op = k)) as [<-|Hne].
  - rewrite (decide_False (P := _ ∈ ks)), (decide_True (P := _ ∈ _ :: _)) by (done || by left). cbn [app]. by constructor.
  - destruct (decide (op_key op ∈ ks)) as [Hin|Hni].
    + rewrite decide_True by by right. rewrite <-Permutation_middle. by constructor.
    + rewrite decide_False; [done|]. by intros [?|?]%elem_of_cons.
Qed.

Lemma filter_fmap_snd (P : Operation -> Prop) `{!forall x, Decision (P x)} (l : list (Z * Operation)) :
  filter P (snd <$> l) = snd <$> filter (fun x => P x.2) l.
Proof. induction l as [|x l IH]; [done|]. rewrite fmap_cons, !filter_cons, IH. by case_decide. Qed.

(** One order for the whole history that keeps the order of every key. *)
Lemma merged_order :
  exists l, l ≡ₚ h /\ StronglySorted may_precede l /\ forall k, filter (of_key k) l = lin k.
Proof using Hwt Hlin.
  set (ks := remove_dups (op_key <$> h)). assert (NoDup ks) as Hnd by apply NoDup_remove_dups.
  assert (forall op, op ∈ h -> op_key op ∈ ks) as Hks by (intros op Hop; apply elem_of_remove_dups; by apply list_elem_of_fmap_2).
  set (m := isort fst (all_points ks)). assert (m ≡ₚ all_points ks) as Hm by apply isort_perm. exists (snd <$> m). split_and!.
  - rewrite Hm, all_points_perm by done. rewrite filter_all; [done|]. by apply Forall_forall.
  - assert (Forall (fun x => op_Call x.2 <= x.1 <= op_Return x.2)%Z m) as Hb.
    { rewrite Hm. clear -Hwt Hlin. induction ks as [|k ks IH]; [constructor|]. rewrite all_points_cons. apply Forall_app. split; [apply lin_points|done]. }
    assert (StronglySorted (fun a b => a.1 <= b.1)%Z m) as Hs by apply isort_sorted. clearbody m. clear -Hb Hs.
    induction Hs as [|x m _ IH Hx]; [constructor|]. apply Forall_cons in Hb as [Hb1 Hb]. rewrite fmap_cons. constructor; [by apply IH|].
    apply Forall_fmap, Forall_forall. intros y Hy. eapply Forall_forall in Hb; [|exact Hy]. eapply Forall_forall in Hx; [|exact Hy].
    unfold may_precede. simpl in *. lia.
  - intros k. rewrite filter_fmap_snd. unfold m. rewrite filter_isort, all_points_key by done.
    case_decide as Hk; [rewrite isort_id; apply lin_points|]. simpl. symmetry. apply Permutation_nil_r.
    rewrite (proj1 (Hlin k)). rewrite filter_none; [done|]. apply Forall_forall. intros op Hop <-. by apply Hk, Hks.
Qed.

End merge.

Lemma choose_lists (R : bytes -> list Operation -> Prop) (ks : list bytes) :
  (forall k, k ∈ ks -> exists l, R k l) -> exists f, forall k, k ∈ ks -> R k (f k).
Proof.
  induction ks as [|k ks IH]; intros H; [exists (fun _ => []); by intros k ?%not_elem_of_nil|].
  destruct IH as [f Hf]; [intros k' Hk'; apply H; by right|]. destruct (H k) as [l Hl]; [by left|].
  exists (fun x => if decide (x = k) then l else f x). intros k' Hk'. case_decide as E; [by subst|].
  apply elem_of_cons in Hk' as [->|Hk']; [done|by apply Hf].
Qed.

Lemma StronglySorted_filter {A} (R : A -> A -> Prop) (P : A -> Prop) `{!forall x, Decision (P x)} l :
  StronglySorted R l -> StronglySorted R (filter P l).
Proof.
  induction 1 as [|x l _ IH Hx]; [constructor|]. rewrite filter_cons. case_decide; [|done]. constructor; [done|].
  apply Forall_forall. intros y [_ Hy]%list_elem_of_filter. by eapply Forall_forall in Hx.
Qed.

(** C16. Checking each key on its own is sound and complete: a history of calls, with
    their times and answers, is linearizable as calls on one map exactly when
    every part that Partition makes of it is linearizable for the model of a
    single key. *)
Theorem partition_equivalent history :
  well_timed history ->
  Forall (linearizable (accepts Init)) (Partition history) <-> linearizable (map_accepts ∅) history.
Proof.
  intros Hwt. split.
  - intros Hall. set (R := fun k l => l ≡ₚ filter (of_key k) history /\ StronglySorted may_precede l /\ accepts Init l = true).
    destruct (choose_lists R (op_key <$> history)) as [f Hf].
    { intros k Hk. apply list_elem_of_fmap in Hk as (op & -> & Hop).
      assert (filter (of_key (op_key op)) history ∈ Partition history) as Hg.
      { apply Partition_groups. eexists. split; [done|]. intros E. apply (not_elem_of_nil op). rewrite <-E. by apply list_elem_of_filter. }
      eapply Forall_forall in Hall; [|exact Hg]. exact Hall. }
    set (lin := fun k => if decide (k ∈ op_key <$> history) then f k else []).
    assert (forall k, R k (lin k)) as HR.
    { intros k. unfold lin. case_decide as Hk; [by apply Hf|]. split; [|split; [constructor|done]]. rewrite filter_none; [done|].
      apply Forall_forall. intros op Hop <-. apply Hk. by apply list_elem_of_fmap_2. }
    destruct (merged_order history lin Hwt) as (l & Hp & Hs & Hk); [intros k; destruct (HR k) as (? & ? & _); by split|].
    exists l. split_and!; [done|done|]. apply map_accepts_keys. intros k. rewrite Hk, lookup_empty. apply HR.
  - intros (l & Hp & Hs & Ha). apply Forall_forall. intros g (k & -> & _)%Partition_groups. exists (filter (of_key k) l).
    split_and!; [by rewrite Hp|by apply StronglySorted_filter|]. pose proof (proj1 (map_accepts_keys ∅ l) Ha k) as Hk. by rewrite lookup_empty in Hk.
Qed.

(** ** The partition of events *)

(** Histories as porcupine makes them: a call has its input and an id of its own, an
    answer comes behind its call. *)
Inductive event_history : list Event -> Prop :=
  | eh_nil : event_history []
  | eh_call h c i id : event_history h -> (forall e, e ∈ h -> ev_Id e <> id) -> event_history (h ++ [mkEvent c CallEvent (inl i) id])
  | eh_return h c o id c' i : event_history h -> mkEvent c' CallEvent (inl i) id ∈ h -> event_history (h ++ [mkEvent c ReturnEvent o id]).

(** The key of the call with this id. *)
Fixpoint call_key (h : list Event) (id : Z) : option bytes :=
  match h with
  | [] => None
  | e :: h => match ev_Kind e, ev_Value e with
              | CallEvent, inl i => if decide (ev_Id e = id) then Some (in_Key i) else call_key h id
              | _, _ => call_key h id
              end
  end.

Lemma call_key_app h e id :
  call_key (h ++ [e]) id = match call_key h id with Some k => Some k | None => call_key [e] id end.
Proof. induction h as [|x h IH]; [done|]. simpl. destruct (ev_Kind x), (ev_Value x); try apply IH. by case_decide. Qed.

Lemma call_key_fresh h id : (forall e, e ∈ h -> ev_Id e <> id) -> call_key h id = None.
Proof.
  induction h as [|x h IH]; intros H; [done|]. simpl. assert (ev_Id x <> id) by (apply H; by left).
  destruct (ev_Kind x), (ev_Value x); rewrite ?decide_False by done; apply IH; intros e He; apply H; by right.
Qed.

(** Every event of a history belongs to the key of its call. *)
Lemma call_key_known h e : event_history h -> e ∈ h -> is_Some (call_key h (ev_Id e)).
Proof.
  intros H. revert e. induction H as [|h c i id _ IH _|h c o id c' i _ IH Hin]; intros e He; [by apply not_elem_of_nil in He|..];
    rewrite call_key_app; apply elem_of_app in He as [He| ->%list_elem_of_singleton].
  - by destruct (IH e He) as [k ->].
  - simpl. destruct (call_key h id); [done|]. by rewrite decide_True.
  - by destruct (IH e He) as [k ->].
  - destruct (IH _ Hin) as [k Hk]. simpl in *. by rewrite Hk.
Qed.

Lemma event_loop_app st h ev : event_loop st (h ++ [ev]) = st ← event_loop st h; event_step st ev.
Proof.
  revert st. induction h as [|x h IH]; intros st; cbn [app event_loop].
  - simpl. by destruct (event_step st ev).
  - destruct (event_step st x); simpl; [apply IH|done].
Qed.

Lemma filter_same {A} (P Q : A -> Prop) `{!forall x, Decision (P x)} `{!forall x, Decision (Q x)} (l : list A) :
  (forall x, x ∈ l -> P x <-> Q x) -> filter P l = filter Q l.
Proof.
  induction l as [|x l IH]; intros Heq; [done|]. rewrite !filter_cons. assert (P x <-> Q x) as Hx by (apply Heq; by left).
  rewrite IH by (intros y Hy; apply Heq; by right). repeat case_decide; tauto.
Qed.

(** The events of a key grow by an event of that key. *)
Lemma add_event_filter (h : list Event) (e : Event) (k k' : bytes) (m : gmap bytes (list Event)) :
  event_history h -> call_key (h ++ [e]) (ev_Id e) = Some k ->
  (forall k, default [] (m !! k) = filter (fun x => call_key h (ev_Id x) = Some k) h) ->
  default [] (add_event m k e !! k') = filter (fun x => call_key (h ++ [e]) (ev_Id x) = Some k') (h ++ [e]).
Proof.
  intros Hh Hk Hm. assert (filter (fun x => call_key (h ++ [e]) (ev_Id x) = Some k') h = default [] (m !! k')) as E.
  { rewrite Hm. apply filter_same. intros x Hx. destruct (call_key_known h x Hh Hx) as [kx Ex]. by rewrite call_key_app, Ex. }
  rewrite filter_app, E, filter_cons, filter_nil. unfold add_event. case_decide as Hd.
  - assert (k' = k) as -> by congruence. by rewrite lookup_insert_eq.
  - rewrite lookup_insert_ne by congruence. by rewrite app_nil_r.
Qed.

(** PartitionEvent puts every event with the call it belongs to: it returns for every
    history, and the part of a key holds exactly the calls on that key and their
    answers, in the order of the history. *)
Theorem partition_event_groups history :
  event_history history ->
  exists m mtch, event_loop (∅, ∅) history = Some (m, mtch) /\
    forall k, default [] (m !! k) = filter (fun e => call_key history (ev_Id e) = Some k) history.
Proof.
  intros H. cut (exists m mtch, event_loop (∅, ∅) history = Some (m, mtch) /\ (forall id, mtch !! id = call_key history id) /\
    forall k, default [] (m !! k) = filter (fun e => call_key history (ev_Id e) = Some k) history).
  { intros (m & mtch & ? & _ & ?). by exists m, mtch. }
  induction H as [|h c i id Hh (m & mtch & E & Ht & Hm) Hf|h c o id c' i Hh (m & mtch & E & Ht & Hm) Hin].
  - exists ∅, ∅. split; [done|]. split; [intros id; by rewrite lookup_empty|intros k; by rewrite lookup_empty].
  - rewrite event_loop_app, E. simpl. do 2 eexists. split; [done|].
    assert (forall j, call_key (h ++ [mkEvent c CallEvent (inl i) id]) j = if decide (id = j) then Some (in_Key i) else call_key h j) as Hck.
    { intros j. rewrite call_key_app. simpl. case_decide; [subst; by rewrite call_key_fresh|by destruct (call_key h j)]. }
    split; [intros j; rewrite Hck; case_decide; [subst; by rewrite lookup_insert_eq|by rewrite lookup_insert_ne]|].
    intros k. apply add_event_filter; [done|rewrite Hck; by rewrite decide_True|done].
  - rewrite event_loop_app, E. simpl. do 2 eexists. split; [done|]. destruct (call_key_known h _ Hh Hin) as [k0 Ek]. simpl in Ek.
    split; [intros j; rewrite call_key_app, Ht; simpl; by destruct (call_key h j)|].
    intros k. rewrite Ht, Ek. apply add_event_filter; [done|simpl; by rewrite call_key_app, Ek|done].
Qed.

(** ** Witness: two overlapping calls on one key and one on another *)

Definition sample_history : list Operation :=
  [mkOperation 1 (mkInput (str "get") (str "x") []) 0 (mkOutput (str "1") true) 5;
   mkOperation 2 (mkInput (str "put") (str "x") (str "1")) 2 (mkOutput [] false) 4;
   mkOperation 1 (mkInput (str "get") (str "y") []) 6 (mkOutput [] false) 7].

Definition sample_order : list Operation :=
  [mkOperation 2 (mkInput (str "put") (str "x") (str "1")) 2 (mkOutput [] false) 4;
   mkOperation 1 (mkInput (str "get") (str "x") []) 0 (mkOutput (str "1") true) 5;
   mkOperation 1 (mkInput (str "get") (str "y") []) 6 (mkOutput [] false) 7].

Lemma partition_equivalent_witness :
  accepts Init (take 2 sample_history) = false /\ length (Partition sample_history) = 2 /\
  Forall (linearizable (accepts Init)) (Partition sample_history).
Proof.
  split; [vm_compute; reflexivity|]. split; [vm_compute; reflexivity|]. apply (partition_equivalent sample_history).
  - repeat constructor; simpl; lia.
  - exists sample_order. split_and!; [constructor|repeat constructor; unfold may_precede; simpl; lia|vm_compute; reflexivity].
Defined.
