(* ===== verification/GoText.v ===== *)
(** The parts of strings, strconv and net that the commands use, on byte strings:
    Split, SplitN, TrimSpace, Contains, ParseUint, SplitHostPort and JoinHostPort. *)

From S2P Require Import Prelude Bytes GoIO Wal Memtable SSTable Engine Layers EngineCorrect EngineRecovery.

Abbreviation comma := x2c.
Abbreviation equals := x3d.
Abbreviation colon := x3a.
Abbreviation bra := x5b.
Abbreviation ket := x5d.

(** ** strings *)

(** strings.Split with a separator of one byte. *)
Fixpoint Split (sep : byte) (s : bytes) : list bytes :=
  match s with
  | [] => [[]]
  | c :: s =>
      if decide (c = sep) then [] :: Split sep s
      else match Split sep s with
      | p :: ps => (c :: p) :: ps
      | [] => [[c]]
      end
  end.

(** The text before the first separator, and behind it. *)
Fixpoint cut (sep : byte) (s : bytes) : option (bytes * bytes) :=
  match s with
  | [] => None
  | c :: s =>
      if decide (c = sep) then Some ([], s)
      else '(a, b) ← cut sep s; Some (c :: a, b)
  end.

(** strings.SplitN(s, sep, 2) *)
Definition SplitN2 (sep : byte) (s : bytes) : list bytes :=
  match cut sep s with Some (a, b) => [a; b] | None => [s] end.

Definition has_prefix (p s : bytes) : bool := bytes_eqb (take (length p) s) p.

(** strings.Contains *)
Fixpoint Contains (s sub : bytes) : bool :=
  has_prefix sub s || match s with [] => false | _ :: s => Contains s sub end.

(** The UTF-8 encodings of the runes that unicode.IsSpace accepts. *)
Definition spaces : list bytes :=
  [[x09]; [x0a]; [x0b]; [x0c]; [x0d]; [x20]; [xc2; x85]; [xc2; xa0]; [xe1; x9a; x80];
   [xe2; x80; x80]; [xe2; x80; x81]; [xe2; x80; x82]; [xe2; x80; x83]; [xe2; x80; x84]; [xe2; x80; x85]; [xe2; x80; x86];
   [xe2; x80; x87]; [xe2; x80; x88]; [xe2; x80; x89]; [xe2; x80; x8a]; [xe2; x80; xa8]; [xe2; x80; xa9]; [xe2; x80; xaf];
   [xe2; x81; x9f]; [xe3; x80; x80]].

(** Takes leading words of the list off, one by one; every one is at least a byte long. *)
Fixpoint trim_words (words : list bytes) (fuel : nat) (s : bytes) : bytes :=
  match fuel with
  | O => s
  | S fuel =>
      match filter (fun w => has_prefix w s = true) words with
      | w :: _ => trim_words words fuel (drop (length w) s)
      | [] => s
      end
  end.
Definition TrimLeft (s : bytes) : bytes := trim_words spaces (length s) s.
Definition TrimRight (s : bytes) : bytes := reverse (trim_words (reverse <$> spaces) (length s) (reverse s)).

(** strings.TrimSpace *)
Definition TrimSpace (s : bytes) : bytes := TrimRight (TrimLeft s).

(** *** Split *)

Lemma Split_nonempty sep s : Split sep s <> [].
Proof. destruct s as [|c s]; simpl; [done|]. case_decide; [done|]. by destruct (Split sep s). Qed.

Lemma Split_no_sep sep s : Forall (fun p => sep ∉ p) (Split sep s).
Proof.
  induction s as [|c s IH]; simpl; [repeat constructor; apply not_elem_of_nil|]. case_decide; [constructor; [apply not_elem_of_nil|done]|].
  pose proof (Split_nonempty sep s). destruct (Split sep s) as [|p ps]; [done|]. apply Forall_cons in IH as [H1 H2].
  constructor; [apply not_elem_of_cons; split; [by intros ->|done]|done].
Qed.

Lemma Split_one sep p : sep ∉ p -> Split sep p = [p].
Proof.
  induction p as [|c p IH]; intros H; [done|]. apply not_elem_of_cons in H as [H1 H2]. simpl. rewrite decide_False by (by intros ->).
  by rewrite IH.
Qed.

Lemma Split_app sep p s : sep ∉ p -> Split sep (p ++ sep :: s) = p :: Split sep s.
Proof.
  induction p as [|c p IH]; intros H; simpl; [by rewrite decide_True|]. apply not_elem_of_cons in H as [H1 H2].
  rewrite decide_False by (by intros ->). by rewrite IH.
Qed.

Lemma cut_app sep p s : sep ∉ p -> cut sep (p ++ sep :: s) = Some (p, s).
Proof.
  induction p as [|c p IH]; intros H; simpl; [by rewrite decide_True|]. apply not_elem_of_cons in H as [H1 H2].
  rewrite decide_False by (by intros ->). by rewrite IH.
Qed.

(** ** strconv *)

Inductive NumError := ErrSyntax | ErrRange.

Definition maxUint64 : N := two64 - 1.
(** The first value that overflows when multiplied by ten. *)
Definition cutoff : N := maxUint64 / 10 + 1.

(** The loop of ParseUint, on machine integers. *)
Fixpoint parse_loop (n : N) (s : bytes) : sum NumError N :=
  match s with
  | [] => inr n
  | c :: s =>
      match digit_value c with
      | None => inl ErrSyntax
      | Some d =>
          if (cutoff <=? n)%N then inl ErrRange
          else
            let n := ((n * 10) mod two64)%N in
            let n1 := (n +64 d) in
            if (n1 <? n)%N then inl ErrRange else parse_loop n1 s
      end
  end.

(** strconv.ParseUint(s, 10, 64) *)
Definition ParseUint64 (s : bytes) : sum NumError N :=
  match s with [] => inl ErrSyntax | _ => parse_loop 0 s end.

Lemma digit_value_lt c d : digit_value c = Some d -> (d < 10)%N.
Proof. unfold digit_value. destruct (_ && _) eqn:E; [|done]. intros [= <-]. apply andb_prop in E as [?%N.leb_le ?%N.leb_le]. lia. Qed.

Lemma digits_value_ge n s v : digits_value n s = Some v -> (n <= v)%N.
Proof.
  revert n. induction s as [|c s IH]; intros n; simpl; [by intros [= <-]|]. destruct (digit_value c); simpl; [|done]. intros ?%IH. lia.
Qed.

(** One turn: the checks catch exactly the values beyond 64 bits. *)
Lemma parse_digit n d :
  (n < two64)%N -> (d < 10)%N ->
  (if (cutoff <=? n)%N then None else let m := ((n * 10) mod two64)%N in if (m +64 d <? m)%N then None else Some (m +64 d)) =
  (if (n * 10 + d <? two64)%N then Some (n * 10 + d)%N else None).
Proof.
  intros Hn Hd. change two64 with 18446744073709551616%N in *. change cutoff with 1844674407370955162%N.
  destruct (N.leb_spec 1844674407370955162 n) as [H|H]; [destruct (N.ltb_spec (n * 10 + d) 18446744073709551616); [lia|done]|].
  cbn zeta. rewrite (N.mod_small (n * 10)) by lia. destruct (N.ltb_spec (n * 10 + d) 18446744073709551616) as [Hs|Hs].
  - rewrite add64_small by exact Hs. by rewrite (proj2 (N.ltb_ge _ _)) by lia.
  - assert (n * 10 +64 d = n * 10 + d - 18446744073709551616)%N as ->.
    { unfold add64. change two64 with 18446744073709551616%N. symmetry. apply (N.mod_unique _ _ 1); lia. }
    by rewrite (proj2 (N.ltb_lt _ _)) by lia.
Qed.

(** ParseUint accepts exactly the decimal numbers of 64 bits. *)
Lemma parse_loop_spec n s :
  (n < two64)%N ->
  match parse_loop n s with
  | inr v => digits_value n s = Some v /\ (v < two64)%N
  | inl _ => forall v, digits_value n s = Some v -> (two64 <= v)%N
  end.
Proof.
  revert n. induction s as [|c s IH]; intros n Hn; cbn [parse_loop digits_value]; [by split|].
  destruct (digit_value c) as [d|] eqn:Ed; cbn [mbind option_bind]; [|done]. pose proof (parse_digit n d Hn (digit_value_lt _ _ Ed)) as Hp.
  assert (forall x, x = (n * 10 + d)%N -> (x < two64)%N -> match parse_loop x s with
    | inr v => digits_value (n * 10 + d) s = Some v /\ (v < two64)%N
    | inl _ => forall v, digits_value (n * 10 + d) s = Some v -> (two64 <= v)%N end) as Hrec by (intros x -> Hx; by apply IH).
  assert ((two64 <= n * 10 + d)%N -> forall v, digits_value (n * 10 + d) s = Some v -> (two64 <= v)%N) as Hbig.
  { intros H v Hv%digits_value_ge. by etrans. }
  cbn zeta in *. destruct (cutoff <=? n)%N; [|destruct (_ <? _ mod two64)%N]; destruct (N.ltb_spec (n * 10 + d) two64) as [Hs|Hs]; try discriminate Hp;
    [by apply Hbig..|]. injection Hp as Hp. apply Hrec; [exact Hp|]. rewrite Hp. exact Hs.
Qed.

Lemma ParseUint64_decimal n : (n < two64)%N -> ParseUint64 (decimal n) = inr n.
Proof.
  intros Hn. destruct (decimal_nonempty n) as (c & l & Hd). unfold ParseUint64. rewrite Hd, <-Hd. pose proof (parse_loop_spec 0 (decimal n) ltac:(done)) as H.
  assert (digits_value 0 (decimal n) = Some n) as Hv.
  { unfold decimal. rewrite decimal_loop_value; [done|]. eapply N.lt_trans; [exact Hn|]. vm_compute. reflexivity. }
  destruct (parse_loop 0 (decimal n)) as [er|v].
  - specialize (H n Hv). destruct (N.lt_irrefl n). by eapply N.lt_le_trans.
  - f_equal. destruct H as [H _]. congruence.
Qed.

(** The digits of a number are digits. *)
Lemma decimal_digits n : Forall (fun c => is_Some (digit_value c)) (decimal n).
Proof.
  unfold decimal. assert (forall fuel n acc, Forall (fun c => is_Some (digit_value c)) acc -> Forall (fun c => is_Some (digit_value c)) (decimal_loop fuel n acc)) as H.
  { induction fuel as [|fuel IH]; intros m acc Ha; [done|]. cbn [decimal_loop].
    assert (Forall (fun c => is_Some (digit_value c)) (digit m :: acc)) by (constructor; [by rewrite digit_value_digit|done]). destruct (m <? 10)%N; [done|by apply IH]. }
  by apply H.
Qed.

Lemma decimal_not_in n c : digit_value c = None -> c ∉ decimal n.
Proof. intros Hc Hin. pose proof (decimal_digits n) as H. eapply Forall_forall in H; [|exact Hin]. rewrite Hc in H. by destruct H. Qed.

(** ** sort *)

(** The order of sort.Strings is total and transitive. *)
#[global] Instance bytes_le_total : Total Engine.bytes_le.
Proof.
  intros a b. unfold Engine.bytes_le. destruct (trichotomy bytes_lt a b) as [H|[->|H]]; [left|left|right].
  - by apply bytes_lt_asym.
  - apply bytes_lt_irrefl.
  - by apply bytes_lt_asym.
Qed.
#[global] Instance bytes_le_trans : Transitive Engine.bytes_le.
Proof.
  intros a b c. unfold Engine.bytes_le. intros H1 H2 H3. destruct (trichotomy bytes_lt a b) as [H|[->|H]]; [|done|done].
  apply H2. by eapply bytes_lt_trans.
Qed.

(** ** net *)

(** bytealg.LastIndexByteString, as the texts before and behind it. *)
Definition cut_last (sep : byte) (s : bytes) : option (bytes * bytes) :=
  '(b, a) ← cut sep (reverse s); Some (reverse a, reverse b).

(** net.SplitHostPort: host and port, or an error. *)
Definition SplitHostPort (s : bytes) : option (bytes * bytes) :=
  '(before, port) ← cut_last colon s;
  match s with
  | [] => None
  | c :: s' =>
      if decide (c = bra) then
        '(host, rest) ← cut ket s';
        (* the ']' comes just before the last ':' *)
        if bool_decide (length before = length host + 2) then
          if bool_decide (bra ∈ s') || bool_decide (ket ∈ rest) then None else Some (host, port)
        else None
      else if bool_decide (colon ∈ before) || bool_decide (bra ∈ s) || bool_decide (ket ∈ s) then None
      else Some (before, port)
  end.

(** net.JoinHostPort *)
Definition JoinHostPort (host port : bytes) : bytes :=
  if bool_decide (colon ∈ host) then [bra] ++ host ++ [ket; colon] ++ port else host ++ [colon] ++ port.

Lemma cut_last_app sep p s : sep ∉ s -> cut_last sep (p ++ sep :: s) = Some (p, s).
Proof.
  intros H. unfold cut_last. rewrite reverse_app, reverse_cons, <-(assoc_L (++)). simpl.
  rewrite cut_app by (by rewrite elem_of_reverse). simpl. by rewrite !reverse_involutive.
Qed.

(** Reading back what JoinHostPort wrote. *)
Lemma SplitHostPort_Join host port :
  bra ∉ host -> ket ∉ host -> colon ∉ port -> bra ∉ port -> ket ∉ port -> SplitHostPort (JoinHostPort host port) = Some (host, port).
Proof.
  intros H1 H2 H3 H4 H5. unfold JoinHostPort. case_bool_decide as Hc.
  - assert ([bra] ++ host ++ [ket; colon] ++ port = (bra :: host ++ [ket]) ++ colon :: port) as E by (simpl; by rewrite <-(assoc_L (++))).
    unfold SplitHostPort. rewrite E, cut_last_app by done. cbn [mbind option_bind app]. rewrite decide_True by done.
    rewrite <-(assoc_L (++)). cbn [app]. rewrite cut_app by done. cbn [mbind option_bind]. rewrite bool_decide_true by (simpl; rewrite length_app; simpl; lia).
    rewrite !bool_decide_false by set_solver. done.
  - unfold SplitHostPort. cbn [app]. rewrite cut_last_app by done. cbn [mbind option_bind]. destruct (host ++ colon :: port) as [|c s] eqn:E; [by destruct host|].
    rewrite decide_False; [|destruct host as [|h host]; simpl in E; injection E as <- _; [done|set_solver]].
    rewrite <-E. rewrite !bool_decide_false by set_solver. done.
Qed.
