(* ===== verification/Commands.v ===== *)
(** cmd/distkv/main.go and cmd/distkv-cli/main.go: what the server command makes of its
    flags, and what the command-line client does with its arguments. *)

From S2P Require Import Prelude Bytes GoIO Engine EngineRecovery Messages GoText Server ServerEngine.
#[local] Open Scope nat_scope.

(** ** cmd/distkv *)

(** The flags that reach the server's membership; the listen addresses besides -raft,
    the directory and the log level are only checked or passed on. *)
Record flags := mkFlags {
  fl_id : N;
  fl_dir : bytes;
  fl_kv : bytes;
  fl_raft : bytes;
  fl_peers : bytes;
  fl_join : bytes
}.

(** The first loop over the peers: a bad part ends the program. *)
Fixpoint parse_peers (peers : gmap N bytes) (parts : list bytes) : option (gmap N bytes) :=
  match parts with
  | [] => Some peers
  | part :: parts =>
      match SplitN2 equals part with
      | [k; v] =>
          match ParseUint64 k with
          | inr pid => parse_peers (<[pid := v]> peers) parts
          | inl _ => None
          end
      | _ => None
      end
  end.

(** What ParseUint returns beside an error. *)
Definition parsed (r : sum NumError N) : N :=
  match r with inr n => n | inl ErrSyntax => 0%N | inl ErrRange => maxUint64 end.

(** The second loop, over the seeds: it drops the error of ParseUint. *)
Fixpoint join_peers (peers : gmap N bytes) (parts : list bytes) : gmap N bytes :=
  match parts with
  | [] => peers
  | part :: parts =>
      match SplitN2 equals part with
      | [k; v] => join_peers (<[parsed (ParseUint64 k) := v]> peers) parts
      | _ => join_peers peers parts
      end
  end.

(** The third loop: the seeds once more, and the list of their ids. *)
Fixpoint join_seeds (id : N) (peers : gmap N bytes) (seeds : list N) (parts : list bytes) : gmap N bytes * list N :=
  match parts with
  | [] => (peers, seeds)
  | part :: parts =>
      match SplitN2 equals part with
      | [k; v] =>
          match ParseUint64 k with
          | inr pid => join_seeds id (<[pid := v]> peers) (if (pid =? id)%N then seeds else seeds ++ [pid]) parts
          | inl _ => join_seeds id peers seeds parts
          end
      | _ => join_seeds id peers seeds parts
      end
  end.

(** main up to server.New: an exit code, or the options. *)
Definition distkv_main (f : flags) : sum N Options :=
  let empty b := bytes_eqb b [] in
  if (fl_id f =? 0)%N || empty (fl_dir f) || empty (fl_kv f) || empty (fl_raft f) then inl 2%N
  else if empty (fl_peers f) && empty (fl_join f) then inl 2%N
  else
    let spec := if empty (fl_peers f) then fl_join f else fl_peers f in
    match parse_peers ∅ (Split comma spec) with
    | None => inl 2%N
    | Some peers =>
        if negb (empty (fl_join f)) && empty (fl_peers f) then
          let peers := <[fl_id f := fl_raft f]> (join_peers {[fl_id f := fl_raft f]} (Split comma (fl_join f))) in
          let '(peers, seeds) := join_seeds (fl_id f) peers [] (Split comma (fl_join f)) in
          inr (mkServerOptions (fl_id f) (<[fl_id f := fl_raft f]> peers) seeds)
        else inr (mkServerOptions (fl_id f) peers [])
    end.

(** main: what server.New and Serve return decides the exit code. *)
Definition distkv_run (f : flags) (start : Options -> option error) (serve : option error) : N :=
  match distkv_main f with
  | inl code => code
  | inr o => match start o, serve with None, None => 0 | _, _ => 1 end
  end.

(** ** Peer lists *)

(** A part that the first loop accepts. *)
Definition peer_part (part : bytes) (p : N * bytes) : Prop :=
  exists k, SplitN2 equals part = [k; p.2] /\ ParseUint64 k = inr p.1.

Lemma parse_peers_parts peers parts m :
  parse_peers peers parts = Some m -> exists ps, Forall2 peer_part parts ps /\ m = foldl (fun m p => <[p.1 := p.2]> m) peers ps.
Proof.
  revert peers. induction parts as [|part parts IH]; intros peers; cbn [parse_peers]; [intros [= <-]; exists []; by split|].
  destruct (SplitN2 equals part) as [|k [|v [|]]] eqn:Es; try done. destruct (ParseUint64 k) as [|pid] eqn:Ep; [done|].
  intros (ps & H1 & ->)%IH. exists ((pid, v) :: ps). split; [constructor; [by exists k|done]|done].
Qed.

Lemma join_peers_parts peers parts ps :
  Forall2 peer_part parts ps -> join_peers peers parts = foldl (fun m p => <[p.1 := p.2]> m) peers ps.
Proof.
  intros H. revert peers. induction H as [|part p parts ps (k & H1 & H2) _ IH]; intros peers; cbn [join_peers]; [done|].
  rewrite H1, H2. simpl. apply IH.
Qed.

Lemma join_seeds_parts id peers seeds parts ps :
  Forall2 peer_part parts ps ->
  join_seeds id peers seeds parts = (foldl (fun m p => <[p.1 := p.2]> m) peers ps, seeds ++ filter (fun i => i <> id) (fst <$> ps)).
Proof.
  intros H. revert peers seeds. induction H as [|part p parts ps (k & H1 & H2) _ IH]; intros peers seeds; cbn [join_seeds]; [by rewrite app_nil_r|].
  rewrite H1, H2, IH. cbn [foldl fmap list_fmap]. f_equal. rewrite filter_cons. destruct (N.eqb_spec p.1 id) as [E|E].
  - by rewrite decide_False by (intros ?; done).
  - by rewrite decide_True, <-(assoc_L (++)).
Qed.

(** Writing the same list twice, and one key at the end, is writing it once. *)
Lemma fold_insert_lookup (m : gmap N bytes) (ps : list (N * bytes)) i :
  foldl (fun m p => <[p.1 := p.2]> m) m ps !! i = match foldl (fun m p => <[p.1 := p.2]> m) (∅ : gmap N bytes) ps !! i with Some v => Some v | None => m !! i end.
Proof.
  induction ps as [|p ps IH] using rev_ind; [simpl; by rewrite lookup_empty|]. rewrite !foldl_app. simpl.
  destruct (decide (p.1 = i)) as [->|]; [by rewrite !lookup_insert_eq|]. by rewrite !lookup_insert_ne.
Qed.

(** A node that joins gets its seeds right: whenever main accepts -join, the two
    further passes over the list (which ignore errors) find what the first pass
    checked; the peers are the seeds with their addresses, the later of two for
    the same id, and the node itself at its -raft address, and the bootstrap
    members are the ids of the seeds in their order, without the node itself. *)
Theorem join_options f o :
  fl_peers f = [] -> distkv_main f = inr o ->
  exists ps, Forall2 peer_part (Split comma (fl_join f)) ps /\
    so_ID o = fl_id f /\ so_Peers o = <[fl_id f := fl_raft f]> (foldl (fun m p => <[p.1 := p.2]> m) ∅ ps) /\
    so_BootstrapIDs o = filter (fun i => i <> fl_id f) (fst <$> ps).
Proof.
  intros Hp. unfold distkv_main. rewrite Hp. destruct (_ || _); [done|]. destruct (bytes_eqb_spec (fl_join f) []) as [|Hj]; [done|]. simpl.
  destruct (parse_peers ∅ (Split comma (fl_join f))) as [m|] eqn:E; [|done]. apply parse_peers_parts in E as (ps & Hps & ->).
  rewrite (join_peers_parts _ _ ps), (join_seeds_parts _ _ _ _ ps) by done. intros [= <-]. exists ps. split; [done|]. split; [done|]. split; [|done].
  cbn [so_Peers]. apply map_eq. intros i. destruct (decide (fl_id f = i)) as [->|Hne]; [by rewrite !lookup_insert_eq|].
  rewrite !(lookup_insert_ne _ (fl_id f) i) by done. rewrite (fold_insert_lookup (<[fl_id f := fl_raft f]> _)), lookup_insert_ne by done.
  rewrite (fold_insert_lookup {[fl_id f := fl_raft f]}), lookup_singleton_ne by done. by destruct (_ !! i).
Qed.

(** The text of a list of peers. *)
Definition peer_text (p : N * bytes) : bytes := decimal p.1 ++ equals :: p.2.
Fixpoint peers_text (p : N * bytes) (ps : list (N * bytes)) : bytes :=
  match ps with
  | [] => peer_text p
  | q :: ps => peer_text p ++ comma :: peers_text q ps
  end.

Definition peer_writable (p : N * bytes) : Prop := (p.1 < two64)%N /\ comma ∉ p.2.

Lemma peer_text_part p : peer_writable p -> peer_part (peer_text p) p /\ comma ∉ peer_text p.
Proof.
  intros [H1 H2]. split.
  - exists (decimal p.1). unfold SplitN2, peer_text. rewrite cut_app by (by apply decimal_not_in). by rewrite ParseUint64_decimal.
  - unfold peer_text. rewrite elem_of_app, elem_of_cons. intros [H|[H|H]]; [by apply decimal_not_in in H|done|done].
Qed.

Lemma Split_peers_text p ps : Forall peer_writable (p :: ps) -> Split comma (peers_text p ps) = peer_text <$> p :: ps.
Proof.
  revert p. induction ps as [|q ps IH]; intros p H; apply Forall_cons in H as [Hp H]; cbn [peers_text]; destruct (peer_text_part p Hp) as [_ Hc].
  - by apply Split_one.
  - rewrite Split_app by done. by rewrite IH.
Qed.

(** -peers reads back what is written: for every list of peers with 64-bit ids and
    addresses without a comma, main accepts its text and hands the server exactly
    this map, the later address for an id given twice. *)
Theorem peers_roundtrip f p ps :
  Forall peer_writable (p :: ps) -> fl_peers f = peers_text p ps ->
  fl_id f <> 0%N -> fl_dir f <> [] -> fl_kv f <> [] -> fl_raft f <> [] ->
  distkv_main f = inr (mkServerOptions (fl_id f) (foldl (fun m p => <[p.1 := p.2]> m) ∅ (p :: ps)) []).
Proof.
  intros Hw Hf H1 H2 H3 H4. unfold distkv_main. rewrite (proj2 (N.eqb_neq _ _) H1).
  assert (forall b, b <> [] -> bytes_eqb b [] = false) as Hb by (intros b; by destruct (bytes_eqb_spec b [])).
  rewrite !Hb by done. assert (peers_text p ps <> []) as Hne.
  { destruct (decimal_nonempty p.1) as (c & l & E). destruct ps; unfold peers_text, peer_text; by rewrite E. }
  rewrite Hf. cbn [orb]. rewrite (Hb (peers_text p ps)) by done. cbn [andb]. rewrite Split_peers_text by done.
  assert (forall m qs, Forall peer_writable qs -> parse_peers m (peer_text <$> qs) = Some (foldl (fun m p => <[p.1 := p.2]> m) m qs)) as Hparse.
  { intros m qs. revert m. induction qs as [|q qs IH]; intros m H; [done|]. apply Forall_cons in H as [Hq H]. cbn [fmap list_fmap parse_peers].
    destruct (proj1 (peer_text_part q Hq)) as (k & -> & ->). simpl. by apply IH. }
  rewrite Hparse by done. by rewrite andb_false_r.
Qed.

(** ** cmd/distkv-cli *)

(** The calls the command makes, and what it prints. *)
Inductive cli_call :=
  | CallGet (key : bytes)
  | CallPut (key value : bytes)
  | CallDelete (key : bytes)
  | CallStatus (addr : bytes)
  | CallListMembers (addr : bytes)
  | CallAddMember (addr : bytes) (id : N) (raftAddr : bytes)
  | CallRemoveMember (addr : bytes) (id : N).

Inductive cli_line :=
  | LineNotFound
  | LineValue (v : bytes)
  | LineOK
  | LineUnreachable (addr : bytes) (err : error)
  | LineStatus (addr : bytes) (st : StatusResponse)
  | LineJoint
  | LineMember (m : MemberInfo).

Inductive ending := Exit (code : N) | Panicked.

Record cli_run := mkRun { cr_calls : list cli_call; cr_out : list cli_line; cr_end : ending }.

(** The answers of the client (get, put, delete, status) and, for members, of a
    connection to one node. *)
Record cli_world := mkCliWorld {
  cw_Get : bytes -> sum error (bytes * bool);
  cw_Put : bytes -> bytes -> option error;
  cw_Delete : bytes -> option error;
  cw_Status : bytes -> sum error StatusResponse;
  cw_dialKV : bytes -> option error;
  cw_ListMembers : bytes -> sum error (bool * list MemberInfo);
  cw_AddMember : bytes -> N -> bytes -> option error;
  cw_RemoveMember : bytes -> N -> option error
}.

(** requireArgs goes on; otherwise it exits with 2. *)
Definition requireArgs (args : list bytes) (n : nat) : bool := bool_decide (n <= length args).

(** die: an error exits with 1. *)
Definition die (calls : list cli_call) (out : list cli_line) (err : option error) : cli_run :=
  mkRun calls out (Exit match err with Some _ => 1 | None => 0 end).

Definition parseMemberSpec (spec : bytes) : sum error (N * bytes) :=
  match SplitN2 equals spec with
  | [k; v] => match ParseUint64 k with inr id => inr (id, v) | inl _ => inl (Errorf (str "invalid id")) end
  | _ => inl (Errorf (str "expected id=host:port"))
  end.

(** membersCmd, with the die of its caller. args[1] panics when it is missing. *)
Definition membersCmd (w : cli_world) (addrs args : list bytes) : cli_run :=
  match args with
  | [] => die [] [] (Some (Errorf (str "members: need list|add|remove")))
  | sub :: _ =>
      match addrs with
      | [] => mkRun [] [] Panicked
      | addr :: _ =>
          match cw_dialKV w addr with
          | Some er => die [] [] (Some er)
          | None =>
              if bytes_eqb sub (str "list") then
                match cw_ListMembers w addr with
                | inl er => die [CallListMembers addr] [] (Some er)
                | inr (inJoint, members) =>
                    die [CallListMembers addr] ((if inJoint then [LineJoint] else []) ++ (LineMember <$> members)) None
                end
              else if bytes_eqb sub (str "add") then
                if requireArgs (str "add" :: args) 2 then
                  match args !! 1 with
                  | None => mkRun [] [] Panicked
                  | Some spec =>
                      match parseMemberSpec spec with
                      | inl er => die [] [] (Some er)
                      | inr (id, raftAddr) => die [CallAddMember addr id raftAddr] [] (cw_AddMember w addr id raftAddr)
                      end
                  end
                else mkRun [] [] (Exit 2)
              else if bytes_eqb sub (str "remove") then
                if requireArgs (str "remove" :: args) 2 then
                  match args !! 1 with
                  | None => mkRun [] [] Panicked
                  | Some arg =>
                      match ParseUint64 arg with
                      | inl _ => die [] [] (Some (Errorf (str "bad member id")))
                      | inr id => die [CallRemoveMember addr id] [] (cw_RemoveMember w addr id)
                      end
                  end
                else mkRun [] [] (Exit 2)
              else die [] [] (Some (Errorf (str "unknown members subcommand")))
          end
      end
  end.

(** One line of status. *)
Definition status_line (w : cli_world) (addr : bytes) : cli_line :=
  match cw_Status w addr with inl er => LineUnreachable addr er | inr st => LineStatus addr st end.

(** A write: OK, or the error. *)
Definition write_run (call : cli_call) (err : option error) : cli_run :=
  match err with Some er => die [call] [] (Some er) | None => mkRun [call] [LineOK] (Exit 0) end.

(** main behind flag.Parse; an index out of range panics. *)
Definition cli_main (w : cli_world) (cluster : bytes) (args : list bytes) : cli_run :=
  let addrs := Split comma cluster in
  match args with
  | [] => mkRun [] [] (Exit 2)
  | cmd :: rest =>
      if bytes_eqb cmd (str "get") then
        if requireArgs args 2 then
          match args !! 1 with
          | None => mkRun [] [] Panicked
          | Some key =>
              match cw_Get w key with
              | inl er => die [CallGet key] [] (Some er)
              | inr (val, true) => mkRun [CallGet key] [LineValue val] (Exit 0)
              | inr (_, false) => mkRun [CallGet key] [LineNotFound] (Exit 1)
              end
          end
        else mkRun [] [] (Exit 2)
      else if bytes_eqb cmd (str "put") then
        if requireArgs args 3 then
          match args !! 1, args !! 2 with
          | Some key, Some value => write_run (CallPut key value) (cw_Put w key value)
          | _, _ => mkRun [] [] Panicked
          end
        else mkRun [] [] (Exit 2)
      else if bytes_eqb cmd (str "delete") then
        if requireArgs args 2 then
          match args !! 1 with
          | Some key => write_run (CallDelete key) (cw_Delete w key)
          | None => mkRun [] [] Panicked
          end
        else mkRun [] [] (Exit 2)
      else if bytes_eqb cmd (str "status") then mkRun (CallStatus <$> addrs) (status_line w <$> addrs) (Exit 0)
      else if bytes_eqb cmd (str "members") then membersCmd w addrs rest
      else mkRun [] [] (Exit 2)
  end.

(** ** When the client panics *)

Lemma membersCmd_panics w addr addrs args :
  cr_end (membersCmd w (addr :: addrs) args) = Panicked <->
  (args = [str "add"] \/ args = [str "remove"]) /\ cw_dialKV w addr = None.
Proof.
  unfold membersCmd. destruct args as [|sub args]; [split; [done|by intros [[|] _]]|].
  destruct (cw_dialKV w addr) as [er|]; [split; [done|by intros [_ ?]]|].
  destruct (bytes_eqb_spec sub (str "list")) as [->|_].
  { split; [by destruct (cw_ListMembers w addr) as [|[]]|by intros [[|] _]]. }
  destruct (bytes_eqb_spec sub (str "add")) as [->|Ha].
  { destruct args as [|spec args]; [by split; auto|]. simpl. split; [by destruct (parseMemberSpec spec) as [|[]]|by intros [[|] _]]. }
  destruct (bytes_eqb_spec sub (str "remove")) as [->|Hr].
  { destruct args as [|arg args]; [by split; auto|]. simpl. split; [by destruct (ParseUint64 arg)|by intros [[|] _]]. }
  split; [done|]. intros [[[= -> _]|[= -> _]] _]; done.
Qed.

(** The command-line client panics exactly on [members add] and [members remove]
    without their argument: requireArgs is given a list that is one longer than
    the arguments, so its check always passes, and args[1] is out of range. Every
    other command line, complete or not, ends in an exit code. *)
Theorem cli_panics_exactly w cluster args :
  cr_end (cli_main w cluster args) = Panicked <->
  (args = [str "members"; str "add"] \/ args = [str "members"; str "remove"]) /\
  forall addr, head (Split comma cluster) = Some addr -> cw_dialKV w addr = None.
Proof.
  unfold cli_main. destruct args as [|cmd args]; [split; [done|by intros [[|] _]]|].
  destruct (bytes_eqb_spec cmd (str "get")) as [->|_].
  { split; [|by intros [[|] _]]. destruct args as [|k args]; [done|]. simpl. by destruct (cw_Get w k) as [|[? []]]. }
  destruct (bytes_eqb_spec cmd (str "put")) as [->|_].
  { split; [|by intros [[|] _]]. destruct args as [|k [|v args]]; [done|done|]. simpl. by destruct (cw_Put w k v). }
  destruct (bytes_eqb_spec cmd (str "delete")) as [->|_].
  { split; [|by intros [[|] _]]. destruct args as [|k args]; [done|]. simpl. by destruct (cw_Delete w k). }
  destruct (bytes_eqb_spec cmd (str "status")) as [->|_]; [split; [done|by intros [[|] _]]|].
  destruct (bytes_eqb_spec cmd (str "members")) as [->|Hm]; [|split; [done|by intros [[[= -> _]|[= -> _]] _]]].
  pose proof (Split_nonempty comma cluster). destruct (Split comma cluster) as [|addr addrs]; [done|]. rewrite membersCmd_panics. simpl. naive_solver.
Qed.

(** The client prints OK only for a write it made and that was acknowledged: one
    call, a put or a delete, which returned nil; and it then exits with 0. *)
Theorem cli_ok_means_written w cluster args :
  let r := cli_main w cluster args in
  LineOK ∈ cr_out r ->
  cr_end r = Exit 0 /\ ((exists k v, args !! 1 = Some k /\ args !! 2 = Some v /\ cr_calls r = [CallPut k v] /\ cw_Put w k v = None) \/
                        exists k, args !! 1 = Some k /\ cr_calls r = [CallDelete k] /\ cw_Delete w k = None).
Proof.
  assert (LineOK ∈ ([] : list cli_line) -> False) as Hnil by apply not_elem_of_nil.
  unfold cli_main. cbn zeta. destruct args as [|cmd args]; [by intros ?%Hnil|].
  destruct (bytes_eqb cmd (str "get")).
  { destruct args as [|k args]; simpl; [by intros ?%Hnil|]. destruct (cw_Get w k) as [|[? []]]; simpl; [by intros ?%Hnil|..]; by intros ?%list_elem_of_singleton. }
  destruct (bytes_eqb cmd (str "put")).
  { destruct args as [|k [|v args]]; simpl; [by intros ?%Hnil..|]. destruct (cw_Put w k v) eqn:E; simpl; [by intros ?%Hnil|]. intros _. split; [done|]. left. by exists k, v. }
  destruct (bytes_eqb cmd (str "delete")).
  { destruct args as [|k args]; simpl; [by intros ?%Hnil|]. destruct (cw_Delete w k) eqn:E; simpl; [by intros ?%Hnil|]. intros _. split; [done|]. right. by exists k. }
  destruct (bytes_eqb cmd (str "status")).
  { intros (a & Ha & _)%list_elem_of_fmap. unfold status_line in Ha. by destruct (cw_Status w a). }
  destruct (bytes_eqb cmd (str "members")); [|by intros ?%Hnil]. intros H. exfalso. revert H.
  unfold membersCmd. destruct args as [|sub args]; [exact Hnil|]. destruct (Split comma cluster) as [|addr addrs]; [exact Hnil|].
  destruct (cw_dialKV w addr); [exact Hnil|]. destruct (bytes_eqb sub (str "list")).
  { destruct (cw_ListMembers w addr) as [|[[] ms]]; simpl; [exact Hnil| |].
    - intros [?|(m & ? & _)%list_elem_of_fmap]%elem_of_cons; done.
    - intros (m & ? & _)%list_elem_of_fmap. done. }
  destruct (bytes_eqb sub (str "add")); [destruct args as [|x args]; simpl; [exact Hnil|by destruct (parseMemberSpec x) as [|[]]; simpl; apply Hnil]|].
  destruct (bytes_eqb sub (str "remove")); [destruct args as [|x args]; simpl; [exact Hnil|by destruct (ParseUint64 x); simpl; apply Hnil]|exact Hnil].
Qed.

(** A member is read back from its text, whatever the address. *)
Theorem member_spec_roundtrip id addr : (id < two64)%N -> parseMemberSpec (peer_text (id, addr)) = inr (id, addr).
Proof.
  intros H. unfold parseMemberSpec, SplitN2, peer_text. rewrite cut_app by (by apply decimal_not_in). by rewrite ParseUint64_decimal.
Qed.
