(* ===== verification/WebApi.v ===== *)
(** cmd/distkv-webapi/main.go: the HTTP API in front of a client. A handler is a
    function of the request and the client; it returns the response and the client
    behind the calls it made. *)

From S2P Require Import Prelude Bytes GoIO Engine Layers EngineRecovery Messages StateMachine Transport Server GoText Client.
From Stdlib Require Import Sorting.Sorted.
#[local] Open Scope nat_scope.

(** ** Addresses *)

Definition splitAddrs (s : bytes) : list bytes := filter (fun p => p <> []) (TrimSpace <$> Split comma s).

(** "" when there is none. *)
Definition kvAddrFromRaft (raftAddr : bytes) (id : N) : bytes :=
  match SplitHostPort raftAddr with
  | None => []
  | Some (host, port) =>
      if bool_decide (length port = 4) && bool_decide (head port = Some x38) then JoinHostPort host (x37 :: tail port)
      else if (0 <? id)%N then JoinHostPort host (decimal (7000 +64 id)) else []
  end.

(** ** Responses *)

Record nodeStatus := mkNodeStatus { ns_Addr : bytes; ns_Status : sum error StatusResponse }.

(** The JSON bodies, and the text of http.Error. *)
Inductive body :=
  | BodyHealth
  | BodyValue (key : bytes) (found : bool) (value : bytes)
  | BodyOk (key : option bytes)
  | BodyNodes (nodes : list nodeStatus)
  | BodyMembers (members : list MemberInfo) (inJoint : bool)
  | BodyError (msg : bytes)
  | BodyText (msg : bytes).
Record response := mkResponse { rs_code : N; rs_body : body }.

Definition StatusOK : N := 200.
Definition StatusBadRequest : N := 400.
Definition StatusBadGateway : N := 502.
Definition StatusServiceUnavailable : N := 503.

Definition writeJSON (code : N) (v : body) : response := mkResponse code v.
Definition http_Error (msg : bytes) (code : N) : response := mkResponse code (BodyText msg).
Definition writeErr (err : error) : response :=
  let msg := error_text err in
  writeJSON (if Contains msg (str "not leader") then StatusServiceUnavailable else StatusBadGateway) (BodyError msg).

(** ** Handlers *)

Section handlers.
Context {conn : Type} (NewClient : bytes -> sum error conn).
Context (kv : KVClient (conn := conn)) (fuel : nat) (ctx : context).
(** encoding/json, for the two bodies the handlers decode: {value} and {id, raft_addr}. *)
Context (Unmarshal_value : bytes -> option bytes) (Decode_member : bytes -> option (N * bytes)).

Definition health (c : Client conn) : option (response * Client conn) := Some (writeJSON StatusOK BodyHealth, c).

(** A call of the client, and what the handler makes of its value. *)
Definition respond {A} (call : option (sum error A * Client conn)) (ok : A -> body) : option (response * Client conn) :=
  '(r, c) ← call;
  Some (match r with inl er => writeErr er | inr a => writeJSON StatusOK (ok a) end, c).

Definition getKV (c : Client conn) (key : bytes) : option (response * Client conn) :=
  respond (Get NewClient kv fuel ctx c key) (fun r => BodyValue key r.2 r.1).

(** io.LimitReader(r.Body, 1<<20) *)
Definition body_limit : N := 2 ^ 20.

(** [body] is what reading the request's body yields. *)
Definition putKV (c : Client conn) (key : bytes) (contentType : bytes) (body : sum error bytes) : option (response * Client conn) :=
  match body with
  | inl er => Some (http_Error (error_text er) StatusBadRequest, c)
  | inr body =>
      let body := take (N.to_nat body_limit) body in
      let value := if Contains contentType (str "application/json") then Unmarshal_value body else Some body in
      match value with
      | None => Some (http_Error (str "invalid json body") StatusBadRequest, c)
      | Some value => respond (Put NewClient kv fuel ctx c key value) (fun _ => BodyOk (Some key))
      end
  end.

Definition deleteKV (c : Client conn) (key : bytes) : option (response * Client conn) :=
  respond (Delete NewClient kv fuel ctx c key) (fun _ => BodyOk (Some key)).

(** The addresses status asks: the configured ones and those of the members. *)
Definition status_addrs (configured : list bytes) (members : list MemberInfo) : list bytes :=
  let known := filter (fun a => a <> []) ((fun m => kvAddrFromRaft (mi_RaftAddr m) (mi_Id m)) <$> members) in
  merge_sort Engine.bytes_le (elements (list_to_set configured ∪ list_to_set known : gset bytes)).

Fixpoint ask_all (c : Client conn) (addrs : list bytes) : list nodeStatus * Client conn :=
  match addrs with
  | [] => ([], c)
  | addr :: addrs =>
      let '(st, c) := Status NewClient kv c addr in
      let '(nodes, c) := ask_all c addrs in
      (mkNodeStatus addr st :: nodes, c)
  end.

Definition status (c : Client conn) : option (response * Client conn) :=
  let configured := Addrs c in
  '(mem, c) ← ListMembers NewClient kv fuel ctx c;
  let members := match mem with inr (_, members) => members | inl _ => [] end in
  let '(nodes, c) := ask_all c (status_addrs configured members) in
  Some (writeJSON StatusOK (BodyNodes nodes), c).

Definition listMembers (c : Client conn) : option (response * Client conn) :=
  respond (ListMembers NewClient kv fuel ctx c) (fun r => BodyMembers r.2 r.1).

Definition addMember (c : Client conn) (body : bytes) : option (response * Client conn) :=
  match Decode_member body with
  | None => Some (http_Error (str "invalid json") StatusBadRequest, c)
  | Some (id, raftAddr) =>
      if (id =? 0)%N || bytes_eqb raftAddr [] then Some (http_Error (str "id and raft_addr required") StatusBadRequest, c)
      else respond (AddMember NewClient kv fuel ctx c id raftAddr) (fun _ => BodyOk None)
  end.

Definition removeMember (c : Client conn) (pathId : bytes) : option (response * Client conn) :=
  match ParseUint64 pathId with
  | inl _ => Some (http_Error (str "invalid id") StatusBadRequest, c)
  | inr id =>
      if (id =? 0)%N then Some (http_Error (str "invalid id") StatusBadRequest, c)
      else respond (RemoveMember NewClient kv fuel ctx c id) (fun _ => BodyOk None)
  end.

(** ** Responses of the handlers *)

Lemma respond_code {A} (call : option (sum error A * Client conn)) ok r c' :
  respond call ok = Some (r, c') ->
  rs_code r = StatusOK /\ (exists a, call = Some (inr a, c') /\ rs_body r = ok a) \/
  (rs_code r = StatusBadGateway \/ rs_code r = StatusServiceUnavailable) /\ exists er, call = Some (inl er, c') /\ rs_body r = BodyError (error_text er).
Proof.
  unfold respond. destruct call as [[[er|a] c1]|]; simpl; [|intros [= <- <-]|done].
  - intros [= <- <-]. right. split; [|by exists er]. simpl. destruct (Contains _ _); auto.
  - left. split; [done|]. by exists a.
Qed.

(** A request the API refuses with 400 reaches no node and leaves the client as it
    was; a write it answers with 200 was acknowledged by a node. *)
Theorem put_responses c key contentType body r c' :
  putKV c key contentType body = Some (r, c') ->
  (rs_code r = StatusBadRequest -> c' = c) /\
  (rs_code r = StatusOK -> exists value, Put NewClient kv fuel ctx c key value = Some (inr tt, c')).
Proof.
  unfold putKV. destruct body as [er|b]; [intros [= <- <-]; done|]. cbn zeta.
  destruct (if Contains contentType (str "application/json") then _ else _) as [v|]; [|intros [= <- <-]; done].
  intros [[E1 (a & E2 & _)]|[E1 _]]%respond_code; rewrite ?E1.
  - split; [done|]. intros _. exists v. by destruct a.
  - by split; intros E3; destruct E1 as [E1|E1]; rewrite E1 in E3.
Qed.

(** Only the first 2^20 bytes of a body that is not JSON are stored, and the answer
    is the same as for a short one: a longer value is cut without an error. *)
Theorem long_body_is_cut c key b :
  putKV c key [] (inr b) = putKV c key [] (inr (take (N.to_nat body_limit) b)).
Proof. unfold putKV. cbn zeta. by rewrite take_take, Nat.min_id. Qed.

Lemma ask_all_addrs c addrs : ns_Addr <$> (ask_all c addrs).1 = addrs.
Proof.
  revert c. induction addrs as [|a addrs IH]; intros c; [done|]. cbn [ask_all]. destruct (Status NewClient kv c a) as [st c1].
  specialize (IH c1). destruct (ask_all c1 addrs) as [nodes c2]. simpl in IH |- *. f_equal. exact IH.
Qed.

(** The status page has one entry for every node it knows, in the order of their
    addresses: each configured address and, when the members can be listed, the
    address of each member, none of them twice. *)
Theorem status_lists_nodes c r c' :
  status c = Some (r, c') ->
  exists mem nodes c1, ListMembers NewClient kv fuel ctx c = Some (mem, c1) /\ rs_code r = StatusOK /\ rs_body r = BodyNodes nodes /\
    StronglySorted Engine.bytes_le (ns_Addr <$> nodes) /\ NoDup (ns_Addr <$> nodes) /\
    forall a, a ∈ ns_Addr <$> nodes <-> a ∈ Addrs c \/
      exists j ms m, mem = inr (j, ms) /\ m ∈ ms /\ a = kvAddrFromRaft (mi_RaftAddr m) (mi_Id m) /\ a <> [].
Proof.
  unfold status. destruct (ListMembers NewClient kv fuel ctx c) as [[mem c1]|]; [|done]. cbn [mbind option_bind]. cbn zeta.
  set (ms := match mem with inr (_, ms) => ms | inl _ => [] end). pose proof (ask_all_addrs c1 (status_addrs (Addrs c) ms)) as Ha.
  destruct (ask_all c1 (status_addrs (Addrs c) ms)) as [nodes c2]. simpl in Ha. intros [= <- <-]. exists mem, nodes, c1. rewrite Ha.
  unfold status_addrs. split_and!; try done.
  - apply StronglySorted_merge_sort; apply _.
  - rewrite merge_sort_Permutation. apply NoDup_elements.
  - intros a. rewrite merge_sort_Permutation, elem_of_elements, elem_of_union, !elem_of_list_to_set, list_elem_of_filter, list_elem_of_fmap.
    split; (intros [?|H]; [by left|right]).
    + destruct H as [Hne (m & -> & Hm)]. subst ms. destruct mem as [|[j l]]; [by apply not_elem_of_nil in Hm|]. by exists j, l, m.
    + destruct H as (j & l & m & -> & Hm & -> & Hne). split; [done|]. by exists m.
Qed.

End handlers.

(** ** Errors *)

Lemma Contains_app a sub b : Contains (a ++ sub ++ b) sub = true.
Proof.
  induction a as [|x a IH].
  - assert (has_prefix sub (sub ++ b) = true) as H by (unfold has_prefix; rewrite take_app_length; by destruct (bytes_eqb_spec sub sub)).
    destruct sub as [|s sub]; [by destruct b|]. simpl app in *. cbn [Contains]. by rewrite H.
  - cbn [app Contains]. by rewrite IH, orb_true_r.
Qed.

(** While no node leads, the API answers 503: when the client gives up on its
    context and the last node it asked said that it is not the leader, the error
    the client returns still says so. *)
Theorem not_leader_is_unavailable {E conn} (s : Server E conn) ctxErr :
  rs_code (writeErr (expired ctxErr (Some (Errorf (st_msg (notLeaderErr s)))))) = StatusServiceUnavailable.
Proof.
  unfold writeErr, expired, notLeaderErr. destruct (Node.Status _) as [[t l] ld]. cbn [error_text st_msg rs_code writeJSON].
  assert (forall a b, Contains (a ++ str " (last: " ++ (str "not leader; leader=" ++ b) ++ str ")") (str "not leader") = true) as H.
  { intros a b. change (str "not leader; leader=") with (str "not leader" ++ str "; leader="). rewrite <-!(assoc_L (++)), (assoc_L (++) a). apply Contains_app. }
  rewrite (assoc_L (++) (str "distkv: ")). by rewrite H.
Qed.

(** ** Addresses *)

(** kvAddrFromRaft turns port 8xyz into 7xyz on the same host, for names, IPv4 and
    IPv6 addresses alike. *)
Theorem kv_addr_of_raft host a b c id :
  bra ∉ host -> ket ∉ host -> Forall (fun d => is_Some (digit_value d)) [a; b; c] ->
  kvAddrFromRaft (JoinHostPort host [x38; a; b; c]) id = JoinHostPort host [x37; a; b; c].
Proof.
  intros H1 H2 Hd. assert (forall x, digit_value x = None -> x ∉ [x38; a; b; c]) as Hn.
  { intros x Hx. rewrite elem_of_cons. intros [->|Hin]; [done|]. eapply Forall_forall in Hd; [|exact Hin]. rewrite Hx in Hd. by destruct Hd. }
  unfold kvAddrFromRaft. by rewrite SplitHostPort_Join by (done || by apply Hn).
Qed.

(** No address of the list is empty. *)
Lemma splitAddrs_nonempty s : Forall (fun a => a <> []) (splitAddrs s).
Proof. apply Forall_forall. by intros a [? _]%list_elem_of_filter. Qed.
