(* ===== verification/Bench.v ===== *)
(** cmd/bench/main.go: the load generator. Workers write and read random keys until
    the time is over, each with a client of its own; what they measured is merged
    and reported. The rate, a quotient of two float64 in the text, is left out. *)

From Stdlib Require Import Floats.SpecFloat.
From S2P Require Import Prelude Bytes GoIO Wal Memtable SSTable Engine Layers EngineCorrect EngineRecovery StateMachine EngineInstance Messages Transport Server Client GoText.
#[local] Open Scope Z_scope.

(** ** Keys *)

(** The verb %08d. *)
Definition format_08d (z : Z) : bytes :=
  let digits := decimal (Z.abs_N z) in
  if z <? 0 then x2d :: replicate (7 - length digits) x30 ++ digits else replicate (8 - length digits) x30 ++ digits.

(** A remainder by zero panics. *)
Definition key (i space : Z) : option bytes :=
  if space =? 0 then None else Some (str "bench-" ++ format_08d (Z.rem i space)).

(** rand.Intn panics unless [n] is positive; otherwise it answers any number below [n]. *)
Definition Intn (n rnd : Z) : option Z := if n <=? 0 then None else Some (rnd mod n).

(** ** Percentiles *)

(** The float64 next to an integer: 53 bits, a tie goes to the even one. *)
Definition round53 (m : N) : N :=
  let d := (N.size m - 53)%N in
  let q := N.shiftr m d in
  let r := (m mod 2 ^ d)%N in
  let up := (2 ^ d <? 2 * r)%N || (2 * r =? 2 ^ d)%N && N.odd q in
  ((q + (if up then 1 else 0)) * 2 ^ d)%N.

(** The float64 constants 0.50, 0.90 and 0.99, times 2^53. *)
Definition p50 : N := 4503599627370496.
Definition p90 : N := 8106479329266893.
Definition p99 : N := 8917127262193582.

(** int(p * float64(n)) for a number [n] of at most 53 bits. *)
Definition scaled (p n : N) : nat := N.to_nat (round53 (p * n) / 2 ^ 53).

(** A panic when the index is out of range. *)
Definition pct (p : N) (lats : list Z) : option Z := lats !! scaled p (len lats - 1).

(** Duration.Round *)
Definition maxDuration : Z := 2 ^ 63 - 1.
Definition minDuration : Z := - 2 ^ 63.
Definition Round (d m : Z) : Z :=
  if m <=? 0 then d
  else
    let r := Z.abs (Z.rem d m) in
    if d <? 0 then
      if 2 * r <? m then d + r else Z.max minDuration (d - m + r)
    else
      if 2 * r <? m then d - r else Z.min maxDuration (d + m - r).

Definition tenMicros : Z := 10000.

(** ** The report *)

Inductive line :=
  | NoOps (name : bytes) (errs : nat)
  | Ops (name : bytes) (ops : nat) (l50 l90 l99 lmax : Z) (errs : nat).

(** [None] is a panic. *)
Definition report (name : bytes) (lats : list Z) (errs : nat) : option line :=
  match lats with
  | [] => Some (NoOps name errs)
  | _ =>
      let lats := merge_sort Z.le lats in
      v50 ← pct p50 lats;
      v90 ← pct p90 lats;
      v99 ← pct p99 lats;
      vmax ← lats !! (length lats - 1)%nat;
      Some (Ops name (length lats) (Round v50 tenMicros) (Round v90 tenMicros) (Round v99 tenMicros) (Round vmax tenMicros) errs)
  end.

(** ** Workers *)

(** How a run ends: with a value, in a panic, or not at all within the rounds that the
    clients' loops were given. *)
Inductive ends (A : Type) := Ended (a : A) | Panics | Waits.
Arguments Ended {A} a.
Arguments Panics {A}.
Arguments Waits {A}.

#[global] Instance ends_bind : MBind ends := fun _ _ f m => match m with Ended a => f a | Panics => Panics | Waits => Waits end.

Definition or_panic {A} (m : option A) : ends A := match m with Some a => Ended a | None => Panics end.
Definition or_wait {A} (m : option A) : ends A := match m with Some a => Ended a | None => Waits end.

(** context.Background() is never done. *)
Definition background : context := mkContext (fun _ => None) (fun _ => false).

Section bench.
Context {conn : Type} (NewClient : bytes -> sum error conn).
Abbreviation Client := (Client conn).

(** What a turn of a worker meets: the random number, the answers of the nodes and the
    rounds of the client's loop, and how long the call took. *)
Record turn := mkTurn { tn_rnd : Z; tn_kv : KVClient (conn := conn); tn_fuel : nat; tn_since : Z }.

(** The loop of a worker over the turns that start before the time is over. *)
Fixpoint worker (op : turn -> Client -> ends (sum error unit * Client)) (c : Client) (turns : list turn) (lats : list Z) (errs : nat) : ends (list Z * nat) :=
  match turns with
  | [] => Ended (lats, errs)
  | t :: turns =>
      '(r, c) ← op t c;
      match r with
      | inl _ => worker op c turns lats (S errs)
      | inr _ => worker op c turns (lats ++ [tn_since t]) errs
      end
  end.

Definition write_op (keys : Z) (value : bytes) (t : turn) (c : Client) : ends (sum error unit * Client) :=
  i ← or_panic (Intn keys (tn_rnd t));
  k ← or_panic (key i keys);
  or_wait (Put NewClient (tn_kv t) (tn_fuel t) background c k value).

(** The values that were read are dropped. *)
Definition read_op (keys : Z) (t : turn) (c : Client) : ends (sum error unit * Client) :=
  i ← or_panic (Intn (Z.min keys 1000) (tn_rnd t));
  k ← or_panic (key i keys);
  '(r, c) ← or_wait (Get NewClient (tn_kv t) (tn_fuel t) background c k);
  Ended (match r with inl er => inl er | inr _ => inr () end, c).

(** The keys preload writes, [count] of them from [i] on. *)
Fixpoint preload (keys : Z) (value : bytes) (env : Z -> turn) (count : nat) (i : Z) (c : Client) : ends (option error * list bytes) :=
  match count with
  | O => Ended (None, [])
  | S count =>
      k ← or_panic (key i keys);
      '(r, c) ← or_wait (Put NewClient (tn_kv (env i)) (tn_fuel (env i)) background c k value);
      match r with
      | inl er => Ended (Some er, [])
      | inr _ => '(err, ks) ← preload keys value env count (i + 1) c; Ended (err, k :: ks)
      end
  end.

(** A worker: what names its client, and its turns. *)
Definition worker_run : Type := N * N * list turn.

(** The workers, in the order in which they take mu at their end. *)
Fixpoint merge_workers (run : worker_run -> ends (list Z * nat)) (ws : list worker_run) (lats : list Z) (errs : nat) : ends (list Z * nat) :=
  match ws with
  | [] => Ended (lats, errs)
  | w :: ws => '(l, e) ← run w; merge_workers run ws (lats ++ l) (errs + e)
  end.

(** The flags; the numbers of workers and the duration show in the runs of the workers. *)
Record bench_flags := mkBench { bf_cluster : bytes; bf_keys : Z; bf_valsize : Z }.

(** What happens around the program: the random value, what names the client of the
    preload, the answers for each preloaded key, and one run for each of -writers and
    -readers. *)
Record bench_run := mkBenchRun {
  br_value : bytes;
  br_client : N * N;
  br_preload : Z -> turn;
  br_writers : list worker_run;
  br_readers : list worker_run
}.

Definition min_keys (keys : Z) : nat := Z.to_nat (Z.min keys 1000).

Definition writer (f : bench_flags) (value : bytes) (w : worker_run) : ends (list Z * nat) :=
  worker (write_op (bf_keys f) value) (New (Split comma (bf_cluster f)) w.1.1 w.1.2) w.2 [] 0.
Definition reader (f : bench_flags) (w : worker_run) : ends (list Z * nat) :=
  worker (read_op (bf_keys f)) (New (Split comma (bf_cluster f)) w.1.1 w.1.2) w.2 [] 0.

(** main: the error of a failed preload, with exit code 1, or the two lines of the
    report. A negative size panics in make. *)
Definition bench_main (f : bench_flags) (b : bench_run) : ends (sum error (line * line)) :=
  if bf_valsize f <? 0 then Panics
  else
    let pre := New (Split comma (bf_cluster f)) (br_client b).1 (br_client b).2 in
    '(err, _) ← preload (bf_keys f) (br_value b) (br_preload b) (min_keys (bf_keys f)) 0 pre;
    match err with
    | Some er => Ended (inl er)
    | None =>
        '(writeLat, writeErr) ← merge_workers (writer f (br_value b)) (br_writers b) [] 0;
        '(readLat, readErr) ← merge_workers (reader f) (br_readers b) [] 0;
        l1 ← or_panic (report (str "writes") writeLat writeErr);
        l2 ← or_panic (report (str "reads ") readLat readErr);
        Ended (inr (l1, l2))
    end.

(** ** Workers and errors *)

(** A client whose context is never done returns no error. *)
Lemma background_succeeds {A} fuel (fn : nat -> conn -> sum error A) c now lastErr backoff r c' :
  try_loop NewClient fuel background fn c now lastErr backoff = Some (r, c') -> exists a, r = inr a.
Proof.
  revert c now lastErr backoff. induction fuel as [|fuel IH]; intros c now lastErr backoff; [done|]. cbn [try_loop].
  destruct (try_nodes NewClient background fn c (order c) now lastErr) as [r1 c1 n1|c1 n1 l1] eqn:E; [|by apply IH].
  intros [= -> ->]. clear IH. revert E. generalize (order c). intros addrs. revert c now lastErr. induction addrs as [|a addrs IH]; intros c now lastErr; cbn [try_nodes]; [done|].
  change (cx_Err background now) with (@None error). destruct (conn_to NewClient c a) as [[er|cl] c2]; [by apply IH|].
  destruct (fn now cl) as [er|x]; [by apply IH|]. intros [= <- _ _]. by exists x.
Qed.

(** A turn measures one call. *)
Definition counts (op : turn -> Client -> ends (sum error unit * Client)) : Prop := forall t c r c', op t c = Ended (r, c') -> exists u, r = inr u.

Lemma put_succeeds kv fuel c k value r c' : Put NewClient kv fuel background c k value = Some (r, c') -> exists u, r = inr u.
Proof. apply background_succeeds. Qed.

Lemma write_counts keys value : counts (write_op keys value).
Proof.
  intros t c r c'. unfold write_op, or_wait. destruct (Intn _ _) as [i|]; [|done]. cbn [or_panic mbind ends_bind]. destruct (key _ _) as [k|]; [|done].
  cbn [or_panic mbind ends_bind]. destruct (Put NewClient (tn_kv t) (tn_fuel t) background c k value) as [[r1 c1]|] eqn:E; [|done]. intros [= <- <-]. by eapply put_succeeds.
Qed.

Lemma read_counts keys : counts (read_op keys).
Proof.
  intros t c r c'. unfold read_op, or_wait. destruct (Intn _ _) as [i|]; [|done]. cbn [or_panic mbind ends_bind]. destruct (key _ _) as [k|]; [|done].
  cbn [or_panic mbind ends_bind]. destruct (Get NewClient (tn_kv t) (tn_fuel t) background c k) as [[r1 c1]|] eqn:E; [|done].
  cbn [mbind ends_bind]. intros [= <- <-]. apply background_succeeds in E as [a ->]. by eexists.
Qed.

Lemma worker_lats op c turns lats errs l e : counts op -> worker op c turns lats errs = Ended (l, e) -> l = lats ++ (tn_since <$> turns) /\ e = errs.
Proof.
  intros Hop. revert c lats. induction turns as [|t turns IH]; intros c lats; cbn [worker]; [intros [= <- <-]; by rewrite app_nil_r|].
  destruct (op t c) as [[r c1]| |] eqn:E; [|done..]. destruct (Hop _ _ _ _ E) as [u ->]. cbn. intros [-> ->]%IH. split; [|done]. by rewrite <-app_assoc.
Qed.

Lemma merge_lats run ws lats errs l e :
  (forall w l e, run w = Ended (l, e) -> l = tn_since <$> w.2 /\ e = 0%nat) -> merge_workers run ws lats errs = Ended (l, e) ->
  l = lats ++ (tn_since <$> mjoin (snd <$> ws)) /\ e = errs.
Proof.
  intros Hrun. revert lats errs. induction ws as [|w ws IH]; intros lats errs; cbn [merge_workers]; [intros [= <- <-]; by rewrite app_nil_r|].
  destruct (run w) as [[l1 e1]| |] eqn:E; [|done..]. destruct (Hrun _ _ _ E) as [-> ->]. cbn. intros [-> ->]%IH.
  split; [|lia]. cbn. by rewrite fmap_app, app_assoc.
Qed.

Lemma writer_lats f value w l e : writer f value w = Ended (l, e) -> l = tn_since <$> w.2 /\ e = 0%nat.
Proof. apply worker_lats, write_counts. Qed.

Lemma reader_lats f w l e : reader f w = Ended (l, e) -> l = tn_since <$> w.2 /\ e = 0%nat.
Proof. apply worker_lats, read_counts. Qed.

Lemma preload_succeeds keys value env count i c err ks : preload keys value env count i c = Ended (err, ks) -> err = None.
Proof.
  revert i c err ks. induction count as [|count IH]; intros i c err ks; cbn [preload]; [by intros [= <- _]|].
  destruct (key i keys) as [k|]; [|done]. cbn [or_panic mbind ends_bind]. unfold or_wait.
  destruct (Put NewClient (tn_kv (env i)) (tn_fuel (env i)) background c k value) as [[r c1]|] eqn:E; [|done]. cbn [mbind ends_bind].
  destruct (put_succeeds _ _ _ _ _ _ _ E) as [u ->]. destruct (preload _ _ _ _ _ _) as [[err1 ks1]| |] eqn:E1; [|done..].
  cbn [mbind ends_bind]. intros [= <- _]. by eapply IH.
Qed.

End bench.

(** ** Rounding *)

Section rounding.
#[local] Open Scope N_scope.

Abbreviation excess m := (N.size m - 53).

Lemma round53_parts m :
  exists q r u, m = q * 2 ^ excess m + r /\ r < 2 ^ excess m /\ round53 m = (q + u) * 2 ^ excess m /\ u <= 1 /\
    (u = 1 -> 2 ^ excess m <= 2 * r) /\ (u = 0 -> 2 * r <= 2 ^ excess m).
Proof.
  set (d := excess m). exists (N.shiftr m d), (m mod 2 ^ d), (if (2 ^ d <? 2 * (m mod 2 ^ d)) || (2 * (m mod 2 ^ d) =? 2 ^ d) && N.odd (N.shiftr m d) then 1 else 0).
  assert (2 ^ d <> 0) as Hd by (apply N.pow_nonzero; lia). split; [rewrite N.shiftr_div_pow2, N.mul_comm; by apply N.div_mod|].
  split; [by apply N.mod_lt|]. split; [done|]. destruct (N.ltb_spec (2 ^ d) (2 * (m mod 2 ^ d))); [cbn; lia|].
  destruct (N.eqb_spec (2 * (m mod 2 ^ d)) (2 ^ d)); cbn; [|lia]. destruct (N.odd _); lia.
Qed.

(** A multiple of the rounding unit is not passed. *)
Lemma round53_le m b : m <= b -> (2 ^ excess m | b) -> round53 m <= b.
Proof.
  intros Hle [k ->]. destruct (round53_parts m) as (q & r & u & Em & Hr & -> & Hu & Hup & _). set (h := 2 ^ excess m) in *.
  destruct (decide (u = 0)) as [->|]; [nia|]. assert (u = 1) as -> by lia. specialize (Hup eq_refl). apply N.mul_le_mono_r. assert (0 < r) by lia. nia.
Qed.

(** It is off by half a unit at most. *)
Lemma round53_near m : 2 * m <= 2 * round53 m + 2 ^ excess m.
Proof. destruct (round53_parts m) as (q & r & u & Em & Hr & -> & Hu & _ & Hdn). set (h := 2 ^ excess m) in *. destruct (decide (u = 0)) as [->|]; [specialize (Hdn eq_refl); nia|]. assert (u = 1) as -> by lia. nia. Qed.

Lemma size_mono m m' : m <= m' -> N.size m <= N.size m'.
Proof.
  intros Hle. destruct (decide (m = 0)) as [->|]; [simpl; lia|]. rewrite !N.size_log2 by lia. apply N.log2_le_mono in Hle. lia.
Qed.

Lemma round53_mono m m' : m <= m' -> round53 m <= round53 m'.
Proof.
  intros Hle. destruct (decide (m = m')) as [->|Hne']; [done|]. pose proof (size_mono _ _ Hle) as Hs. destruct (decide (excess m = excess m')) as [Ed|Hne].
  - destruct (round53_parts m) as (q & r & u & Em & Hr & -> & Hu & Hup & _), (round53_parts m') as (q' & r' & u' & Em' & Hr' & -> & Hu' & _ & Hdn').
    rewrite Ed in *. set (h := 2 ^ excess m') in *. apply N.mul_le_mono_r. assert (q <= q') by nia. destruct (decide (q = q')) as [->|]; [|lia].
    destruct (decide (u = 0)) as [->|]; [lia|]. assert (u = 1) as -> by lia. destruct (decide (u' = 0)) as [->|]; [|lia].
    specialize (Hup eq_refl). specialize (Hdn' eq_refl). assert (r = r') by nia. congruence.
  - assert (N.size m' = 53 + excess m') as Hsm by lia. assert (m' <> 0) as Hnz by (intros ->; simpl in *; lia).
    assert (2 ^ (52 + excess m') <= m') as Hlow.
    { pose proof (N.size_le m') as H. rewrite Hsm, N.succ_double_spec in H. replace (53 + excess m') with (N.succ (52 + excess m')) in H by lia. rewrite N.pow_succ_r' in H. lia. }
    trans (2 ^ (52 + excess m')).
    + apply round53_le; [|exists (2 ^ (52 + excess m' - excess m)); rewrite <-N.pow_add_r; f_equal; lia].
      apply N.lt_le_incl. eapply N.lt_le_trans; [apply N.size_gt|]. apply N.pow_le_mono_r; lia.
    + destruct (round53_parts m') as (q & r & u & Em & Hr & -> & _). rewrite N.pow_add_r in *. set (h := 2 ^ excess m') in *.
      generalize dependent (2 ^ 52). intros k Hlow. assert (k <= q) by nia. nia.
Qed.

Lemma excess_small p n : p < 2 ^ 53 -> n <= 2 ^ 53 -> excess (p * n) <= 53.
Proof.
  intros Hp Hn. destruct (decide (p * n = 0)) as [->|Hne]; [simpl; lia|]. rewrite N.size_log2 by done.
  assert (p * n < 2 ^ 106) as Hm by (replace (2 ^ 106) with (2 ^ 53 * 2 ^ 53) by done; nia).
  apply N.log2_lt_pow2 in Hm; lia.
Qed.

(** The index of a percentile is in range. *)
Lemma scaled_le p n : p < 2 ^ 53 -> n <= 2 ^ 53 -> (scaled p n <= N.to_nat n)%nat.
Proof.
  intros Hp Hn. unfold scaled. enough (round53 (p * n) / 2 ^ 53 <= n) by lia. apply N.Div0.div_le_upper_bound.
  apply round53_le; [apply N.mul_le_mono_r; lia|]. apply N.divide_mul_l. exists (2 ^ (53 - excess (p * n))).
  rewrite <-N.pow_add_r. f_equal. pose proof (excess_small p n Hp Hn). lia.
Qed.

Lemma scaled_mono p p' n : p <= p' -> (scaled p n <= scaled p' n)%nat.
Proof.
  intros Hle. unfold scaled. pose proof (round53_mono (p * n) (p' * n) ltac:(by apply N.mul_le_mono_r)).
  apply (N.Div0.div_le_mono _ _ (2 ^ 53)) in H. lia.
Qed.

(** It is the one asked for, but for the rounding. *)
Lemma scaled_near p n : p < 2 ^ 53 -> n <= 2 ^ 53 -> 2 * (p * n) <= 2 ^ 53 * (2 * N.of_nat (scaled p n) + 3).
Proof.
  intros Hp Hn. unfold scaled. rewrite N2Nat.id. pose proof (round53_near (p * n)) as H. pose proof (excess_small p n Hp Hn) as He.
  assert (2 ^ excess (p * n) <= 2 ^ 53) as Hx by (apply N.pow_le_mono_r; lia).
  pose proof (N.div_mod (round53 (p * n)) (2 ^ 53) ltac:(done)) as Hdm. pose proof (N.mod_lt (round53 (p * n)) (2 ^ 53) ltac:(done)) as Hml.
  set (a := round53 (p * n)) in *. set (x := a / 2 ^ 53) in *. set (y := a mod 2 ^ 53) in *. lia.
Qed.

End rounding.

(** ** The report *)

(** The latencies as the report has them. *)
Abbreviation sorted lats := (merge_sort Z.le lats).

Lemma sorted_perm lats : sorted lats ≡ₚ lats.
Proof. apply merge_sort_Permutation. Qed.

Lemma sorted_lookup_le lats i j x y : (i <= j)%nat -> sorted lats !! i = Some x -> sorted lats !! j = Some y -> x <= y.
Proof.
  pose proof (StronglySorted_merge_sort Z.le lats) as Hs. revert i j. induction Hs as [|a l Hs IH Ha]; intros i j Hij Hx Hy; [done|].
  destruct i as [|i], j as [|j]; simpl in *; [simplify_eq; lia| |lia|eapply IH; [|done..]; lia]. injection Hx as <-.
  eapply Forall_lookup_1 in Ha; [|exact Hy]. done.
Qed.

(** At least as many latencies are no greater than the one at an index. *)
Lemma sorted_rank lats i v : sorted lats !! i = Some v -> (i < length (filter (fun d : Z => (d <= v)%Z) lats))%nat.
Proof.
  intros Hi. rewrite <-(sorted_perm lats) at 1. rewrite <-(take_drop (S i) (sorted lats)), filter_app, length_app.
  rewrite filter_all; [|apply Forall_forall; intros x (j & Hj)%list_elem_of_lookup]; [rewrite length_take; apply lookup_lt_Some in Hi; lia|].
  apply lookup_take_Some in Hj as [Hj Hlt]. eapply sorted_lookup_le; [|exact Hj|exact Hi]. lia.
Qed.

Lemma pct_lookup p lats : lats <> [] -> (p < 2 ^ 53)%N -> (len lats <= 2 ^ 53)%N -> exists v, pct p (sorted lats) = Some v.
Proof.
  intros Hne Hp Hl. unfold pct. apply lookup_lt_is_Some_2. assert (len (sorted lats) = len lats) as E by (unfold len; by rewrite sorted_perm).
  pose proof (scaled_le p (len (sorted lats) - 1) Hp ltac:(lia)) as Hs. assert (0 < length (sorted lats))%nat by (rewrite sorted_perm; destruct lats; [done|simpl; lia]).
  unfold len in *. lia.
Qed.

(** C31. The percentiles of a report: no index is out of range; p50, p90, p99 and max are
    latencies that were measured, in this order, the last of them the greatest (each
    rounded to 10 microseconds); and of n latencies at least p times n-1, less a half
    for the truncation in float64, are no greater than the percentile of p. *)
Theorem report_percentiles name lats errs :
  lats <> [] -> (len lats <= 2 ^ 53)%N ->
  exists v50 v90 v99 vmax, report name lats errs =
      Some (Ops name (length lats) (Round v50 tenMicros) (Round v90 tenMicros) (Round v99 tenMicros) (Round vmax tenMicros) errs) /\
    v50 ∈ lats /\ v90 ∈ lats /\ v99 ∈ lats /\ vmax ∈ lats /\ v50 <= v90 <= v99 /\ v99 <= vmax /\ (forall d, d ∈ lats -> d <= vmax) /\
    forall p v, (p, v) ∈ [(p50, v50); (p90, v90); (p99, v99)] ->
      (2 * (p * (len lats - 1)) <= 2 ^ 53 * (2 * len (filter (fun d : Z => (d <= v)%Z) lats) + 1))%N.
Proof.
  intros Hne Hl. assert (len (sorted lats) = len lats) as El by (unfold len; by rewrite sorted_perm).
  destruct (pct_lookup p50 lats Hne ltac:(done) Hl) as [v50 H50], (pct_lookup p90 lats Hne ltac:(done) Hl) as [v90 H90],
    (pct_lookup p99 lats Hne ltac:(done) Hl) as [v99 H99].
  assert (0 < length (sorted lats))%nat as Hpos by (rewrite sorted_perm; destruct lats; [done|simpl; lia]).
  destruct (lookup_lt_is_Some_2 (sorted lats) (length (sorted lats) - 1)) as [vmax Hmax]; [lia|]. exists v50, v90, v99, vmax.
  assert (forall i v, sorted lats !! i = Some v -> v ∈ lats) as Hin.
  { intros i v Hv. rewrite <-(sorted_perm lats). by eapply list_elem_of_lookup_2. }
  assert (forall i v, sorted lats !! i = Some v -> v <= vmax) as Hle.
  { intros i v Hv. pose proof (lookup_lt_Some _ _ _ Hv). eapply sorted_lookup_le; [|exact Hv|exact Hmax]. lia. }
  split_and!; try (by eapply Hin).
  - unfold report. destruct lats as [|d l]; [done|]. rewrite H50, H90, H99, Hmax. cbn [mbind option_bind]. by rewrite sorted_perm.
  - eapply sorted_lookup_le; [|exact H50|exact H90]; by apply scaled_mono.
  - eapply sorted_lookup_le; [|exact H90|exact H99]; by apply scaled_mono.
  - by eapply Hle.
  - intros d. rewrite <-(sorted_perm lats) at 1. intros [i Hi]%list_elem_of_lookup. by eapply Hle.
  - assert (forall p v, (p < 2 ^ 53)%N -> pct p (sorted lats) = Some v ->
      (2 * (p * (len lats - 1)) <= 2 ^ 53 * (2 * len (filter (fun d : Z => (d <= v)%Z) lats) + 1))%N) as Hsh.
    { intros p v Hp Hv. pose proof (sorted_rank _ _ _ Hv) as Hr. pose proof (scaled_near p (len lats - 1) Hp ltac:(lia)) as Hn. rewrite El in Hr. unfold len at 2. nia. }
    intros p v [[= -> ->]|[[= -> ->]|[[= -> ->]|[]%not_elem_of_nil]%elem_of_cons]%elem_of_cons]%elem_of_cons; by apply Hsh.
Qed.

Lemma report_percentiles_witness :
  report (str "reads ") [30000; 10000; 20000] 1 = Some (Ops (str "reads ") 3 20000 20000 20000 30000 1) /\
  exists v50 v90 v99 vmax, v50 ∈ [30000; 10000; 20000] /\ v50 <= v90 <= v99 /\ v99 <= vmax /\ Round v50 tenMicros = 20000 /\ Round vmax tenMicros = 30000.
Proof.
  assert (report (str "reads ") [30000; 10000; 20000] 1 = Some (Ops (str "reads ") 3 20000 20000 20000 30000 1)) as Hr by (vm_compute; reflexivity).
  split; [exact Hr|]. destruct (report_percentiles (str "reads ") [30000; 10000; 20000] 1) as (v50 & v90 & v99 & vmax & He & H1 & _ & _ & _ & H2 & H3 & _).
  - discriminate.
  - vm_compute. discriminate.
  - rewrite Hr in He. exists v50, v90, v99, vmax. split; [exact H1|]. split; [exact H2|]. split; [exact H3|]. split; congruence.
Defined.

(** The order in which the latencies were collected does not matter. *)
Lemma report_order name lats lats' errs : lats ≡ₚ lats' -> report name lats errs = report name lats' errs.
Proof.
  intros Hp. assert (sorted lats = sorted lats') as E.
  { apply (StronglySorted_unique Z.le); [apply (StronglySorted_merge_sort Z.le)..|]. by rewrite !sorted_perm. }
  unfold report. rewrite E. destruct lats as [|d l], lats' as [|d' l']; [done|by apply Permutation_nil_cons in Hp|by symmetry in Hp; apply Permutation_nil_cons in Hp|done].
Qed.

(** ** The run *)

Section runs.
Context {conn : Type} (NewClient : bytes -> sum error conn).
Abbreviation bench_main := (bench_main NewClient).
Abbreviation bench_run := (bench_run (conn := conn)).

(** What the workers of a run measured. *)
Definition measured (ws : list (worker_run (conn := conn))) : list Z := tn_since <$> mjoin (snd <$> ws).

Lemma measured_perm xs ys : xs ≡ₚ ys -> measured xs ≡ₚ measured ys.
Proof.
  intros H. unfold measured. apply fmap_Permutation. induction H; cbn; [done|by apply Permutation_app_head|apply Permutation_app_swap_app|by etrans].
Qed.

Lemma merge_ended (run : worker_run (conn := conn) -> ends (list Z * nat)) ws lats errs :
  (exists r, merge_workers run ws lats errs = Ended r) <-> Forall (fun w => exists r, run w = Ended r) ws.
Proof.
  revert lats errs. induction ws as [|w ws IH]; intros lats errs; cbn [merge_workers]; [split; [done|by eexists]|]. rewrite Forall_cons.
  destruct (run w) as [[l e]| |]; cbn [mbind ends_bind]; [rewrite IH; split; [intros H; split; [by eexists|done]|by intros [_ ?]]|split; [by intros [? ?]|by intros [[? ?] _]]..].
Qed.

(** The clients' context is never done, so that the load generator reports no error,
    whatever the nodes answer: a run that ends has measured every call, and counts
    none as failed. *)
Theorem bench_reports f (b : bench_run) r :
  bench_main f b = Ended r ->
  exists l1 l2, r = inr (l1, l2) /\ report (str "writes") (measured (br_writers b)) 0 = Some l1 /\ report (str "reads ") (measured (br_readers b)) 0 = Some l2.
Proof.
  unfold bench_main. destruct (_ <? _); [done|]. destruct (preload _ _ _ _ _ _ _) as [[err ks]| |] eqn:E; [|done..]. cbn [mbind ends_bind].
  apply preload_succeeds in E as ->. destruct (merge_workers (writer _ _ _) _ _ _) as [[wl we]| |] eqn:Ew; [|done..]. cbn [mbind ends_bind].
  destruct (merge_workers (reader _ _) _ _ _) as [[rl re]| |] eqn:Er; [|done..]. cbn [mbind ends_bind].
  destruct (merge_lats _ _ _ _ _ _ (writer_lats NewClient f (br_value b)) Ew) as [-> ->], (merge_lats _ _ _ _ _ _ (reader_lats NewClient f) Er) as [-> ->].
  destruct (report (str "writes") _ _) as [l1|] eqn:E1; [|done]. cbn [or_panic mbind ends_bind].
  destruct (report (str "reads ") _ _) as [l2|] eqn:E2; [|done]. cbn [or_panic mbind ends_bind]. intros [= <-]. by exists l1, l2.
Qed.

(** The report does not depend on the order in which the workers end. *)
Theorem bench_worker_order f (b : bench_run) ws rs r :
  br_writers b ≡ₚ ws -> br_readers b ≡ₚ rs -> bench_main f b = Ended r ->
  bench_main f (mkBenchRun (br_value b) (br_client b) (br_preload b) ws rs) = Ended r.
Proof.
  intros Hw Hr. unfold bench_main. destruct (_ <? _); [done|]. cbn [br_value br_client br_preload br_writers br_readers].
  destruct (preload _ _ _ _ _ _ _) as [[[er|] ks]| |]; [done| |done..]. cbn [mbind ends_bind].
  destruct (merge_workers (writer _ _ _) (br_writers b) _ _) as [[wl we]| |] eqn:Ew; [|done..]. cbn [mbind ends_bind].
  destruct (merge_workers (reader _ _) (br_readers b) _ _) as [[rl re]| |] eqn:Er; [|done..]. cbn [mbind ends_bind].
  pose proof (proj1 (merge_ended _ _ _ _) (ex_intro _ _ Ew)) as Fw. pose proof (proj1 (merge_ended _ _ _ _) (ex_intro _ _ Er)) as Fr. rewrite Hw in Fw. rewrite Hr in Fr.
  destruct (proj2 (merge_ended _ _ [] 0%nat) Fw) as [[wl' we'] Ew'], (proj2 (merge_ended _ _ [] 0%nat) Fr) as [[rl' re'] Er']. rewrite Ew', Er'. cbn [mbind ends_bind].
  destruct (merge_lats _ _ _ _ _ _ (writer_lats NewClient f (br_value b)) Ew) as [-> ->], (merge_lats _ _ _ _ _ _ (reader_lats NewClient f) Er) as [-> ->].
  destruct (merge_lats _ _ _ _ _ _ (writer_lats NewClient f (br_value b)) Ew') as [-> ->], (merge_lats _ _ _ _ _ _ (reader_lats NewClient f) Er') as [-> ->].
  by rewrite (report_order _ _ _ _ (measured_perm _ _ Hw)), (report_order _ _ _ _ (measured_perm _ _ Hr)).
Qed.

Lemma preload_keys keys value env count i c err ks :
  preload NewClient keys value env count i c = Ended (err, ks) -> forall j, (j < count)%nat -> key (i + Z.of_nat j) keys = ks !! j.
Proof.
  revert i c err ks. induction count as [|count IH]; intros i c err ks; cbn [preload]; [intros _ j Hj; lia|].
  destruct (key i keys) as [k|] eqn:Ek; [|done]. cbn [or_panic mbind ends_bind]. unfold or_wait.
  destruct (Put NewClient (tn_kv (env i)) (tn_fuel (env i)) background c k value) as [[r c1]|] eqn:E; [|done]. cbn [mbind ends_bind].
  destruct (put_succeeds _ _ _ _ _ _ _ _ E) as [u ->]. destruct (preload _ _ _ _ _ _ _) as [[err1 ks1]| |] eqn:E1; [|done..].
  cbn [mbind ends_bind]. intros [= <- <-] [|j] Hj; [by rewrite Z.add_0_r|].
  change ((k :: ks1) !! S j) with (ks1 !! j). rewrite <-(IH _ _ _ _ E1 j ltac:(lia)). f_equal. lia.
Qed.

(** Reads hit: a reader asks only for keys that were preloaded. *)
Theorem reads_preloaded keys value env c err ks rnd i k :
  preload NewClient keys value env (min_keys keys) 0 c = Ended (err, ks) -> Intn (Z.min keys 1000) rnd = Some i -> key i keys = Some k -> k ∈ ks.
Proof.
  intros Hp Hi Hk. revert Hi. unfold Intn. destruct (Z.leb_spec (Z.min keys 1000) 0) as [|Hpos]; [done|]. intros [= Hi].
  pose proof (Z.mod_pos_bound rnd (Z.min keys 1000) Hpos) as Hb. rewrite Hi in Hb.
  pose proof (preload_keys _ _ _ _ _ _ _ _ Hp (Z.to_nat i) ltac:(unfold min_keys; lia)) as Hl. rewrite Z2Nat.id in Hl by lia.
  apply (list_elem_of_lookup_2 _ (Z.to_nat i)). rewrite <-Hl. exact Hk.
Qed.

(** Calls that every node refuses are tried for ever. *)
Lemma refused_waits {A} fuel (fn : nat -> conn -> sum error A) c now lastErr backoff :
  (forall k cl, exists er, fn k cl = inl er) -> try_loop NewClient fuel background fn c now lastErr backoff = None.
Proof.
  intros Hf. revert c now lastErr backoff. induction fuel as [|fuel IH]; intros c now lastErr backoff; [done|]. cbn [try_loop].
  destruct (try_nodes NewClient background fn c (order c) now lastErr) as [r1 c1 n1|c1 n1 l1] eqn:E; [|apply IH]. exfalso. revert E. generalize (order c). intros addrs.
  revert c now lastErr. clear IH. induction addrs as [|a addrs IH]; intros c now lastErr; cbn [try_nodes]; [done|].
  change (cx_Err background now) with (@None error). destruct (conn_to NewClient c a) as [[er|cl] c2]; [by apply IH|].
  destruct (Hf now cl) as [er ->]. by apply IH.
Qed.

(** Without a node that takes writes the load generator never ends, however short its
    duration: it waits for its first write. *)
Theorem bench_waits f (b : bench_run) :
  0 < bf_keys f -> 0 <= bf_valsize f -> (forall req k cl, exists er, rpc_Put (tn_kv (br_preload b 0)) req k cl = inl er) -> bench_main f b = Waits.
Proof.
  intros Hk Hv Hf. unfold bench_main. rewrite (proj2 (Z.ltb_ge _ _)) by lia. destruct (min_keys (bf_keys f)) as [|count] eqn:E; [unfold min_keys in E; lia|].
  cbn [preload]. unfold key. rewrite (proj2 (Z.eqb_neq _ _)) by lia. cbn [or_panic mbind ends_bind]. unfold Put. destruct (put_request _ _ _) as [req c].
  unfold try. rewrite refused_waits by (intros; apply Hf). done.
Qed.

End runs.

(** ** Arithmetic in float64, on an example *)

(** The product of a constant and an integer as IEEE 754 has it, truncated. *)
Definition spec_scaled (p : positive) (n : Z) : Z :=
  match SFmul 53 1024 (S754_finite false p (-53)) (binary_normalize 53 1024 n 0 false) with
  | S754_finite _ m e => Z.shiftl (Z.pos m) e
  | _ => 0
  end.

Example scaled_as_float64 :
  forallb (fun n => (Z.of_nat (scaled p90 (N.of_nat n)) =? spec_scaled 8106479329266893 (Z.of_nat n)) &&
                    (Z.of_nat (scaled p99 (N.of_nat n)) =? spec_scaled 8917127262193582 (Z.of_nat n))) (seq 0 300) = true.
Proof. vm_compute. reflexivity. Qed.
